(* ===== verification/_CoqProject ===== *)
-Q . S2P
Prelude.v
BTree.v
Proto.v
Store.v
StoreInv.v
StoreSpec.v
Lease.v
Watch.v
WatchSpec.v
Text.v
Utf8.v
Net.v
Tls.v
Paths.v
Notify.v
Rpc.v
Lb.v
LbSpec.v
LbProbe.v
Clockstep.v
Cli.v
EtcdBoot.v
Ready.v
Pki.v
PkiSpec.v
PkiServer.v
PkiRun.v
PkiServe.v
PkiAgent.v
SnapIdentity.v
SnapApi.v
SnapWait.v
Handoff.v
SnapMesh.v
SnapSlots.v
SnapVerbs.v
SnapCycle.v
SnapProgress.v
SnapUsable.v
SnapMeshCycle.v
UnitTests.v
SnapTests.v
