(* ===== verification/Prelude.v ===== *)
(** * Kubenyx: the Rust tools

    Kubenyx boots Kubernetes clusters in microVMs.  Its Rust code
    ([src/rust/]) is one multicall binary of six tools: an in-memory etcd, a
    load balancer in front of the apiservers, a PKI generator, a readiness
    wrapper, a clock corrector inside the guests, and the snapshot tool that
    takes and restores clusters.  This development models the tools'
    decisions, state and protocols, and proves what they guarantee.  Rust's
    release arithmetic wraps, and so does the model's.

    ** Parts

    This file has what all share: results, the state-and-error monad that
    keeps the state of a computation cut short, machine integers, byte strings
    and lists.  [Text], [Utf8], [Paths] and [Net] are the parts of Rust's
    [str], UTF-8, [Path] ([parent] included) and [std::net] (the readers of
    IP and socket addresses, and how addresses are printed) the sources use;
    [BTree] is [BTreeMap] over an interface of ordered keys; [Notify] is the
    readiness datagram two of the tools send.

    - etcd-mem ([etcd-mem/src]): [Proto] has the messages of [rpc.proto];
      [Store] every method of [store.rs]; [Lease] the leases and the expiry
      task of [lib.rs], interleaved with calls; [Watch] the select loop of a
      watch stream over a broadcast channel, an interface with its documented
      laws and a bounded queue as its instance; [Rpc] the unary handlers of
      [svc.rs]; [EtcdBoot] the start and stop of the server.  [StoreInv] has
      the invariant and the history of a store, [StoreSpec] and [WatchSpec]
      the theorems.
    - kubenyx-lb: [Lb] (configuration, backend choice, eviction policy, pump,
      accept and drain), [LbProbe] (start, probes, the late client
      certificate), [LbSpec].
    - kubenyx-tls: [Tls], the client configurations and the one exchange that
      the probes of kubenyx-lb, kubenyx-ready and kubenyx-snap share, over a
      class of library functions.
    - kubenyx-ready: [Ready].
    - kubenyx-clockstep, and the pokes kubenyx-snap sends it: [Clockstep].
    - kubenyx-pki: [Pki] (arguments, issuance, custody, server and agent
      modes), [PkiSpec], [PkiServer] (whole runs and what they settle),
      [PkiRun] (a run that is given what it needs ends well), [PkiServe] (the
      bundle stream and the accept loop), [PkiAgent] (from the operator's
      bundle to a durable server, from a server's package to a worker), over
      a file system in which the process can be cut off before any step.
    - kubenyx-snap: [SnapIdentity] (what a snapshot is locked to, and the
      gate), [SnapApi] (HTTP by hand), [SnapWait] (quorum client and waits),
      [SnapMesh] (membership, mesh-take, the table of owned VMMs),
      [SnapSlots] (the table one atomic instruction at a time),
      [SnapVerbs] (take, resume, cycle, and the restore threads),
      [SnapCycle] (mesh-resume and the rounds of mesh-cycle),
      [SnapMeshCycle] (the whole mesh-cycle verb), [SnapUsable] (the
      addresses a mesh dials and the waits of a round), [SnapProgress].
    - kubenyx, the multicall binary, and etcd-mem's arguments: [Cli].
    - [Handoff]: what one tool writes is what another reads.
    - [UnitTests], [SnapTests]: the unit tests of kubenyx-lb, kubenyx-pki,
      kubenyx and kubenyx-snap, assertion by assertion, over the definitions
      of the parts above; they pass, which ties the model to what the
      authors check of the code.

    Definitions keep the names of the Rust functions and types they model; a
    function that the code writes inline has a name of its own.

    ** What the theorems show

    - The store: its invariant in every reachable state; the contract of
      list-then-watch (a list at a revision and the events after it are the
      state); each method on each of its branches, panics included; the
      compare-and-swap of a guarded put; the handlers as refinements of the
      store's methods.  Every event that matches reaches a watch exactly once
      and in order, or the stream is told that it lagged; an expiry tick
      revokes exactly the leases due.
    - The load balancer: a connection goes to a healthy backend if one
      accepts and to any backend otherwise; a backend is healthy exactly
      when fewer than the threshold of failures followed its last success;
      the probe loop is that policy over what the connections answered, and
      an accepted start has backends to choose from.
    - Readiness: READY is sent once, for a running child, after a successful
      check, which over TLS means a verified server unless [--insecure]; the
      in-memory server announces itself only once it listens.
    - The PKI: shipped roots are never minted or changed; a finished run is a
      fixed point; a run cut off while it issues a leaf never makes a later
      run keep a certificate with the interrupted run's key; the bundle stream
      decodes to the files; the kubeconfig written is the one the snapshot
      tool reads.  A server with sound SANs and roots ends well within a
      stated number of steps, a worker that gets its package ends well with
      the server's certificates, and a bundle minted, streamed and unpacked
      boots a durable server that leaves it unchanged.
    - Snapshots: the identity survives its manifest; the gate comes before
      anything is spawned and decides by the documented rules; the cut of
      mesh-take (every node paused before any is snapshotted); no verb leaks
      a VMM, and exactly which one survives a failed or interrupted mesh
      restore; registrations in the table are linearizable, and a sweep that
      runs among them kills what was registered when it began; a mesh-cycle
      that is not cut short leaves nothing and prints the figures of its
      rounds; a conventional address is one exactly up to 10.100.0.255; the
      waits and the meshes end, within a stated number of steps, never get
      stuck, and call a mesh usable exactly when it answered in time.
    - Where the code departs from what it means to do, the theorem says what
      it does and a comment or an [Example] shows the case.

    ** Bounds and fuel

    Recursion is structural nearly everywhere.  The waits of [SnapWait] take
    fuel: one unit for every millisecond of the deadline is enough, because
    the code sleeps at least a millisecond between two looks at the clock
    ([wait_quorum_write_terminates], and 20001 for the waits of a round in
    [mesh_round_ends]).  Numbers are printed with fuel for the
    digits of a 64-bit integer, bytes decoded with fuel for their number; the
    reader of the bundle stream takes one step for each file and one more
    ([tar_bundle_roundtrip]).  A disk ([Pki.Disk]) carries the
    number of system calls that still succeed, and the theorems about crashes
    quantify over it; a server run takes at most 196 and 34 for each node
    ([PkiRun.run_steps]).  In [SnapVerbs.mesh_step] each call on the table of
    VMMs is one step; [SnapSlots] shows what its loop of instructions adds.

    ** Not modelled

    - Third-party code: rustls and its provider, X.509 and key generation,
      base64, SHA-256, the gRPC server, the health service and the async
      runtime.  What the code relies on is a class of functions, with laws
      where a theorem needs them ([Tls.TlsLib], [Pki.PkiLib] with
      [PkiLaws] and [PkiRun.PkiWorks], [Watch.Broadcast]) or a variable of a
      section.
    - The operating system: what a read, a write, a connection, a spawned
      process, a clock or a directory listing returned is an input, over which
      the theorems quantify; file modes, directories' contents beyond the
      files named and socket options are left out.  A signal is a step that
      can come between any two others where it changes anything (the drain of
      kubenyx-lb, the death of kubenyx-snap).
    - Log lines and the formatting of milliseconds, except where a script or
      another tool reads them.
    - The Nix modules, guest images, benches and templates, which are not
      Rust. *)

From Stdlib Require Export ZArith NArith Lia Ascii String Sorted.
From stdpp Require Export base tactics numbers list gmap sorting relations.

(** ** Results and the state-and-error monad

    [result] is Rust's [Result].  The error type [E] says how a computation
    can end abnormally: [panicked] for code that can only panic, a message
    for the command-line tools, whose [die] prints it and ends the process, or
    a type of the component's own. *)

Inductive result (E A : Type) : Type :=
| Ok (a : A)
| Err (e : E).
Arguments Ok {E A} a.
Arguments Err {E A} e.

Inductive panicked : Type := Panic.

Definition result_bind {E A B} (f : A → result E B) (m : result E A) : result E B :=
  match m with Ok a => f a | Err e => Err e end.

Definition of_option {E A} (e : E) (o : option A) : result E A :=
  match o with Some a => Ok a | None => Err e end.

Definition is_ok {E A} (m : result E A) : bool :=
  match m with Ok _ => true | Err _ => false end.

(** A stateful computation that can end abnormally keeps the state it had
    reached: a panic in the middle of a handler does not roll back the
    in-place updates made before it. *)
Definition M (E S A : Type) : Type := S → result E A * S.

Definition M_ret {E S A} (a : A) : M E S A := λ s, (Ok a, s).
Definition M_bind {E S A B} (f : A → M E S B) (m : M E S A) : M E S B := λ s,
  match m s with
  | (Ok a, s') => f a s'
  | (Err e, s') => (Err e, s')
  end.
Definition M_raise {E S A} (e : E) : M E S A := λ s, (Err e, s).
Definition M_gets {E S A} (f : S → A) : M E S A := λ s, (Ok (f s), s).
Definition M_modify {E S} (f : S → S) : M E S unit := λ s, (Ok tt, f s).
Definition M_lift {E S A} (r : result E A) : M E S A := λ s, (r, s).

Notation "'let*' x := m 'in' k" := (M_bind (λ x, k) m)
  (at level 10, x name, m at level 100, k at level 200).
Notation "'let*' ' p := m 'in' k" := (M_bind (λ p, k) m)
  (at level 10, p strict pattern, m at level 100, k at level 200).
Notation "'do*' m 'in' k" := (M_bind (λ _ : unit, k) m)
  (at level 10, m at level 100, k at level 200).

(** The [?] operator on [Result]. *)
Notation "'let?' x := m 'in' k" := (result_bind (λ x, k) m)
  (at level 10, x name, m at level 100, k at level 200).
Notation "'let?' ' p := m 'in' k" := (result_bind (λ p, k) m)
  (at level 10, p strict pattern, m at level 100, k at level 200).

(** [collect::<Result<Vec<_>, _>>()]: the first error, if there is one. *)
Fixpoint collect {E A} (rs : list (result E A)) : result E (list A) :=
  match rs with
  | [] => Ok []
  | r :: rs => let? x := r in let? xs := collect rs in Ok (x :: xs)
  end.

Definition map_err {E E' A} (f : E → E') (r : result E A) : result E' A :=
  match r with Ok a => Ok a | Err e => Err (f e) end.

(** [Result::ok]. *)
Definition ok {E A} (r : result E A) : option A :=
  match r with Ok a => Some a | Err _ => None end.

(** [for x in l { f(x) }] collecting the results, left to right. *)
Definition M_mapM {E S A B} (f : A → M E S B) : list A → M E S (list B) :=
  fix go l :=
    match l with
    | [] => M_ret []
    | x :: l => M_bind (λ y, M_bind (λ ys, M_ret (y :: ys)) (go l)) (f x)
    end.

(** [for x in l { f(x); }]. *)
Definition M_iter {E S A} (f : A → M E S unit) : list A → M E S unit :=
  fix go l :=
    match l with
    | [] => M_ret tt
    | x :: l => M_bind (λ _, go l) (f x)
    end.

(** ** Machine integers

    The shipped binaries are release builds, where [+] and [*] on the
    fixed-width integers wrap around. *)
Open Scope Z_scope.

Definition i64_min : Z := - 2 ^ 63.
Definition i64_max : Z := 2 ^ 63 - 1.
Definition u32_max : Z := 2 ^ 32 - 1.
Definition u64_max : Z := 2 ^ 64 - 1.

(** Two's complement reading of [z] modulo [2^w]. *)
Definition wrap_signed (w z : Z) : Z := (z + 2 ^ (w - 1)) mod 2 ^ w - 2 ^ (w - 1).
Definition wrap_unsigned (w z : Z) : Z := z mod 2 ^ w.

Abbreviation wrap_i64 := (wrap_signed 64).
Abbreviation wrap_i32 := (wrap_signed 32).
Abbreviation wrap_u32 := (wrap_unsigned 32).
Abbreviation wrap_u64 := (wrap_unsigned 64).

Definition is_i64 (z : Z) : Prop := i64_min ≤ z ≤ i64_max.

(** ** Bytes and text

    A byte string ([Vec<u8>], [&[u8]]) is a list of byte values; a [str] is
    the list of its Unicode scalar values.  [$ "..."] is the literal in
    either reading (for ASCII literals they agree). *)
Abbreviation bytes := (list N) (only parsing).
Abbreviation text := (list N) (only parsing).

Definition lit (s : string) : list N := N_of_ascii <$> list_ascii_of_string s.
Notation "$ s" := (lit s%string) (at level 1, s at level 0, format "$ s").

Definition is_byte (b : N) : Prop := (b < 256)%N.

(** Lexicographic order on byte strings, as [Ord for Vec<u8>]. *)
Fixpoint bytes_cmp (a b : bytes) : comparison :=
  match a, b with
  | [], [] => Eq
  | [], _ => Lt
  | _, [] => Gt
  | x :: a, y :: b =>
      match N.compare x y with Eq => bytes_cmp a b | c => c end
  end.

Definition bytes_le (a b : bytes) : Prop := bytes_cmp a b ≠ Gt.
Definition bytes_lt (a b : bytes) : Prop := bytes_cmp a b = Lt.

#[export] Instance comparison_eq_dec : EqDecision comparison.
Proof. solve_decision. Defined.
#[export] Instance bytes_le_dec : RelDecision bytes_le.
Proof. intros a b. unfold bytes_le. apply _. Defined.
#[export] Instance bytes_lt_dec : RelDecision bytes_lt.
Proof. intros a b. unfold bytes_lt. apply _. Defined.

(** [Iterator::take] with a count that may be as large as [usize::MAX]. *)
Fixpoint take_Z {A} (n : Z) (l : list A) : list A :=
  match l with
  | [] => []
  | x :: l => if n <=? 0 then [] else x :: take_Z (n - 1) l
  end.

(** ** Hint databases and tactics *)

Create HintDb etcd discriminated.
Create Rewrite HintDb etcd.

(** Case analysis on the boolean comparisons of the code, as propositions. *)
Ltac zbool :=
  repeat match goal with
  | H : (_ <=? _) = true |- _ => apply Z.leb_le in H
  | H : (_ <=? _) = false |- _ => apply Z.leb_gt in H
  | H : (_ <? _) = true |- _ => apply Z.ltb_lt in H
  | H : (_ <? _) = false |- _ => apply Z.ltb_ge in H
  | H : (_ =? _) = true |- _ => apply Z.eqb_eq in H
  | H : (_ =? _) = false |- _ => apply Z.eqb_neq in H
  | H : bool_decide _ = true |- _ => apply bool_decide_eq_true in H
  | H : bool_decide _ = false |- _ => apply bool_decide_eq_false in H
  | H : _ && _ = true |- _ => apply andb_true_iff in H as [??]
  | H : _ || _ = false |- _ => apply orb_false_iff in H as [??]
  end.

(** ** Lemmas *)

Lemma wrap_signed_small w z :
  0 < w → - 2 ^ (w - 1) ≤ z < 2 ^ (w - 1) → wrap_signed w z = z.
Proof.
  intros Hw Hz. unfold wrap_signed.
  assert (2 ^ w = 2 * 2 ^ (w - 1)) as E.
  { replace w with (Z.succ (w - 1)) at 1 by lia. rewrite Z.pow_succ_r by lia. done. }
  rewrite Z.mod_small by lia. lia.
Qed.

Lemma wrap_i64_small z : is_i64 z → wrap_i64 z = z.
Proof. unfold is_i64, i64_min, i64_max. intros. apply wrap_signed_small; lia. Qed.

Lemma wrap_signed_range w z :
  0 < w → - 2 ^ (w - 1) ≤ wrap_signed w z < 2 ^ (w - 1).
Proof.
  intros Hw. unfold wrap_signed.
  assert (2 ^ w = 2 * 2 ^ (w - 1)) as E.
  { replace w with (Z.succ (w - 1)) at 1 by lia. rewrite Z.pow_succ_r by lia. done. }
  pose proof (Z.mod_pos_bound (z + 2 ^ (w - 1)) (2 ^ w)).
  assert (0 < 2 ^ (w - 1)) by (apply Z.pow_pos_nonneg; lia). lia.
Qed.

Lemma wrap_signed_idem_add w a b :
  0 < w → wrap_signed w (wrap_signed w a + b) = wrap_signed w (a + b).
Proof.
  intros Hw. unfold wrap_signed. f_equal.
  replace ((a + 2 ^ (w - 1)) mod 2 ^ w - 2 ^ (w - 1) + b + 2 ^ (w - 1))
    with ((a + 2 ^ (w - 1)) mod 2 ^ w + b) by lia.
  rewrite Zplus_mod_idemp_l. f_equal. lia.
Qed.

Lemma wrap_unsigned_small w z : 0 ≤ z < 2 ^ w → wrap_unsigned w z = z.
Proof. intros. by apply Z.mod_small. Qed.

#[export] Hint Rewrite @wrap_i64_small using (unfold is_i64, i64_min, i64_max in *; lia) : etcd.

(** *** The order on byte strings *)

Lemma bytes_cmp_refl a : bytes_cmp a a = Eq.
Proof. induction a as [|x a IH]; simpl; [done|]. by rewrite N.compare_refl. Qed.

Lemma bytes_cmp_eq a b : bytes_cmp a b = Eq ↔ a = b.
Proof.
  split; [|intros ->; apply bytes_cmp_refl].
  revert b. induction a as [|x a IH]; intros [|y b]; simpl; try done.
  destruct (N.compare_spec x y); try done. intros ?%IH. by subst.
Qed.

Lemma bytes_cmp_antisym a b : bytes_cmp b a = CompOpp (bytes_cmp a b).
Proof.
  revert b. induction a as [|x a IH]; intros [|y b]; simpl; try done.
  rewrite (N.compare_antisym x y). destruct (N.compare x y); simpl; auto.
Qed.

Lemma bytes_lt_trans a b c : bytes_lt a b → bytes_lt b c → bytes_lt a c.
Proof.
  unfold bytes_lt. revert b c.
  induction a as [|x a IH]; intros [|y b] [|z c]; simpl; try done.
  destruct (N.compare_spec x y), (N.compare_spec y z); simplify_eq; try done.
  - rewrite N.compare_refl. eauto.
  - by rewrite (proj2 (N.compare_lt_iff _ _)) by done.
  - by rewrite (proj2 (N.compare_lt_iff _ _)) by done.
  - by rewrite (proj2 (N.compare_lt_iff _ _)) by lia.
Qed.

Lemma bytes_le_lteq a b : bytes_le a b ↔ bytes_lt a b ∨ a = b.
Proof.
  unfold bytes_le, bytes_lt. rewrite <- bytes_cmp_eq.
  destruct (bytes_cmp a b); naive_solver.
Qed.

Lemma bytes_lt_irrefl a : ¬ bytes_lt a a.
Proof. unfold bytes_lt. by rewrite bytes_cmp_refl. Qed.

#[export] Instance bytes_lt_strict : StrictOrder bytes_lt.
Proof. split; [intros a; apply bytes_lt_irrefl | intros a b c; apply bytes_lt_trans]. Qed.

#[export] Instance bytes_le_po : PartialOrder bytes_le.
Proof.
  split; [split|].
  - intros a. apply bytes_le_lteq. by right.
  - intros a b c. rewrite !bytes_le_lteq.
    intros [?| ->] [?| ->]; eauto using bytes_lt_trans.
  - intros a b. rewrite !bytes_le_lteq. intros [Hab|?] [Hba|?]; try done.
    by pose proof (bytes_lt_irrefl _ (bytes_lt_trans _ _ _ Hab Hba)).
Qed.

#[export] Instance bytes_le_total : Total bytes_le.
Proof.
  intros a b. unfold bytes_le. rewrite (bytes_cmp_antisym a b).
  destruct (bytes_cmp a b); simpl; auto.
Qed.

Lemma bytes_not_le a b : ¬ bytes_le a b ↔ bytes_lt b a.
Proof.
  unfold bytes_le, bytes_lt. rewrite (bytes_cmp_antisym a b).
  destruct (bytes_cmp a b); simpl; naive_solver.
Qed.

(** *** Lists *)

Lemma take_Z_take {A} n (l : list A) : take_Z n l = take (Z.to_nat n) l.
Proof.
  revert n. induction l as [|x l IH]; intros n; simpl; [by rewrite take_nil|].
  destruct (n <=? 0) eqn:E; zbool.
  - by replace (Z.to_nat n) with 0%nat by lia.
  - rewrite IH. replace (Z.to_nat n) with (S (Z.to_nat (n - 1))) by lia. done.
Qed.

Lemma take_Z_all {A} n (l : list A) : Z.of_nat (length l) ≤ n → take_Z n l = l.
Proof. intros. rewrite take_Z_take. apply take_ge. lia. Qed.

Lemma foldl_snoc {A B} (f : B → A → B) b l x :
  foldl f b (l ++ [x]) = f (foldl f b l) x.
Proof. by rewrite foldl_app. Qed.

Lemma result_bind_Ok {E A B} (m : result E A) (f : A → result E B) b :
  result_bind f m = Ok b → ∃ a, m = Ok a ∧ f a = Ok b.
Proof. destruct m as [a|e]; [|done]. intros H. by exists a. Qed.

Lemma collect_Ok {E A} (xs : list A) : collect (E:=E) (Ok <$> xs) = Ok xs.
Proof. induction xs as [|x xs IH]; csimpl; [done|]. by rewrite IH. Qed.

Lemma collect_inv {E A} (rs : list (result E A)) l : collect rs = Ok l → rs = Ok <$> l.
Proof.
  revert l. induction rs as [|[x|e] rs IH]; intros l; cbn [collect result_bind]; [by intros [= <-]| |done].
  destruct (collect rs) as [xs|]; [|done]. cbn [result_bind]. intros [= <-]. by rewrite (IH xs).
Qed.

Lemma filter_all {A} (P : A → Prop) `{∀ x, Decision (P x)} (l : list A) :
  Forall P l → filter P l = l.
Proof.
  induction 1 as [|x l Hx Hl IH]; [done|]. by rewrite filter_cons_True, IH.
Qed.

Lemma filter_none {A} (P : A → Prop) `{∀ x, Decision (P x)} (l : list A) :
  Forall (λ x, ¬ P x) l → filter P l = [].
Proof.
  induction 1 as [|x l Hx Hl IH]; [done|]. by rewrite filter_cons_False, IH.
Qed.

Lemma NoDup_fmap_eq {A B} (f : A → B) (l : list A) x y :
  NoDup (f <$> l) → x ∈ l → y ∈ l → f x = f y → x = y.
Proof.
  intros Hd [i Hi]%list_elem_of_lookup [j Hj]%list_elem_of_lookup Hf.
  assert (i = j) as ->; [|congruence].
  eapply NoDup_lookup; [exact Hd| |]; rewrite list_lookup_fmap; [by rewrite Hi|by rewrite Hj, Hf].
Qed.

Lemma Forall_mp {A} (P Q : A → Prop) (l : list A) :
  Forall (λ x, P x → Q x) l → Forall P l → Forall Q l.
Proof. rewrite !Forall_forall. eauto. Qed.

Lemma filter_iff_in {A} (P Q : A → Prop) `{∀ x, Decision (P x)} `{∀ x, Decision (Q x)}
    (l : list A) : (∀ x, x ∈ l → P x ↔ Q x) → filter P l = filter Q l.
Proof.
  induction l as [|x l IH]; intros E; [done|].
  rewrite !filter_cons. rewrite IH by (intros; apply E; by right).
  assert (P x ↔ Q x) by (apply E; left). repeat case_decide; tauto || done.
Qed.

(** *** The monad *)

Lemma M_bind_ok {E S A B} (f : A → M E S B) m s a s' :
  m s = (Ok a, s') → M_bind f m s = f a s'.
Proof. unfold M_bind. by intros ->. Qed.

Lemma M_bind_gets {E S A B} (f : A → M E S B) g s : M_bind f (M_gets g) s = f (g s) s.
Proof. done. Qed.

Lemma M_bind_Ok_inv {E S A B} (f : A → M E S B) (m : M E S A) s b s' :
  M_bind f m s = (Ok b, s') → ∃ a s1, m s = (Ok a, s1) ∧ f a s1 = (Ok b, s').
Proof. unfold M_bind. destruct (m s) as [[a|e] s1]; [eauto|done]. Qed.

Lemma M_bind_err {E S A B} (f : A → M E S B) m s e s' :
  m s = (Err e, s') → M_bind f m s = (Err e, s').
Proof. unfold M_bind. by intros ->. Qed.

(** What each round of a loop establishes and the other rounds keep holds of
    all at the end. *)
Lemma M_iter_establish {E S A} (f : A → M E S unit) (Q : A → S → Prop) l :
  (∀ x s s', x ∈ l → f x s = (Ok tt, s') → Q x s') →
  (∀ x y s s', x ∈ l → y ∈ l → f x s = (Ok tt, s') → Q y s → Q y s') →
  ∀ s s', M_iter f l s = (Ok tt, s') → ∀ x, x ∈ l → Q x s'.
Proof.
  intros H1 H2.
  assert (∀ k, k ⊆ l → ∀ s s', M_iter f k s = (Ok tt, s') →
    (∀ x, x ∈ k → Q x s') ∧ ∀ y, y ∈ l → Q y s → Q y s') as H.
  { induction k as [|x k IH]; intros Hk s s' Em.
    - simpl in Em. injection Em as <-. split; [|done]. by intros x ?%not_elem_of_nil.
    - cbn [M_iter] in Em. apply M_bind_Ok_inv in Em as ([] & s1 & E1 & E2).
      assert (x ∈ l) as Hx by (apply Hk; left).
      destruct (IH ltac:(intros y Hy; apply Hk; by right) s1 s' E2) as [IH1 IH2]. split.
      + intros y [->|Hy]%elem_of_cons; [|auto]. eauto.
      + intros y Hy Hq. eauto. }
  intros s s' Em. by apply (H l ltac:(done) s s' Em).
Qed.

(** A preorder on states that every primitive step respects is respected by
    every program built from them. *)
Section preserves.
Context {E S : Type} (R : S → S → Prop) `{!PreOrder R}.

Definition preserves {A} (m : M E S A) : Prop := ∀ s, R s (m s).2.

Lemma preserves_ret {A} (a : A) : preserves (M_ret a).
Proof. intros s. simpl. reflexivity. Qed.

Lemma preserves_raise {A} (e : E) : preserves (M_raise (A:=A) e).
Proof. intros s. simpl. reflexivity. Qed.

Lemma preserves_gets {A} (f : S → A) : preserves (M_gets f).
Proof. intros s. simpl. reflexivity. Qed.

Lemma preserves_lift {A} (r : result E A) : preserves (M_lift r).
Proof. intros s. simpl. reflexivity. Qed.

Lemma preserves_bind {A B} (m : M E S A) (f : A → M E S B) :
  preserves m → (∀ a, preserves (f a)) → preserves (M_bind f m).
Proof.
  intros Hm Hf s. unfold M_bind. specialize (Hm s).
  destruct (m s) as [[a|e] s'] eqn:Em; simpl in *; [|done].
  etrans; [done|]. apply Hf.
Qed.

Lemma preserves_mapM {A B} (f : A → M E S B) l :
  Forall (λ x, preserves (f x)) l → preserves (M_mapM f l).
Proof.
  induction 1 as [|x l Hx Hl IH]; simpl; [apply preserves_ret|].
  apply preserves_bind; [done|]. intros y. apply preserves_bind; [done|].
  intros ys. apply preserves_ret.
Qed.

Lemma preserves_iter {A} (f : A → M E S unit) l :
  Forall (λ x, preserves (f x)) l → preserves (M_iter f l).
Proof.
  induction 1 as [|x l Hx Hl IH]; simpl; [apply preserves_ret|].
  by apply preserves_bind.
Qed.
End preserves.

#[export] Hint Resolve preserves_ret preserves_raise preserves_gets preserves_lift
  preserves_bind preserves_mapM preserves_iter : etcd.
