(* ===== verification/BTree.v ===== *)
(** * BTreeMap

    Rust's [std::collections::BTreeMap] as the sources use it: a [gmap] for
    the contents, with iteration in ascending key order.  [range] panics when
    its start is greater than its end, as the documentation of
    [BTreeMap::range] says.  The key order is an interface, [KeyOrder], with
    instances for byte strings (the keys of the KV store) and [i64] (the lease
    ids). *)

From S2P Require Import Prelude.

Class KeyOrder (K : Type) := {
  key_le : relation K;
  key_le_dec :: RelDecision key_le;
  key_le_po :: PartialOrder key_le;
  key_le_total :: Total key_le;
}.

#[export] Instance bytes_order : KeyOrder bytes := {| key_le := bytes_le |}.

#[export] Instance i64_order : KeyOrder Z.
Proof. refine {| key_le := Z.le |}. Defined.

Section btree.
Context {K V : Type} `{Countable K} `{!KeyOrder K}.

Definition entry_le (x y : K * V) : Prop := key_le x.1 y.1.

#[global] Instance entry_le_dec : RelDecision entry_le.
Proof. intros x y. unfold entry_le. apply _. Defined.

(** [m.iter()]: every entry, in ascending key order. *)
Definition btree_iter (m : gmap K V) : list (K * V) :=
  merge_sort entry_le (map_to_list m).

Definition btree_keys (m : gmap K V) : list K := (btree_iter m).*1.
Definition btree_values (m : gmap K V) : list V := (btree_iter m).*2.

(** [m.range(lo..)]. *)
Definition btree_range_from (lo : K) (m : gmap K V) : list (K * V) :=
  filter (λ e, key_le lo e.1) (btree_iter m).

(** [m.range(lo..hi)], which panics when [lo > hi]. *)
Definition btree_range (lo hi : K) (m : gmap K V) : result panicked (list (K * V)) :=
  if decide (key_le lo hi)
  then Ok (filter (λ e, key_le lo e.1 ∧ ¬ key_le hi e.1) (btree_iter m))
  else Err Panic.

(** Strictly ascending keys. *)
Definition key_lt (a b : K) : Prop := key_le a b ∧ a ≠ b.
Definition ascending (l : list (K * V)) : Prop := StronglySorted key_lt l.*1.

#[local] Instance entry_le_preorder : PreOrder entry_le.
Proof.
  split; unfold entry_le; [intros x | intros x y z ??]; [reflexivity | by etrans].
Qed.
#[local] Instance entry_le_total : Total entry_le.
Proof. intros x y. apply (total key_le). Qed.

Lemma btree_iter_perm (m : gmap K V) : btree_iter m ≡ₚ map_to_list m.
Proof. apply merge_sort_Permutation. Qed.

Lemma elem_of_btree_iter (m : gmap K V) k v : (k, v) ∈ btree_iter m ↔ m !! k = Some v.
Proof. by rewrite btree_iter_perm, elem_of_map_to_list. Qed.

Lemma NoDup_btree_keys (m : gmap K V) : NoDup (btree_keys m).
Proof. unfold btree_keys. rewrite btree_iter_perm. apply NoDup_fst_map_to_list. Qed.

Lemma elem_of_btree_keys (m : gmap K V) k : k ∈ btree_keys m ↔ is_Some (m !! k).
Proof.
  unfold btree_keys. rewrite list_elem_of_fmap. split.
  - intros ([k' v] & -> & ?%elem_of_btree_iter). by eexists.
  - intros [v Hv]. exists (k, v). by rewrite elem_of_btree_iter.
Qed.

Lemma elem_of_btree_values (m : gmap K V) v :
  v ∈ btree_values m ↔ ∃ k, m !! k = Some v.
Proof.
  unfold btree_values. rewrite list_elem_of_fmap. split.
  - intros ([k v'] & -> & ?%elem_of_btree_iter). by eexists.
  - intros [k Hv]. exists (k, v). by rewrite elem_of_btree_iter.
Qed.

Lemma btree_iter_ascending (m : gmap K V) : ascending (btree_iter m).
Proof.
  unfold ascending. pose proof (NoDup_btree_keys m) as Hnd. unfold btree_keys in Hnd.
  assert (StronglySorted entry_le (btree_iter m)) as Hs.
  { apply (StronglySorted_merge_sort entry_le). }
  induction Hs as [|x l Hs IH Hx]; simpl in *; [constructor|].
  apply NoDup_cons in Hnd as [Hnin Hnd]. constructor; [auto|].
  rewrite Forall_fmap. rewrite Forall_forall in Hx |- *. intros y Hy. split.
  - by apply Hx.
  - intros E. apply Hnin. rewrite E. apply list_elem_of_fmap. eauto.
Qed.

Lemma ascending_filter (P : K * V → Prop) `{∀ x, Decision (P x)} l :
  ascending l → ascending (filter P l).
Proof.
  unfold ascending. induction l as [|x l IH]; simpl; [done|].
  intros [Hx Hl]%StronglySorted_cons. rewrite filter_cons. case_decide; [|auto].
  simpl. constructor; [auto|].
  rewrite Forall_fmap in Hx |- *. rewrite Forall_forall in Hx |- *.
  intros y [_ Hy]%list_elem_of_filter. by apply Hx.
Qed.

(** Two ascending lists with the same entries are equal. *)
Lemma ascending_unique l1 l2 :
  ascending l1 → ascending l2 → (∀ e, e ∈ l1 ↔ e ∈ l2) → l1 = l2.
Proof.
  unfold ascending.
  assert (∀ l : list (K * V), StronglySorted key_lt l.*1 →
    StronglySorted entry_le l ∧ NoDup l) as Hboth.
  { induction l as [|x l IH]; simpl; [repeat constructor|].
    intros [Hx Hl]%StronglySorted_cons. destruct (IH Hl) as [??].
    rewrite Forall_fmap, Forall_forall in Hx. split.
    - constructor; [done|]. apply Forall_forall. intros y Hy. apply (Hx _ Hy).
    - constructor; [|done]. intros Hin. by destruct (Hx _ Hin). }
  intros Hs1 Hs2 E. destruct (Hboth _ Hs1) as [Hl1 Hn1], (Hboth _ Hs2) as [Hl2 Hn2].
  eapply (StronglySorted_unique_strong entry_le); [|done|done|by apply NoDup_Permutation].
  intros [k1 v1] [k2 v2] H1 H2 Hle1 Hle2. unfold entry_le in *. simpl in *.
  assert (k1 = k2) as <- by by apply (anti_symm key_le).
  apply E in H2. clear -H1 H2 Hs1.
  induction l1 as [|x l IH]; simpl in *; [by apply not_elem_of_nil in H1|].
  apply StronglySorted_cons in Hs1 as [Hx Hl].
  rewrite Forall_fmap, Forall_forall in Hx.
  apply elem_of_cons in H1 as [H1|H1], H2 as [H2|H2]; simplify_eq/=; auto.
  - by destruct (Hx _ H2).
  - by destruct (Hx _ H1).
Qed.

Lemma elem_of_btree_range_from lo (m : gmap K V) k v :
  (k, v) ∈ btree_range_from lo m ↔ key_le lo k ∧ m !! k = Some v.
Proof. unfold btree_range_from. by rewrite list_elem_of_filter, elem_of_btree_iter. Qed.

Lemma elem_of_btree_range lo hi (m : gmap K V) l k v :
  btree_range lo hi m = Ok l →
  (k, v) ∈ l ↔ (key_le lo k ∧ ¬ key_le hi k) ∧ m !! k = Some v.
Proof.
  unfold btree_range. case_decide; intros; simplify_eq.
  by rewrite list_elem_of_filter, elem_of_btree_iter.
Qed.

Lemma btree_range_ascending lo hi (m : gmap K V) l :
  btree_range lo hi m = Ok l → ascending l.
Proof.
  unfold btree_range. case_decide; intros; simplify_eq.
  apply ascending_filter, btree_iter_ascending.
Qed.

Lemma btree_range_from_ascending lo (m : gmap K V) : ascending (btree_range_from lo m).
Proof. apply ascending_filter, btree_iter_ascending. Qed.

Lemma btree_range_panics lo hi (m : gmap K V) :
  btree_range lo hi m = Err Panic ↔ ¬ key_le lo hi.
Proof. unfold btree_range. case_decide; naive_solver. Qed.
End btree.

#[export] Hint Resolve btree_iter_ascending btree_range_ascending
  btree_range_from_ascending : etcd.

Lemma bytes_key_lt_alt (a b : bytes) : ¬ key_le b a ↔ bytes_lt a b.
Proof. apply bytes_not_le. Qed.
