(* ===== verification/Proto.v ===== *)
(** * The etcdserverpb messages

    The messages of [rust/etcd-mem/proto/rpc.proto] as the generated code
    presents them: a message is a record, a [oneof] an option of an inductive
    type, an enum field its [i32], a message field an [option].  Fields the
    server never reads ([sort_order], [serializable], [physical], ...) are
    kept, so that a request value is the whole request. *)

From S2P Require Import Prelude.

Record ResponseHeader := {
  cluster_id : Z; member_id : Z; hdr_revision : Z; raft_term : Z }.

Record KeyValue := {
  pkv_key : bytes; pkv_create_revision : Z; pkv_mod_revision : Z;
  pkv_version : Z; pkv_value : bytes; pkv_lease : Z }.

Record Event := {
  ev_type : Z; ev_kv : option KeyValue; ev_prev_kv : option KeyValue }.

Record RangeRequest := {
  rr_key : bytes; rr_range_end : bytes; rr_limit : Z; rr_revision : Z;
  rr_sort_order : Z; rr_sort_target : Z; rr_serializable : bool;
  rr_keys_only : bool; rr_count_only : bool;
  rr_min_mod_revision : Z; rr_max_mod_revision : Z;
  rr_min_create_revision : Z; rr_max_create_revision : Z }.

Record RangeResponse := {
  rrs_header : option ResponseHeader; rrs_kvs : list KeyValue;
  rrs_more : bool; rrs_count : Z }.

Record PutRequest := {
  pr_key : bytes; pr_value : bytes; pr_lease : Z; pr_prev_kv : bool;
  pr_ignore_value : bool; pr_ignore_lease : bool }.

Record PutResponse := {
  prs_header : option ResponseHeader; prs_prev_kv : option KeyValue }.

Record DeleteRangeRequest := {
  dr_key : bytes; dr_range_end : bytes; dr_prev_kv : bool }.

Record DeleteRangeResponse := {
  drs_header : option ResponseHeader; drs_deleted : Z; drs_prev_kvs : list KeyValue }.

Inductive TargetUnion :=
| TVersion (x : Z) | TCreateRevision (x : Z) | TModRevision (x : Z)
| TLease (x : Z) | TValue (x : bytes).

(** [CompareResult]: EQUAL = 0, GREATER = 1, LESS = 2, NOT_EQUAL = 3;
    [CompareTarget]: VERSION = 0, CREATE = 1, MOD = 2, VALUE = 3, LEASE = 4. *)
Record Compare := {
  c_result : Z; c_target : Z; c_key : bytes;
  c_target_union : option TargetUnion; c_range_end : bytes }.

(** A transaction may hold transactions: [TxnOf op] is the message
    [TxnRequest] with the type of its operations a parameter, so that
    [RequestOp { request: Option<Request> }] nests it. *)
Inductive TxnOf (op : Type) :=
| mkTxnRequest (compare : list Compare) (success failure : list op).
Arguments mkTxnRequest {op} compare success failure.

Inductive RequestOp :=
| RequestRange (r : RangeRequest)
| RequestPut (r : PutRequest)
| RequestDeleteRange (r : DeleteRangeRequest)
| RequestTxn (r : TxnOf RequestOp)
| RequestNone.

Definition TxnRequest : Type := TxnOf RequestOp.

Inductive ResponseOp :=
| ResponseRange (r : RangeResponse)
| ResponsePut (r : PutResponse)
| ResponseDeleteRange (r : DeleteRangeResponse)
| ResponseTxn (header : option ResponseHeader) (succeeded : bool) (responses : list ResponseOp)
| ResponseNone.

Definition txn_compare (t : TxnRequest) : list Compare := let 'mkTxnRequest c _ _ := t in c.
Definition txn_success (t : TxnRequest) : list RequestOp := let 'mkTxnRequest _ s _ := t in s.
Definition txn_failure (t : TxnRequest) : list RequestOp := let 'mkTxnRequest _ _ f := t in f.

Record WatchCreateRequest := {
  wc_key : bytes; wc_range_end : bytes; wc_start_revision : Z;
  wc_progress_notify : bool; wc_filters : list Z; wc_prev_kv : bool;
  wc_watch_id : Z; wc_fragment : bool }.

(** [WatchRequest { request_union: Option<RequestUnion> }]. *)
Inductive WatchRequest :=
| CreateRequest (cr : WatchCreateRequest)
| CancelRequest (watch_id : Z)
| ProgressRequest
| NoRequest.

Record WatchResponse := {
  wr_header : option ResponseHeader; wr_watch_id : Z; wr_created : bool;
  wr_canceled : bool; wr_compact_revision : Z; wr_cancel_reason : text;
  wr_fragment : bool; wr_events : list Event }.

(** Induction over requests with the hypothesis for every operation nested
    in a transaction. *)
Section request_ind.
Variables (P : RequestOp → Prop) (Q : TxnRequest → Prop).
Hypothesis (HR : ∀ r, P (RequestRange r)) (HP : ∀ r, P (RequestPut r))
  (HD : ∀ r, P (RequestDeleteRange r)) (HN : P RequestNone)
  (HT : ∀ r, Q r → P (RequestTxn r))
  (HQ : ∀ c s f, Forall P s → Forall P f → Q (mkTxnRequest c s f)).

Fixpoint RequestOp_rect_nested (op : RequestOp) : P op :=
  match op with
  | RequestRange r => HR r
  | RequestPut r => HP r
  | RequestDeleteRange r => HD r
  | RequestTxn (mkTxnRequest c s f) =>
      let go := fix go l : Forall P l :=
        match l with
        | [] => Forall_nil_2 P
        | op :: l => Forall_cons_2 P op l (RequestOp_rect_nested op) (go l)
        end in
      HT (mkTxnRequest c s f) (HQ c s f (go s) (go f))
  | RequestNone => HN
  end.

Lemma request_ind_nested : (∀ op, P op) ∧ (∀ t, Q t).
Proof.
  split; [exact RequestOp_rect_nested|].
  intros [c s f]. apply HQ; apply Forall_true, RequestOp_rect_nested.
Qed.
End request_ind.
