(* ===== verification/Store.v ===== *)
(** * The in-memory etcd store ([rust/etcd-mem/src/store.rs])

    [Store] is the state behind the server's mutex; every method of
    [impl Store] is a definition.  Methods that mutate run in
    [M panicked Store], whose error is a Rust panic: a panic keeps the updates
    made before it, as the in-place code does.

    The [tokio::sync::broadcast] sender is not modelled here: [tx] records
    the batches the store has handed to it, in order.  What receivers see is
    the interface of [Watch.v]. *)

From S2P Require Import Prelude BTree Proto.

Definition CLUSTER_ID : Z := 0xCAFEDEADBEEF0001.
Definition MEMBER_ID : Z := 1.

(** ** Types *)

Record Kv := mkKv {
  kv_key : bytes; kv_value : bytes; kv_create_revision : Z;
  kv_mod_revision : Z; kv_version : Z; kv_lease : Z }.

Record StoredEvent := mkStoredEvent {
  se_type : Z; se_kv : Kv; se_prev_kv : option Kv }.

Record BroadcastBatch := mkBatch {
  b_revision : Z; b_events : list StoredEvent }.

(** [Instant] is a count of nanoseconds. *)
Record LeaseEntry := mkLease {
  le_id : Z; le_granted_ttl : Z; le_deadline : Z; le_keys : list bytes }.

Record Store := mkStore {
  kvs : gmap bytes Kv;
  revision : Z;
  compact_revision : Z;
  log : list (Z * list StoredEvent);
  leases : gmap Z LeaseEntry;
  next_lease_id : Z;
  tx : list BroadcastBatch;
}.

#[export] Instance Kv_eq_dec : EqDecision Kv.
Proof. solve_decision. Defined.
#[export] Instance StoredEvent_eq_dec : EqDecision StoredEvent.
Proof. solve_decision. Defined.
#[export] Instance BroadcastBatch_eq_dec : EqDecision BroadcastBatch.
Proof. solve_decision. Defined.
#[export] Instance LeaseEntry_eq_dec : EqDecision LeaseEntry.
Proof. solve_decision. Defined.

Definition Store_new : Store := {|
  kvs := ∅; revision := 1; compact_revision := 0; log := []; leases := ∅;
  next_lease_id := 1; tx := [] |}.

(** Field updates ([self.f = v]). *)
Definition set_kvs (f : gmap bytes Kv → gmap bytes Kv) (s : Store) : Store :=
  mkStore (f (kvs s)) (revision s) (compact_revision s) (log s) (leases s)
    (next_lease_id s) (tx s).
Definition set_revision (f : Z → Z) (s : Store) : Store :=
  mkStore (kvs s) (f (revision s)) (compact_revision s) (log s) (leases s)
    (next_lease_id s) (tx s).
Definition set_compaction (r : Z) (l : list (Z * list StoredEvent)) (s : Store) : Store :=
  mkStore (kvs s) (revision s) r l (leases s) (next_lease_id s) (tx s).
Definition set_leases (f : gmap Z LeaseEntry → gmap Z LeaseEntry) (s : Store) : Store :=
  mkStore (kvs s) (revision s) (compact_revision s) (log s) (f (leases s))
    (next_lease_id s) (tx s).
Definition set_next_lease_id (f : Z → Z) (s : Store) : Store :=
  mkStore (kvs s) (revision s) (compact_revision s) (log s) (leases s)
    (f (next_lease_id s)) (tx s).

Abbreviation St := (M panicked Store).

Definition header_rev (rev : Z) : ResponseHeader :=
  {| cluster_id := CLUSTER_ID; member_id := MEMBER_ID; hdr_revision := rev; raft_term := 1 |}.
Definition header (s : Store) : ResponseHeader := header_rev (revision s).

(** ** Range *)

(** The rev-range filters of a [RangeRequest]. *)
Definition range_filter (at_rev : Z) (r : RangeRequest) (kv : Kv) : bool :=
  (kv_mod_revision kv <=? at_rev)
  && ((rr_min_mod_revision r =? 0) || (rr_min_mod_revision r <=? kv_mod_revision kv))
  && ((rr_max_mod_revision r =? 0) || (kv_mod_revision kv <=? rr_max_mod_revision r))
  && ((rr_min_create_revision r =? 0) || (rr_min_create_revision r <=? kv_create_revision kv))
  && ((rr_max_create_revision r =? 0) || (kv_create_revision kv <=? rr_max_create_revision r)).

(** The entries a [key]/[range_end] pair selects, in key order: the empty
    [range_end] is exactly one key, ["\x00"] is every key from [key] on. *)
Definition select_range (key range_end : bytes) (m : gmap bytes Kv)
    : result panicked (list (bytes * Kv)) :=
  if decide (range_end = []) then
    Ok (match m !! key with Some kv => [(key, kv)] | None => [] end)
  else if decide (range_end = [0%N]) then Ok (btree_range_from key m)
  else btree_range key range_end m.

Definition range_kvs (s : Store) (r : RangeRequest) : result panicked (list Kv * bool * Z) :=
  let at_rev := if rr_revision r =? 0 then revision s else Z.min (rr_revision r) (revision s) in
  let? sel := select_range (rr_key r) (rr_range_end r) (kvs s) in
  let filtered := filter (λ kv, range_filter at_rev r kv = true) sel.*2 in
  let total := Z.of_nat (length filtered) in
  let lim := if rr_limit r <=? 0 then u64_max else rr_limit r in
  let more := lim <? Z.of_nat (length filtered) in
  Ok (take_Z lim filtered, more, total).

(** ** Mutations *)

Definition emit (rev : Z) (events : list StoredEvent) : St unit :=
  M_modify (λ s, mkStore (kvs s) (revision s) (compact_revision s)
    (log s ++ [(rev, events)]) (leases s) (next_lease_id s)
    (tx s ++ [mkBatch rev events])).

(** [le.keys.retain(|k| k != key)] on the lease [l], when it exists. *)
Definition lease_retain (l : Z) (key : bytes) (m : gmap Z LeaseEntry) : gmap Z LeaseEntry :=
  alter (λ le, mkLease (le_id le) (le_granted_ttl le) (le_deadline le)
    (filter (λ k, k ≠ key) (le_keys le))) l m.

(** [if !le.keys.contains(&key) { le.keys.push(key) }] on the lease [l]. *)
Definition lease_attach (l : Z) (key : bytes) (m : gmap Z LeaseEntry) : gmap Z LeaseEntry :=
  alter (λ le, if decide (key ∈ le_keys le) then le
    else mkLease (le_id le) (le_granted_ttl le) (le_deadline le) (le_keys le ++ [key])) l m.

(** The entry [put] writes over [prev] at revision [rev]. *)
Definition put_entry (prev : option Kv) (rev : Z) (key value : bytes) (lease : Z)
    (ignore_value ignore_lease : bool) : Kv :=
  let use_value := if ignore_value then default [] (kv_value <$> prev) else value in
  let use_lease := if ignore_lease then default 0 (kv_lease <$> prev) else lease in
  {| kv_key := key; kv_value := use_value;
     kv_create_revision := default rev (kv_create_revision <$> prev);
     kv_mod_revision := rev;
     kv_version := default 1 ((λ k, wrap_i64 (kv_version k + 1)) <$> prev);
     kv_lease := use_lease |}.

Definition put (key value : bytes) (lease : Z) (want_prev_kv ignore_value ignore_lease : bool)
    : St (ResponseHeader * option Kv) :=
  do* M_modify (set_revision (λ r, wrap_i64 (r + 1))) in
  let* rev := M_gets revision in
  let* prev := M_gets (λ s, kvs s !! key) in
  let entry := put_entry prev rev key value lease ignore_value ignore_lease in
  let old_lease := default 0 (kv_lease <$> prev) in
  do* M_modify (set_leases (λ m, if old_lease =? 0 then m else lease_retain old_lease key m)) in
  do* M_modify (set_leases (λ m,
    if kv_lease entry =? 0 then m else lease_attach (kv_lease entry) key m)) in
  do* M_modify (set_kvs <[key := entry]>) in
  do* emit rev [mkStoredEvent 0 entry prev] in
  let* hdr := M_gets header in
  M_ret (hdr, if want_prev_kv then prev else None).

(** One turn of the loop over the keys to delete: the event and the previous
    value, when the key was there. *)
Definition delete_one (rev : Z) (k : bytes) : St (option (StoredEvent * Kv)) :=
  let* o := M_gets (λ s, kvs s !! k) in
  do* M_modify (set_kvs (delete k)) in
  match o with
  | None => M_ret None
  | Some old =>
      do* M_modify (set_leases (λ m,
        if kv_lease old =? 0 then m else lease_retain (kv_lease old) k m)) in
      let del_kv := {| kv_key := k; kv_value := []; kv_create_revision := kv_create_revision old;
                       kv_mod_revision := rev; kv_version := 0; kv_lease := 0 |} in
      M_ret (Some (mkStoredEvent 1 del_kv (Some old), old))
  end.

Definition delete_keys (s : Store) (req_key range_end : bytes) : result panicked (list bytes) :=
  let? sel := select_range req_key range_end (kvs s) in Ok sel.*1.

Definition delete_range (req_key range_end : bytes) (want_prev_kv : bool)
    : St (ResponseHeader * Z * list Kv) :=
  let* s := M_gets id in
  let* keys := M_lift (delete_keys s req_key range_end) in
  if decide (keys = []) then
    let* hdr := M_gets header in M_ret (hdr, 0, [])
  else
    do* M_modify (set_revision (λ r, wrap_i64 (r + 1))) in
    let* rev := M_gets revision in
    let* removed := M_mapM (delete_one rev) keys in
    let removed := omap id removed in
    let events := removed.*1 in
    let prev_kvs := if want_prev_kv then removed.*2 else [] in
    do* emit rev events in
    let* hdr := M_gets header in
    M_ret (hdr, Z.of_nat (length events), prev_kvs).

(** ** Transactions *)

Definition kv_to_proto (k : Kv) (keys_only : bool) : KeyValue := {|
  pkv_key := kv_key k; pkv_value := (if keys_only then [] else kv_value k);
  pkv_create_revision := kv_create_revision k; pkv_mod_revision := kv_mod_revision k;
  pkv_version := kv_version k; pkv_lease := kv_lease k |}.

Definition kv_to_event (ev : StoredEvent) : Event := {|
  ev_type := se_type ev; ev_kv := Some (kv_to_proto (se_kv ev) false);
  ev_prev_kv := (λ k, kv_to_proto k false) <$> se_prev_kv ev |}.

(** The ordering the request's [result] asks for. *)
Definition compare_result (result : Z) : comparison :=
  if result =? 0 then Eq else if result =? 1 then Gt else if result =? 2 then Lt else Eq.

Definition ord_matches (result : Z) (ord : comparison) : bool :=
  if result =? 3 then bool_decide (ord ≠ Eq) else bool_decide (ord = compare_result result).

Definition eval_compare (s : Store) (c : Compare) : bool :=
  let kv := kvs s !! c_key c in
  let ok := ord_matches (c_result c) in
  let tgt := c_target c in
  if tgt =? 0 then
    ok (Z.compare (default 0 (kv_version <$> kv))
          (match c_target_union c with Some (TVersion x) => x | _ => 0 end))
  else if tgt =? 1 then
    ok (Z.compare (default 0 (kv_create_revision <$> kv))
          (match c_target_union c with Some (TCreateRevision x) => x | _ => 0 end))
  else if tgt =? 2 then
    ok (Z.compare (default 0 (kv_mod_revision <$> kv))
          (match c_target_union c with Some (TModRevision x) => x | _ => 0 end))
  else if tgt =? 3 then
    ok (bytes_cmp (default [] (kv_value <$> kv))
          (match c_target_union c with Some (TValue x) => x | _ => [] end))
  else if tgt =? 4 then
    ok (Z.compare (default 0 (kv_lease <$> kv))
          (match c_target_union c with Some (TLease x) => x | _ => 0 end))
  else true.

(** The [RangeResponse] both the Range RPC and a transaction build. *)
Definition range_response (s : Store) (r : RangeRequest) : result panicked RangeResponse :=
  let? '(ks, more, count) := range_kvs s r in
  Ok {| rrs_header := Some (header s);
        rrs_kvs := (if rr_count_only r then [] else (λ k, kv_to_proto k (rr_keys_only r)) <$> ks);
        rrs_more := more; rrs_count := count |}.

Definition put_response (r : PutRequest) : St PutResponse :=
  let* '(hdr, prev) := put (pr_key r) (pr_value r) (pr_lease r) (pr_prev_kv r)
    (pr_ignore_value r) (pr_ignore_lease r) in
  M_ret {| prs_header := Some hdr; prs_prev_kv := (λ k, kv_to_proto k false) <$> prev |}.

Definition delete_range_response (r : DeleteRangeRequest) : St DeleteRangeResponse :=
  let* '(hdr, deleted, prev_kvs) := delete_range (dr_key r) (dr_range_end r) (dr_prev_kv r) in
  M_ret {| drs_header := Some hdr; drs_deleted := deleted;
           drs_prev_kvs := (λ k, kv_to_proto k false) <$> prev_kvs |}.

(** [txn] and [exec_op] call each other: [txn_with] is the body of [txn] over
    the executor of its operations. *)
Definition txn_with (exec_op : RequestOp → St ResponseOp) (req : TxnRequest) :
    St (ResponseHeader * bool * list ResponseOp) :=
  match req with
  | mkTxnRequest compare success failure =>
      let* ok := M_gets (λ s, forallb (eval_compare s) compare) in
      let* responses := M_mapM exec_op (if ok : bool then success else failure) in
      let* hdr := M_gets header in
      M_ret (hdr, ok, responses)
  end.

Fixpoint exec_op (op : RequestOp) : St ResponseOp :=
  match op with
  | RequestRange r =>
      let* s := M_gets id in
      let* resp := M_lift (range_response s r) in
      M_ret (ResponseRange resp)
  | RequestPut r => let* resp := put_response r in M_ret (ResponsePut resp)
  | RequestDeleteRange r =>
      let* resp := delete_range_response r in M_ret (ResponseDeleteRange resp)
  | RequestTxn r =>
      let* '(hdr, ok, responses) := txn_with exec_op r in
      M_ret (ResponseTxn (Some hdr) ok responses)
  | RequestNone => M_ret ResponseNone
  end.

Definition txn (req : TxnRequest) : St (ResponseHeader * bool * list ResponseOp) :=
  txn_with exec_op req.

(** ** Compaction *)

Definition compact (compact_rev : Z) : St ResponseHeader :=
  do* M_modify (λ s,
    if compact_revision s <? compact_rev
    then set_compaction compact_rev (filter (λ e, compact_rev < e.1) (log s)) s
    else s) in
  M_gets header.

(** ** Leases *)

Definition ns_per_sec : Z := 10 ^ 9.

(** [Instant::now() + Duration::from_secs(secs)]: panics when the sum is not
    representable (seconds are an [i64]). *)
Definition instant_add (now secs : Z) : result panicked Z :=
  let t := now + secs * ns_per_sec in
  if t / ns_per_sec <=? i64_max then Ok t else Err Panic.

(** [now] is what [Instant::now()] returns in the call. *)
Definition lease_grant (now ttl id : Z) : St (ResponseHeader * Z * Z) :=
  let* next := M_gets next_lease_id in
  do* (if id =? 0 then M_modify (set_next_lease_id (λ n, wrap_i64 (n + 1))) else M_ret tt) in
  let actual_id := if id =? 0 then next else id in
  let actual_ttl := Z.max ttl 1 in
  let* deadline := M_lift (instant_add now actual_ttl) in
  do* M_modify (set_leases <[actual_id := mkLease actual_id actual_ttl deadline []]>) in
  let* hdr := M_gets header in
  M_ret (hdr, actual_id, actual_ttl).

Definition lease_revoke (id : Z) : St ResponseHeader :=
  let* o := M_gets (λ s, leases s !! id) in
  match o with
  | Some le =>
      do* M_modify (set_leases (delete id)) in
      do* M_iter (λ k, let* _r := delete_range k [] false in M_ret tt) (le_keys le) in
      M_gets header
  | None => M_gets header
  end.

Definition lease_keepalive (now id : Z) : St (option (ResponseHeader * Z * Z)) :=
  let* o := M_gets (λ s, leases s !! id) in
  match o with
  | None => M_ret None
  | Some le =>
      let* deadline := M_lift (instant_add now (le_granted_ttl le)) in
      do* M_modify (set_leases <[id := mkLease (le_id le) (le_granted_ttl le) deadline (le_keys le)]>) in
      let* hdr := M_gets header in
      M_ret (Some (hdr, id, le_granted_ttl le))
  end.

Definition lease_ttl (s : Store) (now id : Z) (want_keys : bool)
    : option (ResponseHeader * Z * Z * list bytes) :=
  le ← leases s !! id;
  let remaining := Z.max 0 (le_deadline le - now) / ns_per_sec in
  Some (header s, id, remaining, if want_keys then le_keys le else []).

Definition lease_list (s : Store) : list Z := btree_keys (leases s).

Definition expired_leases (s : Store) (now : Z) : list Z :=
  le_id <$> filter (λ le, le_deadline le ≤ now) (btree_values (leases s)).

(** ** Watch log *)

Definition events_since (s : Store) (start_rev : Z) : list (Z * list StoredEvent) :=
  filter (λ e, start_rev < e.1) (log s).

(** ** Smoke tests *)

Example put_get_delete :
  let '(r, s) := (do* (let* _r := put $"/a" $"1" 0 false false false in M_ret tt) in
                  delete_range $"/a" [] true) Store_new in
  r = Ok (header_rev 3, 1, [mkKv $"/a" $"1" 2 2 1 0]) ∧ kvs s = ∅ ∧ length (tx s) = 2%nat.
Proof. vm_compute. done. Qed.
