(* ===== verification/StoreInv.v ===== *)
(** * The store's invariant and its history

    [store_wf] is the invariant of [Store.v]: revisions count the batches
    emitted, the map is the replay of those batches, every entry's revisions
    and version are in order, the log is the history above some revision no
    larger than the compacted one, and a lease was granted at least a second
    and only lists keys that are attached to it.  [evolves] is the preorder
    every method respects: the history only grows, and the invariant is kept
    as long as the revision counter has not reached [i64::MAX]. *)

From S2P Require Import Prelude BTree Proto Store.

(** ** Definitions *)

(** What a watcher does with an event: a PUT stores the entry, a DELETE
    removes the key. *)
Definition apply_event (m : gmap bytes Kv) (ev : StoredEvent) : gmap bytes Kv :=
  if se_type ev =? 0 then <[kv_key (se_kv ev) := se_kv ev]> m
  else delete (kv_key (se_kv ev)) m.

Definition apply_events (m : gmap bytes Kv) (evs : list StoredEvent) : gmap bytes Kv :=
  foldl apply_event m evs.

Definition batch_entry (b : BroadcastBatch) : Z * list StoredEvent :=
  (b_revision b, b_events b).

(** The full history of the store, in the shape of the log. *)
Definition history (s : Store) : list (Z * list StoredEvent) := batch_entry <$> tx s.

Definition replay (m : gmap bytes Kv) (h : list (Z * list StoredEvent)) : gmap bytes Kv :=
  foldl (λ m e, apply_events m e.2) m h.

Definition kv_wf (rev : Z) (k : bytes) (kv : Kv) : Prop :=
  kv_key kv = k ∧ 2 ≤ kv_create_revision kv ≤ kv_mod_revision kv ∧ kv_mod_revision kv ≤ rev
  ∧ 1 ≤ kv_version kv ≤ kv_mod_revision kv - kv_create_revision kv + 1.

Definition lease_wf (m : gmap bytes Kv) (id : Z) (le : LeaseEntry) : Prop :=
  le_id le = id ∧ (NoDup (le_keys le) ∧ 1 ≤ le_granted_ttl le)
  ∧ ∀ k, k ∈ le_keys le → id ≠ 0 ∧ ∃ kv, m !! k = Some kv ∧ kv_lease kv = id.

Definition batch_wf (i : nat) (b : BroadcastBatch) : Prop :=
  b_revision b = Z.of_nat i + 2 ∧ b_events b ≠ []
  ∧ Forall (λ e, kv_mod_revision (se_kv e) = b_revision b) (b_events b).

Record store_wf (s : Store) : Prop := {
  wf_rev : revision s = 1 + Z.of_nat (length (tx s));
  wf_kvs : map_Forall (kv_wf (revision s)) (kvs s);
  wf_replay : replay ∅ (history s) = kvs s;
  wf_batches : ∀ i b, tx s !! i = Some b → batch_wf i b;
  wf_log : ∃ c, c ≤ compact_revision s ∧ c ≤ revision s
             ∧ log s = filter (λ e, c < e.1) (history s);
  wf_leases : map_Forall (lease_wf (kvs s)) (leases s);
}.

(** Fewer batches than [i64] revisions. *)
Definition in_range (s : Store) : Prop := 1 + Z.of_nat (length (tx s)) ≤ i64_max.

Definition evolves (s s' : Store) : Prop :=
  tx s `prefix_of` tx s' ∧ compact_revision s ≤ compact_revision s'
  ∧ (in_range s' → store_wf s → store_wf s').

(** Every mutating method of the store, with the value of [Instant::now()]
    where the method reads the clock. *)
Inductive Op :=
| OpPut (r : PutRequest)
| OpDeleteRange (r : DeleteRangeRequest)
| OpTxn (r : TxnRequest)
| OpCompact (rev : Z)
| OpLeaseGrant (now ttl id : Z)
| OpLeaseRevoke (id : Z)
| OpLeaseKeepalive (now id : Z).

Definition run_op (op : Op) (s : Store) : Store :=
  match op with
  | OpPut r => (put_response r s).2
  | OpDeleteRange r => (delete_range_response r s).2
  | OpTxn r => (txn r s).2
  | OpCompact rev => (compact rev s).2
  | OpLeaseGrant now ttl id => (lease_grant now ttl id s).2
  | OpLeaseRevoke id => (lease_revoke id s).2
  | OpLeaseKeepalive now id => (lease_keepalive now id s).2
  end.

Definition run_ops (ops : list Op) (s : Store) : Store := foldl (λ s op, run_op op s) s ops.

Definition op_step (s s' : Store) : Prop := ∃ op, s' = run_op op s.
Definition reachable (s : Store) : Prop := rtc op_step Store_new s.

(** The state [put] leaves. *)
Definition put_state (s : Store) (key value : bytes) (lease : Z) (ignore_value ignore_lease : bool)
    : Store :=
  let rev := wrap_i64 (revision s + 1) in
  let prev := kvs s !! key in
  let entry := put_entry prev rev key value lease ignore_value ignore_lease in
  let old_lease := default 0 (kv_lease <$> prev) in
  let ls1 := if old_lease =? 0 then leases s else lease_retain old_lease key (leases s) in
  let ls2 := if kv_lease entry =? 0 then ls1 else lease_attach (kv_lease entry) key ls1 in
  mkStore (<[key := entry]> (kvs s)) rev (compact_revision s)
    (log s ++ [(rev, [mkStoredEvent 0 entry prev])]) ls2 (next_lease_id s)
    (tx s ++ [mkBatch rev [mkStoredEvent 0 entry prev]]).

(** The tombstone event of a key that held [old]. *)
Definition tombstone (rev : Z) (k : bytes) (old : Kv) : StoredEvent :=
  mkStoredEvent 1 {| kv_key := k; kv_value := []; kv_create_revision := kv_create_revision old;
                     kv_mod_revision := rev; kv_version := 0; kv_lease := 0 |} (Some old).

(** The state after the loop over the selected entries. *)
Definition drop_entry (s : Store) (e : bytes * Kv) : Store :=
  set_leases (λ m, if kv_lease e.2 =? 0 then m else lease_retain (kv_lease e.2) e.1 m)
    (set_kvs (delete e.1) s).
Definition drop_entries (s : Store) (sel : list (bytes * Kv)) : Store := foldl drop_entry s sel.

Definition delete_state (s : Store) (sel : list (bytes * Kv)) : Store :=
  let rev := wrap_i64 (revision s + 1) in
  let s' := drop_entries s sel in
  let evs := (λ e, tombstone rev e.1 e.2) <$> sel in
  mkStore (kvs s') rev (compact_revision s) (log s ++ [(rev, evs)]) (leases s')
    (next_lease_id s) (tx s ++ [mkBatch rev evs]).

(** ** Closed forms of the mutations *)

Lemma put_eq key value lease wp iv il s :
  put key value lease wp iv il s =
  (Ok (header_rev (wrap_i64 (revision s + 1)), if wp then kvs s !! key else None),
   put_state s key value lease iv il).
Proof. reflexivity. Qed.

Lemma put_response_eq r s :
  put_response r s =
  (Ok {| prs_header := Some (header_rev (wrap_i64 (revision s + 1)));
         prs_prev_kv := (λ k, kv_to_proto k false) <$>
           (if pr_prev_kv r then kvs s !! pr_key r else None) |},
   put_state s (pr_key r) (pr_value r) (pr_lease r) (pr_ignore_value r) (pr_ignore_lease r)).
Proof. reflexivity. Qed.

Lemma select_range_lookup key range_end m sel k kv :
  select_range key range_end m = Ok sel → (k, kv) ∈ sel → m !! k = Some kv.
Proof.
  unfold select_range. repeat case_decide; intros E Hin; simplify_eq.
  - destruct (m !! key) eqn:Em; [|by apply not_elem_of_nil in Hin].
    apply list_elem_of_singleton in Hin. by simplify_eq.
  - by apply elem_of_btree_range_from in Hin as [_ ?].
  - by apply (elem_of_btree_range _ _ _ _ _ _ E) in Hin as [_ ?].
Qed.

Lemma ascending_NoDup {V} (l : list (bytes * V)) : ascending l → NoDup l.*1.
Proof.
  unfold ascending. induction 1 as [|k ks Hks IH Hk]; constructor; [|done].
  intros Hin. rewrite Forall_forall in Hk. by destruct (Hk _ Hin).
Qed.

Lemma select_range_ascending key range_end m sel :
  select_range key range_end m = Ok sel → ascending sel.
Proof.
  unfold select_range. repeat case_decide; intros; simplify_eq; eauto with etcd.
  destruct (m !! key); unfold ascending; simpl; repeat constructor.
Qed.

Lemma delete_one_eq rev k old s :
  kvs s !! k = Some old →
  delete_one rev k s = (Ok (Some (tombstone rev k old, old)), drop_entry s (k, old)).
Proof. intros E. unfold delete_one, M_bind, M_gets, M_modify. by rewrite E. Qed.

Lemma drop_entry_fields s e :
  revision (drop_entry s e) = revision s ∧ log (drop_entry s e) = log s
  ∧ tx (drop_entry s e) = tx s ∧ compact_revision (drop_entry s e) = compact_revision s
  ∧ next_lease_id (drop_entry s e) = next_lease_id s
  ∧ kvs (drop_entry s e) = delete e.1 (kvs s).
Proof. done. Qed.

Lemma delete_loop_eq rev sel s :
  NoDup sel.*1 → (∀ k kv, (k, kv) ∈ sel → kvs s !! k = Some kv) →
  M_mapM (delete_one rev) sel.*1 s =
  (Ok ((λ e, Some (tombstone rev e.1 e.2, e.2)) <$> sel), drop_entries s sel).
Proof.
  revert s. induction sel as [|[k kv] sel IH]; intros s Hnd Hin; [done|].
  simpl in Hnd. apply NoDup_cons in Hnd as [Hk Hnd]. simpl.
  erewrite M_bind_ok; [|apply delete_one_eq, Hin; left].
  erewrite M_bind_ok; [|apply IH; [done|]]; [done|].
  intros k' kv' Hin'. simpl. rewrite lookup_delete_ne.
  - apply Hin. by right.
  - intros ->. apply Hk. apply list_elem_of_fmap. by exists (k', kv').
Qed.

Lemma omap_some_fmap {A B} (f : A → B) (l : list A) :
  omap id ((λ x, Some (f x)) <$> l) = f <$> l.
Proof. induction l; simpl; by f_equal. Qed.

Lemma drop_entries_fields s sel :
  revision (drop_entries s sel) = revision s ∧ log (drop_entries s sel) = log s
  ∧ tx (drop_entries s sel) = tx s ∧ compact_revision (drop_entries s sel) = compact_revision s
  ∧ next_lease_id (drop_entries s sel) = next_lease_id s.
Proof.
  unfold drop_entries. revert s.
  induction sel as [|e sel IH]; intros s; [done|]. simpl.
  destruct (IH (drop_entry s e)) as (-> & -> & -> & -> & ->). done.
Qed.

Lemma drop_entries_set_revision f s sel :
  drop_entries (set_revision f s) sel = set_revision f (drop_entries s sel).
Proof.
  unfold drop_entries. revert s. induction sel as [|e sel IH]; intros s; [done|].
  apply (IH (drop_entry s e)).
Qed.

(** [delete_range] in closed form, on its three branches. *)
Lemma delete_range_eq key range_end wp s :
  delete_range key range_end wp s =
  match select_range key range_end (kvs s) with
  | Err Panic => (Err Panic, s)
  | Ok [] => (Ok (header s, 0, []), s)
  | Ok sel => (Ok (header_rev (wrap_i64 (revision s + 1)), Z.of_nat (length sel),
                   if wp then sel.*2 else []), delete_state s sel)
  end.
Proof.
  unfold delete_range, delete_keys. unfold M_bind at 1, M_gets at 1, M_bind at 1, M_lift. simpl.
  destruct (select_range key range_end (kvs s)) as [sel|[]] eqn:Esel; [|done]. simpl.
  destruct sel as [|e sel]; [done|]. rewrite decide_False by done.
  pose proof (select_range_ascending _ _ _ _ Esel) as Hasc%ascending_NoDup.
  set (l := e :: sel) in *. clearbody l.
  unfold M_bind at 1, M_modify at 1. unfold M_bind at 1, M_gets at 1.
  erewrite M_bind_ok; [|apply delete_loop_eq; [done|]]; [|intros k kv Hin;
    by apply (select_range_lookup _ _ _ _ _ _ Esel Hin)].
  rewrite omap_some_fmap.
  rewrite drop_entries_set_revision.
  destruct (drop_entries_fields s l) as (Hr & Hl & Ht & Hc & Hn).
  unfold M_bind, M_gets, M_ret, emit, M_modify, delete_state, header; simpl.
  rewrite <- !list_fmap_compose, !length_fmap, Hr, Hl, Ht, Hc, Hn. done.
Qed.

(** ** Replay and history *)

Lemma replay_app m h1 h2 : replay m (h1 ++ h2) = replay (replay m h1) h2.
Proof. apply foldl_app. Qed.

Lemma in_range_prefix s s' : tx s `prefix_of` tx s' → in_range s' → in_range s.
Proof. unfold in_range. intros [l E]. rewrite E, length_app. lia. Qed.

Lemma history_revisions s :
  store_wf s → ∀ e, e ∈ history s → 2 ≤ e.1 ≤ revision s.
Proof.
  intros Hwf e (b & -> & [i Hi]%list_elem_of_lookup)%list_elem_of_fmap.
  destruct (wf_batches _ Hwf _ _ Hi) as (Hb & _). simpl. rewrite Hb, (wf_rev _ Hwf).
  apply lookup_lt_Some in Hi. lia.
Qed.

Lemma filter_history_none s c :
  store_wf s → revision s ≤ c → filter (λ e, c < e.1) (history s) = [].
Proof.
  intros Hwf Hc. apply filter_none, Forall_forall. intros e He.
  pose proof (history_revisions _ Hwf _ He). lia.
Qed.

(** Past the compacted revision the log is the history. *)
Lemma events_since_history s r :
  store_wf s → compact_revision s ≤ r →
  events_since s r = filter (λ e, r < e.1) (history s).
Proof.
  intros Hwf Hr. destruct (wf_log _ Hwf) as (c & Hc & _ & E).
  unfold events_since. rewrite E, list_filter_filter. apply list_filter_iff. intros e. lia.
Qed.

Lemma history_split s s' :
  store_wf s → store_wf s' → tx s `prefix_of` tx s' →
  history s' = history s ++ filter (λ e, revision s < e.1) (history s').
Proof.
  intros Hwf Hwf' [l E]. unfold history at 1. rewrite E, fmap_app. f_equal.
  unfold history. rewrite E, fmap_app, filter_app.
  rewrite (filter_history_none s) by done. symmetry. apply filter_all, Forall_forall.
  intros e (b & -> & [i Hi]%list_elem_of_lookup)%list_elem_of_fmap.
  destruct (wf_batches _ Hwf' (length (tx s) + i) b) as (Hb & _).
  { rewrite E, lookup_app_r by lia. by replace (_ + i - _)%nat with i by lia. }
  simpl. rewrite Hb, (wf_rev _ Hwf). lia.
Qed.

(** ** The methods keep the invariant *)

#[export] Instance evolves_preorder : PreOrder evolves.
Proof.
  split.
  - intros s. split_and!; [done|lia|done].
  - intros s1 s2 s3 (Hp & Hc & Hw) (Hp' & Hc' & Hw'). split_and!; [by etrans|lia|].
    eauto using in_range_prefix.
Qed.

Lemma kv_wf_mono rev rev' k kv : rev ≤ rev' → kv_wf rev k kv → kv_wf rev' k kv.
Proof. unfold kv_wf. intros. destruct_and!. repeat split; done || lia. Qed.

(** A method that emits one batch of events and applies it to the map. *)
Lemma wf_emitted s s' evs :
  store_wf s →
  revision s' = revision s + 1 → compact_revision s' = compact_revision s →
  tx s' = tx s ++ [mkBatch (revision s') evs] →
  log s' = log s ++ [(revision s', evs)] →
  evs ≠ [] → Forall (λ e, kv_mod_revision (se_kv e) = revision s') evs →
  kvs s' = apply_events (kvs s) evs →
  map_Forall (kv_wf (revision s')) (kvs s') →
  map_Forall (lease_wf (kvs s')) (leases s') →
  store_wf s'.
Proof.
  intros Hwf Hrev Hc Htx Hlog Hne Hmod Hkvs Hkv Hls. constructor; [|done| | | |done].
  - rewrite Hrev, (wf_rev _ Hwf), Htx, length_app. simpl. lia.
  - unfold history. rewrite Htx, fmap_app, replay_app, Hkvs. simpl.
    rewrite <- (wf_replay _ Hwf). done.
  - intros i b. rewrite Htx. intros [Hi|[Hi Hb]]%lookup_app_Some.
    + by apply (wf_batches _ Hwf).
    + apply list_lookup_singleton_Some in Hb as [Hi' <-].
      repeat split; [|done|done]. simpl. rewrite Hrev, (wf_rev _ Hwf). lia.
  - destruct (wf_log _ Hwf) as (c & Hc1 & Hc2 & E). exists c.
    rewrite Hc, Hlog, E. unfold history. rewrite Htx, fmap_app, filter_app. simpl.
    rewrite filter_cons_True by (simpl; lia). split_and!; [done|lia|done].
Qed.

Lemma elem_of_lease_retain l key m id le :
  lease_retain l key m !! id = Some le →
  ∃ le0, m !! id = Some le0 ∧ le_id le = le_id le0
    ∧ le_granted_ttl le = le_granted_ttl le0
    ∧ le_keys le = if decide (id = l) then filter (λ k, k ≠ key) (le_keys le0) else le_keys le0.
Proof.
  unfold lease_retain. rewrite lookup_alter. intros H. case_decide; subst.
  - apply fmap_Some in H as (le0 & E & ->). exists le0. by rewrite decide_True.
  - exists le. by rewrite decide_False.
Qed.

Lemma elem_of_lease_attach l key m id le :
  lease_attach l key m !! id = Some le →
  ∃ le0, m !! id = Some le0 ∧ le_id le = le_id le0
    ∧ le_granted_ttl le = le_granted_ttl le0
    ∧ le_keys le = if decide (id = l ∧ key ∉ le_keys le0) then le_keys le0 ++ [key]
                   else le_keys le0.
Proof.
  unfold lease_attach. rewrite lookup_alter. intros H. case_decide; subst.
  - apply fmap_Some in H as (le0 & E & ->). exists le0.
    case_decide; [rewrite decide_False by naive_solver|rewrite decide_True by done]; done.
  - exists le. rewrite decide_False by naive_solver. done.
Qed.

(** Detaching [key] from the lease its current entry names leaves a lease
    table that is well-formed away from [key], and in which no lease lists
    [key]. *)
Lemma lease_detach m ls key prev :
  map_Forall (lease_wf m) ls → m !! key = prev →
  let old := default 0 (kv_lease <$> prev) in
  ∀ id le, (if old =? 0 then ls else lease_retain old key ls) !! id = Some le →
  le_id le = id ∧ (NoDup (le_keys le) ∧ 1 ≤ le_granted_ttl le)
  ∧ ∀ k, k ∈ le_keys le → k ≠ key ∧ id ≠ 0 ∧ ∃ kv, m !! k = Some kv ∧ kv_lease kv = id.
Proof.
  intros Hls Hprev old id le Hle.
  assert (∀ le0, ls !! id = Some le0 → id ≠ old → key ∉ le_keys le0) as Hother.
  { intros le0 H0 Hne Hin. destruct (Hls _ _ H0) as (_ & _ & Hk).
    destruct (Hk _ Hin) as (_ & kv & Hkv & El). apply Hne. unfold old.
    rewrite <- Hprev, Hkv. by simpl. }
  destruct (old =? 0) eqn:E0; zbool.
  - destruct (Hls _ _ Hle) as (? & ? & Hk). split; [done|]. split; [done|]. intros k Hin.
    destruct (Hk _ Hin) as (? & ?). split_and!; [|done|done].
    intros ->. apply (Hother le Hle); [congruence|done].
  - apply elem_of_lease_retain in Hle as (le0 & H0 & Hid & Hgr & Hkeys).
    destruct (Hls _ _ H0) as (? & [? ?] & Hk). rewrite Hid, Hgr, Hkeys.
    case_decide; split_and!; try done; eauto using NoDup_filter.
    + intros k [? Hin]%list_elem_of_filter. naive_solver.
    + intros k Hin. destruct (Hk _ Hin). split_and!; [|done|done].
      intros ->. by apply (Hother le0 H0).
Qed.

Lemma drop_entry_leases s k kv :
  map_Forall (lease_wf (kvs s)) (leases s) → kvs s !! k = Some kv →
  map_Forall (lease_wf (kvs (drop_entry s (k, kv)))) (leases (drop_entry s (k, kv))).
Proof.
  intros Hls Hk id le Hle. simpl in Hle.
  pose proof (lease_detach _ _ _ _ Hls Hk) as Hdet. simpl in Hdet.
  destruct (Hdet _ _ Hle) as (? & ? & Hkeys). split; [done|]. split; [done|].
  intros k' Hin. destruct (Hkeys _ Hin) as (Hne & ? & kv' & ? & ?). split; [done|].
  exists kv'. simpl. by rewrite lookup_delete_ne.
Qed.

Lemma drop_entries_wf s sel :
  NoDup sel.*1 → (∀ k kv, (k, kv) ∈ sel → kvs s !! k = Some kv) →
  map_Forall (lease_wf (kvs s)) (leases s) →
  map_Forall (lease_wf (kvs (drop_entries s sel))) (leases (drop_entries s sel))
  ∧ ∀ rev, kvs (drop_entries s sel) =
      apply_events (kvs s) ((λ e, tombstone rev e.1 e.2) <$> sel).
Proof.
  revert s. induction sel as [|[k kv] sel IH]; intros s Hnd Hin Hls; [done|].
  simpl in Hnd. apply NoDup_cons in Hnd as [Hk Hnd].
  change (drop_entries s ((k, kv) :: sel)) with (drop_entries (drop_entry s (k, kv)) sel).
  edestruct (IH (drop_entry s (k, kv))) as [H1 H2]; [done| | |split; [done|]].
  - intros k' kv' Hin'. simpl. rewrite lookup_delete_ne; [apply Hin; by right|].
    intros ->. apply Hk, list_elem_of_fmap. by exists (k', kv').
  - apply drop_entry_leases; [done|]. apply Hin. left.
  - intros rev. by rewrite (H2 rev).
Qed.

Lemma apply_events_delete_lookup rev sel m k :
  apply_events m ((λ e, tombstone rev e.1 e.2) <$> sel) !! k =
  if decide (k ∈ sel.*1) then None else m !! k.
Proof.
  unfold apply_events. revert m.
  induction sel as [|[k' kv] sel IH]; intros m; [done|].
  rewrite fmap_cons. simpl. rewrite IH. unfold apply_event at 1. simpl.
  destruct (decide (k = k')) as [->|].
  - rewrite lookup_delete_eq. repeat case_decide; set_solver.
  - rewrite lookup_delete_ne by done. repeat case_decide; set_solver.
Qed.

Lemma next_revision s s' b :
  store_wf s → in_range s' → tx s' = tx s ++ [b] →
  wrap_i64 (revision s + 1) = revision s + 1.
Proof.
  intros Hwf Hr E. apply wrap_i64_small. unfold is_i64, i64_min.
  unfold in_range in Hr. rewrite E, length_app in Hr. simpl in Hr.
  rewrite (wf_rev _ Hwf). lia.
Qed.

Lemma put_entry_wf s key value lease iv il rev :
  store_wf s → rev = revision s + 1 → is_i64 rev →
  kv_wf rev key (put_entry (kvs s !! key) rev key value lease iv il).
Proof.
  intros Hwf Hrev Hi. unfold kv_wf, put_entry. simpl.
  destruct (kvs s !! key) as [kv|] eqn:E; simpl.
  - destruct (wf_kvs _ Hwf _ _ E) as (_ & ? & ? & ?).
    rewrite wrap_i64_small by (unfold is_i64, i64_min, i64_max in *; lia).
    split_and!; lia || done.
  - pose proof (wf_rev _ Hwf). split_and!; lia || done.
Qed.

Lemma put_leases (m : gmap bytes Kv) (ls : gmap Z LeaseEntry) key entry :
  map_Forall (lease_wf m) ls →
  let old := default 0 (kv_lease <$> m !! key) in
  let ls1 := if old =? 0 then ls else lease_retain old key ls in
  map_Forall (lease_wf (<[key := entry]> m))
    (if kv_lease entry =? 0 then ls1 else lease_attach (kv_lease entry) key ls1).
Proof.
  intros Hls old ls1 id le Hle.
  pose proof (lease_detach _ _ key _ Hls eq_refl) as Hdet. cbv zeta in Hdet.
  fold old in Hdet. fold ls1 in Hdet. clearbody ls1.
  assert (∀ k, k ≠ key → ∀ kv, m !! k = Some kv → <[key:=entry]> m !! k = Some kv)
    as Hkeep by (intros; by rewrite lookup_insert_ne).
  destruct (kv_lease entry =? 0) eqn:E0; zbool.
  - destruct (Hdet _ _ Hle) as (? & ? & Hk). split; [done|]. split; [done|]. intros k Hin.
    destruct (Hk _ Hin) as (? & ? & kv & ? & ?). eauto 10.
  - apply elem_of_lease_attach in Hle as (le0 & H0 & Hid & Hgr & Hkeys).
    destruct (Hdet _ _ H0) as (Hid0 & [Hnd ?] & Hk). unfold lease_wf. rewrite Hid, Hgr, Hkeys.
    case_decide as Hd; split_and!; try done.
    + apply NoDup_app. split_and!; [done| |apply NoDup_singleton].
      intros k ? ->%list_elem_of_singleton. by destruct Hd.
    + destruct Hd as [-> _]. intros k [Hin| ->%list_elem_of_singleton]%elem_of_app.
      * destruct (Hk _ Hin) as (? & ? & kv & ? & ?). eauto 10.
      * split; [done|]. exists entry. by rewrite lookup_insert_eq.
    + intros k Hin. destruct (Hk _ Hin) as (? & ? & kv & ? & ?). eauto 10.
Qed.

Lemma put_evolves s key value lease iv il : evolves s (put_state s key value lease iv il).
Proof.
  split_and!; [by eexists|simpl; lia|]. intros Hr Hwf.
  pose proof (next_revision _ _ _ Hwf Hr eq_refl) as Hrev.
  assert (is_i64 (revision s + 1)) as Hi.
  { rewrite <- Hrev. unfold is_i64, i64_min, i64_max.
    pose proof (wrap_signed_range 64 (revision s + 1)). lia. }
  eapply (wf_emitted s _ [mkStoredEvent 0 _ (kvs s !! key)]); simpl; try done.
  - by constructor.
  - rewrite Hrev. apply map_Forall_insert_2; [by apply put_entry_wf|].
    eapply map_Forall_impl; [apply (wf_kvs _ Hwf)|]. intros k kv. apply kv_wf_mono. lia.
  - apply put_leases, (wf_leases _ Hwf).
Qed.

Lemma delete_evolves s key range_end sel :
  select_range key range_end (kvs s) = Ok sel → sel ≠ [] → evolves s (delete_state s sel).
Proof.
  intros Esel Hne. split_and!; [by eexists|simpl; lia|]. intros Hr Hwf.
  pose proof (next_revision _ _ _ Hwf Hr eq_refl) as Hrev.
  destruct (drop_entries_wf s sel) as [Hls Hkvs].
  { eapply ascending_NoDup, select_range_ascending, Esel. }
  { intros k kv Hin. eapply select_range_lookup; eauto. }
  { apply (wf_leases _ Hwf). }
  eapply (wf_emitted s); simpl; try done.
  - by destruct sel.
  - apply Forall_fmap, Forall_forall. intros e _. done.
  - rewrite Hrev, (Hkvs 0). intros k kv. rewrite apply_events_delete_lookup.
    case_decide; [done|]. intros E. eapply kv_wf_mono; [|by apply (wf_kvs _ Hwf)]. lia.
Qed.

Lemma delete_range_evolves key range_end wp : preserves evolves (delete_range key range_end wp).
Proof.
  intros s. rewrite delete_range_eq.
  destruct (select_range key range_end (kvs s)) as [[|e sel]|[]] eqn:E; simpl; try reflexivity.
  by eapply delete_evolves.
Qed.

Lemma put_response_evolves r : preserves evolves (put_response r).
Proof. intros s. rewrite put_response_eq. apply put_evolves. Qed.

Lemma delete_range_response_evolves r : preserves evolves (delete_range_response r).
Proof.
  apply preserves_bind; [apply _|apply delete_range_evolves|]. intros [[hdr n] l].
  apply preserves_ret, _.
Qed.

Lemma exec_op_txn_evolves :
  (∀ op, preserves evolves (exec_op op)) ∧ (∀ t, preserves evolves (txn t)).
Proof.
  apply request_ind_nested; simpl.
  - intros r. apply preserves_bind; [apply _|apply preserves_gets, _|]. intros s.
    apply preserves_bind; [apply _|apply preserves_lift, _|]. intros a. apply preserves_ret, _.
  - intros r. apply preserves_bind; [apply _|apply put_response_evolves|].
    intros a. apply preserves_ret, _.
  - intros r. apply preserves_bind; [apply _|apply delete_range_response_evolves|].
    intros a. apply preserves_ret, _.
  - apply preserves_ret, _.
  - intros r Hr. apply preserves_bind; [apply _|done|]. intros [[hdr ok] l].
    apply preserves_ret, _.
  - intros c s f Hs Hf. apply preserves_bind; [apply _|apply preserves_gets, _|]. intros ok.
    apply preserves_bind; [apply _|apply preserves_mapM; [apply _|by destruct ok]|].
    intros rs. apply preserves_bind; [apply _|apply preserves_gets, _|]. intros hdr.
    apply preserves_ret, _.
Qed.

Lemma compact_evolves rev : preserves evolves (compact rev).
Proof.
  apply preserves_bind; [apply _| |intros _; apply preserves_gets, _]. intros s.
  unfold M_modify. simpl. destruct (_ <? _) eqn:E; zbool; [|reflexivity].
  split_and!; [done|simpl; lia|]. intros _ Hwf. destruct (wf_log _ Hwf) as (c & Hc1 & Hc2 & El).
  constructor; simpl; try apply Hwf.
  exists (Z.min rev (revision s)). split_and!; [lia|lia|].
  rewrite El, list_filter_filter. unfold history. apply filter_iff_in.
  intros e He. pose proof (history_revisions _ Hwf _ He). simpl. lia.
Qed.

(** A method that only touches the lease table and the id counter. *)
Lemma evolves_leases s s' :
  kvs s' = kvs s → revision s' = revision s → compact_revision s' = compact_revision s →
  log s' = log s → tx s' = tx s →
  (map_Forall (lease_wf (kvs s)) (leases s) → map_Forall (lease_wf (kvs s)) (leases s')) →
  evolves s s'.
Proof.
  intros Hk Hr Hc Hl Ht Hls. split_and!; [by rewrite Ht|lia|]. intros _ Hwf.
  constructor; unfold history; rewrite ?Hk, ?Hr, ?Hc, ?Hl, ?Ht; try apply Hwf.
  apply Hls, (wf_leases _ Hwf).
Qed.

Lemma lease_wf_fresh m id ttl deadline :
  1 ≤ ttl → lease_wf m id (mkLease id ttl deadline []).
Proof. intros Ht. split_and!; [done|constructor|done|]. intros k Hk. by apply not_elem_of_nil in Hk. Qed.

Lemma lease_grant_evolves now ttl id : preserves evolves (lease_grant now ttl id).
Proof.
  apply preserves_bind; [apply _|apply preserves_gets, _|]. intros next.
  apply preserves_bind; [apply _| |intros _].
  { destruct (id =? 0); [|apply preserves_ret, _]. intros s. by apply evolves_leases. }
  apply preserves_bind; [apply _|apply preserves_lift, _|]. intros deadline.
  apply preserves_bind; [apply _| |intros _].
  - intros s. apply evolves_leases; try done. intros Hls. simpl.
    apply map_Forall_insert_2; [apply lease_wf_fresh; lia|done].
  - apply preserves_bind; [apply _|apply preserves_gets, _|]. intros hdr.
    apply preserves_ret, _.
Qed.

Lemma lease_revoke_evolves id : preserves evolves (lease_revoke id).
Proof.
  apply preserves_bind; [apply _|apply preserves_gets, _|]. intros [le|]; [|apply preserves_gets, _].
  apply preserves_bind; [apply _| |intros _].
  - intros s. apply evolves_leases; try done. intros Hls. by apply map_Forall_delete.
  - apply preserves_bind; [apply _| |intros _; apply preserves_gets, _].
    apply preserves_iter; [apply _|]. apply Forall_forall. intros k _.
    apply preserves_bind; [apply _|apply delete_range_evolves|]. intros _.
    apply preserves_ret, _.
Qed.

Lemma lease_keepalive_evolves now id : preserves evolves (lease_keepalive now id).
Proof.
  intros s. unfold lease_keepalive. unfold M_bind at 1, M_gets at 1.
  destruct (leases s !! id) as [le|] eqn:E; [|simpl; reflexivity].
  unfold M_bind, M_lift. destruct (instant_add _ _) as [d|]; simpl; [|reflexivity].
  apply evolves_leases; try done. intros Hls. simpl.
  apply map_Forall_insert_2; [apply (Hls _ _ E)|done].
Qed.

Lemma run_op_evolves op s : evolves s (run_op op s).
Proof.
  destruct op; simpl.
  - apply put_response_evolves.
  - apply delete_range_response_evolves.
  - apply exec_op_txn_evolves.
  - apply compact_evolves.
  - apply lease_grant_evolves.
  - apply lease_revoke_evolves.
  - apply lease_keepalive_evolves.
Qed.

Lemma steps_evolve s s' : rtc op_step s s' → evolves s s'.
Proof.
  induction 1 as [s|s1 s2 s3 [op ->] _ IH]; [reflexivity|].
  etrans; [apply run_op_evolves|done].
Qed.

Lemma Store_new_wf : store_wf Store_new.
Proof.
  constructor; simpl; try done.
  exists 0. done.
Qed.

Lemma reachable_wf' s : reachable s → in_range s → store_wf s.
Proof. intros Hr Hi. apply steps_evolve in Hr as (_ & _ & H). apply H, Store_new_wf. done. Qed.

#[export] Hint Resolve run_op_evolves steps_evolve reachable_wf' Store_new_wf : etcd.

(** Every change of the map is a batch of the history: with no new batch, the
    map and the revision are the old ones. *)
Lemma quiet_step s s' :
  evolves s s' → in_range s' → store_wf s → tx s' = tx s →
  kvs s' = kvs s ∧ revision s' = revision s.
Proof.
  intros (_ & _ & Hw) Hi Hwf E. specialize (Hw Hi Hwf).
  rewrite <- (wf_replay _ Hwf), <- (wf_replay _ Hw), (wf_rev _ Hwf), (wf_rev _ Hw).
  unfold history. by rewrite E.
Qed.
