(* ===== verification/StoreSpec.v ===== *)
(** * What the store promises

    The theorems about [Store.v]: the invariant of every reachable state, the
    list-then-watch contract kube-apiserver builds its caches on, and the
    behaviour of each method on each of its branches. *)

From S2P Require Import Prelude BTree Proto Store StoreInv.

(** ** Definitions *)

(** The keys an etcd [key]/[range_end] pair denotes. *)
Definition in_key_range (key range_end k : bytes) : Prop :=
  if decide (range_end = []) then k = key
  else if decide (range_end = [0%N]) then bytes_le key k
  else bytes_le key k ∧ bytes_lt k range_end.

#[export] Instance in_key_range_dec key range_end k : Decision (in_key_range key range_end k).
Proof. unfold in_key_range. repeat case_decide; apply _. Defined.

(** A [key]/[range_end] pair whose interval runs backwards. *)
Definition reversed_range (key range_end : bytes) : Prop :=
  range_end ≠ [] ∧ range_end ≠ [0%N] ∧ bytes_lt range_end key.

(** What each [CompareResult] asks of the two sides. *)
Definition compare_asks (result : Z) (ord : comparison) : Prop :=
  (result = 0 ∧ ord = Eq) ∨ (result = 1 ∧ ord = Gt) ∨ (result = 2 ∧ ord = Lt)
  ∨ (result = 3 ∧ ord ≠ Eq).

(** The value a [Compare] reads from the entry, in proto3 defaults when the
    key is absent: the integer targets. *)
Definition compare_field (target : Z) (kv : option Kv) : Z :=
  if target =? 0 then default 0 (kv_version <$> kv)
  else if target =? 1 then default 0 (kv_create_revision <$> kv)
  else if target =? 2 then default 0 (kv_mod_revision <$> kv)
  else default 0 (kv_lease <$> kv).

Definition target_of (target x : Z) : option TargetUnion :=
  Some (if target =? 0 then TVersion x else if target =? 1 then TCreateRevision x
        else if target =? 2 then TModRevision x else TLease x).

(** The transaction kube-apiserver's storage layer issues for a guarded
    write: compare the key's mod revision, put on a match, read back
    otherwise. *)
Definition guarded_put (key value : bytes) (expect lease : Z) : TxnRequest :=
  mkTxnRequest
    [{| c_result := 0; c_target := 2; c_key := key;
        c_target_union := Some (TModRevision expect); c_range_end := [] |}]
    [RequestPut {| pr_key := key; pr_value := value; pr_lease := lease; pr_prev_kv := false;
                   pr_ignore_value := false; pr_ignore_lease := false |}]
    [RequestRange {| rr_key := key; rr_range_end := []; rr_limit := 0; rr_revision := 0;
                     rr_sort_order := 0; rr_sort_target := 0; rr_serializable := false;
                     rr_keys_only := false; rr_count_only := false; rr_min_mod_revision := 0;
                     rr_max_mod_revision := 0; rr_min_create_revision := 0;
                     rr_max_create_revision := 0 |}].

(** Requests that write nothing. *)
Fixpoint read_only (op : RequestOp) : Prop :=
  match op with
  | RequestRange _ | RequestNone => True
  | RequestPut _ | RequestDeleteRange _ => False
  | RequestTxn (mkTxnRequest _ success failure) =>
      foldr (λ op P, read_only op ∧ P) True success ∧ foldr (λ op P, read_only op ∧ P) True failure
  end.

Definition read_only_txn (t : TxnRequest) : Prop := read_only (RequestTxn t).

(** The revision a Range reads at: the request's, clamped to the store's. *)
Definition range_at (s : Store) (r : RangeRequest) : Z :=
  if rr_revision r =? 0 then revision s else Z.min (rr_revision r) (revision s).

(** The entries a Range is about. *)
Definition range_selects (s : Store) (r : RangeRequest) (kv : Kv) : Prop :=
  kvs s !! kv_key kv = Some kv ∧ in_key_range (rr_key r) (rr_range_end r) (kv_key kv)
  ∧ range_filter (range_at s r) r kv = true.

Definition put_req (key value : bytes) (lease : Z) : PutRequest :=
  {| pr_key := key; pr_value := value; pr_lease := lease; pr_prev_kv := false;
     pr_ignore_value := false; pr_ignore_lease := false |}.

Definition range_req (key range_end : bytes) (limit rev : Z) : RangeRequest :=
  {| rr_key := key; rr_range_end := range_end; rr_limit := limit; rr_revision := rev;
     rr_sort_order := 0; rr_sort_target := 0; rr_serializable := false;
     rr_keys_only := false; rr_count_only := false; rr_min_mod_revision := 0;
     rr_max_mod_revision := 0; rr_min_create_revision := 0; rr_max_create_revision := 0 |}.

(** A small run used by the witnesses: two keys, one of them leased. *)
Definition demo_ops : list Op :=
  [OpLeaseGrant 0 60 7; OpPut (put_req $"/a" $"1" 0); OpPut (put_req $"/b" $"2" 7);
   OpPut (put_req $"/a" $"3" 0)].
Definition demo : Store := run_ops demo_ops Store_new.

(** ** Helper lemmas *)

Lemma run_ops_steps ops s : rtc op_step s (run_ops ops s).
Proof.
  revert s. induction ops as [|op ops IH]; intros s; [done|].
  eapply rtc_l; [by exists op|]. apply IH.
Qed.

Lemma run_ops_reachable ops : reachable (run_ops ops Store_new).
Proof. apply run_ops_steps. Qed.

Lemma demo_in_range : in_range demo.
Proof. vm_compute. discriminate. Qed.

Lemma demo_wf : store_wf demo.
Proof. apply reachable_wf'; [apply run_ops_reachable|apply demo_in_range]. Qed.

#[export] Hint Resolve run_ops_reachable demo_in_range demo_wf : etcd.

Lemma select_range_spec key range_end m sel k kv :
  select_range key range_end m = Ok sel →
  (k, kv) ∈ sel ↔ in_key_range key range_end k ∧ m !! k = Some kv.
Proof.
  unfold select_range, in_key_range. repeat case_decide; intros E; simplify_eq.
  - destruct (m !! key) as [kv'|] eqn:Em.
    + rewrite list_elem_of_singleton. split; [intros; simplify_eq; done|].
      intros [-> ?]. simplify_eq. done.
    + split; [by intros ?%not_elem_of_nil|]. intros [-> ?]. congruence.
  - exact (elem_of_btree_range_from key m k kv).
  - rewrite (elem_of_btree_range _ _ _ _ _ _ E). simpl. rewrite bytes_not_le. done.
Qed.

Lemma select_range_panics key range_end m :
  select_range key range_end m = Err Panic ↔ reversed_range key range_end.
Proof.
  unfold select_range, reversed_range. repeat case_decide; try naive_solver.
  rewrite btree_range_panics. simpl. rewrite bytes_not_le. naive_solver.
Qed.

Lemma ascending_values_NoDup s sel key range_end :
  store_wf s → select_range key range_end (kvs s) = Ok sel →
  sel = (λ kv, (kv_key kv, kv)) <$> sel.*2.
Proof.
  intros Hwf E. rewrite <- list_fmap_compose. symmetry. rewrite <- (list_fmap_id sel) at 2.
  apply list_fmap_ext. intros i [k kv] Hi. simpl.
  apply list_elem_of_lookup_2 in Hi. apply (select_range_lookup _ _ _ _ _ _ E) in Hi.
  by destruct (wf_kvs _ Hwf _ _ Hi) as (-> & _).
Qed.

Lemma kvs_key s k kv : store_wf s → kvs s !! k = Some kv → kv_key kv = k.
Proof. intros Hwf E. by destruct (wf_kvs _ Hwf _ _ E). Qed.

(** ** Reachable states *)

(** C1: every state the server can reach by any sequence of mutating calls
    satisfies the store invariant, as long as the revision counter has not
    reached [i64::MAX]. *)
Theorem store_invariant s : reachable s → in_range s → store_wf s.
Proof. apply reachable_wf'. Qed.

Lemma store_invariant_witness :
  store_wf demo ∧ revision demo = 4 ∧ size (kvs demo) = 2%nat.
Proof.
  split; [|by vm_compute].
  apply store_invariant; [apply run_ops_reachable | apply demo_in_range].
Defined.

(** C2: list-then-watch has no gaps.  A client that reads the whole map at
    revision r0 and then applies every logged event after r0, in order, holds
    exactly the map of the later state, as long as nothing after r0 has been
    compacted. *)
Theorem list_watch s0 s :
  reachable s0 → rtc op_step s0 s → in_range s → compact_revision s ≤ revision s0 →
  replay (kvs s0) (events_since s (revision s0)) = kvs s.
Proof.
  intros H0 Hs Hi Hc. pose proof (steps_evolve _ _ Hs) as (Hp & _ & Hw).
  assert (store_wf s0) as Hwf0 by eauto using in_range_prefix with etcd.
  specialize (Hw Hi Hwf0). rewrite events_since_history by done.
  rewrite <- (wf_replay _ Hwf0), <- replay_app.
  rewrite <- (history_split _ _ Hwf0 Hw Hp). apply (wf_replay _ Hw).
Qed.

Lemma list_watch_witness :
  let s := run_ops [OpDeleteRange {| dr_key := $"/a"; dr_range_end := []; dr_prev_kv := false |};
                    OpCompact 4; OpPut (put_req $"/c" $"9" 0)] demo in
  replay (kvs demo) (events_since s (revision demo)) = kvs s ∧ length (events_since s 4) = 2%nat.
Proof.
  split; [|by vm_compute].
  apply list_watch; [apply run_ops_reachable|apply run_ops_steps|vm_compute; discriminate|].
  vm_compute. discriminate.
Defined.

(** ** Range *)

Lemma selected_spec s r sel :
  store_wf s → select_range (rr_key r) (rr_range_end r) (kvs s) = Ok sel →
  let full := filter (λ kv, range_filter (range_at s r) r kv = true) sel.*2 in
  StronglySorted bytes_lt (kv_key <$> full) ∧ (∀ kv, kv ∈ full ↔ range_selects s r kv)
  ∧ (length full ≤ size (kvs s))%nat.
Proof.
  intros Hwf E. pose proof (select_range_ascending _ _ _ _ E) as Hasc.
  pose proof (ascending_NoDup _ Hasc) as Hnd.
  rewrite (ascending_values_NoDup _ _ _ _ Hwf E) in Hasc. unfold ascending in Hasc.
  rewrite <- list_fmap_compose in Hasc. cbv zeta. split_and!.
  - clear E Hnd. induction (sel.*2) as [|kv l IH]; [constructor|]. simpl in Hasc.
    apply StronglySorted_cons in Hasc as [Hx Hl]. rewrite filter_cons.
    case_decide; [|auto]. simpl. constructor; [auto|].
    rewrite Forall_fmap, Forall_forall in Hx |- *. intros y [_ Hy]%list_elem_of_filter.
    destruct (Hx _ Hy) as [[?|?]%bytes_le_lteq ?]; done.
  - intros kv. rewrite list_elem_of_filter, list_elem_of_fmap. unfold range_selects. split.
    + intros (Hf & [k kv'] & -> & Hin). simpl.
      pose proof (select_range_lookup _ _ _ _ _ _ E Hin) as Hk.
      rewrite (kvs_key _ _ _ Hwf Hk). split_and!; [done| |done].
      by apply (select_range_spec _ _ _ _ _ kv' E) in Hin as [? _].
    + intros (Hk & Hr & Hf). split; [done|]. exists (kv_key kv, kv). split; [done|].
      by apply (select_range_spec _ _ _ _ _ _ E).
  - etrans; [apply length_filter|]. rewrite length_fmap. rewrite <- (length_fmap fst).
    rewrite <- size_dom. rewrite <- (size_list_to_set (C:=gset bytes)) by done.
    apply subseteq_size. intros k Hk. apply elem_of_list_to_set, list_elem_of_fmap in Hk
      as ([k' kv] & -> & Hin). apply elem_of_dom. eexists. by eapply select_range_lookup.
Qed.

(** C4: a Range returns exactly the entries of the key interval that pass the
    revision filters at the clamped revision, in strictly ascending key
    order, cut at the limit; [count] is the number before the cut and [more]
    says that the cut dropped something.  It fails only on an interval that
    runs backwards, and then by panicking. *)
Theorem range_spec s r :
  store_wf s → Z.of_nat (size (kvs s)) ≤ u64_max →
  match range_kvs s r with
  | Err Panic => reversed_range (rr_key r) (rr_range_end r)
  | Ok (l, more, total) =>
      ∃ full, StronglySorted bytes_lt (kv_key <$> full)
        ∧ (∀ kv, kv ∈ full ↔ range_selects s r kv)
        ∧ l = (if rr_limit r <=? 0 then full else take (Z.to_nat (rr_limit r)) full)
        ∧ total = Z.of_nat (length full) ∧ more = bool_decide (length l < length full)%nat
  end.
Proof.
  intros Hwf Hsize. unfold range_kvs. fold (range_at s r). cbv zeta.
  destruct (select_range _ _ _) as [sel|[]] eqn:E; simpl;
    [|by apply select_range_panics in E].
  destruct (selected_spec _ _ _ Hwf E) as (Hs & Hin & Hlen). cbv zeta in *.
  set (full := filter _ _) in *. exists full. split_and!; [done|done| |done|].
  - destruct (rr_limit r <=? 0); [|by rewrite take_Z_take]. apply take_Z_all. lia.
  - destruct (rr_limit r <=? 0) eqn:El; zbool.
    + rewrite take_Z_all by lia. rewrite bool_decide_eq_false_2 by lia. apply Z.ltb_ge. lia.
    + rewrite take_Z_take, length_take. symmetry.
      destruct (rr_limit r <? _) eqn:Em; zbool.
      * apply bool_decide_eq_true_2. lia.
      * apply bool_decide_eq_false_2. lia.
Qed.

Lemma range_spec_witness :
  range_kvs demo (range_req $"/a" [0%N] 1 0) =
    Ok ([mkKv $"/a" $"3" 2 4 2 0], true, 2)
  ∧ match range_kvs demo (range_req $"/a" [0%N] 1 0) with
    | Err Panic => reversed_range $"/a" [0%N]
    | Ok (l, more, total) =>
        ∃ full, StronglySorted bytes_lt (kv_key <$> full)
          ∧ (∀ kv, kv ∈ full ↔ range_selects demo (range_req $"/a" [0%N] 1 0) kv)
          ∧ l = take 1 full ∧ total = Z.of_nat (length full)
          ∧ more = bool_decide (length l < length full)%nat
    end.
Proof.
  split; [by vm_compute|].
  apply (range_spec demo (range_req $"/a" [0%N] 1 0)); [apply demo_wf|].
  vm_compute. discriminate.
Defined.

(** ** Put and DeleteRange *)

(** What [select_range] picks, without revision filters. *)
Lemma selected_all s key range_end sel :
  store_wf s → select_range key range_end (kvs s) = Ok sel →
  StronglySorted bytes_lt (kv_key <$> sel.*2)
  ∧ (∀ kv, kv ∈ sel.*2 ↔ kvs s !! kv_key kv = Some kv ∧ in_key_range key range_end (kv_key kv))
  ∧ (∀ k, k ∈ sel.*1 ↔ in_key_range key range_end k ∧ is_Some (kvs s !! k)).
Proof.
  intros Hwf E. set (r := range_req key range_end 0 0).
  assert (∀ k kv, kvs s !! k = Some kv → range_filter (range_at s r) r kv = true) as Hf.
  { intros k kv (_ & _ & ? & _)%(wf_kvs _ Hwf). unfold range_filter, range_at. simpl.
    by rewrite (proj2 (Z.leb_le _ _)) by lia. }
  destruct (selected_spec s r sel Hwf E) as (Hs & Hin & _).
  rewrite filter_all in Hs, Hin.
  2,3: apply Forall_forall; intros kv ([k kv'] & -> & H)%list_elem_of_fmap;
    by eapply Hf, select_range_lookup.
  split_and!; [done| |].
  - intros kv. rewrite Hin. unfold range_selects. simpl. split; [tauto|]. intros [Hk Hr]. eauto.
  - intros k. rewrite list_elem_of_fmap. split.
    + intros ([k' kv] & -> & [? ?]%(select_range_spec _ _ _ _ _ _ E)). eauto.
    + intros [? [kv ?]]. exists (k, kv). split; [done|].
      by apply (select_range_spec _ _ _ _ _ _ E).
Qed.

(** C5: a put always succeeds.  It takes the next revision, writes one PUT
    event carrying the previous entry, leaves every other key alone, keeps the
    creation revision of an existing key and counts its versions, starts a new
    key at version 1, honours [ignore_value] and [ignore_lease], and leaves
    the key listed by exactly the lease it is attached to. *)
Theorem put_spec s key value lease wp iv il :
  store_wf s → revision s < i64_max →
  let prev := kvs s !! key in
  let '(res, s') := put key value lease wp iv il s in
  ∃ e, res = Ok (header s', if wp then prev else None)
    ∧ revision s' = revision s + 1
    ∧ kvs s' = <[key := e]> (kvs s)
    ∧ tx s' = tx s ++ [mkBatch (revision s') [mkStoredEvent 0 e prev]]
    ∧ kv_key e = key ∧ kv_mod_revision e = revision s'
    ∧ kv_value e = (if iv then default [] (kv_value <$> prev) else value)
    ∧ kv_lease e = (if il then default 0 (kv_lease <$> prev) else lease)
    ∧ (prev = None → kv_create_revision e = revision s' ∧ kv_version e = 1)
    ∧ (∀ old, prev = Some old → kv_create_revision e = kv_create_revision old
         ∧ kv_version e = kv_version old + 1)
    ∧ (∀ id le, leases s' !! id = Some le → key ∈ le_keys le ↔ id = kv_lease e ∧ id ≠ 0).
Proof.
  intros Hwf Hmax prev. rewrite put_eq.
  assert (wrap_i64 (revision s + 1) = revision s + 1) as Hrev.
  { apply wrap_i64_small. unfold is_i64, i64_min. pose proof (wf_rev _ Hwf). lia. }
  exists (put_entry prev (revision s + 1) key value lease iv il).
  unfold put_state. fold prev. rewrite Hrev. split_and!; try done.
  - by intros ->.
  - intros old E. rewrite E. simpl. split; [done|]. apply wrap_i64_small.
    destruct (wf_kvs _ Hwf _ _ E) as (_ & ? & ? & ?). unfold is_i64, i64_min. lia.
  - cbn [leases]. set (entry := put_entry _ _ _ _ _ _ _). clearbody entry. intros id le Hle.
    pose proof (lease_detach _ _ key _ (wf_leases _ Hwf) eq_refl) as Hdet. cbv zeta in Hdet.
    fold prev in Hdet. set (ls1 := if default 0 _ =? 0 then _ else _) in *. clearbody ls1.
    destruct (kv_lease entry =? 0) eqn:E0; zbool.
    + destruct (Hdet _ _ Hle) as (_ & _ & Hk). split; [|lia].
      intros Hin. by destruct (Hk _ Hin).
    + apply elem_of_lease_attach in Hle as (le0 & H0 & _ & _ & Hkeys). rewrite Hkeys.
      destruct (Hdet _ _ H0) as (_ & _ & Hk).
      assert (key ∉ le_keys le0) as Hnin by (intros Hin; by destruct (Hk _ Hin)).
      case_decide as Hd; [set_solver|]. split; [done|]. intros [-> ?]. by destruct Hd.
Qed.

Lemma put_spec_witness :
  let s' := (put $"/b" $"5" 0 true false true demo).2 in
  (∃ e, kvs s' = <[$"/b" := e]> (kvs demo)) ∧ le_keys <$> leases s' !! 7 = Some [$"/b"]
  ∧ (kv_version <$> kvs s' !! $"/b") = Some 2.
Proof.
  split; [|by vm_compute].
  destruct (put_spec demo $"/b" $"5" 0 true false true) as (e & _ & _ & H & _);
    [apply demo_wf|vm_compute; done|]. exists e. exact H.
Defined.

(** C6: DeleteRange removes exactly the keys of the interval and touches no
    other: it reports how many there were and, when asked, their entries in
    ascending key order; it takes one revision and emits one batch of
    DELETE events for the whole interval, and none at all when the interval is
    empty.  Only an interval that runs backwards makes it panic, and then the
    store is untouched. *)
Theorem delete_range_spec s key range_end wp :
  store_wf s → revision s < i64_max →
  let '(res, s') := delete_range key range_end wp s in
  (∀ k, ¬ in_key_range key range_end k → kvs s' !! k = kvs s !! k) ∧
  match res with
  | Err Panic => reversed_range key range_end ∧ s' = s
  | Ok (hdr, deleted, prev_kvs) =>
      hdr = header s' ∧ (∀ k, in_key_range key range_end k → kvs s' !! k = None) ∧
      ∃ gone, StronglySorted bytes_lt (kv_key <$> gone)
        ∧ (∀ kv, kv ∈ gone ↔ kvs s !! kv_key kv = Some kv ∧ in_key_range key range_end (kv_key kv))
        ∧ deleted = Z.of_nat (length gone) ∧ prev_kvs = (if wp then gone else [])
        ∧ if decide (gone = []) then s' = s
          else revision s' = revision s + 1 ∧
               ∃ evs, tx s' = tx s ++ [mkBatch (revision s') evs]
                 ∧ se_prev_kv <$> evs = Some <$> gone ∧ Forall (λ e, se_type e = 1) evs
  end.
Proof.
  intros Hwf Hmax. rewrite delete_range_eq.
  assert (wrap_i64 (revision s + 1) = revision s + 1) as Hrev.
  { apply wrap_i64_small. unfold is_i64, i64_min. pose proof (wf_rev _ Hwf). lia. }
  destruct (select_range key range_end (kvs s)) as [sel|[]] eqn:E;
    [|by apply select_range_panics in E].
  destruct (selected_all _ _ _ _ Hwf E) as (Hs & Hgone & Hkeys).
  destruct sel as [|e0 sel0]; [|set (sel := e0 :: sel0) in *].
  - split; [done|]. split_and!; [done| |exists []; split_and!; try done; by destruct wp].
    intros k Hk. destruct (kvs s !! k) eqn:Ek; [|done]. exfalso.
    eapply not_elem_of_nil, (Hkeys k). eauto.
  - destruct (drop_entries_wf s sel) as [_ Hkvs]; [| |apply (wf_leases _ Hwf)|].
    { by eapply ascending_NoDup, select_range_ascending. }
    { intros k kv. by apply select_range_lookup with (key:=key) (range_end:=range_end). }
    unfold delete_state. rewrite Hrev. cbn [kvs].
    rewrite (Hkvs 0). setoid_rewrite apply_events_delete_lookup.
    split; [intros k Hk; rewrite decide_False; [done|by rewrite Hkeys; tauto]|].
    split_and!; [done| |].
    + intros k Hk. case_decide as Hd; [done|]. rewrite Hkeys in Hd.
      destruct (kvs s !! k); [|done]. naive_solver.
    + exists sel.*2. rewrite decide_False by done.
      split_and!; [done|done|by rewrite length_fmap|done|done|].
      eexists. split_and!; [done| |].
      * by rewrite <- !list_fmap_compose.
      * by apply Forall_fmap, Forall_forall.
Qed.

Lemma delete_range_spec_witness :
  let '(res, s') := delete_range $"/a" $"/c" true demo in
  (∀ k, ¬ in_key_range $"/a" $"/c" k → kvs s' !! k = kvs demo !! k) ∧ kvs s' = ∅
  ∧ revision s' = 5.
Proof.
  pose proof (delete_range_spec demo $"/a" $"/c" true demo_wf) as H.
  destruct (delete_range $"/a" $"/c" true demo) as [res s'] eqn:E.
  split; [apply H; vm_compute; done|].
  revert E. vm_compute. intros [= <- <-]. done.
Defined.

(** ** Transactions *)

Lemma ord_matches_spec result ord :
  0 ≤ result ≤ 3 → ord_matches result ord = true ↔ compare_asks result ord.
Proof.
  intros Hr. assert (result = 0 ∨ result = 1 ∨ result = 2 ∨ result = 3) as H by lia.
  unfold ord_matches, compare_result, compare_asks.
  destruct H as [->|[->|[->| ->]]]; simpl; rewrite bool_decide_eq_true; naive_solver lia.
Qed.

(** A comparison asks its question of the key's entry, with zero (or the
    empty value) standing for an absent key: EQUAL, GREATER, LESS and
    NOT_EQUAL mean what they say for each of the five targets, and a target
    the server does not know holds vacuously. *)
Theorem eval_compare_spec s c :
  let kv := kvs s !! c_key c in
  (∀ x, 0 ≤ c_result c ≤ 3 → c_target c ∈ [0; 1; 2; 4] →
     c_target_union c = target_of (c_target c) x →
     eval_compare s c = true ↔
     compare_asks (c_result c) (compare_field (c_target c) kv ?= x))
  ∧ (∀ v, 0 ≤ c_result c ≤ 3 → c_target c = 3 → c_target_union c = Some (TValue v) →
     eval_compare s c = true ↔
     compare_asks (c_result c) (bytes_cmp (default [] (kv_value <$> kv)) v))
  ∧ (¬ 0 ≤ c_target c ≤ 4 → eval_compare s c = true).
Proof.
  split_and!.
  - intros x Hr Ht Hu. rewrite <- ord_matches_spec by done.
    unfold eval_compare, compare_field. rewrite Hu. unfold target_of.
    rewrite !elem_of_cons in Ht.
    destruct Ht as [->|[->|[->|[->|H]]]]; [done..|by apply not_elem_of_nil in H].
  - intros v Hr Ht Hu. rewrite <- ord_matches_spec by done.
    unfold eval_compare. by rewrite Ht, Hu.
  - intros Ht. unfold eval_compare.
    assert (∀ n, 0 ≤ n ≤ 4 → (c_target c =? n) = false) as E by (intros; apply Z.eqb_neq; lia).
    by rewrite !E by lia.
Qed.

Lemma eval_compare_spec_witness :
  let c := {| c_result := 1; c_target := 0; c_key := $"/a";
              c_target_union := Some (TVersion 1); c_range_end := [] |} in
  (eval_compare demo c = true ↔ compare_asks 1 (2 ?= 1)) ∧ eval_compare demo c = true.
Proof.
  split; [|by vm_compute].
  apply (proj1 (eval_compare_spec demo {| c_result := 1; c_target := 0; c_key := $"/a";
    c_target_union := Some (TVersion 1); c_range_end := [] |}) 1); [simpl; lia|set_solver|done].
Defined.

(** What the guarded write of kube-apiserver does, for any expectation. *)
Lemma guarded_put_eq s key value expect lease :
  txn (guarded_put key value expect lease) s =
  if default 0 (kv_mod_revision <$> kvs s !! key) =? expect then
    let s' := put_state s key value lease false false in
    (Ok (header s', true,
         [ResponsePut {| prs_header := Some (header s'); prs_prev_kv := None |}]), s')
  else
    match range_response s (range_req key [] 0 0) with
    | Ok resp => (Ok (header s, false, [ResponseRange resp]), s)
    | Err Panic => (Err Panic, s)
    end.
Proof.
  unfold guarded_put. simpl. unfold M_bind at 1, M_gets at 1. simpl.
  rewrite andb_true_r. unfold eval_compare, ord_matches, compare_result. simpl.
  rewrite (bool_decide_ext _ (default 0 (kv_mod_revision <$> kvs s !! key) = expect))
    by apply Z.compare_eq_iff.
  destruct (_ =? expect) eqn:E; zbool.
  - rewrite bool_decide_eq_true_2 by done. done.
  - rewrite bool_decide_eq_false_2 by done. simpl. unfold M_bind, M_gets, M_lift. simpl.
    fold (range_req key [] 0 0). by destruct (range_response s (range_req key [] 0 0)) as [?|[]].
Qed.

(** C7: a guarded write is a compare-and-swap on the mod revision.  It stores
    the value exactly when the key is still at the expected revision (zero
    means absent), and otherwise leaves the store as it is and returns the
    current entry. *)
Theorem guarded_put_cas s key value expect lease :
  store_wf s → revision s < i64_max →
  let '(res, s') := txn (guarded_put key value expect lease) s in
  (default 0 (kv_mod_revision <$> kvs s !! key) = 0 ↔ kvs s !! key = None) ∧
  if decide (default 0 (kv_mod_revision <$> kvs s !! key) = expect) then
    ∃ resp, res = Ok (header s', true, [ResponsePut resp])
      ∧ kv_value <$> kvs s' !! key = Some value
      ∧ kv_mod_revision <$> kvs s' !! key = Some (revision s')
      ∧ revision s' = revision s + 1 ∧ expect < revision s'
  else
    s' = s ∧ ∃ resp, res = Ok (header s, false, [ResponseRange resp])
      ∧ rrs_kvs resp = match kvs s !! key with Some kv => [kv_to_proto kv false] | None => [] end.
Proof.
  intros Hwf Hmax. rewrite guarded_put_eq. set (cur := kvs s !! key).
  assert (default 0 (kv_mod_revision <$> cur) ≤ revision s
    ∧ (default 0 (kv_mod_revision <$> cur) = 0 ↔ cur = None)) as [Hle Hz].
  { pose proof (wf_rev _ Hwf). destruct cur as [kv|] eqn:E; simpl; [|naive_solver lia].
    destruct (wf_kvs _ Hwf _ _ E) as (_ & ? & ? & _). naive_solver lia. }
  case_decide as Hd.
  - rewrite (proj2 (Z.eqb_eq _ _) Hd). split; [done|].
    assert (wrap_i64 (revision s + 1) = revision s + 1) as Hrev.
    { apply wrap_i64_small. unfold is_i64, i64_min. pose proof (wf_rev _ Hwf). lia. }
    eexists. unfold put_state. simpl. rewrite lookup_insert_eq, Hrev. simpl.
    split_and!; [done..|lia].
  - rewrite (proj2 (Z.eqb_neq _ _) Hd). unfold range_response, range_kvs. simpl.
    fold cur. destruct cur as [kv|] eqn:E; simpl.
    + destruct (wf_kvs _ Hwf _ _ E) as (_ & _ & ? & _).
      rewrite filter_cons_True by (unfold range_filter; simpl; by rewrite (proj2 (Z.leb_le _ _))).
      simpl. split; [done|]. split; [done|]. by eexists.
    + split; [done|]. split; [done|]. by eexists.
Qed.

Lemma demo_revision : revision demo < i64_max.
Proof. by vm_compute. Qed.

Lemma guarded_put_cas_witness :
  (default 0 (kv_mod_revision <$> kvs demo !! $"/a") = 0 ↔ kvs demo !! $"/a" = None)
  ∧ kv_value <$> kvs (txn (guarded_put $"/a" $"new" 4 0) demo).2 !! $"/a" = Some $"new".
Proof.
  split; [|by vm_compute].
  pose proof (guarded_put_cas demo $"/a" $"new" 4 0 demo_wf demo_revision) as H.
  destruct (txn (guarded_put $"/a" $"new" 4 0) demo) as [res s']. exact (proj1 H).
Defined.

Lemma apply_events_lookup_new m evs r k kv :
  Forall (λ e, kv_mod_revision (se_kv e) = r) evs →
  apply_events m evs !! k = Some kv → m !! k = Some kv ∨ kv_mod_revision kv = r.
Proof.
  revert m. induction evs as [|e evs IH]; intros m Hf; [by left|].
  apply Forall_cons in Hf as [He Hf]. intros H. apply IH in H as [H|H]; [|by right|done].
  unfold apply_event in H. destruct (se_type e =? 0).
  - apply lookup_insert_Some in H as [[_ <-]|[_ H]]; [by right|by left].
  - apply lookup_delete_Some in H as [_ H]. by left.
Qed.

Lemma replay_lookup_new m h r k kv :
  Forall (λ e, r < e.1 ∧ Forall (λ ev, kv_mod_revision (se_kv ev) = e.1) e.2) h →
  replay m h !! k = Some kv → m !! k = Some kv ∨ r < kv_mod_revision kv.
Proof.
  unfold replay. revert m. induction h as [|[r' evs] h IH]; intros m Hf H; [by left|].
  apply Forall_cons in Hf as [[Hr He] Hf]. apply IH in H as [H|H]; [|by right|done].
  apply (apply_events_lookup_new _ _ r') in H as [H|H]; [by left|right|done]. simpl in *. lia.
Qed.

(** An entry of a later state is an old one or carries a newer revision. *)
Lemma later_entry s s' k kv :
  store_wf s → store_wf s' → tx s `prefix_of` tx s' →
  kvs s' !! k = Some kv → kvs s !! k = Some kv ∨ revision s < kv_mod_revision kv.
Proof.
  intros Hwf Hwf' Hp. rewrite <- (wf_replay _ Hwf'), (history_split _ _ Hwf Hwf' Hp).
  rewrite replay_app, (wf_replay _ Hwf). apply replay_lookup_new, Forall_forall.
  intros e [He (b & -> & [i Hi]%list_elem_of_lookup)%list_elem_of_fmap]%list_elem_of_filter.
  split; [done|]. by destruct (wf_batches _ Hwf' _ _ Hi) as (_ & _ & ?).
Qed.

(** A mod revision identifies an entry for ever.  If a key shows the same
    mod revision at two moments, whatever happened in between, its entry is
    the same one at both: a compare on the mod revision cannot be fooled by a
    delete and re-create (no ABA). *)
Theorem mod_revision_identifies s0 s k kv0 kv :
  reachable s0 → rtc op_step s0 s → in_range s →
  kvs s0 !! k = Some kv0 → kvs s !! k = Some kv →
  kv_mod_revision kv = kv_mod_revision kv0 → kv = kv0.
Proof.
  intros H0 Hs Hi E0 E Hm. pose proof (steps_evolve _ _ Hs) as (Hp & _ & Hw).
  assert (store_wf s0) as Hwf0 by eauto using in_range_prefix with etcd.
  specialize (Hw Hi Hwf0). destruct (later_entry _ _ _ _ Hwf0 Hw Hp E) as [E'|?]; [congruence|].
  destruct (wf_kvs _ Hwf0 _ _ E0) as (_ & _ & ? & _). lia.
Qed.

Lemma mod_revision_identifies_witness :
  let s := run_ops [OpPut (put_req $"/b" $"x" 0)] demo in
  mkKv $"/a" $"3" 2 4 2 0 = mkKv $"/a" $"3" 2 4 2 0 ∧ kvs s !! $"/a" = kvs demo !! $"/a".
Proof.
  split; [|by vm_compute].
  apply (mod_revision_identifies demo (run_ops [OpPut (put_req $"/b" $"x" 0)] demo) $"/a");
    [apply run_ops_reachable|apply run_ops_steps|vm_compute; discriminate|by vm_compute..].
Defined.

Lemma exec_range_pure r s : (exec_op (RequestRange r) s).2 = s.
Proof. simpl. unfold M_bind, M_gets, M_lift. simpl. by destruct (range_response s r). Qed.

Definition unchanged (s s' : Store) : Prop := s' = s.

#[export] Instance unchanged_preorder : PreOrder unchanged.
Proof. split; unfold unchanged; [done|]. by intros ??? -> ->. Qed.

Lemma read_only_Forall ops :
  foldr (λ op P, read_only op ∧ P) True ops ↔ Forall read_only ops.
Proof. induction ops as [|op ops IH]; simpl; [done|]. rewrite Forall_cons. tauto. Qed.

(** A transaction made of ranges (nested transactions included) writes
    nothing: the whole store, revision and history included, is as before,
    whether it answers or panics. *)
Theorem read_only_txn_pure t s : read_only_txn t → (txn t s).2 = s.
Proof.
  assert ((∀ op, read_only op → preserves unchanged (exec_op op))
    ∧ (∀ t, read_only_txn t → preserves unchanged (txn t))) as [_ H];
    [|intros Ht; apply (H t Ht s)].
  apply request_ind_nested; try done.
  - intros r _ s'. apply exec_range_pure.
  - intros r Hr Hro. apply preserves_bind; [apply _|by apply Hr|]. intros [[hdr ok] l].
    apply preserves_ret, _.
  - intros c succ fail Hs Hf. intros [Hro1%read_only_Forall Hro2%read_only_Forall].
    apply preserves_bind; [apply _|apply preserves_gets, _|]. intros ok.
    apply preserves_bind; [apply _| |].
    + apply preserves_mapM; [apply _|]. destruct ok; eauto using Forall_mp.
    + intros rs. apply preserves_bind; [apply _|apply preserves_gets, _|]. intros hdr.
      apply preserves_ret, _.
Qed.

Lemma read_only_txn_pure_witness :
  let t := mkTxnRequest [] [RequestRange (range_req $"/a" [] 0 0); RequestTxn
             (mkTxnRequest [] [RequestRange (range_req $"/z" $"/a" 0 0)] [])] [] in
  (txn t demo).2 = demo ∧ is_ok (txn t demo).1 = false.
Proof. split; [apply read_only_txn_pure; unfold read_only_txn; simpl; tauto | by vm_compute]. Defined.

(** A transaction without comparisons runs its success branch. *)
Lemma txn_unguarded ops fail s :
  txn (mkTxnRequest [] ops fail) s =
  M_bind (λ rs, M_bind (λ hdr, M_ret (hdr, true, rs)) (M_gets header)) (M_mapM exec_op ops) s.
Proof. reflexivity. Qed.

Lemma exec_put r s :
  exec_op (RequestPut r) s =
  (Ok (ResponsePut {| prs_header := Some (header_rev (wrap_i64 (revision s + 1)));
         prs_prev_kv := (λ k, kv_to_proto k false) <$>
           (if pr_prev_kv r then kvs s !! pr_key r else None) |}), run_op (OpPut r) s).
Proof. reflexivity. Qed.

Lemma run_op_put r s :
  run_op (OpPut r) s =
  put_state s (pr_key r) (pr_value r) (pr_lease r) (pr_ignore_value r) (pr_ignore_lease r).
Proof. reflexivity. Qed.

Lemma exec_reversed_range r s :
  reversed_range (rr_key r) (rr_range_end r) → exec_op (RequestRange r) s = (Err Panic, s).
Proof.
  intros Hr%(select_range_panics _ _ (kvs s)). simpl. unfold M_bind, M_gets, M_lift. simpl.
  unfold range_response, range_kvs. cbv zeta. by rewrite Hr.
Qed.

(** A transaction is not atomic when it panics.  A put followed by a
    range whose interval runs backwards answers with a panic, yet the put is
    stored, has taken a revision and has been broadcast. *)
Theorem txn_panic_keeps_put s (pr : PutRequest) (rr : RangeRequest) rest fail :
  reversed_range (rr_key rr) (rr_range_end rr) →
  let '(res, s') := txn (mkTxnRequest [] (RequestPut pr :: RequestRange rr :: rest) fail) s in
  res = Err Panic ∧ s' = run_op (OpPut pr) s ∧ length (tx s') = S (length (tx s)).
Proof.
  intros Hr. rewrite txn_unguarded.
  erewrite M_bind_err; [|cbn [M_mapM]; erewrite M_bind_ok by apply exec_put;
    eapply M_bind_err, M_bind_err, exec_reversed_range, Hr].
  split_and!; [done|done|]. rewrite run_op_put. simpl. rewrite length_app. simpl. lia.
Qed.

Lemma txn_panic_keeps_put_witness :
  let '(res, s') := txn (mkTxnRequest [] [RequestPut (put_req $"/a" $"9" 0);
                           RequestRange (range_req $"/b" $"/a" 0 0)] []) demo in
  res = Err Panic ∧ s' = run_op (OpPut (put_req $"/a" $"9" 0)) demo
  ∧ length (tx s') = S (length (tx demo)).
Proof.
  apply (txn_panic_keeps_put demo (put_req $"/a" $"9" 0) (range_req $"/b" $"/a" 0 0) [] []).
  by vm_compute.
Defined.

(** The revisions a transaction takes.  Every put of a transaction takes
    a revision of its own and is broadcast as a batch of its own: two puts
    move the revision by two. *)
Theorem txn_two_puts s r1 r2 :
  let '(res, s') := txn (mkTxnRequest [] [RequestPut r1; RequestPut r2] []) s in
  is_ok res = true ∧ revision s' = wrap_i64 (revision s + 2)
  ∧ b_revision <$> drop (length (tx s)) (tx s') =
      [wrap_i64 (revision s + 1); wrap_i64 (revision s + 2)].
Proof.
  rewrite txn_unguarded. erewrite M_bind_ok; [|cbn [M_mapM];
    erewrite M_bind_ok by apply exec_put; erewrite M_bind_ok by (erewrite M_bind_ok by
      apply exec_put; reflexivity); reflexivity].
  rewrite !run_op_put. unfold put_state. cbn.
  rewrite wrap_signed_idem_add by lia. rewrite <- Z.add_assoc.
  split_and!; [done|done|]. by rewrite <- app_assoc, drop_app_length.
Qed.
