(* ===== verification/Lease.v ===== *)
(** * Leases and the expiry task

    The lease methods of [rust/etcd-mem/src/store.rs] and the background task
    of [rust/etcd-mem/src/lib.rs] that evicts expired leases.  The task takes
    the store's mutex twice per tick: once to collect the expired ids and once
    to revoke them, so other calls can run in between; [gc_step] is the
    interleaving of the task's two halves with arbitrary store calls. *)

From S2P Require Import Prelude BTree Proto Store StoreInv StoreSpec.

(** ** The expiry task *)

(** The store and the task: [pending] is what the task has collected and not
    yet revoked. *)
Record GcState := mkGc { gc_store : Store; gc_pending : option (list Z) }.

(** First half of a tick, at time [now]. *)
Definition gc_collect (now : Z) (g : GcState) : GcState :=
  let expired := expired_leases (gc_store g) now in
  mkGc (gc_store g) (if decide (expired = []) then None else Some expired).

(** [for id in expired { store.lease_revoke(id); }], under one lock. *)
Definition revoke_all (ids : list Z) : St unit :=
  M_iter (λ id, let* _r := lease_revoke id in M_ret tt) ids.

Definition gc_sweep (g : GcState) : GcState :=
  match gc_pending g with
  | Some ids => mkGc (revoke_all ids (gc_store g)).2 None
  | None => g
  end.

Inductive gc_step : GcState → GcState → Prop :=
| gc_step_collect now g : gc_pending g = None → gc_step g (gc_collect now g)
| gc_step_sweep g : gc_pending g ≠ None → gc_step g (gc_sweep g)
| gc_step_call op g : gc_step g (mkGc (run_op op (gc_store g)) (gc_pending g)).

(** A lease that is due at [now]. *)
Definition due (s : Store) (now id : Z) : Prop :=
  ∃ le, leases s !! id = Some le ∧ le_deadline le ≤ now.

(** [k] is listed by one of the leases [ids]. *)
Definition listed_by (s : Store) (ids : list Z) (k : bytes) : Prop :=
  ∃ id le, id ∈ ids ∧ leases s !! id = Some le ∧ k ∈ le_keys le.

(** Lease 7 with a one-second TTL, holding key /a. *)
Definition leased_demo : Store :=
  run_ops [OpLeaseGrant 0 1 7; OpPut (put_req $"/a" $"1" 7); OpPut (put_req $"/b" $"2" 0)] Store_new.

(** ** Revocation *)

Lemma revoke_keys_eq id keys s :
  leases s !! id = None → NoDup keys →
  (∀ k, k ∈ keys → ∃ kv, kvs s !! k = Some kv ∧ kv_lease kv = id) →
  ∃ s', M_iter (λ k, let* _r := delete_range k [] false in M_ret tt) keys s = (Ok tt, s')
    ∧ leases s' = leases s ∧ length (tx s') = (length (tx s) + length keys)%nat
    ∧ ∀ k, kvs s' !! k = if decide (k ∈ keys) then None else kvs s !! k.
Proof.
  revert s. induction keys as [|k keys IH]; intros s Hid Hnd Hk.
  { exists s. split_and!; [done|done|simpl; lia|done]. }
  apply NoDup_cons in Hnd as [Hnin Hnd].
  destruct (Hk k) as (kv & Ekv & Elease); [left|].
  assert (delete_range k [] false s = (Ok (header_rev (wrap_i64 (revision s + 1)), 1, []),
    delete_state s [(k, kv)])) as Hdel.
  { rewrite delete_range_eq. unfold select_range. rewrite decide_True by done. by rewrite Ekv. }
  assert (leases (delete_state s [(k, kv)]) = leases s) as Hls.
  { simpl. destruct (_ =? 0); [done|]. unfold lease_retain. rewrite Elease.
    apply map_eq. intros j. rewrite lookup_alter. case_decide; subst; [|done].
    by rewrite Hid. }
  destruct (IH (delete_state s [(k, kv)])) as (s' & Hrun & Hls' & Hlen & Hkvs).
  - by rewrite Hls.
  - done.
  - intros k' Hk'. destruct (Hk k') as (kv' & ? & ?); [by right|]. exists kv'.
    split; [|done]. simpl. rewrite lookup_delete_ne; [done|]. by intros ->.
  - exists s'. split_and!.
    + cbn [M_iter]. erewrite M_bind_ok; [exact Hrun|]. by erewrite M_bind_ok by exact Hdel.
    + congruence.
    + rewrite Hlen. simpl. rewrite length_app. simpl. lia.
    + intros j. rewrite Hkvs. simpl. destruct (decide (j = k)) as [->|].
      * rewrite lookup_delete_eq. repeat case_decide; set_solver.
      * rewrite lookup_delete_ne by done. repeat case_decide; set_solver.
Qed.

Lemma lease_revoke_eq s id le :
  store_wf s → leases s !! id = Some le →
  ∃ s', lease_revoke id s = (Ok (header s'), s') ∧ leases s' = delete id (leases s)
    ∧ length (tx s') = (length (tx s) + length (le_keys le))%nat
    ∧ ∀ k, kvs s' !! k = if decide (k ∈ le_keys le) then None else kvs s !! k.
Proof.
  intros Hwf Hle. destruct (wf_leases _ Hwf _ _ Hle) as (_ & [Hnd _] & Hk).
  destruct (revoke_keys_eq id (le_keys le) (set_leases (delete id) s))
    as (s' & Hrun & Hls & Hlen & Hkvs).
  - apply lookup_delete_eq.
  - done.
  - intros k Hin. by destruct (Hk _ Hin).
  - exists s'. split_and!; [|done|done|done].
    unfold lease_revoke. unfold M_bind at 1, M_gets at 1. rewrite Hle.
    unfold M_bind at 1, M_modify at 1. by erewrite M_bind_ok by exact Hrun.
Qed.

Lemma lease_revoke_absent s id : leases s !! id = None → lease_revoke id s = (Ok (header s), s).
Proof. intros E. unfold lease_revoke, M_bind, M_gets. by rewrite E. Qed.

(** Both cases of a revocation. *)
Lemma lease_revoke_cases s id :
  store_wf s →
  let '(res, s') := lease_revoke id s in
  res = Ok (header s') ∧ leases s' = delete id (leases s) ∧
  match leases s !! id with
  | None => s' = s
  | Some le =>
      length (tx s') = (length (tx s) + length (le_keys le))%nat
      ∧ (∀ k, k ∈ le_keys le → kv_lease <$> kvs s !! k = Some id ∧ kvs s' !! k = None)
      ∧ (∀ k, k ∉ le_keys le → kvs s' !! k = kvs s !! k)
  end.
Proof.
  intros Hwf. destruct (leases s !! id) as [le|] eqn:E.
  - destruct (lease_revoke_eq s id le Hwf E) as (s' & -> & Hls & Hlen & Hkvs).
    split_and!; [done|done|done| |].
    + intros k Hk. rewrite Hkvs, decide_True by done. split; [|done].
      destruct (wf_leases _ Hwf _ _ E) as (_ & _ & Hatt).
      by destruct (Hatt _ Hk) as (_ & kv & -> & <-).
    + intros k Hk. by rewrite Hkvs, decide_False.
  - rewrite lease_revoke_absent by done. split_and!; [done| |done].
    by rewrite delete_id.
Qed.

(** Revoking a lease deletes exactly the keys it lists, each of them
    attached to it, one revision per key, and nothing else; no other lease
    changes; revoking an unknown lease does nothing. *)
Theorem lease_revoke_spec s id :
  store_wf s →
  let '(res, s') := lease_revoke id s in
  res = Ok (header s') ∧ leases s' = delete id (leases s) ∧
  match leases s !! id with
  | None => s' = s
  | Some le =>
      length (tx s') = (length (tx s) + length (le_keys le))%nat
      ∧ (∀ k, k ∈ le_keys le → kv_lease <$> kvs s !! k = Some id ∧ kvs s' !! k = None)
      ∧ (∀ k, k ∉ le_keys le → kvs s' !! k = kvs s !! k)
  end.
Proof. apply lease_revoke_cases. Qed.

Lemma leased_demo_wf : store_wf leased_demo.
Proof.
  apply reachable_wf'; [apply run_ops_reachable|]. vm_compute. discriminate.
Qed.

Lemma lease_revoke_spec_witness :
  (lease_revoke 7 leased_demo).1 = Ok (header (lease_revoke 7 leased_demo).2)
  ∧ kvs (lease_revoke 7 leased_demo).2 !! $"/a" = None
  ∧ size (kvs (lease_revoke 7 leased_demo).2) = 1%nat.
Proof.
  split; [|by vm_compute].
  pose proof (lease_revoke_spec leased_demo 7 leased_demo_wf) as H.
  destruct (lease_revoke 7 leased_demo) as [res s']. exact (proj1 H).
Defined.

(** Granting a lease under an id that is in use orphans its keys.
    Whether the client asks for a taken id or the server's own counter
    arrives at one, the old entry is replaced by one that lists no key:
    revoking (or expiring) the lease afterwards deletes none of the keys that
    were attached to it. *)
Theorem lease_regrant_orphans s now ttl req le :
  let id := if req =? 0 then next_lease_id s else req in
  leases s !! id = Some le → is_ok (instant_add now (Z.max ttl 1)) = true →
  let s' := (lease_grant now ttl req s).2 in
  is_ok (lease_grant now ttl req s).1 = true
  ∧ le_keys <$> leases s' !! id = Some []
  ∧ kvs (lease_revoke id s').2 = kvs s.
Proof.
  intros id Hle Hok. cbv zeta. unfold lease_grant.
  unfold M_bind at 1 3 5, M_gets at 1 3 5.
  destruct (instant_add now (Z.max ttl 1)) as [d|] eqn:Ed; [|done].
  set (pre := if req =? 0 then M_modify (set_next_lease_id _) else M_ret tt).
  assert (∃ n, pre s = (Ok tt, set_next_lease_id (λ _, n) s)) as [n Hpre].
  { unfold pre. destruct (req =? 0); [by eexists|]. exists (next_lease_id s). by destruct s. }
  fold id. unfold M_bind, M_lift, M_modify, M_gets, M_ret. rewrite Hpre. simpl.
  rewrite lookup_insert_eq. simpl. split_and!; [done|done|].
  unfold lease_revoke, M_bind, M_gets. simpl. rewrite lookup_insert_eq. done.
Qed.

Lemma lease_regrant_orphans_witness :
  let s' := (lease_grant 5 60 7 leased_demo).2 in
  is_ok (lease_grant 5 60 7 leased_demo).1 = true
  ∧ le_keys <$> leases s' !! 7 = Some []
  ∧ kvs (lease_revoke 7 s').2 = kvs leased_demo.
Proof.
  apply (lease_regrant_orphans leased_demo 5 60 7 (mkLease 7 1 1000000000 [$"/a"]));
    by vm_compute.
Defined.

(** ** Granting, renewing, expiring *)

Lemma lease_grant_eq now ttl req s :
  lease_grant now ttl req s =
  let id := if req =? 0 then next_lease_id s else req in
  let s1 := set_next_lease_id (λ n, if req =? 0 then wrap_i64 (n + 1) else n) s in
  match instant_add now (Z.max ttl 1) with
  | Ok d => (Ok (header s, id, Z.max ttl 1),
             set_leases <[id := mkLease id (Z.max ttl 1) d []]> s1)
  | Err Panic => (Err Panic, s1)
  end.
Proof.
  unfold lease_grant, M_bind, M_gets, M_modify, M_lift, M_ret.
  destruct (req =? 0); simpl; destruct (instant_add _ _) as [d|[]]; try done; by destruct s.
Qed.

(** Granting a lease.  The TTL is raised to at least one second, the
    deadline is that far from now, an id of zero asks for the server's counter;
    the key space and the revision do not change.  When the deadline is beyond
    what an [Instant] holds the call panics; no lease is added, but a counter id
    has been used up. *)
Theorem lease_grant_spec now ttl req s :
  let '(res, s') := lease_grant now ttl req s in
  kvs s' = kvs s ∧ revision s' = revision s ∧ tx s' = tx s
  ∧ next_lease_id s' = (if req =? 0 then wrap_i64 (next_lease_id s + 1) else next_lease_id s)
  ∧ match res with
    | Ok (hdr, id, granted) =>
        hdr = header s' ∧ id = (if req =? 0 then next_lease_id s else req)
        ∧ granted = Z.max ttl 1
        ∧ leases s' = <[id := mkLease id granted (now + granted * ns_per_sec) []]> (leases s)
    | Err Panic => leases s' = leases s ∧ i64_max < (now + Z.max ttl 1 * ns_per_sec) / ns_per_sec
    end.
Proof.
  rewrite lease_grant_eq. cbv zeta. unfold instant_add.
  destruct (_ <=? i64_max) eqn:E; zbool; simpl; split_and!; try done;
    destruct (req =? 0); done.
Qed.

Lemma lease_keepalive_found s now id hdr ttl s' :
  lease_keepalive now id s = (Ok (Some (hdr, id, ttl)), s') →
  ∃ le, leases s !! id = Some le ∧ ttl = le_granted_ttl le
    ∧ s' = set_leases <[id := mkLease (le_id le) ttl (now + ttl * ns_per_sec) (le_keys le)]> s.
Proof.
  unfold lease_keepalive. unfold M_bind at 1, M_gets at 1.
  destruct (leases s !! id) as [le|] eqn:E; [|intros [=]].
  unfold M_bind, M_lift, instant_add, M_modify, M_gets, M_ret.
  destruct (_ <=? i64_max) eqn:Ed; [|intros [=]]. intros [= <- <- <-]. by exists le.
Qed.

(** A renewed lease lives for its granted TTL.  After a keep-alive at
    [now] that finds the lease, the lease keeps its keys, is reported with at
    most its granted TTL remaining, and the expiry scan leaves it alone until
    the TTL has passed, from when on it collects it. *)
Theorem lease_keepalive_renews s now id hdr ttl s' :
  store_wf s → lease_keepalive now id s = (Ok (Some (hdr, id, ttl)), s') →
  (∀ t, id ∈ expired_leases s' t ↔ now + ttl * ns_per_sec ≤ t)
  ∧ le_keys <$> leases s' !! id = le_keys <$> leases s !! id
  ∧ (∀ t keys r, now ≤ t → lease_ttl s' t id keys = Some r → 0 < ttl → 0 ≤ r.1.2 ≤ ttl).
Proof.
  intros Hwf (le & E & -> & ->)%lease_keepalive_found. simpl.
  destruct (wf_leases _ Hwf _ _ E) as (Hid & _ & _). split_and!.
  - intros t. unfold expired_leases. simpl. rewrite list_elem_of_fmap.
    setoid_rewrite list_elem_of_filter. setoid_rewrite elem_of_btree_values. split.
    + intros (le' & Heq & Hdl & [j Hj]). apply lookup_insert_Some in Hj as [[<- <-]|[Hne Hj]];
        [done|]. destruct (wf_leases _ Hwf _ _ Hj) as (? & _). congruence.
    + intros Ht. exists (mkLease (le_id le) (le_granted_ttl le)
        (now + le_granted_ttl le * ns_per_sec) (le_keys le)).
      split; [by simpl|]. split; [done|]. exists id. by rewrite lookup_insert_eq.
  - by rewrite lookup_insert_eq, E.
  - intros t keys r Ht Hr Hpos. unfold lease_ttl in Hr. simpl in Hr.
    rewrite lookup_insert_eq in Hr. simpl in Hr. injection Hr as <-. simpl.
    unfold ns_per_sec. split; [apply Z.div_pos; lia|].
    apply Z.div_le_upper_bound; lia.
Qed.

Lemma lease_keepalive_renews_witness :
  let s' := (lease_keepalive 10 7 leased_demo).2 in
  (7 ∈ expired_leases s' (10 + 999999999) ↔ 10 + 1 * ns_per_sec ≤ 10 + 999999999)
  ∧ expired_leases s' 1000000010 = [7].
Proof.
  split; [|by vm_compute].
  eapply (lease_keepalive_renews leased_demo 10 7); [apply leased_demo_wf|].
  vm_compute. reflexivity.
Defined.

Lemma elem_of_expired s now id :
  store_wf s → id ∈ expired_leases s now ↔ due s now id.
Proof.
  intros Hwf. unfold expired_leases, due. rewrite list_elem_of_fmap.
  setoid_rewrite list_elem_of_filter. setoid_rewrite elem_of_btree_values. split.
  - intros (le & -> & Hdl & [j Hj]). exists le. by destruct (wf_leases _ Hwf _ _ Hj) as (-> & _).
  - intros (le & Hle & Hdl). exists le. destruct (wf_leases _ Hwf _ _ Hle) as (-> & _).
    eauto.
Qed.

Lemma revoke_all_cons id ids s :
  store_wf s → revoke_all (id :: ids) s = revoke_all ids (lease_revoke id s).2.
Proof.
  intros Hwf. unfold revoke_all at 1. cbn [M_iter].
  pose proof (lease_revoke_cases s id Hwf) as H.
  destruct (lease_revoke id s) as [res s'] eqn:E. destruct H as (-> & _).
  erewrite M_bind_ok; [|by erewrite M_bind_ok by exact E]. done.
Qed.

Lemma revoke_all_evolves ids : preserves evolves (revoke_all ids).
Proof.
  apply preserves_iter; [apply _|]. apply Forall_forall. intros id _.
  apply preserves_bind; [apply _|apply lease_revoke_evolves|]. intros _. apply preserves_ret, _.
Qed.

Lemma lease_revoke_keeps_wf id s :
  store_wf s → in_range (lease_revoke id s).2 → store_wf (lease_revoke id s).2.
Proof. intros Hwf Hi. by apply (lease_revoke_evolves id s). Qed.

(** The state after revoking a list of leases. *)
Lemma revoke_all_spec ids s :
  store_wf s → in_range (revoke_all ids s).2 →
  (revoke_all ids s).1 = Ok tt
  ∧ (∀ id, leases (revoke_all ids s).2 !! id = if decide (id ∈ ids) then None else leases s !! id)
  ∧ (∀ k, listed_by s ids k → kvs (revoke_all ids s).2 !! k = None)
  ∧ (∀ k, ¬ listed_by s ids k → kvs (revoke_all ids s).2 !! k = kvs s !! k).
Proof.
  revert s. induction ids as [|id ids IH]; intros s Hwf Hi.
  { split_and!; [done| |intros k (? & ? & H%not_elem_of_nil & _); done|done].
    intros id. by rewrite decide_False by apply not_elem_of_nil. }
  rewrite revoke_all_cons in * by done.
  pose proof (lease_revoke_cases s id Hwf) as H.
  assert (store_wf (lease_revoke id s).2) as Hwf1.
  { apply lease_revoke_keeps_wf; [done|]. eapply in_range_prefix; [|done].
    apply revoke_all_evolves. }
  destruct (lease_revoke id s) as [res s1] eqn:E. destruct H as (_ & Hls & Hkv). simpl in *.
  destruct (IH s1 Hwf1 Hi) as (Hok & Hl & Hgone & Hkeep).
  assert (∀ k, (∃ le, leases s !! id = Some le ∧ k ∈ le_keys le) ∧ kvs s1 !! k = None
    ∨ ¬ (∃ le, leases s !! id = Some le ∧ k ∈ le_keys le) ∧ kvs s1 !! k = kvs s !! k) as Hstep.
  { intros k. destruct (leases s !! id) as [le|]; [|right; rewrite Hkv; naive_solver].
    destruct Hkv as (_ & Hin & Hout). destruct (decide (k ∈ le_keys le)).
    - left. split; [eauto|]. by apply Hin.
    - right. split; [naive_solver|]. by apply Hout. }
  assert (∀ k, listed_by s1 ids k → listed_by s (id :: ids) k) as Hmono.
  { intros k (j & le & Hj & Hle & Hk). rewrite Hls in Hle.
    apply lookup_delete_Some in Hle as [_ Hle]. exists j, le. set_solver. }
  assert (∀ k, listed_by s (id :: ids) k →
    (∃ le, leases s !! id = Some le ∧ k ∈ le_keys le) ∨ listed_by s1 ids k) as Hsplit.
  { intros k (j & le & Hj & Hle & Hk). destruct (decide (j = id)) as [->|Hne]; [eauto|].
    right. exists j, le. rewrite Hls, lookup_delete_ne by done. set_solver. }
  assert (∀ k, ¬ listed_by s1 ids k ∨ kvs (revoke_all ids s1).2 !! k = None) as Hdec.
  { intros k. destruct (kvs (revoke_all ids s1).2 !! k) eqn:Ek; [|by right].
    left. intros Hl'. rewrite (Hgone k Hl') in Ek. done. }
  split_and!; [done| | |].
  - intros j. rewrite Hl, Hls. destruct (decide (j = id)) as [->|].
    + rewrite lookup_delete_eq. repeat case_decide; set_solver.
    + rewrite lookup_delete_ne by done. repeat case_decide; set_solver.
  - intros k [Hid|Hl']%Hsplit; [|by apply Hgone].
    destruct (Hdec k) as [Hn|]; [|done]. rewrite Hkeep by done.
    destruct (Hstep k) as [[_ ?]|[? _]]; naive_solver.
  - intros k Hn. rewrite Hkeep by auto. destruct (Hstep k) as [[(le & ? & ?) _]|[_ ?]]; [|done].
    destruct Hn. exists id, le. set_solver.
Qed.

(** C11: expiry is exact when nothing runs between the two halves of a tick.
    The sweep removes exactly the leases that were due when they were
    collected and exactly the keys those leases listed; every other lease and
    key is untouched, and the invariant is kept. *)
Theorem gc_tick_exact s now :
  store_wf s →
  let s' := gc_store (gc_sweep (gc_collect now (mkGc s None))) in
  in_range s' →
  store_wf s'
  ∧ (∀ id, due s now id → leases s' !! id = None)
  ∧ (∀ id, ¬ due s now id → leases s' !! id = leases s !! id)
  ∧ (∀ k, listed_by s (expired_leases s now) k → kvs s' !! k = None)
  ∧ (∀ k, ¬ listed_by s (expired_leases s now) k → kvs s' !! k = kvs s !! k).
Proof.
  intros Hwf. unfold gc_sweep, gc_collect. simpl. case_decide as Hd; simpl; intros Hi.
  - split_and!; try done.
    + intros id Hdue%(elem_of_expired _ _ _ Hwf). rewrite Hd in Hdue. set_solver.
    + intros k (id & ? & Hin & _). rewrite Hd in Hin. set_solver.
  - destruct (revoke_all_spec _ _ Hwf Hi) as (_ & Hl & Hgone & Hkeep).
    split_and!; [by apply revoke_all_evolves| | |done|done].
    + intros id Hdue. by rewrite Hl, decide_True by by apply elem_of_expired.
    + intros id Hdue. by rewrite Hl, decide_False by by rewrite elem_of_expired.
Qed.

Lemma gc_tick_exact_witness :
  let s' := gc_store (gc_sweep (gc_collect (2 * ns_per_sec) (mkGc leased_demo None))) in
  store_wf s' ∧ leases s' = ∅ ∧ btree_keys (kvs s') = [$"/b"].
Proof.
  split; [|by vm_compute].
  apply (gc_tick_exact leased_demo (2 * ns_per_sec) leased_demo_wf). vm_compute. discriminate.
Defined.

(** The expiry task can revoke a lease that has just been renewed.  If a
    keep-alive gets in between the two halves of a tick, it succeeds and moves
    the deadline, and the sweep still removes the lease and all its keys. *)
Theorem gc_revokes_renewed s ids id now le hdr ttl s1 :
  store_wf s → id ∈ ids → leases s !! id = Some le →
  lease_keepalive now id s = (Ok (Some (hdr, id, ttl)), s1) →
  let g := gc_sweep (mkGc s1 (Some ids)) in
  in_range (gc_store g) →
  gc_step (mkGc s (Some ids)) (mkGc s1 (Some ids)) ∧ gc_step (mkGc s1 (Some ids)) g
  ∧ leases (gc_store g) !! id = None
  ∧ ∀ k, k ∈ le_keys le → kvs (gc_store g) !! k = None.
Proof.
  intros Hwf Hin Hle Hka g Hi.
  assert (s1 = run_op (OpLeaseKeepalive now id) s) as Hs1 by (simpl; by rewrite Hka).
  assert (store_wf s1) as Hwf1.
  { rewrite Hs1. apply run_op_evolves; [|done]. rewrite <- Hs1.
    eapply in_range_prefix; [|exact Hi]. apply revoke_all_evolves. }
  split_and!.
  - rewrite Hs1. apply (gc_step_call (OpLeaseKeepalive now id) (mkGc s (Some ids))).
  - by apply gc_step_sweep.
  - subst g. simpl. rewrite (proj1 (proj2 (revoke_all_spec _ _ Hwf1 Hi))). by rewrite decide_True.
  - intros k Hk. subst g. apply (proj1 (proj2 (proj2 (revoke_all_spec _ _ Hwf1 Hi)))).
    destruct (lease_keepalive_found _ _ _ _ _ _ Hka) as (le' & Hle' & _ & ->). simplify_eq.
    eexists id, _. simpl. by rewrite lookup_insert_eq.
Qed.

Lemma gc_revokes_renewed_witness :
  let now := 1 * ns_per_sec in
  let s1 := (lease_keepalive now 7 leased_demo).2 in
  let g := gc_sweep (mkGc s1 (gc_pending (gc_collect now (mkGc leased_demo None)))) in
  leases (gc_store g) !! 7 = None ∧ kvs (gc_store g) !! $"/a" = None
  ∧ le_deadline <$> leases s1 !! 7 = Some (2 * ns_per_sec).
Proof.
  assert (kvs (gc_store (gc_sweep (mkGc (lease_keepalive (1 * ns_per_sec) 7 leased_demo).2
    (Some [7])))) !! $"/a" = None) as H.
  { eapply (gc_revokes_renewed leased_demo [7] 7 (1 * ns_per_sec) (mkLease 7 1 ns_per_sec [$"/a"]));
      [apply leased_demo_wf|set_solver|by vm_compute|by vm_compute| |set_solver].
    vm_compute. discriminate. }
  split; [by vm_compute|]. split; [exact H|by vm_compute].
Defined.
