(* ===== verification/Watch.v ===== *)
(** * Watch streams ([rust/etcd-mem/src/svc.rs], [impl Watch for WatchSvc])

    One watch stream is a task that selects between client messages and the
    store's broadcast channel.  [WatchTask] is the task's local state plus the
    responses it has handed to the stream, in order; each arm of the [select!]
    is a definition.  The broadcast channel ([tokio::sync::broadcast]) is the
    interface [Broadcast]: its operations and the laws its documentation
    states, with a bounded queue as an instance. *)

From S2P Require Import Prelude BTree Proto Store StoreInv StoreSpec.

(** ** The task *)

Record WatchHandle := mkHandle {
  wh_id : Z; wh_key : bytes; wh_range_end : bytes; wh_prev_kv : bool;
  wh_filter : Z; wh_delivered_through : Z }.

Definition wh_matches (h : WatchHandle) (ev_type : Z) (kv : Kv) : bool :=
  if negb (Z.land (wh_filter h) 1 =? 0) && (ev_type =? 0) then false
  else if negb (Z.land (wh_filter h) 2 =? 0) && (ev_type =? 1) then false
  else if decide (wh_range_end h = []) then bool_decide (kv_key kv = wh_key h)
  else if decide (wh_range_end h = [0%N]) then bool_decide (bytes_le (wh_key h) (kv_key kv))
  else bool_decide (bytes_le (wh_key h) (kv_key kv))
       && bool_decide (bytes_lt (kv_key kv) (wh_range_end h)).

(** [filters.fold(0u32, |acc, f| acc | (1 << (f as u32)))]: the shift amount
    of a [u32] is taken modulo 32. *)
Definition filter_mask (filters : list Z) : Z :=
  foldl (λ acc f, Z.lor acc (Z.shiftl 1 (wrap_u32 f mod 32))) 0 filters.

Record WatchTask := mkTask {
  wt_handles : list WatchHandle; wt_next_watch_id : Z; wt_sent : list WatchResponse }.

Definition WatchTask_new : WatchTask :=
  {| wt_handles := []; wt_next_watch_id := 1; wt_sent := [] |}.

(** [tx.send(Ok(r)).await] *)
Definition send_all (rs : list WatchResponse) (t : WatchTask) : WatchTask :=
  mkTask (wt_handles t) (wt_next_watch_id t) (wt_sent t ++ rs).
Definition set_handles (hs : list WatchHandle) (t : WatchTask) : WatchTask :=
  mkTask hs (wt_next_watch_id t) (wt_sent t).

Definition WatchResponse_default : WatchResponse :=
  {| wr_header := None; wr_watch_id := 0; wr_created := false; wr_canceled := false;
     wr_compact_revision := 0; wr_cancel_reason := []; wr_fragment := false; wr_events := [] |}.

Definition compacted_response (wid compact_rev : Z) : WatchResponse :=
  {| wr_header := None; wr_watch_id := wid; wr_created := false; wr_canceled := true;
     wr_compact_revision := compact_rev;
     wr_cancel_reason := $"etcdserver: mvcc: required revision has been compacted";
     wr_fragment := false; wr_events := [] |}.
Definition created_response (wid rev : Z) : WatchResponse :=
  {| wr_header := Some (header_rev rev); wr_watch_id := wid; wr_created := true;
     wr_canceled := false; wr_compact_revision := 0; wr_cancel_reason := [];
     wr_fragment := false; wr_events := [] |}.
Definition events_response (wid rev : Z) (evs : list Event) : WatchResponse :=
  {| wr_header := Some (header_rev rev); wr_watch_id := wid; wr_created := false;
     wr_canceled := false; wr_compact_revision := 0; wr_cancel_reason := [];
     wr_fragment := false; wr_events := evs |}.
Definition canceled_response (wid : Z) (reason : text) : WatchResponse :=
  {| wr_header := None; wr_watch_id := wid; wr_created := false; wr_canceled := true;
     wr_compact_revision := 0; wr_cancel_reason := reason; wr_fragment := false;
     wr_events := [] |}.
Definition progress_response (rev : Z) : WatchResponse :=
  {| wr_header := Some (header_rev rev); wr_watch_id := 0; wr_created := false;
     wr_canceled := false; wr_compact_revision := 0; wr_cancel_reason := [];
     wr_fragment := false; wr_events := [] |}.

(** The events of one revision a handle lets through, as sent. *)
Definition matched_events (h : WatchHandle) (evs : list StoredEvent) : list Event :=
  (λ e, let ev := kv_to_event e in
        if wh_prev_kv h then ev
        else {| ev_type := ev_type ev; ev_kv := ev_kv ev; ev_prev_kv := None |})
  <$> filter (λ e, wh_matches h (se_type e) (se_kv e) = true) evs.

(** The response for one revision, when something matched. *)
Definition respond (h : WatchHandle) (entry : Z * list StoredEvent) : list WatchResponse :=
  let matched := matched_events h entry.2 in
  if decide (matched = []) then [] else [events_response (wh_id h) entry.1 matched].

(** The id a create request gets, and the counter after it. *)
Definition create_id (t : WatchTask) (cr : WatchCreateRequest) : Z * Z :=
  if wc_watch_id cr =? 0 then (wt_next_watch_id t, wrap_i64 (wt_next_watch_id t + 1))
  else (wc_watch_id cr, wt_next_watch_id t).

Definition new_handle (wid : Z) (cr : WatchCreateRequest) (cur_rev : Z) : WatchHandle :=
  mkHandle wid (wc_key cr) (wc_range_end cr) (wc_prev_kv cr) (filter_mask (wc_filters cr)) cur_rev.

Definition on_create (s : Store) (cr : WatchCreateRequest) (t : WatchTask) : WatchTask :=
  let '(wid, next) := create_id t cr in
  let t := mkTask (wt_handles t) next (wt_sent t) in
  let history := if 0 <? wc_start_revision cr
                 then events_since s (wrap_i64 (wc_start_revision cr - 1)) else [] in
  let cur_rev := revision s in
  let compact_rev := compact_revision s in
  if (0 <? wc_start_revision cr) && (wc_start_revision cr <=? compact_rev) then
    send_all [compacted_response wid compact_rev] t
  else
    let handle := new_handle wid cr cur_rev in
    let t := send_all [created_response wid cur_rev] t in
    let t := send_all (history ≫= respond handle) t in
    set_handles (wt_handles t ++ [handle]) t.

Definition on_cancel (wid : Z) (t : WatchTask) : WatchTask :=
  send_all [canceled_response wid []] (set_handles (filter (λ h, wh_id h ≠ wid) (wt_handles t)) t).

Definition on_message (s : Store) (m : WatchRequest) (t : WatchTask) : WatchTask :=
  match m with
  | CreateRequest cr => on_create s cr t
  | CancelRequest wid => on_cancel wid t
  | ProgressRequest => send_all [progress_response (revision s)] t
  | NoRequest => t
  end.

(** One turn of the fan-out loop: the handle after the batch, and what it
    sent. *)
Definition handle_batch (b : BroadcastBatch) (h : WatchHandle)
    : WatchHandle * list WatchResponse :=
  if b_revision b <=? wh_delivered_through h then (h, [])
  else (mkHandle (wh_id h) (wh_key h) (wh_range_end h) (wh_prev_kv h) (wh_filter h) (b_revision b),
        respond h (b_revision b, b_events b)).

Definition on_batch (b : BroadcastBatch) (t : WatchTask) : WatchTask :=
  let rs := handle_batch b <$> wt_handles t in
  send_all (rs ≫= snd) (set_handles (fst <$> rs) t).

Definition lag_reason : text := $"broadcast lag " ++ [8212%N] ++ $" reconnect".

Definition on_lagged (t : WatchTask) : WatchTask :=
  send_all ((λ h, canceled_response (wh_id h) lag_reason) <$> wt_handles t) (set_handles [] t).

(** ** The broadcast channel *)

Inductive RecvResult :=
| RecvOk (b : BroadcastBatch)
| RecvLagged (n : nat).

(** A receiver of the channel: [bc_missed] messages were dropped for it and
    not yet reported, [bc_retained] wait to be received.  A send appends, and
    may drop the oldest waiting message when the buffer is full; a receive
    reports the loss first, and otherwise takes the oldest message. *)
Class Broadcast (Q : Type) := {
  bc_subscribe : Q;
  bc_send : BroadcastBatch → Q → Q;
  bc_recv : Q → option (RecvResult * Q);
  bc_missed : Q → nat;
  bc_retained : Q → list BroadcastBatch;
  bc_subscribe_view : bc_missed bc_subscribe = 0%nat ∧ bc_retained bc_subscribe = [];
  bc_send_view : ∀ b q,
    (bc_missed (bc_send b q) = bc_missed q ∧ bc_retained (bc_send b q) = bc_retained q ++ [b])
    ∨ (bc_missed (bc_send b q) = S (bc_missed q)
       ∧ ∃ old, old :: bc_retained (bc_send b q) = bc_retained q ++ [b]);
  bc_recv_view : ∀ q,
    match bc_recv q with
    | None => bc_missed q = 0%nat ∧ bc_retained q = []
    | Some (RecvOk b, q') =>
        bc_missed q = 0%nat ∧ bc_missed q' = 0%nat ∧ bc_retained q = b :: bc_retained q'
    | Some (RecvLagged n, q') =>
        bc_missed q = n ∧ n ≠ 0%nat ∧ bc_missed q' = 0%nat ∧ bc_retained q' = bc_retained q
    end;
}.

(** The channel [Store::new] opens: 8192 slots. *)
Definition capacity : nat := N.to_nat 8192.

Record Fifo := mkFifo { fifo_missed : nat; fifo_items : list BroadcastBatch }.

Definition fifo_send (b : BroadcastBatch) (q : Fifo) : Fifo :=
  if decide (length (fifo_items q) < capacity)%nat
  then mkFifo (fifo_missed q) (fifo_items q ++ [b])
  else mkFifo (S (fifo_missed q)) (tail (fifo_items q ++ [b])).

Definition fifo_recv (q : Fifo) : option (RecvResult * Fifo) :=
  match fifo_missed q, fifo_items q with
  | S n, l => Some (RecvLagged (S n), mkFifo 0 l)
  | O, b :: l => Some (RecvOk b, mkFifo 0 l)
  | O, [] => None
  end.

#[export] Instance fifo_broadcast : Broadcast Fifo.
Proof.
  refine {| bc_subscribe := mkFifo 0 []; bc_send := fifo_send; bc_recv := fifo_recv;
            bc_missed := fifo_missed; bc_retained := fifo_items |}.
  - done.
  - intros b q. unfold fifo_send. case_decide; [by left|right]. simpl. split; [done|].
    destruct (fifo_items q); simpl; eauto.
  - intros [[|n] [|b l]]; simpl; done.
Defined.

(** ** The system: the store, one receiver, one watch task *)

Section system.
Context {Q : Type} `{!Broadcast Q}.

Record Sys := mkSys { sys_store : Store; sys_queue : Q; sys_task : WatchTask }.

(** The batches a store call has handed to the channel. *)
Definition new_batches (s s' : Store) : list BroadcastBatch := drop (length (tx s)) (tx s').

Inductive Label :=
| LCall (op : Op)
| LMessage (m : WatchRequest)
| LRecv.

Inductive sys_step : Label → Sys → Sys → Prop :=
| sys_call op y :
    let s' := run_op op (sys_store y) in
    sys_step (LCall op) y
      (mkSys s' (foldl (λ q b, bc_send b q) (sys_queue y) (new_batches (sys_store y) s'))
         (sys_task y))
| sys_message m y :
    sys_step (LMessage m) y (mkSys (sys_store y) (sys_queue y) (on_message (sys_store y) m (sys_task y)))
| sys_recv_ok b q' y :
    bc_recv (sys_queue y) = Some (RecvOk b, q') →
    sys_step LRecv y (mkSys (sys_store y) q' (on_batch b (sys_task y)))
| sys_recv_lagged n q' y :
    bc_recv (sys_queue y) = Some (RecvLagged n, q') →
    sys_step LRecv y (mkSys (sys_store y) q' (on_lagged (sys_task y))).

(** A freshly spawned stream over a reachable store. *)
Inductive sys_reachable : Sys → Prop :=
| sys_spawn s : reachable s → sys_reachable (mkSys s bc_subscribe WatchTask_new)
| sys_continue l y y' : sys_reachable y → sys_step l y y' → sys_reachable y'.

(** A step that leaves the watch [wid] alone: no other watch is created under
    its id, it is not cancelled, and the receiver has not lagged. *)
Inductive keeps_watch (wid : Z) : Label → Sys → Prop :=
| keeps_call op y : keeps_watch wid (LCall op) y
| keeps_create cr y : (create_id (sys_task y) cr).1 ≠ wid →
    keeps_watch wid (LMessage (CreateRequest cr)) y
| keeps_cancel w y : w ≠ wid → keeps_watch wid (LMessage (CancelRequest w)) y
| keeps_progress y : keeps_watch wid (LMessage ProgressRequest) y
| keeps_none y : keeps_watch wid (LMessage NoRequest) y
| keeps_recv y : bc_missed (sys_queue y) = 0%nat → keeps_watch wid LRecv y.

Inductive watch_run (wid : Z) : Sys → Sys → Prop :=
| watch_run_refl y : watch_run wid y y
| watch_run_step l y1 y2 y3 :
    watch_run wid y1 y2 → sys_step l y2 y3 → keeps_watch wid l y2 → watch_run wid y1 y3.

(** The event responses for one watch id. *)
Definition events_for (wid : Z) (rs : list WatchResponse) : list WatchResponse :=
  filter (λ r, wr_watch_id r = wid ∧ wr_events r ≠ []) rs.

(** How far the task has read the history: everything but what the channel
    still holds or has dropped. *)
Definition processed_rev (y : Sys) : Z :=
  revision (sys_store y)
  - Z.of_nat (bc_missed (sys_queue y) + length (bc_retained (sys_queue y))).

(** The first revision a create request asks for. *)
Definition first_rev (s : Store) (cr : WatchCreateRequest) : Z :=
  if 0 <? wc_start_revision cr then wc_start_revision cr else revision s + 1.
End system.
Arguments Sys Q : clear implicits.
