(* ===== verification/WatchSpec.v ===== *)
(** * What a watch stream delivers

    The theorems about [Watch.v]: a watch gets every matching event of its
    revisions exactly once and in order, whatever the interleaving of store
    calls, client messages and channel receives; where the code departs from
    that; and what each arm of the task's loop answers. *)

From S2P Require Import Prelude BTree Proto Store StoreInv StoreSpec Watch.

(** ** Definitions *)

(** The part of the history from [first] to [upto]. *)
Definition seen (first upto : Z) (s : Store) : list (Z * list StoredEvent) :=
  filter (λ e, first ≤ e.1 ∧ e.1 ≤ upto) (history s).

(** The create request is not refused as compacted. *)
Definition not_compacted (s : Store) (cr : WatchCreateRequest) : Prop :=
  wc_start_revision cr ≤ 0 ∨ compact_revision s < wc_start_revision cr.

(** The first revision whose events the task will let through: the one asked
    for, or the one after the store's if that is earlier. *)
Definition effective_first (s : Store) (cr : WatchCreateRequest) : Z :=
  Z.min (first_rev s cr) (revision s + 1).

(** What the receiver's view of the channel and the store agree on. *)
Definition chan_ok {Q} `{!Broadcast Q} (y : Sys Q) : Prop :=
  (∃ pre, tx (sys_store y) = pre ++ bc_retained (sys_queue y))
  ∧ (bc_missed (sys_queue y) + length (bc_retained (sys_queue y)) ≤ length (tx (sys_store y)))%nat.

(** The watch [wid] after a run: one handle carries the id, its request is
    [h], and it is ahead of nothing the task has not read. *)
Definition tracks {Q} `{!Broadcast Q} (wid : Z) (h : WatchHandle) (cur first : Z)
    (sent0 : list WatchResponse) (y : Sys Q) : Prop :=
  let upto := Z.max cur (processed_rev y) in
  cur ≤ revision (sys_store y)
  ∧ filter (λ h', wh_id h' = wid) (wt_handles (sys_task y))
    = [mkHandle wid (wh_key h) (wh_range_end h) (wh_prev_kv h) (wh_filter h) upto]
  ∧ ∃ new, wt_sent (sys_task y) = sent0 ++ new
      ∧ events_for wid new = seen first upto (sys_store y) ≫= respond h.

(** A watch on [key], [range_end] from [start]. *)
Definition watch_req (key range_end : bytes) (start id : Z) : WatchCreateRequest :=
  {| wc_key := key; wc_range_end := range_end; wc_start_revision := start;
     wc_progress_notify := false; wc_filters := []; wc_prev_kv := false; wc_watch_id := id;
     wc_fragment := false |}.

(** The system after the task has taken a create request. *)
Definition after_create {Q} `{!Broadcast Q} (y : Sys Q) (cr : WatchCreateRequest) : Sys Q :=
  mkSys (sys_store y) (sys_queue y) (on_create (sys_store y) cr (sys_task y)).

(** The steps as functions: a store call, and a receive when there is
    something to receive. *)
Definition call_step {Q} `{!Broadcast Q} (op : Op) (y : Sys Q) : Sys Q :=
  let s' := run_op op (sys_store y) in
  mkSys s' (foldl (λ q b, bc_send b q) (sys_queue y) (new_batches (sys_store y) s')) (sys_task y).

Definition recv_step {Q} `{!Broadcast Q} (y : Sys Q) : Sys Q :=
  match bc_recv (sys_queue y) with
  | Some (RecvOk b, q') => mkSys (sys_store y) q' (on_batch b (sys_task y))
  | Some (RecvLagged _, q') => mkSys (sys_store y) q' (on_lagged (sys_task y))
  | None => y
  end.

(** Runs used by the witnesses: a fresh stream over [demo], and a watch that
    is created, sees a put committed, and reads it from the channel. *)
Definition stream0 : Sys Fifo := mkSys demo bc_subscribe WatchTask_new.
Definition live_demo (cr : WatchCreateRequest) : Sys Fifo :=
  recv_step (call_step (OpPut (put_req $"/c" $"4" 0)) (after_create stream0 cr)).

(** ** Helper lemmas *)

Lemma events_for_app wid l1 l2 : events_for wid (l1 ++ l2) = events_for wid l1 ++ events_for wid l2.
Proof. apply filter_app. Qed.

Lemma events_for_none wid l :
  Forall (λ r, wr_watch_id r ≠ wid ∨ wr_events r = []) l → events_for wid l = [].
Proof. intros H. apply filter_none. eapply Forall_impl; [exact H|]. naive_solver. Qed.

(** Acknowledgements carry no events. *)
Lemma events_for_ack_cons wid r l : wr_events r = [] → events_for wid (r :: l) = events_for wid l.
Proof. intros E. unfold events_for. rewrite filter_cons_False; naive_solver. Qed.

Lemma events_for_ack wid r : wr_events r = [] → events_for wid [r] = [].
Proof. intros E. by rewrite events_for_ack_cons. Qed.

Lemma respond_mine h e : Forall (λ r, wr_watch_id r = wh_id h ∧ wr_events r ≠ []) (respond h e).
Proof. unfold respond. case_decide; [constructor|]. by repeat constructor. Qed.

Lemma responses_mine h l :
  Forall (λ r, wr_watch_id r = wh_id h ∧ wr_events r ≠ []) (l ≫= respond h).
Proof.
  apply Forall_forall. intros r (e & Hr & _)%list_elem_of_bind.
  by apply (proj1 (Forall_forall _ _) (respond_mine h e)).
Qed.

Lemma events_for_mine h l : events_for (wh_id h) (l ≫= respond h) = l ≫= respond h.
Proof. apply filter_all, responses_mine. Qed.

Lemma events_for_other wid h l : wh_id h ≠ wid → events_for wid (l ≫= respond h) = [].
Proof.
  intros Hne. apply events_for_none. eapply Forall_impl; [apply responses_mine|].
  intros r [-> _]. by left.
Qed.

(** [respond] reads everything of a handle but its position. *)
Lemma respond_ext h d e :
  respond (mkHandle (wh_id h) (wh_key h) (wh_range_end h) (wh_prev_kv h) (wh_filter h) d) e
  = respond h e.
Proof. reflexivity. Qed.

Lemma handle_batch_id b h : wh_id (handle_batch b h).1 = wh_id h.
Proof. unfold handle_batch. by case_match. Qed.

Lemma handle_batch_events wid b h :
  events_for wid (handle_batch b h).2 = if decide (wh_id h = wid) then (handle_batch b h).2 else [].
Proof.
  unfold handle_batch. case_match; simpl; [by case_decide|]. case_decide as Hid.
  - apply filter_all. rewrite <- Hid. apply respond_mine.
  - pose proof (events_for_other wid h [(b_revision b, b_events b)] Hid) as E.
    simpl in E. by rewrite app_nil_r in E.
Qed.

(** The fan-out, seen from one watch id. *)
Lemma on_batch_handles wid b t :
  filter (λ h, wh_id h = wid) (wt_handles (on_batch b t))
  = fst ∘ handle_batch b <$> filter (λ h, wh_id h = wid) (wt_handles t).
Proof.
  unfold on_batch. simpl. induction (wt_handles t) as [|h hs IH]; [done|].
  csimpl. rewrite !filter_cons. rewrite handle_batch_id. case_decide; csimpl; by rewrite IH.
Qed.

Lemma fan_out_events wid b hs :
  events_for wid ((handle_batch b <$> hs) ≫= snd)
  = filter (λ h, wh_id h = wid) hs ≫= snd ∘ handle_batch b.
Proof.
  induction hs as [|h hs IH]; [done|]. rewrite fmap_cons, bind_cons.
  rewrite events_for_app, IH, handle_batch_events, filter_cons. by case_decide.
Qed.

(** *** The history a watch has seen *)

Lemma seen_empty first upto s : upto < first → seen first upto s = [].
Proof. intros H. apply filter_none, Forall_forall. intros e _. lia. Qed.

(** Later events are beyond what was seen. *)
Lemma seen_grow first upto s s' :
  store_wf s → store_wf s' → tx s `prefix_of` tx s' → upto ≤ revision s →
  seen first upto s' = seen first upto s.
Proof.
  intros Hwf Hwf' Hp Hu. unfold seen. rewrite (history_split _ _ Hwf Hwf' Hp), filter_app.
  rewrite (filter_none _ (filter _ _)), app_nil_r; [done|].
  apply Forall_forall. intros e [? _]%list_elem_of_filter. lia.
Qed.

(** The next batch of the history. *)
Lemma seen_next first upto s i b :
  store_wf s → tx s !! i = Some b → b_revision b = upto + 1 → first ≤ upto + 1 →
  seen first (upto + 1) s = seen first upto s ++ [batch_entry b].
Proof.
  intros Hwf Hi Hb Hf. assert (upto = Z.of_nat i + 1) as ->.
  { destruct (wf_batches _ Hwf _ _ Hi) as [? _]. lia. }
  unfold seen, history. rewrite <- (take_drop_middle _ _ _ Hi), !fmap_app, !filter_app.
  simpl. rewrite !filter_cons. simpl. rewrite decide_True by lia. rewrite decide_False by lia.
  assert (∀ j b', tx s !! j = Some b' → b_revision b' = Z.of_nat j + 2) as Hrev.
  { intros j b' Hj. by destruct (wf_batches _ Hwf _ _ Hj). }
  assert (∀ u, u ≤ Z.of_nat i + 2 →
    filter (λ e : Z * list StoredEvent, first ≤ e.1 ∧ e.1 ≤ u) (batch_entry <$> drop (S i) (tx s)) = [])
    as Hdrop.
  { intros u Hu. apply filter_none, Forall_fmap, Forall_forall.
    intros b' [j Hj]%list_elem_of_lookup. rewrite lookup_drop in Hj.
    apply Hrev in Hj. simpl. lia. }
  rewrite !Hdrop, app_nil_r by lia. f_equal.
  apply filter_iff_in.
  intros e (b' & -> & [j Hj]%list_elem_of_lookup)%list_elem_of_fmap. apply lookup_take_Some in Hj as [Hj Hlt].
  apply Hrev in Hj. simpl. lia.
Qed.

(** *** The channel *)

Section channel.
Context {Q : Type} `{!Broadcast Q}.
Implicit Types (q : Q) (y : Sys Q).

Lemma sends_view bs q :
  let q' := foldl (λ q b, bc_send b q) q bs in
  (bc_missed q' + length (bc_retained q') = bc_missed q + length (bc_retained q) + length bs)%nat
  ∧ ∃ dropped, bc_retained q ++ bs = dropped ++ bc_retained q'.
Proof.
  revert q. induction bs as [|b bs IH]; intros q; simpl; [split; [lia|by exists []; rewrite app_nil_r]|].
  destruct (IH (bc_send b q)) as [Hn (d & Hd)]. rewrite Hn. clear Hn IH.
  destruct (bc_send_view b q) as [[-> E]|[-> (old & E)]]; rewrite ?E, ?length_app; simpl.
  - split; [lia|]. exists d. rewrite <- Hd, E, <- app_assoc. done.
  - apply (f_equal length) in E as El. rewrite length_app in El. simpl in El. split; [lia|].
    exists (old :: d). rewrite (app_assoc _ [b] bs : _ = (_ ++ [b]) ++ bs).
    rewrite <- E. simpl. by rewrite Hd.
Qed.

Lemma new_batches_eq s s' : tx s `prefix_of` tx s' → tx s' = tx s ++ new_batches s s'.
Proof. intros [l E]. unfold new_batches. by rewrite E, drop_app_length. Qed.

Lemma sys_step_prefix l y y' : sys_step l y y' → tx (sys_store y) `prefix_of` tx (sys_store y').
Proof. destruct 1; simpl; try done. apply run_op_evolves. Qed.

Lemma sys_step_store l y y' : sys_step l y y' → rtc op_step (sys_store y) (sys_store y').
Proof. destruct 1; simpl; try done. apply rtc_once. by exists op. Qed.

Lemma sys_reachable_store y : sys_reachable y → reachable (sys_store y).
Proof.
  induction 1 as [s Hs|l y y' _ IH Hstep]; [done|].
  unfold reachable. etrans; [exact IH|]. eauto using sys_step_store.
Qed.

(** The messages still in the channel are the end of the history. *)
Lemma chan_ok_step l y y' : sys_step l y y' → chan_ok y → chan_ok y'.
Proof.
  destruct 1 as [op y s'|m y|b q' y Hr|n q' y Hr]; intros [(pre & E) Hn].
  - unfold chan_ok. simpl.
    destruct (sends_view (new_batches (sys_store y) s') (sys_queue y)) as [Hc (d & Hd)].
    pose proof (new_batches_eq (sys_store y) s' (proj1 (run_op_evolves op (sys_store y)))) as Et.
    subst s'. rewrite Hc, Et, E. split.
    + exists (pre ++ d). by rewrite <- !app_assoc, Hd.
    + apply (f_equal length) in E. rewrite !length_app in *. lia.
  - by split; [exists pre|].
  - pose proof (bc_recv_view (sys_queue y)) as V. rewrite Hr in V. destruct V as (V1 & V2 & V3).
    unfold chan_ok. simpl. rewrite E, V3 in *. simpl in Hn. split.
    + exists (pre ++ [b]). by rewrite <- app_assoc.
    + rewrite V2. rewrite length_app in *. simpl in *. lia.
  - pose proof (bc_recv_view (sys_queue y)) as V. rewrite Hr in V. destruct V as (V1 & V2 & V3 & V4).
    unfold chan_ok. simpl. rewrite V4, V3. split; [by exists pre|]. lia.
Qed.

Lemma sys_reachable_chan y : sys_reachable y → chan_ok y.
Proof.
  induction 1 as [s Hs|l y y' _ IH Hstep]; [|eauto using chan_ok_step].
  destruct bc_subscribe_view as [E1 E2]. unfold chan_ok. simpl. rewrite E1, E2. simpl.
  split; [exists (tx s); by rewrite app_nil_r|lia].
Qed.

(** The batch a receive yields is the one after [processed_rev]. *)
Lemma recv_next y b q' :
  chan_ok y → store_wf (sys_store y) → bc_recv (sys_queue y) = Some (RecvOk b, q') →
  b_revision b = processed_rev y + 1
  ∧ processed_rev (mkSys (sys_store y) q' (on_batch b (sys_task y))) = processed_rev y + 1
  ∧ ∃ i, tx (sys_store y) !! i = Some b.
Proof.
  intros [(pre & E) Hn] Hwf Hr. pose proof (bc_recv_view (sys_queue y)) as V. rewrite Hr in V.
  destruct V as (V1 & V2 & V3). unfold processed_rev. simpl. rewrite V1, V2, V3. simpl.
  assert (tx (sys_store y) !! length pre = Some b) as Hi.
  { rewrite E, V3, lookup_app_r, Nat.sub_diag by lia. done. }
  destruct (wf_batches _ Hwf _ _ Hi) as (-> & _). apply (f_equal length) in E.
  rewrite V3, length_app in E. simpl in E. rewrite (wf_rev _ Hwf).
  split_and!; [lia..|by exists (length pre)].
Qed.

(** A store call leaves the task's position where it is. *)
Lemma processed_call op y :
  let s' := run_op op (sys_store y) in
  store_wf (sys_store y) → store_wf s' →
  processed_rev (mkSys s' (foldl (λ q b, bc_send b q) (sys_queue y) (new_batches (sys_store y) s'))
                   (sys_task y)) = processed_rev y.
Proof.
  intros s' Hwf Hwf'. unfold processed_rev. simpl.
  destruct (sends_view (new_batches (sys_store y) s') (sys_queue y)) as [Hc _].
  pose proof (new_batches_eq (sys_store y) s' (proj1 (run_op_evolves op (sys_store y)))) as Et.
  rewrite Hc, (wf_rev _ Hwf), (wf_rev _ Hwf'), Et, length_app. lia.
Qed.
End channel.

(** *** One watch along a run *)

Section tracking.
Context {Q : Type} `{!Broadcast Q}.
Implicit Types (y : Sys Q).

Lemma not_compacted_guard s cr :
  not_compacted s cr →
  (0 <? wc_start_revision cr) && (wc_start_revision cr <=? compact_revision s) = false.
Proof.
  intros Hnc. apply andb_false_iff.
  destruct Hnc; [left; apply Z.ltb_ge|right; apply Z.leb_gt]; lia.
Qed.

Lemma on_create_accepts s cr t :
  let wid := (create_id t cr).1 in
  let h := new_handle wid cr (revision s) in
  not_compacted s cr → is_i64 (wc_start_revision cr) →
  on_create s cr t
  = mkTask (wt_handles t ++ [h]) (create_id t cr).2
      (wt_sent t ++ created_response wid (revision s)
         :: (if 0 <? wc_start_revision cr
             then events_since s (wc_start_revision cr - 1) else []) ≫= respond h).
Proof.
  intros wid h Hnc Hi. subst wid h. unfold on_create. destruct (create_id t cr) as [wid next]. simpl.
  rewrite not_compacted_guard by done.
  unfold set_handles, send_all. simpl. rewrite <- app_assoc. simpl. f_equal. f_equal. f_equal.
  destruct (0 <? wc_start_revision cr) eqn:E; [|done]. zbool. f_equal. f_equal.
  apply wrap_i64_small. unfold is_i64, i64_min, i64_max in *. lia.
Qed.

Lemma on_create_registers s cr t :
  not_compacted s cr →
  wt_handles (on_create s cr t) = wt_handles t ++ [new_handle (create_id t cr).1 cr (revision s)]
  ∧ wt_next_watch_id (on_create s cr t) = (create_id t cr).2.
Proof.
  intros Hnc. unfold on_create. destruct (create_id t cr) as [wid next]. simpl.
  rewrite not_compacted_guard by done. done.
Qed.

(** Whatever the verdict, a create answers only under its own id. *)
Lemma on_create_other s cr t wid :
  (create_id t cr).1 ≠ wid →
  filter (λ h, wh_id h = wid) (wt_handles (on_create s cr t)) = filter (λ h, wh_id h = wid) (wt_handles t)
  ∧ ∃ new, wt_sent (on_create s cr t) = wt_sent t ++ new ∧ events_for wid new = [].
Proof.
  unfold on_create. destruct (create_id t cr) as [w next]. simpl. intros Hne. case_match; simpl.
  - split; [done|]. eexists. split; [done|]. by apply events_for_ack.
  - rewrite filter_app, filter_cons_False, filter_nil, app_nil_r by done. split; [done|].
    eexists. split; [by rewrite <- app_assoc|].
    by rewrite events_for_app, events_for_ack, events_for_other.
Qed.

Lemma tracks_create y cr :
  let s := sys_store y in
  let wid := (create_id (sys_task y) cr).1 in
  wid ∉ wh_id <$> wt_handles (sys_task y) →
  not_compacted s cr → is_i64 (wc_start_revision cr) → store_wf s → 
  tracks wid (new_handle wid cr (revision s)) (revision s) (effective_first s cr)
    (wt_sent (sys_task y)) (after_create y cr).
Proof.
  intros s wid Hfresh Hnc Hi Hwf. unfold tracks, after_create. subst s. cbn [sys_store sys_task].
  rewrite on_create_accepts by done. fold wid. cbn [wt_handles wt_sent].
  rewrite Z.max_l by (unfold processed_rev; simpl; lia). split; [done|]. split.
  - rewrite filter_app, filter_cons_True by done. rewrite filter_none; [done|].
    apply Forall_forall. intros h Hh <-. apply Hfresh, list_elem_of_fmap. eauto.
  - eexists. split; [done|]. rewrite events_for_ack_cons by done.
    rewrite (events_for_mine (new_handle wid cr (revision (sys_store y)))). simpl. f_equal.
    unfold effective_first, first_rev. destruct (0 <? _) eqn:E; zbool.
    + rewrite events_since_history by (try done; unfold not_compacted in Hnc; lia).
      apply filter_iff_in. intros e He%history_revisions; [|done]. lia.
    + rewrite seen_empty by lia. done.
Qed.

Lemma tracks_call wid h cur first sent0 op y :
  let s' := run_op op (sys_store y) in
  store_wf (sys_store y) → store_wf s' → tracks wid h cur first sent0 y →
  tracks wid h cur first sent0
    (mkSys s' (foldl (λ q b, bc_send b q) (sys_queue y) (new_batches (sys_store y) s')) (sys_task y)).
Proof.
  intros s' Hwf Hwf' (Hcur & Hh & new & Hs & Hev). unfold tracks; cbn [sys_store sys_task].
  pose proof (processed_call op y Hwf Hwf') as Hp. simpl in Hp. fold s' in Hp. rewrite Hp.
  destruct (run_op_evolves op (sys_store y)) as (Hpre & _).
  assert (revision (sys_store y) ≤ revision s').
  { rewrite (wf_rev _ Hwf), (wf_rev _ Hwf'). fold s' in Hpre. apply prefix_length in Hpre. lia. }
  split; [lia|]. split; [exact Hh|]. exists new. split; [done|].
  rewrite Hev. f_equal. symmetry. apply seen_grow; [done..|]. unfold processed_rev. lia.
Qed.

(** A message that keeps the handle and answers nothing under its id. *)
Lemma tracks_quiet wid h cur first sent0 t' y new' :
  tracks wid h cur first sent0 y →
  filter (λ h, wh_id h = wid) (wt_handles t') = filter (λ h, wh_id h = wid) (wt_handles (sys_task y)) →
  wt_sent t' = wt_sent (sys_task y) ++ new' → events_for wid new' = [] →
  tracks wid h cur first sent0 (mkSys (sys_store y) (sys_queue y) t').
Proof.
  intros (Hcur & Hh & new & Hs & Hev) E Es En. unfold tracks; cbn [sys_store sys_task].
  change (processed_rev (mkSys _ _ t')) with (processed_rev y). rewrite E.
  split; [done|]. split; [done|]. exists (new ++ new'). rewrite Es, Hs, app_assoc. split; [done|].
  by rewrite events_for_app, En, app_nil_r.
Qed.

Lemma tracks_message wid h cur first sent0 m y :
  keeps_watch wid (LMessage m) y → tracks wid h cur first sent0 y →
  tracks wid h cur first sent0
    (mkSys (sys_store y) (sys_queue y) (on_message (sys_store y) m (sys_task y))).
Proof.
  intros Hk Ht. inversion Hk as [|cr ? Hne|w ? Hne| | |]; subst; simpl.
  - destruct (on_create_other (sys_store y) cr (sys_task y) wid Hne) as (E & new' & E' & Ev).
    eapply tracks_quiet; eauto.
  - eapply tracks_quiet; [done| |done|by apply events_for_ack]. simpl.
    rewrite list_filter_filter. apply list_filter_iff. naive_solver.
  - eapply tracks_quiet; [done..|by apply events_for_ack].
  - eapply tracks_quiet; [done|done|by rewrite app_nil_r|done].
Qed.

Lemma tracks_batch wid h cur first sent0 b q' y :
  wh_id h = wid → first ≤ cur + 1 → chan_ok y → store_wf (sys_store y) →
  bc_recv (sys_queue y) = Some (RecvOk b, q') → tracks wid h cur first sent0 y →
  tracks wid h cur first sent0 (mkSys (sys_store y) q' (on_batch b (sys_task y))).
Proof.
  intros <- Hf Hch Hwf Hr (Hcur & Hh & new & Hs & Hev).
  destruct (recv_next y b q' Hch Hwf Hr) as (Hb & Hp & i & Hi).
  unfold tracks; cbn [sys_store sys_task]. rewrite Hp, on_batch_handles, Hh. csimpl.
  split; [done|].
  set (h0 := mkHandle _ _ _ _ _ _) in *.
  assert (∃ d rs, handle_batch b h0 = (mkHandle (wh_id h) (wh_key h) (wh_range_end h) (wh_prev_kv h)
                                      (wh_filter h) d, rs)
    ∧ d = Z.max cur (processed_rev y + 1)
    ∧ seen first d (sys_store y) ≫= respond h
      = (seen first (Z.max cur (processed_rev y)) (sys_store y) ≫= respond h) ++ rs)
    as (d & rs & E & Hd & Hseen).
  { unfold handle_batch. subst h0. cbn [wh_delivered_through].
    destruct (b_revision b <=? _) eqn:Eb; zbool; do 2 eexists.
    - split; [reflexivity|]. rewrite app_nil_r.
      by split; [lia|].
    - split; [reflexivity|]. split; [simpl; lia|]. rewrite Hb, Z.max_r by lia.
      rewrite (seen_next _ _ _ _ _ Hwf Hi), bind_app by lia. simpl.
      rewrite app_nil_r. unfold batch_entry. by rewrite Hb. }
  rewrite <- Hd, Hseen, <- Hev. split; [by rewrite E|].
  exists (new ++ (handle_batch b <$> wt_handles (sys_task y)) ≫= snd). split.
  - unfold on_batch. simpl. by rewrite Hs, app_assoc.
  - rewrite events_for_app, fan_out_events, Hh. fold h0. rewrite bind_cons. simpl. unfold compose.
    by rewrite E, app_nil_r.
Qed.

Lemma tracks_step wid h cur first sent0 l y y' :
  wh_id h = wid → first ≤ cur + 1 → sys_step l y y' → keeps_watch wid l y →
  chan_ok y → store_wf (sys_store y) → store_wf (sys_store y') →
  tracks wid h cur first sent0 y → tracks wid h cur first sent0 y'.
Proof.
  intros Hid Hf [op y0|m y0|b q' y0 Hr|n q' y0 Hr] Hk Hch Hwf Hwf' Ht;
    eauto using tracks_call, tracks_message, tracks_batch.
  inversion Hk as [| | | | |? Hm]; subst.
  pose proof (bc_recv_view (sys_queue y0)) as V. rewrite Hr in V. naive_solver.
Qed.

Lemma watch_run_reachable wid y y' : watch_run wid y y' → sys_reachable y → sys_reachable y'.
Proof. induction 1; eauto using sys_continue. Qed.

Lemma watch_run_prefix wid y y' :
  watch_run wid y y' → tx (sys_store y) `prefix_of` tx (sys_store y').
Proof. induction 1; [done|]. etrans; eauto using sys_step_prefix. Qed.

Lemma sys_wf y : sys_reachable y → in_range (sys_store y) → store_wf (sys_store y).
Proof. intros. apply reachable_wf'; [by apply sys_reachable_store|done]. Qed.

(** Along any run that leaves it alone, a watch has sent exactly the matching
    events from [effective_first] to where the task has read. *)
Lemma tracks_run cr y0 y :
  let wid := (create_id (sys_task y0) cr).1 in
  sys_reachable y0 → wid ∉ wh_id <$> wt_handles (sys_task y0) →
  not_compacted (sys_store y0) cr → is_i64 (wc_start_revision cr) →
  watch_run wid (after_create y0 cr) y → in_range (sys_store y) →
  tracks wid (new_handle wid cr (revision (sys_store y0))) (revision (sys_store y0))
    (effective_first (sys_store y0) cr) (wt_sent (sys_task y0)) y.
Proof.
  intros wid Hr Hfresh Hnc Hi Hrun.
  assert (sys_reachable (after_create y0 cr)) as Hr1.
  { eapply sys_continue; [exact Hr|]. apply (sys_message (CreateRequest cr)). }
  remember (after_create y0 cr) as y1 eqn:E1. induction Hrun as [|l y1 y2 y3 Hrun IH Hs Hk]; subst.
  - intros Hin. apply tracks_create; [done..|]. by apply sys_wf.
  - intros Hin. assert (sys_reachable y2) as Hr2 by eauto using watch_run_reachable.
    assert (in_range (sys_store y2)) as Hin2 by eauto using in_range_prefix, sys_step_prefix.
    eapply tracks_step; [| |exact Hs|exact Hk|..]; eauto using sys_wf, sys_reachable_chan, sys_continue.
    unfold effective_first. lia.
Qed.
End tracking.

Lemma recv_step_sound {Q} `{!Broadcast Q} (y : Sys Q) :
  bc_recv (sys_queue y) ≠ None → sys_step LRecv y (recv_step y).
Proof.
  unfold recv_step. intros H. destruct (bc_recv (sys_queue y)) as [[[b|n] q']|] eqn:E; [..|done].
  - by apply sys_recv_ok.
  - by eapply sys_recv_lagged.
Qed.

Lemma stream0_reachable : sys_reachable stream0.
Proof. apply sys_spawn, run_ops_reachable. Qed.

Lemma live_demo_run wid cr : watch_run wid (after_create stream0 cr) (live_demo cr).
Proof.
  eapply watch_run_step; [|eapply recv_step_sound|].
  - eapply watch_run_step; [apply watch_run_refl|apply sys_call|constructor].
  - vm_compute. discriminate.
  - constructor. by vm_compute.
Qed.

Lemma live_demo_in_range cr : in_range (sys_store (live_demo cr)).
Proof. by vm_compute. Qed.

(** *** The filter mask *)

Lemma wrap_u32_mod_32 f : wrap_u32 f mod 32 = f mod 32.
Proof. unfold wrap_unsigned. apply Z.mod_mod_divide. by exists (2 ^ 27). Qed.

Lemma land_pow2_testbit a i : 0 ≤ i → negb (Z.land a (2 ^ i) =? 0) = Z.testbit a i.
Proof.
  intros Hi. destruct (Z.testbit a i) eqn:E.
  - apply negb_true_iff, Z.eqb_neq. intros H0.
    apply (f_equal (λ z, Z.testbit z i)) in H0.
    rewrite Z.land_spec, E, Z.pow2_bits_true, Z.bits_0 in H0 by done. done.
  - apply negb_false_iff, Z.eqb_eq, Z.bits_inj'. intros n Hn.
    rewrite Z.land_spec, Z.bits_0, Z.pow2_bits_eqb by done.
    destruct (Z.eqb_spec i n) as [<-|]; [by rewrite E|apply andb_false_r].
Qed.

Lemma filter_mask_testbit filters i :
  0 ≤ i → Z.testbit (filter_mask filters) i = true ↔ ∃ f, f ∈ filters ∧ f mod 32 = i.
Proof.
  intros Hi. unfold filter_mask. induction filters as [|f fs IH] using rev_ind.
  - simpl. rewrite Z.bits_0. split; [done|]. intros (f & Hf & _). by apply not_elem_of_nil in Hf.
  - rewrite foldl_snoc, Z.lor_spec, orb_true_iff, IH, wrap_u32_mod_32, Z.shiftl_1_l.
    rewrite Z.pow2_bits_eqb, Z.eqb_eq by (apply Z.mod_pos_bound; lia).
    setoid_rewrite elem_of_app. setoid_rewrite list_elem_of_singleton. naive_solver.
Qed.

(** ** Theorems *)



(** A watch may ask to start at a revision the store has not reached; the
    code does not wait for it.  Every matching event after the current
    revision is delivered, those before the requested start included. *)
Theorem watch_future_start_leaks {Q} `{!Broadcast Q} (cr : WatchCreateRequest) (y0 y : Sys Q) :
  let s0 := sys_store y0 in
  let wid := (create_id (sys_task y0) cr).1 in
  sys_reachable y0 → wid ∉ wh_id <$> wt_handles (sys_task y0) →
  not_compacted s0 cr → is_i64 (wc_start_revision cr) → revision s0 + 1 < wc_start_revision cr →
  watch_run wid (after_create y0 cr) y → in_range (sys_store y) →
  ∃ new, wt_sent (sys_task y) = wt_sent (sys_task y0) ++ new
    ∧ events_for wid new
      = seen (revision s0 + 1) (Z.max (revision s0) (processed_rev y)) (sys_store y)
          ≫= respond (new_handle wid cr (revision s0)).
Proof.
  intros s0 wid Hr Hfresh Hnc Hi Hfirst Hrun Hin.
  destruct (tracks_run cr y0 y Hr Hfresh Hnc Hi Hrun Hin) as (Hcur & _ & new & Hs & Hev).
  exists new. split; [done|]. etrans; [exact Hev|]. subst s0.
  unfold effective_first, first_rev. f_equal. f_equal.
  destruct (0 <? _) eqn:E; zbool; lia.
Qed.

Lemma watch_future_start_leaks_witness :
  ∃ new, wt_sent (sys_task (live_demo (watch_req $"/" $"0" 100 0))) = new
    ∧ wr_events <$> events_for 1 new = [[Build_Event 0 (Some (Build_KeyValue $"/c" 5 5 1 $"4" 0)) None]].
Proof.
  pose proof (watch_future_start_leaks (watch_req $"/" $"0" 100 0) stream0
    (live_demo (watch_req $"/" $"0" 100 0)) stream0_reachable) as H.
  destruct H as (new & Es & Ev).
  - apply not_elem_of_nil.
  - right. by vm_compute.
  - by vm_compute.
  - by vm_compute.
  - apply live_demo_run.
  - apply live_demo_in_range.
  - exists new. split; [exact Es|]. etrans; [apply (f_equal (fmap wr_events)), Ev|]. by vm_compute.
Defined.

(** A create that asks for a compacted revision is answered with one
    cancelled response naming the compacted revision, and no watch is
    registered; any other create is acknowledged at the current revision
    before its first event and registered. *)
Theorem watch_create_spec s cr t :
  let wid := (create_id t cr).1 in
  let t' := on_create s cr t in
  (¬ not_compacted s cr →
    wt_handles t' = wt_handles t
    ∧ wt_sent t' = wt_sent t ++ [compacted_response wid (compact_revision s)])
  ∧ (not_compacted s cr →
    wt_handles t' = wt_handles t ++ [new_handle wid cr (revision s)]
    ∧ ∃ evs, wt_sent t' = wt_sent t ++ created_response wid (revision s) :: evs
        ∧ Forall (λ r, wr_watch_id r = wid ∧ wr_events r ≠ []) evs)
  ∧ wt_next_watch_id t' = (create_id t cr).2.
Proof.
  unfold on_create, not_compacted. destruct (create_id t cr) as [wid next]. simpl.
  destruct (0 <? _) eqn:E1; destruct (_ <=? compact_revision s) eqn:E2; zbool; simpl;
    (split; [intros Hn|split; [intros Hn|done]]);
    try (exfalso; lia); try done.
  all: split; [done|]; rewrite <- app_assoc; eexists; split; [done|].
  all: first [by apply Forall_nil | apply (responses_mine (new_handle wid cr (revision s)))].
Qed.

(** When the receiver has lagged, every watch of the stream is told it is
    cancelled, in order, and none is left registered, so no watch silently
    misses an event. *)
Theorem watch_lag_cancels {Q} `{!Broadcast Q} (y y' : Sys Q) :
  bc_missed (sys_queue y) ≠ 0%nat → sys_step LRecv y y' →
  wt_handles (sys_task y') = []
  ∧ wr_watch_id <$> drop (length (wt_sent (sys_task y))) (wt_sent (sys_task y'))
    = wh_id <$> wt_handles (sys_task y)
  ∧ Forall (λ r, wr_canceled r = true ∧ wr_events r = [])
      (drop (length (wt_sent (sys_task y))) (wt_sent (sys_task y')))
  ∧ bc_missed (sys_queue y') = 0%nat.
Proof.
  intros Hm Hs. inversion Hs as [| |b q' ? Hr|n q' ? Hr]; subst;
    pose proof (bc_recv_view (sys_queue y)) as V; rewrite Hr in V; [naive_solver|].
  simpl. rewrite drop_app_length, <- list_fmap_compose. split_and!; [done..| |naive_solver].
  apply Forall_fmap, Forall_true. done.
Qed.

(** A receiver that lost three messages. *)
Lemma watch_lag_cancels_witness :
  let y := mkSys demo (mkFifo 3 []) (on_create demo (watch_req $"/" $"0" 0 0) WatchTask_new) in
  wt_handles (sys_task (recv_step y)) = [].
Proof.
  intros y. refine (proj1 (watch_lag_cancels y (recv_step y) _ _)).
  - discriminate.
  - by apply recv_step_sound.
Defined.

(** A watch lets an event through exactly when its key is in the
    requested interval and its kind is not filtered out: the mask built from
    the request's filters drops PUTs iff some filter is 0 modulo 32 and
    DELETEs iff some filter is 1 modulo 32. *)
Theorem watch_matches_spec wid cr cur ty kv :
  wh_matches (new_handle wid cr cur) ty kv = true ↔
  in_key_range (wc_key cr) (wc_range_end cr) (kv_key kv)
  ∧ ¬ (ty = 0 ∧ ∃ f, f ∈ wc_filters cr ∧ f mod 32 = 0)
  ∧ ¬ (ty = 1 ∧ ∃ f, f ∈ wc_filters cr ∧ f mod 32 = 1).
Proof.
  rewrite <- !filter_mask_testbit by done.
  pose proof (land_pow2_testbit (filter_mask (wc_filters cr)) 0) as E0.
  pose proof (land_pow2_testbit (filter_mask (wc_filters cr)) 1) as E1.
  change (2 ^ 0) with 1 in E0. change (2 ^ 1) with 2 in E1.
  unfold wh_matches, in_key_range, new_handle.
  cbn [wh_filter wh_key wh_range_end]. rewrite E0, E1 by done. clear E0 E1.
  destruct (Z.testbit _ 0), (Z.testbit _ 1); simpl;
    destruct (Z.eqb_spec ty 0), (Z.eqb_spec ty 1); try lia;
    repeat case_decide; rewrite ?andb_true_iff, ?bool_decide_eq_true;
    intuition (congruence || lia).
Qed.

(** A client that names its own watch ids can collide with the ids the
    stream hands out: after a watch created as id 1, the first watch created
    without an id is also id 1, and one cancel removes both. *)
Theorem watch_id_collision s cr1 cr2 :
  wc_watch_id cr1 = 1 → wc_watch_id cr2 = 0 → not_compacted s cr1 → not_compacted s cr2 →
  let t := on_create s cr2 (on_create s cr1 WatchTask_new) in
  wh_id <$> wt_handles t = [1; 1] ∧ wt_handles (on_cancel 1 t) = [].
Proof.
  intros E1 E2 N1 N2 t.
  destruct (on_create_registers s cr1 WatchTask_new N1) as [H1 H1'].
  destruct (on_create_registers s cr2 (on_create s cr1 WatchTask_new) N2) as [H2 _].
  assert (create_id WatchTask_new cr1 = (1, 1)) as C1 by (unfold create_id; by rewrite E1).
  rewrite C1 in H1, H1'.
  assert ((create_id (on_create s cr1 WatchTask_new) cr2).1 = 1) as C2.
  { unfold create_id. rewrite E2, H1'. done. }
  rewrite C2, H1 in H2. subst t. unfold on_cancel, send_all, set_handles.
  cbn [wt_handles]. rewrite H2. done.
Qed.

Lemma watch_id_collision_witness :
  wh_id <$> wt_handles (on_create demo (watch_req $"/b" [] 0 0)
                          (on_create demo (watch_req $"/a" [] 0 1) WatchTask_new)) = [1; 1].
Proof.
  refine (proj1 (watch_id_collision demo (watch_req $"/a" [] 0 1) (watch_req $"/b" [] 0 0)
                   eq_refl eq_refl _ _)); left; done.
Defined.

(** Compaction takes any revision, one the store has not reached
    included: it is acknowledged at the current revision, and from then on
    every watch that starts at a revision up to the compacted one, the next
    one to be written among them, is refused. *)
Theorem compact_future_refuses_watches s rev cr t :
  revision s < rev → compact_revision s < rev → 0 < wc_start_revision cr ≤ rev →
  let '(res, s') := compact rev s in
  res = Ok (header s) ∧ revision s' = revision s
  ∧ wt_handles (on_create s' cr t) = wt_handles t
  ∧ wt_sent (on_create s' cr t) = wt_sent t ++ [compacted_response (create_id t cr).1 rev].
Proof.
  intros H1 H2 H3. unfold compact. simpl. rewrite (proj2 (Z.ltb_lt _ _)) by lia. simpl.
  unfold on_create. destruct (create_id t cr) as [wid next]. simpl.
  rewrite (proj2 (Z.ltb_lt _ _)), (proj2 (Z.leb_le _ _)) by lia. done.
Qed.

Lemma compact_future_refuses_watches_witness :
  wt_handles (on_create (compact 50 demo).2 (watch_req $"/a" [] 5 0) WatchTask_new) = [].
Proof.
  pose proof (compact_future_refuses_watches demo 50 (watch_req $"/a" [] 5 0) WatchTask_new) as H.
  destruct (compact 50 demo) as [res s']. apply H; by vm_compute.
Defined.
