(* ===== verification/Text.v ===== *)
(** * Strings

    The methods of Rust's [str] the sources use, on [text] (the list of a
    string's Unicode scalar values), with the lemmas the parsers and printers
    built on them need: splitting, prefixes, lines, trimming, and the decimal
    and hexadecimal forms of integers ([FromStr] and [Display]). *)

From S2P Require Import Prelude.

(** ** Definitions *)

(** A character literal. *)
Definition ch (a : ascii) : N := N_of_ascii a.
Arguments ch a%_char_scope.

Definition newline : N := 10%N.

(** The em dash of messages. *)
Definition dash : text := [8212%N].
Definition carriage_return : N := 13%N.

(** [s.strip_prefix(p)], [s.strip_suffix(p)], [s.starts_with(p)]. *)
Fixpoint strip_prefix (p s : text) : option text :=
  match p, s with
  | [], _ => Some s
  | x :: p, y :: s => if decide (x = y) then strip_prefix p s else None
  | _ :: _, [] => None
  end.

Definition strip_suffix (p s : text) : option text :=
  reverse <$> strip_prefix (reverse p) (reverse s).

Definition starts_with (p s : text) : bool := bool_decide (is_Some (strip_prefix p s)).

(** [s.split_once(c)] and [s.rsplit_once(c)] for a [char] pattern. *)
Fixpoint split_once (c : N) (s : text) : option (text * text) :=
  match s with
  | [] => None
  | x :: s =>
      if decide (x = c) then Some ([], s)
      else (λ '(a, b), (x :: a, b)) <$> split_once c s
  end.

Definition rsplit_once (c : N) (s : text) : option (text * text) :=
  (λ '(a, b), (reverse b, reverse a)) <$> split_once c (reverse s).

(** [s.split_once(pat)] for a [&str] pattern: the first occurrence. *)
Fixpoint split_once_str (pat s : text) : option (text * text) :=
  match strip_prefix pat s with
  | Some rest => Some ([], rest)
  | None =>
      match s with
      | [] => None
      | x :: s => (λ '(a, b), (x :: a, b)) <$> split_once_str pat s
      end
  end.

(** [s.split(c)]: always at least one piece. *)
Fixpoint split (c : N) (s : text) : list text :=
  match s with
  | [] => [[]]
  | x :: s =>
      if decide (x = c) then [] :: split c s
      else match split c s with
           | w :: ws => (x :: w) :: ws
           | [] => [[x]]
           end
  end.

(** [v.join(sep)]. *)
Fixpoint join (sep : text) (l : list text) : text :=
  match l with
  | [] => []
  | [x] => x
  | x :: l => x ++ sep ++ join sep l
  end.

(** [s.lines()]: pieces ended by a newline, a carriage return before it
    dropped; the empty piece after a final newline is not a line. *)
Definition strip_cr (l : text) : text := default l (strip_suffix [carriage_return] l).

Definition lines (s : text) : list text :=
  match reverse (split newline s) with
  | [] => []
  | last :: init =>
      (strip_cr <$> reverse init) ++ (if decide (last = []) then [] else [last])
  end.

(** [char::is_whitespace]: the Unicode [White_Space] property. *)
Definition is_whitespace (c : N) : bool :=
  (((9 <=? c) && (c <=? 13)) || (c =? 32) || (c =? 133) || (c =? 160) || (c =? 5760)
   || ((8192 <=? c) && (c <=? 8202)) || (c =? 8232) || (c =? 8233) || (c =? 8239)
   || (c =? 8287) || (c =? 12288))%N.

Fixpoint trim_start (s : text) : text :=
  match s with
  | [] => []
  | x :: s' => if is_whitespace x then trim_start s' else s
  end.
Definition trim_end (s : text) : text := reverse (trim_start (reverse s)).
Definition trim (s : text) : text := trim_end (trim_start s).

(** [s.trim_start_matches(c)], [s.trim_end_matches(c)]. *)
Fixpoint trim_start_matches (c : N) (s : text) : text :=
  match s with
  | [] => []
  | x :: s' => if decide (x = c) then trim_start_matches c s' else s
  end.
Definition trim_end_matches (c : N) (s : text) : text :=
  reverse (trim_start_matches c (reverse s)).

(** [s.split_whitespace()]. *)
Fixpoint split_ws (word s : text) : list text :=
  match s with
  | [] => if decide (word = []) then [] else [word]
  | x :: s =>
      if is_whitespace x
      then (if decide (word = []) then [] else [word]) ++ split_ws [] s
      else split_ws (word ++ [x]) s
  end.
Definition split_whitespace (s : text) : list text := split_ws [] s.

(** [FromStr] for the integer types: an optional sign, then at least one
    digit, and a value in range. *)
Definition digit (c : N) : option Z :=
  if ((48 <=? c) && (c <=? 57))%N then Some (Z.of_N c - 48) else None.

Fixpoint digits_value (acc : Z) (s : text) : option Z :=
  match s with
  | [] => Some acc
  | c :: s => match digit c with Some d => digits_value (acc * 10 + d) s | None => None end
  end.

Definition parse_digits (s : text) : option Z :=
  match s with [] => None | _ => digits_value 0 s end.

Definition check_range (lo hi : Z) (o : option Z) : option Z :=
  match o with Some z => if (lo <=? z) && (z <=? hi) then Some z else None | None => None end.

(** [str::parse::<uN>] with [uN::MAX = hi]. *)
Definition parse_unsigned (hi : Z) (s : text) : option Z :=
  check_range 0 hi
    match s with
    | c :: s' => if decide (c = ch "+") then parse_digits s' else parse_digits s
    | [] => None
    end.

(** [str::parse::<iN>]. *)
Definition parse_signed (lo hi : Z) (s : text) : option Z :=
  check_range lo hi
    match s with
    | c :: s' => if decide (c = ch "+") then parse_digits s'
                 else if decide (c = ch "-") then Z.opp <$> parse_digits s'
                 else parse_digits s
    | [] => None
    end.

(** [Display] for the integer types. *)
Definition dec_digit (d : Z) : N := Z.to_N (48 + d).

Fixpoint dec_digits (fuel : nat) (z : Z) (acc : text) : text :=
  match fuel with
  | O => acc
  | S fuel =>
      let acc := dec_digit (z mod 10) :: acc in
      if z / 10 =? 0 then acc else dec_digits fuel (z / 10) acc
  end.

(** A number of [n] bits has at most [n] decimal digits. *)
Definition fmt_unsigned (z : Z) : text := dec_digits (S (Z.to_nat (Z.log2 z))) z [].
Definition fmt_dec (z : Z) : text :=
  if z <? 0 then ch "-" :: fmt_unsigned (- z) else fmt_unsigned z.

(** [{:#x}] of an [i64]: the hexadecimal digits of its two's complement. *)
Definition hex_digit (d : Z) : N := Z.to_N (if d <? 10 then 48 + d else 87 + d).

Fixpoint hex_digits (fuel : nat) (z : Z) (acc : text) : text :=
  match fuel with
  | O => acc
  | S fuel =>
      let acc := hex_digit (z mod 16) :: acc in
      if z / 16 =? 0 then acc else hex_digits fuel (z / 16) acc
  end.
Definition fmt_hex_i64 (z : Z) : text := $"0x" ++ hex_digits 16 (wrap_u64 z) [].

Definition is_digit (c : N) : Prop := (48 ≤ c ≤ 57)%N.

(** *** Streams: what [read] returns: bytes (at most the buffer's 1024), the end of the
    stream, or an error, a timeout included. *)
Inductive ReadResult := RData (bs : bytes) | REof | RError.

Definition crlf : bytes := [13; 10]%N.
Definition blank_line : bytes := crlf ++ crlf.

(** ** Prefixes *)

Lemma strip_prefix_Some p s r : strip_prefix p s = Some r ↔ s = p ++ r.
Proof.
  revert s. induction p as [|x p IH]; intros s; simpl; [naive_solver|].
  destruct s as [|y s]; [naive_solver|]. case_decide; [|naive_solver].
  rewrite IH. naive_solver.
Qed.

Lemma strip_prefix_app p s : strip_prefix p (p ++ s) = Some s.
Proof. by apply strip_prefix_Some. Qed.

Lemma strip_prefix_None p s : strip_prefix p s = None ↔ ∀ r, s ≠ p ++ r.
Proof.
  destruct (strip_prefix p s) as [r|] eqn:E; split; try done.
  - apply strip_prefix_Some in E. intros H. by destruct (H r).
  - intros _ r ->. by rewrite strip_prefix_app in E.
Qed.

Lemma strip_suffix_Some p s r : strip_suffix p s = Some r ↔ s = r ++ p.
Proof.
  unfold strip_suffix. rewrite fmap_Some. split.
  - intros (x & E%strip_prefix_Some & ->). apply (f_equal reverse) in E.
    by rewrite reverse_app, !reverse_involutive in E.
  - intros ->. exists (reverse r). rewrite reverse_involutive, reverse_app. split; [|done].
    apply strip_prefix_app.
Qed.

(** ** Splitting *)

Lemma split_once_Some c s a b : split_once c s = Some (a, b) ↔ s = a ++ c :: b ∧ c ∉ a.
Proof.
  revert a. induction s as [|x s IH]; intros a; simpl.
  { split; [done|]. by intros [?%app_cons_not_nil _]. }
  case_decide as E.
  - subst. split.
    + intros [= <- <-]. split; [done|apply not_elem_of_nil].
    + intros [E Hc]. destruct a as [|y a]; simplify_eq/=; [done|]. exfalso. apply Hc. left.
  - rewrite fmap_Some. split.
    + intros ([a' b'] & H & [= -> ->]). apply IH in H as [-> Hc]. split; [done|].
      intros [?|?]%elem_of_cons; congruence.
    + intros [Ex Hc]. destruct a as [|y a]; simplify_eq/=. exists (a, b). split; [|done].
      apply IH. split; [done|]. intros Hin. apply Hc. by right.
Qed.

Lemma split_once_None c s : split_once c s = None ↔ c ∉ s.
Proof.
  induction s as [|x s IH]; simpl; [split; [intros; apply not_elem_of_nil|done]|].
  case_decide as E.
  - subst. split; [done|]. intros H. exfalso. apply H. left.
  - rewrite fmap_None, IH, not_elem_of_cons. naive_solver.
Qed.

Lemma rsplit_once_Some c s a b : rsplit_once c s = Some (a, b) ↔ s = a ++ c :: b ∧ c ∉ b.
Proof.
  unfold rsplit_once. rewrite fmap_Some. split.
  - intros ([x y] & [E Hc]%split_once_Some & [= -> ->]).
    apply (f_equal reverse) in E. rewrite reverse_involutive, reverse_app, reverse_cons, <- app_assoc in E.
    split; [done|]. by rewrite elem_of_reverse.
  - intros [-> Hc]. exists (reverse b, reverse a). rewrite !reverse_involutive. split; [|done].
    apply split_once_Some. rewrite reverse_app, reverse_cons, <- app_assoc. simpl.
    by rewrite elem_of_reverse.
Qed.

Lemma rsplit_once_None c s : rsplit_once c s = None ↔ c ∉ s.
Proof. unfold rsplit_once. by rewrite fmap_None, split_once_None, elem_of_reverse. Qed.

Lemma split_not_nil c s : split c s ≠ [].
Proof. destruct s as [|x s]; simpl; [done|]. case_decide; [done|]. by destruct (split c s). Qed.

Lemma split_pieces c s : Forall (λ w, c ∉ w) (split c s).
Proof.
  induction s as [|x s IH]; simpl; [repeat constructor; apply not_elem_of_nil|].
  case_decide; [constructor; [apply not_elem_of_nil|done]|].
  destruct (split c s) as [|w ws]; repeat constructor.
  - rewrite not_elem_of_cons. split; [congruence|apply not_elem_of_nil].
  - inversion IH; subst. rewrite not_elem_of_cons. split; [congruence|done].
  - by inversion IH.
Qed.

Lemma split_app_sep c w s : c ∉ w → split c (w ++ c :: s) = w :: split c s.
Proof.
  induction w as [|x w IH]; intros Hc; simpl; [by rewrite decide_True|].
  apply not_elem_of_cons in Hc as [Hx Hc]. rewrite decide_False by congruence. by rewrite IH.
Qed.

Lemma split_no_sep c w : c ∉ w → split c w = [w].
Proof.
  induction w as [|x w IH]; intros Hc; simpl; [done|].
  apply not_elem_of_cons in Hc as [Hx Hc]. rewrite decide_False by congruence. by rewrite IH.
Qed.

Lemma join_cons sep x l : l ≠ [] → join sep (x :: l) = x ++ sep ++ join sep l.
Proof. by destruct l. Qed.

(** Splitting what was joined gives the pieces back. *)
Lemma split_join c l : l ≠ [] → Forall (λ w, c ∉ w) l → split c (join [c] l) = l.
Proof.
  induction l as [|w l IH]; intros Hne Hall; [done|]. inversion Hall; subst.
  destruct l as [|w' l]; [by apply split_no_sep|].
  rewrite join_cons by done. change ([c] ++ join [c] (w' :: l)) with (c :: join [c] (w' :: l)).
  rewrite split_app_sep by done. by rewrite IH.
Qed.

Lemma join_split c s : join [c] (split c s) = s.
Proof.
  induction s as [|x s IH]; simpl; [done|]. case_decide as E.
  - rewrite join_cons by apply split_not_nil. subst. simpl. by rewrite IH.
  - destruct (split c s) as [|w [|w' ws]] eqn:Es.
    + by destruct (split_not_nil c s).
    + simpl in *. congruence.
    + rewrite join_cons in * by done. rewrite <- IH. done.
Qed.

Lemma split_once_str_Some pat s a b :
  split_once_str pat s = Some (a, b) → s = a ++ pat ++ b.
Proof.
  revert a. induction s as [|x s IH]; intros a; simpl.
  - destruct (strip_prefix pat []) as [r|] eqn:E; [|done].
    intros [= <- <-]. by apply strip_prefix_Some in E.
  - destruct (strip_prefix pat (x :: s)) as [r|] eqn:E.
    { intros [= <- <-]. by apply strip_prefix_Some in E. }
    intros ([a' b'] & H & [= -> ->])%fmap_Some. simpl. f_equal. by apply IH.
Qed.

Lemma split_once_str_app pat s t a b :
  split_once_str pat s = Some (a, b) → split_once_str pat (s ++ t) = Some (a, b ++ t).
Proof.
  revert a. induction s as [|x s IH]; intros a H.
  - simpl in H. destruct (strip_prefix pat []) as [r|] eqn:E; [|done]. injection H as <- <-.
    apply strip_prefix_Some in E. symmetry in E. apply app_nil in E as [-> ->]. by destruct t.
  - pose proof (split_once_str_Some _ _ _ _ H) as Hs. simpl in H |- *.
    destruct (strip_prefix pat (x :: s)) as [r|] eqn:E.
    + injection H as <- <-. apply strip_prefix_Some in E.
      assert (strip_prefix pat (x :: s ++ t) = Some (r ++ t)) as ->; [|done].
      apply strip_prefix_Some. rewrite app_comm_cons, E. by rewrite app_assoc.
    + apply fmap_Some in H as ([a' b'] & H & [= -> ->]).
      destruct (strip_prefix pat (x :: s ++ t)) as [r|] eqn:E'.
      * exfalso. apply strip_prefix_Some in E'.
        (* the pattern would end inside [s] *)
        assert (length pat ≤ length (x :: s))%nat as Hl.
        { rewrite Hs. rewrite !length_app. lia. }
        apply strip_prefix_None with (r := drop (length pat) (x :: s)) in E. apply E.
        apply (f_equal (take (length pat))) in E'. rewrite take_app_length in E'.
        rewrite app_comm_cons, take_app_le in E' by done.
        rewrite <- E' at 1. symmetry. apply take_drop.
      * by rewrite (IH a' H).
Qed.

(** *** Lines *)

Lemma strip_cr_id l : (∀ x, l ≠ x ++ [carriage_return]) → strip_cr l = l.
Proof.
  intros H. unfold strip_cr. destruct (strip_suffix _ l) as [x|] eqn:E; [|done].
  apply strip_suffix_Some in E. by destruct (H x).
Qed.

Lemma split_lines (l : list text) :
  Forall (λ w, newline ∉ w) l → split newline (mjoin ((λ w, w ++ [newline]) <$> l)) = l ++ [[]].
Proof.
  induction l as [|w l IH]; intros Hall; [done|]. inversion Hall; subst. csimpl.
  rewrite <- app_assoc. simpl. rewrite split_app_sep by done. by rewrite IH.
Qed.

(** Reading back a file written a line at a time. *)
Lemma lines_unlines (l : list text) :
  Forall (λ w, newline ∉ w ∧ ∀ x, w ≠ x ++ [carriage_return]) l →
  lines (mjoin ((λ w, w ++ [newline]) <$> l)) = l.
Proof.
  intros Hall. unfold lines. rewrite split_lines by (eapply Forall_impl; [done|naive_solver]).
  rewrite reverse_app. simpl. rewrite reverse_involutive, app_nil_r.
  induction Hall as [|w l [_ H] _ IH]; [done|]. csimpl. by rewrite IH, strip_cr_id.
Qed.

(** *** Trimming *)

Lemma trim_start_id x s : is_whitespace x = false → trim_start (x :: s) = x :: s.
Proof. simpl. by intros ->. Qed.

Lemma trim_end_id x s : is_whitespace x = false → trim_end (s ++ [x]) = s ++ [x].
Proof.
  intros H. unfold trim_end. rewrite reverse_app. simpl. rewrite H.
  by rewrite reverse_cons, reverse_involutive.
Qed.

(** ** Integers *)

Lemma digit_dec d : 0 ≤ d < 10 → digit (dec_digit d) = Some d.
Proof.
  intros Hd. unfold digit, dec_digit.
  destruct (_ && _) eqn:E; [f_equal; lia|].
  apply andb_false_iff in E as [E|E]; [apply N.leb_gt in E|apply N.leb_gt in E]; lia.
Qed.

Lemma dec_digit_is_digit d : 0 ≤ d < 10 → is_digit (dec_digit d).
Proof. unfold is_digit, dec_digit. lia. Qed.

Lemma dec_digits_digits fuel z acc :
  Forall is_digit acc → Forall is_digit (dec_digits fuel z acc).
Proof.
  revert z acc. induction fuel as [|fuel IH]; intros z acc H; simpl; [done|].
  assert (Forall is_digit (dec_digit (z mod 10) :: acc)).
  { constructor; [|done]. apply dec_digit_is_digit. apply Z.mod_pos_bound. lia. }
  case_match; auto.
Qed.

Lemma dec_digits_not_nil fuel z acc : fuel ≠ O ∨ acc ≠ [] → dec_digits fuel z acc ≠ [].
Proof.
  revert z acc. induction fuel as [|fuel IH]; intros z acc H; simpl; [naive_solver|].
  case_match; [done|]. apply IH. by right.
Qed.

Lemma digits_value_app acc s1 s2 :
  digits_value acc (s1 ++ s2) = digits_value acc s1 ≫= λ a, digits_value a s2.
Proof.
  revert acc. induction s1 as [|c s1 IH]; intros acc; simpl; [done|].
  destruct (digit c); [apply IH|done].
Qed.

(** Enough fuel: the digits printed read back as the number. *)
Lemma dec_digits_value fuel z acc :
  0 ≤ z < 2 ^ Z.of_nat fuel →
  ∃ ds, dec_digits fuel z acc = ds ++ acc ∧ digits_value 0 ds = Some z.
Proof.
  revert z acc. induction fuel as [|fuel IH]; intros z acc Hz.
  { exists []. simpl in *. split; [done|]. f_equal. lia. }
  simpl. destruct (Z.eqb_spec (z / 10) 0) as [E|E].
  - exists [dec_digit (z mod 10)]. split; [done|]. simpl.
    rewrite digit_dec by (apply Z.mod_pos_bound; lia).
    f_equal. pose proof (Z.div_mod z 10). lia.
  - destruct (IH (z / 10) (dec_digit (z mod 10) :: acc)) as (ds & E1 & E2).
    { rewrite Nat2Z.inj_succ, Z.pow_succ_r in Hz by lia.
      pose proof (Z.div_mod z 10). pose proof (Z.mod_pos_bound z 10).
      pose proof (Z.div_pos z 10). lia. }
    exists (ds ++ [dec_digit (z mod 10)]). rewrite E1, <- app_assoc. split; [done|].
    rewrite digits_value_app, E2. simpl. rewrite digit_dec by (apply Z.mod_pos_bound; lia).
    f_equal. pose proof (Z.div_mod z 10). lia.
Qed.

Lemma fmt_unsigned_value z : 0 ≤ z → digits_value 0 (fmt_unsigned z) = Some z.
Proof.
  intros Hz. unfold fmt_unsigned.
  destruct (dec_digits_value (S (Z.to_nat (Z.log2 z))) z []) as (ds & E1 & E2).
  - split; [done|]. rewrite Nat2Z.inj_succ, Z2Nat.id by apply Z.log2_nonneg.
    destruct (decide (z = 0)) as [->|]; [done|]. apply Z.log2_spec. lia.
  - by rewrite E1, app_nil_r.
Qed.

Lemma fmt_unsigned_digits z : Forall is_digit (fmt_unsigned z).
Proof. apply dec_digits_digits. constructor. Qed.

Lemma fmt_unsigned_head z : ∃ c s, fmt_unsigned z = c :: s ∧ is_digit c.
Proof.
  pose proof (fmt_unsigned_digits z) as H. unfold fmt_unsigned in *.
  destruct (dec_digits _ _ _) as [|c s] eqn:E.
  - exfalso. revert E. apply dec_digits_not_nil. by left.
  - inversion H. eauto.
Qed.

Lemma digit_not_sign c : is_digit c → c ≠ ch "+" ∧ c ≠ ch "-".
Proof. unfold is_digit, ch. simpl. lia. Qed.

Lemma parse_unsigned_range hi s z : parse_unsigned hi s = Some z → 0 ≤ z ≤ hi.
Proof.
  unfold parse_unsigned, check_range.
  destruct (match s with [] => None | _ => _ end) as [x|]; [|done].
  destruct (_ && _) eqn:E; [|done]. intros [= <-]. apply andb_true_iff in E as [? ?]. zbool. lia.
Qed.

Lemma parse_fmt_unsigned hi z : 0 ≤ z ≤ hi → parse_unsigned hi (fmt_dec z) = Some z.
Proof.
  intros Hz. unfold fmt_dec. rewrite (proj2 (Z.ltb_ge _ _)) by lia.
  destruct (fmt_unsigned_head z) as (c & s & E & [H1 H2]%digit_not_sign).
  unfold parse_unsigned. rewrite E, decide_False by done. unfold parse_digits. rewrite <- E.
  rewrite fmt_unsigned_value by lia. simpl.
  by rewrite (proj2 (Z.leb_le _ _)), (proj2 (Z.leb_le _ _)) by lia.
Qed.

Lemma parse_fmt_signed lo hi z :
  lo ≤ z ≤ hi → parse_signed lo hi (fmt_dec z) = Some z.
Proof.
  intros Hz. unfold fmt_dec, parse_signed. destruct (Z.ltb_spec z 0).
  - rewrite decide_False, decide_True by done. unfold parse_digits.
    destruct (fmt_unsigned_head (- z)) as (c & s & E & _). rewrite E, <- E.
    rewrite fmt_unsigned_value by lia. simpl. rewrite Z.opp_involutive.
    by rewrite (proj2 (Z.leb_le _ _)), (proj2 (Z.leb_le _ _)) by lia.
  - destruct (fmt_unsigned_head z) as (c & s & E & [H1 H2]%digit_not_sign).
    rewrite E, !decide_False by done. unfold parse_digits. rewrite <- E.
    rewrite fmt_unsigned_value by lia. simpl.
    by rewrite (proj2 (Z.leb_le _ _)), (proj2 (Z.leb_le _ _)) by lia.
Qed.

#[export] Hint Resolve split_not_nil fmt_unsigned_digits : etcd.
