(* ===== verification/Utf8.v ===== *)
(** * UTF-8

    [str::as_bytes] and [String::from_utf8_lossy], and that decoding what was
    encoded gives it back. *)

From Stdlib Require Import ZifyBool ZifyN.
From S2P Require Import Prelude Text.

(** ** Definitions *)

(** [String::from_utf8_lossy]: an ill-formed sequence, up to the byte that
    shows it is one, becomes U+FFFD. *)
Definition cont (b : N) : bool := ((128 <=? b) && (b <=? 191))%N.
Definition in_range (lo hi b : N) : bool := ((lo <=? b) && (b <=? hi))%N.

(** The range of the second byte of a sequence of three or four. *)
Definition second_ok (b0 b1 : N) : bool :=
  if (b0 =? 224)%N then in_range 160 191 b1
  else if (b0 =? 237)%N then in_range 128 159 b1
  else if (b0 =? 240)%N then in_range 144 191 b1
  else if (b0 =? 244)%N then in_range 128 143 b1
  else cont b1.

Definition replacement : N := 65533%N.

(** One character or replacement, and the number of bytes it took. *)
Definition utf8_step (b0 : N) (rest : bytes) : N * nat :=
  let bits b := (b mod 64)%N in
  if (b0 <? 128)%N then (b0, 1%nat)
  else if in_range 194 223 b0 then
    match rest with
    | b1 :: _ => if cont b1 then ((b0 mod 32) * 64 + bits b1, 2%nat)%N else (replacement, 1%nat)
    | [] => (replacement, 1%nat)
    end
  else if in_range 224 239 b0 then
    match rest with
    | b1 :: rest =>
        if second_ok b0 b1 then
          match rest with
          | b2 :: _ =>
              if cont b2 then (((b0 mod 16) * 64 + bits b1) * 64 + bits b2, 3%nat)%N
              else (replacement, 2%nat)
          | [] => (replacement, 2%nat)
          end
        else (replacement, 1%nat)
    | [] => (replacement, 1%nat)
    end
  else if in_range 240 244 b0 then
    match rest with
    | b1 :: rest =>
        if second_ok b0 b1 then
          match rest with
          | b2 :: rest =>
              if cont b2 then
                match rest with
                | b3 :: _ =>
                    if cont b3
                    then ((((b0 mod 8) * 64 + bits b1) * 64 + bits b2) * 64 + bits b3, 4%nat)%N
                    else (replacement, 3%nat)
                | [] => (replacement, 3%nat)
                end
              else (replacement, 2%nat)
          | [] => (replacement, 2%nat)
          end
        else (replacement, 1%nat)
    | [] => (replacement, 1%nat)
    end
  else (replacement, 1%nat).

Fixpoint utf8_go (fuel : nat) (bs : bytes) : text :=
  match fuel, bs with
  | S fuel, b :: rest =>
      let '(c, n) := utf8_step b rest in c :: utf8_go fuel (drop (n - 1) rest)
  | _, _ => []
  end.
Definition from_utf8_lossy (bs : bytes) : text := utf8_go (length bs) bs.

(** The bytes of a character, of a text. *)
Definition utf8_char (c : N) : bytes :=
  if (c <? 128)%N then [c]
  else if (c <? 2048)%N then [192 + c / 64; 128 + c mod 64]%N
  else if (c <? 65536)%N then [224 + c / 4096; 128 + (c / 64) mod 64; 128 + c mod 64]%N
  else [240 + c / 262144; 128 + (c / 4096) mod 64; 128 + (c / 64) mod 64; 128 + c mod 64]%N.
Definition utf8 (t : text) : bytes := t ≫= utf8_char.

(** A Unicode scalar value: what a Rust [char] can be. *)
Definition scalar (c : N) : Prop := (c < 55296 ∨ 57344 ≤ c < 1114112)%N.

(** ** Lemmas *)

(** ASCII is itself. *)
Lemma from_utf8_ascii bs : Forall (λ b, b < 128)%N bs → from_utf8_lossy bs = bs.
Proof.
  intros H. unfold from_utf8_lossy.
  induction H as [|b bs Hb _ IH]; [done|]. cbn [length utf8_go]. unfold utf8_step.
  rewrite (proj2 (N.ltb_lt _ _) Hb). cbn. by rewrite drop_0, IH.
Qed.

(** Byte arithmetic for [lia]. *)
#[local] Ltac Zify.zify_post_hook ::= Z.to_euclidean_division_equations.

(** Decides the tests of the decoder. *)
Ltac byte_tests :=
  repeat match goal with
  | |- context [if ?b then _ else _] =>
      first [ replace b with true by (unfold second_ok, in_range, cont; repeat case_match; lia)
            | replace b with false by (unfold second_ok, in_range, cont; repeat case_match; lia) ]
  end.

(** One character back, whatever follows it. *)
Lemma utf8_step_char c rest : scalar c →
  ∃ b bs, utf8_char c = b :: bs ∧ utf8_step b (bs ++ rest) = (c, S (length bs)).
Proof.
  unfold scalar, utf8_char. intros Hc.
  destruct (N.ltb_spec c 128).
  { exists c, []. split; [done|]. unfold utf8_step. by byte_tests. }
  destruct (N.ltb_spec c 2048).
  { eexists _, _. split; [done|]. unfold utf8_step. simpl app. byte_tests. simpl. f_equal. lia. }
  destruct (N.ltb_spec c 65536).
  { eexists _, _. split; [done|]. unfold utf8_step. simpl app. byte_tests. simpl. f_equal. lia. }
  eexists _, _. split; [done|]. unfold utf8_step. simpl app. byte_tests. simpl. f_equal. lia.
Qed.

Lemma utf8_go_app fuel t : Forall scalar t → (length (utf8 t) ≤ fuel)%nat → utf8_go fuel (utf8 t) = t.
Proof.
  intros Ht. revert fuel. induction Ht as [|c t Hc _ IH]; intros fuel Hl; [by destruct fuel|].
  unfold utf8 in *. rewrite bind_cons in *.
  destruct (utf8_step_char c (t ≫= utf8_char) Hc) as (b & bs & E & Hs). rewrite E in *.
  rewrite length_app in Hl. simpl in Hl. destruct fuel as [|fuel]; [lia|].
  cbn [app utf8_go]. rewrite Hs. f_equal.
  replace (S (length bs) - 1)%nat with (length bs) by lia.
  rewrite drop_app_length. apply IH. lia.
Qed.

(** Decoding what was encoded. *)
Lemma from_utf8_utf8 t : Forall scalar t → from_utf8_lossy (utf8 t) = t.
Proof. intros Ht. by apply utf8_go_app. Qed.
