(* ===== verification/Net.v ===== *)
(** * Network addresses

    The addresses of Rust's [std::net] the sources read and write: the readers
    behind [FromStr] for [IpAddr] and [SocketAddr], each taking a prefix of its
    input, and [Display] for [IpAddr].  What is printed is read back as the same
    address. *)

From Stdlib Require Import ZifyBool.
From S2P Require Import Prelude Text.

(** ** Addresses *)

(** Four octets; eight groups of sixteen bits. *)
Inductive IpAddr := V4 (octets : list Z) | V6 (segments : list Z).

Record SocketAddr := mkSocketAddr { sa_ip : IpAddr; sa_port : Z; sa_scope : Z }.

#[export] Instance IpAddr_eq_dec : EqDecision IpAddr.
Proof. solve_decision. Defined.

Definition U16_MAX : Z := 65535.
Definition U32_MAX : Z := 4294967295.

Definition ip_wf (a : IpAddr) : Prop :=
  match a with
  | V4 o => length o = 4%nat ∧ Forall (λ x, 0 ≤ x ≤ 255) o
  | V6 g => length g = 8%nat ∧ Forall (λ x, 0 ≤ x ≤ U16_MAX) g
  end.

(** [IpAddr::is_loopback], [Ipv4Addr::is_link_local]. *)
Definition is_loopback (a : IpAddr) : bool :=
  match a with
  | V4 o => bool_decide (head o = Some 127)
  | V6 g => bool_decide (g = [0; 0; 0; 0; 0; 0; 0; 1])
  end.

Definition v4_link_local (o : list Z) : bool := bool_decide (take 2 o = [169; 254]).

(** ** Reading *)

(** A reader gives what it read and the rest, or reads nothing. *)
Definition Reader (A : Type) : Type := text → option (A * text).

Definition read_char (c : N) : Reader unit := λ s,
  match s with x :: s => if decide (x = c) then Some (tt, s) else None | [] => None end.

(** [read_separator]: the separator stands before every element but the first. *)
Definition read_separator {A} (sep : N) (index : nat) (inner : Reader A) : Reader A := λ s,
  match index with
  | O => inner s
  | S _ => '(_, s) ← read_char sep s; inner s
  end.

(** [char::to_digit]. *)
Definition to_digit (radix : Z) (c : N) : option Z :=
  let d := if ((48 <=? c) && (c <=? 57))%N then Z.of_N c - 48
           else if ((97 <=? c) && (c <=? 122))%N then Z.of_N c - 87
           else if ((65 <=? c) && (c <=? 90))%N then Z.of_N c - 55
           else radix in
  if d <? radix then Some d else None.

Fixpoint read_digits (radix : Z) (s : text) : list Z * text :=
  match s with
  | c :: s' =>
      match to_digit radix c with
      | Some d => let '(ds, rest) := read_digits radix s' in (d :: ds, rest)
      | None => ([], s)
      end
  | [] => ([], [])
  end.

Definition digits_num (radix : Z) (ds : list Z) : Z := foldl (λ acc d, acc * radix + d) 0 ds.

(** [read_number]: all the digits there are; too many, a zero before others
    where that is not allowed, or a value past the type's is no number. *)
Definition read_number (radix : Z) (max_digits : option nat) (allow_zero_prefix : bool) (hi : Z) : Reader Z := λ s,
  let '(ds, rest) := read_digits radix s in
  if decide (ds = []) then None
  else if match max_digits with Some m => (m <? length ds)%nat | None => false end then None
  else if negb allow_zero_prefix && bool_decide (head ds = Some 0) && (1 <? length ds)%nat then None
  else if hi <? digits_num radix ds then None
  else Some (digits_num radix ds, rest).

Definition read_octet : Reader Z := read_number 10 (Some 3%nat) false 255.
Definition read_group : Reader Z := read_number 16 (Some 4%nat) true U16_MAX.

Fixpoint read_octets (i n : nat) (s : text) : option (list Z * text) :=
  match n with
  | O => Some ([], s)
  | S n =>
      '(o, s) ← read_separator (ch ".") i read_octet s;
      '(l, s) ← read_octets (S i) n s;
      Some (o :: l, s)
  end.

Definition read_ipv4 : Reader (list Z) := read_octets 0 4.

(** [read_groups]: groups up to the limit, the last two possibly written as an
    IPv4 address; whether they were. *)
Fixpoint read_groups (i limit : nat) (s : text) : list Z * bool * text :=
  match limit with
  | O => ([], false, s)
  | S limit =>
      match (match limit with O => None | S _ => read_separator (ch ":") i read_ipv4 s end) with
      | Some ([a; b; c; d], s) => ([a * 256 + b; c * 256 + d], true, s)
      | _ =>
          match read_separator (ch ":") i read_group s with
          | Some (g, s) => let '(gs, v4, s) := read_groups (S i) limit s in (g :: gs, v4, s)
          | None => ([], false, s)
          end
      end
  end.

(** The groups before [::], those after it and zeros between, at least one. *)
Definition read_ipv6 : Reader (list Z) := λ s,
  let '(front, v4, s) := read_groups 0 8 s in
  if decide (length front = 8%nat) then Some (front, s)
  else if v4 : bool then None
  else
    '(_, s) ← read_char (ch ":") s;
    '(_, s) ← read_char (ch ":") s;
    let '(back, _, s) := read_groups 0 (8 - (length front + 1)) s in
    Some (front ++ replicate (8 - length front - length back) 0 ++ back, s).

Definition read_ip_addr : Reader IpAddr := λ s,
  match read_ipv4 s with
  | Some (o, s) => Some (V4 o, s)
  | None => '(g, s) ← read_ipv6 s; Some (V6 g, s)
  end.

Definition read_port : Reader Z := λ s,
  '(_, s) ← read_char (ch ":") s; read_number 10 None true U16_MAX s.

Definition read_scope_id : Reader Z := λ s,
  '(_, s) ← read_char (ch "%") s; read_number 10 None true U32_MAX s.

Definition read_socket_addr_v4 : Reader SocketAddr := λ s,
  '(o, s) ← read_ipv4 s; '(p, s) ← read_port s; Some (mkSocketAddr (V4 o) p 0, s).

Definition read_socket_addr_v6 : Reader SocketAddr := λ s,
  '(_, s) ← read_char (ch "[") s;
  '(g, s) ← read_ipv6 s;
  let '(scope, s) := default (0, s) (read_scope_id s) in
  '(_, s) ← read_char (ch "]") s;
  '(p, s) ← read_port s;
  Some (mkSocketAddr (V6 g) p scope, s).

Definition read_socket_addr : Reader SocketAddr := λ s,
  match read_socket_addr_v4 s with Some r => Some r | None => read_socket_addr_v6 s end.

(** [parse_with]: nothing may be left. *)
Definition parse_with {A} (r : Reader A) (s : text) : option A :=
  match r s with Some (a, []) => Some a | _ => None end.

Definition parse_ip_addr : text → option IpAddr := parse_with read_ip_addr.
Definition parse_socket_addr : text → option SocketAddr := parse_with read_socket_addr.

(** Whether a text is the address of a socket. *)
Definition socket_addr (s : text) : bool := bool_decide (is_Some (parse_socket_addr s)).

(** ** Writing *)

Definition fmt_hex (z : Z) : text := hex_digits 16 z [].

Definition fmt_ipv4 (o : list Z) : text := join [ch "."] (fmt_dec <$> o).

(** The first of the longest runs of zeros: where it starts, its length. *)
Fixpoint zero_run (i : nat) (cur longest : nat * nat) (segments : list Z) : nat * nat :=
  match segments with
  | [] => longest
  | s :: segments =>
      if s =? 0 then
        let cur := (if (cur.2 =? 0)%nat then i else cur.1, S cur.2) in
        zero_run (S i) cur (if (longest.2 <? cur.2)%nat then cur else longest) segments
      else zero_run (S i) (0, 0)%nat longest segments
  end.

Definition fmt_groups (g : list Z) : text := join [ch ":"] (fmt_hex <$> g).

(** [to_ipv4_mapped]. *)
Definition mapped_ipv4 (g : list Z) : option (list Z) :=
  match drop 6 g with
  | [ab; cd] =>
      if decide (take 6 g = [0; 0; 0; 0; 0; U16_MAX])
      then Some [ab / 256; ab mod 256; cd / 256; cd mod 256] else None
  | _ => None
  end.

Definition fmt_ipv6 (g : list Z) : text :=
  match mapped_ipv4 g with
  | Some o => $"::ffff:" ++ fmt_ipv4 o
  | None =>
      let '(start, len) := zero_run 0 (0, 0)%nat (0, 0)%nat g in
      if (1 <? len)%nat then fmt_groups (take start g) ++ $"::" ++ fmt_groups (drop (start + len) g)
      else fmt_groups g
  end.

Definition fmt_ip (a : IpAddr) : text := match a with V4 o => fmt_ipv4 o | V6 g => fmt_ipv6 g end.

Example net_samples :
  parse_socket_addr $"10.100.0.2:6443" = Some (mkSocketAddr (V4 [10; 100; 0; 2]) 6443 0)
  ∧ parse_socket_addr $"[fe80::1%3]:80" = Some (mkSocketAddr (V6 [65152; 0; 0; 0; 0; 0; 0; 1]) 80 3)
  ∧ parse_ip_addr $"::ffff:1.2.3.4" = Some (V6 [0; 0; 0; 0; 0; 65535; 258; 772])
  ∧ parse_ip_addr $"2606:4700:4700::1111" = Some (V6 [9734; 18176; 18176; 0; 0; 0; 0; 4369])
  ∧ fmt_ip (V6 [9734; 18176; 18176; 0; 0; 0; 0; 4369]) = $"2606:4700:4700::1111"
  ∧ fmt_ip (V6 [0; 0; 0; 0; 0; 65535; 258; 772]) = $"::ffff:1.2.3.4"
  ∧ fmt_ip (V6 [1; 0; 0; 2; 0; 0; 0; 3]) = $"1:0:0:2::3"
  ∧ parse_ip_addr $"10.100.0.302" = None ∧ parse_ip_addr $"10.0.0.01" = None
  ∧ parse_ip_addr $"1::2::3" = None ∧ parse_socket_addr $"10.0.0.2:65536" = None
  ∧ parse_socket_addr $"localhost:6443" = None.
Proof. by vm_compute. Qed.

(** ** Numbers *)

(** The rest of the input does not go on with a digit. *)
Definition stops (radix : Z) (rest : text) : Prop :=
  match rest with c :: _ => to_digit radix c = None | [] => True end.

Lemma read_digits_app radix s rest ds :
  read_digits radix s = (ds, []) → stops radix rest → read_digits radix (s ++ rest) = (ds, rest).
Proof.
  revert ds. induction s as [|c s IH]; intros ds; simpl.
  - intros [= <-] Hrest. destruct rest as [|c rest]; [done|]. simpl. by rewrite Hrest.
  - destruct (to_digit radix c) as [d|]; [|done].
    destruct (read_digits radix s) as [ds' r]. intros [= <- ->] Hrest. by rewrite (IH ds').
Qed.

Lemma read_number_app radix m z hi s v rest :
  read_number radix m z hi s = Some (v, []) → stops radix rest →
  read_number radix m z hi (s ++ rest) = Some (v, rest).
Proof.
  unfold read_number. destruct (read_digits radix s) as [ds r] eqn:E. intros H Hrest.
  rewrite (read_digits_app radix s rest ds); [|by repeat case_match; simplify_eq|done].
  by repeat case_match; simplify_eq.
Qed.

Lemma read_octet_fmt v : 0 ≤ v ≤ 255 → read_octet (fmt_dec v) = Some (v, []).
Proof.
  intros Hv. assert (forallb (λ v, bool_decide (read_octet (fmt_dec v) = Some (v, []))) (seqZ 0 256) = true)
    as H by by vm_compute.
  rewrite forallb_forall in H. apply (bool_decide_unpack _). rewrite H; [done|].
  apply list_elem_of_In, elem_of_seqZ. lia.
Qed.

Lemma to_digit_dec c d : digit c = Some d → to_digit 10 c = Some d.
Proof. unfold digit, to_digit. case_match eqn:E; [|done]. intros [= <-]. by case_match; zbool; [|lia]. Qed.

Lemma read_digits_dec s acc v : digits_value acc s = Some v →
  ∃ ds, read_digits 10 s = (ds, []) ∧ length ds = length s ∧ foldl (λ acc d, acc * 10 + d) acc ds = v.
Proof.
  revert acc. induction s as [|c s IH]; intros acc; simpl; [intros [= ->]; by exists []|].
  destruct (digit c) as [d|] eqn:E; [|done]. intros (ds & -> & <- & <-)%IH.
  rewrite (to_digit_dec _ _ E). by exists (d :: ds).
Qed.

Lemma read_port_fmt v : 0 ≤ v ≤ U16_MAX → read_number 10 None true U16_MAX (fmt_dec v) = Some (v, []).
Proof.
  intros Hv. unfold fmt_dec. destruct (v <? 0) eqn:E; zbool; [lia|].
  destruct (read_digits_dec _ _ _ (fmt_unsigned_value v ltac:(lia))) as (ds & E1 & E2 & E3).
  unfold read_number. rewrite E1. fold (digits_num 10 ds) in E3. rewrite E3.
  destruct (fmt_unsigned_head v) as (c & s & Ec & _). rewrite Ec in E2.
  rewrite decide_False by by intros ->. simpl. by destruct (U16_MAX <? v) eqn:?; zbool; [lia|].
Qed.

Lemma to_digit_hex d : 0 ≤ d < 16 → to_digit 16 (hex_digit d) = Some d.
Proof.
  intros Hd. assert (forallb (λ d, bool_decide (to_digit 16 (hex_digit d) = Some d)) (seqZ 0 16) = true)
    as H by by vm_compute.
  rewrite forallb_forall in H. apply (bool_decide_unpack _). rewrite H; [done|].
  apply list_elem_of_In, elem_of_seqZ. lia.
Qed.

Lemma read_digits_hex fuel : ∀ n z acc ds, 0 ≤ z < 16 ^ Z.of_nat (S n) → (n < fuel)%nat →
  read_digits 16 acc = (ds, []) →
  ∃ hs, read_digits 16 (hex_digits fuel z acc) = (hs ++ ds, []) ∧ digits_num 16 hs = z
        ∧ (0 < length hs ≤ S n)%nat.
Proof.
  induction fuel as [|fuel IH]; intros n z acc ds Hz Hn Hacc; [lia|]. simpl.
  assert (0 ≤ z mod 16 < 16) as Hm by (apply Z.mod_pos_bound; lia).
  assert (read_digits 16 (hex_digit (z mod 16) :: acc) = (z mod 16 :: ds, [])) as Hacc'.
  { simpl. by rewrite to_digit_hex, Hacc by done. }
  destruct (z / 16 =? 0) eqn:E; zbool.
  - exists [z mod 16]. split; [done|]. split; [|simpl; lia].
    change (0 * 16 + z mod 16 = z). pose proof (Z.div_mod z 16). lia.
  - destruct n as [|n]; [exfalso; apply E, Z.div_small; lia|].
    rewrite (Nat2Z.inj_succ (S n)), Z.pow_succ_r in Hz by lia.
    assert (0 ≤ z / 16 < 16 ^ Z.of_nat (S n)) as Hz'
      by (split; [apply Z.div_pos; lia|apply Z.div_lt_upper_bound; lia]).
    destruct (IH n (z / 16) _ _ Hz' ltac:(lia) Hacc') as (hs & -> & E2 & E3).
    exists (hs ++ [z mod 16]). rewrite <- app_assoc. split; [done|].
    rewrite length_app. simpl. split; [|lia]. unfold digits_num in *. rewrite foldl_snoc, E2.
    pose proof (Z.div_mod z 16). lia.
Qed.

Lemma read_group_fmt v : 0 ≤ v ≤ U16_MAX → read_group (fmt_hex v) = Some (v, []).
Proof.
  intros Hv. destruct (read_digits_hex 16 3 v [] [] ltac:(unfold U16_MAX in *; simpl; lia) ltac:(lia) eq_refl)
    as (hs & E & En & El).
  unfold read_group, read_number, fmt_hex. rewrite E, app_nil_r, En.
  rewrite decide_False by (intros ->; simpl in El; lia).
  destruct (4 <? length hs)%nat eqn:?; [lia|]. simpl. by destruct (U16_MAX <? v) eqn:?; zbool; [lia|].
Qed.

(** A group is one to four hexadecimal digits. *)
Lemma fmt_hex_digits v : 0 ≤ v ≤ U16_MAX → ∃ ds, read_digits 16 (fmt_hex v) = (ds, []).
Proof.
  intros Hv. destruct (read_digits_hex 16 3 v [] [] ltac:(unfold U16_MAX in *; simpl; lia) ltac:(lia) eq_refl)
    as (hs & E & _). eauto.
Qed.

(** ** IPv4 *)

Lemma read_separator_first {A} sep (r : Reader A) s : read_separator sep 0 r s = r s.
Proof. done. Qed.

Lemma read_separator_more {A} sep i (r : Reader A) s : read_separator sep (S i) r (sep :: s) = r s.
Proof. unfold read_separator, read_char. by rewrite decide_True. Qed.

Lemma read_ipv4_fmt o rest : length o = 4%nat → Forall (λ x, 0 ≤ x ≤ 255) o → stops 10 rest →
  read_ipv4 (fmt_ipv4 o ++ rest) = Some (o, rest).
Proof.
  intros Hl Ho Hrest. destruct o as [|a [|b [|c [|d [|]]]]]; try done.
  rewrite !Forall_cons in Ho. destruct Ho as (Ha & Hb & Hc & Hd & _).
  unfold read_ipv4, fmt_ipv4. cbn [fmap list_fmap join]. rewrite <- !app_assoc.
  cbn [app].
  assert (∀ v s, 0 ≤ v ≤ 255 → stops 10 s → read_octet (fmt_dec v ++ s) = Some (v, s)) as Hoct
    by (intros v s Hv Hs; by apply read_number_app; [apply read_octet_fmt|]).
  assert (∀ s, stops 10 (ch "." :: s)) as Hdot by done.
  cbn [read_octets]. rewrite read_separator_first, (Hoct a) by done. cbn [mbind option_bind].
  rewrite (read_separator_more (ch ".") 0), (Hoct b) by done. cbn [mbind option_bind].
  rewrite (read_separator_more (ch ".") 1), (Hoct c) by done. cbn [mbind option_bind].
  by rewrite (read_separator_more (ch ".") 2), (Hoct d) by done.
Qed.

(** ** Groups *)

(** What may stand after a group: the end, or a colon. *)
Definition fence (rest : text) : Prop := match rest with c :: _ => c = ch ":" | [] => True end.

Lemma fence_stops radix rest : 0 ≤ radix ≤ 16 → fence rest → stops radix rest.
Proof.
  intros Hr. destruct rest as [|c rest]; [done|]. intros ->. unfold stops, to_digit. simpl.
  by rewrite Z.ltb_irrefl.
Qed.

Lemma digit_16_10 c d : to_digit 10 c = Some d → to_digit 16 c = Some d.
Proof. unfold to_digit. repeat case_match; intros [= <-]; try done; zbool; lia. Qed.

(** After the decimal digits of a text of hexadecimal ones there is no dot. *)
Lemma no_dot s rest ds : read_digits 16 s = (ds, []) → fence rest →
  read_char (ch ".") (read_digits 10 (s ++ rest)).2 = None.
Proof.
  revert ds. induction s as [|c s IH]; intros ds; simpl.
  - intros _ Hf. destruct rest as [|c rest]; [done|]. simpl in Hf. by subst c.
  - destruct (to_digit 16 c) as [d|] eqn:Ed; [|done].
    destruct (read_digits 16 s) as [ds' r]. intros [= <- ->] Hf.
    destruct (to_digit 10 c) as [d'|] eqn:Ed'.
    + specialize (IH ds' eq_refl Hf). by destruct (read_digits 10 (s ++ rest)).
    + simpl. rewrite decide_False; [done|]. by intros ->.
Qed.

Lemma not_ipv4 s rest ds : read_digits 16 s = (ds, []) → fence rest → read_ipv4 (s ++ rest) = None.
Proof.
  intros Hs Hf. pose proof (no_dot s rest ds Hs Hf) as Hd.
  unfold read_ipv4. cbn [read_octets read_separator].
  destruct (read_octet (s ++ rest)) as [[o r]|] eqn:E; [|done].
  assert (r = (read_digits 10 (s ++ rest)).2) as ->.
  { unfold read_octet, read_number in E. destruct (read_digits 10 (s ++ rest)) as [x y].
    by repeat case_match; simplify_eq. }
  cbn [mbind option_bind]. by rewrite Hd.
Qed.

(** The groups after the first, each behind its colon. *)
Definition more_groups (g : list Z) : text := concat ((λ x, ch ":" :: fmt_hex x) <$> g).

Lemma fmt_groups_cons x g : fmt_groups (x :: g) = fmt_hex x ++ more_groups g.
Proof.
  unfold fmt_groups, more_groups. revert x. induction g as [|y g IH]; intros x; simpl; [by rewrite app_nil_r|].
  f_equal. f_equal. apply IH.
Qed.

Lemma more_groups_fence g rest : fence rest → fence (more_groups g ++ rest).
Proof. by destruct g. Qed.

(** Where a sequence of groups may end. *)
Definition closes (rest : text) : Prop := rest = [] ∨ ∃ r, rest = ch ":" :: ch ":" :: r.

Lemma closes_fence rest : closes rest → fence rest.
Proof. by intros [->|[r ->]]. Qed.

Lemma closes_no_group i rest : closes rest → read_separator (ch ":") i read_group rest = None.
Proof. intros [->|[r ->]]; by destruct i. Qed.

Lemma closes_no_ipv4 i rest : closes rest → read_separator (ch ":") i read_ipv4 rest = None.
Proof. intros [->|[r ->]]; by destruct i. Qed.

Lemma read_group_more x rest : 0 ≤ x ≤ U16_MAX → fence rest →
  read_ipv4 (fmt_hex x ++ rest) = None ∧ read_group (fmt_hex x ++ rest) = Some (x, rest).
Proof.
  intros Hx Hf. destruct (fmt_hex_digits x Hx) as [ds Hds]. split; [by eapply not_ipv4|].
  apply read_number_app; [by apply read_group_fmt|]. by apply fence_stops.
Qed.

Lemma read_groups_end i limit rest : closes rest → read_groups i limit rest = ([], false, rest).
Proof.
  intros Hc. destruct limit as [|limit]; [done|]. cbn [read_groups].
  rewrite closes_no_group by done. destruct limit; [done|]. by rewrite closes_no_ipv4.
Qed.

Lemma read_groups_more g : ∀ i limit rest, Forall (λ x, 0 ≤ x ≤ U16_MAX) g → (length g ≤ limit)%nat →
  closes rest → read_groups (S i) limit (more_groups g ++ rest) = (g, false, rest).
Proof.
  induction g as [|x g IH]; intros i limit rest Hg Hl Hc; [by apply read_groups_end|].
  apply Forall_cons in Hg as [Hx Hg]. destruct limit as [|limit]; [simpl in Hl; lia|].
  unfold more_groups. cbn [fmap list_fmap concat]. fold (more_groups g).
  rewrite <- !app_assoc. cbn [app read_groups]. rewrite !(read_separator_more (ch ":") i).
  destruct (read_group_more x (more_groups g ++ rest) Hx) as [E1 E2];
    [by apply more_groups_fence, closes_fence|].
  rewrite E1, E2, IH; [by destruct limit|done|simpl in Hl; lia|done].
Qed.

Lemma read_groups_fmt g limit rest : Forall (λ x, 0 ≤ x ≤ U16_MAX) g → (length g ≤ limit)%nat →
  closes rest → read_groups 0 limit (fmt_groups g ++ rest) = (g, false, rest).
Proof.
  intros Hg Hl Hc. destruct g as [|x g]; [by apply read_groups_end|].
  apply Forall_cons in Hg as [Hx Hg]. destruct limit as [|limit]; [simpl in Hl; lia|].
  rewrite fmt_groups_cons, <- app_assoc. cbn [read_groups]. rewrite !read_separator_first.
  destruct (read_group_more x (more_groups g ++ rest) Hx) as [E1 E2];
    [by apply more_groups_fence, closes_fence|].
  rewrite E1, E2, read_groups_more; [by destruct limit|done|simpl in Hl; lia|done].
Qed.

(** ** Runs of zeros *)

Definition zeros_at (g : list Z) (r : nat * nat) : Prop :=
  ∀ k, (r.1 ≤ k < r.1 + r.2)%nat → g !! k = Some 0.

Lemma zero_run_zeros l : ∀ g i cur longest, drop i g = l → zeros_at g cur → zeros_at g longest →
  (cur.2 = 0 ∨ cur.1 + cur.2 = i)%nat → zeros_at g (zero_run i cur longest l).
Proof.
  induction l as [|s l IH]; intros g i cur longest Hd Hc Hl Hi; [done|]. cbn [zero_run].
  assert (g !! i = Some s) as Hs.
  { rewrite <- (Nat.add_0_r i), <- lookup_drop, Hd. done. }
  assert (drop (S i) g = l) as Hd' by (rewrite <- Nat.add_1_r, <- drop_drop, Hd; done).
  destruct (s =? 0) eqn:E; zbool.
  - subst s.
    assert (zeros_at g (if (cur.2 =? 0)%nat then i else cur.1, S cur.2)) as Hc'.
    { intros k Hk. cbn [fst snd] in Hk. destruct (decide (k = i)) as [->|]; [done|]. apply Hc.
      destruct (cur.2 =? 0)%nat eqn:?; lia. }
    apply IH; [done|done|by destruct (longest.2 <? _)%nat|]. right. cbn [fst snd].
    destruct (cur.2 =? 0)%nat eqn:?; lia.
  - apply IH; [done| |done|by left]. intros k Hk. simpl in Hk. lia.
Qed.

Lemma zeros_at_split g start len : zeros_at g (start, len) → (start + len ≤ length g)%nat →
  g = take start g ++ replicate len 0 ++ drop (start + len) g.
Proof.
  intros Hz Hl. rewrite <- (take_drop start g) at 1. f_equal.
  rewrite <- (take_drop len (drop start g)), drop_drop at 1. f_equal.
  apply list_eq. intros k. destruct (decide (k < len)%nat).
  - rewrite lookup_take_lt, lookup_drop, lookup_replicate_2 by done. apply Hz. simpl. lia.
  - rewrite lookup_take_ge by lia. symmetry. apply lookup_replicate_None. lia.
Qed.

Lemma zeros_at_length g start len : zeros_at g (start, len) → (0 < len)%nat → (start + len ≤ length g)%nat.
Proof.
  intros Hz Hl. assert (is_Some (g !! (start + len - 1)%nat)) as H%lookup_lt_is_Some_1; [|lia].
  rewrite Hz; [done|]. simpl. lia.
Qed.

(** ** IPv6 *)

Lemma colons_closes (s : text) : closes ($"::" ++ s).
Proof. right. by exists s. Qed.

Lemma read_ipv6_gap front back : Forall (λ x, 0 ≤ x ≤ U16_MAX) front → Forall (λ x, 0 ≤ x ≤ U16_MAX) back →
  (length front + length back < 8)%nat →
  read_ipv6 (fmt_groups front ++ $"::" ++ fmt_groups back)
  = Some (front ++ replicate (8 - length front - length back) 0 ++ back, []).
Proof.
  intros Hf Hb Hl. unfold read_ipv6.
  rewrite (read_groups_fmt front 8 _ Hf ltac:(lia) (colons_closes _)).
  rewrite decide_False by lia.
  change ($"::" ++ fmt_groups back) with (ch ":" :: ch ":" :: fmt_groups back).
  cbn [read_char]. rewrite decide_True by done. cbn [mbind option_bind read_char].
  rewrite decide_True by done. cbn [mbind option_bind].
  by rewrite <- (app_nil_r (fmt_groups back)), (read_groups_fmt back (8 - (length front + 1)) [] Hb ltac:(lia) (or_introl eq_refl)).
Qed.

Lemma groups_not_ipv4 g rest : Forall (λ x, 0 ≤ x ≤ U16_MAX) g → closes rest →
  read_ipv4 (fmt_groups g ++ rest) = None.
Proof.
  intros Hg Hr. destruct g as [|x g].
  - by apply (closes_no_ipv4 0).
  - apply Forall_cons in Hg as [Hx _]. rewrite fmt_groups_cons, <- app_assoc.
    apply read_group_more; [done|]. by apply more_groups_fence, closes_fence.
Qed.

Lemma mapped_ipv4_Some g o : Forall (λ x, 0 ≤ x ≤ U16_MAX) g → mapped_ipv4 g = Some o →
  ∃ ab cd, g = [0; 0; 0; 0; 0; U16_MAX; ab; cd]
    ∧ o = [ab / 256; ab mod 256; cd / 256; cd mod 256] ∧ Forall (λ x, 0 ≤ x ≤ 255) o.
Proof.
  intros Hg. unfold mapped_ipv4. destruct (drop 6 g) as [|ab [|cd [|]]] eqn:Ed; try done.
  case_decide as Et; [|done]. intros [= <-]. exists ab, cd.
  rewrite <- (take_drop 6 g), Et, Ed in Hg |- *. split; [done|]. split; [done|].
  rewrite !Forall_app, !Forall_cons in Hg. destruct Hg as (_ & Ha & Hc & _). unfold U16_MAX in *.
  assert (∀ x, 0 ≤ x ≤ 65535 → 0 ≤ x / 256 ≤ 255 ∧ 0 ≤ x mod 256 ≤ 255) as Hdiv.
  { intros x Hx. pose proof (Z.mod_pos_bound x 256). pose proof (Z.div_lt_upper_bound x 256 256).
    pose proof (Z.div_pos x 256). lia. }
  apply Hdiv in Ha as [? ?], Hc as [? ?]. do 4 (apply Forall_cons_2; [lia|]). apply Forall_nil_2.
Qed.

Lemma read_ipv6_mapped ab cd o : o = [ab / 256; ab mod 256; cd / 256; cd mod 256] →
  Forall (λ x, 0 ≤ x ≤ 255) o →
  read_ipv6 ($"::ffff:" ++ fmt_ipv4 o) = Some ([0; 0; 0; 0; 0; U16_MAX; ab; cd], []).
Proof.
  intros Ho Hf. pose proof (read_ipv4_fmt o [] ltac:(by rewrite Ho) Hf I) as E.
  rewrite app_nil_r in E. set (t := fmt_ipv4 o) in *.
  assert (∀ n, read_groups 0 (S (S (S n))) ($"ffff:" ++ t) = ([U16_MAX; ab; cd], true, [])) as Eg.
  { intros n. cbn [read_groups]. rewrite !read_separator_first.
    change ($"ffff:" ++ t) with ($"ffff" ++ ch ":" :: t).
    destruct (read_group_more U16_MAX (ch ":" :: t)) as [E1 E2]; [by vm_compute|done|].
    change (fmt_hex U16_MAX) with ($"ffff") in E1, E2. rewrite E1, E2.
    rewrite (read_separator_more (ch ":") 0 read_ipv4), E, Ho.
    by rewrite (Z.mul_comm (ab / 256)), (Z.mul_comm (cd / 256)), <- !Z.div_mod by done. }
  unfold read_ipv6.
  rewrite (read_groups_end 0 8 ($"::ffff:" ++ t)) by (apply (colons_closes ($"ffff:" ++ t))).
  rewrite decide_False by done.
  change ($"::ffff:" ++ t) with (ch ":" :: ch ":" :: $"ffff:" ++ t).
  cbn [read_char]. rewrite decide_True by done. cbn [mbind option_bind read_char].
  rewrite decide_True by done. cbn [mbind option_bind].
  change (8 - (length (@nil Z) + 1))%nat with 7%nat. by rewrite (Eg 4%nat).
Qed.

Lemma read_ipv6_fmt g : length g = 8%nat → Forall (λ x, 0 ≤ x ≤ U16_MAX) g →
  read_ipv4 (fmt_ipv6 g) = None ∧ read_ipv6 (fmt_ipv6 g) = Some (g, []).
Proof.
  intros Hl Hg. unfold fmt_ipv6. destruct (mapped_ipv4 g) as [o|] eqn:Em.
  { destruct (mapped_ipv4_Some g o Hg Em) as (ab & cd & -> & Ho & Hf).
    split; [|by eapply read_ipv6_mapped].
    apply (closes_no_ipv4 0). apply (colons_closes ($"ffff:" ++ fmt_ipv4 o)). }
  destruct (zero_run 0 (0, 0)%nat (0, 0)%nat g) as [start len] eqn:Er.
  assert (zeros_at g (start, len)) as Hz.
  { rewrite <- Er. apply zero_run_zeros; [done| | |by left]; intros k Hk; simpl in Hk; lia. }
  destruct (1 <? len)%nat eqn:E; zbool.
  - assert (1 < len)%nat as Hlen by lia.
    pose proof (zeros_at_length g start len Hz ltac:(lia)) as Hsl.
    split; [apply groups_not_ipv4; [by apply Forall_take|apply colons_closes]|].
    rewrite read_ipv6_gap;
      [|by apply Forall_take|by apply Forall_drop|rewrite length_take, length_drop; lia].
    rewrite length_take, length_drop.
    replace (8 - start `min` length g - (length g - (start + len)))%nat with len by lia.
    by rewrite <- zeros_at_split.
  - rewrite <- (app_nil_r (fmt_groups g)). split; [by apply groups_not_ipv4; [|left]|].
    unfold read_ipv6. rewrite (read_groups_fmt g 8 [] Hg ltac:(lia) (or_introl eq_refl)).
    by rewrite decide_True.
Qed.

(** ** Round trips *)

Lemma fmt_ip_parse a : ip_wf a → parse_ip_addr (fmt_ip a) = Some a.
Proof.
  destruct a as [o|g]; intros [Hl Hf]; unfold parse_ip_addr, parse_with, read_ip_addr; cbn [fmt_ip].
  - rewrite <- (app_nil_r (fmt_ipv4 o)). by rewrite read_ipv4_fmt.
  - destruct (read_ipv6_fmt g Hl Hf) as [-> ->]. done.
Qed.

Lemma fmt_ip_inj a b : ip_wf a → ip_wf b → fmt_ip a = fmt_ip b → a = b.
Proof. intros Ha Hb E. apply (f_equal parse_ip_addr) in E. rewrite !fmt_ip_parse in E by done. by simplify_eq. Qed.

Lemma socket_addr_parse o port : ip_wf (V4 o) → 0 ≤ port ≤ U16_MAX →
  parse_socket_addr (fmt_ip (V4 o) ++ ch ":" :: fmt_dec port) = Some (mkSocketAddr (V4 o) port 0).
Proof.
  intros [Hl Hf] Hp. unfold parse_socket_addr, parse_with, read_socket_addr, read_socket_addr_v4. cbn [fmt_ip].
  rewrite read_ipv4_fmt by done. cbn [mbind option_bind]. unfold read_port, read_char.
  rewrite decide_True by done. cbn [mbind option_bind].
  by rewrite read_port_fmt.
Qed.

(** A number past the octets is not read as one. *)
Lemma read_octet_big v rest : 255 < v → stops 10 rest → read_octet (fmt_dec v ++ rest) = None.
Proof.
  intros Hv Hr. unfold fmt_dec. destruct (v <? 0) eqn:E; zbool; [lia|].
  destruct (read_digits_dec _ _ _ (fmt_unsigned_value v ltac:(lia))) as (ds & E1 & _ & E3).
  unfold read_octet, read_number. rewrite (read_digits_app 10 _ rest ds E1 Hr).
  fold (digits_num 10 ds) in E3. rewrite E3.
  destruct (255 <? v) eqn:?; zbool; [|lia]. by repeat case_match.
Qed.

(** So an address with such a last number, dotted as it is, is none. *)
Lemma dotted_big a b c v rest : Forall (λ x, 0 ≤ x ≤ 255) [a; b; c] → 255 < v → stops 10 rest →
  read_ipv4 (fmt_ipv4 [a; b; c; v] ++ rest) = None.
Proof.
  rewrite !Forall_cons. intros (Ha & Hb & Hc & _) Hv Hrest.
  unfold read_ipv4, fmt_ipv4. cbn [fmap list_fmap join]. rewrite <- !app_assoc. cbn [app].
  assert (∀ v s, 0 ≤ v ≤ 255 → stops 10 s → read_octet (fmt_dec v ++ s) = Some (v, s)) as Hoct
    by (intros x s Hx Hs; by apply read_number_app; [apply read_octet_fmt|]).
  cbn [read_octets]. rewrite read_separator_first, (Hoct a) by done. cbn [mbind option_bind].
  rewrite (read_separator_more (ch ".") 0), (Hoct b) by done. cbn [mbind option_bind].
  rewrite (read_separator_more (ch ".") 1), (Hoct c) by done. cbn [mbind option_bind].
  by rewrite (read_separator_more (ch ".") 2), read_octet_big.
Qed.

Lemma fmt_dec_chars v : 0 ≤ v → Forall is_digit (fmt_dec v).
Proof. intros Hv. unfold fmt_dec. destruct (v <? 0) eqn:E; zbool; [lia|]. apply fmt_unsigned_digits. Qed.

(** No dotted address holds a colon. *)
Lemma fmt_ipv4_no_colon o : Forall (λ x, 0 ≤ x) o → ch ":" ∉ fmt_ipv4 o.
Proof.
  unfold fmt_ipv4. induction 1 as [|x o Hx Ho IH]; [apply not_elem_of_nil|].
  assert (ch ":" ∉ fmt_dec x) as Hd.
  { intros Hin. pose proof (fmt_dec_chars x Hx) as H. rewrite Forall_forall in H.
    specialize (H _ Hin). unfold is_digit in H. vm_compute in H. by destruct H. }
  destruct o as [|y o]; [done|]. cbn [fmap list_fmap] in *. rewrite join_cons by done.
  rewrite !elem_of_app. intros [?|[?|?]]; [done| |done].
  by apply list_elem_of_singleton in H.
Qed.

Lemma socket_addr_v4 o port : length o = 4%nat → Forall (λ x, 0 ≤ x ≤ 255) o → 0 ≤ port ≤ U16_MAX →
  socket_addr (fmt_ipv4 o ++ ch ":" :: fmt_dec port) = true.
Proof.
  intros Hl Ho Hp. unfold socket_addr. apply bool_decide_eq_true.
  exists (mkSocketAddr (V4 o) port 0). by apply (socket_addr_parse o).
Qed.

Lemma socket_addr_big a b c v rest : Forall (λ x, 0 ≤ x ≤ 255) [a; b; c] → 255 < v → stops 10 rest →
  socket_addr (fmt_ipv4 [a; b; c; v] ++ rest) = false.
Proof.
  intros Ho Hv Hr. unfold socket_addr. apply bool_decide_eq_false. intros [x H].
  unfold parse_socket_addr, parse_with, read_socket_addr, read_socket_addr_v4 in H.
  rewrite dotted_big in H by done. cbn [mbind option_bind] in H.
  assert (read_socket_addr_v6 (fmt_ipv4 [a; b; c; v] ++ rest) = None) as E; [|by rewrite E in H].
  unfold read_socket_addr_v6. apply Forall_cons in Ho as [Ha _].
  pose proof (fmt_dec_chars a ltac:(lia)) as Hd. unfold fmt_ipv4. cbn [fmap list_fmap join].
  destruct (fmt_dec a) as [|d s] eqn:Ea.
  { pose proof (read_octet_fmt a Ha) as Hx. rewrite Ea in Hx. done. }
  cbn [app read_char]. apply Forall_cons in Hd as [Hd _]. rewrite decide_False; [done|].
  intros ->. unfold is_digit in Hd. vm_compute in Hd. by destruct Hd.
Qed.
