(* ===== verification/Tls.v ===== *)
(** * TLS clients ([rust/kubenyx-tls/src/lib.rs])

    The client configurations the probes are built on: the shared verifier that
    accepts any server certificate, and those with roots; and one exchange
    over a connection, as every probe makes it.  PEM, base64, the chain check,
    the signature checks and the sockets belong to libraries: the functions
    are a class, what an exchange met is a record. *)

From S2P Require Import Prelude Text.

(** ** Libraries *)

Class TlsLib := {
  b64_decode : text → result text bytes;
  (** [rustls_pemfile::certs]: each section, or why it does not parse;
      [rustls_pemfile::private_key]. *)
  pem_certs : bytes → list (result text bytes);
  pem_key : bytes → option bytes;
  (** [RootCertStore::add], [with_client_auth_cert]. *)
  root_ok : bytes → result text unit;
  client_auth : list bytes → bytes → result text unit;
  (** Whether a text is a name a certificate can be for
      ([ServerName::try_from]). *)
  server_name : text → bool;
  (** The chain check against roots; the checks of the ring provider that the
      handshake was signed with the certificate's key. *)
  chain_ok : list bytes → list bytes → text → bool;
  tls12_signature : bytes → bytes → bytes → bool;
  tls13_signature : bytes → bytes → bytes → bool;
}.

(** ** Configurations *)

(** Who is believed: anybody, or whoever the roots vouch for. *)
Inductive Verifier := NoVerify | WebPki (roots : list bytes).

(** The client certificate and key are sent when asked for. *)
Record ClientConfig := mkClientConfig { cc_verifier : Verifier; cc_client : option (list bytes * bytes) }.

Definition insecure_client_builder : option (list bytes * bytes) → ClientConfig := mkClientConfig NoVerify.

Section tls.
Context `{L : !TlsLib}.

Definition verify_server_cert (v : Verifier) (chain : list bytes) (name : text) : bool :=
  match v with NoVerify => true | WebPki roots => chain_ok roots chain name end.

(** The same check for both verifiers. *)
Definition verify_signature (tls13 : bool) (message cert dss : bytes) : bool :=
  if tls13 then tls13_signature message cert dss else tls12_signature message cert dss.

(** What the server shows in a handshake. *)
Record Hello := mkHello { h_tls13 : bool; h_chain : list bytes; h_message : bytes; h_dss : bytes }.

(** The handshake succeeds: the chain is accepted for the name, and its first
    certificate signed. *)
Definition handshake_ok (c : ClientConfig) (name : text) (h : Hello) : bool :=
  match h_chain h with
  | [] => false
  | leaf :: _ => verify_server_cert (cc_verifier c) (h_chain h) name
                 && verify_signature (h_tls13 h) (h_message h) leaf (h_dss h)
  end.

(** ** Exchanges *)

(** What one attempt met: the connection, the TLS client made for it, the
    server's side of the handshake, the request written, and what each read
    returned.  The handshake takes place at the first write. *)
Record Wire := mkWire {
  connected : bool; client_made : bool; greeted : Hello; sent : bool; received : list ReadResult }.

Definition exchange_plain (w : Wire) (verdict : list ReadResult → bool) : bool :=
  connected w && sent w && verdict (received w).

(** [no_name] is what becomes of a host that cannot be a server's name. *)
Definition exchange_tls {E} (c : ClientConfig) (host : text) (no_name : result E bool) (w : Wire)
    (verdict : list ReadResult → bool) : result E bool :=
  if negb (connected w) then Ok false
  else if negb (server_name host) then no_name
  else Ok (client_made w && handshake_ok c host (greeted w) && sent w && verdict (received w)).
End tls.

(** The first read, into a buffer of 64 bytes, of an answer to [GET /readyz]:
    only the status 200 counts. *)
Definition status_200 (reads : list ReadResult) : bool :=
  match reads with
  | RData bs :: _ => (12 <=? length bs)%nat && bool_decide (take 3 (drop 9 bs) = $"200")
  | _ => false
  end.

Definition get_request (path host : text) : text :=
  $"GET " ++ path ++ $" HTTP/1.1" ++ crlf ++ $"Host: " ++ host ++ crlf ++ $"Connection: close" ++ crlf ++ crlf.

(** ** Lemmas *)

Section specs.
Context `{L : !TlsLib}.

(** No client accepts a handshake that the certificate's key did not sign. *)
Lemma handshake_signed c name h : handshake_ok c name h = true →
  ∃ leaf rest, h_chain h = leaf :: rest ∧ verify_signature (h_tls13 h) (h_message h) leaf (h_dss h) = true.
Proof.
  unfold handshake_ok. destruct (h_chain h) as [|leaf rest]; [done|]. intros [_ Hs]%andb_true_iff. eauto.
Qed.

(** With roots, the chain was accepted for the name asked for. *)
Lemma handshake_trusted roots client name h : handshake_ok (mkClientConfig (WebPki roots) client) name h = true →
  chain_ok roots (h_chain h) name = true.
Proof. unfold handshake_ok. destruct (h_chain h); [done|]. by intros [Hc _]%andb_true_iff. Qed.

Lemma exchange_tls_yes {E} c host (no_name : result E bool) w verdict : no_name ≠ Ok true →
  exchange_tls c host no_name w verdict = Ok true ↔
    connected w = true ∧ server_name host = true ∧ client_made w = true
    ∧ handshake_ok c host (greeted w) = true ∧ sent w = true ∧ verdict (received w) = true.
Proof.
  intros Hn. unfold exchange_tls.
  destruct (connected w), (server_name host), (client_made w), (handshake_ok _ _ _), (sent w), (verdict _); cbn [negb];
    (split; [intros H; first [done | injection H as ?; done] | intros (? & ? & ? & ? & ? & ?); done]).
Qed.
End specs.

(** A 2xx other than 200 does not count. *)
Example only_200 :
  status_200 [RData $"HTTP/1.1 204 No Content"] = false ∧ status_200 [RData $"HTTP/1.1 200 OK"] = true.
Proof. by vm_compute. Qed.
