(* ===== verification/Paths.v ===== *)
(** * Paths

    The part of Rust's [std::path] the sources use, on [text]: joining, the parent, and the
    components by which paths are compared. *)

From S2P Require Import Prelude Text.

(** ** Definitions *)

(** [Path::components], as [Path]'s equality compares them: the root, then
    the names, without empty ones and without [.] but a leading one. *)
Definition is_absolute (p : text) : bool := starts_with [ch "/"] p.

Definition path_components (p : text) : bool * list text :=
  let names := filter (λ c, c ≠ []) (split (ch "/") p) in
  (is_absolute p,
   match names with
   | first :: rest =>
       (if negb (is_absolute p) && bool_decide (first = $".") then [first]
        else if decide (first = $".") then [] else [first])
       ++ filter (λ c, c ≠ $".") rest
   | [] => []
   end).

Definition path_eq (a b : text) : bool := bool_decide (path_components a = path_components b).

(** [dir.join(name)]: an absolute name replaces the directory. *)
Definition path_join (dir name : text) : text :=
  if is_absolute name then name
  else match last dir with
       | None => name
       | Some c => if decide (c = ch "/") then dir ++ name else dir ++ ch "/" :: name
       end.

(** [Path::parent].  What stands before the body of a path: its root, or a
    leading [.]; the body's last piece; the body without the empty and [.]
    pieces at its end. *)
Definition path_body (p : text) : text * text :=
  if is_absolute p then (take 1 p, drop 1 p)
  else if bool_decide (p = $".") || starts_with $"./" p then (take 1 p, drop 1 p)
  else ([], p).

Definition last_piece (body : text) : text * text := default ([], body) (rsplit_once (ch "/") body).

Fixpoint trim_body (fuel : nat) (body : text) : text :=
  match fuel, body with
  | S fuel, _ :: _ =>
      let '(rest, piece) := last_piece body in
      if decide (piece = [] ∨ piece = $".") then trim_body fuel rest else body
  | _, _ => body
  end.

(** No parent: the root, and the empty path. *)
Definition path_parent (p : text) : option text :=
  let '(start, body) := path_body p in
  match trim_body (length body) body with
  | [] => if decide (start = $".") then Some [] else None
  | body => let rest := (last_piece body).1 in Some (start ++ trim_body (length rest) rest)
  end.

Example parents :
  path_parent $"/var/run/x.sock" = Some $"/var/run" ∧ path_parent $"/x" = Some $"/" ∧ path_parent $"/" = None
  ∧ path_parent $"x.sock" = Some [] ∧ path_parent [] = None ∧ path_parent $"a//b/./" = Some $"a"
  ∧ path_parent $"./a" = Some $"." ∧ path_parent $"." = Some [] ∧ path_parent $"/./" = None
  ∧ path_parent $"a/.." = Some $"a".
Proof. by vm_compute. Qed.

(** A plain name: one component of a path. *)
Definition plain_name (n : text) : Prop := n ≠ [] ∧ n ≠ $"." ∧ ch "/" ∉ n.
Definition names_of (p : text) : list text := filter (λ c, c ≠ []) (split (ch "/") p).

(** ** Lemmas *)

Lemma split_app_cut c a b : split c (a ++ c :: b) = split c a ++ split c b.
Proof.
  induction a as [|x a IH]; simpl; [by rewrite decide_True|].
  case_decide; [by rewrite IH|]. rewrite IH.
  destruct (split c a) as [|w ws] eqn:E; [by destruct (split_not_nil c a)|done].
Qed.

Lemma names_of_plain n : plain_name n → names_of n = [n].
Proof.
  intros (Hn & _ & Hs). unfold names_of. rewrite split_no_sep by done.
  by rewrite filter_cons_True.
Qed.

Lemma plain_relative n : plain_name n → is_absolute n = false.
Proof.
  intros (Hn & _ & Hs). unfold is_absolute, starts_with. apply bool_decide_false.
  intros [r H%strip_prefix_Some]. subst. set_solver.
Qed.

Lemma names_of_join dir n : plain_name n → names_of (path_join dir n) = names_of dir ++ [n].
Proof.
  intros Hn. pose proof (names_of_plain n Hn) as E. unfold path_join.
  rewrite plain_relative by done.
  destruct dir as [|c dir _] using rev_ind; [done|].
  rewrite last_snoc. unfold names_of in *. case_decide as Ec.
  - subst. rewrite <- app_assoc. change ([ch "/"] ++ n) with (ch "/" :: n).
    rewrite !split_app_cut, !filter_app, E.
    change (filter (λ c, c ≠ []) (split (ch "/") [])) with (@nil text). by rewrite app_nil_r.
  - by rewrite split_app_cut, filter_app, E.
Qed.

Lemma is_absolute_join dir n : plain_name n → is_absolute (path_join dir n) = is_absolute dir.
Proof.
  intros Hn. unfold path_join. rewrite (plain_relative n) by done.
  destruct dir as [|c dir]; [by rewrite plain_relative|].
  destruct (last (c :: dir)) eqn:E; [|by apply last_None in E].
  unfold is_absolute, starts_with. by case_decide; simpl; case_decide.
Qed.

Lemma path_components_join dir n : plain_name n →
  path_components (path_join dir n)
  = (is_absolute dir, (path_components dir).2 ++ [n]).
Proof.
  intros Hn. unfold path_components. fold (names_of (path_join dir n)). fold (names_of dir).
  rewrite is_absolute_join, names_of_join by done. f_equal. destruct Hn as (_ & Hd & _).
  destruct (names_of dir) as [|x l]; simpl.
  - by rewrite (bool_decide_false (n = _)), andb_false_r, decide_False.
  - by rewrite <- app_assoc, filter_app, filter_cons_True.
Qed.

