(* ===== verification/Notify.v ===== *)
(** * The readiness datagram

    Where kubenyx-lb and kubenyx-ready ([rust/kubenyx-lb/src/lib.rs],
    [rust/kubenyx-ready/src/lib.rs], the same function twice) send READY=1:
    the address in [NOTIFY_SOCKET], abstract or a path, if it fits a socket
    address. *)

From S2P Require Import Prelude Text.

(** An abstract name after [@], else a path. *)
Inductive NotifyAddr := Abstract (name : text) | SocketPath (path : text).

(** The bytes of a [sun_path], of which one is the leading or the final NUL. *)
Definition SUN_PATH : nat := 108.

Definition notify_addr (notify_socket : option text) : option NotifyAddr :=
  sock_path ← notify_socket;
  match strip_prefix [ch "@"] sock_path with
  | Some abst => if (S (length abst) <=? SUN_PATH)%nat then Some (Abstract abst) else None
  | None => if (length sock_path <? SUN_PATH)%nat then Some (SocketPath sock_path) else None
  end.

(** [sd_notify_ready]: the datagram sent, when a socket can be had to send it
    from. *)
Definition sd_notify_ready (notify_socket : option text) (unbound : bool) : option NotifyAddr :=
  if unbound then notify_addr notify_socket else None.

(** Nothing is sent to an address that does not fit, whatever follows [@]. *)
Lemma sd_notify_fits notify_socket unbound a :
  sd_notify_ready notify_socket unbound = Some a →
  unbound = true ∧ ∃ s, notify_socket = Some s ∧ (length s ≤ SUN_PATH)%nat
    ∧ s = match a with Abstract n => ch "@" :: n | SocketPath p => p end.
Proof.
  unfold sd_notify_ready, notify_addr. destruct unbound; [|done]. destruct notify_socket as [s|]; [|done].
  cbn [mbind option_bind]. intros H. split; [done|]. exists s. split; [done|].
  destruct (strip_prefix [ch "@"] s) as [b|] eqn:E.
  - apply strip_prefix_Some in E as ->. destruct (Nat.leb_spec (S (length b)) SUN_PATH); [|done].
    by injection H as <-.
  - destruct (Nat.ltb_spec (length s) SUN_PATH); [|done]. injection H as <-. split; [lia|done].
Qed.
