(* ===== verification/Rpc.v ===== *)
(** * The gRPC handlers ([rust/etcd-mem/src/svc.rs])

    Every unary RPC of the KV, Lease, Cluster and Maintenance services, and
    one message of the LeaseKeepAlive stream, as a computation over the store
    that ends in a reply, in a gRPC status, or in a panic of the handler's
    task.  Each handler runs under the store's mutex from its first access to
    its last, so one handler is one step of the server; [now] is what
    [Instant::now()] returns during it. *)

From S2P Require Import Prelude BTree Proto Store StoreInv StoreSpec Text.

(** ** Replies *)

Record LeaseReply := mkLeaseReply { lr_header : option ResponseHeader; lr_id : Z; lr_ttl : Z }.

Record LeaseTimeToLiveResponse := {
  ltl_header : option ResponseHeader; ltl_id : Z; ltl_ttl : Z; ltl_granted_ttl : Z;
  ltl_keys : list bytes }.

Record Member := {
  m_id : Z; m_name : text; m_peer_urls : list text; m_client_urls : list text;
  m_is_learner : bool }.

Record StatusResponse := {
  st_header : option ResponseHeader; st_version : text; st_db_size : Z; st_leader : Z;
  st_raft_index : Z; st_raft_term : Z; st_raft_applied_index : Z; st_errors : list text;
  st_db_size_in_use : Z; st_is_learner : bool }.

(** How a handler ends without a reply. *)
Inductive RpcFail :=
| RpcPanic
| StatusNotFound (message : text).

Definition Rpc (A : Type) : Type := M RpcFail Store A.

Definition of_store {A} (m : St A) : Rpc A := λ s,
  match m s with
  | (Ok a, s') => (Ok a, s')
  | (Err Panic, s') => (Err RpcPanic, s')
  end.

(** ** KV *)

Definition KvSvc_range (r : RangeRequest) : Rpc RangeResponse :=
  let* store := M_gets (λ s, s) in
  let* '(kvs_raw, more, count) := of_store (M_lift (range_kvs store r)) in
  let '(kvs, count) :=
    if rr_count_only r then ([], count)
    else ((λ k, kv_to_proto k (rr_keys_only r)) <$> kvs_raw, count) in
  let* hdr := M_gets header in
  M_ret {| rrs_header := Some hdr; rrs_kvs := kvs; rrs_more := more; rrs_count := count |}.

Definition KvSvc_put (r : PutRequest) : Rpc PutResponse :=
  let* '(hdr, prev) := of_store (put (pr_key r) (pr_value r) (pr_lease r) (pr_prev_kv r)
                                   (pr_ignore_value r) (pr_ignore_lease r)) in
  M_ret {| prs_header := Some hdr; prs_prev_kv := (λ k, kv_to_proto k false) <$> prev |}.

Definition KvSvc_delete_range (r : DeleteRangeRequest) : Rpc DeleteRangeResponse :=
  let* '(hdr, deleted, prev_kvs) :=
    of_store (delete_range (dr_key r) (dr_range_end r) (dr_prev_kv r)) in
  M_ret {| drs_header := Some hdr; drs_deleted := deleted;
           drs_prev_kvs := (λ k, kv_to_proto k false) <$> prev_kvs |}.

(** [TxnResponse { header, succeeded, responses }]. *)
Definition KvSvc_txn (r : TxnRequest) : Rpc (option ResponseHeader * bool * list ResponseOp) :=
  let* '(hdr, ok, responses) := of_store (txn r) in M_ret (Some hdr, ok, responses).

Definition KvSvc_compact (revision : Z) : Rpc (option ResponseHeader) :=
  let* hdr := of_store (compact revision) in M_ret (Some hdr).

(** ** Lease *)

Definition LeaseSvc_lease_grant (now ttl id : Z) : Rpc LeaseReply :=
  let* '(hdr, id, ttl) := of_store (lease_grant now ttl id) in
  M_ret (mkLeaseReply (Some hdr) id ttl).

Definition LeaseSvc_lease_revoke (id : Z) : Rpc (option ResponseHeader) :=
  let* hdr := of_store (lease_revoke id) in M_ret (Some hdr).

(** One message of the LeaseKeepAlive stream. *)
Definition LeaseSvc_keep_alive_one (now id : Z) : Rpc LeaseReply :=
  let* o := of_store (lease_keepalive now id) in
  match o with
  | Some (hdr, id, ttl) => M_ret (mkLeaseReply (Some hdr) id ttl)
  | None => let* hdr := M_gets header in M_ret (mkLeaseReply (Some hdr) id 0)
  end.

(** The stream's task: the messages in order, each with the clock at its
    turn; a panic ends the task. *)
Definition LeaseSvc_lease_keep_alive (msgs : list (Z * Z)) : Rpc (list LeaseReply) :=
  M_mapM (λ '(now, id), LeaseSvc_keep_alive_one now id) msgs.

Definition LeaseSvc_lease_time_to_live (now id : Z) (keys : bool) : Rpc LeaseTimeToLiveResponse :=
  let* store := M_gets (λ s, s) in
  match lease_ttl store now id keys with
  | Some (hdr, id, ttl, keys) =>
      M_ret {| ltl_header := Some hdr; ltl_id := id; ltl_ttl := ttl;
               ltl_granted_ttl := default ttl (le_granted_ttl <$> leases store !! id);
               ltl_keys := keys |}
  | None => M_raise (StatusNotFound ($"lease " ++ fmt_hex_i64 id ++ $" not found"))
  end.

Definition LeaseSvc_lease_leases : Rpc (option ResponseHeader * list Z) :=
  let* ids := M_gets lease_list in
  let* hdr := M_gets header in
  M_ret (Some hdr, ids).

(** ** Cluster and Maintenance *)

Definition ClusterSvc_member_list : Rpc (option ResponseHeader * list Member) :=
  let* hdr := M_gets header in
  M_ret (Some hdr, [{| m_id := MEMBER_ID; m_name := $"etcd-mem"; m_peer_urls := [];
                       m_client_urls := []; m_is_learner := false |}]).

Definition MaintenanceSvc_defragment : Rpc (option ResponseHeader) :=
  let* hdr := M_gets header in M_ret (Some hdr).

(** [store.revision as u64]. *)
Definition MaintenanceSvc_status : Rpc StatusResponse :=
  let* store := M_gets (λ s, s) in
  M_ret {| st_header := Some (header store); st_version := $"etcd-mem/0.1.0"; st_db_size := 0;
           st_leader := MEMBER_ID; st_raft_index := wrap_u64 (revision store); st_raft_term := 1;
           st_raft_applied_index := wrap_u64 (revision store); st_errors := [];
           st_db_size_in_use := 0; st_is_learner := false |}.

Definition MaintenanceSvc_hash : Rpc (option ResponseHeader * Z) :=
  let* hdr := M_gets header in M_ret (Some hdr, 0).

Definition MaintenanceSvc_hash_kv : Rpc (option ResponseHeader * Z * Z) :=
  let* store := M_gets (λ s, s) in M_ret (Some (header store), 0, compact_revision store).

(** ** The server *)

Inductive Call :=
| CRange (r : RangeRequest) | CPut (r : PutRequest) | CDeleteRange (r : DeleteRangeRequest)
| CTxn (r : TxnRequest) | CCompact (revision : Z)
| CLeaseGrant (ttl id : Z) | CLeaseRevoke (id : Z) | CKeepAlive (id : Z)
| CTimeToLive (id : Z) (keys : bool) | CLeases
| CMemberList | CDefragment | CStatus | CHash | CHashKv.

Inductive Reply :=
| RRange (r : RangeResponse) | RPut (r : PutResponse) | RDeleteRange (r : DeleteRangeResponse)
| RTxn (header : option ResponseHeader) (succeeded : bool) (responses : list ResponseOp)
| RHeader (header : option ResponseHeader)
| RLease (r : LeaseReply) | RTimeToLive (r : LeaseTimeToLiveResponse)
| RLeases (header : option ResponseHeader) (ids : list Z)
| RMembers (header : option ResponseHeader) (members : list Member)
| RStatus (r : StatusResponse) | RHash (header : option ResponseHeader) (hash compact_revision : Z).

Definition M_map {E S A B} (f : A → B) (m : M E S A) : M E S B := let* a := m in M_ret (f a).

(** The routing tonic's generated servers do: one RPC to its handler. *)
Definition serve_call (now : Z) (c : Call) : Rpc Reply :=
  match c with
  | CRange r => M_map RRange (KvSvc_range r)
  | CPut r => M_map RPut (KvSvc_put r)
  | CDeleteRange r => M_map RDeleteRange (KvSvc_delete_range r)
  | CTxn r => M_map (λ '(h, ok, rs), RTxn h ok rs) (KvSvc_txn r)
  | CCompact rev => M_map RHeader (KvSvc_compact rev)
  | CLeaseGrant ttl id => M_map RLease (LeaseSvc_lease_grant now ttl id)
  | CLeaseRevoke id => M_map RHeader (LeaseSvc_lease_revoke id)
  | CKeepAlive id => M_map RLease (LeaseSvc_keep_alive_one now id)
  | CTimeToLive id keys => M_map RTimeToLive (LeaseSvc_lease_time_to_live now id keys)
  | CLeases => M_map (λ '(h, ids), RLeases h ids) LeaseSvc_lease_leases
  | CMemberList => M_map (λ '(h, ms), RMembers h ms) ClusterSvc_member_list
  | CDefragment => M_map RHeader MaintenanceSvc_defragment
  | CStatus => M_map RStatus MaintenanceSvc_status
  | CHash => M_map (λ '(h, x), RHash h x 0) MaintenanceSvc_hash
  | CHashKv => M_map (λ '(h, x, c), RHash h x c) MaintenanceSvc_hash_kv
  end.

Definition reply_header (r : Reply) : option ResponseHeader :=
  match r with
  | RRange r => rrs_header r | RPut r => prs_header r | RDeleteRange r => drs_header r
  | RTxn h _ _ | RHeader h | RLeases h _ | RMembers h _ | RHash h _ _ => h
  | RLease r => lr_header r | RTimeToLive r => ltl_header r | RStatus r => st_header r
  end.

(** The store method behind a call, for the calls that change the store. *)
Definition op_of (now : Z) (c : Call) : option Op :=
  match c with
  | CPut r => Some (OpPut r)
  | CDeleteRange r => Some (OpDeleteRange r)
  | CTxn r => Some (OpTxn r)
  | CCompact rev => Some (OpCompact rev)
  | CLeaseGrant ttl id => Some (OpLeaseGrant now ttl id)
  | CLeaseRevoke id => Some (OpLeaseRevoke id)
  | CKeepAlive id => Some (OpLeaseKeepalive now id)
  | _ => None
  end.

(** A session: calls served one after the other, with the clock at each. *)
Fixpoint serve_all (cs : list (Z * Call)) (s : Store) : list (result RpcFail Reply) * Store :=
  match cs with
  | [] => ([], s)
  | (now, c) :: cs =>
      let '(r, s1) := serve_call now c s in
      let '(rs, s2) := serve_all cs s1 in
      (r :: rs, s2)
  end.

Definition reply_revision (r : result RpcFail Reply) : option Z :=
  match r with
  | Ok r => hdr_revision <$> reply_header r
  | Err _ => None
  end.

(** The store call of a request operation, without the transaction around it. *)
Definition single_txn (op : RequestOp) : TxnRequest := mkTxnRequest [] [op] [].

(** A status call, a put, a Range whose interval runs backwards, and a Range. *)
Definition demo_calls : list (Z * Call) :=
  [(0, CStatus); (0, CPut (put_req $"/x" $"1" 0)); (0, CRange (range_req $"b" $"a" 0 0));
   (0, CRange (range_req $"/" $"0" 0 0))].

(** ** Helper lemmas *)

Lemma of_store_state {A} (m : St A) s : (of_store m s).2 = (m s).2.
Proof. unfold of_store. by destruct (m s) as [[a|[]] s']. Qed.

Lemma M_bind_state {E S A B} (f : A → M E S B) (m : M E S A) s :
  (∀ a s', (f a s').2 = s') → (M_bind f m s).2 = (m s).2.
Proof. intros H. unfold M_bind. by destruct (m s) as [[a|e] s']. Qed.

Lemma M_map_state {E S A B} (f : A → B) (m : M E S A) s : (M_map f m s).2 = (m s).2.
Proof. by apply M_bind_state. Qed.

Lemma of_store_Ok {A} (m : St A) s a s' : of_store m s = (Ok a, s') ↔ m s = (Ok a, s').
Proof. unfold of_store. destruct (m s) as [[b|[]] s1]; naive_solver. Qed.

Lemma keep_alive_state now id s :
  (LeaseSvc_keep_alive_one now id s).2 = (lease_keepalive now id s).2.
Proof.
  unfold LeaseSvc_keep_alive_one. rewrite M_bind_state, of_store_state; [done|].
  intros [[[hdr i] ttl]|] s'; done.
Qed.

Lemma range_lift_state {A} (r : result panicked A) s : (of_store (M_lift r) s).2 = s.
Proof. by rewrite of_store_state. Qed.

Lemma serve_state now c s :
  (serve_call now c s).2 = match op_of now c with Some op => run_op op s | None => s end.
Proof.
  destruct c; cbn [serve_call op_of run_op]; rewrite M_map_state;
    try (unfold KvSvc_txn, KvSvc_compact, LeaseSvc_lease_grant, LeaseSvc_lease_revoke;
         rewrite M_bind_state, of_store_state; [done|]; by intros; repeat case_match);
    try done.
  - unfold KvSvc_range. unfold M_bind at 1, M_gets at 1. rewrite M_bind_state.
    + apply range_lift_state.
    + intros [[ks more] count] s'. by destruct (rr_count_only r).
  - unfold KvSvc_delete_range, delete_range_response.
    rewrite !M_bind_state, of_store_state; [done| |]; by intros [[? ?] ?].
  - apply keep_alive_state.
  - unfold LeaseSvc_lease_time_to_live. unfold M_bind, M_gets.
    by destruct (lease_ttl s now id keys) as [[[[? ?] ?] ?]|].
Qed.

Lemma delete_range_header key range_end wp s hdr n prev s' :
  delete_range key range_end wp s = (Ok (hdr, n, prev), s') → hdr = header s'.
Proof. rewrite delete_range_eq. repeat case_match; intros; simplify_eq/=; done. Qed.

Lemma txn_header r s hdr ok rs s' : txn r s = (Ok (hdr, ok, rs), s') → hdr = header s'.
Proof.
  destruct r as [c t f]. simpl. unfold M_bind at 1, M_gets at 1. unfold M_bind, M_gets, M_ret.
  destruct (M_mapM _ _ _) as [[a|e] s1]; intros; simplify_eq; done.
Qed.

Lemma lease_revoke_header id s hdr s' : lease_revoke id s = (Ok hdr, s') → hdr = header s'.
Proof.
  unfold lease_revoke. unfold M_bind at 1, M_gets at 1. destruct (leases s !! id).
  - intros (? & ? & _ & H)%M_bind_Ok_inv. apply M_bind_Ok_inv in H as (? & ? & _ & H).
    unfold M_gets in H. by simplify_eq.
  - unfold M_gets. intros. by simplify_eq.
Qed.

Lemma lease_grant_header now ttl id s hdr i t s' :
  lease_grant now ttl id s = (Ok (hdr, i, t), s') → hdr = header s'.
Proof.
  unfold lease_grant. intros (? & ? & _ & H)%M_bind_Ok_inv.
  apply M_bind_Ok_inv in H as (? & ? & _ & H). apply M_bind_Ok_inv in H as (? & ? & _ & H).
  apply M_bind_Ok_inv in H as (? & ? & _ & H). unfold M_bind, M_gets, M_ret in H. by simplify_eq.
Qed.

Lemma lease_keepalive_header now id s hdr i t s' :
  lease_keepalive now id s = (Ok (Some (hdr, i, t)), s') → hdr = header s'.
Proof.
  unfold lease_keepalive. intros (o & s1 & [= <- <-] & H)%M_bind_Ok_inv.
  destruct (leases s !! id) as [le|]; [|done].
  apply M_bind_Ok_inv in H as (? & ? & _ & H). apply M_bind_Ok_inv in H as (? & ? & _ & H).
  unfold M_bind, M_gets, M_ret in H. by simplify_eq.
Qed.

Lemma txn_eq c t f :
  txn (mkTxnRequest c t f) =
  (let* ok := M_gets (λ s, forallb (eval_compare s) c) in
   let* responses := M_mapM exec_op (if ok : bool then t else f) in
   let* hdr := M_gets header in
   M_ret (hdr, ok, responses)).
Proof. reflexivity. Qed.

(** Every reply carries the header of the store it leaves. *)
Lemma serve_header now c s r s' :
  serve_call now c s = (Ok r, s') → reply_header r = Some (header s').
Proof.
  destruct c; cbn [serve_call]; intros (a & s1 & H & [= <- <-])%M_bind_Ok_inv.
  - unfold KvSvc_range in H. apply M_bind_Ok_inv in H as (st & s2 & _ & H).
    apply M_bind_Ok_inv in H as ([[ks more] count] & s3 & _ & H).
    destruct (rr_count_only r0); unfold M_bind, M_gets, M_ret in H; by simplify_eq.
  - unfold KvSvc_put in H. apply M_bind_Ok_inv in H as ([hdr prev] & s2 & H & [= <- <-]).
    apply of_store_Ok in H. rewrite put_eq in H. by simplify_eq.
  - unfold KvSvc_delete_range in H. apply M_bind_Ok_inv in H as ([[hdr n] prev] & s2 & H & [= <- <-]).
    apply of_store_Ok, delete_range_header in H. by simplify_eq/=.
  - unfold KvSvc_txn in H. apply M_bind_Ok_inv in H as ([[hdr ok] rs] & s2 & H & [= <- <-]).
    apply of_store_Ok, txn_header in H. by simplify_eq/=.
  - unfold KvSvc_compact in H. apply M_bind_Ok_inv in H as (hdr & s2 & H & [= <- <-]).
    apply of_store_Ok in H. unfold compact, M_bind, M_modify, M_gets in H. by simplify_eq/=.
  - unfold LeaseSvc_lease_grant in H. apply M_bind_Ok_inv in H as ([[hdr i] t] & s2 & H & [= <- <-]).
    apply of_store_Ok, lease_grant_header in H. by simplify_eq/=.
  - unfold LeaseSvc_lease_revoke in H. apply M_bind_Ok_inv in H as (hdr & s2 & H & [= <- <-]).
    apply of_store_Ok, lease_revoke_header in H. by simplify_eq/=.
  - unfold LeaseSvc_keep_alive_one in H. apply M_bind_Ok_inv in H as (o & s2 & H & H').
    apply of_store_Ok in H. destruct o as [[[hdr i] t]|].
    + injection H' as <- <-. apply lease_keepalive_header in H. by simplify_eq/=.
    + unfold M_bind, M_gets, M_ret in H'. by simplify_eq.
  - unfold LeaseSvc_lease_time_to_live in H. apply M_bind_Ok_inv in H as (st & s2 & [= <- <-] & H).
    unfold lease_ttl in H. destruct (leases s !! id); cbn [mbind option_bind] in H; [|done].
    unfold M_ret in H. by simplify_eq.
  - unfold LeaseSvc_lease_leases, M_bind, M_gets, M_ret in H. by simplify_eq.
  - unfold ClusterSvc_member_list, M_bind, M_gets, M_ret in H. by simplify_eq.
  - unfold MaintenanceSvc_defragment, M_bind, M_gets, M_ret in H. by simplify_eq.
  - unfold MaintenanceSvc_status, M_bind, M_gets, M_ret in H. by simplify_eq.
  - unfold MaintenanceSvc_hash, M_bind, M_gets, M_ret in H. by simplify_eq.
  - unfold MaintenanceSvc_hash_kv, M_bind, M_gets, M_ret in H. by simplify_eq.
Qed.

Lemma serve_evolves now c s : evolves s (serve_call now c s).2.
Proof. rewrite serve_state. destruct (op_of now c); [apply run_op_evolves|reflexivity]. Qed.

Lemma serve_all_evolves cs s : evolves s (serve_all cs s).2.
Proof.
  revert s. induction cs as [|[now c] cs IH]; intros s; simpl; [reflexivity|].
  pose proof (serve_evolves now c s) as H1. destruct (serve_call now c s) as [r s1]. simpl in H1.
  pose proof (IH s1) as H2. destruct (serve_all cs s1) as [rs s2]. simpl in *. by etrans.
Qed.

Lemma evolves_revision s s' : evolves s s' → store_wf s → store_wf s' → revision s ≤ revision s'.
Proof.
  intros (Hp & _) Hwf Hwf'. rewrite (wf_rev _ Hwf), (wf_rev _ Hwf').
  apply prefix_length in Hp. lia.
Qed.

Lemma reply_revision_serve now c s r s' x :
  serve_call now c s = (r, s') → reply_revision r = Some x → x = revision s'.
Proof.
  intros E Hr. destruct r as [r|]; [|done]. simpl in Hr.
  rewrite (serve_header _ _ _ _ _ E) in Hr. by injection Hr as <-.
Qed.

(** ** Theorems *)

(** C8: the service layer adds no state changes of its own.  Whatever the
    call and however it ends, the store it leaves is the one the single store
    method behind it leaves, and the calls with no such method (Range,
    TimeToLive, Leases, MemberList, Defragment, Status, Hash, HashKV) leave
    the store as it was; every successful reply carries the header of the
    store it leaves; so a server that answers any sequence of calls goes
    through reachable store states only. *)
Theorem rpc_refines_store now c s :
  (serve_call now c s).2 = match op_of now c with Some op => run_op op s | None => s end
  ∧ match serve_call now c s with (Ok r, s') => reply_header r = Some (header s') | (Err _, _) => True end
  ∧ (∀ cs, rtc op_step s (serve_all cs s).2).
Proof.
  split; [apply serve_state|]. split.
  { destruct (serve_call now c s) as [[r|] s'] eqn:E; [|done]. by eapply serve_header. }
  clear now c. intros cs. revert s. induction cs as [|[now' c'] cs IH]; intros s; simpl; [done|].
  pose proof (serve_state now' c' s) as H1. destruct (serve_call now' c' s) as [r s1]. simpl in H1.
  specialize (IH s1). destruct (serve_all cs s1) as [rs s2]. simpl in *.
  destruct (op_of now' c') as [op|]; subst; [|done].
  eapply rtc_l; [|exact IH]. by exists op.
Qed.

(** The revisions clients see never go backwards.  Over any sequence of
    calls the revisions in the reply headers are non-decreasing, none is older
    than the store's revision at the start, and none is ahead of the store's
    at the end. *)
Theorem rpc_revisions_monotone cs s :
  store_wf s → in_range (serve_all cs s).2 →
  let '(rs, s') := serve_all cs s in
  StronglySorted Z.le (omap reply_revision rs)
  ∧ Forall (λ x, revision s ≤ x ≤ revision s') (omap reply_revision rs).
Proof.
  revert s. induction cs as [|[now c] cs IH]; intros s Hwf Hi; simpl in *; [by repeat constructor|].
  pose proof (serve_evolves now c s) as Hev. destruct (serve_call now c s) as [r s1] eqn:E. simpl in Hev.
  pose proof (serve_all_evolves cs s1) as Hev2. specialize (IH s1).
  destruct (serve_all cs s1) as [rs s2]. simpl in *.
  assert (store_wf s1) as Hwf1.
  { apply Hev; [|done]. eapply in_range_prefix; [apply Hev2|done]. }
  assert (store_wf s2) as Hwf2 by by apply Hev2.
  pose proof (evolves_revision _ _ Hev Hwf Hwf1). pose proof (evolves_revision _ _ Hev2 Hwf1 Hwf2).
  destruct (IH Hwf1 Hi) as [Hs Hf].
  assert (Forall (λ x, revision s ≤ x ≤ revision s2) (omap reply_revision rs)) as Hf'.
  { eapply Forall_impl; [exact Hf|]. simpl. lia. }
  simpl. destruct (reply_revision r) as [x|] eqn:Ex; [|done].
  pose proof (reply_revision_serve _ _ _ _ _ _ E Ex) as ->. split.
  - constructor; [done|]. eapply Forall_impl; [exact Hf|]. simpl. lia.
  - constructor; [lia|done].
Qed.

Lemma rpc_revisions_monotone_witness :
  StronglySorted Z.le (omap reply_revision (serve_all demo_calls demo).1)
  ∧ omap reply_revision (serve_all demo_calls demo).1 = [4; 5; 5].
Proof.
  split; [|by vm_compute].
  pose proof (rpc_revisions_monotone demo_calls demo demo_wf) as H.
  assert (in_range (serve_all demo_calls demo).2) as Hi by (vm_compute; discriminate).
  specialize (H Hi). clear Hi. destruct (serve_all demo_calls demo) as [rs s']. exact (proj1 H).
Defined.

(** A request means the same inside a transaction as outside: the KV
    handlers and the transaction interpreter answer a Range, a Put and a
    DeleteRange with the same response and leave the same store, and an
    unconditional transaction around one request is that request. *)
Theorem rpc_txn_equivalence s :
  (∀ r, M_map ResponseRange (KvSvc_range r) s = of_store (exec_op (RequestRange r)) s)
  ∧ (∀ r, M_map ResponsePut (KvSvc_put r) s = of_store (exec_op (RequestPut r)) s)
  ∧ (∀ r, M_map ResponseDeleteRange (KvSvc_delete_range r) s
          = of_store (exec_op (RequestDeleteRange r)) s)
  ∧ (∀ op, KvSvc_txn (single_txn op) s
           = match of_store (exec_op op) s with
             | (Ok x, s') => (Ok (Some (header s'), true, [x]), s')
             | (Err e, s') => (Err e, s')
             end).
Proof.
  split_and!.
  - intros r. simpl. unfold M_map, KvSvc_range, M_bind, M_gets, of_store, M_lift, M_ret, range_response,
      result_bind. change (id s) with s.
    destruct (range_kvs s r) as [[[ks more] count]|[]]; simpl; [|done].
    by destruct (rr_count_only r).
  - intros r. done.
  - intros r. simpl. unfold M_map, KvSvc_delete_range, delete_range_response, M_bind, of_store, M_ret.
    by destruct (delete_range _ _ _ s) as [[[[hdr n] prev]|[]] s'].
  - intros op. unfold KvSvc_txn, single_txn. rewrite txn_eq. cbn [forallb M_mapM].
    unfold of_store, M_bind, M_gets, M_ret. cbn [forallb M_mapM]. unfold M_bind, M_ret.
    by destruct (exec_op op s) as [[x|[]] s'].
Qed.

(** Expiry as clients see it.  A keep-alive for a lease that exists
    answers its granted TTL, at least one second, and TimeToLive reports that
    TTL as granted and never more than what is left until the deadline; for a
    lease that does not exist the keep-alive answers TTL 0 and changes
    nothing, and TimeToLive is refused as not found. *)
Theorem lease_expiry_protocol now id keys s :
  store_wf s →
  match leases s !! id with
  | Some le =>
      (∀ r s', LeaseSvc_keep_alive_one now id s = (Ok r, s') →
         lr_ttl r = le_granted_ttl le ∧ 1 ≤ lr_ttl r ∧ lr_id r = id)
      ∧ ∃ r, LeaseSvc_lease_time_to_live now id keys s = (Ok r, s)
          ∧ ltl_granted_ttl r = le_granted_ttl le
          ∧ 0 ≤ ltl_ttl r
          ∧ (now ≤ le_deadline le → ltl_ttl r * ns_per_sec ≤ le_deadline le - now)
          ∧ ltl_keys r = (if keys then le_keys le else [])
  | None =>
      LeaseSvc_keep_alive_one now id s = (Ok (mkLeaseReply (Some (header s)) id 0), s)
      ∧ LeaseSvc_lease_time_to_live now id keys s
        = (Err (StatusNotFound ($"lease " ++ fmt_hex_i64 id ++ $" not found")), s)
  end.
Proof.
  intros Hwf. unfold LeaseSvc_lease_time_to_live, M_bind, M_gets, lease_ttl.
  destruct (leases s !! id) as [le|] eqn:E; cbn [mbind option_bind].
  - destruct (wf_leases _ Hwf _ _ E) as (Hid & [_ Hg] & _). split.
    + unfold LeaseSvc_keep_alive_one. intros r s' (o & s1 & H & H')%M_bind_Ok_inv.
      apply of_store_Ok in H. unfold lease_keepalive in H.
      apply M_bind_Ok_inv in H as (o' & s2 & [= <- <-] & H). rewrite E in H.
      apply M_bind_Ok_inv in H as (? & ? & _ & H). apply M_bind_Ok_inv in H as (? & ? & _ & H).
      unfold M_bind, M_gets, M_ret in H. simplify_eq. unfold M_ret in H'. by simplify_eq/=.
    + eexists. split; [done|]. simpl. rewrite E. simpl. unfold ns_per_sec. split_and!; [done| | |done].
      * apply Z.div_pos; lia.
      * intros Hd. rewrite Z.max_r by lia. pose proof (Z.mul_div_le (le_deadline le - now) (10 ^ 9)). lia.
  - split; [|done]. unfold LeaseSvc_keep_alive_one, of_store, M_bind, lease_keepalive, M_bind, M_gets.
    by rewrite E.
Qed.

Lemma lease_expiry_protocol_witness :
  lr_ttl <$> match (LeaseSvc_keep_alive_one 5 7 demo).1 with Ok r => Some r | Err _ => None end = Some 60
  ∧ (LeaseSvc_lease_time_to_live 5 8 true demo).1 = Err (StatusNotFound $"lease 0x8 not found").
Proof.
  split.
  - pose proof (lease_expiry_protocol 5 7 true demo demo_wf) as H.
    destruct (leases demo !! 7) as [le|] eqn:E; [|by vm_compute in E].
    destruct H as [H _]. destruct (LeaseSvc_keep_alive_one 5 7 demo) as [[r|e] s'] eqn:Ek;
      [|by vm_compute in Ek].
    simpl. destruct (H r s' eq_refl) as [-> _]. vm_compute in E. by injection E as <-.
  - by vm_compute.
Defined.
