(* ===== verification/Lb.v ===== *)
(** * The load balancer ([rust/kubenyx-lb/src/lib.rs])

    A health-checking TCP forwarder.  This file models its configuration, the
    choice of a backend for a connection, the probe loop's eviction and
    readmission policy, the byte pump of one direction, and the accept and
    drain loops.  What a dial, a probe, a read or a write returned is an input
    of the definitions; the probes themselves are in [LbProbe.v]. *)

From S2P Require Import Prelude Text.

(** ** Configuration *)

(** Durations are in milliseconds. *)
Record Cfg := mkCfg {
  listen : text; backends : list text; probe_interval : Z; fail_threshold : Z;
  drain_timeout : Z; dial_timeout : Z; probe_http : bool;
  probe_cert : option text; probe_key : option text }.

Definition Cfg_default : Cfg :=
  mkCfg $"127.0.0.1:6444" [] 500 3 10000 3000 false None None.

Definition bad_value (flag v : text) : text := $"bad " ++ flag ++ $" value " ++ v.

Definition ms (v flag : text) : result text Z := of_option (bad_value flag v) (parse_unsigned u64_max v).

(** The flags that take a value. *)
Definition value_flags : list text :=
  [$"--listen"; $"--backend"; $"--probe-interval-ms"; $"--fail-threshold"; $"--drain-timeout-ms";
   $"--dial-timeout-ms"; $"--probe-cert"; $"--probe-key"].

(** The arm of the [match] for one of [value_flags]. *)
Definition set_flag (flag v : text) (cfg : Cfg) : result text Cfg :=
  let 'mkCfg l bs pi ft dt dl http pc pk := cfg in
  if decide (flag = $"--listen") then Ok (mkCfg v bs pi ft dt dl http pc pk)
  else if decide (flag = $"--backend") then Ok (mkCfg l (bs ++ [v]) pi ft dt dl http pc pk)
  else if decide (flag = $"--probe-interval-ms") then
    let? x := ms v flag in Ok (mkCfg l bs x ft dt dl http pc pk)
  else if decide (flag = $"--fail-threshold") then
    let? x := of_option (bad_value flag v) (parse_unsigned u32_max v) in
    Ok (mkCfg l bs pi x dt dl http pc pk)
  else if decide (flag = $"--drain-timeout-ms") then
    let? x := ms v flag in Ok (mkCfg l bs pi ft x dl http pc pk)
  else if decide (flag = $"--dial-timeout-ms") then
    let? x := ms v flag in Ok (mkCfg l bs pi ft dt x http pc pk)
  else if decide (flag = $"--probe-cert") then Ok (mkCfg l bs pi ft dt dl http (Some v) pk)
  else Ok (mkCfg l bs pi ft dt dl http pc (Some v)).

Definition set_probe_http (cfg : Cfg) : Cfg :=
  mkCfg (listen cfg) (backends cfg) (probe_interval cfg) (fail_threshold cfg) (drain_timeout cfg)
    (dial_timeout cfg) true (probe_cert cfg) (probe_key cfg).

(** The [while] loop over the arguments. *)
Fixpoint parse_flags (args : list text) (cfg : Cfg) : result text Cfg :=
  match args with
  | [] => Ok cfg
  | flag :: rest =>
      if decide (flag ∈ value_flags) then
        match rest with
        | v :: rest => let? cfg := set_flag flag v cfg in parse_flags rest cfg
        | [] => Err ($"missing value for " ++ flag)
        end
      else if decide (flag = $"--probe-http") then parse_flags rest (set_probe_http cfg)
      else Err ($"unknown flag " ++ flag)
  end.

Definition parse_args (args : list text) : result text Cfg :=
  let? cfg := parse_flags args Cfg_default in
  if decide (backends cfg = []) then Err $"at least one --backend is required"
  else if fail_threshold cfg =? 0 then Err $"--fail-threshold must be >= 1"
  else if negb (Bool.eqb (bool_decide (is_Some (probe_cert cfg))) (bool_decide (is_Some (probe_key cfg))))
  then Err $"--probe-cert and --probe-key must be given together"
  else Ok cfg.

(** The host part of a backend, for the probe's SNI and Host header. *)
Definition backend_host (spec : text) : text :=
  let host := match rsplit_once (ch ":") spec with Some (h, _) => h | None => spec end in
  trim_end_matches (ch "]") (trim_start_matches (ch "[") host).

(** ** Choosing a backend *)

Definition rotated (healthy : list bool) (cursor : nat) (keep : bool) : list nat :=
  filter (λ i, healthy !! i = Some keep)
    ((λ i, ((cursor + i) mod length healthy)%nat) <$> seq 0 (length healthy)).

Definition pick_order (healthy : list bool) (cursor : nat) : list nat :=
  rotated healthy cursor true ++ rotated healthy cursor false.

(** The dial loop of [handle]: the backends in dial order until one accepts.
    [dial i] is whether [TcpStream::connect_timeout] to backend [i] succeeds;
    the result is the backends that refused, and the one the connection is
    pumped to, if any. *)
Fixpoint dial_loop (dial : nat → bool) (order : list nat) : list nat * option nat :=
  match order with
  | [] => ([], None)
  | i :: order =>
      if dial i then ([], Some i)
      else let '(refused, chosen) := dial_loop dial order in (i :: refused, chosen)
  end.

(** [cursor.fetch_add(1)], and the loop; the cursor is a [usize]. *)
Definition handle (healthy : list bool) (cursor : Z) (dial : nat → bool) : Z * (list nat * option nat) :=
  let start := Z.to_nat (cursor mod Z.of_nat (length healthy)) in
  (wrap_u64 (cursor + 1), dial_loop dial (pick_order healthy start)).

(** ** The probe loop *)

Record BackendHealth := mkHealth { healthy : bool; fails : Z }.

(** The log lines of the loop, and the sd_notify datagram. *)
Inductive LbEvent :=
| Readmit (spec : text)
| NotifyReady
| Ready (spec : text)
| Evict (spec : text) (failed : Z).

(** One probe of one backend, with its outcome. *)
Definition probe_step (threshold : Z) (spec : text) (ok : bool) (b : BackendHealth) (ever_ready : bool)
    : BackendHealth * bool * list LbEvent :=
  if ok then
    (mkHealth true 0, true,
     (if healthy b then [] else [Readmit spec])
     ++ (if ever_ready then [] else [NotifyReady; Ready spec]))
  else
    let f := Z.min (fails b + 1) u32_max in
    let evict := (threshold <=? f) && healthy b in
    (mkHealth (if threshold <=? f then false else healthy b) (wrap_u32 (fails b + 1)), ever_ready,
     if evict then [Evict spec f] else []).

(** One round: the backends in order, with the outcomes of their probes. *)
Fixpoint probe_round (threshold : Z) (specs : list text) (oks : list bool) (bs : list BackendHealth)
    (ever_ready : bool) : list BackendHealth * bool * list LbEvent :=
  match specs, oks, bs with
  | spec :: specs, ok :: oks, b :: bs =>
      let '(b, er, ev) := probe_step threshold spec ok b ever_ready in
      let '(bs, er, evs) := probe_round threshold specs oks bs er in
      (b :: bs, er, ev ++ evs)
  | _, _, _ => (bs, ever_ready, [])
  end.

(** [resolve_backend]: every backend starts unhealthy. *)
Definition initial_health (specs : list text) : list BackendHealth :=
  (λ _, mkHealth false 0) <$> specs.

(** The loop over the rounds run so far. *)
Fixpoint health_loop (threshold : Z) (specs : list text) (rounds : list (list bool))
    (bs : list BackendHealth) (ever_ready : bool) : list BackendHealth * bool * list LbEvent :=
  match rounds with
  | [] => (bs, ever_ready, [])
  | oks :: rounds =>
      let '(bs, er, ev) := probe_round threshold specs oks bs ever_ready in
      let '(bs, er, evs) := health_loop threshold specs rounds bs er in
      (bs, er, ev ++ evs)
  end.

Definition health_run (threshold : Z) (specs : list text) (rounds : list (list bool)) :=
  health_loop threshold specs rounds (initial_health specs) false.

(** The timeout of a probe, from the interval. *)
Definition probe_timeout (interval : Z) : Z := Z.min (Z.max interval 250) 1500.

(** ** Forwarding *)

(** What [src.read] returns at each turn of the pump, with the result of
    [dst.write_all] for data and of [drain_expired] for a poll tick. *)
Inductive PumpRead :=
| ReadEof
| ReadData (data : bytes) (write_ok : bool)
| ReadPoll (expired : bool)
| ReadError.

Inductive PumpEnd := PumpEof | PumpWriteFailed | PumpDrained | PumpReadError | PumpRunning.

(** The loop: the chunks handed to [write_all], and how it ended. *)
Fixpoint pump_loop (rs : list PumpRead) : list bytes * PumpEnd :=
  match rs with
  | [] => ([], PumpRunning)
  | ReadEof :: _ => ([], PumpEof)
  | ReadData d ok :: rs =>
      if ok then let '(w, e) := pump_loop rs in (d :: w, e) else ([d], PumpWriteFailed)
  | ReadPoll expired :: rs => if expired then ([], PumpDrained) else pump_loop rs
  | ReadError :: _ => ([], PumpReadError)
  end.

Inductive Shut := ShutDstWrite | ShutSrcRead.

(** [pump]: whatever ended the loop, the close is propagated. *)
Definition pump (rs : list PumpRead) : list bytes * PumpEnd * list Shut :=
  let '(w, e) := pump_loop rs in
  (w, e, match e with PumpRunning => [] | _ => [ShutDstWrite; ShutSrcRead] end).

(** ** Accepting and draining *)

Inductive Phase := LoopHead | Accepting | Draining | Exited.

(** [lb_live] is the number of connection threads that have been counted in
    and not yet out; the rest is the process's statics and the main thread. *)
Record LbSys := mkLb {
  lb_phase : Phase; lb_flag : bool; lb_active : Z; lb_live : nat;
  lb_deadline : Z; lb_elapsed : Z; lb_drain_start : Z }.

Definition drain_expired (y : LbSys) : bool := lb_flag y && (lb_deadline y <=? lb_elapsed y).

Definition lb_init : LbSys := mkLb LoopHead false 0 0 u64_max 0 0.

Inductive lb_step (timeout : Z) : LbSys → LbSys → Prop :=
| lb_tick p f a n d e ds e' : e ≤ e' ≤ u64_max →
    lb_step timeout (mkLb p f a n d e ds) (mkLb p f a n d e' ds)
| lb_signal p f a n d e ds :
    lb_step timeout (mkLb p f a n d e ds) (mkLb p true a n d e ds)
| lb_enter a n d e ds :
    lb_step timeout (mkLb LoopHead false a n d e ds) (mkLb Accepting false a n d e ds)
| lb_accept f a n d e ds :
    lb_step timeout (mkLb Accepting f a n d e ds) (mkLb LoopHead f (wrap_u64 (a + 1)) (S n) d e ds)
| lb_would_block f a n d e ds :
    lb_step timeout (mkLb Accepting f a n d e ds) (mkLb LoopHead f a n d e ds)
| lb_finish p f a n d e ds : p ≠ Exited →
    lb_step timeout (mkLb p f a (S n) d e ds) (mkLb p f (wrap_u64 (a - 1)) n d e ds)
| lb_drain a n d e ds :
    lb_step timeout (mkLb LoopHead true a n d e ds)
      (mkLb Draining true a n (Z.min (e + timeout) u64_max) e e)
| lb_exit f a n d e ds :
    ¬ (0 < a ∧ drain_expired (mkLb Draining f a n d e ds) = false) →
    lb_step timeout (mkLb Draining f a n d e ds) (mkLb Exited f a n d e ds).
