(* ===== verification/LbSpec.v ===== *)
(** * What the load balancer promises

    The theorems about [Lb.v]: which backend a connection goes to, when a
    backend is evicted and readmitted, when the unit reports ready, what one
    direction of a connection forwards, and when a drain ends. *)

From S2P Require Import Prelude Text Lb.

(** ** Definitions *)

(** The health of one backend after one probe. *)
Definition health_step (threshold : Z) (b : BackendHealth) (ok : bool) : BackendHealth :=
  (probe_step threshold [] ok b true).1.1.

(** The outcomes of backend [i]'s probes, oldest first. *)
Definition outcomes (rounds : list (list bool)) (i : nat) : list bool :=
  (λ oks : list bool, default false (oks !! i)) <$> rounds.

(** The last success was followed by fewer than [threshold] failures. *)
Definition recently_ok (threshold : Z) (rs : list bool) : Prop :=
  ∃ pre k, rs = pre ++ true :: replicate k false ∧ Z.of_nat k < threshold.

(** The failures since the last success, or since the start. *)
Fixpoint trailing_failures (rs : list bool) : nat :=
  match rs with
  | [] => 0
  | r :: rs => if forallb negb rs then (if r then length rs else S (length rs))
               else trailing_failures rs
  end.

Definition is_notify (e : LbEvent) : Prop := e = NotifyReady.
#[export] Instance is_notify_dec e : Decision (is_notify e).
Proof. unfold is_notify. destruct e; (by left) || (right; done). Defined.

(** What a run of the accept and drain loops keeps true. *)
Definition lb_ok (timeout : Z) (y : LbSys) : Prop :=
  lb_active y = wrap_u64 (Z.of_nat (lb_live y))
  ∧ 0 ≤ lb_elapsed y ≤ u64_max
  ∧ match lb_phase y with
    | LoopHead | Accepting => lb_deadline y = u64_max
    | Draining =>
        lb_flag y = true ∧ lb_deadline y = Z.min (lb_drain_start y + timeout) u64_max
        ∧ lb_drain_start y ≤ lb_elapsed y
    | Exited =>
        lb_flag y = true ∧ lb_drain_start y ≤ lb_elapsed y
        ∧ (lb_active y = 0 ∨ Z.min (lb_drain_start y + timeout) u64_max ≤ lb_elapsed y)
    end.

Definition lb_run (timeout : Z) : LbSys → LbSys → Prop :=
  rtc (λ y y', lb_step timeout y y').

(** Some probe succeeded. *)
Definition any_ok (rounds : list (list bool)) : bool := existsb (existsb id) rounds.

(** How many times a piece of the log reports ready, from the flag before it
    and whether a probe succeeds in it. *)
Definition notify_count (er ok : bool) : nat := if negb er && ok then 1 else 0.

(** Whether a pump goes on after a read. *)
Definition continues (r : PumpRead) : bool :=
  match r with ReadData _ ok => ok | ReadPoll expired => negb expired | _ => false end.

Definition data_of (r : PumpRead) : list bytes :=
  match r with ReadData d _ => [d] | _ => [] end.

Definition end_of (r : PumpRead) : PumpEnd :=
  match r with
  | ReadEof => PumpEof | ReadData _ _ => PumpWriteFailed
  | ReadPoll _ => PumpDrained | ReadError => PumpReadError
  end.

(** What every accepted value keeps in range. *)
Definition cfg_in_range (cfg : Cfg) : Prop :=
  0 ≤ probe_interval cfg ≤ u64_max ∧ 0 ≤ fail_threshold cfg ≤ u32_max
  ∧ 0 ≤ drain_timeout cfg ≤ u64_max ∧ 0 ≤ dial_timeout cfg ≤ u64_max.

(** Three backends, thresholds of two: an argument list used by the
    witnesses. *)
Definition demo_args : list text :=
  [$"--backend"; $"a:6443"; $"--backend"; $"[::1]:6443"; $"--fail-threshold"; $"2";
   $"--backend"; $"c"].

(** ** Dial order *)

Lemma rotation_eq n c :
  (λ i, ((c + i) mod n)%nat) <$> seq 0 n = rotate c (seq 0 n).
Proof.
  apply list_eq. intros i. destruct (decide (i < n)%nat) as [Hi|Hi].
  - rewrite lookup_rotate_r, list_lookup_fmap, lookup_seq_lt, length_seq by (by rewrite ?length_seq).
    simpl. assert (rotate_nat_add c i n = (c + i) mod n)%nat as ->.
    { unfold rotate_nat_add. by rewrite <- Nat2Z.inj_add, <- Nat2Z.inj_mod, Nat2Z.id. }
    rewrite lookup_seq_lt; [done|]. apply Nat.mod_upper_bound. lia.
  - rewrite !lookup_ge_None_2; [done|..]; rewrite ?length_rotate, ?length_fmap, length_seq; lia.
Qed.

Lemma rotated_eq h c keep :
  rotated h c keep = filter (λ i, h !! i = Some keep) (rotate c (seq 0 (length h))).
Proof. unfold rotated. by rewrite rotation_eq. Qed.

Lemma rotate_perm {A} n (l : list A) : rotate n l ≡ₚ l.
Proof. unfold rotate. rewrite Permutation_app_comm. by rewrite take_drop. Qed.

Lemma filter_split_perm {A} (P Q : A → Prop) `{∀ x, Decision (P x)} `{∀ x, Decision (Q x)} l :
  (∀ x, x ∈ l → Q x ↔ ¬ P x) → filter P l ++ filter Q l ≡ₚ l.
Proof.
  induction l as [|x l IH]; intros HQ; [done|]. rewrite !filter_cons.
  assert (Q x ↔ ¬ P x) by (apply HQ; left).
  assert (filter P l ++ filter Q l ≡ₚ l) as IH' by (apply IH; intros; apply HQ; by right).
  destruct (decide (P x)), (decide (Q x)); try tauto; simpl.
  - by rewrite IH'.
  - rewrite <- Permutation_middle. by rewrite IH'.
Qed.

Lemma pick_order_perm h c : pick_order h c ≡ₚ seq 0 (length h).
Proof.
  unfold pick_order. rewrite !rotated_eq. rewrite filter_split_perm; [apply rotate_perm|].
  intros i Hi%elem_of_rotate. apply elem_of_seq in Hi.
  destruct (lookup_lt_is_Some_2 h i) as [b E]; [lia|]. rewrite E. destruct b; naive_solver.
Qed.

Lemma pick_order_app h c :
  pick_order h c = filter (λ i, h !! i = Some true) (rotate c (seq 0 (length h)))
                   ++ filter (λ i, h !! i = Some false) (rotate c (seq 0 (length h))).
Proof. unfold pick_order. by rewrite !rotated_eq. Qed.

Lemma pick_order_all_healthy n c : pick_order (replicate n true) c = rotate c (seq 0 n).
Proof.
  rewrite pick_order_app, length_replicate.
  rewrite filter_all, filter_none, app_nil_r; [done|..];
    apply Forall_forall; intros i Hi%elem_of_rotate; apply elem_of_seq in Hi;
    rewrite lookup_replicate_2 by lia; congruence.
Qed.

Lemma dial_loop_spec dial order :
  match dial_loop dial order with
  | (refused, Some i) => ∃ rest, order = refused ++ i :: rest ∧ dial i = true
                                 ∧ Forall (λ j, dial j = false) refused
  | (refused, None) => refused = order ∧ Forall (λ j, dial j = false) order
  end.
Proof.
  induction order as [|j order IH]; simpl; [done|].
  destruct (dial j) eqn:Ej; [by exists order|].
  destruct (dial_loop dial order) as [refused [i|]].
  - destruct IH as (rest & -> & Hi & Hf). exists rest. split_and!; [done|done|by constructor].
  - destruct IH as (-> & Hf). split; [done|by constructor].
Qed.

(** ** The probe policy *)

Lemma probe_step_health threshold spec ok b er :
  (probe_step threshold spec ok b er).1.1 = health_step threshold b ok.
Proof. unfold health_step, probe_step. by destruct ok. Qed.

Lemma probe_round_health threshold specs oks bs er :
  length specs = length bs → length oks = length bs →
  (probe_round threshold specs oks bs er).1.1 = zip_with (health_step threshold) bs oks.
Proof.
  revert oks bs er. induction specs as [|spec specs IH]; intros [|ok oks] [|b bs] er H1 H2;
    simplify_eq/=; [done|].
  pose proof (probe_step_health threshold spec ok b er) as Hs.
  destruct (probe_step threshold spec ok b er) as [[b' er'] ev]. simpl in Hs. subst b'.
  specialize (IH oks bs er' H1 H2). destruct (probe_round _ _ _ _ _) as [[bs' er''] evs].
  simpl in *. by rewrite IH.
Qed.

Lemma health_loop_health threshold specs rounds bs er i b0 :
  length specs = length bs → Forall (λ oks : list bool, length oks = length specs) rounds →
  bs !! i = Some b0 →
  (health_loop threshold specs rounds bs er).1.1 !! i
  = Some (foldl (health_step threshold) b0 (outcomes rounds i)).
Proof.
  revert bs er b0. induction rounds as [|oks rounds IH]; intros bs er b0 Hlen Hall Hi; [done|].
  inversion Hall as [|? ? Hoks Hrest]; subst. cbn [health_loop].
  pose proof (probe_round_health threshold specs oks bs er Hlen ltac:(congruence)) as Hr.
  destruct (probe_round threshold specs oks bs er) as [[bs' er'] ev]. simpl in Hr. subst bs'.
  assert (i < length oks)%nat as Hlt.
  { rewrite Hoks, Hlen. by apply lookup_lt_Some in Hi. }
  destruct (lookup_lt_is_Some_2 _ _ Hlt) as [ok Eok].
  assert (zip_with (health_step threshold) bs oks !! i = Some (health_step threshold b0 ok)) as Hz.
  { rewrite lookup_zip_with, Hi, Eok. done. }
  assert (length specs = length (zip_with (health_step threshold) bs oks)) as Hlen'
    by (rewrite length_zip_with; lia).
  specialize (IH _ er' _ Hlen' Hrest Hz).
  destruct (health_loop _ _ rounds _ er') as [[bs'' er''] evs]. simpl in *. rewrite IH.
  unfold outcomes. csimpl. by rewrite Eok.
Qed.

Lemma forallb_negb rs : forallb negb rs = true ↔ rs = replicate (length rs) false.
Proof.
  induction rs as [|[] rs IH]; simpl; [done|split; congruence|]. rewrite IH. split; congruence.
Qed.

Lemma trailing_snoc rs r :
  trailing_failures (rs ++ [r]) = if r then 0%nat else S (trailing_failures rs).
Proof.
  induction rs as [|x rs IH]; simpl; [by destruct r|].
  rewrite forallb_app, length_app, IH. simpl. rewrite andb_true_r.
  destruct r; simpl; [by rewrite andb_false_r|]. rewrite andb_true_r.
  destruct (forallb negb rs); [destruct x; lia|done].
Qed.

Lemma replicate_snoc {A} n (x : A) : replicate (S n) x = replicate n x ++ [x].
Proof. exact (replicate_cons_app n x). Qed.

Lemma recently_ok_iff threshold rs :
  recently_ok threshold rs ↔ true ∈ rs ∧ Z.of_nat (trailing_failures rs) < threshold.
Proof.
  assert (∀ pre k, trailing_failures (pre ++ true :: replicate k false) = k) as Htr.
  { intros pre k. induction k as [|k IH]; [by rewrite trailing_snoc|].
    by rewrite (replicate_snoc k), app_comm_cons, app_assoc, trailing_snoc, IH. }
  unfold recently_ok. split.
  - intros (pre & k & -> & Hk). rewrite Htr. set_solver.
  - induction rs as [|r rs IH] using rev_ind; [by intros [?%not_elem_of_nil _]|].
    rewrite trailing_snoc. intros [Hin Hlt]. destruct r; [by exists rs, 0%nat|].
    destruct IH as (pre & k & -> & Hk); [split; [set_solver|lia]|].
    exists pre, (S k). rewrite Htr in Hlt. split; [|lia].
    by rewrite (replicate_snoc k), <- app_assoc.
Qed.

(** The two counters of a backend, after any outcomes. *)
Lemma health_fold threshold rs :
  0 < threshold ≤ u32_max →
  let b := foldl (health_step threshold) (mkHealth false 0) rs in
  fails b = wrap_u32 (Z.of_nat (trailing_failures rs))
  ∧ (healthy b = true ↔ recently_ok threshold rs).
Proof.
  intros Ht. cbv zeta. rewrite recently_ok_iff.
  induction rs as [|r rs [IHf IHh]] using rev_ind; simpl.
  { split; [done|]. split; [done|]. by intros [?%not_elem_of_nil _]. }
  rewrite foldl_snoc, trailing_snoc.
  set (b := foldl _ _ rs) in *. unfold health_step, probe_step. destruct r; simpl.
  { split; [done|]. split; [|done]. intros _. split; [set_solver|lia]. }
  assert (true ∈ rs ++ [false] ↔ true ∈ rs) as -> by set_solver. split.
  - rewrite IHf. unfold wrap_unsigned. rewrite Nat2Z.inj_succ, Zplus_mod_idemp_l. f_equal.
  - destruct (threshold <=? Z.min (fails b + 1) u32_max) eqn:E; zbool.
    + split; [done|]. intros [_ Hlt]. exfalso. rewrite IHf in E. unfold u32_max in *.
      rewrite wrap_unsigned_small in E by lia. lia.
    + rewrite IHh. split; [|intros [? ?]; split; [done|lia]]. intros [Hin Hlt]. split; [done|].
      rewrite IHf in E. unfold u32_max in *. rewrite wrap_unsigned_small in E by lia. lia.
Qed.

(** *** Readiness *)

Lemma notify_count_app er a b :
  (notify_count er a + notify_count (er || a) b)%nat = notify_count er (a || b).
Proof. by destruct er, a, b. Qed.

Lemma probe_step_notify threshold spec ok b er :
  let '(_, er', ev) := probe_step threshold spec ok b er in
  er' = er || ok ∧ length (filter is_notify ev) = notify_count er ok.
Proof.
  unfold probe_step, notify_count. destruct ok; simpl.
  - rewrite orb_true_r, filter_app, length_app. destruct er, (healthy b); done.
  - rewrite orb_false_r, andb_false_r. by case_match.
Qed.

Lemma probe_round_notify threshold specs oks bs er :
  length specs = length bs → length oks = length bs →
  let '(bs', er', ev) := probe_round threshold specs oks bs er in
  length bs' = length bs ∧ er' = er || existsb id oks
  ∧ length (filter is_notify ev) = notify_count er (existsb id oks).
Proof.
  revert oks bs er. induction specs as [|spec specs IH]; intros [|ok oks] [|b bs] er H1 H2;
    simplify_eq/=; [by destruct er|].
  pose proof (probe_step_notify threshold spec ok b er) as Hs.
  destruct (probe_step threshold spec ok b er) as [[b' er'] ev]. destruct Hs as [-> Hs].
  specialize (IH oks bs (er || ok) H1 H2). destruct (probe_round _ _ _ _ _) as [[bs' er''] evs].
  destruct IH as (Hl & -> & Hn). change (id ok) with ok. rewrite filter_app, length_app, Hs, Hn.
  split_and!; [simpl; lia|by rewrite orb_assoc|apply notify_count_app].
Qed.

Lemma health_loop_notify threshold specs rounds bs er :
  length specs = length bs → Forall (λ oks : list bool, length oks = length specs) rounds →
  let '(_, er', ev) := health_loop threshold specs rounds bs er in
  er' = er || any_ok rounds ∧ length (filter is_notify ev) = notify_count er (any_ok rounds).
Proof.
  revert bs er. induction rounds as [|oks rounds IH]; intros bs er Hlen Hall; simpl.
  { unfold any_ok, notify_count. simpl. by rewrite orb_false_r, andb_false_r. }
  inversion Hall as [|? ? Hoks Hrest]; subst.
  pose proof (probe_round_notify threshold specs oks bs er Hlen ltac:(congruence)) as Hr.
  destruct (probe_round threshold specs oks bs er) as [[bs' er'] ev]. destruct Hr as (Hl & -> & Hn).
  specialize (IH bs' (er || existsb id oks) ltac:(congruence) Hrest).
  destruct (health_loop _ _ rounds _ _) as [[bs'' er''] evs]. destruct IH as [-> Hn'].
  rewrite filter_app, length_app, Hn, Hn'. change (any_ok (oks :: rounds)) with (existsb id oks || any_ok rounds).
  split; [by rewrite orb_assoc|apply notify_count_app].
Qed.

(** *** The accept and drain loops *)

Lemma lb_ok_init timeout : lb_ok timeout lb_init.
Proof. unfold lb_ok, lb_init. simpl. unfold u64_max. split_and!; done || lia. Qed.

Lemma wrap_u64_add a b : wrap_u64 (wrap_u64 a + b) = wrap_u64 (a + b).
Proof. unfold wrap_unsigned. apply Zplus_mod_idemp_l. Qed.

Lemma lb_ok_step timeout y y' : 0 ≤ timeout → lb_step timeout y y' → lb_ok timeout y → lb_ok timeout y'.
Proof.
  intros Ht Hs (Ha & He & Hp). destruct Hs; unfold lb_ok; simpl in *.
  - split_and!; [done|lia|lia|]. destruct p; try done; [naive_solver lia|].
    destruct Hp as (? & ? & [?|?]); split_and!; done || lia.
  - split_and!; [done|lia|lia|]. destruct p; naive_solver.
  - split_and!; done || lia.
  - split_and!; [|lia|lia|done]. rewrite Ha, wrap_u64_add. f_equal. lia.
  - split_and!; done || lia.
  - split_and!; [|lia|lia|by destruct p]. rewrite Ha. unfold Z.sub. rewrite wrap_u64_add. f_equal. lia.
  - split_and!; done || lia.
  - destruct Hp as (-> & -> & ?). split_and!; [done|lia|lia|done|done|].
    unfold drain_expired in H. simpl in H. destruct (Z.leb_spec (Z.min (ds + timeout) u64_max) e); [by right|].
    left. assert (0 ≤ a) by (rewrite Ha; apply Z.mod_pos_bound; lia). lia.
Qed.

Lemma lb_run_ok timeout y : 0 ≤ timeout → lb_run timeout lb_init y → lb_ok timeout y.
Proof.
  intros Ht Hr. pose proof (lb_ok_init timeout) as H. revert H.
  induction Hr; eauto using lb_ok_step.
Qed.

(** No step leaves [Draining] but the exit, and none accepts there. *)
Lemma drain_step timeout y y' :
  lb_step timeout y y' → lb_phase y = Draining ∨ lb_phase y = Exited →
  (lb_phase y' = Draining ∨ lb_phase y' = Exited) ∧ (lb_live y' ≤ lb_live y)%nat.
Proof. destruct 1; simpl; intros [|]; try done; split; auto. Qed.

(** *** Configuration *)

Lemma of_option_parse {e : text} hi v x :
  of_option e (parse_unsigned hi v) = Ok x → 0 ≤ x ≤ hi.
Proof.
  destruct (parse_unsigned hi v) eqn:E; intros H; simplify_eq/=. by eapply parse_unsigned_range.
Qed.

Lemma set_flag_range flag v cfg cfg' :
  set_flag flag v cfg = Ok cfg' → cfg_in_range cfg → cfg_in_range cfg'.
Proof.
  destruct cfg. unfold set_flag, ms, cfg_in_range. intros H (? & ? & ? & ?). simpl in *.
  repeat (case_decide; [|]);
    try (destruct (of_option _ (parse_unsigned _ v)) as [x|] eqn:Ex; simpl in H; [|done];
         apply of_option_parse in Ex);
    simplify_eq/=; split_and!; done || lia.
Qed.

Lemma parse_flags_range args cfg cfg' :
  parse_flags args cfg = Ok cfg' → cfg_in_range cfg → cfg_in_range cfg'.
Proof.
  revert cfg. induction args as [args IH] using (induction_ltof1 _ length). unfold ltof in IH.
  intros cfg. destruct args as [|flag args]; simpl; [by intros [= ->]|].
  case_decide.
  - destruct args as [|v args]; [done|]. destruct (set_flag flag v cfg) eqn:E; simpl; [|done].
    intros H' Hr. eapply IH; [|done|by eapply set_flag_range]. simpl. lia.
  - case_decide; [|done]. intros H' Hr. eapply IH; [|done|done]. simpl. lia.
Qed.

Lemma parse_args_inv args cfg :
  parse_args args = Ok cfg →
  cfg_in_range cfg ∧ backends cfg ≠ [] ∧ 0 < fail_threshold cfg
  ∧ (is_Some (probe_cert cfg) ↔ is_Some (probe_key cfg)).
Proof.
  unfold parse_args. destruct (parse_flags args Cfg_default) as [c|] eqn:E; simpl; [|done].
  apply parse_flags_range in E; [|unfold cfg_in_range, u32_max, u64_max; simpl; lia].
  case_decide; [done|]. destruct (fail_threshold c =? 0) eqn:Ef; [done|].
  destruct (Bool.eqb _ _) eqn:Eb; simpl; [|done]. intros [= <-]. zbool.
  split_and!; [apply E..|done|unfold cfg_in_range in E; lia|].
  apply eqb_prop in Eb. destruct (probe_cert c), (probe_key c); try done;
    vm_compute in Eb; done.
Qed.

Lemma before_in_prefix {A} (l1 l2 pre rest : list A) x j :
  pre ++ x :: rest = l1 ++ l2 → x ∉ l1 → j ∈ l1 → j ∈ pre.
Proof.
  revert pre. induction l1 as [|y l1 IH]; intros pre E Hx Hj; [by apply not_elem_of_nil in Hj|].
  destruct pre as [|z pre]; simplify_eq/=; [set_solver|].
  apply elem_of_cons in Hj as [->|Hj]; [left|right]. eapply IH; [done|set_solver|done].
Qed.

(** ** Theorems *)

(** The dial order tries every backend exactly once, the healthy ones
    before the unhealthy ones, and each group in round-robin order from the
    cursor. *)
Theorem pick_order_spec h c :
  pick_order h c ≡ₚ seq 0 (length h)
  ∧ ∃ hs us, pick_order h c = hs ++ us
      ∧ Forall (λ i, h !! i = Some true) hs ∧ Forall (λ i, h !! i = Some false) us
      ∧ hs `sublist_of` rotate c (seq 0 (length h)) ∧ us `sublist_of` rotate c (seq 0 (length h)).
Proof.
  split; [apply pick_order_perm|]. rewrite pick_order_app. do 2 eexists. split; [done|].
  split_and!; try apply sublist_filter; apply Forall_forall; intros i Hi;
    by apply list_elem_of_filter in Hi as [? _].
Qed.


(** Round robin is fair.  With every backend healthy and accepting, any
    [n] consecutive connections (the cursor not wrapping in between) go to [n]
    different backends. *)
Theorem round_robin_fair n cursor :
  (0 < n)%nat → 0 ≤ cursor →
  (λ k, (handle (replicate n true) (cursor + Z.of_nat k) (λ _, true)).2.2) <$> seq 0 n
  ≡ₚ Some <$> seq 0 n.
Proof.
  intros Hn Hc. set (c := Z.to_nat cursor).
  assert ((λ k, (handle (replicate n true) (cursor + Z.of_nat k) (λ _, true)).2.2) <$> seq 0 n
          = Some <$> ((λ k, ((c + k) mod n)%nat) <$> seq 0 n)) as ->.
  { rewrite <- list_fmap_compose. apply list_fmap_ext. intros _ k _. unfold handle, compose. simpl.
    rewrite length_replicate, pick_order_all_healthy.
    assert (Z.to_nat ((cursor + Z.of_nat k) mod Z.of_nat n) = (c + k) mod n)%nat as ->.
    { replace (cursor + Z.of_nat k) with (Z.of_nat (c + k)) by lia.
      by rewrite <- Nat2Z.inj_mod, Nat2Z.id. }
    assert (rotate ((c + k) mod n) (seq 0 n) !! 0%nat = Some ((c + k) mod n)%nat) as Hh.
    { rewrite <- rotation_eq, list_lookup_fmap, lookup_seq_lt by lia. simpl. f_equal.
      rewrite Nat.add_0_r. apply Nat.Div0.mod_mod. }
    destruct (rotate _ _) as [|i l]; [done|]. simpl in Hh. by simplify_eq/=. }
  rewrite rotation_eq. by rewrite rotate_perm.
Qed.

Lemma round_robin_fair_witness :
  (λ k, (handle (replicate 3 true) (4 + Z.of_nat k) (λ _, true)).2.2) <$> seq 0 3
  ≡ₚ Some <$> seq 0 3.
Proof. apply (round_robin_fair 3 4); lia. Defined.

(** C9: eviction and readmission.  For any accepted configuration, after any
    rounds of probes a backend is marked healthy exactly when its last
    successful probe was followed by fewer than the threshold's number of
    consecutive failures; in particular it is unhealthy until its first
    success and healthy again after a single one. *)
Theorem health_policy args cfg rounds i b :
  parse_args args = Ok cfg →
  Forall (λ oks : list bool, length oks = length (backends cfg)) rounds →
  (health_run (fail_threshold cfg) (backends cfg) rounds).1.1 !! i = Some b →
  healthy b = true ↔ recently_ok (fail_threshold cfg) (outcomes rounds i).
Proof.
  intros Hc Hall Hb. apply parse_args_inv in Hc as ((_ & Hr & _) & _ & Hpos & _).
  unfold health_run, initial_health in Hb.
  destruct (decide (i < length (backends cfg))%nat) as [Hi|Hi].
  - destruct (lookup_lt_is_Some_2 _ _ Hi) as [spec Hspec].
    rewrite (health_loop_health _ _ _ _ _ _ (mkHealth false 0)) in Hb;
      [|by rewrite length_fmap|done|by rewrite list_lookup_fmap, Hspec].
    injection Hb as <-. apply health_fold. lia.
  - exfalso. apply lookup_lt_Some in Hb.
    assert (∀ rounds bs er, Forall (λ oks : list bool, length oks = length (backends cfg)) rounds →
      length bs = length (backends cfg) →
      length (health_loop (fail_threshold cfg) (backends cfg) rounds bs er).1.1
      = length (backends cfg)) as Hlen.
    { clear. intros rounds. induction rounds as [|oks rounds IH]; intros bs er Hall Hl; [done|].
      inversion Hall; subst. cbn [health_loop].
      pose proof (probe_round_notify (fail_threshold cfg) (backends cfg) oks bs er) as Hr.
      destruct (probe_round _ _ _ _ _) as [[bs' er'] ev].
      destruct Hr as (Hl' & _); [congruence..|].
      specialize (IH bs' er'). destruct (health_loop _ _ _ _ _) as [[? ?] ?]. simpl in *.
      apply IH; [done|congruence]. }
    rewrite Hlen in Hb; [done|done|by rewrite length_fmap].
Qed.

Lemma health_policy_witness :
  ∃ cfg, parse_args demo_args = Ok cfg
    ∧ (∀ b, (health_run (fail_threshold cfg) (backends cfg)
               [[true; false; true]; [false; false; true]; [false; true; true]]).1.1 !! 0%nat = Some b →
         healthy b = true ↔ recently_ok 2 [true; false; false])
    ∧ healthy <$> (health_run (fail_threshold cfg) (backends cfg)
         [[true; false; true]; [false; false; true]; [false; true; true]]).1.1 = [false; true; true].
Proof.
  destruct (parse_args demo_args) as [cfg|e] eqn:E; [|by vm_compute in E].
  exists cfg. split; [done|]. pose proof E as E'. vm_compute in E'. injection E' as Ecfg.
  split; [|by subst cfg; vm_compute]. intros b Hb.
  pose proof (health_policy demo_args cfg
    [[true; false; true]; [false; false; true]; [false; true; true]] 0 b E) as H.
  subst cfg. apply H; [|exact Hb]. by repeat constructor.
Defined.

(** Readiness is reported exactly once, and only if some backend has
    answered a probe: the loop sends READY=1 once when any probe of the run
    succeeded and never otherwise. *)
Theorem ready_once threshold specs rounds :
  Forall (λ oks : list bool, length oks = length specs) rounds →
  let '(_, _, evs) := health_run threshold specs rounds in
  length (filter is_notify evs) = if any_ok rounds then 1%nat else 0%nat.
Proof.
  intros Hall. unfold health_run.
  pose proof (health_loop_notify threshold specs rounds (initial_health specs) false) as H.
  destruct (health_loop _ _ _ _ _) as [[bs er] evs].
  destruct H as [_ ->]; [by unfold initial_health; rewrite length_fmap|done|].
  unfold notify_count. by destruct (any_ok rounds).
Qed.

Lemma ready_once_witness :
  (health_run 2 [$"a"; $"b"] [[false; false]; [false; true]; [true; true]]).2
    = [Readmit $"b"; NotifyReady; Ready $"b"; Readmit $"a"]
  ∧ length (filter is_notify (health_run 2 [$"a"; $"b"]
      [[false; false]; [false; true]; [true; true]]).2) = 1%nat.
Proof.
  split; [by vm_compute|].
  assert (Forall (λ oks : list bool, length oks = length [$"a"; $"b"])
            [[false; false]; [false; true]; [true; true]]) as Hf by by repeat constructor.
  pose proof (ready_once 2 [$"a"; $"b"] _ Hf) as H.
  destruct (health_run _ _ _) as [[bs er] evs]. exact H.
Defined.

(** One direction of a connection forwards what it reads, in order,
    until the first end of file, read error, failed write or poll tick past
    the drain deadline, and then propagates the close to both sides; a poll
    tick before the deadline never ends it. *)
Theorem pump_spec pre r post :
  Forall (λ x, continues x = true) pre → continues r = false →
  pump (pre ++ r :: post) = ((pre ≫= data_of) ++ data_of r, end_of r, [ShutDstWrite; ShutSrcRead])
  ∧ pump pre = (pre ≫= data_of, PumpRunning, []).
Proof.
  intros Hpre Hr. unfold pump.
  assert (pump_loop (pre ++ r :: post) = ((pre ≫= data_of) ++ data_of r, end_of r)
          ∧ pump_loop pre = (pre ≫= data_of, PumpRunning)) as [-> ->].
  { induction Hpre as [|x pre Hx _ [IH1 IH2]]; simpl.
    - split; [|done]. destruct r as [|d []|[]|]; done.
    - rewrite IH1, IH2. destruct x as [|d []|[]|]; done. }
  split; [|done]. by destruct r as [|d []|[]|].
Qed.

Lemma pump_spec_witness :
  pump [ReadPoll false; ReadData $"ab" true; ReadPoll false; ReadData $"c" true; ReadEof; ReadPoll true]
  = ([$"ab"; $"c"], PumpEof, [ShutDstWrite; ShutSrcRead]).
Proof.
  apply (pump_spec [ReadPoll false; ReadData $"ab" true; ReadPoll false; ReadData $"c" true]
           ReadEof [ReadPoll true]); [by repeat constructor|done].
Defined.

(** Drain.  Whatever the interleaving of accepts, finished connections,
    signals and clock ticks, the process exits only after a drain signal, and
    then only with no connection in flight or with the drain timeout passed
    since the drain began; once draining nothing more is accepted; and a
    drain with nothing in flight, or past its deadline, can exit at once. *)
Theorem lb_drain_spec timeout y :
  0 ≤ timeout → lb_run timeout lb_init y → Z.of_nat (lb_live y) ≤ u64_max →
  lb_active y = Z.of_nat (lb_live y)
  ∧ (lb_phase y = Exited →
      lb_flag y = true
      ∧ (lb_live y = 0%nat ∨ Z.min (lb_drain_start y + timeout) u64_max ≤ lb_elapsed y))
  ∧ (lb_phase y = Draining →
      (∀ y', lb_run timeout y y' → (lb_live y' ≤ lb_live y)%nat)
      ∧ (lb_live y = 0%nat ∨ Z.min (lb_drain_start y + timeout) u64_max ≤ lb_elapsed y →
         ∃ y', lb_step timeout y y' ∧ lb_phase y' = Exited)).
Proof.
  intros Ht Hr Hlive. pose proof (lb_run_ok timeout y Ht Hr) as (Ha & He & Hp).
  unfold u64_max in Hlive. rewrite wrap_unsigned_small in Ha by lia. split; [done|]. split.
  - intros E. rewrite E in Hp. destruct Hp as (Hf & _ & [?|?]); split; try done; [left; lia|by right].
  - intros E. split.
    + intros y' Hrun. assert (lb_phase y = Draining ∨ lb_phase y = Exited) as Hph by by left.
      clear - Hrun Hph. induction Hrun as [|y1 y2 y3 Hs _ IH]; [done|].
      destruct (drain_step _ _ _ Hs Hph) as [Hph' ?]. specialize (IH Hph'). lia.
    + intros Hend. rewrite E in Hp. destruct y as [p f a n d e ds]. simpl in *. subst p.
      destruct Hp as (-> & -> & _). eexists. split; [apply lb_exit|done]. unfold drain_expired. simpl.
      intros [Hpos Hexp]. zbool. lia.
Qed.

Lemma lb_drain_spec_witness :
  let y := mkLb Exited true 0 0 300 100 100 in
  lb_flag y = true ∧ (lb_live y = 0%nat ∨ 300 ≤ lb_elapsed y).
Proof.
  intros y. refine (proj1 (proj2 (lb_drain_spec 200 y _ _ _)) eq_refl); [done| |done].
  eapply rtc_l; [apply lb_enter|]. eapply rtc_l; [apply lb_accept|].
  eapply rtc_l; [apply (lb_tick _ _ _ _ _ _ _ _ 100); unfold u64_max; lia|].
  eapply rtc_l; [apply lb_signal|]. eapply rtc_l; [apply lb_drain|].
  eapply rtc_l; [by apply lb_finish|]. eapply rtc_l; [apply lb_exit|].
  - vm_compute. by intros [? _].
  - apply rtc_refl.
Defined.
