(* ===== verification/LbProbe.v ===== *)
(** * The load balancer's probes and start ([rust/kubenyx-lb/src/lib.rs])

    Name resolution and the start of a run, the probe of one backend, the
    client certificate that may appear while the process runs, and the probe
    loop over rounds of probes, which the theorems tie to [Lb.v]'s
    policy.  The files a round finds, what each connection met and the
    resolver are inputs. *)

From S2P Require Import Prelude Text Notify Tls Lb LbSpec.

(** ** Backends and policy *)

Record Backend := mkBackend { b_spec : text; b_host : text; b_addr : text }.

(** [resolve spec] is what [to_socket_addrs] returned. *)
Definition resolve_backend (resolve : text → result text (list text)) (spec : text) : result text Backend :=
  let? addrs := map_err (λ e, $"resolve backend " ++ spec ++ $": " ++ e) (resolve spec) in
  let? addr := of_option ($"backend " ++ spec ++ $" resolved to no address") (head addrs) in
  Ok (mkBackend spec (backend_host spec) addr).

Record ProbePolicy := mkPolicy {
  pp_interval : Z; pp_threshold : Z; pp_http : bool; pp_client_cert : option (text * text) }.

Definition policy_of (cfg : Cfg) : ProbePolicy :=
  mkPolicy (probe_interval cfg) (fail_threshold cfg) (probe_http cfg)
    (c ← probe_cert cfg; k ← probe_key cfg; Some (c, k)).

(** [run] up to the threads: configuration, backends, the listener.  [bind] is
    what [TcpListener::bind] and the calls on the listener returned: the local
    address. *)
Definition lb_start (args : list text) (resolve : text → result text (list text))
    (bind : text → result text text) : result text (Cfg * list Backend * text) :=
  let? cfg := parse_args args in
  let? bs := collect (resolve_backend resolve <$> backends cfg) in
  let? local := map_err (λ e, $"bind " ++ listen cfg ++ $": " ++ e) (bind (listen cfg)) in
  Ok (cfg, bs, local).

(** ** One probe *)

Section probes.
Context `{L : !TlsLib}.

(** [tls_probe_config]: with a client certificate, nothing until both files
    are there and parse. *)
Definition tls_probe_config (read : text → option bytes) (client_cert : option (text * text))
    : option ClientConfig :=
  match client_cert with
  | None => Some (insecure_client_builder None)
  | Some (cert_path, key_path) =>
      cert_data ← read cert_path;
      certs ← ok (collect (pem_certs cert_data));
      if decide (certs = []) then None
      else
        key_data ← read key_path;
        key ← pem_key key_data;
        _u ← ok (client_auth certs key);
        Some (insecure_client_builder (Some (certs, key)))
  end.

(** [probe]; a host that cannot be a server's name counts as a failure. *)
Definition probe (b : Backend) (tls : option ClientConfig) (w : Wire) : bool :=
  match tls with
  | Some config => default false (ok (exchange_tls (E:=text) config (b_host b) (Ok false) w status_200))
  | None => exchange_plain w status_200
  end.

(** ** The loop *)

(** A round: the files as it finds them, what each probe met, and whether the
    drain flag was up at its end. *)
Record Round := mkRound { rd_files : text → option bytes; rd_wires : list Wire; rd_draining : bool }.

(** The load at the head of a round: tried until it succeeds. *)
Definition load_cert (pol : ProbePolicy) (read : text → option bytes) (with_cert : option ClientConfig)
    : option ClientConfig :=
  if pp_http pol then with_cert
  else match with_cert, pp_client_cert pol with
       | None, Some ck => tls_probe_config read (Some ck)
       | _, _ => with_cert
       end.

(** [with_cert.as_ref().or(base.as_ref())]. *)
Definition round_tls (pol : ProbePolicy) (with_cert : option ClientConfig) : option ClientConfig :=
  match with_cert with
  | Some c => Some c
  | None => if pp_http pol then None else tls_probe_config (λ _, None) None
  end.

Fixpoint health_task (pol : ProbePolicy) (bs : list Backend) (rounds : list Round)
    (with_cert : option ClientConfig) (hs : list BackendHealth) (ever_ready : bool)
    : list BackendHealth * bool * list LbEvent :=
  match rounds with
  | [] => (hs, ever_ready, [])
  | r :: rounds =>
      let with_cert := load_cert pol (rd_files r) with_cert in
      let oks := zip_with (λ b w, probe b (round_tls pol with_cert) w) bs (rd_wires r) in
      let '(hs, er, ev) := probe_round (pp_threshold pol) (b_spec <$> bs) oks hs ever_ready in
      if rd_draining r then (hs, er, ev)
      else
        let '(hs, er, evs) := health_task pol bs rounds with_cert hs er in
        (hs, er, ev ++ evs)
  end.

(** ** Specifications *)

(** The rounds that take place: up to the first that ends draining. *)
Fixpoint held (rounds : list Round) : list Round :=
  match rounds with
  | [] => []
  | r :: rounds => r :: if rd_draining r then [] else held rounds
  end.

(** The client certificate a round would load. *)
Definition loadable (pol : ProbePolicy) (r : Round) : option ClientConfig :=
  ck ← pp_client_cert pol; tls_probe_config (rd_files r) (Some ck).

(** What the [k]-th round's probes are made with: nothing over plain HTTP, else
    the first certificate loaded so far, else anonymously. *)
Definition credentials (pol : ProbePolicy) (rounds : list Round) (k : nat) : option ClientConfig :=
  if pp_http pol then None
  else Some (default (insecure_client_builder None) (head (omap (loadable pol) (take (S k) rounds)))).

(** The outcomes of the [k]-th round. *)
Definition round_oks (pol : ProbePolicy) (bs : list Backend) (rounds : list Round) (k : nat) (r : Round) : list bool :=
  zip_with (λ b w, probe b (credentials pol rounds k) w) bs (rd_wires r).

(** The datagrams the log of a run stands for. *)
Definition ready_sent (notify_socket : option text) (unbound : bool) (evs : list LbEvent) : list NotifyAddr :=
  omap (λ e, if decide (is_notify e) then sd_notify_ready notify_socket unbound else None) evs.

(** ** Lemmas *)

Definition loaded (pol : ProbePolicy) (seen : list Round) : option ClientConfig :=
  if pp_http pol then None else head (omap (loadable pol) seen).

Lemma load_cert_loaded pol seen r :
  load_cert pol (rd_files r) (loaded pol seen) = loaded pol (seen ++ [r]).
Proof.
  unfold load_cert, loaded. destruct (pp_http pol); [done|]. rewrite omap_app.
  destruct (omap (loadable pol) seen) as [|c cs] eqn:E; [|done]. cbn [head app omap list_omap].
  unfold loadable. destruct (pp_client_cert pol) as [ck|]; [|done]. cbn [mbind option_bind].
  by destruct (tls_probe_config _ _).
Qed.

Lemma round_tls_loaded pol seen : round_tls pol (loaded pol seen)
  = if pp_http pol then None else Some (default (insecure_client_builder None) (head (omap (loadable pol) seen))).
Proof. unfold round_tls, loaded. destruct (pp_http pol); [done|]. by destruct (head _). Qed.

Lemma health_task_from pol bs rounds seen hs er :
  health_task pol bs rounds (loaded pol seen) hs er
  = health_loop (pp_threshold pol) (b_spec <$> bs)
      (imap (λ k r, round_oks pol bs (seen ++ rounds) (length seen + k) r) (held rounds)) hs er.
Proof.
  revert seen hs er. induction rounds as [|r rounds IH]; intros seen hs er; [done|].
  cbn [health_task held imap health_loop]. rewrite load_cert_loaded.
  assert (round_oks pol bs (seen ++ r :: rounds) (length seen + 0) r
    = zip_with (λ b w, probe b (round_tls pol (loaded pol (seen ++ [r]))) w) bs (rd_wires r)) as ->.
  { unfold round_oks, credentials. rewrite round_tls_loaded, Nat.add_0_r.
    replace (take (S (length seen)) (seen ++ r :: rounds)) with (seen ++ [r]); [done|].
    change (r :: rounds) with ([r] ++ rounds). rewrite (app_assoc seen), take_app_length'; [done|].
    rewrite length_app. simpl. lia. }
  destruct (probe_round _ _ _ _ _) as [[hs' er'] ev].
  destruct (rd_draining r); [cbn [imap health_loop]; by rewrite app_nil_r|]. rewrite IH.
  assert (∀ l, imap (λ k r0, round_oks pol bs ((seen ++ [r]) ++ rounds) (length (seen ++ [r]) + k) r0) l
    = imap ((λ k r0, round_oks pol bs (seen ++ r :: rounds) (length seen + k) r0) ∘ S) l) as ->; [|done].
  intros l. apply imap_ext. intros k r0 _. cbn [compose]. rewrite <- app_assoc, length_app.
  cbn [app length]. by replace (length seen + 1 + k)%nat with (length seen + S k)%nat by lia.
Qed.

Lemma probes_refine pol bs rounds :
  health_task pol bs rounds None (initial_health (b_spec <$> bs)) false
  = health_run (pp_threshold pol) (b_spec <$> bs) (imap (round_oks pol bs rounds) (held rounds)).
Proof.
  pose proof (health_task_from pol bs rounds [] (initial_health (b_spec <$> bs)) false) as H.
  unfold loaded in H. cbn [omap list_omap head app length] in H.
  replace (if pp_http pol then None else None) with (@None ClientConfig) in H by (by destruct (pp_http pol)).
  exact H.
Qed.

Lemma ready_sent_count ns ub evs :
  ready_sent ns ub evs = match sd_notify_ready ns ub with
                         | Some a => replicate (length (filter is_notify evs)) a
                         | None => []
                         end.
Proof.
  unfold ready_sent. induction evs as [|e evs IH]; [by destruct (sd_notify_ready ns ub)|].
  rewrite filter_cons. cbn [omap list_omap]. unfold ready_sent in IH. rewrite IH.
  destruct (decide (is_notify e)), (sd_notify_ready ns ub); done.
Qed.

Lemma held_incl rounds r : r ∈ held rounds → r ∈ rounds.
Proof.
  induction rounds as [|x rounds IH]; [done|]. cbn [held]. rewrite !elem_of_cons. intros [->|H]; [by left|].
  right. destruct (rd_draining x); [by apply not_elem_of_nil in H|auto].
Qed.

(** One datagram in the life of a balancer, at the first success of a probe,
    and none if there is no success, or nobody to tell. *)
Lemma lb_ready_once ns ub pol bs rounds :
  Forall (λ r, length (rd_wires r) = length bs) rounds →
  ready_sent ns ub (health_task pol bs rounds None (initial_health (b_spec <$> bs)) false).2
  = match sd_notify_ready ns ub with
    | Some a => if any_ok (imap (round_oks pol bs rounds) (held rounds)) then [a] else []
    | None => []
    end.
Proof.
  intros Hw. rewrite ready_sent_count. destruct (sd_notify_ready ns ub) as [a|]; [|done].
  rewrite probes_refine. unfold health_run.
  pose proof (health_loop_notify (pp_threshold pol) (b_spec <$> bs) (imap (round_oks pol bs rounds) (held rounds))
    (initial_health (b_spec <$> bs)) false) as H.
  destruct (health_loop _ _ _ _ _) as [[hs er] evs]. cbn [snd]. destruct H as [_ ->].
  - unfold initial_health. by rewrite !length_fmap.
  - apply Forall_forall. intros oks (k & r & -> & Hr)%elem_of_lookup_imap.
    apply list_elem_of_lookup_2, held_incl in Hr. rewrite Forall_forall in Hw.
    unfold round_oks. rewrite length_zip_with, Hw, length_fmap by done. lia.
  - unfold notify_count. by destruct (any_ok _).
Qed.
End probes.

(** ** Theorems *)

(** C29: what an accepted start gives.  There is at least one backend, one for
    each [--backend] in order, each with an address; the threshold is at least
    one and every number fits its width; a client certificate comes with its
    key; and so every connection has a dial order, which names every backend
    once and nothing else, whatever the cursor. *)
Theorem lb_start_wf args resolve bind cfg bs local :
  lb_start args resolve bind = Ok (cfg, bs, local) →
  bs ≠ [] ∧ b_spec <$> bs = backends cfg
  ∧ Forall (λ b, ∃ addrs, resolve (b_spec b) = Ok (b_addr b :: addrs) ∧ b_host b = backend_host (b_spec b)) bs
  ∧ cfg_in_range cfg ∧ 0 < fail_threshold cfg
  ∧ (is_Some (pp_client_cert (policy_of cfg)) ↔ is_Some (probe_cert cfg) ∨ is_Some (probe_key cfg))
  ∧ ∀ health cursor, length health = length bs → 0 ≤ cursor →
      pick_order health (Z.to_nat (cursor mod Z.of_nat (length bs))) ≡ₚ seq 0 (length bs)
      ∧ (Z.to_nat (cursor mod Z.of_nat (length bs)) < length bs)%nat.
Proof.
  unfold lb_start. destruct (parse_args args) as [c|] eqn:Ec; [|done]. cbn [result_bind].
  destruct (collect _) as [bs'|] eqn:Eb; [|done]. cbn [result_bind]. intros H.
  assert (c = cfg ∧ bs' = bs) as [-> ->] by (destruct (bind _); simplify_eq/=; done). clear H.
  apply parse_args_inv in Ec as (Hr & Hne & Hpos & Hcert). apply collect_inv in Eb.
  assert (Forall2 (λ spec b, resolve_backend resolve spec = Ok b) (backends cfg) bs) as Hf.
  { clear -Eb. revert bs Eb. generalize (backends cfg). intros specs. induction specs as [|sp specs IH];
      intros [|b bs] Eb; simplify_eq/=; constructor; auto. }
  assert (Forall2 (λ spec b, b_spec b = spec ∧ ∃ addrs, resolve spec = Ok (b_addr b :: addrs)
                              ∧ b_host b = backend_host spec) (backends cfg) bs) as Hf'.
  { eapply Forall2_impl; [exact Hf|]. intros spec b. unfold resolve_backend.
    destruct (resolve spec) as [[|a addrs]|]; intros; simplify_eq/=; eauto. }
  pose proof (Forall2_length _ _ _ Hf) as Hlen.
  assert (b_spec <$> bs = backends cfg) as Hspec.
  { clear -Hf'. induction Hf' as [|spec b specs bs [Hs _] _ IH]; [done|]. rewrite fmap_cons. by f_equal. }
  assert (bs ≠ []) as Hne' by (destruct bs; [by destruct (backends cfg)|done]).
  split_and!; [done|done| |done|done| |].
  - clear -Hf'. induction Hf' as [|spec b specs bs [<- Hs] _ IH]; by constructor.
  - cbn [policy_of pp_client_cert]. destruct (probe_cert cfg) as [x|], (probe_key cfg) as [y|]; cbn; naive_solver.
  - intros health cursor Hl Hc. assert (0 < length bs)%nat by (destruct bs; [done|simpl; lia]).
    split; [rewrite <- Hl; apply pick_order_perm|].
    pose proof (Z.mod_pos_bound cursor (Z.of_nat (length bs)) ltac:(lia)). lia.
Qed.

(** C28: the probe loop is the policy over the answers.  With whatever files and
    connections it meets, the loop evicts, readmits and reports as the pure
    policy does on the outcomes of its rounds, up to the round that ends
    draining; and each round's probes are made with the first certificate
    that a round so far could load, anonymously until then, or in plain HTTP
    when asked: a certificate once loaded is never given up. *)
Theorem health_task_refines `{L : TlsLib} pol bs rounds :
  health_task pol bs rounds None (initial_health (b_spec <$> bs)) false
  = health_run (pp_threshold pol) (b_spec <$> bs) (imap (round_oks pol bs rounds) (held rounds)).
Proof. apply probes_refine. Qed.

(** ** Witnesses *)

Lemma lb_start_wf_witness :
  let resolve spec := Ok [$"192.0.2.1:6443"] in
  let args := [$"--backend"; $"[fd00::1]:6443"; $"--backend"; $"b:6443"] in
  ∃ cfg bs, lb_start args resolve Ok = Ok (cfg, bs, $"127.0.0.1:6444")
    ∧ bs ≠ [] ∧ b_host <$> bs = [$"fd00::1"; $"b"]
    ∧ pick_order [false; true] (Z.to_nat (7 mod 2)) ≡ₚ [0; 1]%nat.
Proof.
  intros resolve args.
  assert (∃ cfg bs, lb_start args resolve Ok = Ok (cfg, bs, $"127.0.0.1:6444")
    ∧ b_host <$> bs = [$"fd00::1"; $"b"]) as (cfg & bs & E & Hh).
  { eexists _, _. split; [by vm_compute|reflexivity]. }
  exists cfg, bs. destruct (lb_start_wf args resolve Ok cfg bs _ E) as (Hne & _ & _ & _ & _ & _ & Hp).
  assert (length bs = 2)%nat as Hl by (by rewrite <- (length_fmap b_host bs), Hh).
  split; [exact E|]. split; [exact Hne|]. split; [exact Hh|].
  rewrite Hl in Hp. apply (Hp [false; true] 7); [reflexivity|lia].
Defined.

(** Anonymous until the certificate lands, then with it, even when it is gone
    again. *)
#[local] Instance toy_probe : TlsLib := {
  b64_decode t := Ok t; pem_certs b := [Ok b]; pem_key b := Some b; root_ok _ := Ok tt; client_auth _ _ := Ok tt;
  server_name _ := true; chain_ok _ _ _ := false;
  tls12_signature _ _ _ := true; tls13_signature _ _ _ := true }.

Example credentials_late :
  let pol := mkPolicy 500 3 false (Some ($"c", $"k")) in
  let rounds := [mkRound (λ _, None) [] false; mkRound Some [] false; mkRound (λ _, None) [] true] in
  (λ k, (credentials pol rounds k) ≫= cc_client) <$> [0; 1; 2]%nat
  = [None; Some ([$"c"], $"k"); Some ([$"c"], $"k")].
Proof. by vm_compute. Qed.
