(* ===== verification/Clockstep.v ===== *)
(** * Clock correction after a restore

    The daemon [rust/kubenyx-clockstep/src/lib.rs] and the sender of its
    datagrams, [send_time_pokes] of [rust/kubenyx-snap/src/lib.rs].  The
    socket, the system clock and the console are outside: a datagram with its
    source, the reading of [clock_gettime] and the result of [clock_settime]
    are inputs. *)

From S2P Require Import Prelude Text.

(** ** Little-endian integers *)

(** [z.to_le_bytes()] for an [n]-byte integer, and [from_le_bytes]. *)
Fixpoint le_bytes (n : nat) (z : Z) : bytes :=
  match n with
  | O => []
  | S n => Z.to_N (z mod 256) :: le_bytes n (z / 256)
  end.

Fixpoint le_value (bs : bytes) : Z :=
  match bs with [] => 0 | b :: bs => Z.of_N b + 256 * le_value bs end.

Definition i64_from_le (bs : bytes) : Z := wrap_i64 (le_value bs).
Definition i32_from_le (bs : bytes) : Z := wrap_i32 (le_value bs).

(** ** The datagram *)

Definition MAGIC : bytes := $"KNXT1".

(** One packet of [send_time_pokes], from [SystemTime::now()] since the epoch
    ([as_secs] is a [u64], [subsec_nanos] a [u32]). *)
Definition poke_packet (secs nanos : Z) : bytes :=
  MAGIC ++ le_bytes 8 (wrap_i64 secs) ++ le_bytes 4 (wrap_i32 nanos).

(** [send_time_pokes]: [count] packets, the clock read before each. *)
Definition send_time_pokes (clock : nat → Z * Z) (count : nat) : list bytes :=
  (λ i, let '(secs, nanos) := clock i in poke_packet secs nanos) <$> seq 0 count.

(** ** The daemon *)

Record StepCfg := mkStepCfg { sc_listen : text; sc_allow_from : option text; sc_min_step_ms : Z }.

Definition StepCfg_default : StepCfg := mkStepCfg $"0.0.0.0:10123" None 500.

(** The argument loop; an error is the message [die] prints before exit 2. *)
Fixpoint step_args (args : list text) (cfg : StepCfg) : result text StepCfg :=
  match args with
  | [] => Ok cfg
  | flag :: rest =>
      if decide (flag = $"--listen") then
        match rest with
        | v :: rest => step_args rest (mkStepCfg v (sc_allow_from cfg) (sc_min_step_ms cfg))
        | [] => Err $"--listen needs a value"
        end
      else if decide (flag = $"--allow-from") then
        match rest with
        | v :: rest => step_args rest (mkStepCfg (sc_listen cfg) (Some v) (sc_min_step_ms cfg))
        | [] => Err $"--allow-from needs a value"
        end
      else if decide (flag = $"--min-step-ms") then
        match rest with
        | v :: rest =>
            match parse_signed i64_min i64_max v with
            | Some x => step_args rest (mkStepCfg (sc_listen cfg) (sc_allow_from cfg) x)
            | None => Err $"--min-step-ms needs an integer"
            end
        | [] => Err $"--min-step-ms needs an integer"
        end
      else Err ($"unknown flag " ++ flag)
  end.

(** The checks on a received datagram, up to the time it carries: [buf] is
    what [recv_from] wrote into the 64-byte buffer. *)
Definition decode (cfg : StepCfg) (src_ip : text) (buf : bytes) : option (Z * Z) :=
  if (length buf <? 17)%nat || negb (bool_decide (take 5 buf = MAGIC)) then None
  else if match sc_allow_from cfg with Some allow => negb (bool_decide (src_ip = allow)) | None => false end
  then None
  else
    let sec := i64_from_le (take 8 (drop 5 buf)) in
    let nsec := i32_from_le (take 4 (drop 13 buf)) in
    if negb ((0 <=? nsec) && (nsec <? 1000000000)) || (sec <=? 0) then None
    else Some (sec, nsec).

(** [(sec - now.tv_sec) * 1000 + (nsec - now.tv_nsec) / 1_000_000] in [i64]. *)
Definition delta_ms (sec nsec now_sec now_nsec : Z) : Z :=
  wrap_i64 (wrap_i64 (wrap_i64 (sec - now_sec) * 1000)
            + Z.quot (wrap_i64 (nsec - now_nsec)) 1000000).

(** [i64::abs], which wraps at the minimum. *)
Definition abs_i64 (z : Z) : Z := wrap_i64 (Z.abs z).

(** One turn of the loop: the argument of [clock_settime], if it is called. *)
Definition on_datagram (cfg : StepCfg) (src_ip : text) (datagram : bytes) (now_sec now_nsec : Z)
    : option (Z * Z) :=
  let buf := take 64 datagram in
  match decode cfg src_ip buf with
  | None => None
  | Some (sec, nsec) =>
      if abs_i64 (delta_ms sec nsec now_sec now_nsec) <? sc_min_step_ms cfg then None
      else Some (sec, nsec)
  end.

(** The console line of a turn that called [clock_settime], given its result:
    [Ok] on success, the error's text otherwise. *)
Definition step_log (delta : Z) (from : text) (rc : result text unit) : text :=
  match rc with
  | Ok _ => $"KUBENYX-CLOCKSTEP stepped=" ++ fmt_dec delta ++ $"ms from=" ++ from
  | Err e => $"KUBENYX-CLOCKSTEP failed delta=" ++ fmt_dec delta ++ $"ms errno=" ++ e
  end.

(** The daemon over the datagrams it receives, each at a number of
    nanoseconds after the previous one: the clock it leaves.  [clock_settime]
    succeeds, and the clock runs on between datagrams. *)
Definition clock_ns (c : Z * Z) : Z := c.1 * 1000000000 + c.2.
Definition ns_clock (ns : Z) : Z * Z := (ns / 1000000000, ns mod 1000000000).

Definition daemon_turn (cfg : StepCfg) (clock : Z) (d : Z * (text * bytes)) : Z :=
  let '(elapsed, (src_ip, datagram)) := d in
  let now := ns_clock (clock + elapsed) in
  match on_datagram cfg src_ip datagram now.1 now.2 with
  | Some t => clock_ns t
  | None => clock + elapsed
  end.

Definition daemon (cfg : StepCfg) (clock : Z) (ds : list (Z * (text * bytes))) : Z :=
  foldl (daemon_turn cfg) clock ds.

(** The source passes the address filter. *)
Definition allowed (cfg : StepCfg) (src_ip : text) : Prop :=
  match sc_allow_from cfg with Some allow => src_ip = allow | None => True end.

(** A time the protocol carries and the arithmetic handles: a positive number
    of seconds below 2^53. *)
Definition sane_time (sec nsec : Z) : Prop := 0 < sec < 2 ^ 53 ∧ 0 ≤ nsec < 1000000000.

(** The offset of the carried time from the clock, in nanoseconds. *)
Definition offset_ns (sec nsec now_sec now_nsec : Z) : Z :=
  clock_ns (sec, nsec) - clock_ns (now_sec, now_nsec).

(** The pokes a host whose clock reads [host] sends to one source's peer, the
    gaps between them given; each arrives as it is sent. *)
Fixpoint host_pokes (src_ip : text) (host : Z) (gaps : list Z) : list (Z * (text * bytes)) :=
  match gaps with
  | [] => []
  | g :: gaps =>
      (g, (src_ip, poke_packet (ns_clock (host + g)).1 (ns_clock (host + g)).2))
      :: host_pokes src_ip (host + g) gaps
  end.

Definition total (gaps : list Z) : Z := foldr Z.add 0 gaps.

(** A clock reading, in nanoseconds, whose seconds are positive and below
    2^53. *)
Definition sane_ns (ns : Z) : Prop := 1000000000 ≤ ns < 2 ^ 53 * 1000000000.

(** ** Helper lemmas *)

Lemma length_le_bytes n z : length (le_bytes n z) = n.
Proof. revert z. induction n as [|n IH]; intros z; simpl; [done|]. by rewrite IH. Qed.

Lemma le_value_bytes n z : le_value (le_bytes n z) = z mod 2 ^ (8 * Z.of_nat n).
Proof.
  revert z. induction n as [|n IH]; intros z; cbn [le_bytes le_value]; [by rewrite Z.mod_1_r|].
  rewrite IH, Z2N.id by (apply Z.mod_pos_bound; lia).
  replace (2 ^ (8 * Z.of_nat (S n))) with (256 * 2 ^ (8 * Z.of_nat n)).
  2:{ rewrite Nat2Z.inj_succ, Z.mul_succ_r, Z.pow_add_r by lia. lia. }
  rewrite Z.rem_mul_r by lia. lia.
Qed.

Lemma wrap_signed_mod w z : 0 < w → wrap_signed w (z mod 2 ^ w) = wrap_signed w z.
Proof. intros Hw. unfold wrap_signed. by rewrite Zplus_mod_idemp_l. Qed.

Lemma poke_fields secs nanos :
  take 5 (poke_packet secs nanos) = MAGIC
  ∧ take 8 (drop 5 (poke_packet secs nanos)) = le_bytes 8 (wrap_i64 secs)
  ∧ take 4 (drop 13 (poke_packet secs nanos)) = le_bytes 4 (wrap_i32 nanos).
Proof. done. Qed.

Lemma decode_poke cfg src_ip secs nanos :
  allowed cfg src_ip → 0 < secs < 2 ^ 63 → 0 ≤ nanos < 1000000000 →
  decode cfg src_ip (take 64 (poke_packet secs nanos)) = Some (secs, nanos).
Proof.
  intros Ha Hs Hn. rewrite take_ge by (unfold poke_packet; simpl; lia).
  unfold decode. destruct (poke_fields secs nanos) as (-> & -> & ->).
  unfold i64_from_le, i32_from_le. rewrite !le_value_bytes.
  change (8 * Z.of_nat 8) with 64. change (8 * Z.of_nat 4) with 32.
  rewrite !wrap_signed_mod by lia. rewrite !wrap_signed_small by (rewrite ?wrap_signed_small; lia).
  rewrite bool_decide_eq_true_2 by done. simpl.
  unfold allowed in Ha. destruct (sc_allow_from cfg).
  - rewrite bool_decide_eq_true_2 by done. simpl.
    rewrite (proj2 (Z.leb_le _ _)), (proj2 (Z.ltb_lt _ _)), (proj2 (Z.leb_gt _ _)) by lia. done.
  - rewrite (proj2 (Z.leb_le _ _)), (proj2 (Z.ltb_lt _ _)), (proj2 (Z.leb_gt _ _)) by lia. done.
Qed.

(** Without overflow the offset in milliseconds is the exact offset up to the
    truncated part of a millisecond. *)
Lemma delta_ms_exact sec nsec now_sec now_nsec :
  sane_time sec nsec → sane_time now_sec now_nsec →
  let d := delta_ms sec nsec now_sec now_nsec in
  - 2 ^ 63 < d < 2 ^ 63
  ∧ Z.abs (offset_ns sec nsec now_sec now_nsec - d * 1000000) < 1000000.
Proof.
  intros [? ?] [? ?]. unfold delta_ms, offset_ns, clock_ns. simpl.
  rewrite !(wrap_signed_small 64 (sec - now_sec)), !(wrap_signed_small 64 (nsec - now_nsec)) by lia.
  rewrite !(wrap_signed_small 64 (_ * 1000)) by lia.
  pose proof (Z.quot_rem' (nsec - now_nsec) 1000000).
  pose proof (Z.rem_bound_abs (nsec - now_nsec) 1000000).
  rewrite wrap_signed_small by lia. split; lia.
Qed.

Lemma abs_i64_small z : - 2 ^ 63 < z < 2 ^ 63 → abs_i64 z = Z.abs z.
Proof. intros. unfold abs_i64. apply wrap_signed_small; lia. Qed.

Lemma ns_clock_ns ns : clock_ns (ns_clock ns) = ns.
Proof. unfold clock_ns, ns_clock. simpl. pose proof (Z.div_mod ns 1000000000). lia. Qed.

Lemma on_poke cfg src_ip sec nsec now_sec now_nsec :
  allowed cfg src_ip → sane_time sec nsec → sane_time now_sec now_nsec →
  on_datagram cfg src_ip (poke_packet sec nsec) now_sec now_nsec
  = if Z.abs (delta_ms sec nsec now_sec now_nsec) <? sc_min_step_ms cfg then None
    else Some (sec, nsec).
Proof.
  intros Ha Hs Hn. unfold on_datagram. destruct Hs as [? ?].
  rewrite decode_poke by (done || lia).
  rewrite abs_i64_small; [done|]. by apply delta_ms_exact.
Qed.

Lemma sane_ns_time ns : sane_ns ns → sane_time (ns_clock ns).1 (ns_clock ns).2.
Proof.
  intros [H1 H2]. unfold sane_time, ns_clock. simpl.
  pose proof (Z.div_mod ns 1000000000). pose proof (Z.mod_pos_bound ns 1000000000). lia.
Qed.

(** One poke sets the clock to the host's, or finds it within the threshold
    and leaves it. *)
Lemma poke_turn cfg src_ip clock host g :
  allowed cfg src_ip → 0 < sc_min_step_ms cfg → sane_ns (clock + g) → sane_ns (host + g) →
  let c := daemon_turn cfg clock
    (g, (src_ip, poke_packet (ns_clock (host + g)).1 (ns_clock (host + g)).2)) in
  c = host + g ∨ (c = clock + g ∧ Z.abs (clock - host) < sc_min_step_ms cfg * 1000000).
Proof.
  intros Ha Hpos Hc Hh. unfold daemon_turn.
  pose proof (sane_ns_time _ Hc) as Hc'. pose proof (sane_ns_time _ Hh) as Hh'.
  rewrite on_poke by done. destruct (delta_ms_exact _ _ _ _ Hh' Hc') as [_ Hd].
  set (d := delta_ms _ _ _ _) in *. unfold offset_ns in Hd.
  pose proof (ns_clock_ns (host + g)) as Eh. pose proof (ns_clock_ns (clock + g)) as Ec.
  rewrite <- !surjective_pairing, Eh, Ec in Hd.
  destruct (Z.ltb_spec (Z.abs d) (sc_min_step_ms cfg)); [right; split; [done|lia]|left; exact Eh].
Qed.

Lemma pokes_outcome cfg src_ip guest host gaps :
  allowed cfg src_ip → 0 < sc_min_step_ms cfg → gaps ≠ [] → Forall (λ g, 0 ≤ g) gaps →
  1000000000 ≤ guest → guest + total gaps < 2 ^ 53 * 1000000000 →
  1000000000 ≤ host → host + total gaps < 2 ^ 53 * 1000000000 →
  let c := daemon cfg guest (host_pokes src_ip host gaps) in
  c = host + total gaps
  ∨ (c = guest + total gaps ∧ Z.abs (guest - host) < sc_min_step_ms cfg * 1000000).
Proof.
  intros Ha Hpos Hne Hg. revert guest host.
  induction Hg as [|g gaps Hg0 Hg IH]; intros guest host Hg1 Hg2 Hh1 Hh2; [done|].
  assert (0 ≤ total gaps) by (clear - Hg; induction Hg; simpl; lia).
  cbn [host_pokes total foldr] in *. fold (total gaps) in *. unfold daemon. cbn [foldl].
  pose proof (poke_turn cfg src_ip guest host g Ha Hpos) as Hc.
  set (c := daemon_turn _ _ _) in *. simpl in Hc.
  destruct Hc as [Hc|[Hc Hnear]]; [split; lia|split; lia| |];
    (destruct gaps as [|g' gaps]; [simpl in *; lia|]);
    (destruct (IH ltac:(done) c (host + g)) as [IHc|[IHc ?]]; [lia..| |]);
    fold (daemon cfg c (host_pokes src_ip (host + g) (g' :: gaps))); rewrite IHc; lia.
Qed.

(** ** Theorems *)

(** Every datagram the host sends carries its clock to the daemon: it is
    17 bytes long and an allowed receiver decodes it to exactly the seconds
    and nanoseconds that were read, for any time after the epoch that an
    [i64] of seconds holds; from any other source it is ignored. *)
Theorem poke_roundtrip cfg src_ip secs nanos :
  0 < secs < 2 ^ 63 → 0 ≤ nanos < 1000000000 →
  length (poke_packet secs nanos) = 17%nat
  ∧ (allowed cfg src_ip → decode cfg src_ip (take 64 (poke_packet secs nanos)) = Some (secs, nanos))
  ∧ (¬ allowed cfg src_ip → decode cfg src_ip (take 64 (poke_packet secs nanos)) = None).
Proof.
  intros Hs Hn. split; [done|]. split; [intros; by apply decode_poke|].
  intros Hna. unfold decode. destruct (_ || _); [done|]. unfold allowed in Hna.
  destruct (sc_allow_from cfg); [|done]. by rewrite bool_decide_eq_false_2.
Qed.

Lemma poke_roundtrip_witness :
  decode StepCfg_default $"10.0.0.1" (take 64 (poke_packet 1700000000 123456789))
  = Some (1700000000, 123456789).
Proof. apply poke_roundtrip; done. Defined.

(** The step threshold.  For times below 2^53 seconds an allowed poke
    sets the clock to the carried time when the offset is at least the
    threshold, leaves it alone when the offset is less than the threshold
    minus a millisecond's truncation, and either way the clock ends within the
    threshold of the carried time. *)
Theorem poke_steps_clock cfg src_ip sec nsec now_sec now_nsec :
  allowed cfg src_ip → sane_time sec nsec → sane_time now_sec now_nsec → 0 < sc_min_step_ms cfg →
  let off := Z.abs (offset_ns sec nsec now_sec now_nsec) in
  let r := on_datagram cfg src_ip (poke_packet sec nsec) now_sec now_nsec in
  (sc_min_step_ms cfg * 1000000 ≤ off → r = Some (sec, nsec))
  ∧ (off ≤ (sc_min_step_ms cfg - 1) * 1000000 → r = None)
  ∧ (r = Some (sec, nsec) ∨ r = None ∧ off < sc_min_step_ms cfg * 1000000).
Proof.
  intros Ha Hs Hn Hpos off r. subst r. rewrite on_poke by done.
  destruct (delta_ms_exact _ _ _ _ Hs Hn) as [_ Hd]. fold off in Hd.
  set (d := delta_ms _ _ _ _) in *. unfold off in *.
  destruct (Z.ltb_spec (Z.abs d) (sc_min_step_ms cfg)); split_and!; intros; try done; try lia;
    (by left) || (right; split; [done|lia]).
Qed.

Lemma poke_steps_clock_witness :
  on_datagram StepCfg_default $"h" (poke_packet 1700000000 0) 1600000000 5 = Some (1700000000, 0).
Proof.
  refine (proj1 (poke_steps_clock StepCfg_default $"h" 1700000000 0 1600000000 5 _ _ _ _) _);
    unfold sane_time; simpl; done || (vm_compute; congruence).
Defined.


