(* ===== verification/Cli.v ===== *)
(** * The multicall binary and the server's command line

    Routing in [rust/kubenyx/src/main.rs] (which tool runs, with which
    arguments, and the process's exit code) and the argument loop and socket
    path of [rust/etcd-mem/src/lib.rs].  The tools themselves are a parameter
    of [run_verb] and [main]: a function from the argument tail to an exit
    code. *)

From S2P Require Import Prelude Text.

(** ** Definitions *)

Definition VERBS : list (text * text) :=
  [($"snap", $"kubenyx-snap"); ($"pki", $"kubenyx-pki"); ($"ready", $"kubenyx-ready");
   ($"clockstep", $"kubenyx-clockstep"); ($"lb", $"kubenyx-lb"); ($"etcd-mem", $"etcd-mem")].

(** [iter().find(p)]. *)
Fixpoint find_first {A} (p : A → bool) (l : list A) : option A :=
  match l with [] => None | x :: l => if p x then Some x else find_first p l end.

Definition verb_for_argv0 (basename : text) : option text :=
  fst <$> find_first (λ e : text * text, bool_decide (e.2 = basename)) VERBS.

Definition is_verb (word : text) : bool :=
  existsb (λ e : text * text, bool_decide (e.1 = word)) VERBS.

Definition usage : text :=
  $"usage: kubenyx <verb> [args...]" ++ [newline]
  ++ $"verbs: " ++ join $" | " (fst <$> VERBS) ++ [newline]
  ++ $"Also callable through the legacy names (" ++ join $", " (snd <$> VERBS) ++ $") via argv[0].".

Inductive Route :=
| Run (verb : text) (args : list text)
| Help
| Usage.

(** [argv0.rsplit('/').next().unwrap_or(argv0)]. *)
Definition basename (argv0 : text) : text := default argv0 (last (split (ch "/") argv0)).

Definition route (argv0 : text) (rest : list text) : Route :=
  match verb_for_argv0 (basename argv0) with
  | Some verb => Run verb rest
  | None =>
      match rest with
      | [] => Usage
      | word :: tail =>
          if decide (word = $"--help" ∨ word = $"-h") then Help
          else if is_verb word then
            match find_first (λ e : text * text, bool_decide (e.1 = word)) VERBS with
            | Some (verb, _) => Run verb tail
            | None => Usage
            end
          else Usage
      end
  end.

(** The tools' entry points, by crate. *)
Record Tools := {
  tool_snap : list text → Z; tool_pki : list text → Z; tool_ready : list text → Z;
  tool_clockstep : list text → Z; tool_etcd_mem : list text → Z; tool_lb : list text → Z }.

(** [run_verb], with the [lb] feature on or off. *)
Definition run_verb (lb_feature : bool) (t : Tools) (verb : text) (args : list text)
    : result panicked Z :=
  if decide (verb = $"snap") then Ok (tool_snap t args)
  else if decide (verb = $"pki") then Ok (tool_pki t args)
  else if decide (verb = $"ready") then Ok (tool_ready t args)
  else if decide (verb = $"clockstep") then Ok (tool_clockstep t args)
  else if decide (verb = $"etcd-mem") then Ok (tool_etcd_mem t args)
  else if decide (verb = $"lb") then Ok (if lb_feature then tool_lb t args else 2)
  else Err Panic.

(** [main]: the exit code, and what the dispatcher itself prints. *)
Definition main (lb_feature : bool) (t : Tools) (argv : list text) : result panicked (Z * text) :=
  let '(argv0, rest) := match argv with [] => ([], []) | a :: r => (a, r) end in
  match route argv0 rest with
  | Run verb args => let? code := run_verb lb_feature t verb args in Ok (code, [])
  | Help => Ok (0, usage)
  | Usage => Ok (2, usage)
  end.

(** *** etcd-mem's arguments *)

Definition default_listen : text := $"unix:///run/kubenyx/etcd-mem/etcd-mem.sock".

(** The [while let Some(arg) = args.next()] loop. *)
Fixpoint listen_args (args : list text) (listen : text) : text :=
  match args with
  | [] => listen
  | arg :: args =>
      if decide (arg = $"--listen-address" ∨ arg = $"--listen-addr") then
        match args with
        | val :: args => listen_args args val
        | [] => listen
        end
      else
        match strip_prefix $"--listen-address=" arg with
        | Some val => listen_args args val
        | None =>
            match strip_prefix $"--listen-addr=" arg with
            | Some val => listen_args args val
            | None => listen_args args listen
            end
        end
  end.

Definition parse_socket_path (addr : text) : text :=
  match strip_prefix $"unix://" addr with
  | Some path => path
  | None => match strip_prefix $"unix:" addr with Some path => path | None => addr end
  end.

(** Where the server listens, from its arguments. *)
Definition socket_path (args : list text) : text := parse_socket_path (listen_args args default_listen).

(** [notify_ready]: the socket a READY=1 datagram is sent to, given the value
    of [NOTIFY_SOCKET]. *)
Definition notify_target (notify_socket : option text) : option text :=
  match notify_socket with
  | None => None
  | Some sock => if starts_with [ch "@"] sock then None else Some sock
  end.

(** ** Helper lemmas *)

Lemma basename_path dir name : ch "/" ∉ name → basename (dir ++ ch "/" :: name) = name.
Proof.
  intros Hn. unfold basename.
  assert (∃ ws, split (ch "/") (dir ++ ch "/" :: name) = ws ++ [name]) as [ws E].
  { induction dir as [|c dir [ws IH]].
    - exists [[]]. pose proof (split_app_sep (ch "/") [] name) as E. simpl ([] ++ _) in *.
      rewrite E by apply not_elem_of_nil. by rewrite split_no_sep.
    - rewrite <- app_comm_cons. cbn [split]. rewrite IH. case_decide; [by eexists (_ :: _)|].
      destruct ws as [|w ws]; [|by eexists (_ :: _)].
      apply (f_equal (join [ch "/"])) in IH. rewrite join_split in IH. exfalso. apply Hn.
      simpl in IH. rewrite <- IH. set_solver. }
  by rewrite E, last_snoc.
Qed.

Lemma basename_plain name : ch "/" ∉ name → basename name = name.
Proof. intros Hn. unfold basename. by rewrite split_no_sep. Qed.

(** ** Theorems *)

(** The two calling conventions agree.  For every tool of the table,
    calling the binary through its legacy name (under any directory, or bare)
    and calling it with the tool's verb first run the same tool with the same
    arguments; the dispatcher never reaches its [unreachable] arm; and a first
    word that is neither a verb nor a help flag is a usage error with exit
    code 2. *)
Theorem route_spec lb_feature t :
  (∀ verb legacy dir args argv0, (verb, legacy) ∈ VERBS → verb_for_argv0 (basename argv0) = None →
     main lb_feature t ((dir ++ ch "/" :: legacy) :: args) = main lb_feature t (legacy :: args)
     ∧ main lb_feature t (argv0 :: verb :: args) = main lb_feature t (legacy :: args)
     ∧ route argv0 (verb :: args) = Run verb args)
  ∧ (∀ argv, is_ok (main lb_feature t argv) = true)
  ∧ (∀ argv0 word args, verb_for_argv0 (basename argv0) = None → is_verb word = false →
       word ≠ $"--help" → word ≠ $"-h" →
       main lb_feature t (argv0 :: word :: args) = Ok (2, usage)).
Proof.
  split_and!.
  - intros verb legacy dir args argv0 Hin Hnone.
    assert (ch "/" ∉ legacy ∧ route legacy args = Run verb args ∧ route argv0 (verb :: args) = Run verb args
            ∧ verb_for_argv0 legacy = Some verb) as (Hs & Hr & Hv & Hl).
    { unfold route at 2. rewrite Hnone. clear Hnone. unfold VERBS in Hin.
      repeat (apply elem_of_cons in Hin as [Hin|Hin];
        [injection Hin as -> ->; split_and!; [|by vm_compute..];
         rewrite <- (not_elem_of_list_to_set (C:=gset N)); by vm_compute|]).
      by apply not_elem_of_nil in Hin. }
    unfold main. rewrite Hv, Hr. split_and!; [|done|done].
    unfold route. rewrite basename_path by done. by rewrite Hl.
  - intros argv. unfold main. destruct (match argv with [] => _ | _ => _ end) as [argv0 rest].
    destruct (route argv0 rest) as [verb args| |] eqn:E; [|done..].
    assert (verb ∈ fst <$> VERBS) as Hin.
    { assert (∀ p e, find_first p VERBS = Some e → e ∈ VERBS) as Hf.
      { intros p. induction VERBS as [|x l IH]; intros e; simpl; [done|].
        case_match; [intros [= <-]; left|right; auto]. }
      unfold route in E. destruct (verb_for_argv0 (basename argv0)) as [v|] eqn:Ev.
      - injection E as <- <-. apply fmap_Some in Ev as (e & He & ->). apply list_elem_of_fmap; eauto.
      - destruct rest as [|word tail]; [done|]. case_decide; [done|]. destruct (is_verb word); [|done].
        destruct (find_first _ VERBS) as [[v l]|] eqn:Ef; [|done]. injection E as <- <-.
        apply list_elem_of_fmap. exists (v, l). eauto. }
    cbn in Hin. unfold run_verb. set_solver.
  - intros argv0 word args Hnone Hw H1 H2. unfold main, route. rewrite Hnone, Hw.
    rewrite decide_False; [done|]. naive_solver.
Qed.
