(* ===== verification/EtcdBoot.v ===== *)
(** * The start and stop of the in-memory server ([rust/etcd-mem/src/lib.rs])

    What [serve] does around the store: the socket file, its directory, the
    listener, READY, the services, and the clean-up, over the paths that
    exist.  Whether each system call succeeds, and how the gRPC server ended,
    are inputs; the arguments and the socket path are those of [Cli.v], the
    services those of [Rpc.v] and [Watch.v]. *)

From S2P Require Import Prelude Text Paths Cli.

(** ** The run *)

Inductive BootEvent :=
| RemoveStale (path : text)
| MakeDirs (path : text)
| Listening (path : text)
| SendReady (target : text)
| Serving
| RemoveSocket (path : text).

(** The paths that exist, and what was done. *)
Record Boot := mkBoot { bt_paths : gset text; bt_trace : list BootEvent }.

(** What the system answers: a removal, the directories, the listener, and the
    server's end. *)
Record System := mkSystem {
  sy_remove : text → bool; sy_mkdir : text → bool; sy_bind : text → bool;
  sy_serve : result text unit }.

Definition did (ev : BootEvent) : M text Boot unit := M_modify (λ b, mkBoot (bt_paths b) (bt_trace b ++ [ev])).

(** [remove_file], its result ignored. *)
Definition remove_file (sys : System) (ev : text → BootEvent) (path : text) : M text Boot unit :=
  do* did (ev path) in
  M_modify (λ b, mkBoot (if sy_remove sys path then bt_paths b ∖ {[path]} else bt_paths b) (bt_trace b)).

(** [UnixListener::bind] creates the file and fails if it exists. *)
Definition bind_socket (sys : System) (path : text) : M text Boot unit :=
  let* taken := M_gets (λ b, bool_decide (path ∈ bt_paths b)) in
  if taken : bool then M_raise $"Address already in use"
  else if sy_bind sys path then
    do* M_modify (λ b, mkBoot ({[path]} ∪ bt_paths b) (bt_trace b)) in did (Listening path)
  else M_raise $"bind".

Definition serve_boot (sys : System) (notify_socket : option text) (args : list text) : M text Boot unit :=
  let sock_path := socket_path args in
  let* stale := M_gets (λ b, bool_decide (sock_path ∈ bt_paths b)) in
  do* if stale : bool then remove_file sys RemoveStale sock_path else M_ret tt in
  do* match path_parent sock_path with
      | Some dir => do* did (MakeDirs dir) in if sy_mkdir sys dir then M_ret tt else M_raise $"create_dir_all"
      | None => M_ret tt
      end in
  do* bind_socket sys sock_path in
  do* match notify_target notify_socket with Some target => did (SendReady target) | None => M_ret tt end in
  do* did Serving in
  do* M_lift (sy_serve sys) in
  remove_file sys RemoveSocket sock_path.

(** [run]: 0, or 1 with the error printed. *)
Definition etcd_run (sys : System) (notify_socket : option text) (args : list text) (b : Boot) : Z * Boot :=
  let '(r, b) := serve_boot sys notify_socket args b in ((if is_ok r then 0 else 1), b).

(** ** Specifications *)

(** READY comes after the listener and only then. *)
Fixpoint ready_after_listening (up : bool) (tr : list BootEvent) : bool :=
  match tr with
  | [] => true
  | SendReady _ :: tr => up && ready_after_listening up tr
  | Listening _ :: tr => ready_after_listening true tr
  | _ :: tr => ready_after_listening up tr
  end.

(** What a complete run does. *)
Definition full_run (sys : System) (notify_socket : option text) (path : text) (stale : bool) : list BootEvent :=
  (if stale then [RemoveStale path] else [])
  ++ match path_parent path with Some dir => [MakeDirs dir] | None => [] end
  ++ Listening path :: match notify_target notify_socket with Some t => [SendReady t] | None => [] end
  ++ [Serving].

(** The directory can be made. *)
Definition dir_ok (sys : System) (path : text) : bool :=
  match path_parent path with Some dir => sy_mkdir sys dir | None => true end.

(** ** Lemmas *)

Lemma add_again (X : gset text) path : {[path]} ∪ X ∖ {[path]} = {[path]} ∪ X.
Proof. apply set_eq. intros x. destruct (decide (x = path)); set_solver. Qed.

Lemma add_remove (X : gset text) path : ({[path]} ∪ X) ∖ {[path]} = X ∖ {[path]}.
Proof. set_solver. Qed.

(** ** Theorems *)

(** C31: the server starts over what an earlier run left.  It gets to serve
    exactly when a socket file left behind could be removed and the directory
    and the listener could be made, doing exactly those steps in order; the
    exit code is 0 exactly when it served and the server ended in order, and
    then its socket file is gone if it could be removed; a server that ends
    in an error leaves the file, which the next start removes; and
    READY is never sent before the listener stands. *)
Theorem boot_spec sys notify_socket args paths :
  let path := socket_path args in
  let stale := bool_decide (path ∈ paths) in
  let '(code, b) := etcd_run sys notify_socket args (mkBoot paths []) in
  let up := (negb stale || sy_remove sys path) && dir_ok sys path && sy_bind sys path in
  (if up then
     ∃ rest, bt_trace b = full_run sys notify_socket path stale ++ rest
       ∧ if is_ok (sy_serve sys)
         then code = 0 ∧ rest = [RemoveSocket path]
              ∧ bt_paths b = (if sy_remove sys path then paths ∖ {[path]} else {[path]} ∪ paths)
         else code = 1 ∧ rest = [] ∧ bt_paths b = {[path]} ∪ paths
   else code = 1 ∧ Serving ∉ bt_trace b ∧ bt_paths b ⊆ paths)
  ∧ ready_after_listening false (bt_trace b) = true.
Proof.
  intros path stale.
  unfold etcd_run, serve_boot, bind_socket, remove_file, did, dir_ok, full_run, M_bind, M_gets, M_modify, M_lift, M_raise, M_ret.
  fold path. cbn [bt_paths bt_trace].
  assert (∀ X : gset text, bool_decide (path ∈ X ∖ {[path]}) = false) as Hgone
    by (intros X; apply bool_decide_false; set_solver).
  destruct (path_parent path) as [dir|] eqn:Edir, (sy_remove sys path) eqn:Er, (sy_bind sys path) eqn:Eb,
    (notify_target notify_socket) as [target|], (sy_serve sys) as [[]|e];
    try destruct (sy_mkdir sys dir);
    subst stale; destruct (bool_decide (path ∈ paths)) eqn:Es;
    cbn [bt_paths bt_trace app negb orb andb is_ok];
    rewrite ?Hgone, ?Es; cbn [bt_paths bt_trace app negb orb andb is_ok];
    (split; [|reflexivity]).
  all: lazymatch goal with
       | |- ∃ _, _ => eexists; split; [first [by rewrite app_nil_r | reflexivity]|];
                      rewrite ?add_again, ?add_remove; by repeat split
       | |- _ => split; [reflexivity|]; split;
                 [rewrite ?not_elem_of_cons; repeat split; first [discriminate | apply not_elem_of_nil]|];
                 first [reflexivity | apply subseteq_difference_l; reflexivity]
       end.
Qed.
