(* ===== verification/Ready.v ===== *)
(** * The readiness wrapper ([rust/kubenyx-ready/src/lib.rs])

    The argument loop, the probe built from the URL and the files of the flags,
    its check, the loops around the child process, and the exit code.  Files,
    the child and what a connection met are inputs.  An error is the
    message [die] prints before it exits with code 2. *)

From S2P Require Import Prelude Text Tls.

(** ** Arguments *)

Record ReadyArgs := mkReadyArgs {
  ra_url : option text; ra_cacert : option text; ra_cert : option text; ra_key : option text;
  ra_insecure : bool; ra_wait : bool; ra_cmd : option (list text) }.

Definition ReadyArgs_new : ReadyArgs := mkReadyArgs None None None None false false None.

(** The loop over [args]; [--] ends it, the words after it being the command. *)
Fixpoint ready_args (args : list text) (a : ReadyArgs) : result text ReadyArgs :=
  let 'mkReadyArgs url ca cert key ins wait cmd := a in
  match args with
  | [] => Ok a
  | flag :: rest =>
      if decide (flag = $"--url") then
        match rest with
        | v :: rest => ready_args rest (mkReadyArgs (Some v) ca cert key ins wait cmd)
        | [] => Err $"--url needs a value"
        end
      else if decide (flag = $"--cacert") then
        match rest with
        | v :: rest => ready_args rest (mkReadyArgs url (Some v) cert key ins wait cmd)
        | [] => Err $"--cacert needs a value"
        end
      else if decide (flag = $"--cert") then
        match rest with
        | v :: rest => ready_args rest (mkReadyArgs url ca (Some v) key ins wait cmd)
        | [] => Err $"--cert needs a value"
        end
      else if decide (flag = $"--key") then
        match rest with
        | v :: rest => ready_args rest (mkReadyArgs url ca cert (Some v) ins wait cmd)
        | [] => Err $"--key needs a value"
        end
      else if decide (flag = $"--insecure") then ready_args rest (mkReadyArgs url ca cert key true wait cmd)
      else if decide (flag = $"--wait") then ready_args rest (mkReadyArgs url ca cert key ins true cmd)
      else if decide (flag = $"--") then Ok (mkReadyArgs url ca cert key ins wait (Some rest))
      else Err ($"unknown flag " ++ flag)
  end.

(** ** The probe *)

Definition u16_max : Z := 65535.

Record Probe := mkProbe {
  p_host : text; p_port : Z; p_path : text; p_tls : bool; p_tls_config : option ClientConfig }.

(** [host[:port][/path]] after the scheme. *)
Definition split_url (tls : bool) (rest : text) : result text (text * Z * text) :=
  let '(hostport, path) :=
    match split_once (ch "/") rest with
    | Some (h, p) => (h, ch "/" :: p)
    | None => (rest, $"/")
    end in
  match rsplit_once (ch ":") hostport with
  | Some (h, p) =>
      match parse_unsigned u16_max p with
      | Some port => Ok (h, port, path)
      | None => Err $"bad port"
      end
  | None => Ok (hostport, if tls then 443 else 80, path)
  end.

Section files.
Context `{L : !TlsLib}.
(** [std::fs::read]. *)
Variable read : text → result text bytes.

Definition read_or_die (path : text) : result text bytes :=
  map_err (λ e, $"read " ++ path ++ $": " ++ e) (read path).

Definition load_pem_certs (path : text) : result text (list bytes) :=
  let? data := read_or_die path in
  map_err (λ e, $"parse " ++ path ++ $": " ++ e) (collect (pem_certs data)).

(** Who is believed: [--insecure] wins over [--cacert]. *)
Definition probe_verifier (cacert : option text) (insecure : bool) : result text Verifier :=
  if insecure then Ok NoVerify
  else match cacert with
       | Some ca =>
           let? roots := load_pem_certs ca in
           let? _u := collect ((λ c, map_err (app $"bad CA cert: ") (root_ok c)) <$> roots) in
           Ok (WebPki roots)
       | None => Err $"https probe requires --cacert or --insecure"
       end.

(** The client certificate, when both flags are given. *)
Definition probe_client (cert key : option text) : result text (option (list bytes * bytes)) :=
  match cert, key with
  | Some c, Some k =>
      let? certs := load_pem_certs c in
      let? key_data := read_or_die k in
      let? key_der := of_option ($"no private key in " ++ k) (pem_key key_data) in
      let? _u := map_err (app $"client auth: ") (client_auth certs key_der) in
      Ok (Some (certs, key_der))
  | _, _ => Ok None
  end.

Definition build_probe (url : text) (cacert cert key : option text) (insecure : bool)
    : result text Probe :=
  match strip_prefix $"unix://" url with
  | Some path => Ok (mkProbe path 0 [] false None)
  | None =>
      let? '(tls, rest) :=
        match strip_prefix $"https://" url with
        | Some r => Ok (true, r)
        | None =>
            match strip_prefix $"http://" url with
            | Some r => Ok (false, r)
            | None => Err ($"unsupported URL " ++ url)
            end
        end in
      let? '(host, port, path) := split_url tls rest in
      let? tls_config :=
        (if tls : bool then
           let? verifier := probe_verifier cacert insecure in
           let? client := probe_client cert key in
           Ok (Some (mkClientConfig verifier client))
         else Ok None) in
      Ok (mkProbe host port path tls tls_config)
  end.

End files.

(** How [check] reaches the endpoint, and what it sends. *)
Inductive Target :=
| UnixTarget (path : text)
| TcpTarget (addr : text) (request : text) (tls : bool).

Definition check_target (p : Probe) : Target :=
  if p_port p =? 0 then UnixTarget (p_host p)
  else TcpTarget (p_host p ++ ch ":" :: fmt_dec (p_port p))
         (get_request (p_path p) (p_host p)) (p_tls p).

(** [check]: for a Unix socket the connection alone counts; a host that cannot
    be a server's name is a [die] once the connection stands.  A TLS probe
    without a configuration cannot be built. *)
Definition check `{L : !TlsLib} (p : Probe) (w : Wire) : result text bool :=
  if p_port p =? 0 then Ok (connected w)
  else if p_tls p then
    match p_tls_config p with
    | Some config => exchange_tls config (p_host p) (Err $"bad server name") w status_200
    | None => if connected w then Err $"unwrap on None" else Ok false
    end
  else Ok (exchange_plain w status_200).

(** ** The run *)

(** [ExitStatus]: [code()] is [Some] for a normal exit, else [signal()]. *)
Record ExitStatus := mkExit { es_code : option Z; es_signal : option Z }.

Definition exit_code (st : ExitStatus) : Z :=
  default (wrap_i32 (128 + default 1 (es_signal st))) (es_code st).

(** One turn of the poll loop: what [try_wait] returned (an error counts as
    still running), and what the probe returned if it is asked. *)
Record Turn := mkTurn { t_exited : option ExitStatus; t_ready : result text bool }.

Inductive ReadyEvent := NotifyReady | ExitWith (code : Z).

(** [die]'s exit code; the child, if there is one, is left running. *)
Definition die_code : Z := 2.

(** The final [child.wait()]: an error is a [die]. *)
Definition wait_code (wait : result text ExitStatus) : Z :=
  match wait with Ok st => exit_code st | Err _ => die_code end.

(** The poll loop; [wait] is what the final [child.wait()] returns. *)
Fixpoint poll_loop (wait : result text ExitStatus) (turns : list Turn) : list ReadyEvent :=
  match turns with
  | [] => []
  | t :: turns =>
      match t_exited t with
      | Some st => [ExitWith (exit_code st)]
      | None =>
          match t_ready t with
          | Err _ => [ExitWith die_code]
          | Ok true => [NotifyReady; ExitWith (wait_code wait)]
          | Ok false => poll_loop wait turns
          end
      end
  end.

(** [--wait]: poll until the first success, then exit 0. *)
Fixpoint wait_loop (probes : list (result text bool)) : list ReadyEvent :=
  match probes with
  | [] => []
  | Err _ :: _ => [ExitWith die_code]
  | Ok ok :: probes => if ok : bool then [ExitWith 0] else wait_loop probes
  end.

(** What a run does: probe only, or wrap a command. *)
Inductive Plan :=
| WaitFor (p : Probe)
| Wrap (p : Probe) (program : text) (args : list text).

Definition plan `{L : !TlsLib} (read : text → result text bytes) (args : list text) : result text Plan :=
  let? a := ready_args args ReadyArgs_new in
  match ra_url a with
  | None => Err $"--url is required"
  | Some url =>
      let probe := build_probe read url (ra_cacert a) (ra_cert a) (ra_key a) (ra_insecure a) in
      if ra_wait a then
        match ra_cmd a with
        | Some _ => Err $"--wait takes no -- command"
        | None => let? p := probe in Ok (WaitFor p)
        end
      else
        match ra_cmd a with
        | None => Err $"missing -- command"
        | Some [] => Err $"empty command after --"
        | Some (program :: rest) => let? p := probe in Ok (Wrap p program rest)
        end
  end.

(** The whole of [run]: [spawn] is what starting the command returned, and each
    turn of a loop finds the child exited or not and meets a connection. *)
Definition ready_run `{L : !TlsLib} (read : text → result text bytes) (args : list text)
    (spawn : text → list text → result text Z) (wait : result text ExitStatus)
    (turns : list (option ExitStatus * Wire)) : list ReadyEvent :=
  match plan read args with
  | Err _ => [ExitWith die_code]
  | Ok (WaitFor p) => wait_loop ((λ t, check p t.2) <$> turns)
  | Ok (Wrap p program rest) =>
      match spawn program rest with
      | Err _ => [ExitWith die_code]
      | Ok _ => poll_loop wait ((λ t, mkTurn t.1 (check p t.2)) <$> turns)
      end
  end.

(** [forward_signal]: to the child, once there is one. *)
Definition forward_signal (child_pid sig : Z) : option (Z * Z) :=
  if 0 <? child_pid then Some (child_pid, sig) else None.

(** A turn that keeps the loop polling. *)
Definition polling (t : Turn) : Prop := t_exited t = None ∧ t_ready t = Ok false.

(** ** Helper lemmas *)

Lemma fmt_dec_no_char z c : 0 ≤ z → ¬ is_digit c → c ∉ fmt_dec z.
Proof.
  intros Hz Hc Hin. unfold fmt_dec in Hin. rewrite (proj2 (Z.ltb_ge _ _)) in Hin by lia.
  by apply (proj1 (Forall_forall _ _) (fmt_unsigned_digits z)) in Hin.
Qed.

(** Both separators are found where they were written. *)
Lemma split_url_eq tls host port path :
  ch "/" ∉ host → 0 ≤ port ≤ u16_max →
  split_url tls (host ++ ch ":" :: fmt_dec port ++ ch "/" :: path) = Ok (host, port, ch "/" :: path).
Proof.
  intros Hh Hp. unfold split_url.
  assert (split_once (ch "/") (host ++ ch ":" :: fmt_dec port ++ ch "/" :: path)
          = Some (host ++ ch ":" :: fmt_dec port, path)) as ->.
  { apply split_once_Some. split; [by rewrite <- app_assoc|].
    rewrite not_elem_of_app, not_elem_of_cons. split_and!; [done|done|].
    apply fmt_dec_no_char; [lia|]. unfold is_digit, ch. simpl. lia. }
  assert (rsplit_once (ch ":") (host ++ ch ":" :: fmt_dec port) = Some (host, fmt_dec port)) as ->.
  { apply rsplit_once_Some. split; [done|].
    apply fmt_dec_no_char; [lia|]. unfold is_digit, ch. simpl. lia. }
  by rewrite parse_fmt_unsigned.
Qed.

Lemma split_url_port tls rest host port path : split_url tls rest = Ok (host, port, path) → 0 ≤ port ≤ u16_max.
Proof.
  unfold split_url. destruct (match split_once _ rest with Some _ => _ | None => _ end) as [hostport p].
  destruct (rsplit_once _ hostport) as [[h q]|].
  - destruct (parse_unsigned u16_max q) as [x|] eqn:E; [|done]. intros [= _ <- _].
    by eapply parse_unsigned_range.
  - intros [= _ <- _]. unfold u16_max. destruct tls; lia.
Qed.

Lemma poll_loop_skip wait pre turns :
  Forall polling pre → poll_loop wait (pre ++ turns) = poll_loop wait turns.
Proof. induction 1 as [|t pre [E1 E2] _ IH]; simpl; [done|]. by rewrite E1, E2. Qed.

(** What a built probe is made of. *)
Lemma build_probe_shape `{L : TlsLib} read url cacert cert key insecure p :
  build_probe read url cacert cert key insecure = Ok p →
  0 ≤ p_port p ≤ u16_max
  ∧ if p_tls p
    then ∃ v c, p_tls_config p = Some (mkClientConfig v c) ∧ probe_verifier read cacert insecure = Ok v
    else p_tls_config p = None.
Proof.
  unfold build_probe. destruct (strip_prefix _ url); [intros [= <-]; by unfold u16_max; simpl; split|].
  destruct (match strip_prefix _ url with Some r => _ | None => _ end) as [[tls rest]|]; [|done].
  cbn [result_bind]. destruct (split_url tls rest) as [[[host port] path]|] eqn:Es; [|done]. cbn [result_bind].
  apply split_url_port in Es. destruct tls.
  - destruct (probe_verifier _ _ _) as [v|]; [|done]. cbn [result_bind].
    destruct (probe_client _ _ _) as [c|]; [|done]. cbn [result_bind]. intros [= <-].
    split; [exact Es|]. cbn [p_tls]. by exists v, c.
  - cbn [result_bind]. by intros [= <-].
Qed.

Lemma poll_loop_notify wait turns : NotifyReady ∈ poll_loop wait turns →
  poll_loop wait turns = [NotifyReady; ExitWith (wait_code wait)]
  ∧ ∃ k t, turns !! k = Some t ∧ t_exited t = None ∧ t_ready t = Ok true ∧ Forall polling (take k turns).
Proof.
  induction turns as [|t turns IH]; cbn [poll_loop]; [by intros ?%not_elem_of_nil|].
  destruct (t_exited t) as [st|] eqn:Ee; [by intros ?%list_elem_of_singleton|].
  destruct (t_ready t) as [[]|e] eqn:Er; [| |by intros ?%list_elem_of_singleton].
  - intros _. split; [done|]. exists 0%nat, t. by split_and!.
  - intros H. destruct (IH H) as (E & k & u & Hk & Hu & Hu' & Hp). split; [exact E|].
    exists (S k), u. split_and!; [done..|]. by constructor.
Qed.

(** ** Theorems *)

(** The wrapper is faithful to its child and honest about readiness.
    While the child runs and the probe fails it keeps polling and says
    nothing; a child that exits first ends the wrapper with the child's exit
    semantics and without READY; otherwise the first successful probe sends
    READY exactly once and the wrapper then exits as the child does: with its
    code, or with 128 plus the signal that killed it.  A probe that dies of
    its host's name ends the wrapper with code 2 and without READY, whatever
    the child does. *)
Theorem ready_run_spec wait pre t turns :
  Forall polling pre → ¬ polling t →
  poll_loop wait pre = []
  ∧ poll_loop wait (pre ++ t :: turns)
    = match t_exited t, t_ready t with
      | Some st, _ => [ExitWith (exit_code st)]
      | None, Ok _ => [NotifyReady; ExitWith (wait_code wait)]
      | None, Err _ => [ExitWith die_code]
      end
  ∧ (∀ code, exit_code (mkExit (Some code) None) = code)
  ∧ (∀ sig, 0 < sig < 128 → exit_code (mkExit None (Some sig)) = 128 + sig).
Proof.
  intros Hpre Ht. split_and!.
  - rewrite <- (app_nil_r pre). by rewrite poll_loop_skip.
  - rewrite poll_loop_skip by done. simpl. destruct (t_exited t) eqn:E; [done|].
    destruct (t_ready t) as [[]|] eqn:Er; [done|by destruct Ht|done].
  - done.
  - intros sig Hs. unfold exit_code. simpl. apply wrap_signed_small; lia.
Qed.

Lemma ready_run_spec_witness :
  poll_loop (Ok (mkExit None (Some 15))) [mkTurn None (Ok false); mkTurn None (Ok true); mkTurn None (Ok true)]
  = [NotifyReady; ExitWith 143].
Proof.
  apply (ready_run_spec (Ok (mkExit None (Some 15))) [mkTurn None (Ok false)] (mkTurn None (Ok true)) [mkTurn None (Ok true)]).
  - by repeat constructor.
  - by intros [_ ?].
Defined.

(** The probe URL.  An https or http URL with a port and a path is probed
    at that host, port and path, over TLS exactly for https, with the
    verifier and the client certificate of the flags, or refused for the
    reason one of them cannot be had: in particular without a CA or an
    explicit [--insecure].  But port 0 is the code's mark for a Unix socket,
    so a URL with port 0 connects to a socket path named by its host
    instead. *)
Theorem build_probe_spec `{L : TlsLib} read host port path cacert cert key insecure :
  ch "/" ∉ host → 0 ≤ port ≤ u16_max →
  let rest := host ++ ch ":" :: fmt_dec port ++ ch "/" :: path in
  build_probe read ($"http://" ++ rest) cacert cert key insecure
    = Ok (mkProbe host port (ch "/" :: path) false None)
  ∧ build_probe read ($"https://" ++ rest) cacert cert key insecure
    = (let? verifier := probe_verifier read cacert insecure in
       let? client := probe_client read cert key in
       Ok (mkProbe host port (ch "/" :: path) true (Some (mkClientConfig verifier client))))
  ∧ probe_verifier read cacert true = Ok NoVerify
  ∧ probe_verifier read None false = Err $"https probe requires --cacert or --insecure"
  ∧ (∀ tls config, check_target (mkProbe host 0 (ch "/" :: path) tls config) = UnixTarget host).
Proof.
  intros Hh Hp rest. unfold build_probe.
  assert (∀ r, strip_prefix $"unix://" ($"http://" ++ r) = None) as E1 by (intros; reflexivity).
  assert (∀ r, strip_prefix $"unix://" ($"https://" ++ r) = None) as E2 by (intros; reflexivity).
  assert (∀ r, strip_prefix $"https://" ($"http://" ++ r) = None) as E3 by (intros; reflexivity).
  assert (∀ tls, split_url tls rest = Ok (host, port, ch "/" :: path)) as E by
    (intros; by apply split_url_eq).
  clearbody rest. rewrite E1, E2, E3, !strip_prefix_app. cbn [result_bind]. rewrite !E. cbn [result_bind].
  split_and!; [done| |done..].
  destruct (probe_verifier _ _ _); [|done]. cbn [result_bind]. by destruct (probe_client _ _ _).
Qed.

(** A library with which any bytes are a certificate, a root vouches for
    itself, and an address in brackets is no name. *)
#[local] Instance toy_ready : TlsLib := {
  b64_decode t := Ok t; pem_certs b := [Ok b]; pem_key b := Some b; root_ok _ := Ok tt; client_auth _ _ := Ok tt;
  server_name n := negb (starts_with $"[" n);
  chain_ok roots chain _ := bool_decide (roots = chain);
  tls12_signature _ _ _ := true; tls13_signature _ _ _ := true }.

Lemma build_probe_spec_witness :
  build_probe (λ p, Ok p) $"http://127.0.0.1:2379/health" None None None false
  = Ok (mkProbe $"127.0.0.1" 2379 $"/health" false None).
Proof.
  refine (proj1 (build_probe_spec (λ p, Ok p) $"127.0.0.1" 2379 $"health" None None None false _ _)).
  - rewrite <- (not_elem_of_list_to_set (C:=gset N)). by vm_compute.
  - by vm_compute.
Defined.

(** C26: a probe is well formed, and never trusts by accident.  Whatever the
    URL and the flags, a probe that could be built has a port of 16 bits and
    a TLS configuration exactly when it is a TLS probe, so that a check dies
    of nothing but the host's name; and when such a check over TLS says ready
    without [--insecure], the roots of [--cacert] vouched for the server's
    chain under the URL's host, and the server signed the handshake. *)
Theorem probe_verifies `{L : TlsLib} read url cacert cert key insecure p :
  build_probe read url cacert cert key insecure = Ok p →
  0 ≤ p_port p ≤ u16_max
  ∧ (p_tls p = true ↔ is_Some (p_tls_config p))
  ∧ (∀ w e, check p w = Err e → e = $"bad server name" ∧ server_name (p_host p) = false)
  ∧ (∀ w, check p w = Ok true → p_tls p = true → p_port p ≠ 0 →
       (∃ leaf rest, h_chain (greeted w) = leaf :: rest
          ∧ verify_signature (h_tls13 (greeted w)) (h_message (greeted w)) leaf (h_dss (greeted w)) = true)
       ∧ (insecure = false → ∃ ca roots, cacert = Some ca ∧ load_pem_certs read ca = Ok roots
            ∧ chain_ok roots (h_chain (greeted w)) (p_host p) = true)).
Proof.
  intros Hb. destruct (build_probe_shape _ _ _ _ _ _ _ Hb) as (Hport & Hcfg).
  assert (p_tls p = true ↔ is_Some (p_tls_config p)) as Htls.
  { destruct (p_tls p); [destruct Hcfg as (v & c & -> & _); by split|rewrite Hcfg]. split; [done|by intros []]. }
  split; [exact Hport|]. split; [exact Htls|]. unfold check. split.
  - intros w e. destruct (p_port p =? 0); [done|]. destruct (p_tls p); [|done].
    destruct Hcfg as (v & c & -> & _). unfold exchange_tls. destruct (connected w); [|done]. cbn [negb].
    destruct (server_name (p_host p)); [done|]. by intros [= <-].
  - intros w Hc Ht Hp. rewrite Ht in *. destruct (Z.eqb_spec (p_port p) 0); [done|].
    destruct Hcfg as (v & c & E & Hv). rewrite E in Hc.
    apply exchange_tls_yes in Hc as (_ & _ & _ & Hh & _); [|done].
    split; [by eapply handshake_signed|]. intros ->.
    destruct cacert as [ca|]; [|done]. cbn [probe_verifier] in Hv.
    destruct (load_pem_certs read ca) as [roots|] eqn:El; [|done]. cbn [result_bind] in Hv.
    destruct (collect _); [|done]. injection Hv as <-.
    exists ca, roots. split; [done|]. split; [done|]. by eapply handshake_trusted.
Qed.

Lemma probe_verifies_witness :
  ∃ p, build_probe (λ p, Ok p) $"https://10.0.0.2:6443/readyz" (Some $"ca") None None false = Ok p
       ∧ p_port p = 6443 ∧ is_Some (p_tls_config p)
       ∧ check p (mkWire true true (mkHello true [$"ca"] [] []) true [RData $"HTTP/1.1 200 OK"]) = Ok true
       ∧ chain_ok [$"ca"] [$"ca"] (p_host p) = true.
Proof.
  set (p := mkProbe $"10.0.0.2" 6443 $"/readyz" true (Some (mkClientConfig (WebPki [$"ca"]) None))).
  set (w := mkWire true true (mkHello true [$"ca"] [] []) true [RData $"HTTP/1.1 200 OK"]).
  assert (build_probe (λ p, Ok p) $"https://10.0.0.2:6443/readyz" (Some $"ca") None None false = Ok p) as Hb
    by (by vm_compute).
  assert (check p w = Ok true) as Hc by (by vm_compute).
  destruct (probe_verifies _ _ _ _ _ _ p Hb) as (_ & Ht & _ & Hv).
  destruct (Hv w Hc eq_refl) as (_ & H); [discriminate|]. destruct (H eq_refl) as (ca & roots & Eca & Er & Hch).
  exists p. split; [exact Hb|]. split; [reflexivity|]. split; [by apply Ht|]. split; [exact Hc|].
  injection Eca as <-. cbn in Er. injection Er as <-. exact Hch.
Defined.

(** A bracketed address as a host is no name for TLS: the wrapper dies at the
    first connection although the child may be ready. *)
Example bracketed_host_dies :
  (let? p := build_probe (λ p, Ok p) $"https://[::1]:6443/readyz" (Some $"ca") None None false in
   check p (mkWire true true (mkHello true [$"ca"] [] []) true [RData $"HTTP/1.1 200 OK"]))
  = Err $"bad server name".
Proof. by vm_compute. Qed.

(** C27: READY is earned.  If a run sends READY at all, it wraps a command it has
    started, it sends it once and then exits as the command does, and it sends
    it at a turn that found the command running and the probe's check
    successful, every turn before having found it running and the check
    failed; [--wait] sends nothing. *)
Theorem ready_is_earned `{L : TlsLib} read args spawn wait turns :
  NotifyReady ∈ ready_run read args spawn wait turns →
  ∃ p program rest k w,
    plan read args = Ok (Wrap p program rest) ∧ is_ok (spawn program rest) = true
    ∧ ready_run read args spawn wait turns = [NotifyReady; ExitWith (wait_code wait)]
    ∧ turns !! k = Some (None, w) ∧ check p w = Ok true
    ∧ ∀ j st v, (j < k)%nat → turns !! j = Some (st, v) → st = None ∧ check p v = Ok false.
Proof.
  unfold ready_run. destruct (plan read args) as [[p|p program rest]|e]; [| |by intros ?%list_elem_of_singleton].
  { intros H. exfalso. revert H. generalize ((λ t : option ExitStatus * Wire, check p t.2) <$> turns).
    intros l. induction l as [|[[]|e] l IH]; cbn [wait_loop]; [by intros ?%not_elem_of_nil
      |by intros ?%list_elem_of_singleton|exact IH|by intros ?%list_elem_of_singleton]. }
  destruct (spawn program rest) as [pid|e] eqn:Es; [|by intros ?%list_elem_of_singleton].
  intros (E & k & t & Hk & He & Hr & Hp)%poll_loop_notify.
  rewrite list_lookup_fmap in Hk. destruct (turns !! k) as [[st w]|] eqn:Et; [|done].
  injection Hk as <-. cbn in He, Hr. subst st.
  exists p, program, rest, k, w. split; [done|]. split; [by rewrite Es|]. split_and!; [done..|].
  intros j st v Hj Ht. rewrite Forall_lookup in Hp.
  destruct (Hp j (mkTurn st (check p v))) as [H1 H2]; [|by cbn in H1, H2].
  by rewrite lookup_take_lt, list_lookup_fmap, Ht.
Qed.

Lemma ready_is_earned_witness :
  let args := [$"--url"; $"unix:///run/kine.sock"; $"--"; $"kine"; $"--debug"] in
  let down := mkWire false true (mkHello true [] [] []) true [] in
  let up := mkWire true true (mkHello true [] [] []) true [] in
  ∃ p program rest, plan (λ p, Ok p) args = Ok (Wrap p program rest)
    ∧ ready_run (λ p, Ok p) args (λ _ _, Ok 7) (Ok (mkExit (Some 3) None)) [(None, down); (None, up)]
      = [NotifyReady; ExitWith 3].
Proof.
  intros args down up.
  destruct (ready_is_earned (λ p, Ok p) args (λ _ _, Ok 7) (Ok (mkExit (Some 3) None)) [(None, down); (None, up)])
    as (p & program & rest & k & w & Hp & _ & Hr & _); [vm_compute; apply list_elem_of_here|].
  exists p, program, rest. split; [exact Hp|exact Hr].
Defined.
