(* ===== verification/Pki.v ===== *)
(** * The PKI generator ([rust/kubenyx-pki/src/lib.rs])

    Arguments, issuance and renewal of certificates, the operator's custody of
    the trust roots, kubeconfigs, and the server and agent modes, over a model
    of the file system in which the process may be cut off before any step.
    Key generation, X.509 and base64 are the class [PkiLib], with the laws of
    [PkiLaws]. *)

From S2P Require Import Prelude Text Utf8 Net Paths.

(** ** Configuration *)

Record PkiCfg := mkPkiCfg {
  mode : text; pki : text; kc : text; node_name : text; node_address : option text; api_url : text;
  cluster_domain : text; service_ip : text; extra_sans : list text;
  nodes : list (text * option text); leaf_days : Z; renew_days : Z; etcd : bool;
  etcd_sans : list text; out : text; require_shipped_ca : bool; dir : text; listen : text;
  count : option Z }.

Definition PkiCfg_default : PkiCfg :=
  mkPkiCfg $"server" $"/var/lib/kubenyx/pki" $"/var/lib/kubenyx/kubeconfigs" [] None
    $"https://127.0.0.1:6443" $"cluster.local" $"10.96.0.1" [] [] 365 30 false [] [] false [] [] None.

(** [--node name] and [--node name=address]. *)
Definition node_arg (v : text) : text * option text :=
  match split_once (ch "=") v with
  | Some (n, addr) => (n, if decide (addr = []) then None else Some addr)
  | None => (v, None)
  end.

(** The flags that take a value. *)
Definition pki_value_flags : list text :=
  [$"--out"; $"--dir"; $"--listen"; $"--count"; $"--mode"; $"--pki-dir"; $"--kubeconfig-dir";
   $"--node-name"; $"--node-address"; $"--api-url"; $"--cluster-domain"; $"--service-ip";
   $"--extra-san"; $"--node"; $"--leaf-days"; $"--renew-days"; $"--etcd-san"].

(** The arm of the [match] for one of them. *)
Definition pki_set (a v : text) (cfg : PkiCfg) : result text PkiCfg :=
  let 'mkPkiCfg md pk k nn na au cd si es ns ld rd et ets o req d l c := cfg in
  if decide (a = $"--out") then Ok (mkPkiCfg md pk k nn na au cd si es ns ld rd et ets v req d l c)
  else if decide (a = $"--dir") then Ok (mkPkiCfg md pk k nn na au cd si es ns ld rd et ets o req v l c)
  else if decide (a = $"--listen") then Ok (mkPkiCfg md pk k nn na au cd si es ns ld rd et ets o req d v c)
  else if decide (a = $"--count") then
    let? n := of_option ($"bad --count " ++ v) (parse_unsigned u64_max v) in
    Ok (mkPkiCfg md pk k nn na au cd si es ns ld rd et ets o req d l (Some n))
  else if decide (a = $"--mode") then Ok (mkPkiCfg v pk k nn na au cd si es ns ld rd et ets o req d l c)
  else if decide (a = $"--pki-dir") then Ok (mkPkiCfg md v k nn na au cd si es ns ld rd et ets o req d l c)
  else if decide (a = $"--kubeconfig-dir") then
    Ok (mkPkiCfg md pk v nn na au cd si es ns ld rd et ets o req d l c)
  else if decide (a = $"--node-name") then Ok (mkPkiCfg md pk k v na au cd si es ns ld rd et ets o req d l c)
  else if decide (a = $"--node-address") then
    Ok (mkPkiCfg md pk k nn (Some v) au cd si es ns ld rd et ets o req d l c)
  else if decide (a = $"--api-url") then Ok (mkPkiCfg md pk k nn na v cd si es ns ld rd et ets o req d l c)
  else if decide (a = $"--cluster-domain") then
    Ok (mkPkiCfg md pk k nn na au v si es ns ld rd et ets o req d l c)
  else if decide (a = $"--service-ip") then Ok (mkPkiCfg md pk k nn na au cd v es ns ld rd et ets o req d l c)
  else if decide (a = $"--extra-san") then
    Ok (mkPkiCfg md pk k nn na au cd si (es ++ [v]) ns ld rd et ets o req d l c)
  else if decide (a = $"--node") then
    Ok (mkPkiCfg md pk k nn na au cd si es (ns ++ [node_arg v]) ld rd et ets o req d l c)
  else if decide (a = $"--leaf-days") then
    Ok (mkPkiCfg md pk k nn na au cd si es ns (default 365 (parse_signed i64_min i64_max v)) rd et ets o req d l c)
  else if decide (a = $"--renew-days") then
    Ok (mkPkiCfg md pk k nn na au cd si es ns ld (default 30 (parse_signed i64_min i64_max v)) et ets o req d l c)
  else Ok (mkPkiCfg md pk k nn na au cd si es ns ld rd et (ets ++ [v]) o req d l c).

Definition set_mode (v : text) (cfg : PkiCfg) : PkiCfg :=
  let 'mkPkiCfg _ pk k nn na au cd si es ns ld rd et ets o req d l c := cfg in
  mkPkiCfg v pk k nn na au cd si es ns ld rd et ets o req d l c.
Definition set_shipped (cfg : PkiCfg) : PkiCfg :=
  let 'mkPkiCfg md pk k nn na au cd si es ns ld rd et ets o _ d l c := cfg in
  mkPkiCfg md pk k nn na au cd si es ns ld rd et ets o true d l c.
Definition set_etcd (cfg : PkiCfg) : PkiCfg :=
  let 'mkPkiCfg md pk k nn na au cd si es ns ld rd _ ets o req d l c := cfg in
  mkPkiCfg md pk k nn na au cd si es ns ld rd true ets o req d l c.

(** The [while let] loop over the arguments. *)
Fixpoint pki_flags (args : list text) (cfg : PkiCfg) : result text PkiCfg :=
  match args with
  | [] => Ok cfg
  | a :: rest =>
      if decide (a ∈ pki_value_flags) then
        match rest with
        | v :: rest => let? cfg := pki_set a v cfg in pki_flags rest cfg
        | [] => Err ($"missing value for " ++ a)
        end
      else if decide (a = $"mint-ca") then pki_flags rest (set_mode $"mint-ca" cfg)
      else if decide (a = $"serve") then pki_flags rest (set_mode $"serve" cfg)
      else if decide (a = $"--require-shipped-ca") then pki_flags rest (set_shipped cfg)
      else if decide (a = $"--etcd") then pki_flags rest (set_etcd cfg)
      else Err ($"unknown flag " ++ a)
  end.

Definition pki_args (args : list text) : result text PkiCfg :=
  let? cfg := pki_flags args PkiCfg_default in
  if decide (node_name cfg = [] ∧ mode cfg ≠ $"mint-ca" ∧ mode cfg ≠ $"serve")
  then Err $"--node-name is required" else Ok cfg.

(** ** The file system *)

(** File contents (as text), the lines printed, the random values drawn, and
    how many more steps on the file system succeed before one fails or the
    machine goes down. *)
Record Disk := mkDisk { files : gmap text text; stderr : list text; draws : nat; steps : nat }.

(** [die], or a panic ([expect]). *)
Inductive PkiEnd := PkiDie (msg : text) | PkiPanic (what : text).

Abbreviation P := (M PkiEnd Disk).

Definition pki_die {A} (msg : text) : P A := M_raise (PkiDie msg).

Definition fs_step (f : gmap text text → gmap text text) (msg : text) : P unit := λ w,
  match steps w with
  | O => (Err (PkiDie msg), w)
  | S n => (Ok tt, mkDisk (f (files w)) (stderr w) (draws w) n)
  end.

Definition eprint (line : text) : P unit :=
  M_modify (λ w, mkDisk (files w) (stderr w ++ [line]) (draws w) (steps w)).
Definition draw : P nat := λ w, (Ok (draws w), mkDisk (files w) (stderr w) (S (draws w)) (steps w)).

Definition read_file (path msg : text) : P text :=
  let* o := M_gets (λ w, files w !! path) in
  match o with Some data => M_ret data | None => pki_die msg end.

(** [write_private]: create or truncate the temporary file, write it, sync it,
    rename it over the path. *)
Definition tmp_path (path : text) : text := path ++ $".tmp".
Definition write_private (path data : text) : P unit :=
  do* fs_step <[tmp_path path := []]> ($"open " ++ tmp_path path) in
  do* fs_step <[tmp_path path := data]> ($"write " ++ tmp_path path) in
  do* fs_step id ($"fsync " ++ tmp_path path) in
  fs_step (λ m, <[path := data]> (delete (tmp_path path) m)) ($"rename " ++ path).

Definition non_empty (path : text) (w : Disk) : bool :=
  match files w !! path with Some (_ :: _) => true | _ => false end.
Definition file_exists (path : text) (w : Disk) : bool := bool_decide (is_Some (files w !! path)).

(** ** Digest *)

Definition fnv1a (data : bytes) : Z :=
  foldl (λ h b, wrap_u64 (Z.lxor h (Z.of_N b) * 0x100000001b3)) 0xcbf29ce484222325 data.

(** [{:016x}]. *)
Definition hex16 (z : Z) : text :=
  let ds := hex_digits 16 z [] in replicate (16 - length ds) (ch "0") ++ ds.

(** ** Issuance *)

Definition DAY : Z := 86400.

Inductive Eku := ServerAuth | ClientAuth.

(** What a leaf certificate says. *)
Record Leaf := mkLeaf {
  lf_cn : text; lf_org : option text; lf_ekus : list Eku; lf_san : list text;
  lf_not_before : Z; lf_not_after : Z; lf_serial : nat }.

(** One call of [Issue::ensure]: the leaf's name, subject, usages and SANs. *)
Record LeafReq := mkReq {
  rq_name : text; rq_cn : text; rq_org : option text; rq_ekus : list Eku; rq_san : list text }.

Record Issuer := mkIssuer { is_key : text; is_pem : text; is_name : text }.

Definition CUSTODY_FILES : list text :=
  [$"ca.crt"; $"ca.key"; $"front-proxy-ca.crt"; $"front-proxy-ca.key"; $"sa.key"; $"sa.pub"].

(** What the tool relies on from outside: rcgen, p256, x509-parser, base64, the
    clock and the network interfaces. *)
Class PkiLib := {
  (** The [n]-th key pair generated, as PEM; a CA certificate for a name, a
      validity, a serial and a key; a leaf signed by an issuer's certificate
      and key; whether an issuer's files parse and fit. *)
  keygen : nat → text;
  ca_cert : text → Z → Z → nat → text → text;
  leaf_cert : Leaf → text → text → text → result text text;
  issuer_ok : text → text → result text unit;
  (** The end of a certificate's validity, if it parses. *)
  not_after_ts : text → option Z;
  (** The service-account key pair. *)
  sa_keygen : nat → text;
  sa_public : text → text;
  (** [Ia5String]'s check, base64. *)
  ia5 : text → bool;
  b64 : bytes → text;
  (** The time; a number of days from now, when the calendar reaches that far;
      the local address each routing probe got, and the interfaces' addresses. *)
  now : Z;
  in_days : Z → option Z;
  node_probes : list (option IpAddr);
  node_interfaces : option (list IpAddr);
}.

(** What the theorems on issuance need of it: a signed leaf ends when it says
    and is for the key it was signed with, days are days, and PEM is
    never empty. *)
Class PkiLaws `{!PkiLib} := {
  key_of : text → text;
  leaf_cert_key : ∀ l k ic ik c, leaf_cert l k ic ik = Ok c → key_of c = k;
  leaf_cert_end : ∀ l k ic ik c, leaf_cert l k ic ik = Ok c → not_after_ts c = Some (lf_not_after l);
  in_days_spec : ∀ d t, in_days d = Some t → t = now + d * DAY ∧ is_i64 t;
  keygen_pem : ∀ n, keygen n ≠ [];
  ca_cert_pem : ∀ cn a b n k, ca_cert cn a b n k ≠ [];
  sa_keygen_pem : ∀ n, sa_keygen n ≠ [];
  sa_public_pem : ∀ k, sa_public k ≠ [];
}.

Section library.
Context `{!PkiLib}.

Definition load_issuer (pki name : text) : P Issuer :=
  let* crt := read_file (path_join pki (name ++ $".crt")) ($"read " ++ name ++ $".crt") in
  let* key := read_file (path_join pki (name ++ $".key")) ($"read " ++ name ++ $".key") in
  match issuer_ok crt key with
  | Ok _ => M_ret (mkIssuer key crt name)
  | Err e => pki_die e
  end.

Definition ensure_ca (pki name cn : text) : P unit :=
  let crt := path_join pki (name ++ $".crt") in
  let key := path_join pki (name ++ $".key") in
  let* have := M_gets (λ w, non_empty crt w && non_empty key w) in
  if have : bool then M_ret tt
  else
    let* k := draw in
    let* serial := draw in
    do* write_private key (keygen k) in
    do* write_private crt (ca_cert cn (now - 300) (now + 3650 * DAY) serial (keygen k)) in
    eprint ($"kubenyx-pki: issued CA " ++ name).

Definition ensure_sa (pki : text) : P unit :=
  let* have := M_gets (file_exists (path_join pki $"sa.key")) in
  if have : bool then M_ret tt
  else
    let* k := draw in
    do* write_private (path_join pki $"sa.key") (sa_keygen k) in
    write_private (path_join pki $"sa.pub") (sa_public (sa_keygen k)).

Definition eku_name (e : Eku) : text :=
  match e with ServerAuth => $"serverAuth" | ClientAuth => $"clientAuth" end.

(** The generation parameters recorded beside a leaf. *)
Definition leaf_fingerprint (ca : Issuer) (r : LeafReq) : text :=
  let subject := match rq_org r with
                 | Some o => $"/O=" ++ o ++ $"/CN=" ++ rq_cn r
                 | None => $"/CN=" ++ rq_cn r
                 end in
  subject ++ $"|" ++ join $"," (eku_name <$> rq_ekus r) ++ $"|" ++ join $"," (rq_san r) ++ $"|"
  ++ is_name ca ++ $":" ++ hex16 (fnv1a (utf8 (is_pem ca))).

Definition crt_path (pki name : text) : text := path_join pki (name ++ $".crt").
Definition key_path (pki name : text) : text := path_join pki (name ++ $".key").
(** [name.replace('/', "_")]. *)
Definition flat_name (name : text) : text := (λ c, if decide (c = ch "/") then ch "_" else c) <$> name.
Definition fp_path (pki name : text) : text := path_join pki ($".fp." ++ flat_name name).

(** Whether a leaf can stay. *)
Definition leaf_current (pki : text) (renew_secs : Z) (ca : Issuer) (r : LeafReq) (w : Disk) : bool :=
  match files w !! crt_path pki (rq_name r), file_exists (key_path pki (rq_name r)) w,
        files w !! fp_path pki (rq_name r) with
  | Some crt_pem, true, Some prev =>
      bool_decide (trim_end prev = leaf_fingerprint ca r)
      && match not_after_ts crt_pem with
         | Some na => wrap_i64 (now + renew_secs) <? na
         | None => false
         end
  | _, _, _ => false
  end.

Fixpoint check_sans (san : list text) : result PkiEnd unit :=
  match san with
  | [] => Ok tt
  | s :: san =>
      match strip_prefix $"DNS:" s with
      | Some d => if ia5 d then check_sans san else Err (PkiPanic $"dns san")
      | None =>
          match strip_prefix $"IP:" s with
          | Some ip =>
              match parse_ip_addr ip with
              | Some _ => check_sans san
              | None => Err (PkiDie ($"bad IP SAN " ++ ip))
              end
          | None => Err (PkiDie ($"bad SAN " ++ s ++ $" (want DNS:/IP: prefix)"))
          end
      end
  end.

(** The three writes that end an issuance. *)
Definition write_leaf (pki name key crt fp : text) : P unit :=
  do* write_private (key_path pki name) key in
  do* write_private (crt_path pki name) crt in
  write_private (fp_path pki name) fp.

(** [Issue::ensure]. *)
Definition ensure (pki : text) (renew_secs leaf_days : Z) (ca : Issuer) (r : LeafReq) : P unit :=
  let name := rq_name r in
  let* current := M_gets (leaf_current pki renew_secs ca r) in
  if current : bool then M_ret tt
  else
    do* eprint ($"kubenyx-pki: issuing " ++ name) in
    let* k := draw in
    let* serial := draw in
    let* not_after := M_lift (of_option (PkiPanic $"not_after") (in_days leaf_days)) in
    do* M_lift (check_sans (rq_san r)) in
    let leaf := mkLeaf (rq_cn r) (rq_org r) (rq_ekus r) (rq_san r) (now - 300) not_after serial in
    match leaf_cert leaf (keygen k) (is_pem ca) (is_key ca) with
    | Err e => pki_die ($"sign " ++ name ++ $": " ++ e)
    | Ok crt => write_leaf pki name (keygen k) crt (leaf_fingerprint ca r)
    end.

(** ** Kubeconfigs *)

Definition contains (pat s : text) : bool := bool_decide (is_Some (split_once_str pat s)).

Definition nl : text := [newline].

Definition render_kubeconfig (api_url user ca_pem crt_pem key_pem : text) : text :=
  $"apiVersion: v1" ++ nl ++ $"kind: Config" ++ nl ++ $"clusters:" ++ nl ++ $"- name: kubenyx" ++ nl
  ++ $"  cluster:" ++ nl ++ $"    certificate-authority-data: " ++ b64 (utf8 ca_pem) ++ nl
  ++ $"    server: " ++ api_url ++ nl ++ $"users:" ++ nl ++ $"- name: " ++ user ++ nl
  ++ $"  user:" ++ nl ++ $"    client-certificate-data: " ++ b64 (utf8 crt_pem) ++ nl
  ++ $"    client-key-data: " ++ b64 (utf8 key_pem) ++ nl ++ $"contexts:" ++ nl
  ++ $"- name: default" ++ nl ++ $"  context:" ++ nl ++ $"    cluster: kubenyx" ++ nl
  ++ $"    user: " ++ user ++ nl ++ $"current-context: default" ++ nl.

(** The content check that spares a rewrite. *)
Definition kubeconfig_fresh (api_url ca_pem crt_pem body : text) : bool :=
  contains ($"server: " ++ api_url ++ nl) body && contains (b64 (utf8 crt_pem)) body
  && contains (b64 (utf8 ca_pem)) body.

Definition write_kubeconfig (kc out api_url user ca_pem crt key : text) : P unit :=
  let out_p := path_join kc out in
  let* crt_pem := read_file crt ($"read " ++ crt) in
  let* key_pem := read_file key ($"read " ++ key) in
  let* fresh := M_gets (λ w, match files w !! out_p with
                             | Some body => kubeconfig_fresh api_url ca_pem crt_pem body
                             | None => false
                             end) in
  if fresh : bool then M_ret tt
  else write_private out_p (render_kubeconfig api_url user ca_pem crt_pem key_pem).

(** ** The node's address *)

(** Usable as the node's address when there is no default route. *)
Definition global_v4 (a : IpAddr) : bool :=
  match a with V4 o => negb (is_loopback a) && negb (v4_link_local o) | V6 _ => false end.
Definition global_v6 (a : IpAddr) : bool :=
  match a with
  | V6 g => negb (is_loopback a) && negb (Z.land (default 0 (head g)) 0xffc0 =? 0xfe80)
  | V4 _ => false
  end.

Definition first_such (Q : IpAddr → bool) (l : list IpAddr) : option IpAddr :=
  snd <$> list_find (λ a, Q a = true) l.

Definition no_address_warning : text :=
  $"kubenyx-pki: WARNING: no routable address detected; using 127.0.0.1 " ++ dash
  ++ $" declare kubenyx.nodes.<name>.address for anything reachable remotely".

Definition detect_node_ip : P text :=
  match first_such (λ a, negb (is_loopback a)) (omap id node_probes) with
  | Some a => M_ret (fmt_ip a)
  | None =>
      let ifs := default [] node_interfaces in
      match first_such global_v4 ifs with
      | Some a => M_ret (fmt_ip a)
      | None =>
          match first_such global_v6 ifs with
          | Some a => M_ret (fmt_ip a)
          | None => do* eprint no_address_warning in M_ret $"127.0.0.1"
          end
      end
  end.

(** ** Server mode *)

Definition api_sans (cfg : PkiCfg) (node_ip : text) : list text :=
  [$"DNS:kubernetes"; $"DNS:kubernetes.default"; $"DNS:kubernetes.default.svc";
   $"DNS:kubernetes.default.svc." ++ cluster_domain cfg; $"DNS:" ++ node_name cfg; $"DNS:localhost";
   $"IP:127.0.0.1"; $"IP:" ++ service_ip cfg; $"IP:" ++ node_ip] ++ extra_sans cfg.

Definition client_leaf (name cn : text) (org : option text) : LeafReq :=
  mkReq name cn org [ClientAuth] [].

(** The fixed leaves, in the order they are issued: whether by the front-proxy
    CA, and what is asked for. *)
Definition server_leaves (cfg : PkiCfg) (node_ip : text) : list (bool * LeafReq) :=
  [(false, mkReq $"apiserver" $"kube-apiserver" None [ServerAuth] (api_sans cfg node_ip));
   (false, client_leaf $"apiserver-kubelet-client" $"kube-apiserver-kubelet-client" None);
   (true, client_leaf $"front-proxy-client" $"front-proxy-client" None);
   (false, client_leaf $"admin" $"kubenyx-admin" (Some $"kubenyx:cluster-admins"));
   (false, client_leaf $"bootstrap" $"kubenyx-bootstrap" (Some $"system:masters"));
   (false, client_leaf $"controller-manager" $"system:kube-controller-manager" None);
   (false, client_leaf $"scheduler" $"system:kube-scheduler" None);
   (false, client_leaf $"kube-proxy" $"system:kube-proxy" None);
   (false, client_leaf $"coredns" $"system:coredns" None);
   (false, client_leaf $"healthz" $"kubenyx-healthz" None)]
  ++ (if etcd cfg then
        [(false, mkReq $"etcd-server" $"kube-etcd" None [ServerAuth; ClientAuth]
                   ([$"DNS:localhost"; $"IP:127.0.0.1"] ++ etcd_sans cfg));
         (false, client_leaf $"apiserver-etcd-client" $"kube-apiserver-etcd-client" None)]
      else []).

Definition node_leaves (cfg : PkiCfg) (node_ip : text) (n : text * option text) : list LeafReq :=
  let '(name, addr) := n in
  let san := [$"DNS:" ++ name; $"IP:127.0.0.1"]
             ++ match addr with
                | Some a => [$"IP:" ++ a]
                | None => if decide (name = node_name cfg) then [$"IP:" ++ node_ip] else []
                end in
  [mkReq ($"nodes/" ++ name ++ $"/kubelet") ($"system:node:" ++ name) (Some $"system:nodes") [ClientAuth] [];
   mkReq ($"nodes/" ++ name ++ $"/kubelet-server") ($"system:node:" ++ name) None [ServerAuth] san].

(** All of them. *)
Definition server_requests (cfg : PkiCfg) (node_ip : text) : list (bool * LeafReq) :=
  server_leaves cfg node_ip ++ (pair false <$> (nodes cfg ≫= node_leaves cfg node_ip)).

(** The files copied into a remote worker's directory. *)
Definition PACKAGE_FILES : list text :=
  [$"ca.crt"; $"kube-proxy.crt"; $"kube-proxy.key"; $"coredns.crt"; $"coredns.key"].

Definition package_dir (pki name : text) : text := path_join (path_join pki $"nodes") name.

(** [fs::copy]: the destination is truncated, then filled. *)
Definition copy_file (src dst msg : text) : P unit :=
  let* data := read_file src msg in
  do* fs_step <[dst := []]> msg in
  fs_step <[dst := data]> msg.

Definition package_one (pki name f : text) : P unit :=
  copy_file (path_join pki f) (path_join (package_dir pki name) f) ($"package " ++ name ++ $"/" ++ f).
Definition package (pki name : text) : P unit := M_iter (package_one pki name) PACKAGE_FILES.

(** The map of kubeconfigs in its order: file, user, certificate; then the
    kubelet's. *)
Definition SERVER_KUBECONFIGS : list (text * text * text) :=
  [($"admin.kubeconfig", $"kubenyx-admin", $"admin");
   ($"bootstrap.kubeconfig", $"kubenyx-bootstrap", $"bootstrap");
   ($"controller-manager.kubeconfig", $"system:kube-controller-manager", $"controller-manager");
   ($"coredns.kubeconfig", $"system:coredns", $"coredns");
   ($"kube-proxy.kubeconfig", $"system:kube-proxy", $"kube-proxy");
   ($"scheduler.kubeconfig", $"system:kube-scheduler", $"scheduler")].

Definition server_kubeconfigs (cfg : PkiCfg) : list (text * text * text) :=
  SERVER_KUBECONFIGS
  ++ [($"kubelet.kubeconfig", $"system:node:" ++ node_name cfg, $"nodes/" ++ node_name cfg ++ $"/kubelet")].

(** Kubeconfigs from the leaves of the PKI directory, with its CA. *)
Definition render_all (cfg : PkiCfg) (kcs : list (text * text * text)) : P unit :=
  let* ca_pem := M_gets (λ w, files w !! path_join (pki cfg) $"ca.crt") in
  match ca_pem with
  | None => M_raise (PkiPanic $"ca.crt")
  | Some ca_pem =>
      M_iter (λ '(out, user, base),
                write_kubeconfig (kc cfg) out (api_url cfg) user ca_pem
                  (crt_path (pki cfg) base) (key_path (pki cfg) base)) kcs
  end.

Definition missing_custody (dir : text) (w : Disk) : list text :=
  filter (λ f, non_empty (path_join dir f) w = false) CUSTODY_FILES.

Definition missing_message (pki : text) (missing : list text) : text :=
  $"durable posture (balanced profile + persistent datastore) requires an operator-shipped CA bundle, but "
  ++ pki ++ $" is missing: " ++ join $" " missing
  ++ $". Mint it offline with `kubenyx-pki mint-ca --out ca-bundle/`, ship the bundle's files into this "
  ++ $"directory over the operator channel, and keep the original wherever secrets live. Refusing to "
  ++ $"self-mint: a re-minted CA would partition the cluster's trust.".

(** The trust roots: shipped, or minted here. *)
Definition trust_roots (cfg : PkiCfg) : P unit :=
  if require_shipped_ca cfg then
    let* missing := M_gets (missing_custody (pki cfg)) in
    if decide (missing = []) then M_ret tt else pki_die (missing_message (pki cfg) missing)
  else
    do* ensure_ca (pki cfg) $"ca" $"kubenyx-ca" in
    do* ensure_ca (pki cfg) $"front-proxy-ca" $"kubenyx-front-proxy-ca" in
    ensure_sa (pki cfg).

Definition server (cfg : PkiCfg) : P unit :=
  let pki := pki cfg in
  let* node_ip := match node_address cfg with
                  | Some (c :: a) => M_ret (c :: a)
                  | _ => detect_node_ip
                  end in
  do* trust_roots cfg in
  let* ca := load_issuer pki $"ca" in
  let* fp_ca := load_issuer pki $"front-proxy-ca" in
  do* M_iter (λ '(front_proxy, r),
                ensure pki (wrap_i64 (renew_days cfg * DAY)) (leaf_days cfg)
                  (if front_proxy : bool then fp_ca else ca) r)
        (server_requests cfg node_ip) in
  do* M_iter (package pki) (filter (λ n, n ≠ node_name cfg) (nodes cfg).*1) in
  render_all cfg (server_kubeconfigs cfg).

(** ** Agent mode *)

Definition AGENT_FILES : list text :=
  [$"ca.crt"; $"kubelet.crt"; $"kubelet.key"; $"kubelet-server.crt"; $"kubelet-server.key";
   $"kube-proxy.crt"; $"kube-proxy.key"; $"coredns.crt"; $"coredns.key"].

Definition agent_kubeconfigs (cfg : PkiCfg) : list (text * text * text) :=
  [($"kubelet.kubeconfig", $"system:node:" ++ node_name cfg, $"kubelet");
   ($"kube-proxy.kubeconfig", $"system:kube-proxy", $"kube-proxy");
   ($"coredns.kubeconfig", $"system:coredns", $"coredns")].

Definition missing_agent (pki : text) (w : Disk) : list text :=
  filter (λ f, non_empty (path_join pki f) w = false) AGENT_FILES.

Definition expiry_warning : text :=
  $"kubenyx-pki: WARNING: kubelet.crt expires within 14 days " ++ dash
  ++ $" re-ship this node's credentials from the server".

Definition agent (cfg : PkiCfg) : P unit :=
  let pki := pki cfg in
  let* missing := M_gets (missing_agent pki) in
  if decide (missing = []) then
    let* kubelet := M_gets (λ w, files w !! path_join pki $"kubelet.crt") in
    do* match kubelet ≫= not_after_ts with
        | Some na => if na <? wrap_i64 (now + 14 * DAY) then eprint expiry_warning else M_ret tt
        | None => M_ret tt
        end in
    render_all cfg (agent_kubeconfigs cfg)
  else
    do* eprint ($"kubenyx-pki: waiting for PKI material in " ++ pki ++ $" (missing: "
                ++ join $" " missing ++ $")") in
    eprint ($"kubenyx-pki: on the server, ship its pki/nodes/" ++ node_name cfg ++ $"/ directory here").

(** ** mint-ca *)

(** [create_dir_all]: a step that leaves the files alone. *)
Definition mkdir (path msg : text) : P unit := fs_step id msg.

Definition mint_ca (cfg : PkiCfg) : P unit :=
  if decide (out cfg = []) then pki_die $"mint-ca requires --out DIR"
  else
    do* mkdir (out cfg) ($"mkdir " ++ out cfg) in
    do* ensure_ca (out cfg) $"ca" $"kubenyx-ca" in
    do* ensure_ca (out cfg) $"front-proxy-ca" $"kubenyx-front-proxy-ca" in
    do* ensure_sa (out cfg) in
    do* eprint ($"kubenyx-pki: CA bundle ready in " ++ out cfg ++ $":") in
    do* M_iter (λ f, eprint ($"kubenyx-pki:   " ++ f)) CUSTODY_FILES in
    eprint ($"kubenyx-pki: ship these files into each durable server's pki directory (default "
            ++ $"/var/lib/kubenyx/pki) over the operator channel, and keep this directory wherever "
            ++ $"secrets live " ++ dash ++ $" the fingerprint gate cascades leaf reissuance from the "
            ++ $"shipped CA automatically").
End library.
