(* ===== verification/PkiSpec.v ===== *)
(** * Issuance, renewal and custody: what they guarantee

    A leaf that [ensure] returns from is current, and a current leaf is left
    alone; where a crash in the middle of issuing can and cannot leave a
    certificate with another key; the trust roots in the shipped and in the
    self-minted posture; and what a kubeconfig says. *)

From S2P Require Import Prelude Text Utf8 Net Paths Pki.

(** ** Specifications *)

(** What [path_join] puts before a relative name. *)
Definition dir_prefix (dir : text) : text :=
  match last dir with
  | None => []
  | Some c => if decide (c = ch "/") then dir else dir ++ [ch "/"]
  end.

(** A leaf's name: relative, and not mistaken for a fingerprint file or for a
    temporary. *)
Definition leaf_name (name : text) : Prop :=
  (∃ c s, name = c :: s ∧ c ≠ ch "/" ∧ c ≠ ch ".") ∧ ∀ s, flat_name name ≠ s ++ $".tmp".

(** The files a leaf consists of, and all that issuing it writes. *)
Definition leaf_files (pki name : text) : list text :=
  [crt_path pki name; key_path pki name; fp_path pki name].
Definition with_tmp (ps : list text) : list text := ps ++ (tmp_path <$> ps).

(** The files of a CA and of the service-account key, and a CA that needs no
    minting. *)
Definition ca_files (pki name : text) : list text :=
  [path_join pki (name ++ $".crt"); path_join pki (name ++ $".key")].
Definition sa_files (pki : text) : list text := [path_join pki $"sa.key"; path_join pki $"sa.pub"].

Definition ca_complete (pki name : text) (w : Disk) : bool :=
  non_empty (path_join pki (name ++ $".crt")) w && non_empty (path_join pki (name ++ $".key")) w.

(** Two disks that agree but on some paths. *)
Definition same_off (S : text → Prop) (w w' : Disk) : Prop :=
  ∀ p, ¬ S p → files w' !! p = files w !! p.

(** The certificate on disk is for the key on disk. *)
Definition paired `{L : !PkiLib, Laws : !PkiLaws} (pki name : text) (w : Disk) : Prop :=
  ∃ crt key, files w !! crt_path pki name = Some crt ∧ files w !! key_path pki name = Some key
             ∧ key_of crt = key.

(** A CA after [ensure_ca]: as it was when complete, new when not. *)
Definition ca_kept_or_new `{L : !PkiLib} (pki name cn : text) (w w' : Disk) : Prop :=
  if ca_complete pki name w then ∀ p, p ∈ ca_files pki name → files w' !! p = files w !! p
  else ∃ k serial, files w' !! path_join pki (name ++ $".key") = Some (keygen k)
         ∧ files w' !! path_join pki (name ++ $".crt")
           = Some (ca_cert cn (now - 300) (now + 3650 * DAY) serial (keygen k)).
Definition sa_kept_or_new `{L : !PkiLib} (pki : text) (w w' : Disk) : Prop :=
  if file_exists (path_join pki $"sa.key") w then ∀ p, p ∈ sa_files pki → files w' !! p = files w !! p
  else ∃ k, files w' !! path_join pki $"sa.key" = Some (sa_keygen k)
            ∧ files w' !! path_join pki $"sa.pub" = Some (sa_public (sa_keygen k)).

(** The trust roots after minting. *)
Definition minted `{L : !PkiLib} (pki : text) (w w' : Disk) : Prop :=
  ca_kept_or_new pki $"ca" $"kubenyx-ca" w w'
  ∧ ca_kept_or_new pki $"front-proxy-ca" $"kubenyx-front-proxy-ca" w w' ∧ sa_kept_or_new pki w w'.

(** ** Lemmas *)

(** *** Paths *)

Lemma path_join_rel dir name : is_absolute name = false → path_join dir name = dir_prefix dir ++ name.
Proof.
  intros H. unfold path_join, dir_prefix. rewrite H.
  destruct (last dir) as [c|] eqn:E; [|done]. case_decide; [done|]. by rewrite <- app_assoc.
Qed.

Lemma is_absolute_cons c s : is_absolute (c :: s) = bool_decide (c = ch "/").
Proof.
  unfold is_absolute, starts_with. simpl. case_decide as E; subst.
  - rewrite !bool_decide_true; [done|done|by eexists].
  - rewrite !bool_decide_false; [done|congruence|by intros []].
Qed.

Section leaf_paths.
Variables (pki name : text).
Hypothesis Hname : leaf_name name.

Lemma leaf_relative ext : is_absolute (name ++ ext) = false.
Proof.
  destruct Hname as [(c & s & E & Hs & _) _]. rewrite E, <- app_comm_cons, is_absolute_cons.
  by apply bool_decide_false.
Qed.
Lemma crt_path_eq : crt_path pki name = dir_prefix pki ++ name ++ $".crt".
Proof. unfold crt_path. by rewrite path_join_rel by apply leaf_relative. Qed.
Lemma key_path_eq : key_path pki name = dir_prefix pki ++ name ++ $".key".
Proof. unfold key_path. by rewrite path_join_rel by apply leaf_relative. Qed.
Lemma fp_path_eq : fp_path pki name = dir_prefix pki ++ $".fp." ++ flat_name name.
Proof. unfold fp_path. by rewrite path_join_rel. Qed.

(** A leaf's file is no fingerprint file. *)
Lemma leaf_not_fp ext t : name ++ ext ≠ $".fp." ++ t.
Proof. destruct Hname as [(c & s & -> & _ & Hd) _]. intros E. simplify_eq/=. Qed.
End leaf_paths.

Lemma app_suffix_ne (a b s t : text) : length s = length t → s ≠ t → a ++ s ≠ b ++ t.
Proof. intros Hl Hne E. by apply app_inj_2 in E as [??]. Qed.

Ltac path_ne :=
  repeat rewrite app_assoc; solve [by apply app_suffix_ne | by intros ?%app_inv_tail].

(** Files of different leaves are different, and none is another's
    temporary. *)
Lemma leaf_disjoint pki n1 n2 p : leaf_name n1 → leaf_name n2 → n1 ≠ n2 → flat_name n1 ≠ flat_name n2 →
  p ∈ with_tmp (leaf_files pki n1) → p ∉ leaf_files pki n2.
Proof.
  intros H1 H2 Hn Hf. unfold with_tmp, leaf_files, tmp_path. cbn [fmap list_fmap app].
  rewrite !crt_path_eq, !key_path_eq, !fp_path_eq by done. rewrite !elem_of_cons, <- !app_assoc.
  intros Hp Hq. rewrite !elem_of_nil in *.
  destruct Hp as [Hp|[Hp|[Hp|[Hp|[Hp|[Hp|[]]]]]]], Hq as [Hq|[Hq|[Hq|[]]]]; rewrite Hp in Hq;
    apply app_inv_head in Hq; revert Hq;
    first [by apply leaf_not_fp | by intros E%eq_sym; revert E; apply leaf_not_fp | path_ne | idtac].
  - by intros ?%app_inv_head.
  - intros E%app_inv_head. by apply (proj2 H2 (flat_name n1)).
Qed.

(** The files of one leaf. *)
Lemma leaf_paths_differ pki name : leaf_name name → NoDup (with_tmp (leaf_files pki name)).
Proof.
  intros Hn. unfold with_tmp, leaf_files, tmp_path. cbn [fmap list_fmap app].
  rewrite crt_path_eq, key_path_eq, fp_path_eq by done. rewrite <- !app_assoc.
  repeat (apply NoDup_cons; split; [rewrite ?not_elem_of_cons; repeat split; try (by apply not_elem_of_nil)|]);
    try apply NoDup_nil_2; intros E%app_inv_head; revert E;
    first [by apply leaf_not_fp | by intros E%eq_sym; revert E; apply leaf_not_fp
          | by intros ?%app_inv_head | path_ne | idtac].
  intros E%app_inv_head. apply (f_equal length) in E. rewrite length_app in E. simpl in E. lia.
Qed.

Lemma last_path_join dir name : name ≠ [] → last (path_join dir name) = last name.
Proof.
  intros Hn. unfold path_join. destruct (is_absolute name); [done|]. destruct (last dir); [|done].
  assert (∃ c, last name = Some c) as [c Hc].
  { destruct (last name) eqn:E; [by eexists|by apply last_None in E]. }
  case_decide; [by rewrite last_app, Hc|]. change (ch "/" :: name) with ([ch "/"] ++ name).
  by rewrite !last_app, Hc.
Qed.

Lemma contains_intro pat a b : contains pat (a ++ pat ++ b) = true.
Proof.
  unfold contains. apply bool_decide_true. induction a as [|x a IH]; simpl.
  - assert (strip_prefix pat (pat ++ b) = Some b) as H by apply strip_prefix_app.
    destruct (pat ++ b); simpl; rewrite H; by eexists.
  - destruct (strip_prefix pat _); [by eexists|]. destruct IH as [[c d] ->]. by eexists.
Qed.

(** *** What an operation writes *)

#[export] Instance same_off_preorder S : PreOrder (same_off S).
Proof. split; [by intros w p _|]. intros w1 w2 w3 H1 H2 p Hp. by rewrite H2, H1. Qed.

(** [m] writes only paths in [S], however it ends. *)
Abbreviation touches S m := (preserves (same_off S) m) (only parsing).

Lemma touches_weaken (S T : text → Prop) {A} (m : P A) : (∀ p, S p → T p) → touches S m → touches T m.
Proof. intros Hst Hm w p Hp. apply Hm. auto. Qed.

Lemma touches_fs_step S f msg : (∀ m p, ¬ S p → f m !! p = m !! p) → touches S (fs_step f msg).
Proof. intros Hf w p Hp. unfold fs_step. destruct (steps w); [done|]. by apply Hf. Qed.

Lemma touches_insert (S : text → Prop) path data msg : S path → touches S (fs_step <[path := data]> msg).
Proof.
  intros Hs. apply touches_fs_step. intros m p Hp. apply lookup_insert_ne. by intros ->.
Qed.

Lemma touches_eprint S line : touches S (eprint line).
Proof. by intros w p _. Qed.
Lemma touches_draw S : touches S draw.
Proof. by intros w p _. Qed.

Lemma touches_die S {A} msg : touches S (pki_die (A:=A) msg).
Proof. by intros w p _. Qed.

Create HintDb pki discriminated.
#[export] Hint Resolve touches_insert touches_eprint touches_draw touches_die : pki.
#[export] Hint Resolve preserves_ret preserves_raise preserves_gets preserves_lift
  preserves_bind preserves_iter : pki.
#[export] Hint Extern 1 (PreOrder (same_off _)) => apply same_off_preorder : pki.

(** Down the binds of an operation. *)
Ltac touch :=
  repeat first [ lazymatch goal with |- preserves _ (M_bind _ _) => apply preserves_bind; [apply _| |intros ?] end
               | case_match | progress case_decide ]; eauto with pki.

Lemma touches_read_file S path msg : touches S (read_file path msg).
Proof. unfold read_file. touch. Qed.
#[export] Hint Resolve touches_read_file : pki.

Lemma touches_write_private (S : text → Prop) path data :
  S path → S (tmp_path path) → touches S (write_private path data).
Proof.
  intros Hp Ht. unfold write_private. touch.
  - by apply touches_fs_step.
  - apply touches_fs_step. intros m p Hn. rewrite lookup_insert_ne, lookup_delete_ne; [done| |]; by intros <-.
Qed.
#[export] Hint Resolve touches_write_private : pki.

Lemma tmp_path_ne path : tmp_path path ≠ path.
Proof. intros E%(f_equal length). unfold tmp_path in E. rewrite length_app in E. simpl in E. lia. Qed.

(** It replaces the file whole or leaves it, and takes four steps. *)
Lemma write_private_cases path data w :
  let w' := (write_private path data w).2 in
  draws w' = draws w ∧ stderr w' = stderr w
  ∧ ((write_private path data w).1 = Ok tt ∧ files w' = <[path := data]> (delete (tmp_path path) (files w))
     ∧ steps w = (4 + steps w')%nat
     ∨ (∃ msg, (write_private path data w).1 = Err (PkiDie msg)) ∧ files w' !! path = files w !! path
       ∧ steps w' = 0%nat ∧ (steps w < 4)%nat).
Proof.
  unfold write_private, M_bind, fs_step. pose proof (tmp_path_ne path).
  destruct w as [fl se dr [|[|[|[|n]]]]]; simpl; split; try done; split; try done;
    first [ left; split; [done|]; split; [|done] | right; split; [by eexists|]; split; [|lia];
            rewrite ?lookup_insert_ne by done; done ].
  by rewrite insert_insert_eq, delete_insert_eq.
Qed.

(** *** Issuing a leaf *)

(** A write leaves the other files of the leaf alone. *)
Lemma write_other path data w p : p ≠ path → p ≠ tmp_path path →
  files (write_private path data w).2 !! p = files w !! p.
Proof.
  intros H1 H2. apply (touches_write_private (λ q, q = path ∨ q = tmp_path path)); naive_solver.
Qed.

Lemma leaf_files_apart pki name : leaf_name name →
  crt_path pki name ≠ key_path pki name ∧ crt_path pki name ≠ tmp_path (key_path pki name)
  ∧ crt_path pki name ≠ fp_path pki name ∧ crt_path pki name ≠ tmp_path (fp_path pki name)
  ∧ key_path pki name ≠ tmp_path (crt_path pki name) ∧ key_path pki name ≠ fp_path pki name
  ∧ key_path pki name ≠ tmp_path (fp_path pki name) ∧ fp_path pki name ≠ tmp_path (key_path pki name)
  ∧ fp_path pki name ≠ tmp_path (crt_path pki name).
Proof.
  intros H%(leaf_paths_differ pki). unfold with_tmp, leaf_files in H. cbn [fmap list_fmap app] in H.
  rewrite !NoDup_cons, !not_elem_of_cons in H. naive_solver.
Qed.

Lemma touches_write_leaf pki name key crt fp :
  touches (λ p, p ∈ with_tmp (leaf_files pki name)) (write_leaf pki name key crt fp).
Proof.
  unfold write_leaf. touch. all: apply touches_write_private; unfold with_tmp, leaf_files;
    cbn [fmap list_fmap app]; rewrite !elem_of_cons; tauto.
Qed.
#[export] Hint Resolve touches_write_leaf : pki.

(** The three files after their writes began in [w] and ended, or were cut
    off, in [w1]: how many of them are the new ones. *)
Inductive issuance (pki name key crt fp : text) (w w1 : Disk) : bool → Prop :=
| no_write :
    files w1 !! key_path pki name = files w !! key_path pki name →
    files w1 !! crt_path pki name = files w !! crt_path pki name →
    files w1 !! fp_path pki name = files w !! fp_path pki name →
    issuance pki name key crt fp w w1 false
| key_written :
    files w1 !! key_path pki name = Some key →
    files w1 !! crt_path pki name = files w !! crt_path pki name →
    files w1 !! fp_path pki name = files w !! fp_path pki name →
    issuance pki name key crt fp w w1 false
| crt_written (ended : bool) :
    files w1 !! key_path pki name = Some key →
    files w1 !! crt_path pki name = Some crt →
    files w1 !! fp_path pki name = (if ended then Some fp else files w !! fp_path pki name) →
    issuance pki name key crt fp w w1 ended.

Lemma write_leaf_issuance pki name key crt fp w : leaf_name name →
  issuance pki name key crt fp w (write_leaf pki name key crt fp w).2
    (is_ok (write_leaf pki name key crt fp w).1).
Proof.
  intros Hn. destruct (leaf_files_apart pki _ Hn) as (?&?&?&?&?&?&?&?&?). unfold write_leaf, M_bind.
  pose proof (write_private_cases (key_path pki name) key w) as (_ & _ & Hw).
  pose proof (write_other (key_path pki name) key w) as Ho.
  destruct (write_private (key_path _ _) _ w) as [res w2]. cbn [fst snd] in *.
  destruct Hw as [(-> & Hw & _)|((msg & ->) & Hw & _)]; [|apply no_write; simpl; auto].
  assert (files w2 !! key_path pki name = Some key) as Hkey by (rewrite Hw; apply lookup_insert_eq).
  clear Hw. pose proof (write_private_cases (crt_path pki name) crt w2) as (_ & _ & Hw).
  pose proof (write_other (crt_path pki name) crt w2) as Ho2.
  destruct (write_private (crt_path _ _) _ w2) as [res w3]. cbn [fst snd] in *.
  destruct Hw as [(-> & Hw & _)|((msg & ->) & Hw & _)].
  2: { apply key_written; simpl; rewrite ?Hw, ?Ho2, ?Ho by done; done. }
  assert (files w3 !! crt_path pki name = Some crt) as Hcrt by (rewrite Hw; apply lookup_insert_eq).
  clear Hw. pose proof (write_private_cases (fp_path pki name) fp w3) as (_ & _ & Hw).
  pose proof (write_other (fp_path pki name) fp w3) as Ho3.
  destruct (write_private (fp_path _ _) _ w3) as [res w4]. cbn [fst snd] in *.
  destruct Hw as [(-> & Hw & _)|((msg & ->) & Hw & _)]; simpl; apply crt_written;
    rewrite ?Ho3, ?Ho2 by done; try done.
  - rewrite Hw. apply lookup_insert_eq.
  - by rewrite Hw, Ho2, Ho.
Qed.

(** The fingerprint has no blanks at its end, so it is read back as written. *)
Lemma hex_digits_last fuel z acc : ∃ ds, hex_digits (S fuel) z acc = ds ++ hex_digit (z mod 16) :: acc.
Proof.
  revert z acc. induction fuel as [|fuel IH]; intros z acc.
  - exists []. simpl. by destruct (_ =? 0).
  - remember (S fuel) as f. cbn [hex_digits]. destruct (_ =? 0); [by exists []|]. subst f.
    destruct (IH (z / 16) (hex_digit (z mod 16) :: acc)) as [ds ->].
    exists (ds ++ [hex_digit (z / 16 mod 16)]). by rewrite <- app_assoc.
Qed.

Lemma hex_digit_not_blank d : 0 ≤ d < 16 → is_whitespace (hex_digit d) = false.
Proof.
  intros Hd. assert (d ∈ seqZ 0 16) as Hin by (apply elem_of_seqZ; lia). revert d Hin Hd.
  assert (Forall (λ d, is_whitespace (hex_digit d) = false) (seqZ 0 16)) as H by (by repeat constructor).
  rewrite Forall_forall in H. auto.
Qed.

Lemma fingerprint_trim ca r : trim_end (leaf_fingerprint ca r) = leaf_fingerprint ca r.
Proof.
  unfold leaf_fingerprint, hex16. destruct (hex_digits_last 15 (fnv1a (utf8 (is_pem ca))) []) as [ds ->].
  rewrite !app_assoc. apply trim_end_id, hex_digit_not_blank, Z.mod_pos_bound. lia.
Qed.

Section issuing.
Context `{L : !PkiLib}.

Lemma touches_ensure pki rs ld ca r :
  touches (λ p, p ∈ with_tmp (leaf_files pki (rq_name r))) (ensure pki rs ld ca r).
Proof. unfold ensure. touch. Qed.

Lemma leaf_current_ext pki rs ca r w w' :
  (∀ p, p ∈ leaf_files pki (rq_name r) → files w' !! p = files w !! p) →
  leaf_current pki rs ca r w' = leaf_current pki rs ca r w.
Proof.
  intros H. unfold leaf_current, file_exists.
  by rewrite !H by (unfold leaf_files; rewrite !elem_of_cons; tauto).
Qed.

Lemma ensure_idle pki rs ld ca r w : leaf_current pki rs ca r w = true → ensure pki rs ld ca r w = (Ok tt, w).
Proof. intros H. unfold ensure, M_bind, M_gets. by rewrite H. Qed.

Context `{Laws : !PkiLaws}.

(** What an issuance starts from: the files as they are, a fresh key, and a
    certificate for it that ends on the day asked for; or it ends before any
    write. *)
Lemma ensure_cases pki rs ld ca r w : leaf_current pki rs ca r w = false →
  (is_ok (ensure pki rs ld ca r w).1 = false ∧ files (ensure pki rs ld ca r w).2 = files w)
  ∨ ∃ k crt na w0, key_of crt = keygen k ∧ not_after_ts crt = Some na ∧ in_days ld = Some na
      ∧ files w0 = files w ∧ steps w0 = steps w
      ∧ ensure pki rs ld ca r w = write_leaf pki (rq_name r) (keygen k) crt (leaf_fingerprint ca r) w0.
Proof.
  intros Hc. unfold ensure, M_bind, M_gets, eprint, M_modify, draw, M_lift, pki_die, M_raise. rewrite Hc.
  destruct (in_days ld) as [na|] eqn:Ed; cbn [of_option]; [|by left].
  destruct (check_sans (rq_san r)) as [[]|e]; [|by left].
  match goal with |- context [leaf_cert ?l ?k ?p ?q] => destruct (leaf_cert l k p q) as [crt|e] eqn:El end;
    [|by left].
  right. eexists _, crt, na, _. split; [by eapply leaf_cert_key|].
  split; [by eapply (leaf_cert_end _ _ _ _ _ El)|]. split; [done|]. cbn. split_and!; cycle 2; done.
Qed.

(** Issued: current, and a pair. *)
Lemma ensure_renews pki rs ld ca r w w' : leaf_name (rq_name r) → is_i64 (now + rs) → rs < ld * DAY →
  ensure pki rs ld ca r w = (Ok tt, w') →
  leaf_current pki rs ca r w' = true ∧ (leaf_current pki rs ca r w = true ∧ w' = w ∨ paired pki (rq_name r) w').
Proof.
  intros Hn Hi Hr E. destruct (leaf_current pki rs ca r w) eqn:Hc.
  { rewrite ensure_idle in E by done. simplify_eq. auto. }
  destruct (ensure_cases pki rs ld ca r w Hc) as [[Hok _]|(k & crt & na & w0 & Hk & Hna & Hd & Hf & _ & E2)].
  { by rewrite E in Hok. }
  rewrite E in E2. pose proof (write_leaf_issuance pki (rq_name r) (keygen k) crt (leaf_fingerprint ca r) w0 Hn) as Hw.
  rewrite <- E2 in Hw. simpl in Hw. inversion Hw as [| |ended Hkey Hcrt Hfp]; subst.
  split; [|right; by exists crt, (keygen k)].
  unfold leaf_current, file_exists. rewrite Hkey, Hcrt, Hfp, Hna, fingerprint_trim.
  destruct (in_days_spec _ _ Hd) as [-> _]. rewrite wrap_i64_small by done.
  rewrite !bool_decide_true by (done || by eexists). simpl. apply Z.ltb_lt. lia.
Qed.
End issuing.

(** *** Custody files *)

Lemma custody_relative f : f ∈ CUSTODY_FILES → is_absolute f = false.
Proof.
  assert (Forall (λ f : text, is_absolute f = false) CUSTODY_FILES) as H by (by vm_compute; repeat constructor).
  rewrite Forall_forall in H. auto.
Qed.

Lemma custody_path dir f : f ∈ CUSTODY_FILES → path_join dir f = dir_prefix dir ++ f.
Proof. intros. by apply path_join_rel, custody_relative. Qed.

(** The custody files and their temporaries are all different. *)
Lemma custody_differ dir : NoDup (with_tmp (path_join dir <$> CUSTODY_FILES)).
Proof.
  assert (path_join dir <$> CUSTODY_FILES = app (dir_prefix dir) <$> CUSTODY_FILES) as ->.
  { apply list_fmap_ext. intros i f Hf%list_elem_of_lookup_2. by apply custody_path. }
  assert (with_tmp (app (dir_prefix dir) <$> CUSTODY_FILES) = app (dir_prefix dir) <$> with_tmp CUSTODY_FILES) as ->.
  { unfold with_tmp. rewrite fmap_app, <- !list_fmap_compose. f_equal. apply list_fmap_ext. intros i f _.
    unfold tmp_path, compose. by rewrite app_assoc. }
  apply NoDup_fmap_2; [apply _|]. apply (bool_decide_unpack _). by vm_compute.
Qed.

Section minting.
Context `{L : !PkiLib}.

Lemma touches_ensure_ca pki name cn :
  touches (λ p, p ∈ with_tmp (ca_files pki name)) (ensure_ca pki name cn).
Proof.
  unfold ensure_ca. touch. all: apply touches_write_private; unfold with_tmp, ca_files;
    cbn [fmap list_fmap app]; rewrite !elem_of_cons; tauto.
Qed.

Lemma touches_ensure_sa pki : touches (λ p, p ∈ with_tmp (sa_files pki)) (ensure_sa pki).
Proof.
  unfold ensure_sa. touch. all: apply touches_write_private; unfold with_tmp, sa_files;
    cbn [fmap list_fmap app]; rewrite !elem_of_cons; tauto.
Qed.

(** With room to write, a write succeeds. *)
Lemma write_private_ok path data w : (4 ≤ steps w)%nat → ∃ w',
  write_private path data w = (Ok tt, w') ∧ files w' = <[path := data]> (delete (tmp_path path) (files w))
  ∧ (steps w = 4 + steps w')%nat.
Proof.
  intros H. destruct (write_private_cases path data w) as (_ & _ & [(E & Hf & Hs)|(_ & _ & _ & ?)]); [|lia].
  exists (write_private path data w).2. split; [|done]. by destruct (write_private path data w); simplify_eq/=.
Qed.

(** Two files written one after the other. *)
Lemma write_two p q a b w : (8 ≤ steps w)%nat → p ≠ q → p ≠ tmp_path q → ∃ w1 w',
  write_private p a w = (Ok tt, w1) ∧ write_private q b w1 = (Ok tt, w')
  ∧ files w' !! p = Some a ∧ files w' !! q = Some b ∧ (steps w = 8 + steps w')%nat.
Proof.
  intros Hs H1 H2. destruct (write_private_ok p a w) as (w1 & E1 & F1 & S1); [lia|].
  destruct (write_private_ok q b w1) as (w2 & E2 & F2 & S2); [lia|].
  exists w1, w2. rewrite F2, F1. split; [done|]. split; [done|].
  rewrite lookup_insert_ne, lookup_delete_ne, lookup_insert_eq by done.
  rewrite lookup_insert_eq. auto with lia.
Qed.

Lemma ensure_ca_ok pki name cn w : (8 ≤ steps w)%nat →
  path_join pki (name ++ $".key") ≠ path_join pki (name ++ $".crt") →
  path_join pki (name ++ $".key") ≠ tmp_path (path_join pki (name ++ $".crt")) →
  ∃ w', ensure_ca pki name cn w = (Ok tt, w') ∧ (steps w ≤ 8 + steps w')%nat
    ∧ if ca_complete pki name w then w' = w
      else ∃ k serial, files w' !! path_join pki (name ++ $".key") = Some (keygen k)
             ∧ files w' !! path_join pki (name ++ $".crt")
               = Some (ca_cert cn (now - 300) (now + 3650 * DAY) serial (keygen k)).
Proof.
  intros Hs H1 H2. unfold ensure_ca. rewrite M_bind_gets. fold (ca_complete pki name w).
  destruct (ca_complete pki name w) eqn:Hc; [eexists; split; [done|]; split; [lia|done]|].
  rewrite (M_bind_ok _ draw w _ _ eq_refl), (M_bind_ok _ draw _ _ _ eq_refl).
  match goal with |- context [M_bind (λ _, M_bind _ (write_private ?q ?b)) (write_private ?p ?a) ?w1] =>
    destruct (write_two p q a b w1) as (w2 & w3 & E1 & E2 & Hk & Hcr & Hst); [cbn [steps]; lia|done..|] end.
  rewrite (M_bind_ok _ _ _ _ _ E1), (M_bind_ok _ _ _ _ _ E2).
  cbn [steps] in Hst. eexists. split; [done|]. cbn [files steps]. split; [lia|]. by eexists _, _.
Qed.

Lemma ensure_sa_ok pki w : (8 ≤ steps w)%nat →
  path_join pki $"sa.key" ≠ path_join pki $"sa.pub" →
  path_join pki $"sa.key" ≠ tmp_path (path_join pki $"sa.pub") →
  ∃ w', ensure_sa pki w = (Ok tt, w') ∧ (steps w ≤ 8 + steps w')%nat
    ∧ if file_exists (path_join pki $"sa.key") w then w' = w
      else ∃ k, files w' !! path_join pki $"sa.key" = Some (sa_keygen k)
                ∧ files w' !! path_join pki $"sa.pub" = Some (sa_public (sa_keygen k)).
Proof.
  intros Hs H1 H2. unfold ensure_sa. rewrite M_bind_gets.
  destruct (file_exists _ w); [eexists; split; [done|]; split; [lia|done]|].
  rewrite (M_bind_ok _ draw w _ _ eq_refl).
  destruct (write_two (path_join pki $"sa.key") (path_join pki $"sa.pub") (sa_keygen (draws w))
     (sa_public (sa_keygen (draws w))) (mkDisk (files w) (stderr w) (S (draws w)) (steps w)))
    as (w1 & w2 & E1 & E2 & Hk & Hp & Hst); [cbn [steps]; lia|done..|].
  rewrite (M_bind_ok _ _ _ _ _ E1), E2. cbn [steps] in Hst. eexists. split; [done|]. split; [lia|]. eauto.
Qed.

(** The custody files of a directory apart from each other. *)
Lemma custody_apart dir a b : a ∈ CUSTODY_FILES → b ∈ CUSTODY_FILES → a ≠ b →
  path_join dir a ≠ path_join dir b ∧ path_join dir a ≠ tmp_path (path_join dir b).
Proof.
  intros Ha Hb Hab. pose proof (custody_differ dir) as H. unfold with_tmp in H.
  apply NoDup_app in H as (_ & Hd & _).
  split; [rewrite !custody_path by done; by intros ?%app_inv_head|].
  intros E. apply (Hd (path_join dir a)); [by apply list_elem_of_fmap_2|].
  rewrite E. by apply list_elem_of_fmap_2, list_elem_of_fmap_2.
Qed.

Lemma custody_frame dir l1 l2 p :
  Forall (λ f, f ∈ CUSTODY_FILES ∧ f ∉ l2) l1 → Forall (λ f, f ∈ CUSTODY_FILES) l2 →
  p ∈ path_join dir <$> l1 → p ∉ with_tmp (path_join dir <$> l2).
Proof.
  rewrite !Forall_forall. intros H1 H2 (a & -> & Ha)%list_elem_of_fmap. destruct (H1 a Ha) as [Hc Hn].
  unfold with_tmp. rewrite elem_of_app, !list_elem_of_fmap.
  intros [(b & E & Hb)|(q & E & (b & -> & Hb)%list_elem_of_fmap)];
    destruct (custody_apart dir a b) as [Hx Hy]; auto; by intros ->.
Qed.

(** What issuing one trust root leaves of the others. *)
Lemma trust_frames pki p :
  (p ∈ ca_files pki $"ca" → p ∉ with_tmp (ca_files pki $"front-proxy-ca") ∧ p ∉ with_tmp (sa_files pki))
  ∧ (p ∈ ca_files pki $"front-proxy-ca" → p ∉ with_tmp (ca_files pki $"ca") ∧ p ∉ with_tmp (sa_files pki))
  ∧ (p ∈ sa_files pki → p ∉ with_tmp (ca_files pki $"ca") ∧ p ∉ with_tmp (ca_files pki $"front-proxy-ca")).
Proof.
  set (ca := [$"ca.crt"; $"ca.key"]). set (fp := [$"front-proxy-ca.crt"; $"front-proxy-ca.key"]).
  set (sa := [$"sa.key"; $"sa.pub"]).
  split_and!; intros Hp; (split; revert Hp);
    [apply (custody_frame pki ca fp) | apply (custody_frame pki ca sa) | apply (custody_frame pki fp ca)
    |apply (custody_frame pki fp sa) | apply (custody_frame pki sa ca) | apply (custody_frame pki sa fp)];
    apply (bool_decide_unpack _); by vm_compute.
Qed.

Lemma non_empty_ext p w w' : files w' !! p = files w !! p → non_empty p w' = non_empty p w.
Proof. unfold non_empty. by intros ->. Qed.

Lemma ca_complete_ext pki name w w' : (∀ p, p ∈ ca_files pki name → files w' !! p = files w !! p) →
  ca_complete pki name w' = ca_complete pki name w.
Proof.
  intros H. unfold ca_complete. f_equal; apply non_empty_ext, H; unfold ca_files; rewrite !elem_of_cons; tauto.
Qed.

(** Neither looks at other files, before or after. *)
Lemma ca_kept_or_new_ext pki name cn v v' w w' :
  (∀ p, p ∈ ca_files pki name → files v !! p = files w !! p) →
  (∀ p, p ∈ ca_files pki name → files v' !! p = files w' !! p) →
  ca_kept_or_new pki name cn w w' → ca_kept_or_new pki name cn v v'.
Proof.
  intros Hv Hv'. unfold ca_kept_or_new. rewrite (ca_complete_ext _ _ w v Hv). case_match.
  - intros Hkeep p Hp. by rewrite Hv', Hv, Hkeep.
  - intros (k & serial & Hk & Hc). exists k, serial.
    rewrite !Hv' by (unfold ca_files; rewrite !elem_of_cons; tauto). done.
Qed.

Lemma sa_kept_or_new_ext pki v v' w w' :
  (∀ p, p ∈ sa_files pki → files v !! p = files w !! p) →
  (∀ p, p ∈ sa_files pki → files v' !! p = files w' !! p) →
  sa_kept_or_new pki w w' → sa_kept_or_new pki v v'.
Proof.
  intros Hv Hv'. unfold sa_kept_or_new, file_exists.
  rewrite Hv by (unfold sa_files; rewrite !elem_of_cons; tauto). case_match.
  - intros Hkeep p Hp. by rewrite Hv', Hv, Hkeep.
  - intros (k & Hk & Hc). exists k. rewrite !Hv' by (unfold sa_files; rewrite !elem_of_cons; tauto). done.
Qed.

Lemma ensure_ca_minted pki name cn w : (8 ≤ steps w)%nat → name ∈ [$"ca"; $"front-proxy-ca"] →
  ∃ w', ensure_ca pki name cn w = (Ok tt, w') ∧ (steps w ≤ 8 + steps w')%nat
        ∧ ca_kept_or_new pki name cn w w'.
Proof.
  intros Hs Hn. destruct (ensure_ca_ok pki name cn w Hs) as (w' & E & Hst & H).
  1,2: repeat (apply elem_of_cons in Hn as [->|Hn]); try (by apply elem_of_nil in Hn);
    apply (custody_apart pki); try (apply (bool_decide_unpack _); by vm_compute); done.
  exists w'. split; [done|]. split; [done|]. unfold ca_kept_or_new.
  destruct (ca_complete pki name w); [by subst|done].
Qed.

Lemma ensure_sa_minted pki w : (8 ≤ steps w)%nat →
  ∃ w', ensure_sa pki w = (Ok tt, w') ∧ (steps w ≤ 8 + steps w')%nat ∧ sa_kept_or_new pki w w'.
Proof.
  intros Hs. destruct (ensure_sa_ok pki w Hs) as (w' & E & Hst & H).
  1,2: apply (custody_apart pki); try (apply (bool_decide_unpack _); by vm_compute); done.
  exists w'. split; [done|]. split; [done|]. unfold sa_kept_or_new.
  destruct (file_exists _ w); [by subst|done].
Qed.

Lemma minted_ext pki v v' w w' : files v = files w → files v' = files w' →
  minted pki w w' → minted pki v v'.
Proof.
  intros Hv Hv' (H1 & H2 & H3). split_and!; [..|eapply sa_kept_or_new_ext; [..|exact H3]];
    [eapply ca_kept_or_new_ext; [..|exact H1]|eapply ca_kept_or_new_ext; [..|exact H2]| |];
    intros; by rewrite ?Hv, ?Hv'.
Qed.

(** The three steps of minting, from a disk with room. *)
Lemma minting_ok {A} pki (k : P A) w : (24 ≤ steps w)%nat → ∃ w',
  (do* ensure_ca pki $"ca" $"kubenyx-ca" in
   do* ensure_ca pki $"front-proxy-ca" $"kubenyx-front-proxy-ca" in do* ensure_sa pki in k) w = k w'
  ∧ minted pki w w' ∧ (steps w ≤ 24 + steps w')%nat.
Proof.
  intros Hs. pose proof (trust_frames pki) as F.
  destruct (ensure_ca_minted pki $"ca" $"kubenyx-ca" w) as (w1 & E1 & S1 & H1); [lia|by left|].
  destruct (ensure_ca_minted pki $"front-proxy-ca" $"kubenyx-front-proxy-ca" w1) as (w2 & E2 & S2 & H2);
    [lia|by right; left|].
  destruct (ensure_sa_minted pki w2) as (w3 & E3 & S3 & H3); [lia|].
  rewrite (M_bind_ok _ _ _ _ _ E1), (M_bind_ok _ _ _ _ _ E2), (M_bind_ok _ _ _ _ _ E3).
  pose proof (touches_ensure_ca pki $"ca" $"kubenyx-ca" w) as T1. rewrite E1 in T1.
  pose proof (touches_ensure_ca pki $"front-proxy-ca" $"kubenyx-front-proxy-ca" w1) as T2. rewrite E2 in T2.
  pose proof (touches_ensure_sa pki w2) as T3. rewrite E3 in T3. cbn [snd] in *.
  exists w3. split; [done|]. split; [|lia]. split_and!.
  - eapply ca_kept_or_new_ext; [..|exact H1]; [done|]. intros p Hp.
    destruct (proj1 (F p) Hp). by rewrite T3, T2.
  - eapply ca_kept_or_new_ext; [..|exact H2]; intros p Hp; destruct (proj1 (proj2 (F p)) Hp);
      [by rewrite T1|by rewrite T3].
  - eapply sa_kept_or_new_ext; [..|exact H3]; [|done]. intros p Hp.
    destruct (proj2 (proj2 (F p)) Hp). by rewrite T2, T1.
Qed.

(** The verb around them: a directory, and what is reported. *)
Lemma mint_ca_minted cfg w : out cfg ≠ [] → (25 ≤ steps w)%nat → ∃ w',
  mint_ca cfg w = (Ok tt, w') ∧ minted (out cfg) w w'.
Proof.
  intros Ho Hs. unfold mint_ca, mkdir. rewrite decide_False by done.
  destruct w as [fl se dr [|n]]; [simpl in Hs; lia|]. cbn [steps] in Hs.
  rewrite (M_bind_ok _ _ _ tt (mkDisk fl se dr n)) by done.
  match goal with |- context [M_bind (λ _, M_bind (λ _, M_bind (λ _, ?k) _) _) _ ?v] =>
    destruct (minting_ok (out cfg) k v) as (w1 & -> & Hm & _); [cbn [steps]; lia|] end.
  assert (∀ l (v : Disk), ∃ v', files v' = files v ∧ M_iter (λ f, eprint ($"kubenyx-pki:   " ++ f)) l v = (Ok tt, v'))
    as Hprint.
  { intros l. induction l as [|f l IH]; intros v; [by exists v|].
    destruct (IH (eprint ($"kubenyx-pki:   " ++ f) v).2) as (v' & Hf & E). by exists v'. }
  rewrite (M_bind_ok _ (eprint _) w1 _ _ eq_refl).
  match goal with |- context [M_bind _ (M_iter _ _) ?v] => destruct (Hprint CUSTODY_FILES v) as (v' & Hv & E) end.
  rewrite (M_bind_ok _ _ _ _ _ E). eexists. split; [done|].
  eapply minted_ext; [..|exact Hm]; [done|exact Hv].
Qed.

Lemma missing_custody_nil dir w :
  missing_custody dir w = [] ↔ ∀ f, f ∈ CUSTODY_FILES → non_empty (path_join dir f) w = true.
Proof.
  unfold missing_custody. split.
  - intros H f Hf. destruct (non_empty _ w) eqn:E; [done|].
    by destruct (filter_nil_not_elem_of _ _ f H E Hf).
  - intros H. apply filter_none, Forall_forall. intros f Hf. by rewrite H.
Qed.

Lemma non_empty_intro p data w : files w !! p = Some data → data ≠ [] → non_empty p w = true.
Proof. unfold non_empty. intros ->. by destruct data. Qed.

Context `{Laws : !PkiLaws}.

Lemma ca_kept_complete pki name cn w w' : ca_kept_or_new pki name cn w w' →
  ca_complete pki name w' = true.
Proof.
  unfold ca_kept_or_new. destruct (ca_complete pki name w) eqn:E.
  - intros Hk. by rewrite (ca_complete_ext _ _ w w' Hk).
  - intros (k & serial & Hk & Hc). unfold ca_complete.
    by rewrite (non_empty_intro _ _ _ Hk (keygen_pem _)), (non_empty_intro _ _ _ Hc (ca_cert_pem _ _ _ _ _)).
Qed.

(** What is still missing after minting. *)
Lemma minted_missing pki w w' : minted pki w w' →
  missing_custody pki w' = []
  ↔ (file_exists (path_join pki $"sa.key") w = true →
     non_empty (path_join pki $"sa.key") w = true ∧ non_empty (path_join pki $"sa.pub") w = true).
Proof.
  intros (H1 & H2 & H3). rewrite missing_custody_nil.
  apply ca_kept_complete in H1. apply ca_kept_complete in H2. unfold ca_complete in *. zbool.
  assert ((∀ f, f ∈ CUSTODY_FILES → non_empty (path_join pki f) w' = true)
          ↔ non_empty (path_join pki $"sa.key") w' = true ∧ non_empty (path_join pki $"sa.pub") w' = true) as ->.
  { split; [intros Hall; split; apply Hall; apply (bool_decide_unpack _); by vm_compute|].
    intros [??] f. unfold CUSTODY_FILES. rewrite !elem_of_cons, elem_of_nil.
    intros [->|[->|[->|[->|[->|[->|[]]]]]]]; done. }
  unfold sa_kept_or_new in H3. destruct (file_exists _ w).
  - rewrite !(non_empty_ext _ w w') by (apply H3; unfold sa_files; rewrite !elem_of_cons; tauto). naive_solver.
  - destruct H3 as (k & Hk & Hp). split; [done|]. intros _.
    by rewrite (non_empty_intro _ _ _ Hk (sa_keygen_pem _)), (non_empty_intro _ _ _ Hp (sa_public_pem _)).
Qed.
End minting.

(** *** A library for concrete runs

    A key is its number; a certificate is the sign and size of the end of its
    validity before the key it was signed with. *)
#[local] Instance toy_lib : PkiLib := {
  keygen n := [N.of_nat n];
  ca_cert _ _ _ _ k := ch "C" :: k;
  leaf_cert l k _ _ := Ok ((if lf_not_after l <? 0 then 1%N else 0%N) :: Z.abs_N (lf_not_after l) :: k);
  issuer_ok _ _ := Ok tt;
  not_after_ts c := match c with
                    | s :: n :: _ => Some (if (s =? 0)%N then Z.of_N n else - Z.of_N n)
                    | _ => None
                    end;
  sa_keygen n := [N.of_nat n];
  sa_public k := ch "P" :: k;
  ia5 _ := true;
  b64 bs := (λ b, b + 66000)%N <$> bs;
  now := 1000;
  in_days d := if (i64_min <=? 1000 + d * DAY) && (1000 + d * DAY <=? i64_max) then Some (1000 + d * DAY) else None;
  node_probes := [None; Some (V4 [10; 0; 0; 7])];
  node_interfaces := None;
}.

#[local] Instance toy_laws : PkiLaws.
Proof.
  apply (Build_PkiLaws toy_lib (drop 2)).
  - by intros l k ic ik c [= <-].
  - intros l k ic ik c [= <-]. cbn [not_after_ts toy_lib]. f_equal.
    destruct (Z.ltb_spec (lf_not_after l) 0); simpl; lia.
  - intros d t. cbn [in_days toy_lib]. destruct (_ && _) eqn:E; [|done]. intros [= <-]. zbool. done.
  - done.
  - done.
  - done.
  - done.
Defined.

(** ** Theorems *)

(** C36: a crash while a leaf is being issued is repaired.  Take a leaf that is
    there with its key, or not there, and whose certificate is for its key
    if the tool would keep it.  Cut [ensure] off after any number of file
    system steps: it is still so, and what the next run keeps is a
    certificate with its own key, never one with the new key of the
    interrupted run. *)
Theorem ensure_crash_safe `{Laws : PkiLaws} pki rs ld ca r w res w1 : leaf_name (rq_name r) →
  (is_Some (files w !! crt_path pki (rq_name r)) → is_Some (files w !! key_path pki (rq_name r))) →
  (leaf_current pki rs ca r w = true → paired pki (rq_name r) w) →
  ensure pki rs ld ca r w = (res, w1) →
  (is_Some (files w1 !! crt_path pki (rq_name r)) → is_Some (files w1 !! key_path pki (rq_name r)))
  ∧ (leaf_current pki rs ca r w1 = true → paired pki (rq_name r) w1).
Proof.
  intros Hn Hkey Hpair E. destruct (leaf_current pki rs ca r w) eqn:Hc.
  { rewrite ensure_idle in E by done. simplify_eq. auto. }
  assert (∀ v, files v !! crt_path pki (rq_name r) = files w !! crt_path pki (rq_name r) →
               files v !! fp_path pki (rq_name r) = files w !! fp_path pki (rq_name r) →
               leaf_current pki rs ca r v = false) as Hstale.
  { intros v Hcv Hfv. unfold leaf_current, file_exists in *. rewrite Hcv, Hfv.
    destruct (files w !! crt_path pki _); [|done]. rewrite (bool_decide_true (is_Some (files w !! key_path _ _))) in Hc by auto.
    by destruct (bool_decide (is_Some _)). }
  destruct (ensure_cases pki rs ld ca r w Hc) as [[_ Hf]|(k & crt & na & w0 & Hk & Hna & Hd & Hf & _ & E2)].
  { rewrite E in Hf. cbn [snd] in Hf. rewrite Hf. split; [done|]. rewrite Hstale by by rewrite Hf. done. }
  rewrite E in E2. pose proof (write_leaf_issuance pki (rq_name r) (keygen k) crt (leaf_fingerprint ca r) w0 Hn) as Hw.
  rewrite <- E2 in Hw. cbn [snd] in Hw. inversion Hw as [H1 H2 H3|H1 H2 H3|ended H1 H2 H3]; subst.
  all: try rewrite Hf in H1; try rewrite Hf in H2; try rewrite Hf in H3.
  - rewrite (Hstale w1 H2 H3), H1, H2. by split.
  - rewrite (Hstale w1 H2 H3), H1. split; [by eexists|done].
  - rewrite H1. split; [by eexists|]. intros _. by exists crt, (keygen k).
Qed.

Lemma ensure_crash_safe_witness :
  ∃ pki ca r w,
    leaf_name (rq_name r)
    ∧ ∀ n, leaf_current pki DAY ca r (ensure pki DAY 30 ca r (mkDisk (files w) [] 7 n)).2 = true →
           paired pki (rq_name r) (ensure pki DAY 30 ca r (mkDisk (files w) [] 7 n)).2.
Proof.
  set (r := client_leaf $"admin" $"kubenyx-admin" None). set (ca := mkIssuer $"k" $"c" $"ca").
  set (w := mkDisk {[ $"p/admin.crt" := [1%N; 5%N; 3%N]; $"p/admin.key" := [9%N] ]} [] 7 0).
  assert (leaf_name (rq_name r)) as Hn.
  { split; [eexists _, _; split; [done|]; by vm_compute|].
    intros s E. assert (strip_suffix $".tmp" (flat_name $"admin") = Some s) as E2 by (by apply strip_suffix_Some).
    by vm_compute in E2. }
  exists $"p", ca, r, w. split; [done|]. intros n.
  pose proof (ensure_crash_safe $"p" DAY 30 ca r (mkDisk (files w) [] 7 n)) as H.
  destruct (ensure $"p" DAY 30 ca r (mkDisk (files w) [] 7 n)) as [res w1].
  apply (H res w1 Hn); [intros _; eexists; by vm_compute|by vm_compute|done].
Defined.

(** But a key lost from under a current leaf is not: cut off after the new
    key is in place, the run leaves the old certificate with it, and every
    later run keeps the two. *)
Example lost_key_mixes :
  let r := client_leaf $"admin" $"kubenyx-admin" None in
  let ca := mkIssuer $"k" $"c" $"ca" in
  let before := (ensure $"p" DAY 30 ca r (mkDisk ∅ [] 1 100)).2 in
  let lost := mkDisk (delete $"p/admin.key" (files before)) [] 7 4 in
  let after := (ensure $"p" DAY 30 ca r lost).2 in
  leaf_current $"p" DAY ca r after = true
  ∧ (drop 2 <$> files after !! $"p/admin.crt") = Some [1%N] ∧ files after !! $"p/admin.key" = Some [7%N].
Proof. by vm_compute. Qed.

(** C37: what [mint-ca] does to an operator's directory.  With room on the disk
    it always ends well; a CA of which both files are there and not empty
    keeps them, any other CA gets a new key and a new certificate in both;
    the service-account pair is kept as soon as sa.key exists.  So the bundle
    it reports is complete, except when sa.key was there without a proper
    sa.pub, or empty. *)
Theorem mint_ca_spec `{Laws : PkiLaws} cfg w : out cfg ≠ [] → (25 ≤ steps w)%nat → ∃ w',
  mint_ca cfg w = (Ok tt, w')
  ∧ (∀ name, name ∈ [$"ca"; $"front-proxy-ca"] →
       if ca_complete (out cfg) name w then ∀ p, p ∈ ca_files (out cfg) name → files w' !! p = files w !! p
       else ∃ cn k serial, files w' !! path_join (out cfg) (name ++ $".key") = Some (keygen k)
              ∧ files w' !! path_join (out cfg) (name ++ $".crt")
                = Some (ca_cert cn (now - 300) (now + 3650 * DAY) serial (keygen k)))
  ∧ (if file_exists (path_join (out cfg) $"sa.key") w
     then ∀ p, p ∈ sa_files (out cfg) → files w' !! p = files w !! p
     else ∃ k, files w' !! path_join (out cfg) $"sa.key" = Some (sa_keygen k)
               ∧ files w' !! path_join (out cfg) $"sa.pub" = Some (sa_public (sa_keygen k)))
  ∧ (missing_custody (out cfg) w' = []
     ↔ (file_exists (path_join (out cfg) $"sa.key") w = true →
        non_empty (path_join (out cfg) $"sa.key") w = true ∧ non_empty (path_join (out cfg) $"sa.pub") w = true)).
Proof.
  intros Ho Hs. destruct (mint_ca_minted cfg w Ho Hs) as (w' & E & Hm). exists w'. split; [done|].
  pose proof (minted_missing _ _ _ Hm) as Hmiss. destruct Hm as (H1 & H2 & H3). split; [|by split].
  intros name. rewrite !elem_of_cons, elem_of_nil. intros [->|[->|[]]];
    [unfold ca_kept_or_new in H1|unfold ca_kept_or_new in H2]; destruct (ca_complete _ _ _); eauto.
Qed.

Lemma mint_ca_spec_witness :
  ∃ cfg w w', mint_ca cfg w = (Ok tt, w') ∧ missing_custody (out cfg) w' = [$"sa.pub"].
Proof.
  set (cfg := mkPkiCfg $"mint-ca" [] [] [] None [] [] [] [] [] 365 30 false [] $"ca-bundle" false [] [] None).
  set (w := mkDisk {[ $"ca-bundle/sa.key" := $"old" ]} [] 0 25).
  destruct (mint_ca_spec cfg w) as (w' & E & _ & _ & _); [by vm_compute|by vm_compute; lia|].
  exists cfg, w, w'. split; [done|]. assert (w' = (mint_ca cfg w).2) as -> by by rewrite E. by vm_compute.
Defined.
