(* ===== verification/PkiServer.v ===== *)
(** * A server's credentials: custody and renewal over a whole run

    What [server] writes and what it leaves; that a finished run has settled
    everything, so that the next one changes nothing. *)

From S2P Require Import Prelude Text Utf8 Paths Pki PkiSpec.

(** ** Specifications *)

Definition FIXED_NAMES : list text :=
  [$"apiserver"; $"apiserver-kubelet-client"; $"front-proxy-client"; $"admin"; $"bootstrap";
   $"controller-manager"; $"scheduler"; $"kube-proxy"; $"coredns"; $"healthz"; $"etcd-server";
   $"apiserver-etcd-client"].
Definition kubelet_name (m : text) : text := $"nodes/" ++ m ++ $"/kubelet".
Definition kubelet_server_name (m : text) : text := $"nodes/" ++ m ++ $"/kubelet-server".

(** A name a server asks a leaf for. *)
Inductive server_name (ms : list text) : text → Prop :=
| fixed_name n : n ∈ FIXED_NAMES → server_name ms n
| node_kubelet m : m ∈ ms → server_name ms (kubelet_name m)
| node_kubelet_server m : m ∈ ms → server_name ms (kubelet_server_name m).

(** Where a packaged file goes, and where a kubeconfig is written. *)
Definition packaged (pki : text) (ms : list text) (p : text) : Prop :=
  ∃ m f, m ∈ ms ∧ f ∈ PACKAGE_FILES ∧ p = path_join (package_dir pki m) f.
Definition leaf_written (pki : text) (ms : list text) (p : text) : Prop :=
  ∃ n, server_name ms n ∧ p ∈ with_tmp (leaf_files pki n).
Definition config_written (kc : text) (outs : list text) (p : text) : Prop :=
  ∃ out, out ∈ outs ∧ p ∈ with_tmp [path_join kc out].

(** A leaf's files, seen from the directory. *)
Definition rel_files (n : text) : list text :=
  [n ++ $".crt"; n ++ $".key"; n ++ $".crt.tmp"; n ++ $".key.tmp"].

(** The issuances of a run. *)
Definition sel_issuer (ca fp_ca : Issuer) (front_proxy : bool) : Issuer := if front_proxy then fp_ca else ca.

Definition issue_all `{L : !PkiLib} (pki : text) (rs ld : Z) (sel : bool → Issuer) (l : list (bool * LeafReq)) : P unit :=
  M_iter (λ '(b, r), ensure pki rs ld (sel b) r) l.

(** All that a run writes after the trust roots. *)
Definition run_written (cfg : PkiCfg) (p : text) : Prop :=
  leaf_written (pki cfg) (nodes cfg).*1 p ∨ packaged (pki cfg) (nodes cfg).*1 p
  ∨ config_written (kc cfg) (server_kubeconfigs cfg).*1.*1 p.

(** A step of the run that changes nothing: on a disk with these files, and
    [c] more steps to go, it returns [a] and leaves them. *)
Definition quiet {A : Type} (c : nat) (fl : gmap text text) (m : P A) (a : A) : Prop := ∀ v,
  files v = fl → (c ≤ steps v)%nat →
  ∃ v', m v = (Ok a, v') ∧ files v' = fl ∧ draws v' = draws v ∧ (steps v ≤ c + steps v')%nat.

(** A packaged file is the one it was copied from. *)
Definition copied (pki m f : text) (w : Disk) : Prop :=
  ∃ data, files w !! path_join pki f = Some data
          ∧ files w !! path_join (package_dir pki m) f = Some data.

(** A kubeconfig the tool would not write again. *)
Definition config_fresh `{L : !PkiLib} (cfg : PkiCfg) (ca_pem : text) (k : text * text * text) (w : Disk) : Prop :=
  ∃ crt key body, files w !! crt_path (pki cfg) k.2 = Some crt ∧ files w !! key_path (pki cfg) k.2 = Some key
    ∧ files w !! path_join (kc cfg) k.1.1 = Some body
    ∧ kubeconfig_fresh (api_url cfg) ca_pem crt body = true.

(** The trust roots a run may start from. *)
Definition trusted (cfg : PkiCfg) (w : Disk) : Prop :=
  if require_shipped_ca cfg then missing_custody (pki cfg) w = []
  else ca_complete (pki cfg) $"ca" w = true ∧ ca_complete (pki cfg) $"front-proxy-ca" w = true
       ∧ file_exists (path_join (pki cfg) $"sa.key") w = true.

(** The state a run leaves. *)
Definition remotes (cfg : PkiCfg) : list text := filter (λ n, n ≠ node_name cfg) (nodes cfg).*1.
Definition settled `{L : !PkiLib} (cfg : PkiCfg) (ca fp_ca : Issuer) (ip ca_pem : text) (w : Disk) : Prop :=
  trusted cfg w
  ∧ (∀ x, x ∈ server_requests cfg ip →
       leaf_current (pki cfg) (wrap_i64 (renew_days cfg * DAY)) (sel_issuer ca fp_ca x.1) x.2 w = true)
  ∧ (∀ m f, m ∈ remotes cfg → f ∈ PACKAGE_FILES → copied (pki cfg) m f w)
  ∧ files w !! path_join (pki cfg) $"ca.crt" = Some ca_pem
  ∧ ∀ k, k ∈ server_kubeconfigs cfg → config_fresh cfg ca_pem k w.

(** A server and a worker, on an empty disk. *)
Definition demo_cfg : PkiCfg :=
  mkPkiCfg $"server" $"p" $"k" $"s1" (Some $"10.0.0.1") $"https://10.0.0.1:6443" $"cluster.local" $"10.96.0.1" []
    [($"s1", None); ($"w1", Some $"10.0.0.2")] 365 30 true [] [] false [] [] None.

(** ** Lemmas *)

(** *** Names *)

Lemma flat_name_plain m : plain_name m → flat_name m = m.
Proof.
  intros (_ & _ & Hs). unfold flat_name. induction m as [|c m IH]; [done|].
  apply not_elem_of_cons in Hs as [Hc Hm]. rewrite fmap_cons, IH, decide_False by (done || congruence). done.
Qed.

Lemma flat_name_app a b : flat_name (a ++ b) = flat_name a ++ flat_name b.
Proof. apply fmap_app. Qed.

Lemma flat_kubelet m : plain_name m → flat_name (kubelet_name m) = $"nodes_" ++ m ++ $"_kubelet".
Proof. intros Hm. unfold kubelet_name. by rewrite !flat_name_app, (flat_name_plain m Hm). Qed.
Lemma flat_kubelet_server m : plain_name m →
  flat_name (kubelet_server_name m) = $"nodes_" ++ m ++ $"_kubelet-server".
Proof. intros Hm. unfold kubelet_server_name. by rewrite !flat_name_app, (flat_name_plain m Hm). Qed.

(** Facts on the fixed names are computed. *)
Lemma fixed_check (Q : text → Prop) `{∀ n, Decision (Q n)} :
  bool_decide (Forall Q FIXED_NAMES) = true → ∀ n, n ∈ FIXED_NAMES → Q n.
Proof. intros HQ n Hn. apply bool_decide_eq_true in HQ. rewrite Forall_forall in HQ. auto. Qed.

Lemma no_suffix (e x : text) : strip_suffix e x = None → ∀ s, x ≠ s ++ e.
Proof. intros H s E. assert (strip_suffix e x = Some s) by (by apply strip_suffix_Some). congruence. Qed.

(** *** Paths *)

Lemma dir_prefix_snoc dir c : last dir = Some c → c ≠ ch "/" → dir_prefix dir = dir ++ [ch "/"].
Proof. intros H Hc. unfold dir_prefix. by rewrite H, decide_False. Qed.

Lemma package_path pki m f : plain_name m → is_absolute f = false →
  path_join (package_dir pki m) f = dir_prefix pki ++ $"nodes/" ++ m ++ $"/" ++ f.
Proof.
  intros Hm Hf. unfold package_dir. rewrite (path_join_rel pki) by done.
  rewrite (path_join_rel _ m) by (by apply plain_relative). rewrite path_join_rel by done.
  rewrite (dir_prefix_snoc (_ ++ $"nodes") (ch "s")) by (done || by rewrite last_app).
  destruct Hm as (Hne & _ & Hs). destruct m as [|c m _] using rev_ind; [done|].
  rewrite (dir_prefix_snoc _ c); [|by rewrite app_assoc, last_snoc|intros ->; set_solver].
  by rewrite <- !app_assoc.
Qed.

(** The names of packaged files. *)
Lemma package_file f : f ∈ PACKAGE_FILES →
  is_absolute f = false ∧ f ∉ [$"kubelet.crt"; $"kubelet.key"; $"kubelet-server.crt"; $"kubelet-server.key"]
  ∧ head f ≠ Some (ch ".") ∧ head f ≠ Some (ch "n").
Proof.
  assert (Forall (λ f, is_absolute f = false
    ∧ f ∉ [$"kubelet.crt"; $"kubelet.key"; $"kubelet-server.crt"; $"kubelet-server.key"]
    ∧ head f ≠ Some (ch ".") ∧ head f ≠ Some (ch "n")) PACKAGE_FILES) as H
    by (apply (bool_decide_unpack _); by vm_compute).
  rewrite Forall_forall in H. auto.
Qed.

Lemma split_slash m m' (a b : text) : ch "/" ∉ m → ch "/" ∉ m' →
  m ++ ch "/" :: a = m' ++ ch "/" :: b → m = m' ∧ a = b.
Proof.
  intros Hm Hm' E. assert (split_once (ch "/") (m ++ ch "/" :: a) = Some (m, a)) as E1 by (by apply split_once_Some).
  assert (split_once (ch "/") (m' ++ ch "/" :: b) = Some (m', b)) as E2 by (by apply split_once_Some).
  rewrite E in E1. by simplify_eq.
Qed.

Section names.
Variable ms : list text.
Hypothesis Hms : Forall plain_name ms.

Lemma server_leaf_name n : server_name ms n →
  leaf_name n ∧ last (flat_name n) ≠ Some (ch "g") ∧ (4 ≤ length (flat_name n))%nat.
Proof.
  rewrite Forall_forall in Hms. intros [f Hf|m Hm|m Hm].
  - split_and!; [split|..].
    + assert (f ≠ [] ∧ head f ≠ Some (ch "/") ∧ head f ≠ Some (ch ".")) as (H0 & H1 & H2)
        by (by apply (fixed_check (λ f, f ≠ [] ∧ head f ≠ Some (ch "/") ∧ head f ≠ Some (ch ".")))).
      destruct f as [|c s]; [done|]. exists c, s. simpl in *. split; [done|]. split; congruence.
    + apply no_suffix. by apply (fixed_check (λ f, strip_suffix $".tmp" (flat_name f) = None)).
    + by apply (fixed_check (λ f, last (flat_name f) ≠ Some (ch "g"))).
    + by apply (fixed_check (λ f, 4 ≤ length (flat_name f))%nat).
  - split_and!; [split; [by eexists _, _|]|..]; rewrite (flat_kubelet m) by auto.
    + intros s E%(f_equal last). by rewrite app_assoc, !last_app in E.
    + by rewrite app_assoc, last_app.
    + rewrite length_app. simpl. lia.
  - split_and!; [split; [by eexists _, _|]|..]; rewrite (flat_kubelet_server m) by auto.
    + intros s E%(f_equal last). by rewrite app_assoc, !last_app in E.
    + by rewrite app_assoc, last_app.
    + rewrite length_app. simpl. lia.
Qed.

Lemma leaf_written_rel pki p : leaf_written pki ms p →
  (∃ n x, server_name ms n ∧ x ∈ rel_files n ∧ p = dir_prefix pki ++ x)
  ∨ ∃ t, p = dir_prefix pki ++ $".fp." ++ t.
Proof.
  intros (n & Hn & Hp). destruct (server_leaf_name n Hn) as [Hl _].
  unfold with_tmp, leaf_files, tmp_path in Hp. cbn [fmap list_fmap app] in Hp.
  rewrite crt_path_eq, key_path_eq, fp_path_eq in Hp by done. rewrite <- !app_assoc in Hp.
  rewrite !elem_of_cons, elem_of_nil in Hp.
  destruct Hp as [->|[->|[->|[->|[->|[->|[]]]]]]]; [left|left|right|left|left|right]; eauto;
    exists n; eexists; (split; [done|]); (split; [|reflexivity]); unfold rel_files; rewrite !elem_of_cons; tauto.
Qed.

(** No leaf is written over a custody file, nor over a file that is not its
    own. *)
Lemma leaf_written_custody pki f : f ∈ CUSTODY_FILES → ¬ leaf_written pki ms (path_join pki f).
Proof.
  intros Hf H%leaf_written_rel. rewrite custody_path in H by done.
  assert (∀ x, dir_prefix pki ++ f ≠ dir_prefix pki ++ $".fp." ++ x ∧ f ≠ $"nodes/" ++ x) as Hhead.
  { assert (Forall (λ f : text, head f ≠ Some (ch ".") ∧ head f ≠ Some (ch "n")) CUSTODY_FILES) as Hh
      by (apply (bool_decide_unpack _); by vm_compute).
    rewrite Forall_forall in Hh. destruct (Hh f Hf) as [H1 H2].
    intros x. split; [intros ->%app_inv_head|intros ->]; done. }
  destruct H as [(n & x & Hn & Hx & E%app_inv_head)|(t & E)]; [|by apply (Hhead t) in E]. subst x.
  destruct Hn as [n Hn|m _|m _].
  - revert Hx. apply (fixed_check (λ n, f ∉ rel_files n)); [|done].
    assert (Forall (λ f, bool_decide (Forall (λ n, f ∉ rel_files n) FIXED_NAMES) = true) CUSTODY_FILES) as Hc
      by (apply (bool_decide_unpack _); by vm_compute).
    rewrite Forall_forall in Hc. by apply Hc.
  - unfold rel_files, kubelet_name in Hx. rewrite <- !app_assoc in Hx.
    rewrite !elem_of_cons, elem_of_nil in Hx. destruct Hx as [E|[E|[E|[E|[]]]]]; by apply Hhead in E.
  - unfold rel_files, kubelet_server_name in Hx. rewrite <- !app_assoc in Hx.
    rewrite !elem_of_cons, elem_of_nil in Hx. destruct Hx as [E|[E|[E|[E|[]]]]]; by apply Hhead in E.
Qed.

Lemma packaged_rel pki p : packaged pki ms p →
  ∃ m f, plain_name m ∧ f ∈ PACKAGE_FILES ∧ p = dir_prefix pki ++ $"nodes/" ++ m ++ $"/" ++ f.
Proof.
  intros (m & f & Hm & Hf & ->). rewrite Forall_forall in Hms. exists m, f.
  split; [auto|]. split; [done|]. apply package_path; [auto|]. by apply package_file.
Qed.

Lemma packaged_custody pki f : f ∈ CUSTODY_FILES → ¬ packaged pki ms (path_join pki f).
Proof.
  intros Hf (m & g & _ & _ & E)%packaged_rel. rewrite custody_path in E by done. apply app_inv_head in E.
  assert (Forall (λ f : text, head f ≠ Some (ch "n")) CUSTODY_FILES) as Hh
    by (apply (bool_decide_unpack _); by vm_compute).
  rewrite Forall_forall in Hh. apply Hh in Hf. by subst f.
Qed.

Lemma packaged_leaf pki n p : server_name ms n → p ∈ leaf_files pki n → ¬ packaged pki ms p.
Proof.
  intros Hn Hp (m & g & (Hm & _ & Hs) & Hg & ->)%packaged_rel.
  destruct (server_leaf_name n Hn) as [Hl _]. destruct (package_file g Hg) as (_ & Hk & _).
  unfold leaf_files in Hp. rewrite crt_path_eq, key_path_eq, fp_path_eq in Hp by done.
  rewrite !elem_of_cons, elem_of_nil in Hp. rewrite Forall_forall in Hms.
  assert (∀ x, n ++ x ≠ $"nodes/" ++ m ++ $"/" ++ g ∨ x ∉ [$".crt"; $".key"]) as Hne.
  { intros x. destruct (decide (x ∈ [$".crt"; $".key"])) as [Hx|]; [left|by right]. intros E.
    destruct Hn as [n Hn|m' Hm'|m' Hm'].
    - assert (head n ≠ Some (ch "n") ∧ n ≠ []) as [H1 H2]
        by (by apply (fixed_check (λ n, head n ≠ Some (ch "n") ∧ n ≠ []))).
      destruct n as [|c n]; [done|]. by simplify_eq/=.
    - unfold kubelet_name in E. rewrite <- !app_assoc in E. apply app_inv_head in E.
      apply (split_slash m' m ($"kubelet" ++ x) g) in E as [_ <-]; [|by apply (Hms m')|done].
      apply Hk. rewrite !elem_of_cons, elem_of_nil in Hx. rewrite !elem_of_cons.
      destruct Hx as [->|[->|[]]]; auto.
    - unfold kubelet_server_name in E. rewrite <- !app_assoc in E. apply app_inv_head in E.
      apply (split_slash m' m ($"kubelet-server" ++ x) g) in E as [_ <-]; [|by apply (Hms m')|done].
      apply Hk. rewrite !elem_of_cons, elem_of_nil in Hx. rewrite !elem_of_cons.
      destruct Hx as [->|[->|[]]]; auto 6. }
  destruct Hp as [E|[E|[E|[]]]]; apply app_inv_head in E; [| |done]; symmetry in E;
    [destruct (Hne $".crt") as [?|Hx]|destruct (Hne $".key") as [?|Hx]]; try done; apply Hx;
    rewrite !elem_of_cons; auto.
Qed.
End names.

(** A kubeconfig, or its temporary. *)
Lemma config_written_end kc outs p : Forall (λ out, is_absolute out = false ∧ last out = Some (ch "g")) outs →
  config_written kc outs p → last p = Some (ch "g") ∨ ∃ s, p = s ++ $".tmp".
Proof.
  rewrite Forall_forall. intros Ho (out & Hin & Hp). destruct (Ho out Hin) as [Hr Hl].
  unfold with_tmp in Hp. cbn [fmap list_fmap app] in Hp. rewrite !elem_of_cons, elem_of_nil in Hp.
  destruct Hp as [->|[->|[]]]; [left|right; by eexists].
  rewrite path_join_rel by done. by rewrite last_app, Hl.
Qed.

(** *** The requests of a server *)

Lemma requests_eq cfg ip :
  (λ x, rq_name x.2) <$> server_requests cfg ip
  = (if etcd cfg then FIXED_NAMES else take 10 FIXED_NAMES)
    ++ ((nodes cfg).*1 ≫= λ m, [kubelet_name m; kubelet_server_name m]).
Proof.
  unfold server_requests. rewrite fmap_app. f_equal.
  - unfold server_leaves. by destruct (etcd cfg).
  - induction (nodes cfg) as [|[m a] ns IH]; [done|].
    rewrite !bind_cons, fmap_cons, !fmap_app, bind_cons, <- IH. done.
Qed.

Lemma request_names cfg ip b r : (b, r) ∈ server_requests cfg ip → server_name (nodes cfg).*1 (rq_name r).
Proof.
  intros Hin%(list_elem_of_fmap_2 (λ x, rq_name x.2)). rewrite requests_eq in Hin. cbn [snd] in Hin.
  apply elem_of_app in Hin as [Hin|(m & Hin & Hm)%list_elem_of_bind].
  - apply fixed_name. destruct (etcd cfg); [done|]. apply elem_of_take in Hin as (i & Hi & _). by eapply list_elem_of_lookup_2.
  - rewrite !elem_of_cons, elem_of_nil in Hin. destruct Hin as [->|[->|[]]]; by constructor.
Qed.

Lemma list_fmap_of_bind {A B C} (g : B → C) (f : A → list B) l : g <$> (l ≫= f) = l ≫= λ x, g <$> f x.
Proof. induction l as [|x l IH]; [done|]. by rewrite !bind_cons, fmap_app, IH. Qed.

Lemma flat_fixed n : n ∈ FIXED_NAMES → strip_prefix $"nodes_" (flat_name n) = None.
Proof. by apply (fixed_check (λ n, strip_prefix $"nodes_" (flat_name n) = None)). Qed.

Lemma request_flats cfg ip : Forall plain_name (nodes cfg).*1 → NoDup (nodes cfg).*1 →
  NoDup ((λ x, flat_name (rq_name x.2)) <$> server_requests cfg ip).
Proof.
  intros Hp Hd. rewrite (list_fmap_compose (λ x : bool * LeafReq, rq_name x.2) flat_name), requests_eq.
  rewrite Forall_forall in Hp. rewrite fmap_app. apply NoDup_app. split_and!.
  - destruct (etcd cfg); apply (bool_decide_unpack _); by vm_compute.
  - intros x (n & -> & Hn)%list_elem_of_fmap (n' & E & (m & Hin & Hm)%list_elem_of_bind)%list_elem_of_fmap.
    assert (n ∈ FIXED_NAMES) as Hf.
    { destruct (etcd cfg); [done|]. apply elem_of_take in Hn as (i & Hi & _). by eapply list_elem_of_lookup_2. }
    apply flat_fixed in Hf. rewrite E in Hf. rewrite !elem_of_cons, elem_of_nil in Hin.
    destruct Hin as [->|[->|[]]]; rewrite ?flat_kubelet, ?flat_kubelet_server in Hf by auto;
      by rewrite strip_prefix_app in Hf.
  - rewrite list_fmap_of_bind. apply NoDup_bind; [| |done].
    + intros m m' y Hm Hm' Hy Hy'.
      rewrite !fmap_cons, fmap_nil in *. rewrite ?flat_kubelet, ?flat_kubelet_server in Hy, Hy' by auto.
      rewrite !elem_of_cons, elem_of_nil in Hy, Hy'.
      destruct Hy as [->|[->|[]]], Hy' as [E|[E|[]]]; apply app_inv_head in E;
        [by apply app_inv_tail in E| | |by apply app_inv_tail in E];
        apply (f_equal last) in E; by rewrite !last_app in E.
    + intros m Hm. rewrite !fmap_cons, fmap_nil, flat_kubelet, flat_kubelet_server by auto.
      apply NoDup_cons. split; [|apply NoDup_singleton]. rewrite list_elem_of_singleton.
      intros E%(f_equal last). by rewrite !app_assoc, !last_app in E.
Qed.

(** *** What each part of a run writes *)

Section writes.
Context `{L : !PkiLib}.

Lemma touches_issue_all (S : text → Prop) pki rs ld sel l :
  (∀ b r p, (b, r) ∈ l → p ∈ with_tmp (leaf_files pki (rq_name r)) → S p) →
  touches S (issue_all pki rs ld sel l).
Proof.
  intros H. apply preserves_iter; [apply _|]. apply Forall_forall. intros [b r] Hin.
  eapply touches_weaken, touches_ensure. intros p. by apply (H b).
Qed.

Lemma touches_copy (S : text → Prop) src dst msg : S dst → touches S (copy_file src dst msg).
Proof. intros Hd. unfold copy_file. touch. Qed.

Lemma touches_packages (S : text → Prop) pki ms : (∀ p, packaged pki ms p → S p) →
  touches S (M_iter (package pki) ms).
Proof.
  intros H. apply preserves_iter; [apply _|]. apply Forall_forall. intros m Hm.
  unfold package. apply preserves_iter; [apply _|]. apply Forall_forall. intros f Hf.
  apply touches_copy, H. by exists m, f.
Qed.

Lemma touches_kubeconfig (S : text → Prop) kc out url user ca crt key :
  (∀ p, p ∈ with_tmp [path_join kc out] → S p) → touches S (write_kubeconfig kc out url user ca crt key).
Proof.
  intros H. unfold write_kubeconfig. touch. apply touches_write_private; apply H;
    unfold with_tmp; cbn [fmap list_fmap app]; rewrite !elem_of_cons; tauto.
Qed.

Lemma touches_render_all (S : text → Prop) cfg kcs : (∀ p, config_written (kc cfg) kcs.*1.*1 p → S p) →
  touches S (render_all cfg kcs).
Proof.
  intros H. unfold render_all. touch. apply preserves_iter; [apply _|]. apply Forall_forall.
  intros [[out user] base] Hin. apply touches_kubeconfig. intros p Hp. apply H. exists out. split; [|done].
  apply (list_elem_of_fmap_2 fst), (list_elem_of_fmap_2 fst) in Hin. done.
Qed.

Lemma touches_load_issuer S pki name : touches S (load_issuer pki name).
Proof. unfold load_issuer. touch. Qed.
Lemma touches_node_ip S : touches S detect_node_ip.
Proof. unfold detect_node_ip. touch. Qed.
#[local] Hint Resolve touches_load_issuer touches_node_ip : pki.

Lemma touches_shipped S cfg : require_shipped_ca cfg = true → touches S (trust_roots cfg).
Proof. intros H. unfold trust_roots. rewrite H. touch. Qed.

Lemma touches_server cfg : require_shipped_ca cfg = true → touches (run_written cfg) (server cfg).
Proof.
  intros Hs. unfold server. touch.
  - by apply touches_shipped.
  - apply touches_issue_all. intros b r p Hin Hp. left. exists (rq_name r).
    split; [by eapply request_names|done].
  - apply touches_packages. intros p (m & f & Hm & Hf & ->). right; left. exists m, f.
    split; [|done]. by apply list_elem_of_filter in Hm as [_ ?].
  - apply touches_render_all. by right; right.
Qed.

Lemma server_outs cfg :
  Forall (λ out, is_absolute out = false ∧ last out = Some (ch "g")) (server_kubeconfigs cfg).*1.*1.
Proof. apply (bool_decide_unpack _). by vm_compute. Qed.

Lemma custody_last f : f ∈ CUSTODY_FILES → last f ≠ Some (ch "g") ∧ last f ≠ Some (ch "p") ∧ f ≠ [].
Proof.
  assert (Forall (λ f, last f ≠ Some (ch "g") ∧ last f ≠ Some (ch "p") ∧ f ≠ []) CUSTODY_FILES) as H
    by (apply (bool_decide_unpack _); by vm_compute).
  rewrite Forall_forall in H. auto.
Qed.

Lemma run_custody cfg f : Forall plain_name (nodes cfg).*1 → f ∈ CUSTODY_FILES →
  ¬ run_written cfg (path_join (pki cfg) f).
Proof.
  intros Hp Hf [H|[H|H]].
  - by apply leaf_written_custody in H.
  - by apply packaged_custody in H.
  - apply config_written_end in H; [|apply server_outs]. rewrite custody_path in H by done.
    destruct (custody_last f Hf) as (H1 & H2 & H3). rewrite last_app in H.
    destruct H as [E|[s E%(f_equal last)]]; rewrite ?last_app in E; destruct (last f) eqn:El; simplify_eq/=;
      by apply last_None in El.
Qed.
End writes.

(** *** A second run *)

Lemma quiet_bind {A B} c1 c2 fl (m : P A) (f : A → P B) a b :
  quiet c1 fl m a → quiet c2 fl (f a) b → quiet (c1 + c2) fl (M_bind f m) b.
Proof.
  intros H1 H2 v Hv Hs. destruct (H1 v Hv) as (v1 & E1 & F1 & D1 & S1); [lia|].
  destruct (H2 v1 F1) as (v2 & E2 & F2 & D2 & S2); [lia|].
  exists v2. rewrite (M_bind_ok _ _ _ _ _ E1), E2, F2, D2, D1. auto with lia.
Qed.

Lemma quiet_weaken {A} c c' fl (m : P A) a : (c ≤ c')%nat → quiet c fl m a → quiet c' fl m a.
Proof. intros Hc H v Hv Hs. destruct (H v Hv) as (v' & ? & ? & ? & ?); [lia|]. exists v'. auto with lia. Qed.

Lemma quiet_ret {A} fl (a : A) : quiet 0 fl (M_ret a) a.
Proof. intros v Hv _. by exists v. Qed.

Lemma quiet_gets {A} fl (g : Disk → A) a : (∀ v, files v = fl → g v = a) → quiet 0 fl (M_gets g) a.
Proof. intros H v Hv _. exists v. by rewrite <- (H v Hv). Qed.

Lemma quiet_eprint fl line : quiet 0 fl (eprint line) tt.
Proof. intros v Hv _. by eexists. Qed.

Lemma quiet_iter {A} c fl (f : A → P unit) l :
  (∀ x, x ∈ l → quiet c fl (f x) tt) → quiet (c * length l) fl (M_iter f l) tt.
Proof.
  induction l as [|x l IH]; intros H; [rewrite Nat.mul_0_r; apply quiet_ret|].
  cbn [length M_iter]. rewrite Nat.mul_succ_r, Nat.add_comm.
  apply quiet_bind with tt; [apply H; left|apply IH; intros; apply H; by right].
Qed.

Lemma quiet_read fl path msg data : fl !! path = Some data → quiet 0 fl (read_file path msg) data.
Proof.
  intros H. apply (quiet_bind 0 0 _ _ _ (Some data)); [|apply quiet_ret].
  apply quiet_gets. by intros v ->.
Qed.

Lemma quiet_copy fl src dst msg data : fl !! src = Some data → fl !! dst = Some data →
  quiet 2 fl (copy_file src dst msg) tt.
Proof.
  intros H1 H2. apply (quiet_bind 0 2 _ _ _ data); [by apply quiet_read|].
  intros [fl' se dr [|[|n]]] <- Hs; cbn [steps files draws] in *; [lia..|].
  eexists. split; [done|]. cbn [steps files draws]. split; [|split; [done|lia]].
  by rewrite insert_insert_eq, insert_id.
Qed.

Lemma quiet_node_ip : ∀ `{L : !PkiLib}, ∃ ip, ∀ fl, quiet 0 fl detect_node_ip ip.
Proof.
  intros L. unfold detect_node_ip. repeat case_match; eexists; intros fl; try apply quiet_ret.
  apply (quiet_bind 0 0 _ _ _ tt); [apply quiet_eprint|apply quiet_ret].
Qed.

(** *** What a finished run has settled *)

Lemma read_file_Ok path msg w data w' : read_file path msg w = (Ok data, w') → w' = w ∧ files w !! path = Some data.
Proof. unfold read_file. rewrite M_bind_gets. destruct (files w !! path); [|done]. by intros [= <- <-]. Qed.

Lemma fs_step_Ok f msg w w' : fs_step f msg w = (Ok tt, w') → files w' = f (files w).
Proof. unfold fs_step. destruct (steps w); [done|]. by intros [= <-]. Qed.

Lemma copy_file_Ok src dst msg w w' : copy_file src dst msg w = (Ok tt, w') →
  ∃ data, files w !! src = Some data ∧ files w' = <[dst := data]> (files w).
Proof.
  intros (data & w1 & E1 & E)%M_bind_Ok_inv. apply read_file_Ok in E1 as [-> E1].
  apply M_bind_Ok_inv in E as ([] & w2 & E2%fs_step_Ok & E3%fs_step_Ok).
  exists data. split; [done|]. by rewrite E3, E2, insert_insert_eq.
Qed.

Lemma package_src f : f ∈ PACKAGE_FILES → ∀ pki m g, plain_name m → g ∈ PACKAGE_FILES →
  path_join (package_dir pki m) g ≠ path_join pki f.
Proof.
  intros Hf pki m g Hm Hg. destruct (package_file f Hf) as (Hr & _ & _ & Hn).
  rewrite package_path, path_join_rel by (done || by apply package_file).
  intros E%app_inv_head. by subst f.
Qed.

Lemma package_dst_inj pki m g m' f : plain_name m → plain_name m' → g ∈ PACKAGE_FILES → f ∈ PACKAGE_FILES →
  path_join (package_dir pki m) g = path_join (package_dir pki m') f → m = m' ∧ g = f.
Proof.
  intros Hm Hm' Hg Hf. rewrite !package_path by (done || by apply package_file).
  intros E%app_inv_head%app_inv_head. apply split_slash in E; [done|apply Hm|apply Hm'].
Qed.

(** One copy settles its file and leaves the settled ones. *)
Lemma copy_settles pki m g w w' msg : plain_name m → g ∈ PACKAGE_FILES →
  copy_file (path_join pki g) (path_join (package_dir pki m) g) msg w = (Ok tt, w') →
  copied pki m g w'
  ∧ ∀ m' f, plain_name m' → f ∈ PACKAGE_FILES → copied pki m' f w → copied pki m' f w'.
Proof.
  intros Hm Hg (data & Hsrc & Hf)%copy_file_Ok. split.
  - exists data. rewrite Hf, lookup_insert_eq, lookup_insert_ne; [done|]. by apply package_src.
  - intros m' f Hm' Hf' (d & H1 & H2). unfold copied. rewrite Hf.
    rewrite lookup_insert_ne by (by apply package_src). exists d. split; [done|].
    destruct (decide (path_join (package_dir pki m) g = path_join (package_dir pki m') f)) as [E|Hne].
    + rewrite E, lookup_insert_eq. apply package_dst_inj in E as [-> ->]; [|done..]. congruence.
    + by rewrite lookup_insert_ne.
Qed.

Lemma packages_settle pki ms w w' : Forall plain_name ms → M_iter (package pki) ms w = (Ok tt, w') →
  ∀ m f, m ∈ ms → f ∈ PACKAGE_FILES → copied pki m f w'.
Proof.
  rewrite Forall_forall. intros Hms E m f Hm Hf. revert f Hf.
  apply (M_iter_establish (package pki) (λ m w, ∀ f, f ∈ PACKAGE_FILES → copied pki m f w) ms) with w;
    [| |done..].
  - intros x s s' Hx Ex. apply (M_iter_establish (package_one pki x) (λ f s, copied pki x f s) PACKAGE_FILES) with s; [| |exact Ex].
    + intros g v v' Hg Eg. eapply copy_settles in Eg as [H _]; eauto.
    + intros g f v v' Hg Hf Eg. eapply copy_settles in Eg as [_ H]; eauto.
  - intros x y s s' Hx Hy Ex HQ f Hf.
    assert (∀ k, k ⊆ PACKAGE_FILES → ∀ v v', M_iter (package_one pki x) k v = (Ok tt, v') → copied pki y f v → copied pki y f v') as Hk.
    { induction k as [|g k IH]; intros Hk v v' Ev Hc; [simpl in Ev; by injection Ev as <-|].
      cbn [M_iter] in Ev. apply M_bind_Ok_inv in Ev as ([] & v1 & E1 & E2).
      eapply IH; [|exact E2|]; [intros z Hz; apply Hk; by right|].
      eapply copy_settles in E1 as [_ H]; [|by auto|apply Hk; left]. by apply H; auto. }
    eapply (Hk PACKAGE_FILES); [done|exact Ex|auto].
Qed.

Lemma packages_quiet pki ms fl : (∀ v m f, files v = fl → m ∈ ms → f ∈ PACKAGE_FILES → copied pki m f v) →
  quiet (10 * length ms) fl (M_iter (package pki) ms) tt.
Proof.
  intros H. apply quiet_iter. intros m Hm. apply (quiet_iter 2 _ _ PACKAGE_FILES). intros f Hf.
  destruct (H (mkDisk fl [] 0 0) m f eq_refl Hm Hf) as (data & H1 & H2). by apply quiet_copy with data.
Qed.

(** *** Kubeconfigs *)

Section kubeconfigs.
Context `{L : !PkiLib}.

(** What is rendered is fresh. *)
Lemma render_fresh url user ca crt key : kubeconfig_fresh url ca crt (render_kubeconfig url user ca crt key) = true.
Proof.
  assert (∀ pat a b s, s = a ++ pat ++ b → contains pat s = true) as H by (intros ???? ->; apply contains_intro).
  unfold kubeconfig_fresh, render_kubeconfig. rewrite !andb_true_iff. split_and!.
  - eapply (H _ ($"apiVersion: v1" ++ nl ++ $"kind: Config" ++ nl ++ $"clusters:" ++ nl ++ $"- name: kubenyx" ++ nl
      ++ $"  cluster:" ++ nl ++ $"    certificate-authority-data: " ++ b64 (utf8 ca) ++ nl ++ $"    ")).
    rewrite <- !app_assoc. reflexivity.
  - eapply (H _ ($"apiVersion: v1" ++ nl ++ $"kind: Config" ++ nl ++ $"clusters:" ++ nl ++ $"- name: kubenyx" ++ nl
      ++ $"  cluster:" ++ nl ++ $"    certificate-authority-data: " ++ b64 (utf8 ca) ++ nl ++ $"    server: " ++ url
      ++ nl ++ $"users:" ++ nl ++ $"- name: " ++ user ++ nl ++ $"  user:" ++ nl ++ $"    client-certificate-data: ")).
    rewrite <- !app_assoc. reflexivity.
  - eapply (H _ ($"apiVersion: v1" ++ nl ++ $"kind: Config" ++ nl ++ $"clusters:" ++ nl ++ $"- name: kubenyx" ++ nl
      ++ $"  cluster:" ++ nl ++ $"    certificate-authority-data: ")).
    rewrite <- !app_assoc. reflexivity.
Qed.

Lemma write_kubeconfig_Ok kc out url user ca crtp keyp w w' :
  write_kubeconfig kc out url user ca crtp keyp w = (Ok tt, w') →
  ∃ crt key body, files w !! crtp = Some crt ∧ files w !! keyp = Some key
    ∧ files w' !! path_join kc out = Some body ∧ kubeconfig_fresh url ca crt body = true.
Proof.
  unfold write_kubeconfig. intros (crt & w1 & E1 & E)%M_bind_Ok_inv. apply read_file_Ok in E1 as [-> E1].
  apply M_bind_Ok_inv in E as (key & w1 & E2 & E). apply read_file_Ok in E2 as [-> E2].
  rewrite M_bind_gets in E. exists crt, key.
  destruct (files w !! path_join kc out) as [body|] eqn:Eb; [destruct (kubeconfig_fresh url ca crt body) eqn:Ef|].
  - injection E as <-. by exists body.
  - destruct (write_private_cases (path_join kc out) (render_kubeconfig url user ca crt key) w)
      as (_ & _ & [(_ & Hf & _)|((msg & Hm) & _)]); rewrite E in *; [|done].
    eexists. cbn [snd] in Hf. rewrite Hf, lookup_insert_eq. split_and!; [done..|]. apply render_fresh.
  - destruct (write_private_cases (path_join kc out) (render_kubeconfig url user ca crt key) w)
      as (_ & _ & [(_ & Hf & _)|((msg & Hm) & _)]); rewrite E in *; [|done].
    eexists. cbn [snd] in Hf. rewrite Hf, lookup_insert_eq. split_and!; [done..|]. apply render_fresh.
Qed.

Lemma config_fresh_ext cfg ca k w w' :
  (∀ p, p ∈ [crt_path (pki cfg) k.2; key_path (pki cfg) k.2; path_join (kc cfg) k.1.1] →
        files w' !! p = files w !! p) →
  config_fresh cfg ca k w → config_fresh cfg ca k w'.
Proof.
  intros H (crt & key & body & H1 & H2 & H3 & H4). exists crt, key, body.
  rewrite !H by (rewrite !elem_of_cons; tauto). done.
Qed.

Lemma config_quiet cfg ca k fl : (∀ w, files w = fl → config_fresh cfg ca k w) →
  quiet 0 fl (let '(out, user, base) := k in
              write_kubeconfig (kc cfg) out (api_url cfg) user ca (crt_path (pki cfg) base) (key_path (pki cfg) base)) tt.
Proof.
  intros H. destruct k as [[out user] base].
  destruct (H (mkDisk fl [] 0 0) eq_refl) as (crt & key & body & H1 & H2 & H3 & H4). cbn [files fst snd] in *.
  unfold write_kubeconfig. apply (quiet_bind 0 0 _ _ _ crt); [by apply quiet_read|].
  apply (quiet_bind 0 0 _ _ _ key); [by apply quiet_read|].
  apply (quiet_bind 0 0 _ _ _ true); [|apply quiet_ret]. apply quiet_gets. intros v ->. by rewrite H3.
Qed.

(** Certificates and keys are not where kubeconfigs are written. *)
Lemma config_apart kc pki out base ext : is_absolute out = false → last out = Some (ch "g") →
  ext ∈ [$".crt"; $".key"] → path_join pki (base ++ ext) ∉ with_tmp [path_join kc out].
Proof.
  intros Hr Hg Hext Hin. rewrite !elem_of_cons, elem_of_nil in Hext.
  assert (last (path_join pki (base ++ ext)) = last ext ∧ last ext ≠ Some (ch "g") ∧ last ext ≠ Some (ch "p"))
    as (Hl & H1 & H2).
  { rewrite last_path_join by (destruct Hext as [->|[->|[]]]; by destruct base).
    rewrite last_app. by destruct Hext as [->|[->|[]]]. }
  destruct (config_written_end kc [out] (path_join pki (base ++ ext))) as [Hx|[s Hx]].
  - by constructor.
  - exists out. split; [by left|done].
  - congruence.
  - rewrite Hx, last_app in Hl. by symmetry in Hl.
Qed.

Lemma config_outs_apart kc out out' : is_absolute out = false → is_absolute out' = false →
  last out = Some (ch "g") → last out' = Some (ch "g") → out' ≠ out →
  path_join kc out' ∉ with_tmp [path_join kc out].
Proof.
  intros Hr Hr' Hg Hg' Hne. unfold with_tmp, tmp_path. cbn [fmap list_fmap app].
  rewrite !path_join_rel, !elem_of_cons, elem_of_nil by done.
  intros [E|[E|[]]]; [by apply app_inv_head in E|]. apply (f_equal last) in E.
  by rewrite !last_app, Hg' in E.
Qed.

(** One kubeconfig. *)
Lemma write_settles cfg ca x w w' : is_absolute x.1.1 = false → last x.1.1 = Some (ch "g") →
  write_kubeconfig (kc cfg) x.1.1 (api_url cfg) x.1.2 ca (crt_path (pki cfg) x.2) (key_path (pki cfg) x.2) w
  = (Ok tt, w') →
  config_fresh cfg ca x w'
  ∧ ∀ y, is_absolute y.1.1 = false → last y.1.1 = Some (ch "g") → y.1.1 ≠ x.1.1 →
         config_fresh cfg ca y w → config_fresh cfg ca y w'.
Proof.
  intros Hr Hg E.
  pose proof (touches_kubeconfig (λ p, p ∈ with_tmp [path_join (kc cfg) x.1.1]) (kc cfg) x.1.1 (api_url cfg) x.1.2
    ca (crt_path (pki cfg) x.2) (key_path (pki cfg) x.2) (λ p H, H) w) as T.
  rewrite E in T. cbn [snd] in T.
  assert (∀ base, files w' !! crt_path (pki cfg) base = files w !! crt_path (pki cfg) base
                  ∧ files w' !! key_path (pki cfg) base = files w !! key_path (pki cfg) base) as Hb.
  { intros base. split; apply T, config_apart; rewrite ?elem_of_cons; auto. }
  split.
  - destruct (write_kubeconfig_Ok _ _ _ _ _ _ _ _ _ E) as (crt & key & body & H1 & H2 & H3 & H4).
    exists crt, key, body. destruct (Hb x.2) as [-> ->]. done.
  - intros y Hry Hgy Hne. apply config_fresh_ext. intros p. rewrite !elem_of_cons, elem_of_nil.
    intros [->|[->|[->|[]]]]; [apply Hb|apply Hb|]. by apply T, config_outs_apart.
Qed.

(** All of them, under different names that end as kubeconfigs' do. *)
Lemma renders_settle cfg kcs w w' :
  Forall (λ out, is_absolute out = false ∧ last out = Some (ch "g")) kcs.*1.*1 → NoDup kcs.*1.*1 →
  render_all cfg kcs w = (Ok tt, w') →
  ∃ ca, files w !! path_join (pki cfg) $"ca.crt" = Some ca ∧ ∀ k, k ∈ kcs → config_fresh cfg ca k w'.
Proof.
  intros Ho Hd. unfold render_all. rewrite M_bind_gets.
  destruct (files w !! path_join (pki cfg) $"ca.crt") as [ca|]; [|done]. intros E. exists ca. split; [done|].
  assert (∀ x, x ∈ kcs → is_absolute x.1.1 = false ∧ last x.1.1 = Some (ch "g")) as Hx.
  { rewrite Forall_forall in Ho. intros x Hin. apply Ho. by do 2 apply list_elem_of_fmap_2. }
  revert E. apply (M_iter_establish _ (config_fresh cfg ca) kcs).
  - intros [[out user] base] s s' Hin E. by eapply (write_settles cfg ca (out, user, base)) in E as [? _]; try apply (Hx _ Hin).
  - intros [[out user] base] y s s' Hin Hy E Hq.
    destruct (decide (y.1.1 = out)) as [Heq|Hne].
    + assert (y = (out, user, base)) as ->; [|by eapply (write_settles cfg ca (out, user, base)) in E as [? _]; try apply (Hx _ Hin)].
      rewrite <- list_fmap_compose in Hd. by eapply (NoDup_fmap_eq _ kcs).
    + eapply (write_settles cfg ca (out, user, base)) in E as [_ H]; try apply (Hx _ Hin).
      apply H; [apply (Hx _ Hy)..|done|done].
Qed.
End kubeconfigs.

(** *** Leaves *)

Section leaves.
Context `{L : !PkiLib, Laws : !PkiLaws}.

Lemma issue_all_settles pki rs ld sel l w w' :
  Forall (λ x, leaf_name (rq_name x.2)) l → NoDup ((λ x, flat_name (rq_name x.2)) <$> l) →
  is_i64 (now + rs) → rs < ld * DAY → issue_all pki rs ld sel l w = (Ok tt, w') →
  ∀ x, x ∈ l → leaf_current pki rs (sel x.1) x.2 w' = true.
Proof.
  intros Hn Hd Hi Hr. rewrite Forall_forall in Hn.
  apply (M_iter_establish _ (λ x w, leaf_current pki rs (sel x.1) x.2 w = true) l).
  - intros [b r] s s' Hin E. eapply (ensure_renews pki rs ld (sel b) r); eauto. by apply (Hn (b, r)).
  - intros [b r] [b' r'] s s' Hin Hin' E Hq. cbn [fst snd] in *.
    destruct (decide (flat_name (rq_name r) = flat_name (rq_name r'))) as [Hf|Hf].
    + assert ((b, r) = (b', r')) as [= <- <-] by (by eapply (NoDup_fmap_eq _ l)).
      eapply (ensure_renews pki rs ld (sel b) r); eauto. by apply (Hn (b, r)).
    + etrans; [|exact Hq]. apply leaf_current_ext. intros p Hp.
      pose proof (touches_ensure pki rs ld (sel b) r s p) as T. rewrite E in T. apply T. intros Hw. revert Hp.
      eapply leaf_disjoint; [by apply (Hn (b, r))|by apply (Hn (b', r'))| |exact Hf|exact Hw].
      intros Heq. cbn [snd] in Heq. by rewrite Heq in Hf.
Qed.

Lemma issue_all_quiet pki rs ld sel l fl :
  (∀ w x, files w = fl → x ∈ l → leaf_current pki rs (sel x.1) x.2 w = true) →
  quiet 0 fl (issue_all pki rs ld sel l) tt.
Proof.
  intros H. unfold issue_all. apply (quiet_iter 0). intros [b r] Hin v Hv _. exists v.
  rewrite ensure_idle; [auto with lia|]. by apply (H v (b, r)).
Qed.

(** The files of a server's leaves are not written after they are issued. *)
Lemma leaf_config_apart ms kc out n pki p : Forall plain_name ms → server_name ms n →
  is_absolute out = false → last out = Some (ch "g") → p ∈ leaf_files pki n →
  p ∉ with_tmp [path_join kc out].
Proof.
  intros Hms Hn Hr Hg Hp. destruct (server_leaf_name ms Hms n Hn) as (Hl & Hlast & Hlen).
  unfold leaf_files in Hp. rewrite !elem_of_cons, elem_of_nil in Hp.
  destruct Hp as [->|[->|[->|[]]]]; [apply config_apart; rewrite ?elem_of_cons; auto..|].
  rewrite fp_path_eq. intros Hin. assert (∃ c, last (flat_name n) = Some c) as [c Hc].
  { destruct (last (flat_name n)) eqn:E; [by eexists|]. apply last_None in E.
    destruct Hl as [(c & s & -> & _) _]. done. }
  destruct (config_written_end kc [out] (dir_prefix pki ++ $".fp." ++ flat_name n)) as [E|[s E]].
  - by constructor.
  - exists out. split; [by left|done].
  - rewrite !last_app, Hc in E. congruence.
  - rewrite <- (take_drop (length (flat_name n) - 4) (flat_name n)), !app_assoc in E.
    apply app_inj_2 in E as [_ E]; [|rewrite length_drop; simpl; lia].
    apply (proj2 Hl (take (length (flat_name n) - 4) (flat_name n))). rewrite <- E. by rewrite take_drop.
Qed.
End leaves.

(** *** Trust roots and issuers *)

Section roots.
Context `{L : !PkiLib}.

Lemma write_private_Ok path data w w' : write_private path data w = (Ok tt, w') → (steps w = 4 + steps w')%nat.
Proof.
  intros E. destruct (write_private_cases path data w) as (_ & _ & [(_ & _ & H)|((msg & H) & _)]);
    rewrite E in H; done.
Qed.

Lemma non_empty_exists p w : non_empty p w = true → file_exists p w = true.
Proof. unfold non_empty, file_exists. destruct (files w !! p); [|done]. by rewrite bool_decide_true. Qed.

Lemma load_issuer_Ok pki name w i w' : load_issuer pki name w = (Ok i, w') → w' = w
  ∧ ∀ fl, (∀ ext, ext ∈ [$".crt"; $".key"] → fl !! path_join pki (name ++ ext) = files w !! path_join pki (name ++ ext)) →
          quiet 0 fl (load_issuer pki name) i.
Proof.
  unfold load_issuer. intros (crt & w1 & E1 & E)%M_bind_Ok_inv. apply read_file_Ok in E1 as [-> E1].
  apply M_bind_Ok_inv in E as (key & w1 & E2 & E). apply read_file_Ok in E2 as [-> E2].
  destruct (issuer_ok crt key) as [u|e] eqn:Ei; [|done]. injection E as <- <-. split; [done|].
  intros fl Hfl. apply (quiet_bind 0 0 _ _ _ crt).
  { apply quiet_read. rewrite Hfl; [done|]. by left. }
  apply (quiet_bind 0 0 _ _ _ key).
  { apply quiet_read. rewrite Hfl; [done|]. by right; left. }
  rewrite Ei. apply quiet_ret.
Qed.

Context `{Laws : !PkiLaws}.

Lemma ensure_ca_Ok pki name cn w w' : name ∈ [$"ca"; $"front-proxy-ca"] →
  ensure_ca pki name cn w = (Ok tt, w') → ca_complete pki name w' = true.
Proof.
  intros Hn E. destruct (ca_complete pki name w) eqn:Hc.
  { unfold ensure_ca in E. rewrite M_bind_gets in E. unfold ca_complete in Hc. rewrite Hc in E. injection E as <-.
    exact Hc. }
  assert (8 ≤ steps w)%nat as Hs.
  { unfold ensure_ca in E. rewrite M_bind_gets in E. unfold ca_complete in Hc. rewrite Hc in E.
    rewrite (M_bind_ok _ draw w _ _ eq_refl), (M_bind_ok _ draw _ _ _ eq_refl) in E.
    apply M_bind_Ok_inv in E as ([] & w1 & E1%write_private_Ok & E).
    apply M_bind_Ok_inv in E as ([] & w2 & E2%write_private_Ok & _). cbn [steps] in E1. lia. }
  destruct (ensure_ca_minted pki name cn w Hs Hn) as (w1 & E1 & _ & H). rewrite E in E1. injection E1 as <-.
  by eapply ca_kept_complete.
Qed.

Lemma ensure_sa_Ok pki w w' : ensure_sa pki w = (Ok tt, w') → file_exists (path_join pki $"sa.key") w' = true.
Proof.
  intros E. destruct (file_exists (path_join pki $"sa.key") w) eqn:Hc.
  { unfold ensure_sa in E. rewrite M_bind_gets, Hc in E. by injection E as <-. }
  assert (8 ≤ steps w)%nat as Hs.
  { unfold ensure_sa in E. rewrite M_bind_gets, Hc, (M_bind_ok _ draw w _ _ eq_refl) in E.
    apply M_bind_Ok_inv in E as ([] & w1 & E1%write_private_Ok & E2%write_private_Ok). cbn [steps] in E1. lia. }
  destruct (ensure_sa_minted pki w Hs) as (w1 & E1 & _ & H). rewrite E in E1. injection E1 as <-.
  unfold sa_kept_or_new in H. rewrite Hc in H. destruct H as (k & Hk & _).
  unfold file_exists. by rewrite Hk, bool_decide_true.
Qed.

Lemma trust_roots_Ok cfg w w' : trust_roots cfg w = (Ok tt, w') → trusted cfg w'.
Proof.
  unfold trust_roots, trusted. destruct (require_shipped_ca cfg).
  { rewrite M_bind_gets. case_decide; [|done]. by intros [= <-]. }
  intros ([] & w1 & E1 & E)%M_bind_Ok_inv. apply M_bind_Ok_inv in E as ([] & w2 & E2 & E3).
  pose proof (touches_ensure_ca (pki cfg) $"front-proxy-ca" $"kubenyx-front-proxy-ca" w1) as T2. rewrite E2 in T2.
  pose proof (touches_ensure_sa (pki cfg) w2) as T3. rewrite E3 in T3. cbn [snd] in *.
  apply ensure_ca_Ok in E1; [|by left]. apply ensure_ca_Ok in E2; [|by right; left].
  split_and!; [| |by apply ensure_sa_Ok in E3].
  - etrans; [|exact E1]. apply ca_complete_ext. intros p Hp. destruct (proj1 (trust_frames (pki cfg) p) Hp).
    by rewrite T3, T2.
  - etrans; [|exact E2]. apply ca_complete_ext. intros p Hp.
    destruct (proj1 (proj2 (trust_frames (pki cfg) p)) Hp). by rewrite T3.
Qed.

Lemma custody_ca_files name : name ∈ [$"ca"; $"front-proxy-ca"] → ∀ ext, ext ∈ [$".crt"; $".key"] →
  name ++ ext ∈ CUSTODY_FILES.
Proof.
  intros Hn ext He. rewrite !elem_of_cons, elem_of_nil in Hn, He.
  destruct Hn as [->|[->|[]]], He as [->|[->|[]]]; apply (bool_decide_unpack _); by vm_compute.
Qed.

(** The trust roots only depend on the custody files. *)
Lemma trusted_ext cfg w w' :
  (∀ f, f ∈ CUSTODY_FILES → files w' !! path_join (pki cfg) f = files w !! path_join (pki cfg) f) →
  trusted cfg w → trusted cfg w'.
Proof.
  intros H. assert (∀ name, name ∈ [$"ca"; $"front-proxy-ca"] →
    ca_complete (pki cfg) name w' = ca_complete (pki cfg) name w) as Hc.
  { intros name Hn. apply ca_complete_ext. intros p. unfold ca_files. rewrite !elem_of_cons, elem_of_nil.
    intros [->|[->|[]]]; apply H, custody_ca_files; first [done | rewrite !elem_of_cons; auto]. }
  unfold trusted. destruct (require_shipped_ca cfg).
  - rewrite !missing_custody_nil. intros Hm f Hf. etrans; [|exact (Hm f Hf)]. by apply non_empty_ext, H.
  - unfold file_exists. rewrite !Hc by (rewrite !elem_of_cons; auto).
    rewrite H by (apply (bool_decide_unpack _); by vm_compute). done.
Qed.

Lemma trusted_quiet cfg fl : (∀ w, files w = fl → trusted cfg w) → quiet 0 fl (trust_roots cfg) tt.
Proof.
  unfold trusted, trust_roots, ca_complete. intros H v Hv _. specialize (H v Hv). exists v.
  destruct (require_shipped_ca cfg).
  - rewrite M_bind_gets, H. by rewrite decide_True.
  - destruct H as (H1 & H2 & H3). unfold ensure_ca, ensure_sa.
    rewrite (M_bind_ok _ _ v tt v) by (rewrite M_bind_gets, H1; done).
    rewrite (M_bind_ok _ _ v tt v) by (rewrite M_bind_gets, H2; done).
    rewrite M_bind_gets, H3. auto with lia.
Qed.
End roots.

(** *** A whole run *)

Section run.
Context `{L : !PkiLib, Laws : !PkiLaws}.
Variable cfg : PkiCfg.
Hypothesis Hplain : Forall plain_name (nodes cfg).*1.

Abbreviation kcs := (server_kubeconfigs cfg).

Lemma remotes_plain : Forall plain_name (remotes cfg).
Proof. rewrite Forall_forall in *. intros m [_ Hm]%list_elem_of_filter. auto. Qed.

Lemma config_not_last outs p : outs ⊆ kcs.*1.*1 → last p ≠ Some (ch "g") → last p ≠ Some (ch "p") →
  ¬ config_written (kc cfg) outs p.
Proof.
  intros Ho Hg Hp (out & Hin & H). destruct (config_written_end (kc cfg) kcs.*1.*1 p) as [?|[s ->]];
    [apply server_outs|exists out; auto|done|]. by rewrite last_app in Hp.
Qed.

(** What the packages and the kubeconfigs leave. *)
Lemma leaves_stay n p : server_name (nodes cfg).*1 n → p ∈ leaf_files (pki cfg) n →
  ¬ packaged (pki cfg) (remotes cfg) p ∧ ¬ config_written (kc cfg) kcs.*1.*1 p.
Proof.
  intros Hn Hp. split.
  - intros (m & f & Hm%list_elem_of_filter & Hf & E). eapply packaged_leaf; [exact Hplain|exact Hn|exact Hp|].
    exists m, f. by destruct Hm.
  - intros (out & Hout & H). pose proof (server_outs cfg) as Ho. rewrite Forall_forall in Ho.
    destruct (Ho out Hout). eapply leaf_config_apart; eauto.
Qed.

Lemma copies_stay m f w w' : plain_name m → f ∈ PACKAGE_FILES →
  (∀ p, ¬ config_written (kc cfg) kcs.*1.*1 p → files w' !! p = files w !! p) →
  copied (pki cfg) m f w → copied (pki cfg) m f w'.
Proof.
  intros Hm Hf H (data & H1 & H2). exists data.
  assert (Forall (λ f, f ≠ [] ∧ last f ≠ Some (ch "g") ∧ last f ≠ Some (ch "p")) PACKAGE_FILES) as Hl
    by (apply (bool_decide_unpack _); by vm_compute).
  rewrite Forall_forall in Hl. destruct (Hl f Hf) as (Hne & Hg & Hp).
  rewrite !H; [done|..]; apply config_not_last; try done; by rewrite last_path_join.
Qed.

Lemma request_leaf_names ip : Forall (λ x, leaf_name (rq_name x.2)) (server_requests cfg ip).
Proof.
  apply Forall_forall. intros [b r] Hin%request_names. by apply (server_leaf_name _ Hplain) in Hin as [? _].
Qed.

Lemma settled_quiet ca fp_ca ip ca_pem fl :
  (∀ fl, quiet 0 fl (match node_address cfg with Some (c :: a) => M_ret (c :: a) | _ => detect_node_ip end) ip) →
  quiet 0 fl (load_issuer (pki cfg) $"ca") ca → quiet 0 fl (load_issuer (pki cfg) $"front-proxy-ca") fp_ca →
  (∀ w, files w = fl → settled cfg ca fp_ca ip ca_pem w) → quiet (10 * length (remotes cfg)) fl (server cfg) tt.
Proof.
  intros Hip Hca Hfp H. unfold server.
  remember (10 * length (remotes cfg))%nat as n eqn:En. apply (quiet_bind 0 n _ _ _ ip); [apply Hip|].
  apply (quiet_bind 0 n _ _ _ tt); [apply trusted_quiet; intros w Hw; apply (H w Hw)|].
  apply (quiet_bind 0 n _ _ _ ca); [done|]. apply (quiet_bind 0 n _ _ _ fp_ca); [done|].
  apply (quiet_bind 0 n _ _ _ tt).
  { apply (issue_all_quiet _ _ _ (sel_issuer ca fp_ca)). intros w x Hw Hx. by apply (H w Hw). }
  rewrite <- (Nat.add_0_r n). apply (quiet_bind n 0 _ _ _ tt).
  { subst n. apply packages_quiet. intros w m f Hw Hm Hf. by apply (H w Hw). }
  unfold render_all. apply (quiet_bind 0 0 _ _ _ (Some ca_pem)).
  { apply quiet_gets. intros w Hw. apply (H w Hw). }
  apply (quiet_iter 0 _ _ kcs). intros k Hk. pose proof (config_quiet cfg ca_pem k fl) as Hq.
  destruct k as [[out user] base]. apply Hq. intros w Hw. by apply (H w Hw).
Qed.

(** A finished run, taken apart. *)
Lemma server_Ok_inv w w' : server cfg w = (Ok tt, w') → ∃ ip ca fp_ca w0 w1 w2 w3,
  (∀ fl, quiet 0 fl (match node_address cfg with Some (c :: a) => M_ret (c :: a) | _ => detect_node_ip end) ip)
  ∧ trust_roots cfg w0 = (Ok tt, w1)
  ∧ load_issuer (pki cfg) $"ca" w1 = (Ok ca, w1) ∧ load_issuer (pki cfg) $"front-proxy-ca" w1 = (Ok fp_ca, w1)
  ∧ issue_all (pki cfg) (wrap_i64 (renew_days cfg * DAY)) (leaf_days cfg) (sel_issuer ca fp_ca)
      (server_requests cfg ip) w1 = (Ok tt, w2)
  ∧ M_iter (package (pki cfg)) (remotes cfg) w2 = (Ok tt, w3)
  ∧ render_all cfg kcs w3 = (Ok tt, w').
Proof.
  unfold server. intros (ip & w0 & Eip & E)%M_bind_Ok_inv. exists ip.
  apply M_bind_Ok_inv in E as ([] & w1 & Et & E). apply M_bind_Ok_inv in E as (ca & v & Ec & E).
  destruct (load_issuer_Ok _ _ _ _ _ Ec) as [-> _]. apply M_bind_Ok_inv in E as (fp_ca & v & Ef & E).
  destruct (load_issuer_Ok _ _ _ _ _ Ef) as [-> _]. apply M_bind_Ok_inv in E as ([] & w2 & Ei & E).
  apply M_bind_Ok_inv in E as ([] & w3 & Ep & E).
  exists ca, fp_ca, w0, w1, w2, w3. split_and!; [|done..]. intros fl.
  assert (∀ m : P text, (∃ ip, ∀ fl, quiet 0 fl m ip) → m w = (Ok ip, w0) → quiet 0 fl m ip) as Hq.
  { intros m [ip' H] Em. destruct (H (files w) w eq_refl ltac:(lia)) as (v' & Ev & _). rewrite Em in Ev.
    injection Ev as <- <-. apply H. }
  apply Hq; [|exact Eip]. destruct (node_address cfg) as [[|c a]|]; try apply quiet_node_ip.
  eexists. intros fl'. apply quiet_ret.
Qed.

Lemma settled_ext ca fp_ca ip ca_pem v w : files v = files w →
  settled cfg ca fp_ca ip ca_pem w → settled cfg ca fp_ca ip ca_pem v.
Proof.
  intros Hf (H1 & H2 & H3 & H4 & H5). split_and!.
  - eapply trusted_ext; [|exact H1]. intros; by rewrite Hf.
  - intros x Hx. etrans; [|exact (H2 x Hx)]. apply leaf_current_ext. intros; by rewrite Hf.
  - intros m f Hm Hpf. unfold copied. rewrite Hf. by apply H3.
  - by rewrite Hf.
  - intros k Hk. eapply config_fresh_ext; [|by apply H5]. intros; by rewrite Hf.
Qed.

Lemma server_settles w w' : NoDup (nodes cfg).*1 →
  is_i64 (now + wrap_i64 (renew_days cfg * DAY)) → wrap_i64 (renew_days cfg * DAY) < leaf_days cfg * DAY →
  server cfg w = (Ok tt, w') → ∃ ca fp_ca ip ca_pem,
  settled cfg ca fp_ca ip ca_pem w' ∧ quiet (10 * length (remotes cfg)) (files w') (server cfg) tt.
Proof.
  intros Hd Hi Hr (ip & ca & fp_ca & w0 & w1 & w2 & w3 & Hip & Et & Ec & Ef & Ei & Ep & Er)%server_Ok_inv.
  pose proof (touches_issue_all (leaf_written (pki cfg) (nodes cfg).*1) (pki cfg)
    (wrap_i64 (renew_days cfg * DAY)) (leaf_days cfg) (sel_issuer ca fp_ca) (server_requests cfg ip)
    ltac:(intros b r p Hin%request_names Hp; by exists (rq_name r)) w1) as Ti.
  pose proof (touches_packages (packaged (pki cfg) (remotes cfg)) (pki cfg) (remotes cfg) ltac:(done) w2) as Tp.
  pose proof (touches_render_all (config_written (kc cfg) kcs.*1.*1) cfg kcs ltac:(done) w3) as Tr.
  rewrite Ei in Ti. rewrite Ep in Tp. rewrite Er in Tr. cbn [snd] in *.
  assert (∀ p, packaged (pki cfg) (remotes cfg) p → packaged (pki cfg) (nodes cfg).*1 p) as Hrem.
  { intros p (m & f & [_ Hm]%list_elem_of_filter & Hf & E). by exists m, f. }
  assert (∀ f, f ∈ CUSTODY_FILES → ∀ v, v = w3 ∨ v = w' →
            files v !! path_join (pki cfg) f = files w1 !! path_join (pki cfg) f) as Hcust.
  { intros f Hf. pose proof (run_custody cfg f Hplain Hf) as Hn. unfold run_written in Hn.
    assert (files w3 !! path_join (pki cfg) f = files w1 !! path_join (pki cfg) f) as H3
      by (rewrite Tp, Ti by naive_solver; done).
    intros v [->| ->]; [done|]. by rewrite Tr by naive_solver. }
  destruct (renders_settle cfg kcs w3 w' (server_outs cfg)) as (ca_pem & Hpem & Hkcs);
    [apply (bool_decide_unpack _); by vm_compute|exact Er|].
  assert (settled cfg ca fp_ca ip ca_pem w') as Hs.
  { split_and!.
    - eapply trusted_ext; [|by eapply trust_roots_Ok]. auto.
    - intros x Hx. eapply issue_all_settles in Ei; [|apply request_leaf_names|by apply request_flats|done|done|exact Hx].
      etrans; [|exact Ei]. apply leaf_current_ext. intros p Hp.
      destruct (leaves_stay (rq_name x.2) p) as [H1 H2]; [destruct x; by eapply request_names|done|].
      by rewrite Tr, Tp.
    - intros m f Hm Hf. pose proof remotes_plain as Hrp. rewrite Forall_forall in Hrp.
      eapply copies_stay; [by apply Hrp|done|exact Tr|]. by apply (packages_settle _ _ _ _ remotes_plain Ep).
    - assert ($"ca.crt" ∈ CUSTODY_FILES) as Hin by (apply (bool_decide_unpack _); by vm_compute).
      rewrite (Hcust _ Hin w' (or_intror eq_refl)). etrans; [|exact Hpem]. symmetry. exact (Hcust _ Hin w3 (or_introl eq_refl)).
    - done. }
  exists ca, fp_ca, ip, ca_pem. split; [done|]. eapply settled_quiet; [exact Hip|..].
  - apply (load_issuer_Ok _ _ _ _ _ Ec). intros ext He. apply Hcust; [|by right].
    apply custody_ca_files; [by left|done].
  - apply (load_issuer_Ok _ _ _ _ _ Ef). intros ext He. apply Hcust; [|by right].
    apply custody_ca_files; [by right; left|done].
  - intros v Hv. by eapply settled_ext.
Qed.
End run.

(** ** Theorems *)



#[local] Existing Instances toy_lib toy_laws.


