(* ===== verification/PkiRun.v ===== *)
(** * A server's run ends well

    When every name and address of the configuration checks, the trust roots
    are usable and the disk has room, [server] returns; the address it detects
    for itself always checks, because what [Display] writes of an address
    [FromStr] reads back. *)

From S2P Require Import Prelude Text Utf8 Net Paths Pki PkiSpec PkiServer.

(** ** Specifications *)

(** What a run relies on the libraries for: a name in ASCII is an [Ia5String],
    a CA just minted loads, a CA that loads signs, the kernel's addresses
    are addresses. *)
Class PkiWorks `{!PkiLib} := {
  ia5_ascii : ∀ s, Forall (λ c, (c < 128)%N) s → ia5 s = true;
  minted_loads : ∀ cn a b n k, issuer_ok (ca_cert cn a b n (keygen k)) (keygen k) = Ok tt;
  loaded_signs : ∀ l k ic ik, issuer_ok ic ik = Ok tt → ∃ c, leaf_cert l (keygen k) ic ik = Ok c;
  addresses_wf : Forall ip_wf (omap id node_probes ++ default [] node_interfaces);
}.

Definition ascii (s : text) : Prop := Forall (λ c, (c < 128)%N) s.
#[export] Instance ascii_dec s : Decision (ascii s) := Forall_dec _ _.

(** The SANs and addresses of a configuration. *)
Definition declared_ips (cfg : PkiCfg) : list text :=
  service_ip cfg :: omap snd (nodes cfg) ++ match node_address cfg with Some (c :: a) => [c :: a] | _ => [] end.

Definition sans_ok `{!PkiLib} (cfg : PkiCfg) : Prop :=
  check_sans (extra_sans cfg ++ (if etcd cfg then etcd_sans cfg else [])) = Ok tt
  ∧ Forall (λ a, is_Some (parse_ip_addr a)) (declared_ips cfg)
  ∧ ascii (cluster_domain cfg) ∧ Forall ascii (node_name cfg :: (nodes cfg).*1).

(** A CA on disk that loads; the trust roots of a run: there when they must be
    shipped, otherwise usable or to be minted. *)
Definition ca_loads `{!PkiLib} (pki name : text) (w : Disk) : Prop :=
  ∃ crt key, files w !! path_join pki (name ++ $".crt") = Some crt
             ∧ files w !! path_join pki (name ++ $".key") = Some key ∧ issuer_ok crt key = Ok tt.

Definition roots_ok `{!PkiLib} (cfg : PkiCfg) (w : Disk) : Prop :=
  (require_shipped_ca cfg = true → missing_custody (pki cfg) w = [])
  ∧ ∀ name, name ∈ [$"ca"; $"front-proxy-ca"] →
      ca_complete (pki cfg) name w = true → ca_loads (pki cfg) name w.

(** Steps that end, given some files, and leave some: a path that is no
    temporary file stays. *)
Definition solid (p : text) : Prop := last p ≠ Some (ch "p").
Definition has (S : text → Prop) (w : Disk) : Prop := ∀ p, S p → solid p → file_exists p w = true.
Definition ends {A : Type} (c : nat) (S T : text → Prop) (m : P A) : Prop := ∀ w,
  has S w → (c ≤ steps w)%nat →
  ∃ a w', m w = (Ok a, w') ∧ has (λ p, file_exists p w = true) w' ∧ has T w' ∧ (steps w ≤ c + steps w')%nat.

(** ** Lemmas *)

(** *** Addresses *)

Section addresses.
Context `{L : !PkiLib}.

Lemma check_sans_cons s l : check_sans (s :: l) = Ok tt ↔ check_sans [s] = Ok tt ∧ check_sans l = Ok tt.
Proof.
  cbn [check_sans]. destruct (strip_prefix $"DNS:" s) as [d|]; [destruct (ia5 d); naive_solver|].
  destruct (strip_prefix $"IP:" s) as [ip|]; [destruct (parse_ip_addr ip); naive_solver|naive_solver].
Qed.

Lemma check_sans_app a b : check_sans (a ++ b) = Ok tt ↔ check_sans a = Ok tt ∧ check_sans b = Ok tt.
Proof.
  induction a as [|s a IH]; [naive_solver|]. cbn [app].
  rewrite (check_sans_cons s (a ++ b)), (check_sans_cons s a), IH. tauto.
Qed.

Lemma check_ip a : is_Some (parse_ip_addr a) → check_sans [$"IP:" ++ a] = Ok tt.
Proof.
  intros [x H]. unfold check_sans.
  replace (strip_prefix $"DNS:" ($"IP:" ++ a)) with (@None text) by done.
  by rewrite strip_prefix_app, H.
Qed.

Context `{W : !PkiWorks}.

Lemma check_dns d : ascii d → check_sans [$"DNS:" ++ d] = Ok tt.
Proof. intros H. unfold check_sans. by rewrite strip_prefix_app, ia5_ascii. Qed.

Lemma first_such_in Q l a : first_such Q l = Some a → a ∈ l.
Proof.
  unfold first_such. intros ([i x] & Hf & ->)%fmap_Some.
  apply list_find_Some in Hf as (Hi & _). by eapply list_elem_of_lookup_2.
Qed.

(** The detected address is one. *)
Lemma detect_node_ip_spec w : ∃ ip w', detect_node_ip w = (Ok ip, w') ∧ is_Some (parse_ip_addr ip)
  ∧ files w' = files w ∧ steps w' = steps w.
Proof.
  assert (∀ a, a ∈ omap id node_probes ++ default [] node_interfaces → is_Some (parse_ip_addr (fmt_ip a))) as H.
  { intros a Ha. pose proof addresses_wf as Hwf. rewrite Forall_forall in Hwf.
    rewrite fmt_ip_parse by auto. by eexists. }
  unfold detect_node_ip.
  destruct (first_such _ (omap id node_probes)) as [a|] eqn:E1.
  { apply first_such_in in E1. eexists _, w. split; [done|]. split; [|done]. apply H, elem_of_app. by left. }
  destruct (first_such global_v4 _) as [a|] eqn:E2.
  { apply first_such_in in E2. eexists _, w. split; [done|]. split; [|done]. apply H, elem_of_app. by right. }
  destruct (first_such global_v6 _) as [a|] eqn:E3.
  { apply first_such_in in E3. eexists _, w. split; [done|]. split; [|done]. apply H, elem_of_app. by right. }
  eexists _, _. split; [done|]. split; [|done]. apply (bool_decide_unpack _). by vm_compute.
Qed.

(** Every SAN a run asks for checks. *)
Lemma requests_check cfg ip x : sans_ok cfg → is_Some (parse_ip_addr ip) → x ∈ server_requests cfg ip →
  check_sans (rq_san x.2) = Ok tt.
Proof.
  intros (Hx & Hips & Hd & Hn) Hip. apply check_sans_app in Hx as [Hextra Hetcd].
  apply Forall_cons in Hips as [Hsvc Hips]. apply Forall_app in Hips as [Hnode _].
  apply Forall_cons in Hn as [Hself Hnames]. rewrite Forall_forall in Hnode, Hnames.
  assert (∀ d, bool_decide (ascii d) = true → check_sans [$"DNS:" ++ d] = Ok tt) as Hfix
    by (intros d Ha%bool_decide_eq_true; by apply check_dns).
  assert (check_sans [$"IP:127.0.0.1"] = Ok tt) as Hlo
    by (apply (check_ip $"127.0.0.1"), (bool_decide_unpack _); by vm_compute).
  unfold server_requests. rewrite elem_of_app, list_elem_of_fmap.
  intros [Hin|(r & -> & (n & Hr & Hn)%list_elem_of_bind)].
  - unfold server_leaves in Hin. rewrite elem_of_app, !elem_of_cons in Hin.
    destruct Hin as [[->|Hin]|Hin].
    + cbn [rq_san snd]. unfold api_sans. rewrite check_sans_app. split; [|done].
      assert (check_sans [$"DNS:" ++ $"kubernetes.default.svc." ++ cluster_domain cfg] = Ok tt) as Hdom.
      { apply check_dns. unfold ascii. apply Forall_app. split; [|done]. apply (bool_decide_unpack _). by vm_compute. }
      apply check_sans_cons; split; [exact (Hfix $"kubernetes" eq_refl)|].
      apply check_sans_cons; split; [exact (Hfix $"kubernetes.default" eq_refl)|].
      apply check_sans_cons; split; [exact (Hfix $"kubernetes.default.svc" eq_refl)|].
      apply check_sans_cons; split; [exact Hdom|].
      apply check_sans_cons; split; [exact (check_dns _ Hself)|].
      apply check_sans_cons; split; [exact (Hfix $"localhost" eq_refl)|].
      apply check_sans_cons; split; [exact Hlo|].
      apply check_sans_cons; split; [exact (check_ip _ Hsvc)|exact (check_ip _ Hip)].
    + repeat (destruct Hin as [->|Hin]; [done|]). by apply not_elem_of_nil in Hin.
    + destruct (etcd cfg); [|by apply not_elem_of_nil in Hin]. rewrite !elem_of_cons in Hin.
      destruct Hin as [->|[->|Hin]]; [|done|by apply not_elem_of_nil in Hin].
      cbn [rq_san snd]. apply check_sans_app. split; [|done]. apply check_sans_cons. by split; [apply (Hfix $"localhost")|].
  - destruct n as [name addr]. cbn [snd]. unfold node_leaves in Hr.
    rewrite !elem_of_cons in Hr. destruct Hr as [->|[->|Hr]]; [done| |by apply not_elem_of_nil in Hr].
    cbn [rq_san]. apply check_sans_app. split.
    + apply check_sans_cons. split; [|done]. apply check_dns, Hnames. by apply (list_elem_of_fmap_2 fst _ (name, addr)).
    + destruct addr as [a|].
      * apply check_ip, Hnode. apply list_elem_of_omap. by exists (name, Some a).
      * case_decide; [by apply check_ip|done].
Qed.
End addresses.

(** *** Steps that end *)

Definition nothing : text → Prop := λ _, False.

Lemma has_mono (S T : text → Prop) w : (∀ p, S p → T p) → has T w → has S w.
Proof. intros H Ht p Hp. auto. Qed.

Lemma has_or S T w : has (λ p, S p ∨ T p) w ↔ has S w ∧ has T w.
Proof. unfold has. naive_solver. Qed.

Lemma has_trans S w w' : has S w → has (λ p, file_exists p w = true) w' → has S w'.
Proof. intros H1 H2 p Hp Hs. apply H2; [|done]. by apply H1. Qed.

Lemma ends_weaken {A} c d (S S' T T' : text → Prop) (m : P A) : (c ≤ d)%nat →
  (∀ p, S p → S' p) → (∀ p, T' p → T p) → ends c S T m → ends d S' T' m.
Proof.
  intros Hc HS HT H w Hw Hst. destruct (H w) as (a & w' & E & Hk & Ht & Hs); [by eapply has_mono|lia|].
  exists a, w'. split_and!; [done..|by eapply has_mono|lia].
Qed.

Lemma ends_bind {A B} c d S T U (m : P A) (f : A → P B) :
  ends c S T m → (∀ a, ends d (λ p, S p ∨ T p) U (f a)) → ends (c + d) S (λ p, T p ∨ U p) (M_bind f m).
Proof.
  intros Hm Hf w Hw Hst. destruct (Hm w Hw) as (a & w1 & E1 & Hk1 & Ht1 & Hs1); [lia|].
  assert (has (λ p, S p ∨ T p) w1) as H1 by (apply has_or; split; [by eapply has_trans|done]).
  destruct (Hf a w1 H1) as (b & w2 & E2 & Hk2 & Ht2 & Hs2); [lia|].
  exists b, w2. rewrite (M_bind_ok _ _ _ _ _ E1). split_and!; [done|by eapply has_trans| |lia].
  apply has_or. split; [by eapply has_trans|done].
Qed.

Lemma ends_here {A} S (m : P A) : (∀ w, ∃ a w', m w = (Ok a, w') ∧ files w' = files w ∧ steps w' = steps w) →
  ends 0 S nothing m.
Proof.
  intros H w _ _. destruct (H w) as (a & w' & E & Hf & Hs). exists a, w'. unfold has, file_exists. rewrite Hf.
  split_and!; [done..|by intros ?|lia].
Qed.

Lemma ends_ret {A} S (a : A) : ends 0 S nothing (M_ret a).
Proof. apply ends_here. intros w. by exists a, w. Qed.
Lemma ends_gets {A} S (g : Disk → A) : ends 0 S nothing (M_gets g).
Proof. apply ends_here. intros w. by exists (g w), w. Qed.
Lemma ends_eprint S line : ends 0 S nothing (eprint line).
Proof. apply ends_here. intros w. by eexists _, _. Qed.
Lemma ends_draw S : ends 0 S nothing draw.
Proof. apply ends_here. intros w. by eexists _, _. Qed.
Lemma ends_lift {A} S (r : result PkiEnd A) a : r = Ok a → ends 0 S nothing (M_lift r).
Proof. intros ->. apply ends_here. intros w. by exists a, w. Qed.

(** A step that writes nothing, then the rest. *)
Lemma ends_then {A B} c S T (m : P A) (f : A → P B) :
  ends 0 S nothing m → (∀ a, ends c S T (f a)) → ends c S T (M_bind f m).
Proof.
  intros Hm Hf. eapply ends_weaken; [| | |apply (ends_bind 0 c S nothing T _ _ Hm)]; [done|done|by right|].
  intros a. eapply ends_weaken; [| | |apply Hf]; [done|by left|done].
Qed.

Lemma ends_iter {A} c S (T : A → text → Prop) (f : A → P unit) l :
  (∀ x, x ∈ l → ends c S (T x) (f x)) →
  ends (c * length l) S (λ p, ∃ x, x ∈ l ∧ T x p) (M_iter f l).
Proof.
  induction l as [|x l IH]; intros H.
  - eapply ends_weaken; [| | |apply (ends_ret S)]; [simpl; lia|done|].
    intros p (x & Hx%not_elem_of_nil & _). done.
  - cbn [M_iter]. eapply ends_weaken; [| | |eapply (ends_bind c (c * length l) S (T x))]; [simpl; lia|done| | |].
    2: { apply H. left. }
    2: { intros _. eapply ends_weaken; [| | |apply IH]; [done|by left|done|]. intros y Hy. apply H. by right. }
    intros p (y & [->|Hy]%elem_of_cons & Hp); [by left|right; eauto].
Qed.

Lemma ends_read (S : text → Prop) path msg : S path → solid path → ends 0 S nothing (read_file path msg).
Proof.
  intros Hp Hs w Hw _. specialize (Hw path Hp Hs). unfold file_exists in Hw. apply bool_decide_eq_true in Hw as [data E].
  unfold read_file. rewrite M_bind_gets, E. exists data, w. split_and!; [done|by intros ?|by intros ?|lia].
Qed.

Lemma tmp_not_solid path : ¬ solid (tmp_path path).
Proof. unfold solid, tmp_path. intros H. apply H. by rewrite last_app. Qed.

Lemma ends_write S path data : ends 4 S (λ p, p = path) (write_private path data).
Proof.
  intros w _ Hst. destruct (write_private_ok path data w Hst) as (w' & E & Hf & Hs).
  exists tt, w'. unfold has, file_exists. rewrite Hf. split_and!; [done| | |lia].
  - intros p Hp%bool_decide_eq_true Hsol. apply bool_decide_eq_true.
    destruct (decide (p = path)) as [->|Hne]; [rewrite lookup_insert_eq; by eexists|].
    rewrite lookup_insert_ne, lookup_delete_ne; [done| |done]. intros <-. by apply (tmp_not_solid path).
  - intros p -> _. rewrite lookup_insert_eq. by apply bool_decide_eq_true.
Qed.

Lemma ends_copy (S : text → Prop) src dst msg : S src → solid src → ends 2 S (λ p, p = dst) (copy_file src dst msg).
Proof.
  intros Hsrc Hsol w Hw Hst. specialize (Hw src Hsrc Hsol). unfold file_exists in Hw.
  apply bool_decide_eq_true in Hw as [data E]. destruct w as [fl se dr [|[|n]]]; cbn [steps] in Hst; [lia..|].
  cbn [files] in E. unfold copy_file, read_file, fs_step, M_bind, M_gets, M_ret. cbn [files]. rewrite E. cbn [steps files].
  eexists tt, _. split; [done|]. unfold has, file_exists. cbn [files steps]. rewrite insert_insert_eq. split_and!; [| |lia].
  - intros p Hp%bool_decide_eq_true _. apply bool_decide_eq_true. rewrite lookup_insert_is_Some'. by right.
  - intros p -> _. rewrite lookup_insert_eq. by apply bool_decide_eq_true.
Qed.

(** *** The parts of a run *)

Section parts.
Context `{L : !PkiLib, W : !PkiWorks}.

Definition leaf_pair (pki name p : text) : Prop := p = crt_path pki name ∨ p = key_path pki name.

Lemma ends_write_leaf S pki name key crt fp : ends 12 S (leaf_pair pki name) (write_leaf pki name key crt fp).
Proof.
  unfold write_leaf. eapply ends_weaken; [| | |eapply (ends_bind 4 8)]; [done|done| |apply ends_write|].
  2: { intros _. apply (ends_bind 4 4); [apply ends_write|intros _; apply ends_write]. }
  unfold leaf_pair. simpl. naive_solver.
Qed.

Lemma ends_ensure S pki rs ld ca r : issuer_ok (is_pem ca) (is_key ca) = Ok tt → is_Some (in_days ld) →
  check_sans (rq_san r) = Ok tt → ends 12 S (leaf_pair pki (rq_name r)) (ensure pki rs ld ca r).
Proof.
  intros Hca [na Hna] Hsan w Hw Hst. unfold ensure. rewrite M_bind_gets.
  destruct (leaf_current pki rs ca r w) eqn:Hc.
  - exists tt, w. split; [done|]. split; [by intros ?|]. split; [|lia].
    unfold leaf_current in Hc. destruct (files w !! crt_path pki _) as [crt|] eqn:Ecrt; [|done].
    destruct (file_exists (key_path pki _) w) eqn:Ekey; [|done].
    intros p [->| ->] _; [|done]. unfold file_exists. by rewrite Ecrt.
  - revert w Hw Hst Hc.
    enough (ends 12 S (leaf_pair pki (rq_name r))
      (do* eprint ($"kubenyx-pki: issuing " ++ rq_name r) in
       let* k := draw in let* serial := draw in
       let* not_after := M_lift (of_option (PkiPanic $"not_after") (in_days ld)) in
       do* M_lift (check_sans (rq_san r)) in
       match leaf_cert (mkLeaf (rq_cn r) (rq_org r) (rq_ekus r) (rq_san r) (now - 300) not_after serial)
               (keygen k) (is_pem ca) (is_key ca) with
       | Err e => pki_die ($"sign " ++ rq_name r ++ $": " ++ e)
       | Ok crt => write_leaf pki (rq_name r) (keygen k) crt (leaf_fingerprint ca r)
       end)) as H by (intros w Hw Hst _; by apply H).
    apply ends_then; [apply ends_eprint|]. intros _. apply ends_then; [apply ends_draw|]. intros k.
    apply ends_then; [apply ends_draw|]. intros serial. apply ends_then; [by rewrite Hna; apply (ends_lift _ _ na)|].
    intros t. apply ends_then; [by apply (ends_lift _ _ tt)|]. intros _.
    destruct (loaded_signs (mkLeaf (rq_cn r) (rq_org r) (rq_ekus r) (rq_san r) (now - 300) t serial) k
                (is_pem ca) (is_key ca) Hca) as [crt ->]. apply ends_write_leaf.
Qed.

Lemma ends_issue_all S pki rs ld sel l : (∀ b, issuer_ok (is_pem (sel b)) (is_key (sel b)) = Ok tt) →
  is_Some (in_days ld) → (∀ x, x ∈ l → check_sans (rq_san x.2) = Ok tt) →
  ends (12 * length l) S (λ p, ∃ x, x ∈ l ∧ leaf_pair pki (rq_name x.2) p) (issue_all pki rs ld sel l).
Proof.
  intros Hca Hld Hsan. apply (ends_iter 12 S (λ (x : bool * LeafReq) p, leaf_pair pki (rq_name x.2) p)).
  intros [b r] Hx. apply ends_ensure; [done|done|exact (Hsan _ Hx)].
Qed.

Lemma ends_packages (S : text → Prop) pki ms :
  (∀ f, f ∈ PACKAGE_FILES → S (path_join pki f)) → ends (10 * length ms) S nothing (M_iter (package pki) ms).
Proof.
  intros HS. eapply ends_weaken; [| | |apply (ends_iter 10 S (λ _, nothing))]; [done|done| |].
  { by intros p []. }
  intros m _. unfold package. eapply ends_weaken; [| | |apply (ends_iter 2 S (λ f p, p = path_join (package_dir pki m) f))];
    [simpl; lia|done|by intros p []|].
  intros f Hf. apply ends_copy; [by apply HS|].
  assert (Forall (λ f, f ≠ [] ∧ last f ≠ Some (ch "p")) PACKAGE_FILES) as Hl
    by (apply (bool_decide_unpack _); by vm_compute).
  rewrite Forall_forall in Hl. destruct (Hl f Hf). unfold solid. by rewrite last_path_join.
Qed.
End parts.

Section run.
Context `{L : !PkiLib, W : !PkiWorks}.

Lemma pair_solid pki name p : leaf_pair pki name p → solid p.
Proof.
  unfold leaf_pair, crt_path, key_path, solid.
  assert (∀ ext, ext ≠ [] → name ++ ext ≠ []) as Hne by (intros ext He [_ ?]%app_eq_nil; done).
  intros [->| ->]; (rewrite last_path_join by (by apply Hne)); by rewrite last_app.
Qed.

Lemma ends_render_all (S : text → Prop) cfg kcs :
  S (path_join (pki cfg) $"ca.crt") → (∀ k p, k ∈ kcs → leaf_pair (pki cfg) k.2 p → S p) →
  ends (4 * length kcs) S nothing (render_all cfg kcs).
Proof.
  intros Hca Hk w Hw Hst. unfold render_all. rewrite M_bind_gets.
  assert (file_exists (path_join (pki cfg) $"ca.crt") w = true) as E.
  { apply Hw; [done|]. unfold solid. by rewrite last_path_join. }
  unfold file_exists in E. apply bool_decide_eq_true in E as [ca_pem ->].
  revert w Hw Hst. eapply ends_weaken; [| | |apply (ends_iter 4 S (λ _, nothing))]; [done|done|by intros p []|].
  intros [[out user] base] Hin. unfold write_kubeconfig.
  assert (∀ p, leaf_pair (pki cfg) base p → S p ∧ solid p) as Hp
    by (intros p Hp; split; [by apply (Hk _ p Hin)|by eapply pair_solid]).
  apply ends_then; [apply ends_read; apply Hp; by left|]. intros crt.
  apply ends_then; [apply ends_read; apply Hp; by right|]. intros key.
  apply ends_then; [apply ends_gets|]. intros [].
  - eapply ends_weaken; [| | |apply ends_ret]; [lia|done|done].
  - eapply ends_weaken; [| | |apply ends_write]; [done|done|by intros p []].
Qed.

Lemma load_issuer_loads pki name w : ca_loads pki name w → ∃ ca,
  load_issuer pki name w = (Ok ca, w) ∧ issuer_ok (is_pem ca) (is_key ca) = Ok tt.
Proof.
  intros (crt & key & Hc & Hk & Ho). exists (mkIssuer key crt name). split; [|done].
  unfold load_issuer, read_file, M_bind, M_gets, M_ret. by rewrite Hc, Hk, Ho.
Qed.

Lemma kept_loads pki name cn w w' : ca_kept_or_new pki name cn w w' →
  (ca_complete pki name w = true → ca_loads pki name w) → ca_loads pki name w'.
Proof.
  unfold ca_kept_or_new, ca_loads. destruct (ca_complete pki name w).
  - intros Hk Hl. rewrite !Hk by (unfold ca_files; rewrite !elem_of_cons; tauto). by apply Hl.
  - intros (k & serial & Hk & Hc) _. eexists _, _. split; [exact Hc|]. split; [exact Hk|]. apply minted_loads.
Qed.

(** The trust roots are reached, and load. *)
Lemma trust_roots_ends cfg w : roots_ok cfg w → (24 ≤ steps w)%nat → ∃ w',
  trust_roots cfg w = (Ok tt, w') ∧ (steps w ≤ 24 + steps w')%nat
  ∧ ca_loads (pki cfg) $"ca" w' ∧ ca_loads (pki cfg) $"front-proxy-ca" w'.
Proof.
  intros [Hreq Hload] Hst. unfold trust_roots. destruct (require_shipped_ca cfg).
  - rewrite M_bind_gets, (Hreq eq_refl), decide_True by done. exists w. split; [done|]. split; [lia|].
    specialize (Hreq eq_refl). rewrite missing_custody_nil in Hreq.
    split; apply Hload; unfold ca_complete; try (rewrite !elem_of_cons; auto);
      rewrite !Hreq; try done; apply (bool_decide_unpack _); by vm_compute.
  - destruct (minting_ok (pki cfg) (M_ret tt) w Hst) as (w' & E & (H1 & H2 & _) & Hs).
    exists w'. split; [|split; [done|]].
    + etrans; [|exact E]. unfold M_bind, M_ret.
      destruct (ensure_ca _ $"ca" _ w) as [[[]|] v]; [|done].
      destruct (ensure_ca _ $"front-proxy-ca" _ v) as [[[]|] v']; [|done].
      by destruct (ensure_sa _ v') as [[[]|] v''].
    + split; eapply kept_loads; eauto; apply Hload; rewrite !elem_of_cons; auto.
Qed.
Lemma roots_ok_ext cfg w w' : files w' = files w → roots_ok cfg w → roots_ok cfg w'.
Proof. unfold roots_ok, missing_custody, ca_complete, ca_loads, non_empty. by intros ->. Qed.

Lemma node_ip_ends cfg w : sans_ok cfg → ∃ ip w',
  match node_address cfg with Some (c :: a) => M_ret (c :: a) | _ => detect_node_ip end w = (Ok ip, w')
  ∧ is_Some (parse_ip_addr ip) ∧ files w' = files w ∧ steps w' = steps w.
Proof.
  intros (_ & Hips & _). unfold declared_ips in Hips.
  destruct (node_address cfg) as [[|c a]|]; try apply detect_node_ip_spec.
  apply Forall_cons in Hips as [_ [_ [H _]%Forall_cons]%Forall_app]. by exists (c :: a), w.
Qed.

Lemma request_count cfg ip :
  (length (server_requests cfg ip) ≤ 12 + 2 * length (nodes cfg))%nat.
Proof.
  rewrite <- (length_fmap (λ x : bool * LeafReq, rq_name x.2)), requests_eq, length_app.
  assert (length ((nodes cfg).*1 ≫= λ m, [kubelet_name m; kubelet_server_name m]) = 2 * length (nodes cfg))%nat as ->.
  { induction (nodes cfg) as [|n ns IH]; [done|]. rewrite fmap_cons, bind_cons, length_app, IH. simpl. lia. }
  destruct (etcd cfg); simpl; lia.
Qed.

Lemma request_of_name cfg ip n :
  n ∈ take 10 FIXED_NAMES ++ ((nodes cfg).*1 ≫= λ m, [kubelet_name m; kubelet_server_name m]) →
  ∃ x, x ∈ server_requests cfg ip ∧ rq_name x.2 = n.
Proof.
  intros Hn. assert (n ∈ (λ x : bool * LeafReq, rq_name x.2) <$> server_requests cfg ip) as H.
  { rewrite requests_eq. apply elem_of_app in Hn. apply elem_of_app. destruct Hn as [Hn|Hn]; [left|by right].
    destruct (etcd cfg); [|done]. rewrite <- (take_drop 10 FIXED_NAMES). apply elem_of_app. by left. }
  apply list_elem_of_fmap in H as (x & -> & Hx). by exists x.
Qed.

(** What a run reads back was issued. *)
Lemma kubeconfig_leaf cfg ip k : node_name cfg ∈ (nodes cfg).*1 → k ∈ server_kubeconfigs cfg →
  ∃ x, x ∈ server_requests cfg ip ∧ rq_name x.2 = k.2.
Proof.
  intros Hself Hk. apply request_of_name. unfold server_kubeconfigs in Hk. apply elem_of_app in Hk as [Hk|Hk].
  - apply elem_of_app. left. revert k Hk. apply Forall_forall, (bool_decide_unpack _). by vm_compute.
  - apply list_elem_of_singleton in Hk as ->. apply elem_of_app. right. apply list_elem_of_bind.
    exists (node_name cfg). split; [by left|done].
Qed.

Lemma package_leaf cfg ip f : f ∈ PACKAGE_FILES → path_join (pki cfg) f = path_join (pki cfg) $"ca.crt"
  ∨ ∃ x, x ∈ server_requests cfg ip ∧ leaf_pair (pki cfg) (rq_name x.2) (path_join (pki cfg) f).
Proof.
  intros Hf. unfold PACKAGE_FILES in Hf. rewrite !elem_of_cons in Hf.
  assert (∀ n, n ∈ take 10 FIXED_NAMES → ∃ x, x ∈ server_requests cfg ip ∧ rq_name x.2 = n) as H
    by (intros n Hn; apply request_of_name, elem_of_app; by left).
  destruct (H $"kube-proxy") as (x & Hx & Ex); [apply (bool_decide_unpack _); by vm_compute|].
  destruct (H $"coredns") as (y & Hy & Ey); [apply (bool_decide_unpack _); by vm_compute|].
  destruct Hf as [->|[->|[->|[->|[->|Hf]]]]]; [by left|..|by apply not_elem_of_nil in Hf]; right;
    [exists x|exists x|exists y|exists y]; (split; [done|]); rewrite ?Ex, ?Ey; first [by left|by right].
Qed.

(** The room a run needs, in steps on the file system: 24 for the trust
    roots, 12 a leaf, 10 a package, 4 a kubeconfig. *)
Definition run_steps (cfg : PkiCfg) : nat := 196 + 34 * length (nodes cfg).

Lemma after_roots_ends cfg ip ca fp_ca w : sans_ok cfg → is_Some (parse_ip_addr ip) →
  node_name cfg ∈ (nodes cfg).*1 → is_Some (in_days (leaf_days cfg)) →
  issuer_ok (is_pem ca) (is_key ca) = Ok tt → issuer_ok (is_pem fp_ca) (is_key fp_ca) = Ok tt →
  file_exists (path_join (pki cfg) $"ca.crt") w = true → (172 + 34 * length (nodes cfg) ≤ steps w)%nat →
  ∃ w', (do* M_iter (λ '(front_proxy, r),
               ensure (pki cfg) (wrap_i64 (renew_days cfg * DAY)) (leaf_days cfg)
                 (if front_proxy : bool then fp_ca else ca) r)
            (server_requests cfg ip) in
          do* M_iter (package (pki cfg)) (filter (λ n, n ≠ node_name cfg) (nodes cfg).*1) in
          render_all cfg (server_kubeconfigs cfg)) w = (Ok tt, w').
Proof.
  intros Hsan Hip Hself Hld Hca Hfp Hcrt Hst.
  set (S := λ p, p = path_join (pki cfg) $"ca.crt").
  set (T := λ p, ∃ x, x ∈ server_requests cfg ip ∧ leaf_pair (pki cfg) (rq_name x.2) p).
  assert (∀ b, issuer_ok (is_pem (sel_issuer ca fp_ca b)) (is_key (sel_issuer ca fp_ca b)) = Ok tt) as Hsel
    by by intros [].
  pose proof (ends_issue_all S (pki cfg) (wrap_i64 (renew_days cfg * DAY)) (leaf_days cfg) (sel_issuer ca fp_ca)
    (server_requests cfg ip) Hsel Hld ltac:(intros x Hx; by apply (requests_check cfg ip))) as H1.
  assert (∀ f, f ∈ PACKAGE_FILES → S (path_join (pki cfg) f) ∨ T (path_join (pki cfg) f)) as Hsrc
    by (intros f Hf; exact (package_leaf cfg ip f Hf)).
  pose proof (ends_packages (λ p, S p ∨ T p) (pki cfg) (remotes cfg) Hsrc) as H2.
  assert (ends (4 * length (server_kubeconfigs cfg)) (λ p, (S p ∨ T p) ∨ nothing p) nothing
            (render_all cfg (server_kubeconfigs cfg))) as H3.
  { apply ends_render_all; [by do 2 left|]. intros k p Hk Hp. left. right.
    destruct (kubeconfig_leaf cfg ip k Hself Hk) as (x & Hx & E). exists x. by rewrite E. }
  pose proof (ends_bind _ _ _ _ _ _ _ H1 (λ _, ends_bind _ _ _ _ _ _ _ H2 (λ _, H3))) as H.
  destruct (H w) as ([] & w' & E & _).
  - intros p -> _. done.
  - pose proof (request_count cfg ip) as Hc.
    assert (length (remotes cfg) ≤ length (nodes cfg))%nat as Hr.
    { unfold remotes. rewrite <- (length_fmap fst (nodes cfg)). apply length_filter. }
    change (length (server_kubeconfigs cfg)) with 7%nat. lia.
  - by exists w'.
Qed.
(** The whole run. *)
Lemma server_ends cfg w :
  sans_ok cfg → node_name cfg ∈ (nodes cfg).*1 → is_Some (in_days (leaf_days cfg)) →
  roots_ok cfg w → (run_steps cfg ≤ steps w)%nat →
  ∃ w', server cfg w = (Ok tt, w').
Proof.
  intros Hsan Hself Hld Hroots Hst. unfold server, run_steps in *.
  destruct (node_ip_ends cfg w Hsan) as (ip & w0 & E0 & Hip & Hf0 & Hs0). rewrite (M_bind_ok _ _ _ _ _ E0).
  destruct (trust_roots_ends cfg w0 (roots_ok_ext _ _ _ Hf0 Hroots)) as (w1 & E1 & Hs1 & Hl1 & Hl2); [lia|].
  rewrite (M_bind_ok _ _ _ _ _ E1).
  destruct (load_issuer_loads _ _ _ Hl1) as (ca & Ec & Hca). rewrite (M_bind_ok _ _ _ _ _ Ec).
  destruct (load_issuer_loads _ _ _ Hl2) as (fp_ca & Ef & Hfp). rewrite (M_bind_ok _ _ _ _ _ Ef).
  apply after_roots_ends; [done..| |lia].
  destruct Hl1 as (crt & _ & H & _). unfold file_exists. apply bool_decide_eq_true. by exists crt.
Qed.
End run.

(** *** The toy library works *)

#[local] Instance toy_works : @PkiWorks toy_lib.
Proof.
  apply (Build_PkiWorks toy_lib); [done|done|by eexists|].
  apply Forall_app. split; [|done]. apply Forall_cons_2; [|done].
  split; [done|]. apply (bool_decide_unpack _). by vm_compute.
Defined.

(** ** Theorems *)


#[local] Existing Instances toy_lib toy_works.

