(* ===== verification/PkiServe.v ===== *)
(** * The CA bundle handoff ([rust/kubenyx-pki/src/lib.rs])

    The tar stream of the custody files, one transfer over a connection, the
    accept loop that counts transfers, and the tool's dispatch.  What the
    socket calls returned is an input. *)

From S2P Require Import Prelude Text Utf8 Paths Pki.

(** ** tar *)

(** [h[off..off + bs.len()].copy_from_slice(bs)]. *)
Definition put_at (off : nat) (bs h : bytes) : bytes :=
  take off h ++ bs ++ drop (off + length bs) h.
Definition slice (a b : nat) (h : bytes) : bytes := take (b - a) (drop a h).

Fixpoint oct_digits (fuel : nat) (z : Z) (acc : text) : text :=
  match fuel with
  | O => acc
  | S fuel =>
      let acc := dec_digit (z mod 8) :: acc in
      if z / 8 =? 0 then acc else oct_digits fuel (z / 8) acc
  end.

(** [{z:0wo}]. *)
Definition fmt_oct (w : nat) (z : Z) : text :=
  let ds := oct_digits (S (Z.to_nat (Z.log2 z))) z [] in replicate (w - length ds) (ch "0") ++ ds.

(** [h.iter().map(u32::from).sum()]. *)
Definition byte_sum (h : bytes) : Z := foldr (λ b acc, Z.of_N b + acc) 0 h.

Definition zero : N := 0%N.
Definition spaces : bytes := $"        ".

Definition writes (fields : list (nat * bytes)) (h : bytes) : bytes :=
  foldl (λ h f, put_at f.1 f.2 h) h fields.

(** The fields of a header in the order they are written, the checksum's as
    spaces; the zeros of the name's come from the fresh block. *)
Definition tar_field_list (name : text) (size : Z) : list (nat * bytes) :=
  [(0%nat, utf8 name); (100%nat, $"0000600" ++ [zero]); (108%nat, $"0000000" ++ [zero]);
   (116%nat, $"0000000" ++ [zero]); (124%nat, fmt_oct 11 size ++ [zero]);
   (136%nat, $"00000000000" ++ [zero]); (156%nat, [ch "0"]); (257%nat, $"ustar" ++ [zero]);
   (263%nat, $"00"); (148%nat, spaces)].
Definition tar_fields (name : text) (size : Z) : bytes :=
  writes (tar_field_list name size) (replicate 512 zero).

(** [tar_header]; [copy_from_slice] panics when the length is not the
    field's. *)
Definition tar_header (name : text) (size : Z) : option bytes :=
  if bool_decide (length (utf8 name) ≤ 512)%nat && (length (fmt_oct 11 size) =? 11)%nat then
    let h := tar_fields name size in
    let sum := fmt_oct 6 (byte_sum h) in
    if (length sum =? 6)%nat then Some (put_at 155 [ch " "] (put_at 148 (sum ++ [zero]) h)) else None
  else None.

(** [x.next_multiple_of(512)], and [resize] to it. *)
Definition pad512 (out : bytes) : bytes :=
  out ++ replicate ((512 - length out mod 512) mod 512) zero.

(** One file of [tar_bundle]. *)
Definition tar_entry (out : bytes) (name : text) (data : bytes) : option bytes :=
  h ← tar_header name (Z.of_nat (length data));
  Some (pad512 (out ++ h ++ data)).

Fixpoint tar_files (out : bytes) (files : list (text * bytes)) : option bytes :=
  match files with
  | [] => Some (out ++ replicate 1024 zero)
  | (name, data) :: files => out ← tar_entry out name data; tar_files out files
  end.

(** [tar_bundle]: the custody files in their order. *)
Definition tar_bundle (dir : text) : P bytes :=
  let* contents := M_mapM (λ f, let* data := read_file (path_join dir f) ($"serve: read " ++ f) in
                                M_ret (f, utf8 data)) CUSTODY_FILES in
  match tar_files [] contents with
  | Some out => M_ret out
  | None => M_raise (PkiPanic $"copy_from_slice")
  end.

(** ** One transfer *)

(** A connection: whether the read timeout could be set, the two writes and
    the shutdown succeeded, and what its reads returned. *)
Record Conn := mkConn {
  cn_timeout : bool; cn_head : bool; cn_payload : bool; cn_shutdown : bool; cn_reads : list ReadResult }.

(** The request, through its blank line; on an error the response goes out
    anyway. *)
Fixpoint drain_request (reads : list ReadResult) (req : bytes) : list ReadResult :=
  match reads with
  | RData (b :: bs) :: reads =>
      let req := req ++ b :: bs in
      if contains blank_line req || (8192 <? length req)%nat then reads else drain_request reads req
  | _ :: reads => reads
  | [] => []
  end.

(** [while s.read(&mut buf)? > 0 {}]: whether the peer closed. *)
Fixpoint peer_closed (reads : list ReadResult) : bool :=
  match reads with
  | RData (_ :: _) :: reads => peer_closed reads
  | RData [] :: _ | REof :: _ => true
  | RError :: _ | [] => false
  end.

(** [serve_conn]: [Ok] or not. *)
Definition serve_conn (c : Conn) : bool :=
  cn_timeout c && (cn_head c && (cn_payload c && (cn_shutdown c && peer_closed (drain_request (cn_reads c) [])))).

(** The head of the response, through its blank line; what a connection was
    sent by the writes that succeeded. *)
Definition RESPONSE_HEAD : text :=
  $"HTTP/1.0 200 OK" ++ crlf ++ $"Content-Type: application/x-tar" ++ crlf ++ $"Connection: close" ++ blank_line.

Definition serve_sent (c : Conn) (payload : bytes) : bytes :=
  if cn_timeout c && cn_head c then RESPONSE_HEAD ++ (if cn_payload c then payload else []) else [].

(** ** The accept loop *)

(** What [accept] gave, [None] being an error; the transfers done when the loop
    returned and the connections it has not taken, or [None] while it still
    waits. *)
Fixpoint serve_loop (count : option Z) (done : Z) (conns : list (option Conn))
    : option (Z * list (option Conn)) :=
  match conns with
  | [] => None
  | None :: conns => serve_loop count done conns
  | Some c :: conns =>
      let done := if serve_conn c then wrap_u64 (done + 1) else done in
      if match count with Some n => n <=? done | None => false end then Some (done, conns)
      else serve_loop count done conns
  end.

(** [serve], until it waits for connections. *)
Definition serve (bind : text → result text text) (conns : list (option Conn)) (cfg : PkiCfg)
    : P (option (Z * list (option Conn))) :=
  if decide (dir cfg = [] ∨ listen cfg = []) then pki_die $"serve requires --dir and --listen"
  else
    let* missing := M_gets (missing_custody (dir cfg)) in
    if decide (missing = []) then
      let* _payload := tar_bundle (dir cfg) in
      match bind (listen cfg) with
      | Err e => pki_die ($"serve: bind " ++ listen cfg ++ $": " ++ e)
      | Ok _addr => M_ret (serve_loop (count cfg) 0 conns)
      end
    else
      pki_die ($"serve: " ++ dir cfg ++ $" is missing: " ++ join $" " missing ++ $" " ++ dash
               ++ $" run `kubenyx-pki mint-ca --out` first").

(** [run]: the exit code when it returns, nothing while it serves. *)
Definition pki_run `{!PkiLib} (bind : text → result text text) (conns : list (option Conn))
    (args : list text) : P (option Z) :=
  match pki_args args with
  | Err e => pki_die e
  | Ok cfg =>
      if decide (mode cfg = $"mint-ca") then do* mint_ca cfg in M_ret (Some 0)
      else if decide (mode cfg = $"serve") then
        let* r := serve bind conns cfg in M_ret (match r with Some _ => Some 0 | None => None end)
      else
        do* mkdir (pki cfg) $"mkdir pki" in
        do* mkdir (kc cfg) $"mkdir kubeconfigs" in
        do* (if decide (mode cfg = $"server") then server cfg
             else if decide (mode cfg = $"agent") then agent cfg
             else pki_die ($"unknown mode " ++ mode cfg)) in
        M_ret (Some 0)
  end.

(** ** Reading a tar stream back *)

Definition oct_value (s : text) : option Z :=
  foldl (λ acc c, a ← acc; d ← digit c; if d <? 8 then Some (a * 8 + d) else None) (Some 0) s.

(** The name field, up to its first zero. *)
Fixpoint until_zero (s : bytes) : bytes :=
  match s with
  | [] => []
  | b :: s => if decide (b = zero) then [] else b :: until_zero s
  end.

(** The entries of the bundle: the six files with their contents. *)
Definition custody_entries (dir : text) (w : Disk) : list (text * bytes) :=
  (λ f, (f, utf8 (default [] (files w !! path_join dir f)))) <$> CUSTODY_FILES.

(** A reader of POSIX ustar archives: magic and checksum verified, two zero
    blocks at the end and nothing after them. *)
Fixpoint read_tar (fuel : nat) (bs : bytes) : option (list (text * bytes)) :=
  match fuel with
  | O => None
  | S fuel =>
      let h := take 512 bs in
      if decide (h = replicate 512 zero) then
        if decide (bs = replicate 1024 zero) then Some [] else None
      else if decide (slice 257 263 h = $"ustar" ++ [zero]) then
        if decide (oct_value (slice 148 154 h) = Some (byte_sum (put_at 148 spaces h))) then
          size ← oct_value (slice 124 135 h);
          let n := Z.to_nat size in
          let rest := drop 512 bs in
          files ← read_tar fuel (drop (n + (512 - n mod 512) mod 512) rest);
          Some ((from_utf8_lossy (until_zero (slice 0 100 h)), take n rest) :: files)
        else None
      else None
  end.

(** ** Specifications *)

(** A name and contents an archive can hold. *)
Definition tar_name (name : text) : Prop :=
  (length name ≤ 99)%nat ∧ Forall (λ c, (0 < c)%N ∧ (c < 128)%N) name.
Definition tar_file (f : text * bytes) : Prop := tar_name f.1 ∧ Z.of_nat (length f.2) < 8 ^ 11.

(** The padding after [n] bytes. *)
Definition padding (n : nat) : bytes := replicate ((512 - n mod 512) mod 512) zero.

(** A field inside a block; away from a range. *)
Definition fits (n : nat) (f : nat * bytes) : Prop := (f.1 + length f.2 ≤ n)%nat.
Definition away (a b : nat) (f : nat * bytes) : Prop := (b ≤ f.1 ∨ f.1 + length f.2 ≤ a)%nat.

(** Transfers completed. *)
Definition delivered (o : option Conn) : bool :=
  match o with Some c => serve_conn c | None => false end.

Definition successes (conns : list (option Conn)) : Z :=
  Z.of_nat (length (filter (λ o, delivered o = true) conns)).

(** The connection that completes [m + 1] transfers, before [rest]. *)
Definition completes (m : Z) (conns rest : list (option Conn)) : Prop :=
  ∃ pre c, conns = pre ++ Some c :: rest ∧ serve_conn c = true ∧ successes pre = m.

(** ** Lemmas *)

(** *** Byte arrays *)

Lemma length_put_at off bs h : (off + length bs ≤ length h)%nat → length (put_at off bs h) = length h.
Proof. intros H. unfold put_at. rewrite !length_app, length_take, length_drop. lia. Qed.

Lemma lookup_put_at off bs h i : (off + length bs ≤ length h)%nat →
  put_at off bs h !! i =
  if decide (i < off)%nat then h !! i
  else if decide (i < off + length bs)%nat then bs !! (i - off)%nat else h !! i.
Proof.
  intros H. unfold put_at. assert (length (take off h) = off) as Hl by (rewrite length_take; lia).
  repeat case_decide.
  - rewrite lookup_app_l by lia. by rewrite lookup_take_lt.
  - rewrite lookup_app_r, Hl by lia. by rewrite lookup_app_l by lia.
  - rewrite lookup_app_r, Hl by lia. rewrite lookup_app_r by lia. rewrite lookup_drop. f_equal. lia.
Qed.

Lemma lookup_slice a b h i :
  slice a b h !! i = if decide (i < b - a)%nat then h !! (a + i)%nat else None.
Proof.
  unfold slice. case_decide.
  - by rewrite lookup_take_lt, lookup_drop.
  - rewrite lookup_take_ge by lia. done.
Qed.

Lemma slice_put_same off b bs h : (off + length bs ≤ length h)%nat → b = (off + length bs)%nat →
  slice off b (put_at off bs h) = bs.
Proof.
  intros H ->. apply list_eq. intros i. rewrite lookup_slice. case_decide.
  - rewrite lookup_put_at by done. rewrite decide_False, decide_True by lia. f_equal. lia.
  - symmetry. apply lookup_ge_None. lia.
Qed.

Lemma slice_put_other a b off bs h : (off + length bs ≤ length h)%nat →
  (b ≤ off ∨ off + length bs ≤ a)%nat → slice a b (put_at off bs h) = slice a b h.
Proof.
  intros H Hd. apply list_eq. intros i. rewrite !lookup_slice. case_decide; [|done].
  rewrite lookup_put_at by done. repeat case_decide; done || lia.
Qed.

Lemma slice_put_within a b off bs h : (off + length bs ≤ length h)%nat →
  (off ≤ a)%nat → (b ≤ off + length bs)%nat →
  slice a b (put_at off bs h) = slice (a - off) (b - off) bs.
Proof.
  intros H Ha Hb. apply list_eq. intros i. rewrite !lookup_slice.
  destruct (decide (i < b - a)%nat).
  - rewrite lookup_put_at by done. rewrite decide_False, decide_True, decide_True by lia. f_equal. lia.
  - by rewrite decide_False by lia.
Qed.

(** Writing over what was written. *)
Lemma put_at_cover off bs1 off' bs2 h :
  (off + length bs1 ≤ length h)%nat → (off' + length bs2 ≤ length h)%nat →
  (off ≤ off')%nat → (off' + length bs2 ≤ off + length bs1)%nat →
  put_at off bs1 (put_at off' bs2 h) = put_at off bs1 h.
Proof.
  intros H1 H2 Ha Hb. apply list_eq. intros i.
  rewrite !lookup_put_at by (rewrite ?length_put_at by lia; lia).
  repeat case_decide; done || lia.
Qed.

Lemma put_at_idem off bs1 bs2 h : (off + length bs1 ≤ length h)%nat → length bs1 = length bs2 →
  put_at off bs1 (put_at off bs2 h) = put_at off bs1 h.
Proof. intros. apply put_at_cover; lia. Qed.

Lemma Forall_put_at (Q : N → Prop) off bs h : Forall Q bs → Forall Q h → Forall Q (put_at off bs h).
Proof. intros Hb Hh. unfold put_at. rewrite !Forall_app. auto using Forall_take, Forall_drop. Qed.

(** *** Octal *)

Lemma oct_value_snoc s d z : oct_value s = Some z → 0 ≤ d < 8 →
  oct_value (s ++ [dec_digit d]) = Some (z * 8 + d).
Proof.
  intros Hs Hd. unfold oct_value in *. rewrite foldl_snoc, Hs. simpl. rewrite digit_dec by lia. simpl.
  by rewrite (proj2 (Z.ltb_lt d 8)) by lia.
Qed.

Lemma oct_digits_value fuel z acc : 0 ≤ z < 2 ^ Z.of_nat fuel →
  ∃ ds, oct_digits fuel z acc = ds ++ acc ∧ oct_value ds = Some z
        ∧ ∀ w, (1 ≤ w)%nat → z < 8 ^ Z.of_nat w → (length ds ≤ w)%nat.
Proof.
  revert z acc. induction fuel as [|fuel IH]; intros z acc Hz.
  { exists []. simpl in *. split; [done|]. split; [|lia]. unfold oct_value. simpl. f_equal. lia. }
  pose proof (Z.div_mod z 8). pose proof (Z.mod_pos_bound z 8). cbn [oct_digits].
  destruct (Z.eqb_spec (z / 8) 0) as [E|E].
  - exists [dec_digit (z mod 8)]. split; [done|]. split; [|simpl; lia].
    etrans; [apply (oct_value_snoc [] (z mod 8) 0); [done|lia]|]. f_equal. lia.
  - destruct (IH (z / 8) (dec_digit (z mod 8) :: acc)) as (ds & E1 & E2 & E3).
    { rewrite Nat2Z.inj_succ, Z.pow_succ_r in Hz by lia. pose proof (Z.div_pos z 8). lia. }
    exists (ds ++ [dec_digit (z mod 8)]). rewrite E1, <- app_assoc. split; [done|]. split.
    + rewrite (oct_value_snoc ds (z mod 8) (z / 8)) by (done || lia). f_equal. lia.
    + intros [|[|w]] Hw Hz8; [lia|change (8 ^ Z.of_nat 1) with 8 in Hz8;
        rewrite Z.div_small in E by lia; done|].
      rewrite length_app. simpl. enough (length ds ≤ S w)%nat by lia. apply E3; [lia|].
      rewrite (Nat2Z.inj_succ (S w)), Z.pow_succ_r in Hz8 by lia.
      apply Z.div_lt_upper_bound; lia.
Qed.

Lemma oct_value_zeros n s z : oct_value s = Some z → oct_value (replicate n (ch "0") ++ s) = Some z.
Proof.
  intros Hs. induction n as [|n IH]; [done|].
  unfold oct_value in *. simpl. done.
Qed.

(** A number that fits is printed in its width and read back. *)
Lemma fmt_oct_value w z : (1 ≤ w)%nat → 0 ≤ z < 8 ^ Z.of_nat w →
  length (fmt_oct w z) = w ∧ oct_value (fmt_oct w z) = Some z.
Proof.
  intros Hw Hz. unfold fmt_oct.
  destruct (oct_digits_value (S (Z.to_nat (Z.log2 z))) z []) as (ds & -> & Hv & Hl).
  { split; [lia|]. rewrite Nat2Z.inj_succ, Z2Nat.id by apply Z.log2_nonneg.
    destruct (decide (z = 0)) as [->|]; [done|]. apply Z.log2_spec. lia. }
  rewrite app_nil_r. specialize (Hl w Hw ltac:(lia)). split; [|by apply oct_value_zeros].
  rewrite length_app, length_replicate. lia.
Qed.

Lemma fmt_oct_bytes w z : Forall is_byte (fmt_oct w z).
Proof.
  assert (∀ fuel z acc, Forall is_byte acc → Forall is_byte (oct_digits fuel z acc)) as H.
  { intros fuel. induction fuel as [|fuel IH]; intros y acc Ha; [done|]. cbn [oct_digits].
    assert (Forall is_byte (dec_digit (y mod 8) :: acc)).
    { constructor; [|done]. pose proof (Z.mod_pos_bound y 8). unfold is_byte, dec_digit. lia. }
    case_match; auto. }
  unfold fmt_oct. apply Forall_app. split; [by apply Forall_replicate|by apply H].
Qed.

Lemma byte_sum_bound h : Forall is_byte h → 0 ≤ byte_sum h ≤ 255 * Z.of_nat (length h).
Proof. induction 1 as [|b h Hb _ IH]; simpl; [lia|]. unfold is_byte in Hb. lia. Qed.

(** *** Headers *)


Lemma length_writes fs h : Forall (fits (length h)) fs → length (writes fs h) = length h.
Proof.
  revert h. induction fs as [|f fs IH]; intros h Hf; [done|]. inversion Hf; subst. simpl.
  rewrite IH; rewrite length_put_at; done.
Qed.

Lemma slice_writes a b fs h : Forall (fits (length h)) fs → Forall (away a b) fs →
  slice a b (writes fs h) = slice a b h.
Proof.
  revert h. induction fs as [|f fs IH]; intros h Hf Ha; [done|].
  inversion Hf; inversion Ha; subst. simpl. rewrite IH; rewrite ?length_put_at; try done.
  by apply slice_put_other.
Qed.

Lemma writes_middle pre off bs post h :
  writes (pre ++ (off, bs) :: post) h = writes post (put_at off bs (writes pre h)).
Proof. unfold writes. by rewrite foldl_app. Qed.

Lemma Forall_writes (Q : N → Prop) fs h : Forall (λ f, Forall Q f.2) fs → Forall Q h → Forall Q (writes fs h).
Proof.
  intros Hf. revert h. induction Hf as [|f fs Hq _ IH]; intros h Hh; [done|].
  simpl. by apply IH, Forall_put_at.
Qed.

Lemma utf8_ascii t : Forall (λ c, (c < 128)%N) t → utf8 t = t.
Proof.
  induction 1 as [|c t Hc _ IH]; [done|]. unfold utf8 in *. rewrite bind_cons, IH.
  unfold utf8_char. by rewrite (proj2 (N.ltb_lt _ _) Hc).
Qed.

Lemma tar_name_ascii name : tar_name name → Forall (λ c, (c < 128)%N) name.
Proof. intros [_ H]. eapply Forall_impl; [exact H|]. by intros c []. Qed.

Lemma until_zero_app s n : Forall (λ c, (0 < c)%N) s → until_zero (s ++ replicate n zero) = s.
Proof.
  induction 1 as [|c s Hc _ IH]; simpl; [by destruct n|].
  rewrite decide_False by (unfold zero; lia). by rewrite IH.
Qed.

Section header.
Variables (name : text) (size : Z).
Hypothesis Hname : tar_name name.
Hypothesis Hsize : 0 ≤ size < 8 ^ 11.

#[local] Abbreviation block := (replicate 512 zero).

Lemma size_field : length (fmt_oct 11 size) = 11%nat ∧ oct_value (fmt_oct 11 size) = Some size.
Proof. by apply fmt_oct_value; [lia|]. Qed.

Lemma fields_fit : Forall (fits 512) (tar_field_list name size).
Proof.
  unfold tar_field_list. rewrite (utf8_ascii name (tar_name_ascii name Hname)).
  destruct Hname as [Hl _], size_field as [Hs _].
  repeat (apply Forall_cons; split; [unfold fits; cbn [fst snd]; rewrite ?length_app, ?Hs; simpl; lia|]).
  apply Forall_nil_2.
Qed.

Lemma tar_fields_length : length (tar_fields name size) = 512%nat.
Proof.
  etrans; [apply length_writes; rewrite length_replicate; exact fields_fit|apply length_replicate].
Qed.

Lemma tar_fields_bytes : Forall is_byte (tar_fields name size).
Proof.
  apply Forall_writes; [|apply Forall_replicate; reflexivity]. unfold tar_field_list.
  rewrite (utf8_ascii name (tar_name_ascii name Hname)).
  repeat (constructor; [cbn [snd]; rewrite ?Forall_app; try (split; [|by repeat constructor])|]);
    try constructor; try (apply fmt_oct_bytes); try (by repeat constructor).
  eapply Forall_impl; [exact (tar_name_ascii name Hname)|]. intros c Hc. unfold is_byte. cbv beta in Hc. lia.
Qed.

(** What a slice of the fields is, from the field it lies in. *)
Lemma tar_slice pre off bs post a b :
  tar_field_list name size = pre ++ (off, bs) :: post →
  (off ≤ a)%nat → (b ≤ off + length bs)%nat → Forall (away a b) post →
  slice a b (tar_fields name size) = slice (a - off) (b - off) bs.
Proof.
  intros E Ha Hb Hp. pose proof fields_fit as Hf. unfold tar_fields. rewrite E in *.
  apply Forall_app in Hf as [Hf1 Hf2]. inversion Hf2 as [|? ? Hf3 Hf4]; subst.
  rewrite writes_middle.
  assert (length (writes pre block) = 512%nat) as Hl.
  { etrans; [apply length_writes; rewrite length_replicate; exact Hf1|apply length_replicate]. }
  rewrite slice_writes; [|rewrite length_put_at; rewrite Hl; assumption|assumption].
  apply slice_put_within; [rewrite Hl; exact Hf3|assumption|assumption].
Qed.
End header.

Section header_fields.
Variables (name : text) (size : Z).
Hypothesis Hname : tar_name name.
Hypothesis Hsize : 0 ≤ size < 8 ^ 11.

#[local] Abbreviation block := (replicate 512 zero).
#[local] Abbreviation g := (tar_fields name size).

Lemma magic_field : slice 257 263 g = $"ustar" ++ [zero].
Proof.
  etrans; [eapply (tar_slice name size Hname Hsize (take 7 (tar_field_list name size)) 257 ($"ustar" ++ [zero])
    (drop 8 (tar_field_list name size)));
    [reflexivity|lia|simpl; lia|repeat constructor; unfold away; simpl; lia]|]. reflexivity.
Qed.

Lemma size_slice : oct_value (slice 124 135 g) = Some size.
Proof.
  destruct (size_field size Hsize) as [Hl Hv]. rewrite <- Hv. f_equal.
  etrans; [eapply (tar_slice name size Hname Hsize (take 4 (tar_field_list name size)) 124 (fmt_oct 11 size ++ [zero])
    (drop 5 (tar_field_list name size)));
    [reflexivity|lia|rewrite length_app, Hl; simpl; lia|repeat constructor; unfold away; simpl; lia]|].
  unfold slice. change (124 - 124)%nat with 0%nat. rewrite drop_0. apply take_app_length'. by rewrite Hl.
Qed.

Lemma name_slice : until_zero (slice 0 100 g) = name.
Proof.
  unfold tar_fields. change (tar_field_list name size)
    with ([] ++ (0%nat, utf8 name) :: drop 1 (tar_field_list name size)).
  rewrite writes_middle. destruct Hname as [Hl Hc].
  pose proof (fields_fit name size Hname Hsize) as Hf. apply (Forall_drop _ 1) in Hf.
  assert (length (put_at 0 (utf8 name) (writes [] block)) = 512%nat) as Hlen.
  { rewrite length_put_at; [apply length_replicate|]. cbn [writes foldl]. rewrite length_replicate.
    rewrite utf8_ascii by (by apply tar_name_ascii). simpl. lia. }
  rewrite slice_writes; [|rewrite Hlen; exact Hf|].
  - rewrite utf8_ascii by (by apply tar_name_ascii). unfold slice, put_at. cbn [writes foldl].
    rewrite drop_0, take_0, app_nil_l, Nat.sub_0_r, Nat.add_0_l, drop_replicate, take_app_ge, take_replicate by lia.
    apply until_zero_app. eapply Forall_impl; [exact Hc|]. by intros c [].
  - unfold tar_field_list. cbn [drop].
    repeat (apply Forall_cons; split; [unfold away; cbn [fst snd]; lia|]). apply Forall_nil_2.
Qed.

Lemma tar_header_ok : ∃ h, tar_header name size = Some h ∧ length h = 512%nat ∧ h ≠ block
  ∧ slice 257 263 h = $"ustar" ++ [zero]
  ∧ oct_value (slice 148 154 h) = Some (byte_sum (put_at 148 spaces h))
  ∧ oct_value (slice 124 135 h) = Some size ∧ until_zero (slice 0 100 h) = name.
Proof.
  pose proof (tar_fields_length name size Hname Hsize) as Hg.
  pose proof (byte_sum_bound g (tar_fields_bytes name size Hname Hsize)) as Hb. rewrite Hg in Hb.
  destruct (fmt_oct_value 6 (byte_sum g)) as [Hsl Hsv]; [lia|change (8 ^ Z.of_nat 6) with 262144; lia|].
  destruct (size_field size Hsize) as [Hl _]. destruct Hname as [Hnl Hnc].
  set (sum := fmt_oct 6 (byte_sum g)) in *.
  assert (length (sum ++ [zero]) = 7%nat) as Hs7 by (rewrite length_app, Hsl; done).
  set (h1 := put_at 148 (sum ++ [zero]) g).
  assert (length h1 = 512%nat) as Hh1 by (unfold h1; rewrite length_put_at; rewrite ?Hg, ?Hs7; lia).
  exists (put_at 155 [ch " "] h1).
  assert (put_at 148 spaces (put_at 155 [ch " "] h1) = g) as Hchk.
  { rewrite put_at_cover by (rewrite ?Hh1; simpl; lia). unfold h1.
    rewrite put_at_cover by (rewrite ?Hs7, ?Hg; simpl; lia).
    unfold tar_fields. change (tar_field_list name size)
      with (take 9 (tar_field_list name size) ++ (148%nat, spaces) :: []).
    rewrite writes_middle. cbn [writes foldl]. apply put_at_idem; [|reflexivity].
    rewrite length_writes; rewrite length_replicate; [simpl; lia|].
    apply Forall_take, (fields_fit name size Hname Hsize). }
  assert (∀ a b, (b ≤ 148 ∨ 156 ≤ a)%nat → slice a b (put_at 155 [ch " "] h1) = slice a b g) as Hsl'.
  { intros a b Hab. rewrite slice_put_other by (rewrite ?Hh1; simpl; lia). unfold h1.
    apply slice_put_other; rewrite ?Hg, ?Hs7; lia. }
  split; [|split; [|split; [|split; [|split; [|split]]]]].
  - unfold tar_header. rewrite bool_decide_true by (rewrite utf8_ascii by (by apply tar_name_ascii); lia).
    rewrite Hl. cbn [andb Nat.eqb]. fold g. fold sum. by rewrite Hsl.
  - rewrite length_put_at; [done|]. rewrite Hh1. simpl. lia.
  - intros E. pose proof magic_field as Hm. rewrite <- (Hsl' 257%nat 263%nat), E in Hm by lia.
    unfold slice in Hm. rewrite drop_replicate, take_replicate in Hm. discriminate.
  - rewrite Hsl' by lia. apply magic_field.
  - rewrite Hchk. rewrite slice_put_other by (rewrite ?Hh1; simpl; lia). unfold h1.
    rewrite slice_put_within by (rewrite ?Hg, ?Hs7; lia). rewrite <- Hsv. f_equal.
    unfold slice. change (148 - 148)%nat with 0%nat. rewrite drop_0. apply take_app_length'. by rewrite Hsl.
  - rewrite Hsl' by lia. apply size_slice.
  - rewrite Hsl' by lia. apply name_slice.
Qed.
End header_fields.

(** *** Archives *)

Lemma pad_aligned n : ((n + (512 - n mod 512) mod 512) mod 512 = 0)%nat.
Proof.
  pose proof (Nat.mod_upper_bound n 512 ltac:(lia)).
  rewrite <- Nat.Div0.add_mod_idemp_l. destruct (decide (n mod 512 = 0)%nat) as [->|Hz]; [done|].
  rewrite (Nat.mod_small (512 - n mod 512)) by lia.
  replace (n mod 512 + (512 - n mod 512))%nat with 512%nat by lia. apply Nat.Div0.mod_same.
Qed.

Lemma pad512_entry out h data : (length out mod 512 = 0)%nat → length h = 512%nat →
  pad512 (out ++ h ++ data) = out ++ h ++ data ++ padding (length data)
  ∧ (length (pad512 (out ++ h ++ data)) mod 512 = 0)%nat.
Proof.
  intros Ho Hh.
  assert (length (out ++ h ++ data) mod 512 = length data mod 512)%nat as E.
  { rewrite !length_app, Hh. rewrite (Nat.add_comm 512), Nat.add_assoc.
    rewrite <- Nat.Div0.add_mod_idemp_r, Nat.Div0.mod_same, Nat.add_0_r.
    by rewrite <- Nat.Div0.add_mod_idemp_l, Ho. }
  split; [unfold pad512; rewrite E; unfold padding; by rewrite <- !app_assoc|].
  unfold pad512. rewrite length_app, length_replicate. apply pad_aligned.
Qed.

(** What is written is read back. *)
Lemma read_tar_files files : Forall tar_file files →
  ∀ out, (length out mod 512 = 0)%nat →
  ∃ bs, tar_files out files = Some (out ++ bs) ∧ read_tar (S (length files)) bs = Some files.
Proof.
  induction 1 as [|[name data] files [Hn Hd] _ IH]; intros out Ho; cbn [fst snd] in *.
  - exists (replicate 1024 zero). split; [done|]. cbn [read_tar].
    rewrite take_replicate. rewrite decide_True by reflexivity. by rewrite decide_True.
  - destruct (tar_header_ok name (Z.of_nat (length data)) Hn ltac:(lia))
      as (h & Eh & Hh & Hne & Hm & Hc & Hs & Hnm).
    destruct (pad512_entry out h data Ho Hh) as [Ep Hp].
    destruct (IH (pad512 (out ++ h ++ data)) Hp) as (bs & Ef & Er).
    exists (h ++ data ++ padding (length data) ++ bs). split.
    + cbn [tar_files]. unfold tar_entry. rewrite Eh. cbn [mbind option_bind]. rewrite Ef, Ep.
      by rewrite <- !app_assoc.
    + remember (S (length files)) as fuel eqn:Efuel.
      change (length ((name, data) :: files)) with (S (length files)). rewrite <- Efuel.
      cbn [read_tar]. rewrite (take_app_length' h) by done.
      rewrite decide_False by done. rewrite decide_True by done. rewrite decide_True by done.
      rewrite Hs. cbn [mbind option_bind]. rewrite Nat2Z.id, (drop_app_length' h) by done.
      rewrite (take_app_length' data) by done.
      assert (drop (length data + (512 - length data mod 512) mod 512)
                (data ++ padding (length data) ++ bs) = bs) as ->.
      { rewrite app_assoc. apply drop_app_length'. rewrite length_app. unfold padding.
        by rewrite length_replicate. }
      rewrite Er. cbn [option_bind]. rewrite Hnm, from_utf8_ascii by (by apply tar_name_ascii). done.
Qed.

(** *** Transfers *)


Lemma successes_cons o conns :
  successes (o :: conns) = (if delivered o then 1 else 0) + successes conns.
Proof. unfold successes. rewrite filter_cons. case_decide as E; [rewrite E|destruct (delivered o); [done|]]; simpl; lia. Qed.

Lemma successes_nil : successes [] = 0.
Proof. done. Qed.
Lemma successes_nonneg conns : 0 ≤ successes conns.
Proof. unfold successes. lia. Qed.


Lemma completes_cons m o conns rest :
  completes m (o :: conns) rest
  ↔ delivered o = true ∧ conns = rest ∧ m = 0
    ∨ completes (m - if delivered o then 1 else 0) conns rest.
Proof.
  split.
  - intros ([|o' pre] & c & E & Hc & <-); simplify_eq/=; [by left|]. right.
    exists pre, c. split; [done|]. split; [done|]. rewrite successes_cons. lia.
  - intros [(Ho & -> & ->)|(pre & c & -> & Hc & Hs)].
    + destruct o as [c|]; [|done]. by exists [], c.
    + exists (o :: pre), c. split; [done|]. split; [done|]. rewrite successes_cons. lia.
Qed.

Lemma completes_neg m conns rest : m < 0 → ¬ completes m conns rest.
Proof. intros Hm (pre & c & _ & _ & E). pose proof (successes_nonneg pre). lia. Qed.

Lemma serve_loop_iff n conns : n ≤ u64_max → ∀ done d rest, 0 ≤ done < n →
  serve_loop (Some n) done conns = Some (d, rest) ↔ d = n ∧ completes (n - 1 - done) conns rest.
Proof.
  intros Hn. induction conns as [|o conns IH]; intros done d rest Hd.
  { simpl. split; [done|]. intros (_ & pre & c & E & _). by destruct pre. }
  rewrite completes_cons. destruct o as [c|]; cbn [serve_loop delivered].
  2: { rewrite IH, Z.sub_0_r by done. naive_solver. }
  destruct (serve_conn c) eqn:Ec.
  - rewrite wrap_unsigned_small by (unfold u64_max in *; lia).
    destruct (Z.leb_spec n (done + 1)).
    + assert (n = done + 1) as -> by lia. split; [intros [= <- <-]; auto with lia|].
      intros (-> & [(_ & -> & _)|H']); [done|]. by apply completes_neg in H'; [|lia].
    + rewrite IH by lia. replace (n - 1 - (done + 1)) with (n - 1 - done - 1) by lia.
      naive_solver lia.
  - destruct (Z.leb_spec n done); [lia|]. rewrite IH, Z.sub_0_r by lia. naive_solver.
Qed.

(** *** Reading the custody files *)

Lemma mapM_read dir w fs :
  (∀ f, f ∈ fs → is_Some (files w !! path_join dir f)) →
  M_mapM (λ f, let* data := read_file (path_join dir f) ($"serve: read " ++ f) in M_ret (f, utf8 data)) fs w
  = (Ok ((λ f, (f, utf8 (default [] (files w !! path_join dir f)))) <$> fs), w).
Proof.
  induction fs as [|f fs IH]; intros Hin; [done|]. cbn [M_mapM].
  destruct (Hin f ltac:(left)) as [data E].
  rewrite (M_bind_ok _ _ w (f, utf8 data) w).
  - rewrite (M_bind_ok _ _ w _ w (IH (λ g Hg, Hin g (list_elem_of_further _ _ _ Hg)))).
    rewrite fmap_cons, E. done.
  - unfold read_file, M_bind, M_gets. by rewrite E.
Qed.

Lemma custody_names : Forall tar_name CUSTODY_FILES.
Proof.
  apply Forall_forall. intros f Hf. split.
  - assert (Forall (λ g : text, length g ≤ 99)%nat CUSTODY_FILES) as H by (by vm_compute; repeat constructor; lia).
    rewrite Forall_forall in H. by apply H.
  - assert (Forall (Forall (λ c, (0 < c)%N ∧ (c < 128)%N)) CUSTODY_FILES) as H.
    { apply (bool_decide_unpack _). by vm_compute. }
    rewrite Forall_forall in H. by apply H.
Qed.

(** What the bundle holds. *)
Lemma tar_bundle_entries dir w :
  (∀ f, f ∈ CUSTODY_FILES → ∃ data, files w !! path_join dir f = Some data
                                     ∧ Z.of_nat (length (utf8 data)) < 8 ^ 11) →
  ∃ bs, tar_bundle dir w = (Ok bs, w) ∧ read_tar 7 bs = Some (custody_entries dir w).
Proof.
  intros Hf. unfold tar_bundle.
  rewrite (M_bind_ok _ _ w _ w (mapM_read dir w CUSTODY_FILES
    (λ f H, let '(ex_intro _ d (conj E _)) := Hf f H in mk_is_Some _ _ E))).
  change (_ <$> CUSTODY_FILES) with (custody_entries dir w).
  set (fs := custody_entries dir w).
  assert (Forall tar_file fs) as Hfs.
  { apply Forall_fmap, Forall_forall. intros f Hin. split.
    - pose proof custody_names as Hn. rewrite Forall_forall in Hn. by apply Hn.
    - destruct (Hf f Hin) as (data & E & Hl). simpl. by rewrite E. }
  destruct (read_tar_files fs Hfs [] eq_refl) as (bs & E & Er).
  rewrite E. exists bs. split; [done|]. exact Er.
Qed.

(** A transfer that counts was sent the whole response, whose body is the
    payload. *)
Lemma serve_sent_body c payload : serve_conn c = true →
  split_once_str blank_line (serve_sent c payload)
  = Some (take (length RESPONSE_HEAD - 4) RESPONSE_HEAD, payload).
Proof.
  unfold serve_conn, serve_sent. destruct (cn_timeout c), (cn_head c), (cn_payload c); done.
Qed.

(** ** Theorems *)

(** C38: the bundle survives the wire.  When the six custody files are there
    (each under 8 GiB), the stream [serve] sends is a well-formed ustar
    archive: a reader that verifies magic, checksum and end of archive gets
    back exactly the six files, in order, with their contents; and a transfer
    that counts has sent an HTTP response whose body is that stream. *)
Theorem tar_bundle_roundtrip dir w :
  (∀ f, f ∈ CUSTODY_FILES → ∃ data, files w !! path_join dir f = Some data
                                     ∧ Z.of_nat (length (utf8 data)) < 8 ^ 11) →
  ∃ bs, tar_bundle dir w = (Ok bs, w)
        ∧ read_tar 7 bs = Some ((λ f, (f, utf8 (default [] (files w !! path_join dir f)))) <$> CUSTODY_FILES)
        ∧ ∀ c, serve_conn c = true → ∃ head, split_once_str blank_line (serve_sent c bs) = Some (head, bs).
Proof.
  intros Hf. destruct (tar_bundle_entries dir w Hf) as (bs & E & Er). exists bs. split; [exact E|]. split; [exact Er|].
  intros c Hc. eexists. by apply serve_sent_body.
Qed.

(** [--count n] means n transfers.  The loop returns exactly when the n-th
    connection has taken the whole bundle and closed, however many failed
    accepts and transfers lie in between; without a count it never returns;
    and a count of zero is met by the first connection, whatever becomes of
    it. *)
Theorem serve_counts conns :
  (∀ n d rest, 1 ≤ n ≤ u64_max →
     serve_loop (Some n) 0 conns = Some (d, rest)
     ↔ d = n ∧ ∃ pre c, conns = pre ++ Some c :: rest ∧ serve_conn c = true ∧ successes pre = n - 1)
  ∧ serve_loop None 0 conns = None
  ∧ (∀ c, serve_loop (Some 0) 0 (Some c :: conns) = Some (if serve_conn c then 1 else 0, conns)).
Proof.
  split; [|split].
  - intros n d rest Hn. rewrite serve_loop_iff by lia. by rewrite Z.sub_0_r.
  - generalize 0. induction conns as [|[c|] conns IH]; intros d; simpl; auto.
  - intros c. simpl. by destruct (serve_conn c).
Qed.

Lemma serve_counts_witness :
  ∃ conns rest, serve_loop (Some 2) 0 conns = Some (2, rest) ∧ rest = [None].
Proof.
  set (good := mkConn true true true true [RData $"GET / HTTP/1.0"; RData blank_line; REof]).
  set (cut := mkConn true true false true []).
  exists [Some good; None; Some cut; Some good; None], [None]. split; [|done].
  pose proof (serve_counts [Some good; None; Some cut; Some good; None]) as (H & _ & _).
  apply H; [unfold u64_max; lia|]. split; [done|].
  exists [Some good; None; Some cut], good. by vm_compute.
Defined.

Lemma tar_bundle_roundtrip_witness :
  ∃ w bs, (tar_bundle $"d" w).1 = Ok bs
          ∧ (fst <$> default [] (read_tar 7 bs)) = CUSTODY_FILES.
Proof.
  set (w := mkDisk (list_to_map ((λ f, (path_join $"d" f, $"data of " ++ f)) <$> CUSTODY_FILES)) [] 0 0).
  destruct (tar_bundle_roundtrip $"d" w) as (bs & E & Er & _).
  - intros f Hf. exists ($"data of " ++ f).
    assert (Forall (λ f, files w !! path_join $"d" f = Some ($"data of " ++ f)
                         ∧ Z.of_nat (length (utf8 ($"data of " ++ f))) < 8 ^ 11) CUSTODY_FILES) as H.
    { apply (bool_decide_unpack _). by vm_compute. }
    rewrite Forall_forall in H. by apply H.
  - exists w, bs. rewrite E, Er. clear E Er. split; [reflexivity|]. vm_compute. reflexivity.
Defined.
