(* ===== verification/PkiAgent.v ===== *)
(** * From a server to its workers

    What [server] packages for a remote node is what [agent] asks for there, and
    what a signing operator mints is what a durable server accepts. *)

From S2P Require Import Prelude Text Utf8 Net Paths Pki PkiSpec PkiServer PkiServe PkiRun.

(** ** Specifications *)

(** The keys of a server's leaves; none of them is an empty file. *)
Definition leaf_key (pki : text) (ms : list text) (p : text) : Prop := ∃ n, server_name ms n ∧ p = key_path pki n.
Definition filled (S : text → Prop) (w : Disk) : Prop := ∀ p, S p → files w !! p ≠ Some [].
Definition keeps_filled (S : text → Prop) (w w' : Disk) : Prop := filled S w → filled S w'.

#[export] Instance keeps_filled_preorder S : PreOrder (keeps_filled S).
Proof. split; [by intros w H|]. intros w1 w2 w3 H1 H2 H. apply H2, H1, H. Qed.
#[export] Hint Extern 1 (PreOrder (keeps_filled _)) => apply keeps_filled_preorder : pki.

(** The leaf behind a base name of a worker's directory: the kubelet's are the
    node's own. *)
Definition worker_leaf (m base : text) : text :=
  if decide (base = $"kubelet") then kubelet_name m
  else if decide (base = $"kubelet-server") then kubelet_server_name m else base.

Definition worker_bases : list text := [$"kubelet"; $"kubelet-server"; $"kube-proxy"; $"coredns"].

(** The directory of a worker after the operator has copied its package. *)
Definition shipped (pki m dst : text) (w wa : Disk) : Prop :=
  ∀ f, f ∈ AGENT_FILES → files wa !! path_join dst f = files w !! path_join (package_dir pki m) f.

(** An archive unpacked into a directory, its entries being text. *)
Definition unpacked (entries : list (text * bytes)) (dst : text) (w : Disk) : Prop :=
  ∀ f data, (f, data) ∈ entries → files w !! path_join dst f = Some (from_utf8_lossy data).

(** The bundle's files are text of a size the archive's header can hold. *)
Definition bundle_text (dir : text) (w : Disk) : Prop :=
  ∀ f data, f ∈ CUSTODY_FILES → files w !! path_join dir f = Some data →
    Forall scalar data ∧ Z.of_nat (length (utf8 data)) < 8 ^ 11.

(** ** Lemmas *)

(** *** No key is ever empty *)

Section filled.
Context `{L : !PkiLib, Laws : !PkiLaws}.
Variables (dir : text) (ms : list text).
Hypothesis Hms : Forall plain_name ms.

Abbreviation fills m := (preserves (keeps_filled (leaf_key dir ms)) m) (only parsing).

Lemma leaf_key_last p : leaf_key dir ms p → last p = Some (ch "y").
Proof.
  intros (n & _ & ->). unfold key_path. rewrite last_path_join by (by destruct n). by rewrite last_app.
Qed.

Lemma fills_step f msg : (∀ fl p, leaf_key dir ms p → fl !! p ≠ Some [] → f fl !! p ≠ Some []) → fills (fs_step f msg).
Proof. intros H w Hw p Hp. unfold fs_step. destruct (steps w); [by apply Hw|]. by apply H, Hw. Qed.

Lemma fills_insert path data msg : data ≠ [] ∨ ¬ leaf_key dir ms path → fills (fs_step <[path := data]> msg).
Proof.
  intros Hd. apply fills_step. intros fl p Hp Hfl. destruct (decide (path = p)) as [->|Hne].
  - rewrite lookup_insert_eq. destruct Hd; [congruence|done].
  - by rewrite lookup_insert_ne.
Qed.

Lemma tmp_not_key path : ¬ leaf_key dir ms (tmp_path path).
Proof. intros H%leaf_key_last. unfold tmp_path in H. by rewrite last_app in H. Qed.

Lemma fills_write path data : data ≠ [] ∨ ¬ leaf_key dir ms path → fills (write_private path data).
Proof.
  intros Hd. unfold write_private. touch.
  - apply fills_insert. right. apply tmp_not_key.
  - apply fills_insert. right. apply tmp_not_key.
  - by apply fills_step.
  - apply fills_step. intros fl p Hp Hfl. destruct (decide (path = p)) as [->|Hne].
    + rewrite lookup_insert_eq. destruct Hd; [congruence|done].
    + rewrite lookup_insert_ne by done. by rewrite lookup_delete_ne; [|intros <-; eapply tmp_not_key].
Qed.

Lemma not_key_last p c : last p = Some c → c ≠ ch "y" → ¬ leaf_key dir ms p.
Proof. intros H Hc Hk%leaf_key_last. congruence. Qed.

Lemma fills_eprint line : fills (eprint line).
Proof. by intros w H. Qed.
Lemma fills_draw : fills draw.
Proof. by intros w H. Qed.
Lemma fills_die {A} msg : fills (pki_die (A:=A) msg).
Proof. by intros w H. Qed.
#[local] Hint Resolve fills_eprint fills_draw fills_die : pki.

Lemma fills_read path msg : fills (read_file path msg).
Proof. unfold read_file. touch. Qed.

#[local] Hint Resolve fills_read : pki.

Lemma fills_ensure rs ld ca r : fills (ensure dir rs ld ca r).
Proof.
  unfold ensure, write_leaf. touch; apply fills_write.
  - left. apply keygen_pem.
  - right. eapply (not_key_last _ (ch "t")); [|done]. unfold crt_path.
    rewrite last_path_join by (by destruct (rq_name r)). by rewrite last_app.
  - left. unfold leaf_fingerprint. by destruct (rq_org r).
Qed.

Lemma fills_ensure_ca name cn : fills (ensure_ca dir name cn).
Proof. unfold ensure_ca. touch; apply fills_write; left; [apply keygen_pem|apply ca_cert_pem]. Qed.
Lemma fills_ensure_sa : fills (ensure_sa dir).
Proof. unfold ensure_sa. touch; apply fills_write; left; [apply sa_keygen_pem|apply sa_public_pem]. Qed.

Lemma fills_package m : m ∈ ms → fills (package dir m).
Proof.
  intros Hm. unfold package. apply preserves_iter, Forall_forall; [apply _|]. intros f Hf.
  assert (¬ leaf_key dir ms (path_join (package_dir dir m) f)) as Hn.
  { intros (n & Hn & E). apply (packaged_leaf ms Hms dir n (key_path dir n)); [done| |].
    - unfold leaf_files. rewrite !elem_of_cons. auto.
    - exists m, f. by rewrite <- E. }
  unfold package_one, copy_file. touch; apply fills_insert; by right.
Qed.

Lemma fills_kubeconfig kc out url user ca crt key : last out = Some (ch "g") →
  fills (write_kubeconfig kc out url user ca crt key).
Proof.
  intros Ho. unfold write_kubeconfig. touch. apply fills_write. right.
  eapply (not_key_last _ (ch "g")); [|done]. by rewrite last_path_join by by intros ->.
Qed.
End filled.

Lemma fills_server `{L : !PkiLib, Laws : !PkiLaws} cfg : Forall plain_name (nodes cfg).*1 →
  preserves (keeps_filled (leaf_key (pki cfg) (nodes cfg).*1)) (server cfg).
Proof.
  intros Hms. unfold server.
  apply preserves_bind; [apply _|unfold detect_node_ip; touch; apply fills_eprint|]. intros ip.
  apply preserves_bind; [apply _| |intros []].
  { unfold trust_roots. touch; auto using fills_die, fills_ensure_ca, fills_ensure_sa. }
  apply preserves_bind; [apply _|unfold load_issuer; touch; auto using fills_read, fills_die|]. intros ca.
  apply preserves_bind; [apply _|unfold load_issuer; touch; auto using fills_read, fills_die|]. intros fp_ca.
  apply preserves_bind; [apply _| |intros []].
  { apply preserves_iter, Forall_forall; [apply _|]. intros [b r] _. apply fills_ensure. }
  apply preserves_bind; [apply _| |intros []].
  { apply preserves_iter, Forall_forall; [apply _|]. intros m [_ Hm]%list_elem_of_filter. by apply fills_package. }
  unfold render_all. touch. apply preserves_iter, Forall_forall; [apply _|]. intros [[out user] base] Hin.
  apply fills_kubeconfig. pose proof (server_outs cfg) as Ho. rewrite Forall_forall in Ho.
  apply Ho, (list_elem_of_fmap_2 fst _ (out, user)). exact (list_elem_of_fmap_2 fst _ (out, user, base) Hin).
Qed.

(** *** The package *)

Section package.
Context `{L : !PkiLib, Laws : !PkiLaws}.
Variable cfg : PkiCfg.
Hypothesis Hplain : Forall plain_name (nodes cfg).*1.

(** A leaf of the node's own lies in its directory as it is. *)
Lemma own_leaf_path m base ext : plain_name m → base ∈ [$"kubelet"; $"kubelet-server"] →
  path_join (package_dir (pki cfg) m) (base ++ ext) = path_join (pki cfg) (worker_leaf m base ++ ext).
Proof.
  intros Hm Hb. rewrite !elem_of_cons, elem_of_nil in Hb. destruct Hb as [->|[->|[]]];
    (rewrite package_path, path_join_rel by done);
    [change (worker_leaf m $"kubelet") with (kubelet_name m)
    |change (worker_leaf m $"kubelet-server") with (kubelet_server_name m)];
    unfold kubelet_name, kubelet_server_name; by rewrite <- !app_assoc.
Qed.

Lemma worker_leaf_name m base : m ∈ (nodes cfg).*1 → base ∈ worker_bases →
  worker_leaf m base ∈ take 10 FIXED_NAMES ++ ((nodes cfg).*1 ≫= λ m, [kubelet_name m; kubelet_server_name m]).
Proof.
  intros Hm Hb. unfold worker_bases in Hb. rewrite !elem_of_cons, elem_of_nil in Hb. rewrite elem_of_app, list_elem_of_bind.
  destruct Hb as [->|[->|[->|[->|[]]]]]; [right|right|left; apply (bool_decide_unpack _); by vm_compute..];
    exists m; (split; [|done]); [by left|by right; left].
Qed.

Lemma worker_server_name m base : m ∈ (nodes cfg).*1 → base ∈ worker_bases →
  server_name (nodes cfg).*1 (worker_leaf m base).
Proof.
  intros Hm Hb. unfold worker_bases in Hb. rewrite !elem_of_cons, elem_of_nil in Hb.
  destruct Hb as [->|[->|[->|[->|[]]]]]; [by constructor|by constructor|..];
    apply fixed_name, (bool_decide_unpack _); by vm_compute.
Qed.

Hypothesis Hempty : not_after_ts [] = None.
Variables (ca fp_ca : Issuer) (ip ca_pem : text) (w : Disk).
Hypothesis Hset : settled cfg ca fp_ca ip ca_pem w.
Hypothesis Hfill : filled (leaf_key (pki cfg) (nodes cfg).*1) w.

(** A leaf of a settled run has both files, neither of them empty. *)
Lemma settled_leaf n : server_name (nodes cfg).*1 n → (∃ x, x ∈ server_requests cfg ip ∧ rq_name x.2 = n) →
  ∃ crt key, files w !! crt_path (pki cfg) n = Some crt ∧ files w !! key_path (pki cfg) n = Some key
             ∧ crt ≠ [] ∧ key ≠ [].
Proof.
  intros Hn (x & Hx & <-). destruct Hset as (_ & Hl & _). specialize (Hl x Hx). unfold leaf_current in Hl.
  destruct (files w !! crt_path _ _) as [crt|] eqn:Ec; [|done].
  unfold file_exists in Hl. destruct (files w !! key_path _ _) as [key|] eqn:Ek; [|done].
  exists crt, key. split_and!; [done..| |].
  - intros ->. rewrite Hempty in Hl. destruct (files w !! fp_path _ _); [|done]. by rewrite andb_false_r in Hl.
  - intros ->. eapply Hfill; [|exact Ek]. by exists (rq_name x.2).
Qed.

(** What a worker's directory holds. *)
Lemma package_base m base : m ∈ remotes cfg → base ∈ worker_bases → ∃ crt key,
  files w !! crt_path (pki cfg) (worker_leaf m base) = Some crt ∧ crt ≠ [] ∧ key ≠ []
  ∧ files w !! path_join (package_dir (pki cfg) m) (base ++ $".crt") = Some crt
  ∧ files w !! path_join (package_dir (pki cfg) m) (base ++ $".key") = Some key.
Proof.
  intros Hm Hb. pose proof Hm as [_ Hin]%list_elem_of_filter.
  assert (plain_name m) as Hp by (rewrite Forall_forall in Hplain; by apply Hplain).
  destruct (settled_leaf (worker_leaf m base)) as (crt & key & Hc & Hk & Hcn & Hkn);
    [by apply worker_server_name|by apply request_of_name, worker_leaf_name|].
  exists crt, key. split_and!; [done..| |]; unfold worker_bases in Hb; rewrite !elem_of_cons, elem_of_nil in Hb.
  all: destruct (decide (base ∈ [$"kubelet"; $"kubelet-server"])) as [Ho|Ho];
    [by rewrite own_leaf_path|rewrite !elem_of_cons in Ho].
  all: destruct Hset as (_ & _ & Hcop & _).
  all: destruct Hb as [->|[->|[->|[->|[]]]]]; try (exfalso; apply Ho; by auto).
  all: match goal with |- files w !! path_join _ ?f = _ =>
    destruct (Hcop m f Hm) as (data & H1 & ->); [apply (bool_decide_unpack _); by vm_compute|] end.
  all: etrans; [symmetry; exact H1|]; first [exact Hc|exact Hk].
Qed.

Lemma package_ca m : m ∈ remotes cfg →
  ca_pem ≠ [] ∧ files w !! path_join (package_dir (pki cfg) m) $"ca.crt" = Some ca_pem.
Proof.
  intros Hm. destruct Hset as (Ht & _ & Hcop & Hca & _). split.
  - intros ->. assert (non_empty (path_join (pki cfg) $"ca.crt") w = true) as Hne.
    { unfold trusted in Ht. destruct (require_shipped_ca cfg).
      - rewrite missing_custody_nil in Ht. apply Ht, (bool_decide_unpack _). by vm_compute.
      - destruct Ht as (Hc & _). unfold ca_complete in Hc. by apply andb_true_iff in Hc as [Hc _]. }
    unfold non_empty in Hne. by rewrite Hca in Hne.
  - destruct (Hcop m $"ca.crt" Hm) as (data & H1 & ->); [apply (bool_decide_unpack _); by vm_compute|].
    etrans; [symmetry; exact H1|exact Hca].
Qed.
End package.

(** *** The agent *)

Section agent.
Context `{L : !PkiLib}.

Lemma agent_files_bases f : f ∈ AGENT_FILES → f = $"ca.crt"
  ∨ ∃ base, base ∈ worker_bases ∧ (f = base ++ $".crt" ∨ f = base ++ $".key").
Proof.
  revert f. apply Forall_forall. repeat (apply Forall_cons_2; [|]); try apply Forall_nil_2; [by left|right..].
  1,2: exists $"kubelet". 3,4: exists $"kubelet-server". 5,6: exists $"kube-proxy". 7,8: exists $"coredns".
  all: split; [apply (bool_decide_unpack _); by vm_compute|]; first [by left|by right].
Qed.

Lemma missing_agent_nil dir w :
  missing_agent dir w = [] ↔ ∀ f, f ∈ AGENT_FILES → non_empty (path_join dir f) w = true.
Proof.
  unfold missing_agent. split.
  - intros H f Hf. destruct (non_empty _ w) eqn:E; [done|].
    by destruct (filter_nil_not_elem_of _ _ f H E Hf).
  - intros H. apply filter_none, Forall_forall. intros f Hf. by rewrite H.
Qed.

Lemma agent_outs cfg :
  Forall (λ out, is_absolute out = false ∧ last out = Some (ch "g")) (agent_kubeconfigs cfg).*1.*1.
Proof. apply (bool_decide_unpack _). by vm_compute. Qed.

(** With its material in place the agent renders its three kubeconfigs. *)
Lemma agent_renders cfg w : missing_agent (pki cfg) w = [] → (12 ≤ steps w)%nat →
  ∃ w' ca, agent cfg w = (Ok tt, w') ∧ files w !! path_join (pki cfg) $"ca.crt" = Some ca
  ∧ ∀ k, k ∈ agent_kubeconfigs cfg → config_fresh cfg ca k w'
         ∧ files w' !! crt_path (pki cfg) k.2 = files w !! crt_path (pki cfg) k.2.
Proof.
  intros Hm Hst. unfold agent. rewrite M_bind_gets, Hm, decide_True, M_bind_gets by done.
  match goal with |- context [M_bind _ ?m w] =>
    assert (∃ v, m w = (Ok tt, v) ∧ files v = files w ∧ steps v = steps w) as (v & E & Hf & Hs)
      by (destruct (files w !! _ ≫= not_after_ts); [case_match|]; by eexists) end.
  rewrite (M_bind_ok _ _ _ _ _ E). rewrite missing_agent_nil in Hm.
  pose proof (agent_outs cfg) as Ho. set (kcs := agent_kubeconfigs cfg) in *.
  assert (∀ f, f ∈ AGENT_FILES → file_exists (path_join (pki cfg) f) v = true) as Hex.
  { intros f Hin. apply non_empty_exists. rewrite (non_empty_ext _ w v) by (by rewrite Hf). by apply Hm. }
  destruct (ends_render_all (λ p, file_exists p v = true) cfg kcs) with v as ([] & w' & Er & _).
  - apply Hex, (bool_decide_unpack _). by vm_compute.
  - intros k p Hk Hp. unfold kcs, agent_kubeconfigs in Hk. rewrite !elem_of_cons, elem_of_nil in Hk.
    destruct Hk as [->|[->|[->|[]]]], Hp as [->| ->]; apply Hex, (bool_decide_unpack _); by vm_compute.
  - by intros p Hp _.
  - by rewrite Hs.
  - destruct (renders_settle cfg kcs v w' Ho) as (ca & Hca & Hfresh);
      [apply (bool_decide_unpack _); by vm_compute|done|].
    exists w', ca. rewrite <- Hf. split_and!; [done..|]. intros k Hk. split; [by apply Hfresh|].
    pose proof (touches_render_all (config_written (kc cfg) kcs.*1.*1) cfg kcs ltac:(done) v) as T.
    rewrite Er in T. apply T. intros (out & Hout & Hin). rewrite Forall_forall in Ho. destruct (Ho out Hout).
    revert Hin. apply config_apart; [done..|]. by left.
Qed.

(** Without it, it says what is missing and for which directory it waits. *)
Lemma agent_waits cfg w : missing_agent (pki cfg) w ≠ [] → ∃ w',
  agent cfg w = (Ok tt, w') ∧ files w' = files w ∧ (length (stderr w') = 2 + length (stderr w))%nat.
Proof.
  intros Hm. unfold agent. rewrite M_bind_gets, decide_False by done. eexists. split; [done|]. cbn [files stderr].
  split; [done|]. rewrite !length_app. simpl. lia.
Qed.
End agent.

(** *** The bundle *)

Section bundle.
Context `{L : !PkiLib, Laws : !PkiLaws, W : !PkiWorks}.

(** Unpacked, the bundle is the operator's directory again. *)
Lemma unpacked_custody dir w bs entries dst wd f : missing_custody dir w = [] → bundle_text dir w →
  tar_bundle dir w = (Ok bs, w) → read_tar 7 bs = Some entries → unpacked entries dst wd →
  f ∈ CUSTODY_FILES → files wd !! path_join dst f = files w !! path_join dir f.
Proof.
  intros Hm Hb Et Er Hu Hf. rewrite missing_custody_nil in Hm.
  assert (∀ f, f ∈ CUSTODY_FILES → ∃ data, files w !! path_join dir f = Some data) as Hex.
  { intros g Hg. specialize (Hm g Hg). unfold non_empty in Hm. destruct (files w !! path_join dir g); eauto. done. }
  destruct (tar_bundle_entries dir w) as (bs' & Et' & Er').
  { intros g Hg. destruct (Hex g Hg) as [data E]. exists data. split; [done|]. by eapply Hb. }
  assert (bs' = bs) as -> by congruence. assert (entries = custody_entries dir w) as -> by congruence.
  destruct (Hex f Hf) as [data E]. rewrite E, (Hu f (utf8 data)).
  - f_equal. apply from_utf8_utf8. by eapply Hb.
  - unfold custody_entries. apply list_elem_of_fmap. exists f. by rewrite E.
Qed.

(** Minted and shipped, the trust roots are fit for a durable server. *)
Lemma shipped_roots_ok op w w1 cfg wd : minted (out op) w w1 → file_exists (path_join (out op) $"sa.key") w = false →
  (∀ name, name ∈ [$"ca"; $"front-proxy-ca"] → ca_complete (out op) name w = true → ca_loads (out op) name w) →
  (∀ f, f ∈ CUSTODY_FILES → files wd !! path_join (pki cfg) f = files w1 !! path_join (out op) f) →
  missing_custody (out op) w1 = [] ∧ roots_ok cfg wd.
Proof.
  intros Hm Hsa Hload Heq.
  assert (missing_custody (out op) w1 = []) as Hnone by (apply (minted_missing _ _ _ Hm); congruence).
  split; [done|]. split.
  - intros _. rewrite missing_custody_nil in *. intros f Hf. unfold non_empty. rewrite Heq by done. by apply Hnone.
  - intros name Hn _. unfold ca_loads.
    rewrite !Heq by (apply custody_ca_files; [done|]; rewrite !elem_of_cons; auto).
    destruct Hm as (H1 & H2 & _). rewrite !elem_of_cons, elem_of_nil in Hn.
    destruct Hn as [->|[->|[]]]; eapply kept_loads; eauto; apply Hload; rewrite !elem_of_cons; auto.
Qed.
End bundle.

(** ** Theorems *)



(** ** Witnesses *)

#[local] Existing Instances toy_lib toy_laws toy_works.

(** The server of two nodes, and its worker. *)
Definition worker_cfg : PkiCfg :=
  mkPkiCfg $"agent" $"q" $"k" $"w1" None $"https://10.0.0.1:6443" $"cluster.local" $"10.96.0.1" []
    [] 365 30 false [] [] false [] [] None.

Definition ship (pki m dst : text) (w : Disk) (n : nat) : Disk :=
  mkDisk (list_to_map ((λ f, (path_join dst f, default [] (files w !! path_join (package_dir pki m) f))) <$> AGENT_FILES))
    [] 0 n.


Definition op_cfg : PkiCfg :=
  mkPkiCfg $"mint-ca" [] [] [] None [] [] [] [] [] 365 30 false [] $"ca-bundle" false [] [] None.

Definition unpack (entries : list (text * bytes)) (dst : text) (n : nat) : Disk :=
  mkDisk (list_to_map ((λ e, (path_join dst e.1, from_utf8_lossy e.2)) <$> entries)) [] 0 n.

(** The operator's disk after minting. *)
Definition op_disk : Disk := (mint_ca op_cfg (mkDisk ∅ [] 0 25)).2.

Lemma op_disk_text f : f ∈ CUSTODY_FILES →
  ∃ data, files op_disk !! path_join (out op_cfg) f = Some data ∧ ascii data
          ∧ Z.of_nat (length (utf8 data)) < 8 ^ 11.
Proof.
  intros Hf. exists (default [] (files op_disk !! path_join (out op_cfg) f)).
  set (Q := λ f, files op_disk !! path_join (out op_cfg) f = Some (default [] (files op_disk !! path_join (out op_cfg) f))
                 ∧ ascii (default [] (files op_disk !! path_join (out op_cfg) f))
                 ∧ Z.of_nat (length (utf8 (default [] (files op_disk !! path_join (out op_cfg) f)))) < 8 ^ 11).
  assert (Forall Q CUSTODY_FILES) as H; [|rewrite Forall_forall in H; exact (H f Hf)].
  unfold Q. apply (bool_decide_unpack _). by vm_compute.
Qed.

