(* ===== verification/SnapIdentity.v ===== *)
(** * Snapshot identity ([rust/kubenyx-snap/src/lib.rs])

    What a snapshot is locked to, how it is written to and read from the
    snapshot directory's manifest, the CPU-template rules, and the gate that
    refuses a resume before any VMM is spawned.  The contents of files and of
    [/proc], and SHA-256, are inputs; an error is the message [die] prints
    before exit 2, without the operating system's own error text.  The constant explanations ([WHY_...]) and warning texts are
    kept as constructors. *)

From S2P Require Import Prelude Text.

(** ** Identity and manifest *)

Record SnapIdentity := mkIdentity {
  closure : option text; vmm : option text; cpu : option text; cpu_host : option text }.

Definition SnapIdentity_none : SnapIdentity := mkIdentity None None None None.

Definition is_empty (id : SnapIdentity) : bool :=
  bool_decide (closure id = None) && bool_decide (vmm id = None)
  && bool_decide (cpu id = None) && bool_decide (cpu_host id = None).

Definition IDENTITY_PREFIX : text := $"identity ".

(** One [identity <field> <value>] line, when the field is known. *)
Definition identity_line (key : text) (v : option text) : text :=
  match v with
  | Some v => IDENTITY_PREFIX ++ key ++ $" " ++ v ++ [newline]
  | None => []
  end.

Definition identity_lines (id : SnapIdentity) : text :=
  identity_line $"closure" (closure id) ++ identity_line $"vmm" (vmm id)
  ++ identity_line $"cpu" (cpu id) ++ identity_line $"cpu-host" (cpu_host id).

(** The body of the loop in [parse_identity]. *)
Definition parse_identity_line (id : SnapIdentity) (line : text) : SnapIdentity :=
  match strip_prefix IDENTITY_PREFIX line with
  | None => id
  | Some rest =>
      match split_once (ch " ") rest with
      | None => id
      | Some (key, value) =>
          let value := Some (trim value) in
          if decide (key = $"closure") then mkIdentity value (vmm id) (cpu id) (cpu_host id)
          else if decide (key = $"vmm") then mkIdentity (closure id) value (cpu id) (cpu_host id)
          else if decide (key = $"cpu") then mkIdentity (closure id) (vmm id) value (cpu_host id)
          else if decide (key = $"cpu-host") then mkIdentity (closure id) (vmm id) (cpu id) value
          else id
      end
  end.

Definition parse_identity (manifest : text) : SnapIdentity :=
  foldl parse_identity_line SnapIdentity_none (lines manifest).

Record MeshNode := mkNode { n_name : text; n_ip : text }.

#[export] Instance MeshNode_eq_dec : EqDecision MeshNode.
Proof. solve_decision. Defined.

(** What [write_manifest] writes: the node lines, then the identity lines. *)
Definition manifest_body (nodes : list MeshNode) (id : SnapIdentity) : text :=
  mjoin ((λ n, n_name n ++ $" " ++ n_ip n ++ [newline]) <$> nodes) ++ identity_lines id.

(** One line of [read_manifest], after its filter. *)
Definition read_node (l : text) : result text MeshNode :=
  match split_once (ch " ") l with
  | Some (name, ip) => Ok (mkNode name ip)
  | None => Err ($"bad manifest line: " ++ l)
  end.

Definition node_lines (data : text) : list text :=
  filter (λ l, trim l ≠ [] ∧ starts_with IDENTITY_PREFIX l = false) (lines data).

Definition read_manifest (dir data : text) : result text (list MeshNode) :=
  let? nodes := collect (read_node <$> node_lines data) in
  if decide (nodes = []) then
    Err (dir ++ $"/manifest has no node lines " ++ dash ++ $" not a mesh snapshot")
  else Ok nodes.

(** [read_snapshot_identity], given the manifest's contents if it exists. *)
Definition read_snapshot_identity (manifest : option text) : option SnapIdentity :=
  raw ← manifest; let id := parse_identity raw in if is_empty id then None else Some id.

(** ** CPU identity *)

Definition CPU_FEATURE_WATCHLIST : list text :=
  [$"avx"; $"avx2"; $"avx512f"; $"amx_tile"; $"amx_bf16"; $"amx_int8"; $"xsave"; $"xsavec";
   $"xsaves"; $"shstk"; $"ibt"; $"pku"; $"la57"].

(** [find_map] over the first block's lines: the value of a [key : value]. *)
Definition cpu_field (first key : text) : text :=
  default $"unknown"
    (head (omap (λ l, match split_once (ch ":") l with
                      | Some (k, v) => if decide (trim k = key) then Some (trim v) else None
                      | None => None
                      end) (lines first))).

Definition cpu_fingerprint_from (cpuinfo : text) : text :=
  let first := match split_once_str [newline; newline] cpuinfo with
               | Some (a, _) => a | None => cpuinfo end in
  let set := split_whitespace (cpu_field first $"flags") in
  let have := filter (λ f, f ∈ set) CPU_FEATURE_WATCHLIST in
  cpu_field first $"vendor_id" ++ $"/" ++ cpu_field first $"cpu family" ++ $"/"
  ++ cpu_field first $"model" ++ $"+" ++ join $"," have.

Definition TEMPLATE_PREFIX : text := $"template:".

Definition backslash : N := 92%N.
Definition quote : N := 34%N.

(** A JSON string literal without escapes. *)
Definition jstr (s : text) : text := quote :: s ++ [quote].

(** The scanner's state: inside a string literal, after a backslash. *)
Record Scan := mkScan { in_str : bool; esc : bool }.

Definition scan_string (c : N) (s : Scan) : Scan :=
  if esc s then mkScan true false
  else if decide (c = backslash) then mkScan true true
  else if decide (c = quote) then mkScan false false
  else mkScan true false.

Definition canon_step (s : Scan) (c : N) : Scan * text :=
  if in_str s then (scan_string c s, [c])
  else if decide (c = quote) then (mkScan true false, [c])
  else (s, if is_whitespace c then [] else [c]).

Fixpoint canon (s : Scan) (raw : text) : text :=
  match raw with
  | [] => []
  | c :: raw => let '(s', out) := canon_step s c in out ++ canon s' raw
  end.

Definition canonicalize_json (raw : text) : text := canon (mkScan false false) raw.

(** The end of a balanced object: the text up to and including the brace
    that closes it. *)
Fixpoint object_end (depth : nat) (s : Scan) (rest : text) : option text :=
  match rest with
  | [] => None
  | c :: rest =>
      if in_str s then cons c <$> object_end depth (scan_string c s) rest
      else if decide (c = quote) then cons c <$> object_end depth (mkScan true false) rest
      else if decide (c = ch "{") then cons c <$> object_end (S depth) s rest
      else if decide (c = ch "}") then
        match depth with
        | S (S d) => cons c <$> object_end (S d) s rest
        | _ => Some [c]
        end
      else cons c <$> object_end depth s rest
  end.

Definition json_value_after_key (obj key : text) : option text :=
  '(_, after) ← split_once_str (quote :: key ++ [quote]) obj;
  rest ← strip_prefix $":" (trim_start after);
  match trim_start rest with
  | [] => None
  | c :: rest =>
      if decide (c = quote) then
        '(s, _) ← split_once quote rest; Some (quote :: s ++ [quote])
      else if decide (c = ch "{") then object_end 0 (mkScan false false) (c :: rest)
      else None
  end.

Section template.
(** [Sha256::digest] of a string's bytes. *)
Variable sha256 : text → bytes.

Definition hex_byte (b : N) : text := [hex_digit (Z.of_N b / 16); hex_digit (Z.of_N b mod 16)].

Definition template_hash (raw : text) : text :=
  $"sha256:" ++ mjoin (hex_byte <$> sha256 (canonicalize_json raw)).

(** The argument after [--config-file] in a command line. *)
Fixpoint config_file (args : list text) : option text :=
  match args with
  | a :: args =>
      match args with
      | b :: _ => if decide (a = $"--config-file") then Some b else config_file args
      | [] => None
      end
  | [] => None
  end.

(** [vmm_cpu_template], from the VMM's arguments and the files it can read. *)
Definition vmm_cpu_template (args : option (list text)) (read : text → option text)
    : result text (option text) :=
  match args ≫= config_file with
  | None => Ok None
  | Some cfg_path =>
      let? cfg := of_option ($"read VMM config " ++ cfg_path) (read cfg_path) in
      match json_value_after_key cfg $"cpu-config" with
      | None => Ok None
      | Some val =>
          let? template_json :=
            match strip_prefix [quote] val with
            | Some quoted =>
                let path := default quoted (strip_suffix [quote] quoted) in
                if decide (backslash ∈ path) then
                  Err ($"cpu-config path " ++ path ++ $": unexpected escape")
                else of_option ($"read cpu-config " ++ path) (read path)
            | None => Ok val
            end in
          Ok (Some (template_hash template_json))
      end
  end.

(** [resolve_template_spec]: a file is hashed (when it can be read as text), a
    path that is no file refused, anything else taken literally. *)
Definition resolve_template_spec (is_file : text → bool) (read : text → option text) (arg : text)
    : result text text :=
  if is_file arg then
    let? raw := of_option ($"read --cpu-template " ++ arg) (read arg) in Ok (template_hash raw)
  else if decide (ch "/" ∈ arg) then
    Err ($"--cpu-template " ++ arg ++ $": looks like a path but is not a readable file")
  else Ok arg.
End template.

Definition take_cpu_identity (fingerprint : text) (template : option text) : option text * option text :=
  match template with
  | Some t => (Some (TEMPLATE_PREFIX ++ t), Some fingerprint)
  | None => (Some fingerprint, None)
  end.

(** ** The resume gate *)

Inductive Why := WHY_CLOSURE | WHY_VMM | WHY_CPU | WHY_TEMPLATE | WHY_NOT_TEMPLATED.

(** A section of a document. *)
Definition section_d (n : text) : text := $"portable-snapshots.org " ++ 167%N :: $"D" ++ n.

Definition why_text (w : Why) : text :=
  match w with
  | WHY_CLOSURE =>
      $"the snapshot is a booted instance of one exact node closure; "
      ++ $"a different closure means the guest inside is not the system being asked for (closure lock)"
  | WHY_VMM =>
      $"snap.vmstate is written by and locked to one exact firecracker build; "
      ++ $"a different VMM misparses or refuses the device state (VMM version lock)"
  | WHY_CPU =>
      $"snap.mem freezes guest xstate/CPUID against the take host's CPU "
      ++ $"features; restoring under a different feature set has a measured history of guest "
      ++ $"XRSTORS #GP kernel panics (CPU-feature lock)"
  | WHY_TEMPLATE =>
      $"the snapshot's CPU identity is keyed to a firecracker CPU "
      ++ $"template (" ++ section_d $"3" ++ $"); resume must present the same template via "
      ++ $"--cpu-template " ++ dash ++ $" exact string, no subset logic, because a half-right compatibility "
      ++ $"check fails as a guest panic instead of an error message (template lock)"
  | WHY_NOT_TEMPLATED =>
      $"--cpu-template was passed but this snapshot was minted "
      ++ $"WITHOUT a template " ++ dash ++ $" its frozen xstate is keyed to the minting host, and claiming a "
      ++ $"template it never ran under would fake portability the artifact does not have "
      ++ $"(template lock)"
  end.

Record IdentityMismatch := mkMismatch { mm_field : text; mm_recorded : text; mm_live : text; mm_why : Why }.

Definition mismatch_on (field : text) (why : Why) (r l : option text) : list IdentityMismatch :=
  match r, l with
  | Some r, Some l => if decide (r = l) then [] else [mkMismatch field r l why]
  | _, _ => []
  end.

Definition identity_mismatches (recorded live : SnapIdentity) : list IdentityMismatch :=
  mismatch_on $"closure" WHY_CLOSURE (closure recorded) (closure live)
  ++ mismatch_on $"vmm" WHY_VMM (vmm recorded) (vmm live).

(** The warning that a template-keyed snapshot moves to another host CPU. *)
Record HostWarning := mkHostWarning { hw_minted_on : text; hw_this_host : text }.

Definition warning_text (w : HostWarning) : text :=
  $"template-keyed identities match but the host CPU differs from the minting host" ++ newline
  :: $"  minted on: " ++ hw_minted_on w ++ newline :: $"  this host: " ++ hw_this_host w ++ newline
  :: $"  proceeding " ++ dash ++ $" the template is the lock; cross-host restore remains unproven ("
  ++ section_d $"4" ++ $")".

Definition cpu_identity_check (recorded_cpu recorded_cpu_host : option text) (live_cpu : text)
    (resume_template : option text) : list IdentityMismatch * list HostWarning :=
  match recorded_cpu with
  | None =>
      (match resume_template with
       | Some rt => [mkMismatch $"cpu" $"(no cpu identity recorded)" (TEMPLATE_PREFIX ++ rt) WHY_NOT_TEMPLATED]
       | None => []
       end, [])
  | Some rc =>
      match strip_prefix TEMPLATE_PREFIX rc with
      | Some recorded_template =>
          match resume_template with
          | None => ([mkMismatch $"cpu" rc $"(resume passed no --cpu-template)" WHY_TEMPLATE], [])
          | Some rt =>
              if decide (rt = recorded_template) then
                ([], match recorded_cpu_host with
                     | Some rh => if decide (rh = live_cpu) then [] else [mkHostWarning rh live_cpu]
                     | None => []
                     end)
              else ([mkMismatch $"cpu" rc (TEMPLATE_PREFIX ++ rt) WHY_TEMPLATE], [])
          end
      | None =>
          match resume_template with
          | Some rt => ([mkMismatch $"cpu" rc (TEMPLATE_PREFIX ++ rt) WHY_NOT_TEMPLATED], [])
          | None => (if decide (rc = live_cpu) then [] else [mkMismatch $"cpu" rc live_cpu WHY_CPU], [])
          end
      end
  end.

(** What the gate does: go on or refuse, with what it prints. *)
Inductive Gate :=
| NoIdentity
| Proceed (warnings : list HostWarning) (overridden : list IdentityMismatch)
| RefuseUnverifiable
| Refuse (warnings : list HostWarning) (mismatches : list IdentityMismatch).

(** [live_identity]: the VMM's resolved path if any, and the fingerprint. *)
Definition live_identity (exe : option text) (fingerprint : text) : SnapIdentity :=
  mkIdentity None exe (Some fingerprint) None.

Definition enforce_identity (manifest : option text) (live : SnapIdentity)
    (cpu_template : option text) (allow_mismatch : bool) : Gate :=
  match read_snapshot_identity manifest with
  | None =>
      if bool_decide (is_Some cpu_template) && negb allow_mismatch then RefuseUnverifiable else NoIdentity
  | Some recorded =>
      let '(cpu_mismatches, warnings) :=
        cpu_identity_check (cpu recorded) (cpu_host recorded) (default [] (cpu live)) cpu_template in
      let mismatches := identity_mismatches recorded live ++ cpu_mismatches in
      if decide (mismatches = []) then Proceed warnings []
      else if allow_mismatch then Proceed warnings mismatches
      else Refuse warnings mismatches
  end.

Definition resumes (g : Gate) : bool :=
  match g with NoIdentity | Proceed _ _ => true | _ => false end.

(** ** Specifications *)

(** A value that survives a line of the manifest. *)
Definition clean (v : text) : Prop := newline ∉ v ∧ trim v = v.
Definition clean_identity (id : SnapIdentity) : Prop :=
  ∀ v, closure id = Some v ∨ vmm id = Some v ∨ cpu id = Some v ∨ cpu_host id = Some v → clean v.

(** A node whose line is read back: a name that is one word and not the
    identity prefix's, an address without line breaks. *)
Definition plain_node (n : MeshNode) : Prop :=
  n_name n ≠ [] ∧ Forall (λ c, is_whitespace c = false) (n_name n) ∧ n_name n ≠ $"identity"
  ∧ newline ∉ n_ip n ∧ ∀ x, n_ip n ≠ x ++ [carriage_return].

(** The CPU rule table. *)
Definition cpu_rule (recorded_cpu : option text) (live_cpu : text) (template : option text) : Prop :=
  match recorded_cpu with
  | None => template = None
  | Some rc =>
      (∃ t, rc = TEMPLATE_PREFIX ++ t ∧ template = Some t)
      ∨ (strip_prefix TEMPLATE_PREFIX rc = None ∧ template = None ∧ rc = live_cpu)
  end.

Definition vmm_rule (recorded live : option text) : Prop :=
  recorded = None ∨ live = None ∨ recorded = live.

Definition demo_identity : SnapIdentity :=
  mkIdentity None (Some $"/nix/store/bbb-firecracker/bin/firecracker") (Some $"template:sha256:5dd9")
    (Some $"GenuineIntel/6/173+avx,avx2").
Definition demo_nodes : list MeshNode :=
  [mkNode $"server1" $"10.100.0.2"; mkNode $"agent1" $"10.100.0.5"].

(** The scanner's state after a text. *)
Definition scan_after (s : Scan) (raw : text) : Scan := foldl (λ s c, (canon_step s c).1) s raw.

(** The manifest as a list of lines. *)
Definition id_line (key : text) (v : option text) : list text :=
  match v with Some v => [IDENTITY_PREFIX ++ key ++ $" " ++ v] | None => [] end.

Definition id_line_list (id : SnapIdentity) : list text :=
  id_line $"closure" (closure id) ++ id_line $"vmm" (vmm id)
  ++ id_line $"cpu" (cpu id) ++ id_line $"cpu-host" (cpu_host id).

Definition node_line (n : MeshNode) : text := n_name n ++ $" " ++ n_ip n.

Definition good_line (w : text) : Prop := newline ∉ w ∧ ∀ x, w ≠ x ++ [carriage_return].

(** What the gate says of the snapshot taken on a host with fingerprint [fp],
    with or without a template, when it is resumed on one with [fp']. *)
Definition own_gate (fp fp' : text) (tmpl : option text) (allow : bool) : Gate :=
  if decide (fp = fp') then Proceed [] []
  else match tmpl with
       | Some _ => Proceed [mkHostWarning fp fp'] []
       | None =>
           let mm := [mkMismatch $"cpu" fp fp' WHY_CPU] in
           if allow then Proceed [] mm else Refuse [] mm
       end.

(** ** Helper lemmas *)

(** *** Trimming *)

Lemma trim_start_nil s : trim_start s = [] ↔ Forall (λ c, is_whitespace c = true) s.
Proof.
  induction s as [|c s IH]; simpl; [by split|]. destruct (is_whitespace c) eqn:E.
  - rewrite IH. split; [by constructor|by inversion 1].
  - split; [done|]. inversion 1. congruence.
Qed.

Lemma trim_start_head s c t : trim_start s = c :: t → is_whitespace c = false.
Proof.
  induction s as [|x s IH]; simpl; [done|]. destruct (is_whitespace x) eqn:E; [done|].
  by intros [= <- <-].
Qed.

Lemma trim_last v x c : trim v = x ++ [c] → is_whitespace c = false.
Proof.
  unfold trim, trim_end. intros H. apply (f_equal reverse) in H.
  rewrite reverse_involutive, reverse_app in H. simpl in H. by apply trim_start_head in H.
Qed.

Lemma trim_not_nil c s : is_whitespace c = false → trim (c :: s) ≠ [].
Proof.
  intros Hc H. unfold trim, trim_end in H. simpl in H. rewrite Hc in H.
  apply (f_equal reverse) in H. rewrite reverse_involutive in H.
  apply trim_start_nil in H. rewrite reverse_cons in H. apply Forall_app in H as [_ H].
  inversion H. congruence.
Qed.

(** *** The manifest, line by line *)

Lemma identity_line_unlines key v :
  identity_line key v = mjoin ((λ w, w ++ [newline]) <$> id_line key v).
Proof. destruct v; [|done]. simpl. by rewrite app_nil_r, <- !app_assoc. Qed.

Lemma manifest_body_unlines nodes id :
  manifest_body nodes id
  = mjoin ((λ w, w ++ [newline]) <$> ((node_line <$> nodes) ++ id_line_list id)).
Proof.
  unfold manifest_body, identity_lines, id_line_list.
  rewrite !fmap_app, !join_app, !identity_line_unlines. f_equal.
  rewrite <- list_fmap_compose. f_equal. apply list_fmap_ext. intros _ n _.
  unfold compose, node_line. by rewrite <- !app_assoc.
Qed.

Lemma not_newline_in a : Forall (λ c, is_whitespace c = false) a → newline ∉ a.
Proof. intros H Hin. by apply (proj1 (Forall_forall _ _) H) in Hin. Qed.

Lemma node_line_good n : plain_node n → good_line (node_line n).
Proof.
  intros (_ & Hw & _ & Hn & Hcr). unfold node_line. split.
  - rewrite !not_elem_of_app. split_and!; [by apply not_newline_in| |done].
    intros H%list_elem_of_singleton. done.
  - intros x E. destruct (n_ip n) as [|c ip _] eqn:Ei using rev_ind.
    + rewrite app_nil_r in E. by apply app_inj_tail in E as [_ ?].
    + rewrite !app_assoc in E. apply app_inj_tail in E as [_ ->]. by apply (Hcr ip).
Qed.

Lemma id_line_good key v :
  newline ∉ key → clean v → good_line (IDENTITY_PREFIX ++ key ++ $" " ++ v).
Proof.
  intros Hk [Hn Ht]. split.
  - rewrite !not_elem_of_app. split_and!; [|done| |done].
    + rewrite <- (not_elem_of_list_to_set (C:=gset N)). by vm_compute.
    + intros H%list_elem_of_singleton. done.
  - intros x E. destruct v as [|c v _] using rev_ind.
    + rewrite app_nil_r in E. rewrite app_assoc in E. by apply app_inj_tail in E as [_ ?].
    + rewrite !app_assoc in E. apply app_inj_tail in E as [_ ->].
      by apply trim_last in Ht.
Qed.

(** The keys of the identity lines. *)
Lemma id_keys_plain key :
  key ∈ [$"closure"; $"vmm"; $"cpu"; $"cpu-host"] → newline ∉ key ∧ ch " " ∉ key.
Proof.
  intros H. repeat (apply elem_of_cons in H as [->|H];
    [split; rewrite <- (not_elem_of_list_to_set (C:=gset N)); by vm_compute|]).
  by apply not_elem_of_nil in H.
Qed.

Lemma id_line_list_elem id w :
  clean_identity id → w ∈ id_line_list id →
  ∃ key v, w = IDENTITY_PREFIX ++ key ++ $" " ++ v
    ∧ key ∈ [$"closure"; $"vmm"; $"cpu"; $"cpu-host"] ∧ clean v.
Proof.
  intros Hc Hw. unfold id_line_list in Hw. rewrite !elem_of_app in Hw. unfold clean_identity in Hc.
  destruct Hw as [Hw|[Hw|[Hw|Hw]]]; unfold id_line in Hw;
    case_match; try (by apply not_elem_of_nil in Hw); apply list_elem_of_singleton in Hw as ->;
    do 2 eexists; (split; [done|]); (split; [set_solver|]); apply Hc; auto.
Qed.

Lemma body_lines nodes id :
  clean_identity id → Forall plain_node nodes →
  lines (manifest_body nodes id) = (node_line <$> nodes) ++ id_line_list id.
Proof.
  intros Hc Hn. rewrite manifest_body_unlines. apply lines_unlines, Forall_app. split.
  - apply Forall_fmap. eapply Forall_impl; [exact Hn|]. intros n. apply node_line_good.
  - apply Forall_forall. intros w (key & v & -> & [Hk _]%id_keys_plain & Hv)%id_line_list_elem; [|done].
    by apply id_line_good.
Qed.

Lemma node_line_split n : plain_node n → split_once (ch " ") (node_line n) = Some (n_name n, n_ip n).
Proof.
  intros (_ & Hw & _). apply split_once_Some. split; [done|]. intros Hin.
  by apply (proj1 (Forall_forall _ _) Hw) in Hin.
Qed.

Lemma node_line_no_prefix n : plain_node n → strip_prefix IDENTITY_PREFIX (node_line n) = None.
Proof.
  intros Hp. destruct (strip_prefix _ _) as [r|] eqn:E; [|done].
  apply strip_prefix_Some in E. exfalso.
  pose proof (node_line_split n Hp) as Hs. rewrite E in Hs.
  change (IDENTITY_PREFIX ++ r) with ($"identity" ++ ch " " :: r) in Hs.
  rewrite (proj2 (split_once_Some (ch " ") ($"identity" ++ ch " " :: r) $"identity" r)) in Hs.
  - injection Hs as Hs _. by destruct Hp as (_ & _ & ? & _).
  - split; [done|]. rewrite <- (not_elem_of_list_to_set (C:=gset N)). by vm_compute.
Qed.

Lemma parse_identity_line_node id n : plain_node n → parse_identity_line id (node_line n) = id.
Proof. intros Hp. unfold parse_identity_line. by rewrite node_line_no_prefix. Qed.

Lemma parse_identity_line_id id key v :
  ch " " ∉ key → trim v = v →
  parse_identity_line id (IDENTITY_PREFIX ++ key ++ $" " ++ v)
  = if decide (key = $"closure") then mkIdentity (Some v) (vmm id) (cpu id) (cpu_host id)
    else if decide (key = $"vmm") then mkIdentity (closure id) (Some v) (cpu id) (cpu_host id)
    else if decide (key = $"cpu") then mkIdentity (closure id) (vmm id) (Some v) (cpu_host id)
    else if decide (key = $"cpu-host") then mkIdentity (closure id) (vmm id) (cpu id) (Some v)
    else id.
Proof.
  intros Hk Hv. unfold parse_identity_line. rewrite strip_prefix_app.
  rewrite (proj2 (split_once_Some (ch " ") (key ++ $" " ++ v) key v)) by done. by rewrite Hv.
Qed.

Lemma parse_id_lines id :
  clean_identity id → foldl parse_identity_line SnapIdentity_none (id_line_list id) = id.
Proof.
  intros Hc. destruct id as [c vm cp h]. unfold clean_identity in Hc. simpl in Hc.
  assert (∀ id0 key v, key ∈ [$"closure"; $"vmm"; $"cpu"; $"cpu-host"] →
    (c = Some v ∨ vm = Some v ∨ cp = Some v ∨ h = Some v) →
    parse_identity_line id0 (IDENTITY_PREFIX ++ key ++ $" " ++ v)
    = if decide (key = $"closure") then mkIdentity (Some v) (vmm id0) (cpu id0) (cpu_host id0)
      else if decide (key = $"vmm") then mkIdentity (closure id0) (Some v) (cpu id0) (cpu_host id0)
      else if decide (key = $"cpu") then mkIdentity (closure id0) (vmm id0) (Some v) (cpu_host id0)
      else if decide (key = $"cpu-host") then mkIdentity (closure id0) (vmm id0) (cpu id0) (Some v)
      else id0) as Hl.
  { intros id0 key v Hk Hv. apply parse_identity_line_id; [by apply id_keys_plain|].
    by destruct (Hc v Hv). }
  unfold id_line_list, SnapIdentity_none. simpl. rewrite !foldl_app.
  destruct c, vm, cp, h; cbn [id_line foldl];
    rewrite ?Hl by first [by repeat first [apply list_elem_of_here|apply list_elem_of_further] | auto]; reflexivity.
Qed.

Lemma node_lines_body nodes id :
  clean_identity id → Forall plain_node nodes →
  node_lines (manifest_body nodes id) = node_line <$> nodes.
Proof.
  intros Hc Hn. unfold node_lines. rewrite body_lines by done. rewrite filter_app.
  rewrite (filter_none _ (id_line_list id)), app_nil_r.
  - apply filter_all, Forall_fmap. eapply Forall_impl; [exact Hn|]. intros n Hp. simpl.
    split.
    + destruct Hp as (Hne & Hw & _). unfold node_line. destruct (n_name n) as [|c s]; [done|].
      inversion Hw; subst. by apply trim_not_nil.
    + unfold starts_with. rewrite node_line_no_prefix by done. done.
  - apply Forall_forall. intros w (key & v & -> & _)%id_line_list_elem; [|done].
    unfold starts_with. rewrite strip_prefix_app. intros [_ H]. by vm_compute in H.
Qed.

(** *** Canonical JSON *)

Lemma canon_app s a b : canon s (a ++ b) = canon s a ++ canon (scan_after s a) b.
Proof.
  revert s. induction a as [|c a IH]; intros s; simpl; [done|].
  destruct (canon_step s c) as [s' out]. by rewrite IH, <- app_assoc.
Qed.

Lemma canon_step_cases s c :
  (∃ s', canon_step s c = (s', [c]))
  ∨ (canon_step s c = (s, []) ∧ in_str s = false ∧ is_whitespace c = true).
Proof.
  unfold canon_step. destruct (in_str s); [by left; eexists|]. case_decide; [by left; eexists|].
  destruct (is_whitespace c); [by right|by left; eexists].
Qed.

Lemma canon_idem s raw : canon s (canon s raw) = canon s raw.
Proof.
  revert s. induction raw as [|c raw IH]; intros s; simpl; [done|].
  destruct (canon_step_cases s c) as [[s' E]|(E & _)]; rewrite E; simpl; [|apply IH].
  rewrite E. simpl. by rewrite IH.
Qed.

Lemma canon_spaces s ws :
  in_str s = false → Forall (λ c, is_whitespace c = true) ws → canon s ws = [] ∧ scan_after s ws = s.
Proof.
  intros Hs. induction 1 as [|c ws Hc _ IH]; [done|].
  assert (canon_step s c = (s, [])) as E.
  { unfold canon_step. rewrite Hs, Hc. case_decide; [by subst|done]. }
  unfold scan_after in *. simpl. rewrite E. exact IH.
Qed.

(** *** The gate *)

Lemma cpu_check_rule rc rh live tmpl :
  (cpu_identity_check rc rh live tmpl).1 = [] ↔ cpu_rule rc live tmpl.
Proof.
  unfold cpu_identity_check, cpu_rule. destruct rc as [rc|]; [|by destruct tmpl].
  destruct (strip_prefix TEMPLATE_PREFIX rc) as [t|] eqn:E.
  - apply strip_prefix_Some in E as ->. destruct tmpl as [rt|].
    + case_decide as Hd; cbn [fst].
      * subst. split; [intros _; left; eauto|done].
      * split; [done|]. intros [(t' & Ht & [= ->])|(? & ? & _)]; [|done].
        by apply app_inv_head in Ht.
    + cbn [fst]. split; [done|]. intros [(t' & _ & ?)|(H & _ & _)]; done.
  - destruct tmpl as [rt|]; cbn [fst].
    + split; [done|]. intros [(t' & -> & _)|(_ & ? & _)]; [|done].
      by rewrite strip_prefix_app in E.
    + case_decide; split; try done; [intros _; by right|].
      intros [(t' & _ & ?)|(_ & _ & ?)]; done.
Qed.

Lemma mismatch_on_nil field why r l : mismatch_on field why r l = [] ↔ vmm_rule r l.
Proof.
  unfold mismatch_on, vmm_rule. destruct r as [r|], l as [l|]; try naive_solver.
  case_decide; naive_solver.
Qed.

Lemma identity_mismatches_nil recorded exe fp :
  identity_mismatches recorded (live_identity exe fp) = [] ↔ vmm_rule (vmm recorded) exe.
Proof.
  unfold identity_mismatches, live_identity. simpl. rewrite <- (mismatch_on_nil $"vmm" WHY_VMM).
  by destruct (closure recorded).
Qed.

Lemma gate_rule manifest exe fp tmpl allow :
  resumes (enforce_identity manifest (live_identity exe fp) tmpl allow) = true ↔
  allow = true ∨ match read_snapshot_identity manifest with
                 | None => tmpl = None
                 | Some rec => vmm_rule (vmm rec) exe ∧ cpu_rule (cpu rec) fp tmpl
                 end.
Proof.
  unfold enforce_identity. destruct (read_snapshot_identity manifest) as [rec|].
  - pose proof (cpu_check_rule (cpu rec) (cpu_host rec) fp tmpl) as Hc.
    destruct (cpu_identity_check _ _ _ _) as [ms ws]. simpl in Hc.
    rewrite <- Hc, <- (identity_mismatches_nil rec exe fp).
    set (im := identity_mismatches rec _).
    assert (im ++ ms = [] ↔ im = [] ∧ ms = []) as <- by apply app_nil.
    case_decide as Hd; [naive_solver|]. destruct allow; naive_solver.
  - destruct tmpl as [t|], allow; simpl; naive_solver.
Qed.

Lemma parse_manifest_body nodes id :
  clean_identity id → Forall plain_node nodes → parse_identity (manifest_body nodes id) = id.
Proof.
  intros Hc Hn. unfold parse_identity. rewrite body_lines by done. rewrite foldl_app.
  rewrite <- (parse_id_lines id Hc) at 2. f_equal.
  induction Hn as [|n nodes Hp _ IH]; csimpl; [done|]. by rewrite parse_identity_line_node.
Qed.

(** The gate on a snapshot's own manifest, on a host with fingerprint [fp']. *)
Lemma taken_identity_gate manifest clos exe fp fp' tmpl allow :
  strip_prefix TEMPLATE_PREFIX fp = None →
  let '(c, h) := take_cpu_identity fp tmpl in
  parse_identity manifest = mkIdentity clos exe c h →
  enforce_identity (Some manifest) (live_identity exe fp') tmpl allow = own_gate fp fp' tmpl allow.
Proof.
  intros Hfp. destruct (take_cpu_identity fp tmpl) as [c h] eqn:Et. intros Hp.
  unfold enforce_identity, read_snapshot_identity. simpl. rewrite Hp.
  assert (is_empty (mkIdentity clos exe c h) = false) as ->.
  { unfold is_empty. destruct tmpl; simplify_eq/=; by rewrite !andb_false_r. }
  rewrite (proj2 (identity_mismatches_nil (mkIdentity clos exe c h) exe fp'))
    by (unfold vmm_rule; simpl; tauto).
  unfold cpu_identity_check, own_gate. destruct tmpl as [t|]; simplify_eq/=.
  - rewrite (decide_True (P := t = t)) by done. by repeat case_decide.
  - rewrite Hfp. by repeat case_decide.
Qed.

(** ** Theorems *)



(** C15: the resume gate.  A resume goes ahead exactly when it is overridden or
    the manifest backs it: without identity fields only if no template is
    claimed; otherwise the VMM must be the recorded one (when both sides know
    theirs), and the CPU must be the recorded host's for a snapshot taken
    without a template, or the recorded template must be claimed exactly, the
    host then being free to differ. *)
Theorem resume_gate manifest exe fp tmpl allow :
  resumes (enforce_identity manifest (live_identity exe fp) tmpl allow) = true ↔
  allow = true ∨ match read_snapshot_identity manifest with
                 | None => tmpl = None
                 | Some rec => vmm_rule (vmm rec) exe ∧ cpu_rule (cpu rec) fp tmpl
                 end.
Proof. apply gate_rule. Qed.

(** The template identity does not depend on layout.  Canonical JSON drops
    exactly the whitespace outside string literals, keeping every other
    character in order; it is idempotent; and inserting or removing white
    space between tokens does not change it, so the template hash is that of
    the content. *)
Theorem canonicalize_spec :
  (∀ a c, canonicalize_json (a ++ [c])
          = canonicalize_json a
            ++ (if in_str (scan_after (mkScan false false) a) || negb (is_whitespace c) then [c] else []))
  ∧ (∀ raw, canonicalize_json (canonicalize_json raw) = canonicalize_json raw)
  ∧ (∀ sha256 a ws b, in_str (scan_after (mkScan false false) a) = false →
       Forall (λ c, is_whitespace c = true) ws →
       template_hash sha256 (a ++ ws ++ b) = template_hash sha256 (a ++ b)).
Proof.
  unfold canonicalize_json. split_and!.
  - intros a c. rewrite canon_app. f_equal. simpl. unfold canon_step.
    destruct (in_str _); [done|]. case_decide; [by subst|]. by destruct (is_whitespace c).
  - intros raw. apply canon_idem.
  - intros sha256 a ws b Ha Hws. unfold template_hash, canonicalize_json. do 3 f_equal. f_equal.
    rewrite !canon_app. destruct (canon_spaces _ _ Ha Hws) as [-> ->]. done.
Qed.

(** A node whose name is the identity prefix's word is lost: its line is taken
    for an identity line. *)
Example node_named_identity_lost :
  read_manifest $"snap" (manifest_body (mkNode $"identity" $"10.100.0.9" :: demo_nodes) demo_identity)
  = Ok demo_nodes.
Proof. by vm_compute. Qed.

(** The fingerprint of the sources' own test. *)
Example fingerprint_watchlist_order :
  cpu_fingerprint_from ($"vendor_id : GenuineIntel" ++ [newline] ++ $"cpu family : 6" ++ [newline]
    ++ $"model : 143" ++ [newline] ++ $"flags : fpu avx xsave amx_tile avx2 la57" ++ [newline; newline]
    ++ $"vendor_id : Other")
  = $"GenuineIntel/6/143+avx,avx2,amx_tile,xsave,la57".
Proof. by vm_compute. Qed.
