(* ===== verification/SnapApi.v ===== *)
(** * HTTP by hand ([rust/kubenyx-snap/src/lib.rs])

    The client of the firecracker API socket, which must stop reading at the
    end of the response because the server keeps the connection open; the
    kubeconfig fetch; and the verdicts of the two apiserver probes.  What each
    [read] returned is an input. *)

From S2P Require Import Prelude Text Utf8.

(** ** The firecracker API *)

(** The first loop of [api]: until the blank line, or the end of the stream.
    A socket that has nothing more to say times out. *)
Fixpoint read_head (reads : list ReadResult) (raw : bytes)
    : result text (nat * bytes * list ReadResult) :=
  match split_once_str blank_line raw with
  | Some (head, _) => Ok ((length head + 4)%nat, raw, reads)
  | None =>
      match reads with
      | RData (b :: bs) :: reads => read_head reads (raw ++ b :: bs)
      | RData [] :: reads | REof :: reads => Ok (length raw, raw, reads)
      | RError :: _ | [] => Err $"API read"
      end
  end.

(** The second loop: until [Content-Length] bytes of body are there. *)
Fixpoint read_body (reads : list ReadResult) (want : Z) (raw : bytes)
    : result text (bytes * list ReadResult) :=
  if want <=? Z.of_nat (length raw) then Ok (raw, reads)
  else
    match reads with
    | RData (b :: bs) :: reads => read_body reads want (raw ++ b :: bs)
    | RData [] :: reads | REof :: reads => Ok (raw, reads)
    | RError :: _ | [] => Err $"API read"
    end.

Definition ascii_lower (c : N) : N := if in_range 65 90 c then (c + 32)%N else c.
Definition eq_ignore_ascii_case (a b : text) : bool :=
  bool_decide (ascii_lower <$> a = ascii_lower <$> b).

(** The first [Content-Length] header that parses; 0 without one. *)
Definition content_length (headers : text) : Z :=
  default 0
    (head (omap (λ l, '(k, v) ← split_once (ch ":") l;
                      if eq_ignore_ascii_case k $"content-length" then parse_unsigned u64_max (trim v)
                      else None) (lines headers))).

Definition status_code (headers : text) : option Z :=
  c ← split_whitespace headers !! 1%nat; parse_unsigned (2 ^ 16 - 1) c.

Definition api_request (method path : text) (body : text) (body_len : Z) : text :=
  method ++ $" " ++ path ++ $" HTTP/1.1" ++ crlf ++ $"Host: localhost" ++ crlf
  ++ $"Content-Type: application/json" ++ crlf ++ $"Content-Length: " ++ fmt_dec body_len
  ++ blank_line ++ body.

(** [api] after the request is written: status, body, and the reads left. *)
Definition api (reads : list ReadResult) : result text (Z * text * list ReadResult) :=
  let? '(header_end, raw, reads) := read_head reads [] in
  let headers := from_utf8_lossy (take header_end raw) in
  let want := wrap_u64 (Z.of_nat header_end + content_length headers) in
  let? '(raw, reads) := read_body reads want raw in
  let? status := of_option $"bad API response" (status_code headers) in
  Ok (status, from_utf8_lossy (drop header_end raw), reads).

(** [api_expect]: any 2xx. *)
Definition api_expect_ok (status : Z) : bool := (200 <=? status) && (status <? 300).

(** ** Probes and the kubeconfig *)

(** [probe_once]'s verdict on its one read. *)
Definition probe_ok (r : ReadResult) : bool :=
  match r with
  | RData bs => (12 <=? length bs)%nat && starts_with $"HTTP/" (take 16 bs)
  | _ => false
  end.

(** [read_to_end]; a socket that says nothing more times out. *)
Fixpoint read_to_end (reads : list ReadResult) (raw : bytes) : option bytes :=
  match reads with
  | RData (b :: bs) :: reads => read_to_end reads (raw ++ b :: bs)
  | RData [] :: _ | REof :: _ => Some raw
  | RError :: _ | [] => None
  end.

(** [http_get_body]'s verdict on all it read. *)
Definition http_body (raw : bytes) : option text :=
  '(headers, body) ← split_once_str blank_line (from_utf8_lossy raw);
  code ← split_whitespace headers !! 1%nat;
  if starts_with $"2" code then Some body else None.

Definition kubeconfig_value (kc key : text) : option text :=
  head (omap (λ l, trim <$> strip_prefix (key ++ $": ") (trim_start l)) (lines kc)).

(** [quorum_write_once]'s loop, until the first line's end, and its verdict. *)
Fixpoint read_status_line (reads : list ReadResult) (raw : bytes) : bytes :=
  match split_once_str crlf raw with
  | Some _ => raw
  | None =>
      match reads with
      | RData (b :: bs) :: reads => read_status_line reads (raw ++ b :: bs)
      | _ => raw
      end
  end.

Definition quorum_ok (reads : list ReadResult) : bool :=
  let raw := read_status_line reads [] in
  starts_with $"HTTP/" raw && bool_decide (raw !! 9%nat = Some (ch "2")).

(** ** Lemmas *)

(** The head read is the whole's head, however it came in. *)
Lemma read_head_chunks chunks raw rest head body :
  Forall (λ c, c ≠ []) chunks →
  split_once_str blank_line (raw ++ mjoin chunks) = Some (head, body) →
  ∃ raw' chunks', read_head ((RData <$> chunks) ++ rest) raw
                  = Ok ((length head + 4)%nat, raw', (RData <$> chunks') ++ rest)
                  ∧ raw' ++ mjoin chunks' = raw ++ mjoin chunks ∧ Forall (λ c, c ≠ []) chunks'
                  ∧ (length head + 4 ≤ length raw')%nat.
Proof.
  revert raw. induction chunks as [|c chunks IH]; intros raw Hne Hs; cbn [fmap list_fmap mjoin list_join app] in *.
  - rewrite app_nil_r in Hs. exists raw, []. cbn [fmap list_fmap mjoin list_join app]. rewrite app_nil_r.
    pose proof (split_once_str_Some _ _ _ _ Hs) as El.
    split; [destruct rest; cbn [read_head]; by rewrite Hs|]. split; [done|]. split; [done|].
    rewrite El, !length_app. simpl. lia.
  - inversion Hne as [|? ? Hc Hne']; subst.
    destruct (split_once_str blank_line raw) as [[h b]|] eqn:E.
    + pose proof (split_once_str_app _ _ (c ++ mjoin chunks) _ _ E) as E'.
      pose proof (eq_trans (eq_sym Hs) E') as [= -> _]. exists raw, (c :: chunks). cbn [fmap list_fmap app read_head].
      pose proof (split_once_str_Some _ _ _ _ E) as El. rewrite E.
      split; [done|]. split; [done|]. split; [done|]. rewrite El, !length_app. simpl. lia.
    + destruct c as [|x c]; [done|]. cbn [read_head]. rewrite E.
      destruct (IH (raw ++ x :: c)) as (raw' & chunks' & H & E' & Hn & Hl); [done| |].
      { by rewrite <- app_assoc. }
      exists raw', chunks'. split; [done|]. split; [|done]. by rewrite E', <- app_assoc.
Qed.

(** And the body loop stops exactly at the end. *)
Lemma read_body_chunks chunks raw rest want :
  Forall (λ c, c ≠ []) chunks → want = Z.of_nat (length (raw ++ mjoin chunks)) →
  read_body ((RData <$> chunks) ++ rest) want raw = Ok (raw ++ mjoin chunks, rest).
Proof.
  intros Hne. revert raw. induction Hne as [|c chunks Hc Hne IH]; intros raw Hw; cbn [fmap list_fmap mjoin list_join app] in *.
  - rewrite app_nil_r in *. destruct rest; cbn [read_body]; by rewrite (proj2 (Z.leb_le _ _)) by lia.
  - destruct c as [|x c]; [done|]. cbn [read_body]. rewrite (proj2 (Z.leb_gt _ _)).
    + rewrite IH by (rewrite <- app_assoc; done). by rewrite <- app_assoc.
    + rewrite Hw, !length_app. simpl. lia.
Qed.

(** ** Theorems *)

(** C22: an API call reads exactly its response.  However the bytes of a
    response are cut into reads, the call returns the status and the body, and
    leaves whatever the open connection delivers next unread: it never waits
    for an end of stream that does not come. *)
Theorem api_reads_exactly chunks rest resp_head resp_body status :
  Forall (λ c, c ≠ []) chunks →
  mjoin chunks = resp_head ++ blank_line ++ resp_body →
  split_once_str blank_line (resp_head ++ blank_line) = Some (resp_head, []) →
  content_length (from_utf8_lossy (resp_head ++ blank_line)) = Z.of_nat (length resp_body) →
  status_code (from_utf8_lossy (resp_head ++ blank_line)) = Some status →
  Z.of_nat (length (mjoin chunks)) < 2 ^ 64 →
  api ((RData <$> chunks) ++ rest) = Ok (status, from_utf8_lossy resp_body, rest).
Proof.
  intros Hne Hj Hs Hcl Hst Hlen. unfold api.
  apply (split_once_str_app _ _ resp_body) in Hs. rewrite <- app_assoc in Hs.
  destruct (read_head_chunks chunks [] rest resp_head resp_body Hne) as (raw & chunks' & E & Er & Hne' & Hl).
  { rewrite app_nil_l, Hj. exact Hs. }
  rewrite E. cbn [result_bind]. rewrite app_nil_l, Hj in Er.
  assert (take (length resp_head + 4) raw = resp_head ++ blank_line) as ->.
  { transitivity (take (length resp_head + 4) (raw ++ mjoin chunks')).
    - by rewrite take_app_le.
    - rewrite Er, app_assoc. apply take_app_length'. by rewrite length_app. }
  rewrite Hcl, Hst, (read_body_chunks _ _ _ _ Hne').
  - cbn [result_bind of_option]. rewrite Er, app_assoc, drop_app_length'; [done|].
    by rewrite length_app.
  - rewrite Er, wrap_unsigned_small; rewrite Hj in Hlen; rewrite !length_app in *; simpl in *; lia.
Qed.

Lemma api_reads_exactly_witness :
  let head := $"HTTP/1.1 400 Bad Request" ++ crlf ++ $"content-length: 5" in
  api [RData (head ++ [13]%N); RData ([10; 13; 10]%N ++ $"fa"); RData $"ult"; RData $"stray"]
  = Ok (400, $"fault", [RData $"stray"]).
Proof.
  intros head.
  exact (api_reads_exactly [head ++ [13]%N; [10; 13; 10]%N ++ $"fa"; $"ult"] [RData $"stray"] head $"fault" 400
    ltac:(repeat constructor; discriminate) eq_refl ltac:(by vm_compute) ltac:(by vm_compute)
    ltac:(by vm_compute) ltac:(by vm_compute)).
Defined.
