(* ===== verification/SnapWait.v ===== *)
(** * Waiting for a restored cluster ([rust/kubenyx-snap/src/lib.rs])

    The client built from a served kubeconfig, and the loops that wait for the
    first TLS answer and for the first committed write.  PEM, base64 and TLS
    are a class of library functions; the clock is read through the time that
    had passed at each check, and what each attempt got is an input.  A loop
    runs on fuel; that a bounded amount is always enough is a theorem. *)

From S2P Require Import Prelude Text Utf8 Net Tls SnapIdentity SnapApi.

(** ** The client *)

Record QuorumClient := mkQuorumClient { qc_config : ClientConfig; qc_host : text; qc_addr : text }.

Section client.
Context `{L : !TlsLib}.

Definition kubeconfig_field (kc key : text) : result text text :=
  of_option ($"kubeconfig has no " ++ key) (kubeconfig_value kc key).

Definition kubeconfig_pem (kc key : text) : result text bytes :=
  let? v := kubeconfig_field kc key in
  map_err (λ e, $"kubeconfig " ++ key ++ $": bad base64: " ++ e) (b64_decode v).

(** The loop that fills the root store. *)
Fixpoint load_roots (certs : list (result text bytes)) : result text (list bytes) :=
  match certs with
  | [] => Ok []
  | c :: certs =>
      let? der := map_err (app $"kubeconfig CA: ") c in
      let? _u := map_err (app $"kubeconfig CA rejected: ") (root_ok der) in
      let? roots := load_roots certs in Ok (der :: roots)
  end.

Definition quorum_client (kc : text) : result text QuorumClient :=
  let? ca := kubeconfig_pem kc $"certificate-authority-data" in
  let? roots := load_roots (pem_certs ca) in
  let? crt := kubeconfig_pem kc $"client-certificate-data" in
  let? certs := map_err (app $"kubeconfig client cert: ") (collect (pem_certs crt)) in
  let? key_pem := kubeconfig_pem kc $"client-key-data" in
  let? key := of_option $"kubeconfig has no client key" (pem_key key_pem) in
  let? _u := map_err (app $"client auth config: ") (client_auth certs key) in
  let? url := kubeconfig_field kc $"server" in
  let? hostport := of_option ($"kubeconfig server URL not https: " ++ url) (strip_prefix $"https://" url) in
  Ok (mkQuorumClient (mkClientConfig (WebPki roots) (Some (certs, key)))
        (default hostport (head (split (ch ":") hostport))) hostport).
End client.

(** ** The attempts *)

Definition host_of (addr : text) : text := default addr (head (split (ch ":") addr)).

Definition probe_request : text → text := get_request $"/livez".

(** The annotation is new with every attempt. *)
Definition quorum_body (stamp : Z) : text :=
  $"{" ++ jstr $"metadata" ++ $":{" ++ jstr $"annotations" ++ $":{"
  ++ jstr $"kubenyx.io/snap-quorum-probe" ++ $":" ++ jstr (fmt_dec stamp) ++ $"}}}".

Definition quorum_request (host : text) (stamp : Z) : text :=
  let body := quorum_body stamp in
  $"PATCH /api/v1/namespaces/default HTTP/1.1" ++ crlf ++ $"Host: " ++ host ++ crlf
  ++ $"Content-Type: application/strategic-merge-patch+json" ++ crlf
  ++ $"Content-Length: " ++ fmt_dec (Z.of_nat (length (utf8 body))) ++ crlf
  ++ $"Connection: close" ++ blank_line ++ body.

Section attempts.
Context `{L : !TlsLib}.

(** Both attempts connect to a socket address first; an error is a [die]. *)
Definition probe_once (addr host : text) (w : Wire) : result text bool :=
  if negb (socket_addr addr) then Err ($"bad probe address " ++ addr)
  else exchange_tls (insecure_client_builder None) host (Err $"bad probe host") w
         (λ reads, match reads with r :: _ => probe_ok r | [] => false end).

Definition quorum_write_once (client : QuorumClient) (w : Wire) : result text bool :=
  if negb (socket_addr (qc_addr client)) then Err ($"bad quorum probe address " ++ qc_addr client)
  else exchange_tls (qc_config client) (qc_host client) (Err $"bad quorum probe host") w quorum_ok.

(** [http_get_body]: over a plain connection, until the server closes it. *)
Definition http_get_body (addr : text) (w : Wire) : option text :=
  if socket_addr addr && connected w && sent w then raw ← read_to_end (received w) []; http_body raw else None.

Definition http_get_request (addr : text) : text :=
  $"GET / HTTP/1.0" ++ crlf ++ $"Host: " ++ addr ++ crlf ++ $"Connection: close" ++ blank_line.
End attempts.

(** ** The loops *)

(** [while start.elapsed() < timeout { if attempt { return true }; sleep }]:
    the number of the attempt that succeeded, that none did, or the [die] of
    one.  [elapsed k] is what the [k]-th check of the clock saw, in
    milliseconds. *)
Fixpoint wait_while (elapsed : nat → Z) (timeout : Z) (attempt : nat → result text bool) (fuel k : nat)
    : option (result text (option nat)) :=
  match fuel with
  | O => None
  | S fuel =>
      if elapsed k <? timeout then
        match attempt k with
        | Err e => Some (Err e)
        | Ok true => Some (Ok (Some k))
        | Ok false => wait_while elapsed timeout attempt fuel (S k)
        end
      else Some (Ok None)
  end.

(** [wait_marker]: the log as each round finds it.  An empty marker is a panic
    in [windows] as soon as the log can be read. *)
Definition wait_marker (marker : bytes) (elapsed : nat → Z) (timeout : Z) (logs : nat → option bytes) (fuel : nat)
    : option (result text (option nat)) :=
  wait_while elapsed timeout
    (λ k, match logs k with
          | Some data => if decide (marker = []) then Err $"window size must be non-zero"
                         else Ok (bool_decide (is_Some (split_once_str marker data)))
          | None => Ok false
          end) fuel 0.

Definition wait_api `{L : !TlsLib} (addr : text) (elapsed : nat → Z) (timeout : Z) (wires : nat → Wire) (fuel : nat)
    : option (result text (option nat)) :=
  wait_while elapsed timeout (λ k, probe_once addr (host_of addr) (wires k)) fuel 0.

(** The first loop of [wait_quorum_write]: fetch first, look at the clock after
    a failure. *)
Fixpoint fetch_kubeconfig (elapsed : nat → Z) (deadline : Z) (fetch : nat → option text) (fuel k : nat)
    : option (option (text * nat)) :=
  match fuel with
  | O => None
  | S fuel =>
      match fetch k with
      | Some body => Some (Some (body, k))
      | None => if deadline <=? elapsed k then Some None
                else fetch_kubeconfig elapsed deadline fetch fuel (S k)
      end
  end.

(** [wait_quorum_write]; its errors are the [die]s of [quorum_client] and
    [quorum_write_once].  [fetched] and [written] are the clock as each loop
    checks it, [gets] what each fetch met, [wires] what each write did. *)
Definition wait_quorum_write `{L : !TlsLib} (kubeconfig_addr : text) (fetched written : nat → Z) (deadline : Z)
    (gets wires : nat → Wire) (fuel : nat) : option (result text bool) :=
  match fetch_kubeconfig fetched deadline (λ k, http_get_body kubeconfig_addr (gets k)) fuel 0 with
  | None => None
  | Some None => Some (Ok false)
  | Some (Some (kc, _)) =>
      match quorum_client kc with
      | Err e => Some (Err e)
      | Ok client =>
          match wait_while written deadline (λ k, quorum_write_once client (wires k)) fuel 0 with
          | None => None
          | Some (Err e) => Some (Err e)
          | Some (Ok r) => Some (Ok (bool_decide (is_Some r)))
          end
      end
  end.

(** ** Specifications *)

(** Between two checks the loops sleep at least a millisecond. *)
Definition ticking (elapsed : nat → Z) : Prop := 0 ≤ elapsed 0%nat ∧ ∀ k, elapsed k + 1 ≤ elapsed (S k).

(** The attempt that ends a wait: begun in time, all before having failed. *)
Definition first_in_time (elapsed : nat → Z) (timeout : Z) (attempt : nat → result text bool)
    (from k : nat) (outcome : result text bool) : Prop :=
  (from ≤ k)%nat ∧ attempt k = outcome ∧ elapsed k < timeout
  ∧ ∀ j, (from ≤ j < k)%nat → attempt j = Ok false.

(** What a wait reports of an attempt that did not just fail. *)
Definition wait_end (k : nat) (outcome : result text bool) : result text (option nat) :=
  match outcome with Ok _ => Ok (Some k) | Err e => Err e end.

(** ** Lemmas *)

Section loops.
Variable elapsed : nat → Z.
Hypothesis Htick : ticking elapsed.

Lemma ticking_le j k : (j ≤ k)%nat → elapsed j + Z.of_nat (k - j) ≤ elapsed k.
Proof.
  destruct Htick as [_ H]. induction 1 as [|k Hk IH]; [rewrite Nat.sub_diag; lia|].
  specialize (H k). rewrite Nat.sub_succ_l by done. lia.
Qed.

Lemma ticking_bound k : Z.of_nat k ≤ elapsed k.
Proof. pose proof (ticking_le 0 k ltac:(lia)). destruct Htick as [H0 _]. rewrite Nat.sub_0_r in *. lia. Qed.

(** With fuel for every millisecond left the loop ends, with the first attempt
    that succeeds in time if there is one. *)
Lemma wait_while_ends timeout attempt fuel k : (Z.to_nat (timeout - elapsed k) < fuel)%nat →
  (wait_while elapsed timeout attempt fuel k = Some (Ok None)
   ∧ ∀ i o, o ≠ Ok false → ¬ first_in_time elapsed timeout attempt k i o)
  ∨ ∃ i o, o ≠ Ok false ∧ first_in_time elapsed timeout attempt k i o
           ∧ wait_while elapsed timeout attempt fuel k = Some (wait_end i o).
Proof.
  revert k. induction fuel as [|fuel IH]; intros k Hf; [lia|]. cbn [wait_while].
  destruct (Z.ltb_spec (elapsed k) timeout) as [Ht|Ht].
  2: { left. split; [done|]. intros i o _ (Hi & _ & Hti & _). pose proof (ticking_le k i Hi). lia. }
  assert (∀ o, attempt k = o → first_in_time elapsed timeout attempt k k o) as Hk.
  { intros o Ho. split_and!; [lia|done|done|]. intros j Hj. lia. }
  destruct (attempt k) as [[]|e] eqn:Ea.
  - right. exists k, (Ok true). auto.
  - destruct Htick as [_ Hs]. specialize (Hs k).
    destruct (IH (S k) ltac:(lia)) as [[-> Hn]|(i & o & Ho & Hi & ->)].
    + left. split; [done|]. intros i o Ho (Hi & Ei & Hti & Hj).
      assert (i ≠ k) by congruence. apply (Hn i o Ho). split_and!; [lia|done|done|]. intros j ?. apply Hj. lia.
    + right. exists i, o. split; [done|]. split; [|done]. destruct Hi as (Hi & Ei & Hti & Hj).
      split_and!; [lia|done|done|]. intros j ?. destruct (decide (j = k)) as [->|]; [done|]. apply Hj. lia.
  - right. exists k, (Err e). auto.
Qed.

Lemma fetch_ends deadline fetch fuel k : (Z.to_nat (deadline - elapsed k) < fuel)%nat →
  ∃ r, fetch_kubeconfig elapsed deadline fetch fuel k = Some r
       ∧ ∀ body i, r = Some (body, i) ↔
           (k ≤ i)%nat ∧ fetch i = Some body
           ∧ ∀ j, (k ≤ j < i)%nat → fetch j = None ∧ elapsed j < deadline.
Proof.
  revert k. induction fuel as [|fuel IH]; intros k Hf; [lia|]. cbn [fetch_kubeconfig].
  destruct (fetch k) as [body|] eqn:Ek.
  { exists (Some (body, k)). split; [done|]. intros body' i. split.
    - intros [= <- <-]. split; [lia|]. split; [done|]. intros j Hj. lia.
    - intros (Hi & Ei & Hj). destruct (decide (i = k)) as [->|Hne]; [congruence|].
      destruct (Hj k ltac:(lia)). congruence. }
  destruct (Z.leb_spec deadline (elapsed k)).
  - exists None. split; [done|]. intros body i. split; [done|]. intros (Hi & Ei & Hj).
    destruct (decide (i = k)) as [->|Hne]; [congruence|]. destruct (Hj k ltac:(lia)). lia.
  - destruct Htick as [_ Hs]. specialize (Hs k). destruct (IH (S k)) as (r & -> & Hr); [lia|].
    exists r. split; [done|]. intros body i. rewrite Hr. split.
    + intros (Hi & Ei & Hj). split_and!; [lia|done|]. intros j Hjk.
      destruct (decide (j = k)) as [->|]; [done|]. apply Hj. lia.
    + intros (Hi & Ei & Hj). assert (i ≠ k) by congruence. split_and!; [lia|done|].
      intros j Hjk. apply Hj. lia.
Qed.
End loops.

(** The least number a test accepts. *)
Lemma least_true (b : nat → bool) k : b k = true → ∃ i, (i ≤ k)%nat ∧ b i = true ∧ ∀ j, (j < i)%nat → b j = false.
Proof.
  induction (lt_wf k) as [k _ IH]. intros Hk. destruct (existsb b (seq 0 k)) eqn:E.
  - apply existsb_exists in E as (j & Hj%in_seq & Hb). destruct (IH j ltac:(lia) Hb) as (i & ? & ? & ?).
    exists i. split_and!; [lia|done|done].
  - exists k. split_and!; [lia|done|]. intros j Hj. destruct (b j) eqn:Hb; [|done].
    assert (existsb b (seq 0 k) = true); [|congruence]. apply existsb_exists. exists j. split; [|done].
    apply in_seq. lia.
Qed.

Lemma first_in_time_unique elapsed timeout attempt k i o i' o' : o ≠ Ok false → o' ≠ Ok false →
  first_in_time elapsed timeout attempt k i o → first_in_time elapsed timeout attempt k i' o' → i = i' ∧ o = o'.
Proof.
  intros Ho Ho' (Hi & <- & _ & Hj) (Hi' & <- & _ & Hj').
  destruct (lt_eq_lt_dec i i') as [[H| ->]|H]; [|done|].
  - by rewrite Hj' in Ho by lia.
  - by rewrite Hj in Ho' by lia.
Qed.

(** With the clock ticking, what a wait returns is what the first decisive
    attempt in time says. *)
Lemma wait_while_spec elapsed timeout attempt fuel : ticking elapsed → (Z.to_nat timeout < fuel)%nat →
  ∃ r, wait_while elapsed timeout attempt fuel 0 = Some r
       ∧ (∀ k, r = Ok (Some k) ↔ first_in_time elapsed timeout attempt 0 k (Ok true))
       ∧ (∀ e, r = Err e ↔ ∃ k, first_in_time elapsed timeout attempt 0 k (Err e)).
Proof.
  intros Ht Hf. destruct (wait_while_ends elapsed Ht timeout attempt fuel 0) as [[-> Hn]|(i & o & Ho & Hi & ->)].
  - destruct Ht as [H0 _]. lia.
  - exists (Ok None). split; [done|]. split.
    + intros k. split; [done|]. intros H. by apply Hn in H.
    + intros e. split; [done|]. intros [k H]. by apply Hn in H.
  - exists (wait_end i o). split; [done|]. split.
    + intros k. split.
      * destruct o as [[]|]; [|done..]. intros [= <-]. done.
      * intros Hk. by destruct (first_in_time_unique _ _ _ _ _ _ k (Ok true) Ho ltac:(done) Hi Hk) as [-> ->].
    + intros e. split.
      * destruct o; [done|]. intros [= <-]. by exists i.
      * intros [k Hk]. by destruct (first_in_time_unique _ _ _ _ _ _ k (Err e) Ho ltac:(done) Hi Hk) as [-> ->].
Qed.

(** The wait for a committed write, on both its outcomes. *)
Lemma wait_quorum_write_spec `{L : !TlsLib} addr fetched written deadline gets wires fuel :
  ticking fetched → ticking written → (Z.to_nat deadline < fuel)%nat →
  let fetch k := http_get_body addr (gets k) in
  let served body := ∃ i, fetch i = Some body ∧ ∀ j, (j < i)%nat → fetch j = None ∧ fetched j < deadline in
  ∃ r, wait_quorum_write addr fetched written deadline gets wires fuel = Some r
       ∧ (r = Ok true ↔ ∃ body client k, served body ∧ quorum_client body = Ok client
            ∧ first_in_time written deadline (λ k, quorum_write_once client (wires k)) 0 k (Ok true))
       ∧ (∀ e, r = Err e → ∃ body, served body
            ∧ (quorum_client body = Err e
               ∨ ∃ client k, quorum_client body = Ok client ∧ quorum_write_once client (wires k) = Err e)).
Proof.
  intros Hf Hw Hfuel fetch served. unfold wait_quorum_write. change (λ k, http_get_body addr (gets k)) with fetch.
  destruct (fetch_ends fetched Hf deadline fetch fuel 0) as (r & -> & Hr); [destruct Hf; lia|].
  assert (∀ body i, fetch i = Some body → (∀ j, (j < i)%nat → fetch j = None ∧ fetched j < deadline) →
            r = Some (body, i)) as Huniq.
  { intros body i Hi Hj. apply Hr. split; [lia|]. split; [done|]. intros j ?. apply Hj. lia. }
  destruct r as [[body i]|].
  2: { exists (Ok false). split; [done|]. split; [|done]. split; [done|].
       intros (body & client & k & (i & Hi & Hj) & _). by specialize (Huniq body i Hi Hj). }
  destruct (proj1 (Hr body i) eq_refl) as (_ & Hi & Hj).
  assert (served body) as Hserved by (exists i; split; [done|]; intros j ?; apply Hj; lia).
  assert (∀ body', served body' → body' = body) as Hb.
  { intros body' (i' & Hi' & Hj'). specialize (Huniq body' i' Hi' Hj'). congruence. }
  destruct (quorum_client body) as [client|e] eqn:Ec.
  - destruct (wait_while_spec written deadline (λ k, quorum_write_once client (wires k)) fuel Hw Hfuel)
      as (r & -> & Hyes & Herr).
    exists (match r with Ok r => Ok (bool_decide (is_Some r)) | Err e => Err e end).
    split; [by destruct r|]. split; [split|].
    + destruct r as [r|]; [|done]. intros [= Hb']. apply bool_decide_eq_true in Hb' as [k ->].
      exists body, client, k. split; [done|]. split; [done|]. by apply Hyes.
    + intros (body' & client' & k & Hs' & Ec' & Hk). rewrite (Hb body' Hs'), Ec in Ec'. injection Ec' as <-.
      apply Hyes in Hk as ->. by rewrite bool_decide_true.
    + intros e. destruct r as [|e']; [done|]. intros [= ->]. destruct (proj1 (Herr e) eq_refl) as (k & _ & Hk & _).
      exists body. split; [done|]. right. by exists client, k.
  - exists (Err e). split; [done|]. split; [split; [done|]|].
    + intros (body' & client' & k & Hs' & Ec' & _). by rewrite (Hb body' Hs'), Ec in Ec'.
    + intros e' [= <-]. exists body. split; [done|]. by left.
Qed.

(** ** Theorems *)

(** The wait for an answer ends.  The probe loop takes at most one round for
    every millisecond of its timeout; it reports the first attempt answered
    in time, or nothing when every attempt begun in time failed, and the
    process dies of a bad address or host name exactly when an attempt before
    that finds one. *)
Theorem wait_api_terminates `{L : TlsLib} addr elapsed timeout wires fuel :
  ticking elapsed → (Z.to_nat timeout < fuel)%nat →
  let attempt k := probe_once addr (host_of addr) (wires k) in
  ∃ r, wait_api addr elapsed timeout wires fuel = Some r
       ∧ (∀ k, r = Ok (Some k) ↔ first_in_time elapsed timeout attempt 0 k (Ok true))
       ∧ (∀ e, r = Err e ↔ ∃ k, first_in_time elapsed timeout attempt 0 k (Err e)).
Proof. intros Ht Hf attempt. by apply wait_while_spec. Qed.

(** The wait for a committed write ends, and tells the truth.  Each of its
    two loops takes at most one round for every millisecond of the deadline.
    It says yes exactly when a kubeconfig was served no later than at the
    first failed fetch past the deadline, made a client, and a write with
    that client was answered with a 2xx in a round begun before the deadline,
    all rounds before having failed. *)
Theorem wait_quorum_write_terminates `{L : TlsLib} addr fetched written deadline gets wires fuel :
  ticking fetched → ticking written → (Z.to_nat deadline < fuel)%nat →
  let fetch k := http_get_body addr (gets k) in
  ∃ r, wait_quorum_write addr fetched written deadline gets wires fuel = Some r
       ∧ (r = Ok true ↔ ∃ body client i k,
            fetch i = Some body ∧ (∀ j, (j < i)%nat → fetch j = None ∧ fetched j < deadline)
            ∧ quorum_client body = Ok client
            ∧ first_in_time written deadline (λ k, quorum_write_once client (wires k)) 0 k (Ok true)).
Proof.
  intros Hf Hw Hfuel fetch.
  destruct (wait_quorum_write_spec addr fetched written deadline gets wires fuel Hf Hw Hfuel) as (r & E & Hr & _).
  exists r. split; [exact E|]. rewrite Hr. split.
  - intros (body & client & k & (i & Hi & Hj) & Ec & Hk). by exists body, client, i, k.
  - intros (body & client & i & k & Hi & Hj & Ec & Hk). exists body, client, k. split; [by exists i|done].
Qed.

(** ** Witnesses *)

(** A library that takes every text for what it is. *)
#[local] Instance toy_tls : TlsLib := {
  b64_decode t := Ok t; pem_certs b := [Ok b]; pem_key b := Some b; root_ok _ := Ok tt; client_auth _ _ := Ok tt;
  server_name _ := true;
  chain_ok roots chain _ := bool_decide (roots = chain); tls12_signature m c d := bool_decide (d = c ++ m);
  tls13_signature m c d := bool_decide (d = c ++ m) }.

(** Nothing listens but at one attempt. *)
Definition toy_wires (at_ : nat) (answer : text) (k : nat) : Wire :=
  let greeting := mkHello true [$"QQ=="] $"transcript" ($"QQ==" ++ $"transcript") in
  if (k =? at_)%nat then mkWire true true greeting true [RData answer] else mkWire false true greeting false [].

(** A kubeconfig served at one attempt, in two reads. *)
Definition toy_serve (at_ : nat) (kc : text) (k : nat) : Wire :=
  let w := mkWire (k =? at_)%nat true (mkHello true [] [] []) true in
  w [RData ($"HTTP/1.0 200 OK" ++ blank_line); RData kc; REof].

Lemma wait_api_terminates_witness :
  ∃ r, wait_api $"10.0.0.2:6443" (λ k, 2 * Z.of_nat k) 20 (toy_wires 3 $"HTTP/1.1 401") 21 = Some r ∧ r = Ok (Some 3%nat).
Proof.
  destruct (wait_api_terminates $"10.0.0.2:6443" (λ k, 2 * Z.of_nat k) 20 (toy_wires 3 $"HTTP/1.1 401") 21) as (r & E & Hr & _).
  - split; [done|]. intros k. lia.
  - by vm_compute; lia.
  - exists r. split; [exact E|]. apply Hr. split_and!; [lia|by vm_compute|lia|].
    intros j Hj. assert (j = 0 ∨ j = 1 ∨ j = 2)%nat as [->|[->| ->]] by lia; reflexivity.
Defined.

Lemma wait_quorum_write_terminates_witness :
  ∃ kc, wait_quorum_write $"10.0.0.2:10124" (λ k, Z.of_nat k) (λ k, Z.of_nat k) 20
          (toy_serve 2 kc) (toy_wires 1 $"HTTP/1.1 200 OK") 21 = Some (Ok true).
Proof.
  set (kc := $"certificate-authority-data: QQ==" ++ [newline] ++ $"server: https://10.0.0.2:6443" ++ [newline]
             ++ $"client-certificate-data: Qg==" ++ [newline] ++ $"client-key-data: Qw==" ++ [newline]).
  exists kc. destruct (wait_quorum_write_terminates $"10.0.0.2:10124" (λ k, Z.of_nat k) (λ k, Z.of_nat k) 20
          (toy_serve 2 kc) (toy_wires 1 $"HTTP/1.1 200 OK") 21) as (r & E & Hr).
  - split; [done|]. intros k. lia.
  - split; [done|]. intros k. lia.
  - by vm_compute; lia.
  - rewrite E. f_equal. apply Hr.
    exists kc, (mkQuorumClient (mkClientConfig (WebPki [$"QQ=="]) (Some ([$"Qg=="], $"Qw=="))) $"10.0.0.2" $"10.0.0.2:6443"), 2%nat, 1%nat.
    split; [by vm_compute|]. split; [intros j Hj; assert (j = 0 ∨ j = 1)%nat as [->| ->] by lia; by vm_compute|].
    split; [by vm_compute|]. split_and!; [lia|by vm_compute|lia|]. intros j Hj. by assert (j = 0)%nat as -> by lia.
Defined.
