(* ===== verification/Handoff.v ===== *)
(** * Handoffs between the tools

    What one tool writes is what the other reads: the kubeconfig of
    [kubenyx-pki] in [kubenyx-snap]'s quorum client. *)

From S2P Require Import Prelude Text Utf8 Pki PkiSpec Tls SnapApi SnapWait.

(** ** Specifications *)

Definition no_blank (s : text) : Prop := Forall (λ c, is_whitespace c = false) s.

(** A line to write and read back. *)
Definition good_line (l : text) : Prop := newline ∉ l ∧ last l ≠ Some carriage_return.

(** What a kubeconfig says, line by line. *)
Definition kubeconfig_lines `{L : !PkiLib} (url user ca crt key : text) : list text :=
  [$"apiVersion: v1"; $"kind: Config"; $"clusters:"; $"- name: kubenyx"; $"  cluster:";
   $"    certificate-authority-data: " ++ b64 (utf8 ca); $"    server: " ++ url; $"users:"; $"- name: " ++ user;
   $"  user:"; $"    client-certificate-data: " ++ b64 (utf8 crt); $"    client-key-data: " ++ b64 (utf8 key);
   $"contexts:"; $"- name: default"; $"  context:"; $"    cluster: kubenyx"; $"    user: " ++ user;
   $"current-context: default"].

(** ** Lemmas *)

Lemma utf8_not_nil s : s ≠ [] → utf8 s ≠ [].
Proof.
  destruct s as [|c s]; [done|]. intros _. unfold utf8. rewrite bind_cons. unfold utf8_char.
  by repeat case_match.
Qed.

Lemma no_blank_newline s : no_blank s → newline ∉ s.
Proof. intros H Hin. unfold no_blank in H. rewrite Forall_forall in H. by apply H in Hin. Qed.

Lemma no_blank_trim s : no_blank s → trim s = s.
Proof.
  intros H. unfold trim. destruct s as [|x s]; [done|]. pose proof H as H0. apply Forall_cons in H0 as [Hx Hs].
  rewrite trim_start_id by done. destruct (exists_last (l := x :: s)) as (l & y & E); [done|]. rewrite E in *.
  apply trim_end_id. apply Forall_app in H as [_ Hy]. by apply Forall_cons in Hy as [Hy _].
Qed.

Lemma good_line_app a b : newline ∉ a → b ≠ [] → no_blank b → good_line (a ++ b).
Proof.
  intros Ha Hb Hn. split.
  - rewrite elem_of_app. intros [?|?]; [done|]. by apply no_blank_newline in Hn.
  - rewrite last_app. destruct (last b) as [c|] eqn:El; [|by apply last_None in El].
    intros [= ->]. apply last_Some in El as [b' ->]. apply Forall_app in Hn as [_ Hc].
    by apply Forall_cons in Hc as [Hc _].
Qed.

Lemma lines_good ls : Forall good_line ls → lines (mjoin ((λ l, l ++ [newline]) <$> ls)) = ls.
Proof.
  intros H. apply lines_unlines. eapply Forall_impl; [exact H|]. intros l [H1 H2]. split; [done|].
  intros x ->. by rewrite last_snoc in H2.
Qed.

(** The first line that starts with the key is the value. *)
Lemma kubeconfig_value_at kc key pre l post v : lines kc = pre ++ l :: post →
  Forall (λ l, strip_prefix (key ++ $": ") (trim_start l) = None) pre →
  strip_prefix (key ++ $": ") (trim_start l) = Some v →
  kubeconfig_value kc key = Some (trim v).
Proof.
  intros E Hpre Hl. unfold kubeconfig_value. rewrite E. clear E.
  induction Hpre as [|x pre Hx _ IH]; cbn [app omap list_omap].
  - by rewrite Hl.
  - by rewrite Hx.
Qed.

Section handoff.
Context `{L : !PkiLib, T : !TlsLib}.
Hypothesis b64_blank : ∀ bs, no_blank (b64 bs).
Hypothesis b64_empty : ∀ bs, bs ≠ [] → b64 bs ≠ [].
Hypothesis b64_back : ∀ bs, b64_decode (b64 bs) = Ok bs.

Variables (url user ca crt key : text).
Hypothesis (Hurl : no_blank url) (Huser : no_blank user).
Hypothesis (Hurl' : url ≠ []) (Huser' : user ≠ []) (Hca : ca ≠ []) (Hcrt : crt ≠ []) (Hkey : key ≠ []).

Lemma lines_render : lines (render_kubeconfig url user ca crt key) = kubeconfig_lines url user ca crt key.
Proof.
  assert (render_kubeconfig url user ca crt key = mjoin ((λ l, l ++ [newline]) <$> kubeconfig_lines url user ca crt key)) as ->.
  { unfold render_kubeconfig, kubeconfig_lines, nl. rewrite !fmap_cons, fmap_nil.
    cbn [mjoin list_join]. rewrite <- !app_assoc, app_nil_r. reflexivity. }
  apply lines_good. unfold kubeconfig_lines.
  assert (∀ l : text, bool_decide (newline ∉ l ∧ last l ≠ Some carriage_return) = true → good_line l) as Hl
    by (intros l Hb; by apply bool_decide_eq_true in Hb).
  assert (∀ a : text, bool_decide (newline ∉ a) = true → ∀ b, b ≠ [] → no_blank b → good_line (a ++ b)) as Ha
    by (intros a Hb b; apply bool_decide_eq_true in Hb; by apply good_line_app).
  repeat (apply Forall_cons; split); try apply Forall_nil_2;
    first [by apply Hl | apply Ha; [done|..]]; auto using utf8_not_nil.
Qed.

(** The four fields the client reads. *)
Lemma rendered_fields :
  kubeconfig_value (render_kubeconfig url user ca crt key) $"certificate-authority-data" = Some (b64 (utf8 ca))
  ∧ kubeconfig_value (render_kubeconfig url user ca crt key) $"server" = Some url
  ∧ kubeconfig_value (render_kubeconfig url user ca crt key) $"client-certificate-data" = Some (b64 (utf8 crt))
  ∧ kubeconfig_value (render_kubeconfig url user ca crt key) $"client-key-data" = Some (b64 (utf8 key)).
Proof.
  pose proof lines_render as E.
  assert (∀ k n l v, kubeconfig_lines url user ca crt key !! n = Some l →
    Forall (λ l, strip_prefix (k ++ $": ") (trim_start l) = None) (take n (kubeconfig_lines url user ca crt key)) →
    strip_prefix (k ++ $": ") (trim_start l) = Some v → no_blank v →
    kubeconfig_value (render_kubeconfig url user ca crt key) k = Some v) as H.
  { intros k n l v Hn Hpre Hl Hv. rewrite <- (no_blank_trim v Hv).
    eapply kubeconfig_value_at; [|exact Hpre|exact Hl]. rewrite E. symmetry. by apply take_drop_middle. }
  split_and!;
    [apply (H _ 5%nat ($"    certificate-authority-data: " ++ b64 (utf8 ca)))
    |apply (H _ 6%nat ($"    server: " ++ url))
    |apply (H _ 10%nat ($"    client-certificate-data: " ++ b64 (utf8 crt)))
    |apply (H _ 11%nat ($"    client-key-data: " ++ b64 (utf8 key)))];
    try reflexivity; auto; repeat constructor; reflexivity.
Qed.
End handoff.

(** ** Theorems *)

(** C30: the kubeconfig the PKI tool writes is the one the snapshot tool reads.
    With a server URL and a user without blanks, and a base64 that decodes to
    what was encoded, the client built from the file trusts exactly the CA of
    the PKI, presents exactly its client certificate and key, and dials the
    host and port of the URL. *)
Theorem kubeconfig_handoff `{L : PkiLib, T : TlsLib} hostport user ca crt key roots certs k :
  (∀ bs, no_blank (b64 bs)) → (∀ bs, bs ≠ [] → b64 bs ≠ []) → (∀ bs, b64_decode (b64 bs) = Ok bs) →
  no_blank hostport → no_blank user → user ≠ [] → ca ≠ [] → crt ≠ [] → key ≠ [] →
  load_roots (pem_certs (utf8 ca)) = Ok roots → collect (pem_certs (utf8 crt)) = Ok certs →
  pem_key (utf8 key) = Some k → client_auth certs k = Ok tt →
  quorum_client (render_kubeconfig ($"https://" ++ hostport) user ca crt key)
  = Ok (mkQuorumClient (mkClientConfig (WebPki roots) (Some (certs, k))) (default hostport (head (split (ch ":") hostport))) hostport).
Proof.
  intros Hb Hb' Hback Hh Hu Hu' Hca Hcrt Hkey Hr Hc Hk Ha.
  assert (no_blank ($"https://" ++ hostport)) as Hurl
    by (apply Forall_app; split; [apply (bool_decide_unpack _); by vm_compute|done]).
  destruct (rendered_fields Hb Hb' ($"https://" ++ hostport) user ca crt key) as (E1 & E2 & E3 & E4); try done.
  unfold quorum_client, kubeconfig_pem, kubeconfig_field. rewrite E1, E2, E3, E4.
  cbn [of_option result_bind map_err]. rewrite !Hback. cbn [map_err result_bind]. rewrite Hr. cbn [result_bind].
  rewrite Hc. cbn [map_err result_bind]. rewrite Hk. cbn [of_option result_bind]. rewrite Ha.
  cbn [map_err result_bind]. by rewrite strip_prefix_app.
Qed.

#[local] Existing Instance toy_lib.
#[local] Instance back_tls : TlsLib := {
  b64_decode t := Ok ((λ c, c - 66000)%N <$> t); pem_certs b := [Ok b]; pem_key b := Some b;
  root_ok _ := Ok tt; client_auth _ _ := Ok tt;
  server_name _ := true; chain_ok _ _ _ := true;
  tls12_signature _ _ _ := true; tls13_signature _ _ _ := true }.

Lemma kubeconfig_handoff_witness :
  quorum_client (render_kubeconfig ($"https://" ++ $"10.0.0.2:6443") $"kubenyx-admin" $"ca" $"crt" $"key")
  = Ok (mkQuorumClient (mkClientConfig (WebPki [$"ca"]) (Some ([$"crt"], $"key"))) $"10.0.0.2" $"10.0.0.2:6443").
Proof.
  apply (kubeconfig_handoff $"10.0.0.2:6443" $"kubenyx-admin" $"ca" $"crt" $"key" [$"ca"] [$"crt"] $"key");
    try done; try (apply (bool_decide_unpack _); by vm_compute).
  - intros bs. unfold no_blank. apply Forall_forall. intros c (b & -> & _)%list_elem_of_fmap.
    unfold is_whitespace. repeat (apply orb_false_intro); rewrite ?andb_false_iff, ?N.leb_gt, ?N.eqb_neq; lia.
  - intros [|b bs]; done.
  - intros bs. cbn [b64_decode back_tls b64 toy_lib]. f_equal. rewrite <- list_fmap_compose.
    rewrite <- (list_fmap_id bs) at 2. apply list_fmap_ext. intros i b _. unfold compose. simpl. lia.
Defined.
