(* ===== verification/SnapMesh.v ===== *)
(** * Meshes and their VMMs ([rust/kubenyx-snap/src/lib.rs])

    Node names and addresses, the launcher's posture manifest, which nodes a
    mesh verb works on, the calls [mesh-take] makes, the table of VMMs the
    process must not leak, and how other processes' VMMs are found.  The file
    system, [/proc] and the firecracker API are inputs: directory listings,
    file contents, process tables and the outcome of each call. *)

From S2P Require Import Prelude Text Paths SnapIdentity.

(** ** Flags *)

(** [Flags::get] and [Flags::has]: the first argument equal to the name,
    wherever it stands. *)
Fixpoint flags_get (name : text) (flags : list text) : result text (option text) :=
  match flags with
  | [] => Ok None
  | f :: rest =>
      if decide (f = name) then
        match rest with
        | v :: _ => Ok (Some v)
        | [] => Err (name ++ $" needs a value")
        end
      else flags_get name rest
  end.

Definition flags_has (name : text) (flags : list text) : bool := bool_decide (name ∈ flags).

(** ** Names and addresses *)

Definition number_suffix (name prefix : text) : option Z :=
  rest ← strip_prefix prefix name;
  n ← parse_unsigned u32_max rest;
  if 1 <=? n then Some n else None.

Definition is_server_name (name : text) : bool :=
  bool_decide (name = $"server") || bool_decide (is_Some (number_suffix name $"server")).

(** [u32] arithmetic, as everywhere in release builds, wraps. *)
Definition conventional_ip (name : text) (servers : Z) : option text :=
  if decide (name = $"server") then Some $"10.100.0.2"
  else match number_suffix name $"server" with
       | Some n => Some ($"10.100.0." ++ fmt_dec (wrap_u32 (1 + n)))
       | None =>
           (λ n, $"10.100.0." ++ fmt_dec (wrap_u32 (wrap_u32 (1 + servers) + n)))
           <$> number_suffix name $"agent"
       end.

Definition mesh_order_key (name : text) : Z * Z :=
  if decide (name = $"server") then (0, 0)
  else match number_suffix name $"server" with
       | Some n => (0, n)
       | None => match number_suffix name $"agent" with
                 | Some n => (1, n)
                 | None => (2, 0)
                 end
       end.

(** The comparison of [mesh_nodes]'s sort: the key, then the name. *)
Definition name_cmp (a b : text) : comparison :=
  let ka := mesh_order_key a in
  let kb := mesh_order_key b in
  match Z.compare ka.1 kb.1 with
  | Eq => match Z.compare ka.2 kb.2 with
          | Eq => bytes_cmp a b
          | c => c
          end
  | c => c
  end.

(** [sort_by] is a stable sort. *)
Fixpoint insert_node (x : MeshNode) (l : list MeshNode) : list MeshNode :=
  match l with
  | [] => [x]
  | y :: l' =>
      match name_cmp (n_name x) (n_name y) with
      | Gt => y :: insert_node x l'
      | _ => x :: l
      end
  end.
Definition sort_nodes (l : list MeshNode) : list MeshNode := foldr insert_node [] l.

(** ** The launcher's manifest *)

Definition RUN_MANIFEST : text := $"kubenyx-mesh.json".

Record RunManifest := mkRunManifest { posture : text; rm_nodes : list MeshNode }.

Definition json_str_field (obj key : text) : option text :=
  '(_, rest) ← split_once_str (quote :: key ++ [quote; ch ":"; quote]) obj;
  fst <$> split_once quote rest.

Definition parse_node (obj : text) : result text MeshNode :=
  let? name := of_option $"node without name" (json_str_field obj $"name") in
  let? ip := of_option $"node without ip" (json_str_field obj $"ip") in
  Ok (mkNode name ip).

Definition parse_run_manifest (json : text) : result text RunManifest :=
  let? posture := of_option $"no posture field" (json_str_field json $"posture") in
  let? '(_, rest) :=
    of_option $"no nodes field" (split_once_str (quote :: $"nodes" ++ [quote; ch ":"; ch "["]) json) in
  let? '(arr, _) := of_option $"unterminated nodes array" (split_once (ch "]") rest) in
  let? nodes := collect (parse_node <$> filter (λ s, trim s ≠ []) (split (ch "{") arr)) in
  if decide (nodes = []) then Err $"empty nodes array" else Ok (mkRunManifest posture nodes).

Definition assert_volatile_mesh_take (server_count : nat) (manifest : option RunManifest)
    : result text unit :=
  if (server_count <=? 1)%nat then Ok tt
  else match manifest with
       | None => Err ($"multi-server mesh-take needs the launcher posture manifest ("
                      ++ RUN_MANIFEST ++ $" in the run dir) to prove the mesh is volatile " ++ dash
                      ++ $" relaunch with a quorum-mesh launcher (lib/microvm.nix writes it for servers > 1)")
       | Some m =>
           if decide (posture m = $"volatile") then Ok tt
           else Err ($"refusing mesh-take: launcher manifest says posture=" ++ posture m ++ $" " ++ dash
                     ++ $" firecracker snapshots exclude virtio disk contents, so resuming a durable quorum "
                     ++ $"against mutated disks corrupts etcd; only volatile (tmpfs) meshes snapshot honestly")
       end.

(** The API socket of a node's VMM. *)
Definition node_sock (exists_ : text → bool) (run_dir name : text) : text :=
  let named := path_join (path_join run_dir name) (name ++ $".sock") in
  if exists_ named then named else path_join (path_join run_dir name) $"kubenyx.sock".

(** ** Which nodes *)

(** The [--node name=ip] flags. *)
Fixpoint explicit_nodes (flags : list text) : result text (list MeshNode) :=
  match flags with
  | [] => Ok []
  | f :: rest =>
      if decide (f = $"--node") then
        match rest with
        | [] => Err $"--node needs name=ip"
        | v :: rest =>
            match split_once (ch "=") v with
            | None => Err ($"--node " ++ v ++ $": expected name=ip")
            | Some (name, ip) => let? ns := explicit_nodes rest in Ok (mkNode name ip :: ns)
            end
        end
      else explicit_nodes rest
  end.

(** [names.iter().filter(is_server_name).count().max(1) as u32]. *)
Definition server_count (names : list text) : Z :=
  wrap_u32 (Z.max 1 (Z.of_nat (length (filter (λ n, is_server_name n = true) names)))).

Definition discovered_node (servers : Z) (name : text) : result text MeshNode :=
  match conventional_ip name servers with
  | Some ip => Ok (mkNode name ip)
  | None => Err ($"cannot infer address for node '" ++ name ++ $"' " ++ dash ++ $" pass --node "
                 ++ name ++ $"=<ip>")
  end.

(** The entries of the run directory that hold a VMM's socket. *)
Definition node_dirs (exists_ : text → bool) (run_dir : text) (entries : list text) : list text :=
  filter (λ n, let p := path_join run_dir n in
               exists_ (path_join p (n ++ $".sock")) || exists_ (path_join p $"kubenyx.sock") = true) entries.

(** [mesh_nodes]: explicit flags win, then the launcher's manifest, then the
    node directories found in the run directory. *)
Definition mesh_nodes (exists_ : text → bool) (read_dir : text → option (list text))
    (flags : list text) (run_dir : option text) (manifest : option RunManifest)
    : result text (list MeshNode) :=
  let? explicit := explicit_nodes flags in
  let? nodes :=
    match explicit, manifest, run_dir with
    | _ :: _, _, _ => Ok explicit
    | [], Some m, _ => Ok (rm_nodes m)
    | [], None, Some dir =>
        let? entries := of_option ($"read " ++ dir) (read_dir dir) in
        let names := node_dirs exists_ dir entries in
        collect (discovered_node (server_count names) <$> names)
    | [], None, None => Ok []
    end in
  if decide (nodes = []) then
    Err $"no mesh nodes found (no --node flags and no node workdirs with kubenyx.sock)"
  else Ok (sort_nodes nodes).

(** ** mesh-take *)

Inductive TakeEnd :=
| Refused (msg : text)          (* the posture check *)
| OutDirFailed                  (* the output directory cannot be made *)
| PauseFailed (node : text)
| SnapshotFailed (node : text)  (* its directory or its API call *)
| RecordFailed                  (* the identity or the manifest *)
| Taken.

(** What [cmd_mesh_take] asks of the world, in order. *)
Inductive TakeEvent :=
| Pause (node : text)             (* PATCH /vm, state Paused *)
| Paused (node : text)            (* its answer *)
| CreateSnapshot (node : text)    (* PUT /snapshot/create *)
| Created (node : text)           (* its answer *)
| WriteManifest
| KillVmms.

(** Where the verb is: nodes still to pause; threads not yet at their API
    call, those waiting for its answer, those that returned; the manifest; the
    end. *)
Inductive TakePhase :=
| Pausing (rest : list text)
| Snapping (waiting running finished : list text)
| Recording
| Killing
| Ended (e : TakeEnd).

Definition servers_of (nodes : list MeshNode) : nat :=
  length (filter (λ n, is_server_name (n_name n) = true) nodes).

(** Up to the first pause. *)
Definition mesh_take_start (nodes : list MeshNode) (manifest : option RunManifest) (out_ok : bool)
    : TakePhase :=
  match assert_volatile_mesh_take (servers_of nodes) manifest with
  | Err e => Ended (Refused e)
  | Ok _ => if out_ok then Pausing (n_name <$> nodes) else Ended OutDirFailed
  end.

(** One step: the pauses one after the other, the snapshot threads in any
    interleaving; a failure anywhere ends the process. *)
Inductive take_step (names : list text) : TakePhase → list TakeEvent → TakePhase → Prop :=
| take_pause n rest : take_step names (Pausing (n :: rest)) [Pause n; Paused n] (Pausing rest)
| take_pause_fails n rest :
    take_step names (Pausing (n :: rest)) [Pause n] (Ended (PauseFailed n))
| take_spawn : take_step names (Pausing []) [] (Snapping names [] [])
| take_create n w1 w2 r f :
    take_step names (Snapping (w1 ++ n :: w2) r f) [CreateSnapshot n] (Snapping (w1 ++ w2) (n :: r) f)
| take_mkdir_fails n w1 w2 r f :
    take_step names (Snapping (w1 ++ n :: w2) r f) [] (Ended (SnapshotFailed n))
| take_created n w r1 r2 f :
    take_step names (Snapping w (r1 ++ n :: r2) f) [Created n] (Snapping w (r1 ++ r2) (n :: f))
| take_create_fails n w r1 r2 f :
    take_step names (Snapping w (r1 ++ n :: r2) f) [] (Ended (SnapshotFailed n))
| take_joined f : take_step names (Snapping [] [] f) [] Recording
| take_record : take_step names Recording [WriteManifest] Killing
| take_record_fails : take_step names Recording [] (Ended RecordFailed)
| take_kill : take_step names Killing [KillVmms] (Ended Taken).

(** A run so far: the events and where it is. *)
Inductive take_run (nodes : list MeshNode) (manifest : option RunManifest) (out_ok : bool)
    : list TakeEvent → TakePhase → Prop :=
| take_run_start : take_run nodes manifest out_ok [] (mesh_take_start nodes manifest out_ok)
| take_run_step tr ph ev ph' :
    take_run nodes manifest out_ok tr ph →
    take_step (n_name <$> nodes) ph ev ph' →
    take_run nodes manifest out_ok (tr ++ ev) ph'.

(** [cmd_mesh_take] up to the posture check: its nodes and the manifest. *)
Definition read_run_manifest (read : text → option text) (run_dir : text)
    : result text (option RunManifest) :=
  let path := path_join run_dir RUN_MANIFEST in
  match read path with
  | None => Ok None
  | Some raw =>
      match parse_run_manifest raw with
      | Ok m => Ok (Some m)
      | Err e => Err ($"parse " ++ path ++ $": " ++ e)
      end
  end.

Definition mesh_take_nodes (exists_ : text → bool) (read_dir : text → option (list text))
    (read : text → option text) (flags : list text) : result text (list MeshNode * option RunManifest) :=
  let? run_dir := flags_get $"--run-dir" flags in
  let run_dir := default $"/tmp/kubenyx-cluster" run_dir in
  let? _out := flags_get $"--out" flags in
  let? manifest := read_run_manifest read run_dir in
  let? nodes := mesh_nodes exists_ read_dir flags (Some run_dir) manifest in
  Ok (nodes, manifest).

(** ** Processes *)

(** A process: its id, [comm], and the links [cwd] and [exe]. *)
Record Proc := mkProc { pr_pid : Z; pr_comm : text; pr_cwd : option text; pr_exe : option text }.

Definition ends_with (suffix s : text) : bool := bool_decide (is_Some (strip_suffix suffix s)).

(** [comm] as the kernel gives it, against the names a VMM runs under. *)
Definition is_firecracker (p : Proc) : bool := ends_with $"firecracker" (trim_end (pr_comm p)).
Definition is_mesh_vmm (p : Proc) : bool :=
  is_firecracker p || bool_decide (trim_end (pr_comm p) = $"microvm@kubenyx").

Definition cwd_in (want : list text) (p : Proc) : bool :=
  match pr_cwd p with Some cwd => existsb (λ w, path_eq w cwd) want | None => false end.

(** The processes [kill_mesh_vmms] kills. *)
Definition kill_mesh_vmms (run_dir : text) (nodes : list MeshNode) (procs : list Proc) : list Z :=
  let want := (λ n, path_join run_dir (n_name n)) <$> nodes in
  pr_pid <$> filter (λ p, is_mesh_vmm p && cwd_in want p = true) procs.

(** [find_vmm_by_cwd], [want] being the canonical form of the directory. *)
Definition find_vmm_by_cwd (want : option text) (procs : list Proc) : option (Z * text) :=
  w ← want;
  p ← head (filter (λ p, is_firecracker p && cwd_in [w] p = true) procs);
  exe ← pr_exe p;
  Some (pr_pid p, exe).

(** ** The VMMs this process owns *)

Definition OWNED_MAX : nat := 16.
Abbreviation Slots := (list Z).
Definition no_vmms : Slots := replicate OWNED_MAX 0.

(** [own_vmm]: the first free slot; [None] when there is none, upon which the
    process dies. *)
Fixpoint own_vmm (pid : Z) (t : Slots) : option Slots :=
  match t with
  | [] => None
  | s :: t => if s =? 0 then Some (pid :: t) else cons s <$> own_vmm pid t
  end.

Definition disown_vmm (pid : Z) (t : Slots) : Slots := (λ s, if s =? pid then 0 else s) <$> t.

(** [kill_owned_vmm], and the signal handler: the pids killed, and the table
    after. *)
Definition kill_owned_vmm (t : Slots) : list Z * Slots :=
  (filter (λ pid, 0 < pid) t, (λ _, 0) <$> t).

Inductive VmmOp := Own (pid : Z) | Disown (pid : Z).

(** A run of the tool up to an exit: the table, or the pids killed when the
    table overflowed. *)
Fixpoint vmm_run (ops : list VmmOp) (t : Slots) : Slots + list Z :=
  match ops with
  | [] => inl t
  | Own pid :: ops =>
      match own_vmm pid t with
      | Some t => vmm_run ops t
      | None => inr (kill_owned_vmm t).1
      end
  | Disown pid :: ops => vmm_run ops (disown_vmm pid t)
  end.

(** ** Specifications *)

(** The names of a mesh, in the launcher's order. *)
Definition server_names (servers : nat) : list text :=
  if decide (servers = 1%nat) then [$"server"]
  else (λ i, $"server" ++ fmt_dec (Z.of_nat i)) <$> seq 1 servers.
Definition agent_names (agents : nat) : list text :=
  (λ i, $"agent" ++ fmt_dec (Z.of_nat i)) <$> seq 1 agents.
Definition mesh_names (servers agents : nat) : list text := server_names servers ++ agent_names agents.

(** The launcher's layout: the node at index [i] has address 10.100.0.(2+i). *)
Definition mesh_layout (servers agents : nat) : list MeshNode :=
  imap (λ i name, mkNode name ($"10.100.0." ++ fmt_dec (2 + Z.of_nat i))) (mesh_names servers agents).

Definition name_le (a b : text) : Prop := name_cmp a b ≠ Gt.
#[export] Instance name_le_dec : RelDecision name_le.
Proof. intros a b. unfold name_le. apply _. Defined.

(** The pids a sequence of operations leaves owned. *)
Fixpoint owned (ops : list VmmOp) (acc : gset Z) : gset Z :=
  match ops with
  | [] => acc
  | Own pid :: ops => owned ops ({[pid]} ∪ acc)
  | Disown pid :: ops => owned ops (acc ∖ {[pid]})
  end.

Definition own_pids (ops : list VmmOp) : list Z :=
  omap (λ op, match op with Own pid => Some pid | Disown _ => None end) ops.

Definition node_le (a b : MeshNode) : Prop := name_le (n_name a) (n_name b).

(** Ordered by the key alone. *)
Definition key_lt (a b : text) : Prop :=
  (mesh_order_key a).1 < (mesh_order_key b).1
  ∨ (mesh_order_key a).1 = (mesh_order_key b).1 ∧ (mesh_order_key a).2 < (mesh_order_key b).2.

(** The events of a run, by kind. *)
Definition pauses (names : list text) : list TakeEvent := names ≫= λ n, [Pause n; Paused n].
Definition creates (tr : list TakeEvent) : list text :=
  omap (λ e, match e with CreateSnapshot n => Some n | _ => None end) tr.
Definition answers (tr : list TakeEvent) : list text :=
  omap (λ e, match e with Created n => Some n | _ => None end) tr.
Definition snapshot_event (e : TakeEvent) : Prop :=
  match e with CreateSnapshot _ | Created _ => True | _ => False end.

(** A mesh that may be snapshotted: at most one server, or a volatile one. *)
Definition may_take (nodes : list MeshNode) (manifest : option RunManifest) : Prop :=
  (servers_of nodes ≤ 1)%nat ∨ ∃ m, manifest = Some m ∧ posture m = $"volatile".

(** The two shapes of a run. *)
Definition pausing_run (names : list text) (tr : list TakeEvent) (ph : TakePhase) : Prop :=
  ∃ ps rest, names = ps ++ rest
    ∧ (tr = pauses ps
       ∨ ∃ n, head rest = Some n ∧ tr = pauses ps ++ [Pause n] ∧ ph = Ended (PauseFailed n)).

Definition snapping_run (names : list text) (tr : list TakeEvent) (ph : TakePhase) : Prop :=
  ∃ sn fin, tr = pauses names ++ sn ++ fin ∧ Forall snapshot_event sn
    ∧ creates sn ⊆+ names ∧ answers sn ⊆+ creates sn
    ∧ fin `prefix_of` [WriteManifest; KillVmms]
    ∧ (fin ≠ [] → answers sn ≡ₚ names)
    ∧ (ph = Ended Taken → fin = [WriteManifest; KillVmms]).

(** A VMM process working in a node's directory. *)
Definition mesh_vmm (run_dir : text) (nodes : list MeshNode) (p : Proc) : Prop :=
  is_mesh_vmm p = true ∧ ∃ cwd n, pr_cwd p = Some cwd ∧ n ∈ nodes
    ∧ path_components cwd = (is_absolute run_dir, (path_components run_dir).2 ++ [n_name n]).

(** The table was full when one more was spawned: the pids killed are the
    table's. *)
Definition overflows (ops : list VmmOp) (acc : gset Z) (killed : list Z) : Prop :=
  ∃ pre pid post, ops = pre ++ Own pid :: post ∧ length killed = OWNED_MAX
                  ∧ list_to_set killed = owned pre acc.

(** What has happened when the verb is in a phase. *)
Definition snapped (names : list text) (tr sn : list TakeEvent) : Prop :=
  tr = pauses names ++ sn ∧ Forall snapshot_event sn.

Definition all_snapped (names : list text) (tr : list TakeEvent) (fin : list TakeEvent) : Prop :=
  ∃ sn, tr = pauses names ++ sn ++ fin ∧ Forall snapshot_event sn
        ∧ creates sn ≡ₚ names ∧ answers sn ≡ₚ names.

Definition take_inv (names : list text) (tr : list TakeEvent) (ph : TakePhase) : Prop :=
  match ph with
  | Pausing rest => ∃ ps, names = ps ++ rest ∧ tr = pauses ps
  | Snapping w r f =>
      ∃ sn, snapped names tr sn ∧ creates sn ++ w ≡ₚ names
            ∧ creates sn ≡ₚ r ++ f ∧ answers sn ≡ₚ f
  | Recording => all_snapped names tr []
  | Killing => all_snapped names tr [WriteManifest]
  | Ended (Refused _) | Ended OutDirFailed => tr = []
  | Ended (PauseFailed n) =>
      ∃ ps rest, names = ps ++ n :: rest ∧ tr = pauses ps ++ [Pause n]
  | Ended (SnapshotFailed n) =>
      ∃ sn, snapped names tr sn ∧ creates sn ⊆+ names ∧ answers sn ⊆+ creates sn ∧ n ∈ names
            ∧ ¬ answers sn ≡ₚ names
  | Ended RecordFailed => all_snapped names tr []
  | Ended Taken => all_snapped names tr [WriteManifest; KillVmms]
  end.

(** A table of its size holding exactly a set of pids, in any slots. *)
Definition holds (t : Slots) (acc : gset Z) : Prop :=
  length t = OWNED_MAX ∧ Forall (λ s, 0 ≤ s) t ∧ ∀ pid, pid ∈ acc ↔ pid ∈ t ∧ 0 < pid.

(** ** Lemmas *)

(** *** The order of nodes *)

Lemma name_le_iff a b :
  name_le a b ↔
  (mesh_order_key a).1 < (mesh_order_key b).1
  ∨ (mesh_order_key a).1 = (mesh_order_key b).1
    ∧ ((mesh_order_key a).2 < (mesh_order_key b).2
       ∨ (mesh_order_key a).2 = (mesh_order_key b).2 ∧ bytes_le a b).
Proof.
  unfold name_le, name_cmp, bytes_le.
  destruct (Z.compare_spec (mesh_order_key a).1 (mesh_order_key b).1);
    [destruct (Z.compare_spec (mesh_order_key a).2 (mesh_order_key b).2)| |];
    split; intros; try done; try lia; naive_solver lia.
Qed.

#[export] Instance name_le_po : PartialOrder name_le.
Proof.
  split; [split|].
  - intros a. apply name_le_iff. right. split; [done|]. right. split; [done|reflexivity].
  - intros a b c. rewrite !name_le_iff.
    intros [?|[? [?|[? H1]]]] [?|[? [?|[? H2]]]]; try lia.
    right. split; [lia|]. right. split; [lia|]. by etrans.
  - intros a b. rewrite !name_le_iff.
    intros [?|[? [?|[? H1]]]] [?|[? [?|[? H2]]]]; try lia. by apply (anti_symm bytes_le).
Qed.

Lemma name_cmp_Gt a b : name_cmp a b = Gt → name_le b a.
Proof.
  intros H. destruct (decide (name_le a b)) as [?|Hn]; [done|]. rewrite name_le_iff in Hn |- *.
  destruct (Z.lt_total (mesh_order_key a).1 (mesh_order_key b).1) as [?|[?|?]]; [tauto| |tauto].
  right. split; [done|].
  destruct (Z.lt_total (mesh_order_key a).2 (mesh_order_key b).2) as [?|[?|?]]; [tauto| |tauto].
  right. split; [done|].
  destruct (total bytes_le a b); [|done]. exfalso. apply Hn. tauto.
Qed.

#[export] Instance node_le_trans : Transitive node_le.
Proof. intros a b c. unfold node_le. by intros; etrans. Qed.

Lemma insert_node_perm x l : insert_node x l ≡ₚ x :: l.
Proof.
  induction l as [|y l IH]; simpl; [done|]. destruct (name_cmp _ _); [done..|].
  rewrite IH. apply Permutation_swap.
Qed.

Lemma insert_node_sorted x l : Sorted node_le l → Sorted node_le (insert_node x l).
Proof.
  induction 1 as [|y l Hl IH Hhd]; simpl; [repeat constructor|].
  destruct (name_cmp (n_name x) (n_name y)) eqn:E.
  1, 2: constructor; [by constructor|]; constructor; unfold node_le, name_le; by rewrite E.
  constructor; [done|]. apply name_cmp_Gt in E.
  destruct l as [|z l]; simpl; [by constructor|]. inversion Hhd; subst.
  by destruct (name_cmp _ _); constructor.
Qed.

Lemma sort_nodes_perm l : sort_nodes l ≡ₚ l.
Proof. induction l as [|x l IH]; simpl; [done|]. by rewrite insert_node_perm, IH. Qed.

Lemma sort_nodes_sorted l : StronglySorted node_le (sort_nodes l).
Proof.
  apply Sorted_StronglySorted; [apply _|].
  induction l; simpl; [constructor|by apply insert_node_sorted].
Qed.

(** A list whose names are all different has one sorted form. *)
Lemma sort_nodes_unique l l' :
  NoDup (n_name <$> l') → StronglySorted node_le l' → l ≡ₚ l' → sort_nodes l = l'.
Proof.
  intros Hnd Hs Hp. apply (StronglySorted_unique_strong node_le).
  - intros x y Hx Hy Hxy Hyx. rewrite sort_nodes_perm, Hp in Hx.
    assert (n_name x = n_name y) as E by (by apply (anti_symm name_le)).
    apply list_elem_of_lookup in Hx as [i Hi], Hy as [j Hj].
    assert (i = j) as ->; [|congruence].
    apply (NoDup_lookup _ _ _ (n_name x) Hnd); rewrite list_lookup_fmap, ?Hi, ?Hj; simpl; congruence.
  - apply sort_nodes_sorted.
  - done.
  - by rewrite sort_nodes_perm.
Qed.

(** *** The launcher's layout *)

Lemma number_suffix_fmt p n : 1 ≤ n ≤ u32_max → number_suffix (p ++ fmt_dec n) p = Some n.
Proof.
  intros Hn. unfold number_suffix. rewrite strip_prefix_app. simpl.
  rewrite parse_fmt_unsigned by lia. simpl. by destruct (Z.leb_spec 1 n); [|lia].
Qed.

Lemma agent_no_server s : number_suffix ($"agent" ++ s) $"server" = None.
Proof. done. Qed.

Lemma server_numbered_ne n : 0 ≤ n → $"server" ++ fmt_dec n ≠ $"server".
Proof.
  intros Hn H. apply (app_inv_head $"server" _ []) in H.
  unfold fmt_dec in H. destruct (Z.ltb_spec n 0); [lia|].
  destruct (fmt_unsigned_head n) as (c & s & E & _). congruence.
Qed.

Lemma server_numbered_ip n servers : 1 ≤ n → 1 + n ≤ u32_max →
  conventional_ip ($"server" ++ fmt_dec n) servers = Some ($"10.100.0." ++ fmt_dec (1 + n)).
Proof.
  intros H1 H2. unfold conventional_ip. rewrite decide_False by (apply server_numbered_ne; lia).
  rewrite number_suffix_fmt by lia. by rewrite wrap_unsigned_small by (unfold u32_max in *; lia).
Qed.

Lemma agent_ip n servers : 1 ≤ n → 0 ≤ servers → 1 + servers + n ≤ u32_max →
  conventional_ip ($"agent" ++ fmt_dec n) servers = Some ($"10.100.0." ++ fmt_dec (1 + servers + n)).
Proof.
  intros H1 H2 H3. unfold conventional_ip. rewrite decide_False by done.
  rewrite agent_no_server, number_suffix_fmt by lia. cbn [fmap option_fmap option_map].
  unfold u32_max in *. rewrite (wrap_unsigned_small 32 (1 + servers)) by lia.
  by rewrite wrap_unsigned_small by lia.
Qed.

Lemma is_server_numbered n : 1 ≤ n ≤ u32_max → is_server_name ($"server" ++ fmt_dec n) = true.
Proof.
  intros Hn. unfold is_server_name. rewrite number_suffix_fmt by done.
  by rewrite (bool_decide_true (is_Some _)), orb_true_r by eauto.
Qed.

Lemma is_server_agent s : is_server_name ($"agent" ++ s) = false.
Proof.
  unfold is_server_name. rewrite agent_no_server, bool_decide_false by done.
  by rewrite bool_decide_false by (by intros []).
Qed.

Lemma server_key n : 1 ≤ n ≤ u32_max → mesh_order_key ($"server" ++ fmt_dec n) = (0, n).
Proof.
  intros Hn. unfold mesh_order_key. rewrite decide_False by (apply server_numbered_ne; lia).
  by rewrite number_suffix_fmt.
Qed.

Lemma agent_key n : 1 ≤ n ≤ u32_max → mesh_order_key ($"agent" ++ fmt_dec n) = (1, n).
Proof.
  intros Hn. unfold mesh_order_key. rewrite decide_False by done.
  by rewrite agent_no_server, number_suffix_fmt.
Qed.

Lemma imap_seq {A B} (f : nat → A → B) (g : nat → A) k n :
  imap f (g <$> seq k n) = (λ i, f (i - k)%nat (g i)) <$> seq k n.
Proof.
  apply list_eq. intros i. rewrite list_lookup_imap, !list_lookup_fmap.
  destruct (decide (i < n)%nat).
  - rewrite lookup_seq_lt by done. simpl. by replace (k + i - k)%nat with i by lia.
  - by rewrite lookup_seq_ge by lia.
Qed.

Lemma StronglySorted_seq {A} (R : relation A) (f : nat → A) k n :
  (∀ i j, (k ≤ i < j ∧ j < k + n)%nat → R (f i) (f j)) → StronglySorted R (f <$> seq k n).
Proof.
  revert k. induction n as [|n IH]; intros k HR; csimpl; [constructor|]. constructor.
  - apply IH. intros i j Hij. apply HR. lia.
  - apply Forall_fmap, Forall_forall. intros j Hj%elem_of_seq. apply HR. lia.
Qed.

Lemma key_lt_le a b : key_lt a b → name_le a b ∧ a ≠ b.
Proof. unfold key_lt. rewrite name_le_iff. intros H. split; [tauto|]. intros ->. lia. Qed.

Lemma server_names_length servers : length (server_names servers) = servers.
Proof. unfold server_names. case_decide; [by subst|]. by rewrite length_fmap, length_seq. Qed.

Section layout.
Variables servers agents : nat.
Hypothesis Hservers : (1 ≤ servers)%nat.
Hypothesis Hbound : 1 + Z.of_nat servers + Z.of_nat agents ≤ u32_max.

(** The count the discovery makes is the mesh's own. *)
Lemma server_count_names names : names ≡ₚ mesh_names servers agents →
  server_count names = Z.of_nat servers.
Proof.
  intros Hp. unfold server_count. rewrite Hp. unfold mesh_names.
  rewrite filter_app, (filter_all _ (server_names servers)), (filter_none _ (agent_names agents)).
  - rewrite app_nil_r, server_names_length, Z.max_r by lia.
    apply wrap_unsigned_small. unfold u32_max in *. lia.
  - apply Forall_fmap, Forall_forall. intros i _ H. cbv beta in H. by rewrite is_server_agent in H.
  - unfold server_names. case_decide; [by repeat constructor|].
    apply Forall_fmap, Forall_forall. intros i Hi%elem_of_seq. apply is_server_numbered. lia.
Qed.

Lemma discovered_layout :
  discovered_node (Z.of_nat servers) <$> mesh_names servers agents
  = Ok <$> mesh_layout servers agents.
Proof.
  unfold mesh_layout, mesh_names. rewrite imap_app, !fmap_app, server_names_length. f_equal.
  - unfold server_names. case_decide as E; [by rewrite E|].
    rewrite imap_seq, <- !list_fmap_compose. apply list_fmap_ext. intros i x Hx.
    apply list_elem_of_lookup_2, elem_of_seq in Hx. unfold compose, discovered_node. cbv beta.
    rewrite server_numbered_ip by lia. do 4 f_equal. lia.
  - unfold agent_names. rewrite imap_seq, <- !list_fmap_compose. apply list_fmap_ext.
    intros i x Hx. apply list_elem_of_lookup_2, elem_of_seq in Hx. unfold compose, discovered_node. cbv beta.
    rewrite agent_ip by lia. do 4 f_equal. lia.
Qed.

Lemma layout_names : n_name <$> mesh_layout servers agents = mesh_names servers agents.
Proof.
  unfold mesh_layout. rewrite fmap_imap. apply list_eq. intros i.
  rewrite list_lookup_imap. by destruct (_ !! i).
Qed.

(** The launcher's order is the sort's order. *)
Lemma mesh_names_sorted : StronglySorted key_lt (mesh_names servers agents).
Proof.
  apply StronglySorted_app. split; [|split].
  - intros a b Ha Hb. left. unfold agent_names in Hb.
    apply list_elem_of_fmap in Hb as (j & -> & Hj%elem_of_seq). rewrite agent_key by lia.
    unfold server_names in Ha. case_decide.
    + by apply list_elem_of_singleton in Ha as ->.
    + apply list_elem_of_fmap in Ha as (i & -> & Hi%elem_of_seq). by rewrite server_key by lia.
  - unfold server_names. case_decide; [repeat constructor|].
    apply StronglySorted_seq. intros i j Hij. unfold key_lt. rewrite !server_key by lia. simpl. lia.
  - apply StronglySorted_seq. intros i j Hij. unfold key_lt. rewrite !agent_key by lia. simpl. lia.
Qed.

Lemma mesh_names_NoDup : NoDup (mesh_names servers agents).
Proof.
  induction mesh_names_sorted as [|x l Hl IH Hx]; constructor; [|done].
  intros Hin. rewrite Forall_forall in Hx. by destruct (key_lt_le _ _ (Hx _ Hin)).
Qed.

Lemma layout_sorted : StronglySorted node_le (mesh_layout servers agents).
Proof.
  pose proof mesh_names_sorted as H. rewrite <- layout_names in H.
  induction (mesh_layout servers agents) as [|x l IH]; csimpl in *; [constructor|].
  inversion H as [|? ? Hl Hx]; subst. constructor; [auto|].
  rewrite Forall_fmap in Hx. eapply Forall_impl; [exact Hx|].
  intros y Hy. by apply key_lt_le.
Qed.

(** Whatever the order [read_dir] lists the nodes in. *)
Lemma discovered_perm names : names ≡ₚ mesh_names servers agents →
  ∃ nodes, discovered_node (Z.of_nat servers) <$> names = Ok <$> nodes
           ∧ nodes ≡ₚ mesh_layout servers agents.
Proof.
  intros Hp. pose proof (fmap_Permutation (discovered_node (Z.of_nat servers)) _ _ Hp) as H.
  rewrite discovered_layout in H. apply Permutation_map_inv in H as (nodes & E & Hn).
  exists nodes. by split.
Qed.
End layout.

(** *** mesh-take *)

Lemma creates_app a b : creates (a ++ b) = creates a ++ creates b.
Proof. apply omap_app. Qed.
Lemma answers_app a b : answers (a ++ b) = answers a ++ answers b.
Proof. apply omap_app. Qed.

Lemma snapped_snoc names tr sn e :
  snapped names tr sn → snapshot_event e → snapped names (tr ++ [e]) (sn ++ [e]).
Proof.
  intros [-> H] He. split; [by rewrite app_assoc|]. apply Forall_app. by repeat constructor.
Qed.

Lemma all_snapped_app names tr fin ev :
  all_snapped names tr fin → all_snapped names (tr ++ ev) (fin ++ ev).
Proof. intros (sn & -> & H). exists sn. by rewrite <- !app_assoc. Qed.

(** A thread that fails has not been answered. *)
Lemma snapping_fails names tr n sn w r f :
  snapped names tr sn → creates sn ++ w ≡ₚ names → creates sn ≡ₚ r ++ f → answers sn ≡ₚ f →
  n ∈ w ++ r →
  take_inv names tr (Ended (SnapshotFailed n)).
Proof.
  intros Hs Hw Hc Ha Hn. exists sn. split; [done|]. split; [|split; [|split]].
  - rewrite <- Hw. by apply submseteq_inserts_r.
  - rewrite Ha, Hc. by apply submseteq_inserts_l.
  - rewrite <- Hw, Hc. set_solver.
  - rewrite Ha. intros E. rewrite <- Hw, Hc in E. apply Permutation_length in E.
    rewrite !length_app in E. apply list_elem_of_In, in_split in Hn as (? & ? & Hn).
    apply (f_equal length) in Hn. rewrite !length_app in Hn. simpl in Hn. lia.
Qed.

Lemma take_step_inv names tr ph ev ph' :
  take_inv names tr ph → take_step names ph ev ph' → take_inv names (tr ++ ev) ph'.
Proof.
  intros Hi Hstep. destruct Hstep; simpl in Hi |- *.
  - destruct Hi as (ps & -> & ->). exists (ps ++ [n]). split; [by rewrite <- app_assoc|].
    unfold pauses. by rewrite bind_app.
  - destruct Hi as (ps & -> & ->). by exists ps, rest.
  - destruct Hi as (ps & -> & ->). exists []. unfold snapped. rewrite !app_nil_r. by repeat constructor.
  - destruct Hi as (sn & Hs & Hw & Hc & Ha). exists (sn ++ [CreateSnapshot n]).
    split; [by apply snapped_snoc|]. rewrite creates_app, answers_app, app_nil_r. simpl.
    split; [|split; [|done]].
    + rewrite <- Hw, <- app_assoc. simpl. by rewrite Permutation_middle.
    + by rewrite Hc, <- Permutation_cons_append.
  - destruct Hi as (sn & Hs & Hw & Hc & Ha). rewrite app_nil_r.
    eapply snapping_fails; [done..|]. set_solver.
  - destruct Hi as (sn & Hs & Hw & Hc & Ha). exists (sn ++ [Created n]).
    split; [by apply snapped_snoc|]. rewrite creates_app, answers_app, app_nil_r. simpl.
    split; [done|]. split.
    + rewrite Hc, <- !app_assoc. simpl. by rewrite Permutation_middle.
    + by rewrite Ha, <- Permutation_cons_append.
  - destruct Hi as (sn & Hs & Hw & Hc & Ha). rewrite app_nil_r.
    eapply snapping_fails; [done..|]. set_solver.
  - destruct Hi as (sn & [-> Hs] & Hw & Hc & Ha). exists sn. rewrite !app_nil_r in *.
    split; [done|]. split; [done|]. split; [done|]. by rewrite Ha, <- Hc.
  - exact (all_snapped_app _ _ _ _ Hi).
  - by rewrite app_nil_r.
  - exact (all_snapped_app _ _ _ _ Hi).
Qed.

Lemma take_run_inv nodes manifest out_ok tr ph :
  take_run nodes manifest out_ok tr ph → take_inv (n_name <$> nodes) tr ph.
Proof.
  induction 1 as [|tr ph ev ph' _ IH Hstep]; [|by eapply take_step_inv].
  unfold mesh_take_start. destruct (assert_volatile_mesh_take _ _); [|done].
  destruct out_ok; [|done]. by exists [].
Qed.

Lemma assert_volatile_ok nodes manifest :
  is_ok (assert_volatile_mesh_take (servers_of nodes) manifest) = true ↔ may_take nodes manifest.
Proof.
  unfold assert_volatile_mesh_take, may_take. destruct (Nat.leb_spec (servers_of nodes) 1).
  { simpl. tauto. }
  destruct manifest as [m|]; [|naive_solver lia].
  case_decide; simpl; naive_solver lia.
Qed.

(** A run that got past the start was allowed to. *)
Lemma take_run_allowed nodes manifest out_ok tr ph :
  take_run nodes manifest out_ok tr ph →
  may_take nodes manifest ∨ tr = [] ∧ ∃ msg, ph = Ended (Refused msg).
Proof.
  induction 1 as [|tr ph ev ph' _ IH Hstep].
  - rewrite <- assert_volatile_ok. unfold mesh_take_start.
    destruct (assert_volatile_mesh_take _ _); [by left|]. right. eauto.
  - destruct IH as [?|[-> [msg ->]]]; [by left|]. inversion Hstep.
Qed.

Lemma all_snapped_run names tr ph fin :
  all_snapped names tr fin → fin `prefix_of` [WriteManifest; KillVmms] →
  (ph = Ended Taken → fin = [WriteManifest; KillVmms]) → snapping_run names tr ph.
Proof.
  intros (sn & -> & Hs & Hc & Ha) Hfin Hph. exists sn, fin.
  split_and!; try done; by rewrite ?Ha, ?Hc.
Qed.

Lemma take_inv_shape names tr ph :
  take_inv names tr ph → pausing_run names tr ph ∨ snapping_run names tr ph.
Proof.
  destruct ph as [rest|w r f| | |[msg| |n|n| |]]; simpl; intros Hi.
  - left. destruct Hi as (ps & E & ->). exists ps, rest. auto.
  - right. destruct Hi as (sn & [-> Hs] & Hw & Hc & Ha). exists sn, [].
    rewrite app_nil_r. split_and!; try done.
    + rewrite <- Hw. by apply submseteq_inserts_r.
    + rewrite Ha, Hc. by apply submseteq_inserts_l.
    + apply prefix_nil.
  - right. eapply all_snapped_run; [done|apply prefix_nil|done].
  - right. eapply all_snapped_run; [done|by exists [KillVmms]|done].
  - left. exists [], names. auto.
  - left. exists [], names. auto.
  - left. destruct Hi as (ps & rest & E & ->). exists ps, (n :: rest). eauto 10.
  - right. destruct Hi as (sn & [-> Hs] & Hc & Ha & _). exists sn, [].
    rewrite app_nil_r. split_and!; try done. apply prefix_nil.
  - right. eapply all_snapped_run; [done|apply prefix_nil|done].
  - right. by eapply all_snapped_run.
Qed.

(** *** Processes *)

Lemma cwd_in_nodes run_dir nodes p :
  Forall (λ n, plain_name (n_name n)) nodes →
  cwd_in ((λ n, path_join run_dir (n_name n)) <$> nodes) p = true
  ↔ ∃ cwd n, pr_cwd p = Some cwd ∧ n ∈ nodes
      ∧ path_components cwd = (is_absolute run_dir, (path_components run_dir).2 ++ [n_name n]).
Proof.
  intros Hn. rewrite Forall_forall in Hn. unfold cwd_in.
  destruct (pr_cwd p) as [cwd|]; [|naive_solver]. rewrite existsb_exists. split.
  - intros (w & Hw & E). apply list_elem_of_In, list_elem_of_fmap in Hw as (n & -> & Hin).
    apply bool_decide_eq_true in E. rewrite path_components_join in E by auto. eauto.
  - intros (cwd' & n & [= <-] & Hin & E). exists (path_join run_dir (n_name n)). split.
    + apply list_elem_of_In, list_elem_of_fmap. eauto.
    + apply bool_decide_true. rewrite E. apply path_components_join. auto.
Qed.

(** *** The table of owned VMMs *)

Lemma own_vmm_Some pid t t' : own_vmm pid t = Some t' →
  ∃ a b, t = a ++ 0 :: b ∧ t' = a ++ pid :: b ∧ Forall (λ s, s ≠ 0) a.
Proof.
  revert t'. induction t as [|s t IH]; intros t' H; simpl in H; [done|].
  destruct (Z.eqb_spec s 0) as [->|Hs]; simplify_eq/=; [by exists [], t|].
  apply fmap_Some in H as (u & (a & b & -> & -> & Ha)%IH & ->).
  exists (s :: a), b. by repeat constructor.
Qed.

Lemma own_vmm_None pid t : own_vmm pid t = None ↔ Forall (λ s, s ≠ 0) t.
Proof.
  induction t as [|s t IH]; simpl; [by split; [constructor|]|].
  rewrite Forall_cons. destruct (Z.eqb_spec s 0); [naive_solver|].
  rewrite fmap_None. naive_solver.
Qed.

Lemma own_vmm_holds pid t t' acc : 0 < pid →
  holds t acc → own_vmm pid t = Some t' → holds t' ({[pid]} ∪ acc).
Proof.
  intros Hpid (Hlen & Hpos & Hin) (a & b & -> & -> & _)%own_vmm_Some.
  rewrite Forall_app, Forall_cons in Hpos. split; [by rewrite length_app in *|]. split.
  - rewrite Forall_app, Forall_cons. split; [tauto|]. split; [lia|tauto].
  - intros p. rewrite elem_of_union, elem_of_singleton, Hin.
    rewrite !elem_of_app, !elem_of_cons. naive_solver lia.
Qed.

Lemma disown_vmm_holds pid t acc : holds t acc → holds (disown_vmm pid t) (acc ∖ {[pid]}).
Proof.
  intros (Hlen & Hpos & Hin). unfold disown_vmm. split; [by rewrite length_fmap|]. split.
  - apply Forall_fmap. eapply Forall_impl; [done|]. intros s Hs. simpl. by destruct (s =? pid).
  - intros p. rewrite elem_of_difference, elem_of_singleton, Hin, list_elem_of_fmap. split.
    + intros [[Hp ?] Hne]. split; [|done]. exists p. split; [|done]. by destruct (Z.eqb_spec p pid).
    + intros [(s & E & Hs) ?]. destruct (Z.eqb_spec s pid); [lia|]. subst. tauto.
Qed.

Lemma kill_owned_holds t acc : holds t acc → list_to_set (kill_owned_vmm t).1 = acc.
Proof.
  intros (_ & _ & Hin). apply set_eq. intros p. simpl.
  rewrite elem_of_list_to_set, list_elem_of_filter, Hin. tauto.
Qed.

Lemma vmm_run_holds ops t acc : Forall (λ p, 0 < p) (own_pids ops) → holds t acc →
  match vmm_run ops t with
  | inl t' => holds t' (owned ops acc)
  | inr killed => overflows ops acc killed
  end.
Proof.
  revert t acc. induction ops as [|[pid|pid] ops IH]; intros t acc Hp Ht; simpl in *; [done| |].
  - inversion Hp; subst. destruct (own_vmm pid t) as [t'|] eqn:E.
    + specialize (IH t' ({[pid]} ∪ acc)). destruct (vmm_run ops t') as [u|killed];
        [by apply IH, (own_vmm_holds _ t)|].
      destruct IH as (pre & q & post & -> & H); [done|by eapply own_vmm_holds|].
      by exists (Own pid :: pre), q, post.
    + exists [], pid, ops. split; [done|]. split; [|by apply kill_owned_holds].
      apply own_vmm_None in E. destruct Ht as (<- & Hpos & _). simpl. f_equal.
      apply filter_all. rewrite Forall_forall in *. intros x Hx.
      specialize (E x Hx). specialize (Hpos x Hx). lia.
  - specialize (IH (disown_vmm pid t) (acc ∖ {[pid]}) Hp (disown_vmm_holds _ _ _ Ht)).
    destruct (vmm_run ops _) as [u|killed]; [done|].
    destruct IH as (pre & q & post & -> & H). by exists (Disown pid :: pre), q, post.
Qed.

Lemma no_vmms_holds : holds no_vmms ∅.
Proof.
  split; [done|]. split; [by repeat constructor|]. intros p. split; [set_solver|].
  intros [H%elem_of_replicate ?]. lia.
Qed.
(** ** Theorems *)


(** C13: [mesh-take] cuts consistently.  In every interleaving of the snapshot
    threads and with any call failing, each node's pause has been answered, in
    order, before the first snapshot is asked for; no node is snapshotted
    twice; nothing is asked of a mesh with several servers unless the
    launcher's manifest says volatile; a failed pause ends the run without a
    snapshot; the manifest is written and the VMMs killed only when every
    node's snapshot was answered. *)
Theorem mesh_take_cut nodes manifest out_ok tr ph :
  take_run nodes manifest out_ok tr ph →
  (tr ≠ [] → may_take nodes manifest)
  ∧ (pausing_run (n_name <$> nodes) tr ph ∨ snapping_run (n_name <$> nodes) tr ph).
Proof.
  intros Hrun. split; [|by eapply take_inv_shape, take_run_inv].
  intros Hne. by destruct (take_run_allowed _ _ _ _ _ Hrun) as [?|[-> _]].
Qed.

(** [kill_mesh_vmms] kills exactly the VMM processes whose working
    directory is, component by component, the run directory followed by a
    node's name.  Links in [/proc] are absolute, so a relative [--run-dir]
    kills nothing. *)
Theorem kill_mesh_vmms_spec run_dir nodes procs :
  Forall (λ n, plain_name (n_name n)) nodes →
  (∀ pid, pid ∈ kill_mesh_vmms run_dir nodes procs ↔
     ∃ p, p ∈ procs ∧ pr_pid p = pid ∧ mesh_vmm run_dir nodes p)
  ∧ (is_absolute run_dir = false →
     Forall (λ p, ∀ cwd, pr_cwd p = Some cwd → is_absolute cwd = true) procs →
     kill_mesh_vmms run_dir nodes procs = []).
Proof.
  intros Hn. assert (∀ pid, pid ∈ kill_mesh_vmms run_dir nodes procs ↔
    ∃ p, p ∈ procs ∧ pr_pid p = pid ∧ mesh_vmm run_dir nodes p) as Hk.
  { intros pid. unfold kill_mesh_vmms, mesh_vmm. rewrite list_elem_of_fmap.
    setoid_rewrite list_elem_of_filter. setoid_rewrite andb_true_iff.
    setoid_rewrite cwd_in_nodes; [|done]. naive_solver. }
  split; [done|]. intros Hrel Hcwd. apply elem_of_nil_inv. intros pid H.
  apply Hk in H as (p & Hp & _ & _ & cwd & n & Ecwd & _ & E).
  rewrite Forall_forall in Hcwd. specialize (Hcwd p Hp cwd Ecwd).
  rewrite Hrel in E. apply (f_equal fst) in E. simpl in E. congruence.
Qed.

(** At whatever exit, [kill_owned_vmm] (and the signal handler) kills
    exactly the VMMs that were spawned and not given up; the process dies
    early only on spawning one more than the sixteen the table holds, and
    then it kills the sixteen but not the new one. *)
Theorem owned_vmms_killed ops :
  Forall (λ pid, 0 < pid) (own_pids ops) →
  match vmm_run ops no_vmms with
  | inl t => list_to_set (kill_owned_vmm t).1 = owned ops ∅ ∧ (kill_owned_vmm t).2 = no_vmms
  | inr killed => overflows ops ∅ killed
  end.
Proof.
  intros Hp. pose proof (vmm_run_holds ops no_vmms ∅ Hp no_vmms_holds) as H.
  destruct (vmm_run ops no_vmms) as [t|killed]; [|done]. split; [by apply kill_owned_holds|].
  destruct H as (Hlen & _). simpl. unfold no_vmms. rewrite <- Hlen. by apply const_fmap.
Qed.

(** ** Witnesses *)


Lemma mesh_take_cut_witness :
  let nodes := [mkNode $"server1" $"10.100.0.2"; mkNode $"server2" $"10.100.0.3"] in
  let m := mkRunManifest $"volatile" nodes in
  let tr := [Pause $"server1"; Paused $"server1"; Pause $"server2"; Paused $"server2";
             CreateSnapshot $"server2"] in
  take_run nodes (Some m) true tr (Snapping [$"server1"] [$"server2"] [])
  ∧ may_take nodes (Some m)
  ∧ (pausing_run (n_name <$> nodes) tr (Snapping [$"server1"] [$"server2"] [])
     ∨ snapping_run (n_name <$> nodes) tr (Snapping [$"server1"] [$"server2"] [])).
Proof.
  intros nodes m tr.
  assert (take_run nodes (Some m) true tr (Snapping [$"server1"] [$"server2"] [])) as H.
  { change tr with (((([] ++ [Pause $"server1"; Paused $"server1"]) ++
      [Pause $"server2"; Paused $"server2"]) ++ []) ++ [CreateSnapshot $"server2"]).
    eapply take_run_step; [|apply (take_create _ $"server2" [$"server1"] [] [] [])].
    eapply take_run_step; [|apply take_spawn].
    eapply take_run_step; [|apply take_pause].
    eapply take_run_step; [|apply take_pause].
    change (Pausing [$"server1"; $"server2"]) with (mesh_take_start nodes (Some m) true).
    apply take_run_start. }
  split; [exact H|]. destruct (mesh_take_cut nodes (Some m) true tr _ H) as [H1 H2].
  split; [apply H1; discriminate|exact H2].
Defined.

Lemma kill_mesh_vmms_spec_witness :
  let nodes := [mkNode $"server" $"10.100.0.2"] in
  let p := mkProc 7 ($"firecracker" ++ [newline]) (Some $"/tmp/run/server") None in
  let kills := kill_mesh_vmms $"/tmp/run" nodes [p] in
  kills = [7] ∧ (7 ∈ kills ↔ ∃ q, q ∈ [p] ∧ pr_pid q = 7 ∧ mesh_vmm $"/tmp/run" nodes q)
  ∧ kill_mesh_vmms $"run" nodes [p] = [].
Proof.
  intros nodes p kills.
  assert (Forall (λ n, plain_name (n_name n)) nodes) as Hn.
  { constructor; [|constructor]. split; [discriminate|]. split; [discriminate|].
    apply (bool_decide_unpack _). by vm_compute. }
  split; [by vm_compute|]. split.
  - exact (proj1 (kill_mesh_vmms_spec $"/tmp/run" nodes [p] Hn) 7).
  - apply (proj2 (kill_mesh_vmms_spec $"run" nodes [p] Hn)); [by vm_compute|].
    constructor; [|constructor]. intros cwd [= <-]. by vm_compute.
Defined.

Lemma owned_vmms_killed_witness :
  let ops := [Own 10; Own 11; Disown 10; Own 12] in
  (∃ t, vmm_run ops no_vmms = inl t ∧ list_to_set (C:=gset Z) (kill_owned_vmm t).1 = owned ops ∅)
  ∧ overflows (Own <$> [1;2;3;4;5;6;7;8;9;10;11;12;13;14;15;16;17]) ∅ [1;2;3;4;5;6;7;8;9;10;11;12;13;14;15;16].
Proof.
  intros ops. split.
  - pose proof (owned_vmms_killed ops) as H.
    assert (Forall (λ pid, 0 < pid) (own_pids ops)) as Hp by (repeat constructor).
    specialize (H Hp). destruct (vmm_run ops no_vmms) as [t|k] eqn:E; [|discriminate].
    exists t. split; [reflexivity|exact (proj1 H)].
  - refine (owned_vmms_killed (Own <$> [1;2;3;4;5;6;7;8;9;10;11;12;13;14;15;16;17]) _).
    repeat constructor.
Defined.

(** The launcher's own manifest, as [builtins.toJSON] writes it. *)
Example launcher_manifest :
  let q := [quote] in
  parse_run_manifest
    ($"{" ++ q ++ $"nodes" ++ q ++ $":[{" ++ q ++ $"ip" ++ q ++ $":" ++ q ++ $"10.100.0.2" ++ q
     ++ $"," ++ q ++ $"name" ++ q ++ $":" ++ q ++ $"server1" ++ q ++ $"}]," ++ q ++ $"posture" ++ q
     ++ $":" ++ q ++ $"volatile" ++ q ++ $"}")
  = Ok (mkRunManifest $"volatile" [mkNode $"server1" $"10.100.0.2"]).
Proof. by vm_compute. Qed.

(** Past index 253 the conventional address is none. *)
Example address_overflow : conventional_ip $"agent300" 1 = Some $"10.100.0.302".
Proof. by vm_compute. Qed.
