(* ===== verification/SnapSlots.v ===== *)
(** * The table of VMMs, one instruction at a time ([rust/kubenyx-snap/src/lib.rs])

    [own_vmm], [disown_vmm] and the sweep of [kill_owned_vmm] and [on_signal]
    are loops of atomic instructions on sixteen cells, and the threads of
    mesh-resume and the signal handler run them at the same time.  Here each
    step is one [compare_exchange] or [swap]: alone, a call does what its
    atomic counterpart of SnapMesh says; together, registrations happen one
    after the other at their successful exchange, and a sweep kills all that
    was registered when it began. *)

From S2P Require Import Prelude Text SnapIdentity SnapMesh.

(** ** Definitions *)

(** A call under way, at its next cell; a registration that found a cell, or
    none; a sweep that ended, with the pids it killed. *)
Inductive TableCall :=
| Owning (pid : Z) (i : nat) | Registered (pid : Z) | TableFull (pid : Z)
| Disowning (pid : Z) (i : nat) | Disowned (pid : Z)
| Sweeping (i : nat) (killed : list Z) | Swept (killed : list Z).

Definition own_call (pid : Z) : TableCall := Owning pid 0.
Definition disown_call (pid : Z) : TableCall := Disowning pid 0.
Definition sweep_call : TableCall := Sweeping 0 [].

(** The next instruction of a call, and the loop's next turn. *)
Definition table_step (c : TableCall) (t : Slots) : TableCall * Slots :=
  match c with
  | Owning pid i =>
      match t !! i with
      | Some s => if s =? 0 then (Registered pid, <[i := pid]> t) else (Owning pid (S i), t)
      | None => (TableFull pid, t)
      end
  | Disowning pid i =>
      match t !! i with
      | Some s => (Disowning pid (S i), if s =? pid then <[i := 0]> t else t)
      | None => (Disowned pid, t)
      end
  | Sweeping i killed =>
      match t !! i with
      | Some s => (Sweeping (S i) (if 0 <? s then killed ++ [s] else killed), <[i := 0]> t)
      | None => (Swept killed, t)
      end
  | Registered _ | TableFull _ | Disowned _ | Swept _ => (c, t)
  end.

(** The calls of several threads on one table: any of them takes its next
    step. *)
Record Concurrent := mkConcurrent { cc_calls : list TableCall; cc_table : Slots }.

Inductive conc_step : Concurrent → Concurrent → Prop :=
| conc_at i c y :
    cc_calls y !! i = Some c →
    conc_step y (mkConcurrent (<[i := (table_step c (cc_table y)).1]> (cc_calls y)) (table_step c (cc_table y)).2).

(** ** Specifications *)

(** One call alone, for a number of steps. *)
Fixpoint alone (n : nat) (c : TableCall) (t : Slots) : TableCall * Slots :=
  match n with
  | O => (c, t)
  | S n => let '(c, t) := table_step c t in alone n c t
  end.

(** What is registered. *)
Definition live_pids (t : Slots) : list Z := filter (λ s, s ≠ 0) t.

Definition registered (cs : list TableCall) : list Z :=
  omap (λ c, match c with Registered pid => Some pid | _ => None end) cs.

(** Calls that register VMMs, each under a pid of a process. *)
Definition registers (c : TableCall) : Prop := ∃ pid, 0 < pid ∧ c = own_call pid.

(** The atomic registrations in an order. *)
Fixpoint own_all (pids : list Z) (t : Slots) : option Slots :=
  match pids with [] => Some t | pid :: pids => own_vmm pid t ≫= own_all pids end.

(** ** Lemmas *)

(** *** A call alone *)

Lemma own_vmm_app pid a b : Forall (λ s, s ≠ 0) a → own_vmm pid (a ++ b) = app a <$> own_vmm pid b.
Proof.
  induction 1 as [|s a Hs _ IH]; simpl; [by destruct (own_vmm pid b)|].
  destruct (Z.eqb_spec s 0); [done|]. rewrite IH. by destruct (own_vmm pid b).
Qed.

(** A registration that has passed only taken cells claims the first free one. *)
Lemma claim_is_own pid t i : Forall (λ s, s ≠ 0) (take i t) → t !! i = Some 0 → own_vmm pid t = Some (<[i := pid]> t).
Proof.
  intros Ht Hi. rewrite <- (take_drop_middle t i 0 Hi) at 1. rewrite own_vmm_app by done. cbn [own_vmm].
  rewrite Z.eqb_refl. cbn [fmap option_fmap option_map]. f_equal.
  by rewrite insert_take_drop by by eapply lookup_lt_Some.
Qed.

Lemma full_no_own pid t : Forall (λ s, s ≠ 0) t → own_vmm pid t = None.
Proof. intros H. rewrite <- (app_nil_r t), own_vmm_app by done. done. Qed.

Lemma take_S_taken t i s : Forall (λ s, s ≠ 0) (take i t) → t !! i = Some s → s ≠ 0 → Forall (λ s, s ≠ 0) (take (S i) t).
Proof. intros Ht Hi Hs. rewrite (take_S_r _ _ s Hi). apply Forall_app. auto. Qed.

Lemma alone_done c t n : (∀ t, table_step c t = (c, t)) → alone n c t = (c, t).
Proof. intros H. induction n as [|n IH]; simpl; [done|]. by rewrite H. Qed.

Lemma alone_S n c t : alone (S n) c t = alone n (table_step c t).1 (table_step c t).2.
Proof. cbn [alone]. by destruct (table_step c t). Qed.

Lemma snoc_app {A} (a : list A) s b : a ++ s :: b = (a ++ [s]) ++ b.
Proof. by rewrite <- app_assoc. Qed.

Lemma length_snoc {A} (a : list A) s : S (length a) = length (a ++ [s]).
Proof. rewrite length_app. cbn [length]. lia. Qed.

Lemma alone_own pid b a :
  Forall (λ s, s ≠ 0) a →
  alone (S (length b)) (Owning pid (length a)) (a ++ b) =
  match own_vmm pid b with Some b' => (Registered pid, a ++ b') | None => (TableFull pid, a ++ b) end.
Proof.
  revert a. induction b as [|s b IH]; intros a Ha; rewrite alone_S; cbn [table_step length own_vmm].
  - by rewrite lookup_ge_None_2 by (rewrite app_nil_r; lia).
  - rewrite list_lookup_middle by done. destruct (Z.eqb_spec s 0) as [->|Hs]; cbn [fst snd].
    + rewrite insert_app_r_alt, Nat.sub_diag by lia. by rewrite alone_done.
    + rewrite (length_snoc a s), (snoc_app a s b), IH by (apply Forall_app; auto).
      destruct (own_vmm pid b); cbn [fmap option_fmap option_map]; by rewrite <- ?app_assoc.
Qed.

Lemma alone_disown pid b a :
  alone (S (length b)) (Disowning pid (length a)) (a ++ b) = (Disowned pid, a ++ disown_vmm pid b).
Proof.
  revert a. induction b as [|s b IH]; intros a; rewrite alone_S; cbn [table_step length].
  - by rewrite lookup_ge_None_2 by (rewrite app_nil_r; lia).
  - rewrite list_lookup_middle by done. unfold disown_vmm. rewrite fmap_cons. fold (disown_vmm pid b).
    cbn [fst snd]. set (s' := if s =? pid then 0 else s).
    rewrite (snoc_app a s'), <- (IH (a ++ [s'])), (length_snoc a s'), <- snoc_app. f_equal. subst s'.
    destruct (s =? pid); [|done]. by rewrite insert_app_r_alt, Nat.sub_diag by lia.
Qed.

Lemma alone_sweep b a ks :
  alone (S (length b)) (Sweeping (length a) ks) (a ++ b) =
  (Swept (ks ++ (kill_owned_vmm b).1), a ++ (kill_owned_vmm b).2).
Proof.
  revert a ks. induction b as [|s b IH]; intros a ks; rewrite alone_S; cbn [table_step length].
  - rewrite lookup_ge_None_2 by (rewrite app_nil_r; lia). cbn. by rewrite !app_nil_r.
  - rewrite list_lookup_middle by done. cbn [fst snd]. rewrite insert_app_r_alt, Nat.sub_diag by lia.
    change (<[0%nat := 0]> (s :: b)) with (0 :: b).
    rewrite (length_snoc a 0), (snoc_app a 0 b), IH. unfold kill_owned_vmm. cbn [fst snd fmap list_fmap].
    rewrite filter_cons. destruct (Z.ltb_spec 0 s); case_decide; try lia; by rewrite <- ?app_assoc.
Qed.

(** *** Calls together *)

Lemma live_insert t i s s' :
  t !! i = Some s → s' :: live_pids t ≡ₚ (if decide (s ≠ 0) then [s] else []) ++ live_pids (<[i := s']> t) ∨ s' = 0.
Proof.
  intros Hi. destruct (decide (s' = 0)) as [|Hs']; [by right|]. left.
  rewrite insert_take_drop by by eapply lookup_lt_Some. rewrite <- (take_drop_middle t i s Hi) at 1.
  unfold live_pids. rewrite !filter_app, !filter_cons. destruct (decide (s' ≠ 0)); [|done].
  destruct (decide (s ≠ 0)); simpl; solve_Permutation.
Qed.

Lemma live_claim t i pid : t !! i = Some 0 → pid ≠ 0 → live_pids (<[i := pid]> t) ≡ₚ pid :: live_pids t.
Proof. intros Hi Hp. destruct (live_insert t i 0 pid Hi) as [H|]; [|done]. by rewrite H. Qed.

Lemma live_clear t i s : t !! i = Some s → live_pids t ≡ₚ (if decide (s ≠ 0) then [s] else []) ++ live_pids (<[i := 0]> t).
Proof.
  intros Hi. rewrite insert_take_drop by by eapply lookup_lt_Some. rewrite <- (take_drop_middle t i s Hi) at 1.
  unfold live_pids. rewrite !filter_app, !filter_cons. simpl.
  destruct (decide (s ≠ 0)); simpl; solve_Permutation.
Qed.

Lemma registered_app a b : registered (a ++ b) = registered a ++ registered b.
Proof. apply omap_app. Qed.

Lemma registered_cons c cs : registered (c :: cs) = registered [c] ++ registered cs.
Proof. apply (registered_app [c] cs). Qed.

(** The registered pids, when one call takes a step. *)
Lemma registered_insert cs i c c' :
  cs !! i = Some c → registered [c] ++ registered (<[i := c']> cs) ≡ₚ registered [c'] ++ registered cs.
Proof.
  intros Hi. rewrite insert_take_drop by by eapply lookup_lt_Some.
  assert (registered cs = registered (take i cs) ++ registered [c] ++ registered (drop (S i) cs)) as ->.
  { by rewrite <- registered_cons, <- registered_app, take_drop_middle. }
  rewrite registered_app, (registered_cons c'). solve_Permutation.
Qed.

(** What a registration under way knows: the cells it passed were taken. *)
Definition owning_ok (t : Slots) (c : TableCall) : Prop :=
  match c with
  | Owning pid i => 0 < pid ∧ Forall (λ s, s ≠ 0) (take i t)
  | Registered pid => 0 < pid
  | TableFull pid => 0 < pid ∧ Forall (λ s, s ≠ 0) t
  | _ => False
  end.

Lemma own_all_snoc pids pid t : own_all (pids ++ [pid]) t = own_all pids t ≫= own_vmm pid.
Proof.
  revert t. induction pids as [|p pids IH]; intros t; cbn [app own_all].
  - cbn. by destruct (own_vmm pid t).
  - destruct (own_vmm p t); [apply IH|done].
Qed.

Lemma taken_kept t n i pid :
  t !! i = Some 0 → Forall (λ s, s ≠ 0) (take n t) → Forall (λ s, s ≠ 0) (take n (<[i := pid]> t)).
Proof.
  intros Hi Hn. destruct (decide (n ≤ i)%nat); [by rewrite take_insert_ge|]. exfalso.
  rewrite Forall_lookup in Hn. eapply (Hn i); [|done]. rewrite lookup_take_lt; [done|lia].
Qed.

Lemma owning_ok_kept t i pid c : t !! i = Some 0 → owning_ok t c → owning_ok (<[i := pid]> t) c.
Proof.
  intros Hi. destruct c as [q j|q|q| | | |]; cbn [owning_ok]; [|done| |done..].
  - intros [? ?]. by split; [|apply taken_kept].
  - intros [_ Ht]. rewrite Forall_lookup in Ht. by destruct (Ht i 0).
Qed.

(** Registrations only: the table is that of the atomic registrations, in the
    order of their exchanges. *)
Lemma owning_step t0 y y' :
  conc_step y y' →
  (∃ order, order ≡ₚ registered (cc_calls y) ∧ own_all order t0 = Some (cc_table y)
     ∧ Forall (owning_ok (cc_table y)) (cc_calls y)) →
  ∃ order, order ≡ₚ registered (cc_calls y') ∧ own_all order t0 = Some (cc_table y')
     ∧ Forall (owning_ok (cc_table y')) (cc_calls y').
Proof.
  intros Hstep (order & Ho & Ht & Hcs). destruct Hstep as [i c y Hi].
  pose proof (Forall_lookup_1 _ _ _ _ Hcs Hi) as Hc. set (t := cc_table y) in *. cbn [cc_calls cc_table].
  destruct c as [pid j|pid|pid| | | |]; cbn [owning_ok] in Hc; try done; cbn [table_step];
    [|cbn [fst snd]; rewrite list_insert_id by done; by exists order..].
  destruct Hc as [Hpid Htaken]. destruct (t !! j) as [s|] eqn:Hj.
  - destruct (Z.eqb_spec s 0) as [->|Hs]; cbn [fst snd].
    + exists (order ++ [pid]). split.
      { rewrite (Permutation_app_comm order), Ho. symmetry. exact (registered_insert _ _ _ (Registered pid) Hi). }
      split; [rewrite own_all_snoc, Ht; by apply claim_is_own|].
      apply Forall_insert; [|by cbn]. eapply Forall_impl; [done|]. intros. by apply owning_ok_kept.
    + exists order. split; [by rewrite Ho, <- (registered_insert _ _ _ (Owning pid (S j)) Hi)|].
      split; [done|]. apply Forall_insert; [done|]. split; [done|]. by eapply take_S_taken.
  - exists order. split; [by rewrite Ho, <- (registered_insert _ _ _ (TableFull pid) Hi)|].
    split; [done|]. apply Forall_insert; [done|]. split; [done|].
    apply lookup_ge_None in Hj. by rewrite take_ge in Htaken.
Qed.

Lemma registers_none cs : Forall registers cs → registered cs = [].
Proof. induction 1 as [|c cs (pid & _ & ->) _ IH]; [done|]. by rewrite registered_cons, IH. Qed.

Lemma registers_ok t cs : Forall registers cs → Forall (owning_ok t) cs.
Proof. intros H. eapply Forall_impl; [done|]. by intros c (pid & Hp & ->). Qed.

(** *** A sweep among registrations *)

(** Registrations, without what the cells say. *)
Definition owner (c : TableCall) : Prop :=
  match c with Owning pid _ | Registered pid | TableFull pid => 0 < pid | _ => False end.

(** The accounts of a sweep over the table that was [t0]: nothing is lost, the
    cells behind it are cleared of what [t0] had, the cells ahead still hold
    it. *)
Definition sweep_ok (t0 t : Slots) (rest : list TableCall) (c : TableCall) : Prop :=
  match c with
  | Sweeping i ks =>
      live_pids t0 ++ registered rest ≡ₚ ks ++ live_pids t ∧ length t = length t0
      ∧ Forall (λ s, 0 ≤ s) t
      ∧ ∀ j s, t0 !! j = Some s → 0 < s → if decide (j < i)%nat then s ∈ ks else t !! j = Some s
  | Swept ks => live_pids t0 ++ registered rest ≡ₚ ks ++ live_pids t ∧ ∀ s, s ∈ t0 → 0 < s → s ∈ ks
  | _ => False
  end.

Lemma sweep_advances t0 t rest c :
  sweep_ok t0 t rest c → sweep_ok t0 (table_step c t).2 rest (table_step c t).1.
Proof.
  destruct c as [| | | | |i ks|ks]; try done. intros (Hp & Hlen & Hpos & Hj). cbn [table_step].
  destruct (t !! i) as [s|] eqn:Hi; cbn [fst snd sweep_ok].
  - split; [|split; [by rewrite length_insert|split; [by apply Forall_insert|]]].
    + rewrite Hp, (live_clear t i s Hi). pose proof (Forall_lookup_1 _ _ _ _ Hpos Hi) as Hs. cbv beta in Hs.
      destruct (decide (s ≠ 0)), (Z.ltb_spec 0 s); try lia; rewrite <- ?app_assoc; reflexivity.
    + intros j s' H0 Hs'. specialize (Hj j s' H0 Hs').
      destruct (decide (j < i)%nat), (decide (j < S i)%nat); try lia.
      * case_match; [|done]. apply elem_of_app. by left.
      * assert (j = i) as -> by lia. rewrite Hi in Hj. injection Hj as ->.
        destruct (Z.ltb_spec 0 s'); [|lia]. apply elem_of_app. right. apply list_elem_of_here.
      * by rewrite list_lookup_insert_ne by lia.
  - split; [done|]. intros s [j H0]%list_elem_of_lookup Hs. specialize (Hj j s H0 Hs).
    apply lookup_ge_None in Hi. apply lookup_lt_Some in H0. rewrite decide_True in Hj by lia. done.
Qed.

(** Another call's step between those of the sweep. *)
Lemma sweep_undisturbed t0 t rest k c x :
  rest !! k = Some c → owner c → Forall owner rest → sweep_ok t0 t rest x →
  sweep_ok t0 (table_step c t).2 (<[k := (table_step c t).1]> rest) x ∧ owner (table_step c t).1.
Proof.
  intros Hk Hc Hrest Hx. destruct c as [pid i|pid|pid| | | |]; cbn in Hc; try done; cbn [table_step].
  2, 3: cbn [fst snd]; by rewrite list_insert_id by done.
  assert (∀ c', registered [c'] = [] → registered (<[k := c']> rest) ≡ₚ registered rest) as Hsame.
  { intros c' Hc'. pose proof (registered_insert _ _ _ c' Hk) as H. by rewrite Hc' in H. }
  pose proof (registered_insert _ _ _ (Registered pid) Hk) as Hreg. change (registered [Owning pid i]) with (@nil Z) in Hreg.
  destruct (t !! i) as [s|] eqn:Hi; [destruct (Z.eqb_spec s 0) as [->|Hs]|]; cbn [fst snd].
  - split; [|done]. assert (∀ ks, live_pids t0 ++ registered rest ≡ₚ ks ++ live_pids t →
      live_pids t0 ++ registered (<[k := Registered pid]> rest) ≡ₚ ks ++ live_pids (<[i := pid]> t)) as Hp.
    { intros ks H. cbn [app] in Hreg. rewrite Hreg, (live_claim _ _ _ Hi) by lia.
      change (registered [Registered pid]) with [pid]. cbn [app]. by rewrite <- !Permutation_middle, H. }
    destruct x as [| | | | |n ks|ks]; try done; cbn [sweep_ok] in *.
    + destruct Hx as (H & Hlen & Hpos & Hj). split; [auto|]. split; [by rewrite length_insert|].
      split; [apply Forall_insert; [done|lia]|]. intros j s H0 Hs. specialize (Hj j s H0 Hs).
      case_decide; [done|]. rewrite list_lookup_insert_ne; [done|]. intros ->. rewrite Hi in Hj. injection Hj. lia.
    + destruct Hx as [H ?]. auto.
  - split; [|done]. destruct x as [| | | | |n ks|ks]; try done; cbn [sweep_ok] in *; by rewrite Hsame.
  - split; [|done]. destruct x as [| | | | |n ks|ks]; try done; cbn [sweep_ok] in *; by rewrite Hsame.
Qed.

Lemma sweep_step t0 y y' :
  conc_step y y' →
  (∃ x rest, cc_calls y = x :: rest ∧ Forall owner rest ∧ sweep_ok t0 (cc_table y) rest x) →
  ∃ x rest, cc_calls y' = x :: rest ∧ Forall owner rest ∧ sweep_ok t0 (cc_table y') rest x.
Proof.
  intros Hstep (x & rest & Hcs & Hrest & Hx). destruct Hstep as [i c y Hi]. cbn [cc_calls cc_table].
  rewrite Hcs in Hi |- *. destruct i as [|k].
  - injection Hi as <-. exists (table_step x (cc_table y)).1, rest. split; [done|]. split; [done|]. by apply sweep_advances.
  - cbn in Hi. pose proof (Forall_lookup_1 _ _ _ _ Hrest Hi) as Hc.
    destruct (sweep_undisturbed _ _ _ _ _ _ Hi Hc Hrest Hx) as [? ?].
    exists x, (<[k := (table_step c (cc_table y)).1]> rest). split; [done|]. split; [by apply Forall_insert|done].
Qed.

(** ** The properties *)

(** Each call run alone is the atomic operation the rest of the model
    uses: [own_vmm] claims the first free cell or finds none, [disown_vmm]
    clears every cell of the pid, a sweep empties the table and kills its
    positive pids; and registrations that run together, their exchanges
    interleaved in any way, leave the table of the same atomic registrations
    made one after the other in some order, where a call that found no cell
    could not have been served. *)
Theorem vmm_calls_atomic :
  (∀ pid t, alone (S (length t)) (own_call pid) t =
     match own_vmm pid t with Some t' => (Registered pid, t') | None => (TableFull pid, t) end)
  ∧ (∀ pid t, alone (S (length t)) (disown_call pid) t = (Disowned pid, disown_vmm pid t))
  ∧ (∀ t, alone (S (length t)) sweep_call t = (Swept (kill_owned_vmm t).1, (kill_owned_vmm t).2))
  ∧ ∀ cs t0 y, Forall registers cs → rtc conc_step (mkConcurrent cs t0) y →
     ∃ order, order ≡ₚ registered (cc_calls y) ∧ own_all order t0 = Some (cc_table y)
     ∧ ∀ pid, TableFull pid ∈ cc_calls y → own_vmm pid (cc_table y) = None.
Proof.
  split; [intros pid t; by apply (alone_own pid t [])|].
  split; [intros pid t; by apply (alone_disown pid t [])|].
  split; [intros t; by apply (alone_sweep t [] [])|].
  intros cs t0 y Hcs Hrun.
  assert (∃ order, order ≡ₚ registered (cc_calls y) ∧ own_all order t0 = Some (cc_table y)
     ∧ Forall (owning_ok (cc_table y)) (cc_calls y)) as (order & Ho & Ht & Hok).
  { eapply (rtc_ind_r (λ y, ∃ order, order ≡ₚ registered (cc_calls y) ∧ own_all order t0 = Some (cc_table y)
      ∧ Forall (owning_ok (cc_table y)) (cc_calls y))); [|by intros; eapply owning_step|exact Hrun].
    exists []. cbn. rewrite registers_none by done. split; [done|]. split; [done|]. by apply registers_ok. }
  exists order. split; [done|]. split; [done|]. intros pid Hpid.
  rewrite Forall_forall in Hok. apply Hok in Hpid as [_ Hfull]. by apply full_no_own.
Qed.

(** C19: a sweep (an exit's [kill_owned_vmm], or the signal handler's) that
    runs while other threads register their VMMs: when it has ended it has
    killed every VMM that was registered when it began; every pid that was in
    the table or was registered meanwhile was killed or is still in the
    table; so a VMM the sweep leaves was registered after the sweep began,
    behind it. *)
Theorem sweep_race cs t0 ks calls t :
  Forall registers cs → Forall (λ s, 0 ≤ s) t0 →
  rtc conc_step (mkConcurrent (sweep_call :: cs) t0) (mkConcurrent (Swept ks :: calls) t) →
  live_pids t0 ⊆ ks
  ∧ live_pids t0 ++ registered calls ≡ₚ ks ++ live_pids t
  ∧ (NoDup (live_pids t0 ++ registered calls) →
     ∀ pid, pid ∈ live_pids t → pid ∈ registered calls ∧ pid ∉ live_pids t0 ∧ pid ∉ ks).
Proof.
  intros Hcs Ht0 Hrun.
  set (inv y := ∃ x rest, cc_calls y = x :: rest ∧ Forall owner rest ∧ sweep_ok t0 (cc_table y) rest x).
  assert (inv (mkConcurrent (Swept ks :: calls) t)) as (x & rest & [= <- <-] & _ & Hp & Hks).
  { eapply (rtc_ind_r inv); [|by intros; eapply sweep_step|exact Hrun].
    exists sweep_call, cs. split; [done|]. split.
    { eapply Forall_impl; [done|]. by intros c (pid & ? & ->). }
    cbn. rewrite registers_none by done. rewrite app_nil_r. split; [done|]. split; [done|]. split; [done|].
    intros j s H0 Hs. done. }
  cbn [cc_table] in *. assert (live_pids t0 ⊆ ks) as Hsub.
  { intros s [Hs Hin]%list_elem_of_filter. apply Hks; [done|].
    rewrite Forall_forall in Ht0. specialize (Ht0 s Hin). lia. }
  split; [done|]. split; [done|]. intros Hnd pid Hpid. rewrite Hp in Hnd.
  apply NoDup_app in Hnd as (_ & Hdis & _).
  assert (pid ∉ ks) as Hk by (intros H; by apply (Hdis pid)).
  assert (pid ∉ live_pids t0) by (intros H; by apply Hk, Hsub).
  assert (pid ∈ live_pids t0 ++ registered calls) as Hin%elem_of_app by (rewrite Hp; apply elem_of_app; by right).
  destruct Hin; [done|]. auto.
Qed.

(** ** Examples *)

(** Two VMMs in the table, a third thread registering: the sweep clears the
    first cell, the third VMM claims it, and the sweep goes on without it. *)
Fixpoint conc_run (sched : list nat) (y : Concurrent) : Concurrent :=
  match sched with
  | [] => y
  | i :: sched =>
      match cc_calls y !! i with
      | Some c => conc_run sched (mkConcurrent (<[i := (table_step c (cc_table y)).1]> (cc_calls y)) (table_step c (cc_table y)).2)
      | None => conc_run sched y
      end
  end.

Lemma conc_run_steps sched y : rtc conc_step y (conc_run sched y).
Proof.
  revert y. induction sched as [|i sched IH]; intros y; cbn [conc_run]; [done|].
  destruct (cc_calls y !! i) as [c|] eqn:E; [|done]. eapply rtc_l; [by apply conc_at|]. done.
Qed.

Lemma sweep_race_witness :
  rtc conc_step (mkConcurrent [sweep_call; own_call 103] ([101; 102] ++ replicate 14 0))
    (mkConcurrent [Swept [101; 102]; Registered 103] (103 :: replicate 15 0))
  ∧ live_pids ([101; 102] ++ replicate 14 0) ⊆ [101; 102].
Proof.
  assert (rtc conc_step (mkConcurrent [sweep_call; own_call 103] ([101; 102] ++ replicate 14 0))
    (mkConcurrent [Swept [101; 102]; Registered 103] (103 :: replicate 15 0))) as H.
  { apply (conc_run_steps (0 :: 1 :: replicate 16 0)%nat). }
  split; [exact H|]. destruct (sweep_race [own_call 103] ([101; 102] ++ replicate 14 0) [101; 102] [Registered 103] (103 :: replicate 15 0))
    as [Hk _]; [|by apply (bool_decide_unpack _); vm_compute|exact H|exact Hk].
  constructor; [|done]. by exists 103.
Defined.
