(* ===== verification/SnapVerbs.v ===== *)
(** * The single-VM verbs ([rust/kubenyx-snap/src/lib.rs])

    [take], [resume] and [cycle] as computations over what they do to the
    outside: the table of owned VMMs, the VMMs alive, and the trace of actions,
    each of which may fail.  The host (files, [/proc], [$PATH], SHA-256) is a
    group of section variables; the answer to each action comes from a list,
    and every theorem is for all of them.  Also what the mesh verbs' threads
    do to the table when they restore in parallel. *)

From S2P Require Import Prelude Text Paths SnapIdentity SnapMesh.

(** ** Actions *)

Inductive Action :=
| AMkdir (path : text)
| ACreateFile (path : text)
| ASpawn (argv : list text)
| AWaitMarker (log marker : text) (secs : Z)
| AWaitSock (sock : text)
| AApi (sock method path body : text)
| APokes (addr : text)
| AWaitApi (addr : text)
| AWrite (path body : text).

(** What the world answers: done, failed (an I/O error, a timeout, a status
    outside 2xx), or the pid of the process spawned. *)
Inductive Answer := Done | Failed | Pid (pid : Z).

(** How a verb ends abnormally: [die], with its message, or a panic, which
    does not go through [die]. *)
Inductive Abort := Die (msg : text) | Panicked.

Record World := mkWorld {
  w_table : Slots; w_alive : list Z; w_trace : list Action; w_answers : list Answer }.

Abbreviation V := (M Abort World).

Definition die {A} (msg : text) : V A := M_raise (Die msg).
Definition or_die {A} (r : result text A) : V A :=
  match r with Ok a => M_ret a | Err msg => die msg end.

Definition note (a : Action) (w : World) : World :=
  mkWorld (w_table w) (w_alive w) (w_trace w ++ [a]) (tail (w_answers w)).

(** An action whose outcome nobody looks at. *)
Definition ignore (a : Action) : V unit :=
  M_modify (λ w, mkWorld (w_table w) (w_alive w) (w_trace w ++ [a]) (w_answers w)).

(** An action that must succeed. *)
Definition perform (a : Action) (msg : text) : V unit := λ w,
  match w_answers w with
  | Done :: _ => (Ok tt, note a w)
  | _ => (Err (Die msg), note a w)
  end.

(** [wait_marker], its answer being whether the marker was there in time; in
    [windows] an empty marker is a panic once the log can be read. *)
Definition await_marker (log marker : text) (secs : Z) (msg : text) : V unit := λ w,
  let a := AWaitMarker log marker secs in
  match w_answers w with
  | Done :: _ => ((if decide (marker = []) then Err Panicked else Ok tt), note a w)
  | _ => (Err (Die msg), note a w)
  end.

(** [Command::spawn], and [own_vmm] on the child's pid. *)
Definition spawn (argv : list text) (msg : text) : V Z := λ w,
  let w' := note (ASpawn argv) w in
  match w_answers w with
  | Pid pid :: _ => (Ok pid, mkWorld (w_table w') (w_alive w' ++ [pid]) (w_trace w') (w_answers w'))
  | _ => (Err (Die msg), w')
  end.

Definition own (pid : Z) : V unit := λ w,
  match own_vmm pid (w_table w) with
  | Some t => (Ok tt, mkWorld t (w_alive w) (w_trace w) (w_answers w))
  | None => (Err (Die ($"more than 16 owned VMMs " ++ dash ++ $" raise OWNED_MAX")), w)
  end.

Definition kill_wait (pid : Z) : V unit :=
  M_modify (λ w, mkWorld (w_table w) (filter (λ p, p ≠ pid) (w_alive w)) (w_trace w) (w_answers w)).

Definition disown (pid : Z) : V unit :=
  M_modify (λ w, mkWorld (disown_vmm pid (w_table w)) (w_alive w) (w_trace w) (w_answers w)).

(** The VMMs alive once the process is gone: [die] kills the owned ones, a
    return and a panic do not. *)
Definition survivors {A} (r : result Abort A) (w : World) : list Z :=
  match r with
  | Err (Die _) => filter (λ p, p ∉ (kill_owned_vmm (w_table w)).1) (w_alive w)
  | _ => w_alive w
  end.

(** [api_expect]: one call to the firecracker API. *)
Definition api_expect (sock method path body : text) : V unit :=
  perform (AApi sock method path body) (method ++ $" " ++ path).

Definition paused_body : text := $"{" ++ jstr $"state" ++ $":" ++ jstr $"Paused" ++ $"}".
Definition resumed_body : text := $"{" ++ jstr $"state" ++ $":" ++ jstr $"Resumed" ++ $"}".
Definition create_body (out : text) : text :=
  $"{" ++ jstr $"snapshot_type" ++ $":" ++ jstr $"Full"
  ++ $"," ++ jstr $"snapshot_path" ++ $":" ++ jstr (path_join out $"snap.vmstate")
  ++ $"," ++ jstr $"mem_file_path" ++ $":" ++ jstr (path_join out $"snap.mem") ++ $"}".
Definition load_body (snapshot : text) : text :=
  $"{" ++ jstr $"snapshot_path" ++ $":" ++ jstr (path_join snapshot $"snap.vmstate")
  ++ $"," ++ jstr $"mem_backend" ++ $":{" ++ jstr $"backend_type" ++ $":" ++ jstr $"File"
  ++ $"," ++ jstr $"backend_path" ++ $":" ++ jstr (path_join snapshot $"snap.mem")
  ++ $"}," ++ jstr $"resume_vm" ++ $":true}".

Definition pause (sock : text) : V unit := api_expect sock $"PATCH" $"/vm" paused_body.
Definition create_snapshot (sock out : text) : V unit :=
  api_expect sock $"PUT" $"/snapshot/create" (create_body out).

(** ** The verbs *)

Section host.
(** File system: whether a path exists, is a file, its contents as text, its
    canonical form. *)
Variables (exists_ is_file : text → bool) (read canonicalize : text → option text).
(** Processes: what [/proc] lists, the target of [exe], the command line; the
    current directory and [$PATH]. *)
Variables (procs : list Proc) (exe_link : Z → option text) (cmdline : Z → option (list text)).
Variables (current_dir : option text) (path_dirs : option (list text)).
Variables (cpuinfo : option text) (sha256 : text → bytes).

Definition cpu_fingerprint : result text text :=
  let? raw := of_option $"read /proc/cpuinfo" cpuinfo in Ok (cpu_fingerprint_from raw).

Definition resolve_exe (name : text) : option text :=
  path ← (if decide (ch "/" ∈ name) then Some name
          else dirs ← path_dirs;
               head (filter (λ p, is_file p = true) ((λ d, path_join d name) <$> dirs)));
  canonicalize path.

Definition vmm_exe_of (pid : Z) : option text :=
  s ← exe_link pid;
  if split_once_str $"firecracker" s is Some _ then Some s else None.

(** What [take] records, from the VMM found: its binary, and the template its
    command line names. *)
Definition take_identity (closure : option text) (vmm : option (Z * text)) : result text SnapIdentity :=
  let? template := match vmm with
                   | Some (pid, _) => vmm_cpu_template sha256 (cmdline pid) read
                   | None => Ok None
                   end in
  let? fingerprint := cpu_fingerprint in
  let '(cpu, cpu_host) := take_cpu_identity fingerprint template in
  Ok (mkIdentity closure (snd <$> vmm) cpu cpu_host).

Definition cmd_take_attached (flags : list text) : V text :=
  let* sock := or_die (flags_get $"--sock" flags) in
  let sock := default $"kubenyx.sock" sock in
  if negb (exists_ sock) then
    die (sock ++ $" not found " ++ dash ++ $" either run from the directory the VM was started in, "
         ++ $"pass --sock, or pass --runner to boot a fresh VM instead")
  else
    let* out := or_die (flags_get $"--out" flags) in
    let out := default $"snapshot" out in
    do* perform (AMkdir out) ($"mkdir " ++ out) in
    let* out := or_die (of_option $"canonicalize" (canonicalize out)) in
    do* pause sock in
    do* create_snapshot sock out in
    do* api_expect sock $"PATCH" $"/vm" resumed_body in
    let vmm := (canonicalize sock ≫= path_parent) ≫= λ d, find_vmm_by_cwd (canonicalize d) procs in
    let* identity := or_die (take_identity None vmm) in
    do* perform (AWrite (path_join out $"manifest") (identity_lines identity)) $"write manifest" in
    M_ret out.

Definition parse_u64 (v msg : text) : V Z := or_die (of_option msg (parse_unsigned u64_max v)).

Definition cmd_take (flags : list text) : V text :=
  let* runner := or_die (flags_get $"--runner" flags) in
  match runner with
  | None => cmd_take_attached flags
  | Some runner =>
      let* out := or_die (flags_get $"--out" flags) in
      let out := default $"snapshot" out in
      let* marker := or_die (flags_get $"--marker" flags) in
      let marker := default $"KUBENYX-CLUSTER-READY" marker in
      let* secs := or_die (flags_get $"--wait-secs" flags) in
      let* secs := match secs with Some v => parse_u64 v $"bad --wait-secs" | None => M_ret 120 end in
      let* settle := or_die (flags_get $"--settle-ms" flags) in
      let* _s := match settle with Some v => parse_u64 v $"bad --settle-ms" | None => M_ret 2000 end in
      do* perform (AMkdir out) ($"mkdir " ++ out) in
      let* out := or_die (of_option $"canonicalize" (canonicalize out)) in
      let console := path_join out $"take-console.log" in
      let sock := $"kubenyx.sock" in
      do* perform (ACreateFile console) $"create console log" in
      let* pid := spawn [runner] ($"spawn " ++ runner) in
      do* own pid in
      do* await_marker console marker secs
            ($"'" ++ marker ++ $"' not seen within " ++ fmt_dec secs ++ $"s") in
      do* pause sock in
      do* create_snapshot sock out in
      let vmm := match vmm_exe_of pid with
                 | Some exe => Some (pid, exe)
                 | None => current_dir ≫= λ d, find_vmm_by_cwd (canonicalize d) procs
                 end in
      let* identity := or_die (take_identity (canonicalize runner) vmm) in
      do* perform (AWrite (path_join out $"manifest") (identity_lines identity)) $"write manifest" in
      do* kill_wait pid in
      do* disown pid in
      M_ret out
  end.

(** The gate, with the fingerprint read only when there is an identity to
    compare. *)
Definition gate (snapshot firecracker : text) (template : option text) (allow : bool) : result text Gate :=
  let manifest := read (path_join snapshot $"manifest") in
  match read_snapshot_identity manifest with
  | None => Ok (enforce_identity manifest SnapIdentity_none template allow)
  | Some _ =>
      let? fingerprint := cpu_fingerprint in
      Ok (enforce_identity manifest (live_identity (resolve_exe firecracker) fingerprint) template allow)
  end.

Record ResumeArgs := mkResumeArgs {
  ra_firecracker : text; ra_snapshot : text; ra_api_sock : text; ra_probe : text; ra_poke : text;
  ra_enable_pci : bool }.

Definition resume_flags (flags : list text) : V ResumeArgs :=
  let* snapshot := or_die (flags_get $"--snapshot" flags) in
  let snapshot := default $"snapshot" snapshot in
  if negb (exists_ (path_join snapshot $"snap.vmstate")) then
    die (snapshot ++ $"/snap.vmstate not found")
  else
    let* firecracker := or_die (flags_get $"--firecracker" flags) in
    let firecracker := default $"firecracker" firecracker in
    let* api_sock := or_die (flags_get $"--api-sock" flags) in
    let* probe := or_die (flags_get $"--probe" flags) in
    let* poke := or_die (flags_get $"--poke" flags) in
    let* template := or_die (flags_get $"--cpu-template" flags) in
    let* template := match template with
                     | Some t => or_die (let? spec := resolve_template_spec sha256 is_file read t in Ok (Some spec))
                     | None => M_ret None
                     end in
    let* g := or_die (gate snapshot firecracker template (flags_has $"--allow-identity-mismatch" flags)) in
    if resumes g then
      M_ret (mkResumeArgs firecracker snapshot (default $"kubenyx-resume.sock" api_sock)
               (default $"10.100.0.2:6443" probe) (default $"10.100.0.2:10123" poke)
               (negb (flags_has $"--no-pci" flags)))
    else die $"snapshot identity mismatch".

(** [resume_once]: the pokes are sent by a thread of their own while the
    probe waits. *)
Definition resume_once (a : ResumeArgs) : V Z :=
  do* perform (ACreateFile $"resume-console.log") $"create resume-console.log" in
  let* pid := spawn (ra_firecracker a :: $"--api-sock" :: ra_api_sock a
                     :: (if ra_enable_pci a then [$"--enable-pci"] else []))
                ($"spawn " ++ ra_firecracker a) in
  do* own pid in
  do* perform (AWaitSock (ra_api_sock a)) $"API socket did not appear within 5s" in
  do* api_expect (ra_api_sock a) $"PUT" $"/snapshot/load" (load_body (ra_snapshot a)) in
  do* ignore (APokes (ra_poke a)) in
  do* perform (AWaitApi (ra_probe a)) $"apiserver did not answer within 10s of restore" in
  M_ret pid.

(** The restored VMM is left running: its pid is printed. *)
Definition cmd_resume (flags : list text) : V Z :=
  let* a := resume_flags flags in
  let* pid := resume_once a in
  do* disown pid in
  M_ret pid.

Fixpoint cycles (n : nat) (a : ResumeArgs) : V unit :=
  match n with
  | O => M_ret tt
  | S n =>
      let* pid := resume_once a in
      do* kill_wait pid in
      do* disown pid in
      cycles n a
  end.

(** After the rounds, [totals[totals.len() / 2]]: out of bounds when there were
    none. *)
Definition cmd_cycle (flags : list text) : V unit :=
  let* a := resume_flags flags in
  let* n := or_die (flags_get $"-n" flags) in
  let* n := match n with
            | Some v => or_die (of_option $"bad -n" (parse_unsigned u32_max v))
            | None => M_ret 5
            end in
  do* cycles (Z.to_nat n) a in
  if n =? 0 then M_raise Panicked else M_ret tt.
End host.

(** [run]'s choice of a verb. *)
Inductive SnapVerb := VTake | VResume | VCycle | VMeshTake | VMeshResume | VMeshCycle.

Definition snap_verb (args : list text) : result text (SnapVerb * list text) :=
  match args with
  | [] => Err $"usage: kubenyx-snap take|resume|cycle|mesh-take|mesh-resume|mesh-cycle [flags]"
  | cmd :: flags =>
      if decide (cmd = $"take") then Ok (VTake, flags)
      else if decide (cmd = $"resume") then Ok (VResume, flags)
      else if decide (cmd = $"cycle") then Ok (VCycle, flags)
      else if decide (cmd = $"mesh-take") then Ok (VMeshTake, flags)
      else if decide (cmd = $"mesh-resume") then Ok (VMeshResume, flags)
      else if decide (cmd = $"mesh-cycle") then Ok (VMeshCycle, flags)
      else Err ($"unknown subcommand " ++ cmd)
  end.

(** ** mesh-resume's threads *)

(** A node's thread: before its spawn, between the spawn and [own_vmm],
    waiting for socket and load, and returned. *)
Inductive Thread := TStart | TSpawned (pid : Z) | TOwned (pid : Z) | TLoaded (pid : Z).

Record Mesh := mkMesh {
  m_threads : list Thread; m_table : Slots; m_alive : gset Z; m_exited : bool }.

Definition mesh_start (nodes : nat) : Mesh := mkMesh (replicate nodes TStart) no_vmms ∅ false.

(** [die] in any thread, or the signal handler: the owned VMMs are killed. *)
Definition mesh_die (m : Mesh) : Mesh :=
  mkMesh (m_threads m) (kill_owned_vmm (m_table m)).2
    (m_alive m ∖ list_to_set (kill_owned_vmm (m_table m)).1) true.

Inductive mesh_step : Mesh → Mesh → Prop :=
| mesh_spawn i pid m :
    m_exited m = false → m_threads m !! i = Some TStart → 0 < pid → pid ∉ m_alive m →
    mesh_step m (mkMesh (<[i := TSpawned pid]> (m_threads m)) (m_table m) ({[pid]} ∪ m_alive m) false)
| mesh_own i pid t m :
    m_exited m = false → m_threads m !! i = Some (TSpawned pid) → own_vmm pid (m_table m) = Some t →
    mesh_step m (mkMesh (<[i := TOwned pid]> (m_threads m)) t (m_alive m) false)
| mesh_own_overflows i pid m :
    m_exited m = false → m_threads m !! i = Some (TSpawned pid) → own_vmm pid (m_table m) = None →
    mesh_step m (mesh_die m)
| mesh_load i pid m :
    m_exited m = false → m_threads m !! i = Some (TOwned pid) →
    mesh_step m (mkMesh (<[i := TLoaded pid]> (m_threads m)) (m_table m) (m_alive m) false)
| mesh_fail m :
    m_exited m = false → mesh_step m (mesh_die m).

Inductive mesh_reachable (nodes : nat) : Mesh → Prop :=
| mesh_reach_start : mesh_reachable nodes (mesh_start nodes)
| mesh_reach_step m m' : mesh_reachable nodes m → mesh_step m m' → mesh_reachable nodes m'.

(** The pids spawned and not yet owned, and those owned. *)
Definition spawned_only (ts : list Thread) : list Z :=
  omap (λ t, match t with TSpawned pid => Some pid | _ => None end) ts.
Definition thread_pid (t : Thread) : option Z :=
  match t with TStart => None | TSpawned pid | TOwned pid | TLoaded pid => Some pid end.

Section gate_specs.
Variables (exists_ is_file : text → bool) (read canonicalize : text → option text).
Variables (path_dirs : option (list text)) (cpuinfo : option text) (sha256 : text → bytes).

(** The template a resume claims. *)
Definition claims_template (flags : list text) (template : option text) : Prop :=
  match flags_get $"--cpu-template" flags with
  | Ok None => template = None
  | Ok (Some t) => ∃ spec, resolve_template_spec sha256 is_file read t = Ok spec ∧ template = Some spec
  | Err _ => False
  end.

Definition gate_passed (flags : list text) (a : ResumeArgs) : Prop :=
  exists_ (path_join (ra_snapshot a) $"snap.vmstate") = true
  ∧ ∃ template, claims_template flags template
    ∧ (flags_has $"--allow-identity-mismatch" flags = true
       ∨ match read_snapshot_identity (read (path_join (ra_snapshot a) $"manifest")) with
         | None => template = None
         | Some rec => vmm_rule (vmm rec) (resolve_exe is_file canonicalize path_dirs (ra_firecracker a))
                       ∧ ∃ fp, cpu_fingerprint cpuinfo = Ok fp ∧ cpu_rule (cpu rec) fp template
         end).
End gate_specs.

(** ** Specifications *)

(** The pids the world hands out are positive. *)
Definition good_answers (w : World) : Prop :=
  Forall (λ a, match a with Pid pid => 0 < pid | _ => True end) (w_answers w).

(** No VMM; one VMM, owned in the first slot; one VMM not owned yet. *)
Definition idle (w : World) : Prop := good_answers w ∧ w_table w = no_vmms ∧ w_alive w = [].
Definition holding (pid : Z) (w : World) : Prop :=
  good_answers w ∧ 0 < pid ∧ w_table w = pid :: replicate 15 0 ∧ w_alive w = [pid].
Definition spawned (pid : Z) (w : World) : Prop :=
  good_answers w ∧ 0 < pid ∧ w_table w = no_vmms ∧ w_alive w = [pid].
(** One VMM left to itself. *)
Definition left_running (pid : Z) (w : World) : Prop :=
  good_answers w ∧ w_table w = no_vmms ∧ w_alive w = [pid].

(** From [P], a normal end is in [Q] and an abnormal one leaves no VMM. *)
Definition ensures {A} (P : World → Prop) (m : V A) (Q : A → World → Prop) : Prop :=
  ∀ w, P w → match m w with
             | (Ok a, w') => Q a w'
             | (Err e, w') => survivors (A:=A) (Err e) w' = []
             end.

(** A state in which [die] leaves no VMM. *)
Definition safe (P : World → Prop) : Prop :=
  ∀ w, P w → filter (λ p, p ∉ (kill_owned_vmm (w_table w)).1) (w_alive w) = [].

Definition start (answers : list Answer) : World := mkWorld no_vmms [] [] answers.

(** The API calls of a trace. *)
Definition api_calls (tr : list Action) : list (text * text) :=
  omap (λ a, match a with AApi _ _ path body => Some (path, body) | _ => None end) tr.

(** What an attached take asks of the source VM. *)
Definition attached_script (out : text) : list (text * text) :=
  [($"/vm", paused_body); ($"/snapshot/create", create_body out); ($"/vm", resumed_body)].

(** What a computation adds to the trace: [Q] when it returns, [T] when not. *)
Definition traces {A} (m : V A) (T : list Action → Prop) (Q : A → list Action → Prop) : Prop :=
  ∀ w, ∃ tr, w_trace (m w).2 = w_trace w ++ tr
             ∧ match (m w).1 with Ok a => Q a tr | Err _ => T tr end.

(** A computation that only reads. *)
Definition silent {A} (m : V A) : Prop := ∃ r, ∀ w, m w = (r, w).

(** The pids of the threads that own theirs. *)
Definition owned_pid (t : Thread) : option Z :=
  match t with TOwned pid | TLoaded pid => Some pid | _ => None end.

(** While the threads run: distinct pids, all alive, the owned ones in the
    table. *)
Definition mesh_inv (m : Mesh) : Prop :=
  (∀ i j ti tj pid, m_threads m !! i = Some ti → m_threads m !! j = Some tj →
     thread_pid ti = Some pid → thread_pid tj = Some pid → i = j)
  ∧ (∀ pid, pid ∈ m_alive m ↔ ∃ i t, m_threads m !! i = Some t ∧ thread_pid t = Some pid)
  ∧ ∃ acc, holds (m_table m) acc
           ∧ (∀ pid, pid ∈ acc ↔ ∃ i t, m_threads m !! i = Some t ∧ owned_pid t = Some pid)
           ∧ ∀ pid, pid ∈ m_alive m → 0 < pid.


(** A host to try the verbs on: a firecracker found on [$PATH] and by its
    command line, a VMM configuration with a template. *)
Definition demo_sha (t : text) : bytes := [(N.of_nat (length t) mod 256)%N].
Definition demo_cpuinfo (flags : text) : option text :=
  Some ($"vendor_id : GenuineIntel" ++ [newline] ++ $"flags : " ++ flags).
Definition demo_exe : text := $"/bin/firecracker".
Definition demo_config : text := $"{" ++ jstr $"cpu-config" ++ $": {" ++ jstr $"a" ++ $": 1}}".
Definition demo_read (manifest p : text) : option text :=
  if decide (p = $"cfg.json") then Some demo_config
  else if decide (p = $"snapshot/manifest") then Some manifest else None.
Definition demo_cmdline (pid : Z) : option (list text) :=
  Some [$"firecracker"; $"--config-file"; $"cfg.json"].
Definition demo_template : option text := Some (template_hash demo_sha ($"{" ++ jstr $"a" ++ $":1}")).
Definition demo_taken : SnapIdentity :=
  mkIdentity (Some $"/run/runner") (Some demo_exe)
    (Some (TEMPLATE_PREFIX ++ default [] demo_template)) (Some $"GenuineIntel/unknown/unknown+avx").

(** ** Lemmas *)

(** *** Programs *)

Section rules.
Context {A B : Type}.
Implicit Types (P : World → Prop).

Lemma ens_ret P (a : A) (Q : A → World → Prop) : (∀ w, P w → Q a w) → ensures P (M_ret a) Q.
Proof. intros H w Hw. by apply H. Qed.

Lemma ens_bind P (m : V A) (f : A → V B) R Q :
  ensures P m R → (∀ a, ensures (R a) (f a) Q) → ensures P (M_bind f m) Q.
Proof.
  intros Hm Hf w Hw. unfold M_bind. specialize (Hm w Hw).
  destruct (m w) as [[a|e] w']; [by apply Hf|done].
Qed.

Lemma ens_die P msg (Q : A → World → Prop) : safe P → ensures P (die msg) Q.
Proof. intros Hs w Hw. by apply Hs. Qed.

Lemma ens_or_die P (r : result text A) : safe P → ensures P (or_die r) (λ _, P).
Proof. intros Hs. destruct r; [by apply ens_ret|by apply ens_die]. Qed.

Lemma ens_weaken P (m : V A) (Q Q' : A → World → Prop) :
  ensures P m Q → (∀ a w, Q a w → Q' a w) → ensures P m Q'.
Proof. intros Hm HQ w Hw. specialize (Hm w Hw). destruct (m w) as [[a|e] w']; auto. Qed.
End rules.

Lemma safe_idle : safe idle.
Proof. intros w (_ & _ & ->). done. Qed.

Lemma kill_owned_one pid : 0 < pid → (kill_owned_vmm (pid :: replicate 15 0)).1 = [pid].
Proof. intros H. unfold kill_owned_vmm. cbn [fst]. by rewrite filter_cons_True. Qed.

Lemma safe_holding pid : safe (holding pid).
Proof.
  intros w (_ & Hpid & -> & ->). rewrite kill_owned_one by done.
  rewrite filter_cons_False; [done|]. rewrite list_elem_of_singleton. auto.
Qed.

Create HintDb snap discriminated.
#[local] Hint Resolve safe_idle safe_holding : snap.

(** Noting an action touches neither the table nor the VMMs. *)
Definition noted (P : World → Prop) : Prop :=
  ∀ w a, P w → P (note a w) ∧ P (mkWorld (w_table w) (w_alive w) (w_trace w ++ [a]) (w_answers w)).

Lemma good_answers_note a w : good_answers w → good_answers (note a w).
Proof. unfold good_answers, note. simpl. destruct (w_answers w); [done|]. by inversion 1. Qed.

Lemma noted_idle : noted idle.
Proof.
  intros w a (Hg & Ht & Ha). split; split; try done. by apply good_answers_note.
Qed.

Lemma noted_holding pid : noted (holding pid).
Proof.
  intros w a (Hg & Hp & Ht & Ha). split; split; try done. by apply good_answers_note.
Qed.

#[local] Hint Resolve noted_idle noted_holding : snap.

Lemma ens_perform P a msg : safe P → noted P → ensures P (perform a msg) (λ _, P).
Proof.
  intros Hs Hn w Hw. unfold perform. destruct (Hn w a Hw) as [Hw' _].
  destruct (w_answers w) as [|[] ?]; [|done|..]; by apply Hs.
Qed.

Lemma ens_await P log marker secs msg : marker ≠ [] → safe P → noted P →
  ensures P (await_marker log marker secs msg) (λ _, P).
Proof.
  intros Hm Hs Hn w Hw. unfold await_marker. destruct (Hn w (AWaitMarker log marker secs) Hw) as [Hw' _].
  destruct (w_answers w) as [|[] ?]; rewrite ?decide_False by done; [by apply Hs|done|by apply Hs..].
Qed.

Lemma ens_or_die_eq {A B} P (r : result text A) (f : A → V B) Q : safe P →
  (∀ a, r = Ok a → ensures P (f a) Q) → ensures P (M_bind f (or_die r)) Q.
Proof. intros Hs Hf. destruct r as [a|e]; [exact (Hf a eq_refl)|]. intros w Hw. by apply Hs. Qed.

Lemma ens_ignore P a : noted P → ensures P (ignore a) (λ _, P).
Proof. intros Hn w Hw. by apply Hn. Qed.

Lemma ens_spawn argv msg : ensures idle (spawn argv msg) spawned.
Proof.
  intros w Hw. pose proof (proj1 (noted_idle w (ASpawn argv) Hw)) as Hn.
  unfold spawn. destruct Hw as (Hg & Ht & Ha). unfold good_answers in Hg.
  destruct (w_answers w) as [|[| |pid] l] eqn:E; try by apply (safe_idle _ Hn).
  destruct Hn as (Hg' & _). inversion Hg; subst. split; [done|]. split; [done|].
  simpl. by rewrite Ht, Ha.
Qed.

Lemma ens_own pid : ensures (spawned pid) (own pid) (λ _, holding pid).
Proof. intros w (Hg & Hp & Ht & Ha). unfold own. by rewrite Ht. Qed.

Lemma ens_kill_wait pid : ensures (holding pid) (kill_wait pid)
  (λ _ w, good_answers w ∧ 0 < pid ∧ w_table w = pid :: replicate 15 0 ∧ w_alive w = []).
Proof.
  intros w (Hg & Hp & Ht & Ha). simpl. rewrite Ht, Ha.
  rewrite filter_cons_False by (intros []; done). done.
Qed.

Lemma disown_one pid : 0 < pid → disown_vmm pid (pid :: replicate 15 0) = no_vmms.
Proof.
  intros Hp. unfold disown_vmm. rewrite fmap_cons, Z.eqb_refl, fmap_replicate.
  by destruct (Z.eqb_spec 0 pid).
Qed.

Lemma ens_disown_killed pid : ensures
  (λ w, good_answers w ∧ 0 < pid ∧ w_table w = pid :: replicate 15 0 ∧ w_alive w = [])
  (disown pid) (λ _, idle).
Proof. intros w (Hg & Hp & Ht & Ha). simpl. unfold idle. simpl. rewrite Ht, disown_one; done. Qed.

Lemma ens_disown_running pid : ensures (holding pid) (disown pid) (λ _, left_running pid).
Proof.
  intros w (Hg & Hp & Ht & Ha). simpl. unfold left_running. simpl. rewrite Ht, disown_one; done.
Qed.

(** One step of a program's proof. *)
Ltac ens_step :=
  cbv zeta;
  lazymatch goal with
  | |- ensures _ (M_bind _ _) _ => eapply ens_bind; [|intros]
  | |- ensures _ (M_ret _) _ => apply ens_ret; auto
  | |- ensures _ (die _) _ => apply ens_die; auto with snap
  | |- ensures _ (await_marker _ _ _ _) _ => apply ens_await; auto with snap
  | |- ensures _ (perform _ _) _ => apply ens_perform; auto with snap
  | |- ensures _ (api_expect _ _ _ _) _ => apply ens_perform; auto with snap
  | |- ensures _ (pause _) _ => apply ens_perform; auto with snap
  | |- ensures _ (create_snapshot _ _) _ => apply ens_perform; auto with snap
  | |- ensures _ (ignore _) _ => apply ens_ignore; auto with snap
  | |- ensures _ (spawn _ _) _ => apply ens_spawn
  | |- ensures (spawned _) (own _) _ => apply ens_own
  | |- ensures _ (kill_wait _) _ => apply ens_kill_wait
  | |- ensures (holding _) (disown _) _ => apply ens_disown_running
  | |- ensures _ (disown _) _ => apply ens_disown_killed
  | |- ensures _ (match ?x with _ => _ end) _ => destruct x
  | |- ensures ?P (or_die _) _ => apply (ens_or_die P); auto with snap
  | |- ensures ?P (parse_u64 _ _) _ => apply (ens_or_die P); auto with snap
  end.

Lemma ens_resume_once a : ensures idle (resume_once a) holding.
Proof. unfold resume_once. repeat ens_step. Qed.

Lemma ens_cycles n a : ensures idle (cycles n a) (λ _, idle).
Proof.
  induction n as [|n IH]; simpl; [by apply ens_ret|].
  eapply ens_bind; [apply ens_resume_once|intros pid]. ens_step; [ens_step|].
  eapply ens_bind; [apply ens_disown_killed|done].
Qed.

Section host_lemmas.
Context (exists_ is_file : text → bool) (read canonicalize : text → option text).
Context (procs : list Proc) (exe_link : Z → option text) (cmdline : Z → option (list text)).
Context (current_dir : option text) (path_dirs : option (list text)).
Context (cpuinfo : option text) (sha256 : text → bytes).

#[local] Abbreviation take :=
  (cmd_take exists_ read canonicalize procs exe_link cmdline current_dir cpuinfo sha256).
#[local] Abbreviation attached :=
  (cmd_take_attached exists_ read canonicalize procs cmdline cpuinfo sha256).
#[local] Abbreviation args_of :=
  (resume_flags exists_ is_file read canonicalize path_dirs cpuinfo sha256).
#[local] Abbreviation resume := (cmd_resume exists_ is_file read canonicalize path_dirs cpuinfo sha256).
#[local] Abbreviation cycle := (cmd_cycle exists_ is_file read canonicalize path_dirs cpuinfo sha256).

Lemma ens_attached flags : ensures idle (attached flags) (λ _, idle).
Proof. unfold cmd_take_attached. repeat ens_step. Qed.

Lemma ens_take flags : flags_get $"--marker" flags ≠ Ok (Some []) → ensures idle (take flags) (λ _, idle).
Proof.
  intros Hm. unfold cmd_take. eapply ens_bind; [by ens_step|].
  intros [runner|]; [|apply ens_attached].
  eapply (ens_bind _ _ _ (λ _, idle)); [by ens_step|intros out]. cbv zeta.
  apply ens_or_die_eq; [apply safe_idle|intros marker Em].
  assert (default $"KUBENYX-CLUSTER-READY" marker ≠ []) as Hne by (destruct marker as [[]|]; done).
  clear Hm Em. revert Hne. generalize (default $"KUBENYX-CLUSTER-READY" marker). intros m Hne.
  repeat ens_step.
Qed.

Lemma ens_resume_flags flags : ensures idle (args_of flags) (λ _, idle).
Proof. unfold resume_flags. repeat ens_step. Qed.

Lemma ens_resume flags : ensures idle (resume flags) left_running.
Proof.
  unfold cmd_resume. eapply ens_bind; [apply ens_resume_flags|intros a].
  eapply ens_bind; [apply ens_resume_once|intros pid].
  eapply ens_bind; [apply ens_disown_running|intros ?]. by apply ens_ret.
Qed.

Lemma ens_cycle flags : ensures idle (cycle flags) (λ _, idle).
Proof.
  unfold cmd_cycle. eapply ens_bind; [apply ens_resume_flags|intros a].
  eapply ens_bind; [by ens_step|intros n].
  eapply (ens_bind _ _ _ (λ _, idle) _); [repeat ens_step|intros k].
  eapply ens_bind; [apply ens_cycles|intros ?]. destruct (k =? 0); [|by apply ens_ret].
  by intros w (_ & _ & ?).
Qed.
End host_lemmas.

(** *** Traces *)

Lemma tr_ret {A} (a : A) T (Q : A → list Action → Prop) : Q a [] → traces (M_ret a) T Q.
Proof. intros H w. exists []. by rewrite app_nil_r. Qed.

Lemma tr_die {A} msg (T : list Action → Prop) (Q : A → list Action → Prop) : T [] → traces (die msg) T Q.
Proof. intros H w. exists []. by rewrite app_nil_r. Qed.

Lemma tr_or_die {A B} (r : result text A) (f : A → V B) (T : list Action → Prop) Q :
  T [] → (∀ a, traces (f a) T Q) → traces (M_bind f (or_die r)) T Q.
Proof. intros HT Hf w. destruct r as [a|e]; [apply Hf|]. exists []. by rewrite app_nil_r. Qed.

Lemma tr_perform {A} a msg (k : V A) (T : list Action → Prop) Q :
  T [a] → traces k (λ tr, T (a :: tr)) (λ b tr, Q b (a :: tr)) →
  traces (do* perform a msg in k) T Q.
Proof.
  intros HT Hk w. unfold M_bind, perform.
  assert (∃ tr, w_trace (note a w) = w_trace w ++ tr ∧ T tr) as HE by (by exists [a]).
  destruct (w_answers w) as [|[] ?]; [exact HE| |exact HE..].
  destruct (Hk (note a w)) as (tr & E & H). exists (a :: tr). split; [|done].
  rewrite E. simpl. by rewrite <- app_assoc.
Qed.

(** *** The gate *)

Lemma or_die_inv {A} (r : result text A) w a w' : or_die r w = (Ok a, w') → r = Ok a ∧ w' = w.
Proof. destruct r; cbn; by intros [= -> ->]. Qed.

Lemma silent_bind {A B} (m : V A) (f : A → V B) :
  silent m → (∀ a, silent (f a)) → silent (M_bind f m).
Proof.
  intros [[a|e] Hm] Hf.
  - destruct (Hf a) as [r Hr]. exists r. intros w. unfold M_bind. by rewrite Hm.
  - exists (Err e). intros w. unfold M_bind. by rewrite Hm.
Qed.
Lemma silent_or_die {A} (r : result text A) : silent (or_die r).
Proof. destruct r; by eexists. Qed.
Lemma silent_ret {A} (a : A) : silent (M_ret a).
Proof. by eexists. Qed.
Lemma silent_die {A} msg : silent (A:=A) (die msg).
Proof. by eexists. Qed.

Section gate_lemmas.
Context (exists_ is_file : text → bool) (read canonicalize : text → option text).
Context (path_dirs : option (list text)) (cpuinfo : option text) (sha256 : text → bytes).

#[local] Abbreviation args_of :=
  (resume_flags exists_ is_file read canonicalize path_dirs cpuinfo sha256).

#[local] Abbreviation passed :=
  (gate_passed exists_ is_file read canonicalize path_dirs cpuinfo sha256).

Lemma resume_flags_silent flags : silent (args_of flags).
Proof.
  unfold resume_flags.
  repeat first [apply silent_bind; [|intros] | apply silent_or_die | apply silent_ret
               | apply silent_die | progress cbv zeta | case_match].
Qed.

Lemma gate_resumes snapshot firecracker template allow g :
  gate is_file read canonicalize path_dirs cpuinfo snapshot firecracker template allow = Ok g →
  resumes g = true →
  allow = true
  ∨ match read_snapshot_identity (read (path_join snapshot $"manifest")) with
    | None => template = None
    | Some rec => vmm_rule (vmm rec) (resolve_exe is_file canonicalize path_dirs firecracker)
                  ∧ ∃ fp, cpu_fingerprint cpuinfo = Ok fp ∧ cpu_rule (cpu rec) fp template
    end.
Proof.
  unfold gate. set (man := read _). destruct (read_snapshot_identity man) as [rec|] eqn:Er.
  - destruct (cpu_fingerprint cpuinfo) as [fp|]; [|done]. intros [= <-] H.
    apply gate_rule in H. rewrite Er in H. destruct H as [?|[? ?]]; eauto.
  - intros [= <-] H. unfold enforce_identity in H. rewrite Er in H.
    destruct template, allow; simpl in H; auto.
Qed.

Lemma resume_flags_gate flags w a w' : args_of flags w = (Ok a, w') → passed flags a.
Proof.
  unfold resume_flags. intros H.
  apply M_bind_Ok_inv in H as (snapshot & w1 & [_ ->]%or_die_inv & H). cbv zeta in H.
  destruct (exists_ _) eqn:Ex; [|done]. cbn [negb] in H.
  apply M_bind_Ok_inv in H as (fc & w2 & [_ ->]%or_die_inv & H).
  apply M_bind_Ok_inv in H as (sock & w3 & [_ ->]%or_die_inv & H).
  apply M_bind_Ok_inv in H as (probe & w4 & [_ ->]%or_die_inv & H).
  apply M_bind_Ok_inv in H as (poke & w5 & [_ ->]%or_die_inv & H).
  apply M_bind_Ok_inv in H as (tflag & w6 & [Et ->]%or_die_inv & H).
  apply M_bind_Ok_inv in H as (template & w7 & Hc & H).
  apply M_bind_Ok_inv in H as (g & w8 & [Eg ->]%or_die_inv & H).
  destruct (resumes g) eqn:Hg; [|done]. injection H as <- <-.
  split; [done|]. exists template. split; [|by eapply gate_resumes].
  unfold claims_template. rewrite Et. destruct tflag as [t|]; [|by injection Hc].
  apply or_die_inv in Hc as [Hc _].
  destruct (resolve_template_spec _ _ _ t) as [spec|]; [|done]. injection Hc as <-. eauto.
Qed.

(** A program that begins with the flags does nothing before the gate. *)
Lemma gated {A} flags (k : ResumeArgs → V A) w :
  let w' := (M_bind k (args_of flags) w).2 in
  w_trace w' ≠ w_trace w → ∃ a, args_of flags w = (Ok a, w) ∧ passed flags a.
Proof.
  destruct (resume_flags_silent flags) as [r Hr]. unfold M_bind. rewrite Hr.
  destruct r as [a|e]; simpl; [|done]. intros _. exists a. split; [done|].
  eapply (resume_flags_gate flags w). by rewrite Hr.
Qed.
End gate_lemmas.

(** *** Parallel restores *)

Lemma thread_update (ts : list Thread) i t u pid (f : Thread → option Z) :
  ts !! i = Some t →
  (∃ j v, <[i:=u]> ts !! j = Some v ∧ f v = Some pid)
  ↔ f u = Some pid ∨ ∃ j v, j ≠ i ∧ ts !! j = Some v ∧ f v = Some pid.
Proof.
  intros Hi. pose proof (lookup_lt_Some _ _ _ Hi) as Hlt. split.
  - intros (j & v & Hj & Hv). destruct (decide (j = i)) as [->|Hne].
    + rewrite list_lookup_insert_eq in Hj by done. left. congruence.
    + rewrite list_lookup_insert_ne in Hj by done. eauto 10.
  - intros [Hu|(j & v & Hne & Hj & Hv)].
    + exists i, u. by rewrite list_lookup_insert_eq.
    + exists j, v. by rewrite list_lookup_insert_ne.
Qed.

Lemma thread_split (ts : list Thread) i t pid (f : Thread → option Z) :
  ts !! i = Some t →
  (∃ j v, ts !! j = Some v ∧ f v = Some pid)
  ↔ f t = Some pid ∨ ∃ j v, j ≠ i ∧ ts !! j = Some v ∧ f v = Some pid.
Proof.
  intros Hi. rewrite <- (thread_update ts i t t pid f) by done. by rewrite list_insert_id.
Qed.

(** Changing thread [i]'s state without a new pid keeps pids distinct. *)
Lemma distinct_update (ts : list Thread) i u :
  (∀ j k tj tk pid, ts !! j = Some tj → ts !! k = Some tk →
     thread_pid tj = Some pid → thread_pid tk = Some pid → j = k) →
  (∀ pid, thread_pid u = Some pid → ∀ j tj, ts !! j = Some tj → thread_pid tj = Some pid → j = i) →
  ∀ j k tj tk pid, <[i:=u]> ts !! j = Some tj → <[i:=u]> ts !! k = Some tk →
     thread_pid tj = Some pid → thread_pid tk = Some pid → j = k.
Proof.
  intros Hd Hu j k tj tk pid Hj Hk Hpj Hpk.
  apply list_lookup_insert_Some in Hj as [(<- & <- & _)|[? Hj]];
    apply list_lookup_insert_Some in Hk as [(<- & <- & _)|[? Hk]]; eauto.
  symmetry. eauto.
Qed.

Lemma mesh_start_inv nodes : mesh_inv (mesh_start nodes).
Proof.
  assert (∀ i t, replicate nodes TStart !! i = Some t → t = TStart) as Hr.
  { intros i t H. by apply lookup_replicate in H as [-> _]. }
  split; [|split].
  - intros i j ti tj pid Hi Hj Hp. apply Hr in Hi as ->. done.
  - intros pid. split; [set_solver|]. intros (i & t & ->%Hr & ?). done.
  - exists ∅. split; [apply no_vmms_holds|]. split; [|set_solver].
    intros pid. split; [set_solver|]. intros (i & t & ->%Hr & ?). done.
Qed.

Lemma mesh_step_inv m m' : mesh_inv m → mesh_step m m' → m_exited m' = false → mesh_inv m'.
Proof.
  intros (Hd & Ha & acc & Hh & Hacc & Hpos) Hs Hex. destruct Hs as
    [i pid m _ Hi Hpid Hnew|i pid t m _ Hi Ho|i pid m _ Hi Ho|i pid m _ Hi|m _];
    simpl in Hex |- *; try done; unfold mesh_inv; simpl.
  - split; [apply distinct_update; [done|]|split].
    + intros p [= <-] j tj Hj Hp. destruct Hnew. apply Ha. eauto.
    + intros p. rewrite (thread_update _ _ _ _ _ _ Hi), elem_of_union, elem_of_singleton, Ha.
      rewrite (thread_split _ _ _ _ _ Hi). simpl. naive_solver.
    + exists acc. split; [done|]. split; [|set_solver].
      intros p. rewrite (thread_update _ _ _ _ _ _ Hi), Hacc, (thread_split _ _ _ _ _ Hi). simpl. naive_solver.
  - assert (0 < pid) as Hpid by (apply Hpos, Ha; eauto).
    split; [apply distinct_update; [done|]|split].
    + intros p [= <-] j tj Hj Hp. eapply Hd; eauto.
    + intros p. rewrite (thread_update _ _ _ _ _ _ Hi), Ha, (thread_split _ _ _ _ _ Hi). done.
    + exists ({[pid]} ∪ acc). split; [by eapply own_vmm_holds|]. split; [|done].
      intros p. rewrite (thread_update _ _ _ _ _ _ Hi), elem_of_union, elem_of_singleton, Hacc.
      rewrite (thread_split _ _ _ _ _ Hi). simpl. naive_solver.
  - split; [apply distinct_update; [done|]|split].
    + intros p [= <-] j tj Hj Hp. eapply Hd; eauto.
    + intros p. rewrite (thread_update _ _ _ _ _ _ Hi), Ha, (thread_split _ _ _ _ _ Hi). done.
    + exists acc. split; [done|]. split; [|done].
      intros p. rewrite (thread_update _ _ _ _ _ _ Hi), Hacc, (thread_split _ _ _ _ _ Hi). done.
Qed.

Lemma spawned_only_elem ts pid : pid ∈ spawned_only ts ↔ ∃ i, ts !! i = Some (TSpawned pid).
Proof.
  unfold spawned_only. rewrite list_elem_of_omap. split.
  - intros (t & Ht & E). apply list_elem_of_lookup in Ht as [i Hi].
    destruct t; simplify_eq. eauto.
  - intros [i Hi]. exists (TSpawned pid). split; [by eapply list_elem_of_lookup_2|done].
Qed.

(** What [die] leaves alive. *)
Lemma mesh_die_alive m : mesh_inv m → m_alive (mesh_die m) = list_to_set (spawned_only (m_threads m)).
Proof.
  intros (Hd & Ha & acc & Hh & Hacc & _). unfold mesh_die. cbn [m_alive].
  rewrite (kill_owned_holds _ _ Hh). apply set_eq. intros pid.
  rewrite elem_of_difference, elem_of_list_to_set, spawned_only_elem, Ha, Hacc. split.
  - intros [(i & t & Hi & Hp) Hn]. exists i. rewrite Hi. destruct t; simplify_eq/=; [done|..];
      exfalso; eauto.
  - intros [i Hi]. split; [eauto|]. intros (j & t & Hj & Ho).
    assert (thread_pid t = Some pid) as Hp by (by destruct t).
    assert (i = j) as -> by (by eapply Hd). rewrite Hi in Hj. by simplify_eq.
Qed.

Lemma mesh_reachable_inv nodes m : mesh_reachable nodes m →
  (m_exited m = false → mesh_inv m)
  ∧ (m_exited m = true → m_alive m = list_to_set (spawned_only (m_threads m)))
  ∧ length (m_threads m) = nodes.
Proof.
  induction 1 as [|m m' _ (IH1 & IH2 & IH3) Hs].
  { split; [intros _; apply mesh_start_inv|]. split; [done|]. apply length_replicate. }
  assert (m_exited m = false) as Hex by (by destruct Hs).
  split; [intros; eapply mesh_step_inv; eauto|]. split.
  - intros Hex'. destruct Hs; try done; exact (mesh_die_alive _ (IH1 Hex)).
  - destruct Hs; simpl; by rewrite ?length_insert.
Qed.

(** ** Theorems *)



(** What survives when [mesh-resume] ends early.  Whichever thread fails,
    overflows the table, or is interrupted by a signal, and whatever the
    interleaving, every VMM already owned is killed and the ones left alive
    are exactly those spawned by a thread that had not reached [own_vmm]; and
    until then every VMM spawned belongs to one thread. *)
Theorem mesh_resume_survivors nodes m :
  mesh_reachable nodes m →
  if m_exited m then m_alive m = list_to_set (spawned_only (m_threads m))
  else ∀ pid, pid ∈ m_alive m ↔ ∃ i t, m_threads m !! i = Some t ∧ thread_pid t = Some pid.
Proof.
  intros (H1 & H2 & _)%mesh_reachable_inv. destruct (m_exited m); [auto|].
  destruct (H1 eq_refl) as (_ & H & _). exact H.
Qed.

(** C16: taking and then resuming.  The identity a take records, written as the
    manifest of a snapshot directory, lets the same VMM with the same template
    resume it: on a host with the same fingerprint without a warning; on
    another host with a warning if the guest ran under a template, and not at
    all (unless overridden) if it did not. *)
Theorem take_then_resume read cmdline cpuinfo sha256 closure_ found id
    is_file' read' canonicalize' path_dirs' cpuinfo' snapshot firecracker template fp fp' allow :
  take_identity read cmdline cpuinfo sha256 closure_ found = Ok id →
  match found with
  | Some (pid, _) => vmm_cpu_template sha256 (cmdline pid) read
  | None => Ok None
  end = Ok template →
  cpu_fingerprint cpuinfo = Ok fp → cpu_fingerprint cpuinfo' = Ok fp' →
  strip_prefix TEMPLATE_PREFIX fp = None → clean_identity id →
  read' (path_join snapshot $"manifest") = Some (identity_lines id) →
  resolve_exe is_file' canonicalize' path_dirs' firecracker = vmm id →
  gate is_file' read' canonicalize' path_dirs' cpuinfo' snapshot firecracker template allow
  = Ok (own_gate fp fp' template allow).
Proof.
  intros Hid Ht Hfp Hfp' Hpre Hclean Hman Hexe. unfold take_identity in Hid.
  rewrite Ht in Hid. cbn [result_bind] in Hid. rewrite Hfp in Hid. cbn [result_bind] in Hid.
  destruct (take_cpu_identity fp template) as [c h] eqn:Ec.
  assert (id = mkIdentity closure_ (snd <$> found) c h) as -> by congruence.
  pose proof (taken_identity_gate (identity_lines (mkIdentity closure_ (snd <$> found) c h)) closure_
    (snd <$> found) fp fp' template allow Hpre) as Hg. rewrite Ec in Hg.
  pose proof (parse_manifest_body [] _ Hclean ltac:(constructor)) as Hp.
  unfold gate. rewrite Hman. unfold read_snapshot_identity. cbn [mbind option_bind].
  change (manifest_body [] (mkIdentity closure_ (snd <$> found) c h))
    with (identity_lines (mkIdentity closure_ (snd <$> found) c h)) in Hp.
  rewrite Hp, Hfp', Hexe.
  assert (is_empty (mkIdentity closure_ (snd <$> found) c h) = false) as ->.
  { unfold is_empty. destruct template; simplify_eq/=; by rewrite !andb_false_r. }
  cbn [result_bind]. f_equal. by apply Hg.
Qed.

(** The attached take pauses, snapshots and resumes the source VM, in that
    order and nothing else, and reports success only after all three were
    answered; a failed snapshot ends the verb with the source VM still
    paused. *)
Theorem take_attached_spec exists_ read canonicalize procs cmdline cpuinfo sha256 flags answers :
  let run := cmd_take_attached exists_ read canonicalize procs cmdline cpuinfo sha256 flags in
  (let '(r, w) := run (start answers) in
   ∃ out, api_calls (w_trace w)
            `prefix_of` attached_script out
          ∧ (is_ok r = true →
             r = Ok out ∧ api_calls (w_trace w) = attached_script out
             ∧ ∃ id, last (w_trace w) = Some (AWrite (path_join out $"manifest") (identity_lines id))))
  ∧ (∀ out rest sock, flags_get $"--sock" flags = Ok sock → exists_ (default $"kubenyx.sock" sock) = true →
      is_ok (flags_get $"--out" flags) = true → (∀ p, canonicalize p = Some out) →
      answers = Done :: Done :: Failed :: rest →
      let '(r, w) := run (start answers) in
      is_ok r = false
       ∧ api_calls (w_trace w) = take 2 (attached_script out)).
Proof.
  intros run. split.
  - assert (traces run (λ tr, ∃ out, api_calls tr `prefix_of` attached_script out)
      (λ out tr, api_calls tr = attached_script out
                 ∧ ∃ id, last tr = Some (AWrite (path_join out $"manifest") (identity_lines id)))) as H.
    { unfold run, cmd_take_attached. set (none := @nil N).
      apply tr_or_die; [by exists none; apply prefix_nil|intros sock]. cbv zeta.
      destruct (exists_ _); [|by apply tr_die; exists none; apply prefix_nil]. cbn [negb].
      apply tr_or_die; [by exists none; apply prefix_nil|intros out0].
      apply tr_perform; [by exists none; apply prefix_nil|].
      apply tr_or_die; [by exists none; apply prefix_nil|intros out].
      apply tr_perform; [by exists out, (drop 1 (attached_script out))|].
      apply tr_perform; [by exists out, (drop 2 (attached_script out))|].
      apply tr_perform; [by exists out, []|].
      apply tr_or_die; [by exists out, []|intros id].
      apply tr_perform; [by exists out, []|]. apply tr_ret. split; [done|]. by exists id. }
    destruct (H (start answers)) as (tr & E & Hr). destruct (run (start answers)) as [[out|e] w].
    + simpl in E, Hr. rewrite E. exists out. destruct Hr as [-> Hl]. by split.
    + simpl in E, Hr. rewrite E. destruct Hr as [out Hr]. exists out. by split.
  - intros out rest sock Es Hs Ho Hc ->. unfold run, cmd_take_attached.
    rewrite Es, (M_bind_ok _ _ _ sock (start (Done :: Done :: Failed :: rest))) by done. cbv zeta.
    rewrite Hs. destruct (flags_get $"--out" flags) as [o|]; [|done].
    unfold M_bind, or_die, M_ret. cbn [negb]. rewrite Hc. done.
Qed.

(** ** Witnesses *)



Lemma mesh_resume_survivors_witness :
  ∃ m, mesh_reachable 2 m ∧ m_exited m = true ∧ m_alive m = {[6]}.
Proof.
  assert (∃ m, mesh_reachable 2 m ∧ m_exited m = true ∧ m_threads m = [TOwned 5; TSpawned 6])
    as (m & H & He & Ht).
  { eexists. split.
    { eapply mesh_reach_step.
      { eapply mesh_reach_step.
        { eapply mesh_reach_step.
          { eapply mesh_reach_step; [apply mesh_reach_start|].
            apply (mesh_spawn 0 5); [reflexivity|reflexivity|lia|apply not_elem_of_empty]. }
          apply (mesh_own 0 5 (5 :: replicate 15 0)); reflexivity. }
        apply (mesh_spawn 1 6); [reflexivity|reflexivity|lia|cbn [m_alive mesh_start]; set_solver]. }
      apply mesh_fail. reflexivity. }
    split; reflexivity. }
  exists m. split; [exact H|]. split; [exact He|].
  pose proof (mesh_resume_survivors 2 m H) as E. rewrite He, Ht in E.
  etransitivity; [exact E|]. cbn. set_solver.
Defined.

Lemma take_then_resume_witness :
  gate (λ p, bool_decide (p = demo_exe)) (demo_read (identity_lines demo_taken)) Some (Some [$"/bin"])
    (demo_cpuinfo $"avx avx2") $"snapshot" $"firecracker" demo_template false
  = Ok (Proceed [mkHostWarning $"GenuineIntel/unknown/unknown+avx" $"GenuineIntel/unknown/unknown+avx,avx2"] []).
Proof.
  assert (clean_identity demo_taken) as Hc.
  { intros v [?|[?|[?|?]]]; simplify_eq/=; (split;
      [rewrite <- (not_elem_of_list_to_set (C:=gset N)); by vm_compute|by vm_compute]). }
  etransitivity; [apply (take_then_resume (demo_read []) demo_cmdline (demo_cpuinfo $"avx") demo_sha
    (Some $"/run/runner") (Some (7, demo_exe)) demo_taken); first [exact Hc | by vm_compute]|by vm_compute].
Defined.

Lemma take_attached_spec_witness :
  let '(r, w) := cmd_take_attached (λ _, true) (demo_read []) (λ _, Some $"/out") []
                   demo_cmdline (demo_cpuinfo $"avx") demo_sha [] (start [Done; Done; Failed]) in
  is_ok r = false ∧ api_calls (w_trace w) = take 2 (attached_script $"/out").
Proof.
  pose proof (take_attached_spec (λ _, true) (demo_read []) (λ _, Some $"/out") []
    demo_cmdline (demo_cpuinfo $"avx") demo_sha [] [Done; Done; Failed]) as [_ H].
  apply (H $"/out" [] None); reflexivity.
Defined.

(** [cycle -n 0] ends in a panic. *)
Example cycle_zero_panics :
  (cmd_cycle (λ _, true) (λ _, true) (demo_read []) Some (Some [$"/bin"]) (demo_cpuinfo $"avx") demo_sha
     [$"-n"; $"0"] (start [])).1 = Err Panicked.
Proof. by vm_compute. Qed.

(** [take] with an empty marker leaves the VMM it has booted. *)
Example empty_marker_leaks :
  let '(r, w) := cmd_take (λ _, true) (demo_read []) Some [] (λ _, None) demo_cmdline None
                   (demo_cpuinfo $"avx") demo_sha [$"--runner"; $"run"; $"--marker"; []]
                   (start [Done; Done; Pid 42; Done]) in
  r = Err Panicked ∧ survivors r w = [42].
Proof. by vm_compute. Qed.
