(* ===== verification/SnapCycle.v ===== *)
(** * mesh-resume and mesh-cycle ([rust/kubenyx-snap/src/lib.rs])

    The flags and the gate of the mesh verbs, what their main thread does once
    the restore threads have been joined, how the verbs leave the VMMs, and
    the figures they report.  The restore threads are those of SnapVerbs, in
    any interleaving; durations are in one unit of time, whatever it is. *)

From stdpp Require Import sorting.
From S2P Require Import Prelude Text Paths SnapIdentity SnapMesh SnapVerbs.

(** ** Before the restore *)

Section host.
Variables (is_file : text → bool) (read canonicalize : text → option text).
Variables (path_dirs : option (list text)) (cpuinfo : option text) (sha256 : text → bytes).

Definition mesh_resume_flags (flags : list text) : result text (text * list MeshNode * text * bool) :=
  let? snapshot := flags_get $"--snapshot" flags in
  let snapshot := default $"mesh-snapshot" snapshot in
  let? data := of_option ($"read " ++ snapshot ++ $"/manifest") (read (path_join snapshot $"manifest")) in
  let? nodes := read_manifest snapshot data in
  let? firecracker := flags_get $"--firecracker" flags in
  let firecracker := default $"firecracker" firecracker in
  let? template := flags_get $"--cpu-template" flags in
  let? template := match template with
                   | Some t => let? spec := resolve_template_spec sha256 is_file read t in Ok (Some spec)
                   | None => Ok None
                   end in
  let? g := gate is_file read canonicalize path_dirs cpuinfo snapshot firecracker template
              (flags_has $"--allow-identity-mismatch" flags) in
  if resumes g then Ok (snapshot, nodes, firecracker, negb (flags_has $"--no-pci" flags))
  else Err $"snapshot identity mismatch".

(** What such flags let through: the nodes of the manifest, and an override or
    a manifest that vouches for this host. *)
Definition mesh_gate_passed (flags : list text) (snapshot : text) (nodes : list MeshNode) (firecracker : text) : Prop :=
  nodes ≠ []
  ∧ (∃ data, read (path_join snapshot $"manifest") = Some data ∧ read_manifest snapshot data = Ok nodes)
  ∧ ∃ template, claims_template is_file read sha256 flags template
    ∧ (flags_has $"--allow-identity-mismatch" flags = true
       ∨ match read_snapshot_identity (read (path_join snapshot $"manifest")) with
         | None => template = None
         | Some rec => vmm_rule (vmm rec) (resolve_exe is_file canonicalize path_dirs firecracker)
                       ∧ ∃ fp, cpu_fingerprint cpuinfo = Ok fp ∧ cpu_rule (cpu rec) fp template
         end).
End host.

(** ** After the join *)

(** What the main thread measured: the time to the join, the time to the first
    answer (none within the timeout, or the death of the probe), and the wait
    for a write. *)
Record Waits := mkWaits { wt_loaded : Z; wt_api : result text (option Z); wt_write : result text bool; wt_write_time : Z }.

Record MeshResume := mkMeshResume { all_loaded_ms : Z; api_ms : Z; quorum_write_ms : option Z }.

Definition no_answer : text := $"server apiserver did not answer within 10s of mesh restore".
Definition no_quorum : text :=
  $"no quorum write committed within 20s of mesh restore " ++ dash
  ++ $" the apiserver answers TLS but raft has no majority; the mesh is not honestly usable".

(** The second half of [mesh_resume_once]. *)
Definition resume_verdict (nodes : list MeshNode) (w : Waits) : result text MeshResume :=
  let? answered := wt_api w in
  let? api := of_option no_answer answered in
  if (1 <? servers_of nodes)%nat then
    let? ok := wt_write w in
    if ok : bool then Ok (mkMeshResume (wt_loaded w) api (Some (wt_write_time w))) else Err no_quorum
  else Ok (mkMeshResume (wt_loaded w) api None).

(** Every thread returned, with the pid of its VMM. *)
Definition joined (m : Mesh) (pids : list Z) : Prop :=
  m_exited m = false ∧ m_threads m = TLoaded <$> pids.

(** The end of mesh-resume: the VMMs are left to themselves. *)
Definition release (pids : list Z) (m : Mesh) : Mesh :=
  mkMesh (m_threads m) (foldl (λ t pid, disown_vmm pid t) (m_table m) pids) (m_alive m) (m_exited m).

(** The end of a round of mesh-cycle: each is killed, then disowned. *)
Definition reap (pids : list Z) (m : Mesh) : Mesh :=
  mkMesh (m_threads m) (foldl (λ t pid, disown_vmm pid t) (m_table m) pids)
    (m_alive m ∖ list_to_set pids) (m_exited m).

(** How mesh-resume ends: refused before anything is spawned, died or
    interrupted while restoring, died in a wait, or resumed, with the pids it
    prints and its figures. *)
Inductive MeshEnd := MeshRefused (msg : text) | MeshBroken | MeshUnusable (msg : text) | MeshUp (pids : list Z) (r : MeshResume).

(** A run of [cmd_mesh_resume], from what the flags gave. *)
Inductive mesh_resume_run (flagged : result text (text * list MeshNode * text * bool)) : MeshEnd → Mesh → Prop :=
| mesh_refused e : flagged = Err e → mesh_resume_run flagged (MeshRefused e) (mesh_start 0)
| mesh_broken snapshot nodes fc pci m :
    flagged = Ok (snapshot, nodes, fc, pci) → rtc mesh_step (mesh_start (length nodes)) m → m_exited m = true →
    mesh_resume_run flagged MeshBroken m
| mesh_unusable snapshot nodes fc pci m pids w e :
    flagged = Ok (snapshot, nodes, fc, pci) → rtc mesh_step (mesh_start (length nodes)) m → joined m pids →
    resume_verdict nodes w = Err e → mesh_resume_run flagged (MeshUnusable e) (mesh_die m)
| mesh_up snapshot nodes fc pci m pids w r :
    flagged = Ok (snapshot, nodes, fc, pci) → rtc mesh_step (mesh_start (length nodes)) m → joined m pids →
    resume_verdict nodes w = Ok r → mesh_resume_run flagged (MeshUp pids r) (release pids m).

(** The lines of mesh-resume after its figures. *)
Definition resume_lines (nodes : list MeshNode) (server_ip : text) (pids : list Z) : list text :=
  ($"cluster:    https://" ++ server_ip ++ $":6443")
  :: ((λ n, $"kubeconfig: curl -s " ++ n_ip n ++ $":10124 > kubenyx.kubeconfig && "
            ++ $"kubectl --kubeconfig kubenyx.kubeconfig get nodes")
      <$> filter (λ n, is_server_name (n_name n) = true) nodes)
  ++ [$"stop:       kill " ++ join $" " (fmt_dec <$> pids)].

(** ** The rounds of mesh-cycle *)

(** A restore begins with what the round before left. *)
Definition fresh_threads (nodes : list MeshNode) (m : Mesh) : Mesh :=
  mkMesh (replicate (length nodes) TStart) (m_table m) (m_alive m) false.

Inductive mesh_rounds (nodes : list MeshNode) : Mesh → list MeshResume → Prop :=
| no_round : mesh_rounds nodes (mesh_start (length nodes)) []
| one_round m0 rs m pids w r :
    mesh_rounds nodes m0 rs → rtc mesh_step (fresh_threads nodes m0) m → joined m pids →
    resume_verdict nodes w = Ok r → mesh_rounds nodes (reap pids m) (rs ++ [r]).

(** The ways a round, after those that gave [rs], ends the process: a thread or
    a signal during the restore, a wait that failed, a signal while the VMMs
    are being killed. *)
Inductive round_dies (nodes : list MeshNode) (rs : list MeshResume) : Mesh → Prop :=
| dies_restoring m0 m :
    mesh_rounds nodes m0 rs → rtc mesh_step (fresh_threads nodes m0) m → m_exited m = true → round_dies nodes rs m
| dies_waiting m0 m pids w e :
    mesh_rounds nodes m0 rs → rtc mesh_step (fresh_threads nodes m0) m → joined m pids →
    resume_verdict nodes w = Err e → round_dies nodes rs (mesh_die m)
| dies_reaping m0 m pids i :
    mesh_rounds nodes m0 rs → rtc mesh_step (fresh_threads nodes m0) m → joined m pids →
    round_dies nodes rs (mesh_die (reap (take i pids) m)).

(** ** The figures *)

Definition total_ms (r : MeshResume) : Z := all_loaded_ms r + api_ms r.

Record Summary := mkSummary { sm_median : Z; sm_min : Z; sm_max : Z; sm_quorum : option Z }.

(** [totals[totals.len() / 2]] after sorting: out of bounds, a panic, when
    empty. *)
Definition median (l : list Z) : option Z := merge_sort Z.le l !! (length l / 2)%nat.

Definition cycle_summary (rs : list MeshResume) : option Summary :=
  let totals := total_ms <$> rs in
  let quorums := omap quorum_write_ms rs in
  m ← median totals;
  lo ← head (merge_sort Z.le totals);
  hi ← last (merge_sort Z.le totals);
  Some (mkSummary m lo hi (if (length quorums =? length totals)%nat then median quorums else None)).

(** ** Specifications *)

(** The middle of a list: no more than half of it is smaller, and more than
    half of it is not larger. *)
Definition is_median (m : Z) (l : list Z) : Prop :=
  m ∈ l ∧ (length (filter (λ x : Z, (x < m)%Z) l) ≤ length l / 2)%nat
  ∧ (length l / 2 < length (filter (λ x : Z, (x <= m)%Z) l))%nat.

(** Nothing left, and a write time exactly when there are several servers. *)
Definition clean_rounds (nodes : list MeshNode) (m : Mesh) (rs : list MeshResume) : Prop :=
  m_table m = no_vmms ∧ m_alive m = ∅
  ∧ Forall (λ r, is_Some (quorum_write_ms r) ↔ (1 < servers_of nodes)%nat) rs.

(** ** Lemmas *)

(** *** The table *)

Lemma disown_all_holds pids : ∀ t acc, holds t acc →
  holds (foldl (λ t pid, disown_vmm pid t) t pids) (acc ∖ list_to_set pids).
Proof.
  induction pids as [|p pids IH]; intros t acc Hh.
  - cbn [foldl list_to_set]. by rewrite difference_empty_L.
  - cbn [foldl list_to_set].
    replace (acc ∖ ({[p]} ∪ list_to_set pids)) with (acc ∖ {[p]} ∖ list_to_set pids) by set_solver.
    apply IH. by apply disown_vmm_holds.
Qed.

Lemma holds_nothing t : holds t ∅ → t = no_vmms.
Proof.
  intros (Hl & Hp & Hi). unfold no_vmms. symmetry. apply replicate_as_elem_of. split; [done|].
  intros s Hs. assert (0 ≤ s) by (by apply (proj1 (Forall_forall _ _) Hp)).
  destruct (decide (s = 0)); [done|]. exfalso.
  apply (not_elem_of_empty (C:=gset Z) s), Hi. split; [done|lia].
Qed.

(** *** Rounds *)

Lemma reachable_trans nodes m m' : mesh_reachable nodes m → rtc mesh_step m m' → mesh_reachable nodes m'.
Proof. intros H. induction 1 as [|m m1 m' Hs _ IH]; [done|]. apply IH. by eapply mesh_reach_step. Qed.

Lemma fresh_idle nodes m : m_table m = no_vmms → m_alive m = ∅ →
  fresh_threads nodes m = mesh_start (length nodes).
Proof. intros Ht Ha. unfold fresh_threads, mesh_start. by rewrite Ht, Ha. Qed.

(** Once joined, the pids are those alive and those owned. *)
Lemma joined_pids m pids : mesh_inv m → joined m pids →
  m_alive m = list_to_set pids ∧ holds (m_table m) (list_to_set pids) ∧ NoDup pids
  ∧ spawned_only (m_threads m) = [].
Proof.
  intros (Hd & Ha & acc & Hh & Hacc & _) [_ Ht].
  assert (∀ i t pid, m_threads m !! i = Some t → thread_pid t = Some pid → pids !! i = Some pid) as Hl.
  { intros i t pid Hi Hp. rewrite Ht, list_lookup_fmap in Hi.
    destruct (pids !! i); simplify_eq/=. done. }
  assert (∀ i pid, pids !! i = Some pid → m_threads m !! i = Some (TLoaded pid)) as Hr.
  { intros i pid Hi. by rewrite Ht, list_lookup_fmap, Hi. }
  split; [|split; [|split]].
  - apply set_eq. intros pid. rewrite Ha, elem_of_list_to_set, list_elem_of_lookup.
    split; [intros (i & t & Hi & Hp); eauto|intros [i Hi]; exists i, (TLoaded pid); auto].
  - replace (list_to_set pids : gset Z) with acc; [done|].
    apply set_eq. intros pid. rewrite Hacc, elem_of_list_to_set, list_elem_of_lookup. split.
    + intros (i & t & Hi & Ho). exists i. eapply Hl; [exact Hi|by destruct t].
    + intros [i Hi]. exists i, (TLoaded pid). auto.
  - apply NoDup_alt. intros i j pid Hi Hj. by eapply Hd; [exact (Hr _ _ Hi)|exact (Hr _ _ Hj)| |].
  - rewrite Ht. unfold spawned_only. clear. induction pids; [done|done].
Qed.

(** The table holds sixteen. *)
Lemma joined_bound m pids : mesh_inv m → joined m pids → (length pids ≤ OWNED_MAX)%nat.
Proof.
  intros Hi Hj. destruct (joined_pids _ _ Hi Hj) as (_ & (Hl & _ & Ht) & Hn & _).
  rewrite <- Hl. apply submseteq_length, NoDup_submseteq; [done|].
  intros pid Hp. apply Ht. by rewrite elem_of_list_to_set.
Qed.

Lemma reap_all m pids : mesh_inv m → joined m pids →
  m_table (reap pids m) = no_vmms ∧ m_alive (reap pids m) = ∅.
Proof.
  intros Hi Hj. destruct (joined_pids _ _ Hi Hj) as (Ha & Hh & _).
  pose proof (disown_all_holds pids _ _ Hh) as Ht. rewrite difference_diag_L in Ht.
  split; [by apply holds_nothing|]. cbn [m_alive reap]. by rewrite Ha, difference_diag_L.
Qed.

Lemma reap_then_die m pids done_ : mesh_inv m → joined m pids →
  m_alive (mesh_die (reap done_ m)) = ∅.
Proof.
  intros Hi Hj. destruct (joined_pids _ _ Hi Hj) as (Ha & Hh & _).
  unfold mesh_die. cbn [m_alive reap m_table].
  rewrite (kill_owned_holds _ _ (disown_all_holds done_ _ _ Hh)), Ha. apply difference_diag_L.
Qed.

Lemma verdict_quorum nodes w r : resume_verdict nodes w = Ok r →
  is_Some (quorum_write_ms r) ↔ (1 < servers_of nodes)%nat.
Proof.
  unfold resume_verdict. destruct (wt_api w) as [[]|]; [|done..]. cbn [of_option result_bind].
  destruct (Nat.ltb_spec 1 (servers_of nodes)) as [Hs|Hs].
  - destruct (wt_write w) as [[]|]; [|done..]. cbn [result_bind]. intros [= <-]. cbn. by split; eauto.
  - intros [= <-]. cbn. split; [by intros []|lia].
Qed.

Lemma round_inv nodes m0 rs m : clean_rounds nodes m0 rs → rtc mesh_step (fresh_threads nodes m0) m →
  mesh_reachable (length nodes) m.
Proof.
  intros (Ht & Ha & _) Hs. rewrite (fresh_idle _ _ Ht Ha) in Hs.
  by eapply reachable_trans; [apply mesh_reach_start|].
Qed.

Lemma joined_inv nodes m pids : mesh_reachable nodes m → joined m pids →
  mesh_inv m ∧ length pids = nodes.
Proof.
  intros (H1 & _ & Hl)%mesh_reachable_inv Hj. split; [by apply H1, Hj|].
  rewrite <- Hl, (proj2 Hj). by rewrite length_fmap.
Qed.

Lemma rounds_clean nodes m rs : mesh_rounds nodes m rs → clean_rounds nodes m rs.
Proof.
  induction 1 as [|m0 rs m pids w r _ IH Hs Hj Hv]; [by repeat split|].
  pose proof (round_inv _ _ _ _ IH Hs) as Hm. destruct (joined_inv _ _ _ Hm Hj) as [Hi _].
  destruct (reap_all _ _ Hi Hj). split; [done|]. split; [done|].
  apply Forall_app. split; [apply IH|]. apply Forall_singleton. by eapply verdict_quorum.
Qed.

(** *** The gate of the mesh verbs *)

Lemma mesh_flags_gate is_file read canonicalize path_dirs cpuinfo sha256 flags snapshot nodes fc pci :
  mesh_resume_flags is_file read canonicalize path_dirs cpuinfo sha256 flags = Ok (snapshot, nodes, fc, pci) →
  mesh_gate_passed is_file read canonicalize path_dirs cpuinfo sha256 flags snapshot nodes fc.
Proof.
  unfold mesh_resume_flags. intros H.
  apply result_bind_Ok in H as (snap & _ & H). apply result_bind_Ok in H as (data & Hd & H).
  apply result_bind_Ok in H as (ns & Hn & H). apply result_bind_Ok in H as (fc' & _ & H).
  apply result_bind_Ok in H as (tflag & Et & H). apply result_bind_Ok in H as (template & Hc & H).
  apply result_bind_Ok in H as (g & Hg & H). destruct (resumes g) eqn:Er; [|done].
  injection H as <- <- <- _. split; [|split].
  - intros ->. unfold read_manifest in Hn. destruct (collect _) as [l|]; [|done]. cbn [result_bind] in Hn.
    case_decide; [done|]. by injection Hn.
  - exists data. split; [|done]. destruct (read _) as [d|]; [by injection Hd as ->|done].
  - exists template. split; [|by eapply gate_resumes]. unfold claims_template. rewrite Et.
    destruct tflag as [t|]; [|by injection Hc]. apply result_bind_Ok in Hc as (spec & -> & [= <-]). eauto.
Qed.

(** *** The median *)

Lemma sorted_middle l1 m l2 : StronglySorted Z.le (l1 ++ m :: l2) →
  Forall (λ x, x ≤ m) l1 ∧ Forall (λ x, m ≤ x) l2.
Proof.
  induction l1 as [|x l1 IH]; intros Hs; apply StronglySorted_inv in Hs as [Hs Hf]; [by split|].
  destruct (IH Hs) as [H1 H2]. split; [|done]. constructor; [|done].
  apply Forall_app in Hf as [_ Hf]. by inversion Hf.
Qed.

Lemma sorted_rank l k m : StronglySorted Z.le l → l !! k = Some m →
  (length (filter (λ x : Z, (x < m)%Z) l) ≤ k)%nat ∧ (k < length (filter (λ x : Z, (x <= m)%Z) l))%nat.
Proof.
  intros Hs Hk. pose proof (lookup_lt_Some _ _ _ Hk).
  rewrite <- (take_drop_middle _ _ _ Hk) in Hs. apply sorted_middle in Hs as [H1 H2].
  rewrite <- (take_drop_middle _ _ _ Hk) at 1. rewrite <- (take_drop_middle _ _ _ Hk) at 3.
  rewrite !filter_app, !length_app, (filter_none (λ x, x < m) (m :: drop (S k) l)).
  - rewrite (filter_all (λ x, x <= m) (take k l)) by done. rewrite filter_cons_True by lia.
    cbn [length]. rewrite length_take. split; [|lia].
    rewrite Nat.add_0_r. etransitivity; [apply length_filter|]. rewrite length_take. apply Nat.le_min_l.
  - constructor; [lia|]. eapply Forall_impl; [exact H2|]. intros x. apply Z.le_ngt.
Qed.

Lemma median_spec l : match median l with Some m => is_median m l | None => l = [] end.
Proof.
  unfold median. pose proof (merge_sort_Permutation Z.le l) as Hp.
  pose proof (StronglySorted_merge_sort Z.le l) as Hs.
  destruct (merge_sort Z.le l !! _) as [m|] eqn:E.
  - split; [rewrite <- Hp; by eapply list_elem_of_lookup_2|].
    rewrite <- (Permutation_length (filter_Permutation (λ x : Z, (x < m)%Z) _ _ Hp)).
    rewrite <- (Permutation_length (filter_Permutation (λ x : Z, (x <= m)%Z) _ _ Hp)).
    by apply sorted_rank.
  - apply lookup_ge_None in E. rewrite (Permutation_length Hp) in E.
    destruct l as [|x l]; [done|]. exfalso. apply (Nat.lt_irrefl (length (x :: l))).
    eapply Nat.le_lt_trans; [exact E|]. apply Nat.div_lt; simpl; lia.
Qed.

Lemma sorted_ends l : StronglySorted Z.le l → l ≠ [] → ∃ lo hi,
  head l = Some lo ∧ last l = Some hi ∧ Forall (λ x, lo ≤ x ≤ hi) l.
Proof.
  intros Hs Hne. destruct l as [|lo l]; [done|]. destruct (last (lo :: l)) as [hi|] eqn:El.
  2: by apply last_None in El.
  exists lo, hi. split; [done|]. split; [done|].
  destruct (sorted_middle [] lo l Hs) as [_ H3].
  apply last_Some in El as [l' El]. rewrite El in Hs |- *. destruct (sorted_middle _ _ _ Hs) as [H1 _].
  apply Forall_forall. intros x Hx. split.
  - assert (x ∈ lo :: l) as Hx' by (by rewrite El). apply elem_of_cons in Hx' as [->|Hx']; [lia|].
    by apply (proj1 (Forall_forall _ _) H3).
  - apply elem_of_app in Hx as [Hx| ->%list_elem_of_singleton]; [|lia].
    by apply (proj1 (Forall_forall _ _) H1).
Qed.

Lemma quorum_count rs :
  length (omap quorum_write_ms rs) = length rs ↔ Forall (λ r, is_Some (quorum_write_ms r)) rs.
Proof.
  induction rs as [|r rs IH]; [done|]. rewrite Forall_cons, <- IH. cbn [omap list_omap length].
  assert (length (omap quorum_write_ms rs) ≤ length rs)%nat.
  { clear. induction rs as [|r rs IH]; [done|]. cbn [omap list_omap].
    destruct (quorum_write_ms r); cbn [length]; lia. }
  destruct (quorum_write_ms r) as [q|]; cbn [length].
  - split; [intros [=]; eauto|intros [_ ->]; done].
  - split; [lia|intros [[]%is_Some_None _]].
Qed.

(** ** Theorems *)

(** [mesh-cycle] cleans up after itself.  Between two rounds the table is
    empty and no VMM of any earlier round is alive; every round it reports has
    a write time exactly when the mesh has several servers; and if the process
    ends early, in whatever interleaving of the restore threads, during the
    waits or half-way through killing, the VMMs alive are those a thread had
    spawned and not yet registered: none once the threads were joined.
    [mesh-resume] leaves alive one VMM per node, with its pid printed, and an
    empty table; a mesh of more than sixteen nodes never gets that far. *)
Theorem mesh_rounds_leave_none nodes :
  (∀ m rs, mesh_rounds nodes m rs → clean_rounds nodes m rs)
  ∧ (∀ rs m, round_dies nodes rs m → m_alive m = list_to_set (spawned_only (m_threads m)))
  ∧ (∀ m pids, mesh_reachable (length nodes) m → joined m pids →
       spawned_only (m_threads m) = []
       ∧ m_alive (release pids m) = list_to_set pids ∧ m_table (release pids m) = no_vmms
       ∧ NoDup pids ∧ length pids = length nodes ∧ (length nodes ≤ OWNED_MAX)%nat).
Proof.
  split; [apply rounds_clean|]. split.
  - intros rs m [m0 m' Hr Hs He|m0 m' pids w e Hr Hs Hj _|m0 m' pids i Hr Hs Hj].
    all: pose proof (round_inv _ _ _ _ (rounds_clean _ _ _ Hr) Hs) as Hm.
    + by apply (mesh_reachable_inv _ _ Hm).
    + exact (mesh_die_alive _ (proj1 (joined_inv _ _ _ Hm Hj))).
    + destruct (joined_inv _ _ _ Hm Hj) as [Hi _].
      rewrite (reap_then_die _ _ _ Hi Hj). change (m_threads (mesh_die (reap (take i pids) m'))) with (m_threads m').
      by destruct (joined_pids _ _ Hi Hj) as (_ & _ & _ & ->).
  - intros m pids Hm Hj. destruct (joined_inv _ _ _ Hm Hj) as [Hi <-].
    destruct (joined_pids _ _ Hi Hj) as (Ha & _ & Hn & Hsp). destruct (reap_all _ _ Hi Hj) as [Ht _].
    split_and!; [exact Hsp|exact Ha|exact Ht|exact Hn|done|by eapply joined_bound].
Qed.


(** The figures of [mesh-cycle].  With at least one round it reports the
    smallest and the largest of the rounds' totals and a median of them, and a
    median of the write times exactly when every round has one; with none it
    ends in an out-of-bounds panic instead of a summary. *)
Theorem cycle_summary_spec rs :
  match cycle_summary rs with
  | None => rs = []
  | Some s =>
      is_median (sm_median s) (total_ms <$> rs)
      ∧ sm_min s ∈ total_ms <$> rs ∧ sm_max s ∈ total_ms <$> rs
      ∧ Forall (λ r, sm_min s ≤ total_ms r ≤ sm_max s) rs
      ∧ match sm_quorum s with
        | Some q => Forall (λ r, is_Some (quorum_write_ms r)) rs ∧ is_median q (omap quorum_write_ms rs)
        | None => ¬ Forall (λ r, is_Some (quorum_write_ms r)) rs
        end
  end.
Proof.
  destruct (decide (rs = [])) as [->|Hne]; [done|]. unfold cycle_summary.
  set (totals := total_ms <$> rs).
  assert (totals ≠ []) as Hne' by (by destruct rs).
  pose proof (median_spec totals) as Hm. destruct (median totals) as [m|]; [|done].
  pose proof (merge_sort_Permutation Z.le totals) as Hp.
  destruct (sorted_ends (merge_sort Z.le totals)) as (lo & hi & Hlo & Hhi & Hall).
  { apply (StronglySorted_merge_sort Z.le). }
  { intros E. rewrite E in Hp. by apply Permutation_nil_l in Hp. }
  cbn [mbind option_bind]. rewrite Hlo, Hhi. cbn [mbind option_bind sm_median sm_min sm_max sm_quorum].
  rewrite Hp in Hall. apply head_Some_elem_of in Hlo. apply last_Some_elem_of in Hhi. rewrite Hp in Hlo, Hhi.
  split_and!; [done..|by apply Forall_fmap in Hall|].
  assert (length totals = length rs) as Hlen by apply length_fmap.
  pose proof (quorum_count rs) as Hq. rewrite <- Hlen in Hq.
  destruct (Nat.eqb_spec (length (omap quorum_write_ms rs)) (length totals)) as [E|E]; [|tauto].
  pose proof (median_spec (omap quorum_write_ms rs)) as Hmq. destruct (median _); [tauto|].
  exfalso. rewrite Hmq in E. by destruct rs.
Qed.

(** ** Witnesses *)

Definition two_nodes : list MeshNode :=
  [mkNode $"server" $"10.100.0.2"; mkNode $"agent1" $"10.100.0.3"].
Definition two_pids : list Z := [5; 6].

(** Both threads spawn, then both register, in the other order, and load. *)
Definition two_loaded : Mesh :=
  mkMesh [TLoaded 5; TLoaded 6] (6 :: 5 :: replicate 14 0) ({[6]} ∪ ({[5]} ∪ ∅)) false.

Lemma two_run : rtc mesh_step (mesh_start 2) two_loaded.
Proof.
  eapply rtc_l; [apply (mesh_spawn 0 5); [reflexivity|reflexivity|lia|apply not_elem_of_empty]|].
  eapply rtc_l; [apply (mesh_spawn 1 6); [reflexivity|reflexivity|lia|cbn [m_alive mesh_start]; set_solver]|].
  eapply rtc_l; [apply (mesh_own 1 6 (6 :: replicate 15 0)); reflexivity|].
  eapply rtc_l; [apply (mesh_own 0 5 (6 :: 5 :: replicate 14 0)); reflexivity|].
  eapply rtc_l; [apply (mesh_load 0 5); reflexivity|].
  eapply rtc_l; [apply (mesh_load 1 6); reflexivity|]. apply rtc_refl.
Qed.

Lemma mesh_rounds_leave_none_witness :
  ∃ m r, mesh_rounds two_nodes m [r] ∧ m_alive m = ∅ ∧ m_table m = no_vmms
         ∧ quorum_write_ms r = None
         ∧ m_alive (release two_pids two_loaded) = {[5; 6]}
         ∧ m_alive (mesh_die two_loaded) = ∅.
Proof.
  assert (rtc mesh_step (mesh_start 2) two_loaded) as Hs by exact two_run.
  assert (joined two_loaded two_pids) as Hj by done.
  assert (mesh_rounds two_nodes (reap two_pids two_loaded) ([] ++ [mkMeshResume 900 40 None])) as Hr.
  { refine (one_round two_nodes _ _ _ _ (mkWaits 900 (Ok (Some 40)) (Ok false) 0) _ (no_round _) Hs Hj _). reflexivity. }
  destruct (mesh_rounds_leave_none two_nodes) as (H1 & H2 & H3).
  destruct (H1 _ _ Hr) as (Ht & Ha & _).
  assert (mesh_reachable 2 two_loaded) as Hm by exact (reachable_trans _ _ _ (mesh_reach_start 2) Hs).
  destruct (H3 _ _ Hm Hj) as (_ & Hrel & _).
  assert (round_dies two_nodes [] (mesh_die two_loaded)) as Hd.
  { refine (dies_waiting two_nodes _ _ _ two_pids (mkWaits 900 (Ok None) (Ok false) 0) no_answer (no_round _) Hs Hj _).
    reflexivity. }
  exists (reap two_pids two_loaded), (mkMeshResume 900 40 None).
  split; [exact Hr|]. split; [exact Ha|]. split; [exact Ht|]. split; [reflexivity|]. split.
  - etransitivity; [exact Hrel|]. set_solver.
  - exact (H2 _ _ Hd).
Defined.


(** Three rounds, one without a write time. *)
Example cycle_summary_three :
  cycle_summary [mkMeshResume 900 40 (Some 60); mkMeshResume 700 50 None; mkMeshResume 800 45 (Some 70)]
  = Some (mkSummary 845 750 940 None).
Proof. reflexivity. Qed.
