(* ===== verification/SnapProgress.v ===== *)
(** * The meshes get somewhere ([rust/kubenyx-snap/src/lib.rs])

    [mesh-take] and the restore threads of [mesh-resume] stop after a bounded
    number of steps, whatever the interleaving, and stop nowhere but where the
    code does: no step relation of SnapMesh or SnapVerbs gets stuck. *)

From S2P Require Import Prelude Text SnapIdentity SnapMesh SnapVerbs SnapCycle.

(** ** Specifications *)

(** A step, whatever it asks of the world. *)
Definition take_next (names : list text) (ph ph' : TakePhase) : Prop := ∃ ev, take_step names ph ev ph'.

(** The steps left: three for each node and four for the whole. *)
Definition take_left (names : list text) (ph : TakePhase) : nat :=
  match ph with
  | Pausing rest => length rest + 2 * length names + 4
  | Snapping waiting running _ => 2 * length waiting + length running + 3
  | Recording => 2
  | Killing => 1
  | Ended _ => 0
  end.

Definition thread_left (t : Thread) : nat :=
  match t with TStart => 3 | TSpawned _ => 2 | TOwned _ => 1 | TLoaded _ => 0 end.
Definition threads_left (ts : list Thread) : nat := sum_list_with thread_left ts.
Definition mesh_left (m : Mesh) : nat := if m_exited m then 0 else S (threads_left (m_threads m)).

(** The slots in use. *)
Definition used (t : Slots) : nat := length (filter (λ s : Z, s ≠ 0) t).
Definition owners (ts : list Thread) : nat := length (omap owned_pid ts).

(** ** Lemmas *)

(** A relation that decreases a measure. *)
Lemma measure_sn {A} (R : relation A) (f : A → nat) x : (∀ x y, R x y → (f y < f x)%nat) → sn R x.
Proof.
  intros H. induction (well_founded_ltof _ f x) as [x _ IH]. constructor. intros y Hy. by apply IH, H.
Qed.

Lemma measure_nsteps {A} (R : relation A) (f : A → nat) k x y : (∀ x y, R x y → (f y < f x)%nat) →
  nsteps R k x y → (k + f y ≤ f x)%nat.
Proof. intros H. induction 1 as [|k x y z Hxy _ IH]; [lia|]. specialize (H _ _ Hxy). lia. Qed.

Lemma take_next_left names ph ph' : take_next names ph ph' → (take_left names ph' < take_left names ph)%nat.
Proof. intros [ev Hs]. destruct Hs; cbn [take_left length]; rewrite ?length_app; cbn [length]; lia. Qed.

Lemma take_start_left nodes manifest out_ok :
  (take_left (n_name <$> nodes) (mesh_take_start nodes manifest out_ok) ≤ 3 * length nodes + 4)%nat.
Proof.
  unfold mesh_take_start. destruct (assert_volatile_mesh_take _ _); [|cbn; lia].
  destruct out_ok; cbn [take_left]; rewrite ?length_fmap; lia.
Qed.

Lemma take_next_red names ph : (∀ e, ph ≠ Ended e) → red (take_next names) ph.
Proof.
  intros Hne. destruct ph as [[|n rest]|w r f| | |e].
  - eexists _, _. apply take_spawn.
  - eexists _, _. apply take_pause.
  - destruct w as [|n w]; [|eexists _, _; apply (take_create _ n [] w)].
    destruct r as [|n r]; [|eexists _, _; apply (take_created _ n [] [] r)].
    eexists _, _. apply take_joined.
  - eexists _, _. apply take_record.
  - eexists _, _. apply take_kill.
  - by destruct (Hne e).
Qed.

Lemma threads_left_update ts i t u : ts !! i = Some t →
  (threads_left (<[i:=u]> ts) + thread_left t = threads_left ts + thread_left u)%nat.
Proof.
  intros Hi. pose proof (lookup_lt_Some _ _ _ Hi). rewrite insert_take_drop by done.
  rewrite <- (take_drop_middle _ _ _ Hi) at 3. unfold threads_left.
  rewrite !sum_list_with_app. cbn [sum_list_with]. lia.
Qed.

Lemma mesh_step_left m m' : mesh_step m m' → (mesh_left m' < mesh_left m)%nat.
Proof.
  intros Hs. destruct Hs as [i pid m He Hi _ _|i pid t m He Hi _|i pid m He Hi _|i pid m He Hi|m He];
    unfold mesh_left; rewrite He; cbn [m_exited m_threads mesh_die]; try lia.
  all: match goal with |- context [<[_:=?u]> _] => pose proof (threads_left_update _ _ _ u Hi) as H end;
    cbn [thread_left] in H; lia.
Qed.

Lemma owners_update ts i t u : ts !! i = Some t →
  (owners (<[i:=u]> ts) + length (omap owned_pid [t]) = owners ts + length (omap owned_pid [u]))%nat.
Proof.
  intros Hi. pose proof (lookup_lt_Some _ _ _ Hi). rewrite insert_take_drop by done.
  rewrite <- (take_drop_middle _ _ _ Hi) at 3. unfold owners.
  change (u :: drop (S i) ts) with ([u] ++ drop (S i) ts). change (t :: drop (S i) ts) with ([t] ++ drop (S i) ts).
  rewrite !omap_app, !length_app. lia.
Qed.

Lemma own_vmm_used pid t t' : pid ≠ 0 → own_vmm pid t = Some t' → used t' = S (used t).
Proof.
  intros Hp (a & b & -> & -> & _)%own_vmm_Some. unfold used. rewrite !filter_app, !length_app.
  rewrite filter_cons_True by done. rewrite filter_cons_False by lia. cbn [length]. lia.
Qed.

(** The table holds one pid for each thread that owns its own. *)
Lemma mesh_used nodes m : mesh_reachable nodes m → m_exited m = false → used (m_table m) = owners (m_threads m).
Proof.
  intros Hm. induction Hm as [|m m' Hm IH Hs]; intros He'.
  { unfold used, owners, mesh_start. cbn [m_table m_threads]. clear He'. induction nodes; [done|done]. }
  assert (m_exited m = false) as He by (by destruct Hs). specialize (IH He).
  destruct (mesh_reachable_inv _ _ Hm) as [Hi _]. destruct (Hi He) as (_ & Ha & acc & _ & _ & Hpos).
  destruct Hs as [i pid m _ Hl _ _|i pid t m _ Hl Ho|i pid m _ Hl _|i pid m _ Hl|m _];
    cbn [m_table m_threads m_exited mesh_die] in *; try done.
  - pose proof (owners_update _ _ _ (TSpawned pid) Hl) as Hup. cbn in Hup. lia.
  - assert (0 < pid) by (apply Hpos, Ha; by eexists _, _).
    pose proof (owners_update _ _ _ (TOwned pid) Hl) as Hup. cbn in Hup.
    rewrite (own_vmm_used pid _ _ ltac:(lia) Ho). lia.
  - pose proof (owners_update _ _ _ (TLoaded pid) Hl) as Hup. cbn in Hup. lia.
Qed.

Lemma owners_lt ts i t : ts !! i = Some t → owned_pid t = None → (owners ts < length ts)%nat.
Proof.
  intros Hi Ht. rewrite <- (take_drop_middle _ _ _ Hi). unfold owners.
  change (t :: drop (S i) ts) with ([t] ++ drop (S i) ts). rewrite !omap_app, !length_app.
  cbn [omap list_omap]. rewrite Ht. cbn [length].
  assert (∀ l, (length (omap owned_pid l) ≤ length l)%nat) as Hl.
  { intros l. induction l as [|x l IH]; [done|]. cbn [omap list_omap]. destruct (owned_pid x); cbn [length]; lia. }
  pose proof (Hl (take i ts)). pose proof (Hl (drop (S i) ts)). lia.
Qed.

Lemma all_loaded (ts : list Thread) : (∃ pids : list Z, ts = TLoaded <$> pids) ∨ ∃ (i : nat) t, ts !! i = Some t ∧ ∀ pid, t ≠ TLoaded pid.
Proof.
  induction ts as [|t ts [[pids ->]|(i & u & Hi & Hu)]].
  - left. by exists [].
  - destruct t as [|pid|pid|pid]; [right; by exists 0%nat, TStart|right; by exists 0%nat, (TSpawned pid)
      |right; by exists 0%nat, (TOwned pid)|left; by exists (pid :: pids)].
  - right. by exists (S i), u.
Qed.

(** A pid the system can hand out. *)
Lemma free_pid (alive : gset Z) : ∃ pid, 0 < pid ∧ pid ∉ alive.
Proof.
  set (X := set_map (D:=gset nat) Z.to_nat alive ∪ {[0%nat]}). exists (Z.of_nat (fresh X)).
  pose proof (is_fresh X) as Hf. unfold X in Hf at 2. apply not_elem_of_union in Hf as [Hf H0].
  rewrite elem_of_singleton in H0. split; [lia|]. intros Hin. apply Hf, elem_of_map.
  exists (Z.of_nat (fresh X)). by rewrite Nat2Z.id.
Qed.

(** With a slot for every node there is always a step that is not an end. *)
Lemma mesh_moves nodes m : mesh_reachable nodes m → (nodes ≤ OWNED_MAX)%nat → m_exited m = false →
  (∃ pids, joined m pids) ∨ ∃ m', mesh_step m m' ∧ m_exited m' = false.
Proof.
  intros Hm Hn He. destruct (all_loaded (m_threads m)) as [[pids Hp]|(i & t & Hi & Ht)].
  { left. by exists pids. }
  right. destruct t as [|pid|pid|pid].
  - destruct (free_pid (m_alive m)) as (pid & Hpos & Hf). eexists. split; [by apply (mesh_spawn i pid)|done].
  - destruct (own_vmm pid (m_table m)) as [t|] eqn:Eo.
    { eexists. split; [by apply (mesh_own i pid t)|done]. }
    exfalso. apply own_vmm_None in Eo. pose proof (mesh_used _ _ Hm He) as Hu.
    destruct (mesh_reachable_inv _ _ Hm) as (Hinv & _ & Hlen). destruct (Hinv He) as (_ & _ & acc & (Hl & _) & _).
    unfold used in Hu. rewrite filter_all in Hu by done.
    pose proof (owners_lt _ _ _ Hi eq_refl). lia.
  - eexists. split; [by apply (mesh_load i pid)|done].
  - by destruct (Ht pid).
Qed.

(** ** Theorems *)

(** [mesh-take] always gets to an end.  From wherever its checks leave it,
    in any interleaving of its threads and whatever the outcome of every
    call, it makes at most three steps for each node and four more, and the
    only phases without a next step are its exits. *)
Theorem mesh_take_ends nodes manifest out_ok :
  let next := take_next (n_name <$> nodes) in
  let start := mesh_take_start nodes manifest out_ok in
  sn next start
  ∧ ∀ k ph, nsteps next k start ph →
      (k ≤ 3 * length nodes + 4)%nat ∧ (nf next ph ↔ ∃ e, ph = Ended e).
Proof.
  intros next start. pose proof (take_next_left (n_name <$> nodes)) as Hleft.
  split; [by eapply measure_sn|]. intros k ph Hk. split.
  - pose proof (measure_nsteps _ _ _ _ _ Hleft Hk). pose proof (take_start_left nodes manifest out_ok).
    unfold start in *. lia.
  - split.
    + intros Hnf. destruct ph; eauto; exfalso; apply Hnf, take_next_red; done.
    + intros [e ->] [ph' Hs]. apply Hleft in Hs. cbn in Hs. lia.
Qed.


(** ** Witnesses *)

Lemma mesh_take_ends_witness :
  let nodes := [mkNode $"server" $"10.100.0.2"] in
  nf (take_next (n_name <$> nodes)) (Ended (PauseFailed $"server"))
  ∧ ¬ nf (take_next (n_name <$> nodes)) (mesh_take_start nodes None true).
Proof.
  intros nodes. destruct (mesh_take_ends nodes None true) as [_ H]. split.
  - apply (H 1%nat); [|by eexists]. eapply nsteps_l; [|apply nsteps_O].
    eexists. apply take_pause_fails.
  - intros Hnf. apply (H 0%nat) in Hnf as [e He]; [|apply nsteps_O]. discriminate He.
Defined.

