(* ===== verification/SnapUsable.v ===== *)
(** * From restored to usable ([rust/kubenyx-snap/src/lib.rs])

    The second half of [mesh_resume_once] with the waits it makes: the addresses
    it dials, the loops one after the other, and what becomes of the round. *)

From S2P Require Import Prelude Text Utf8 Net Tls SnapIdentity SnapApi SnapWait SnapMesh SnapVerbs SnapCycle.

(** ** Definitions *)

(** What the main thread met after the join: the time to the join, what the
    checks of a clock and the attempts of each loop found, and the two times
    it reports. *)
Record AfterJoin := mkAfterJoin {
  aj_loaded : Z;
  aj_api_clock : nat → Z; aj_api_wires : nat → Wire; aj_api_ms : Z;
  aj_fetch_clock : nat → Z; aj_gets : nat → Wire;
  aj_write_clock : nat → Z; aj_write_wires : nat → Wire; aj_write_ms : Z }.

(** [wait_api]'s ten seconds, [wait_quorum_write]'s twenty. *)
Definition API_TIMEOUT : Z := 10000.
Definition QUORUM_TIMEOUT : Z := 20000.

Definition port_6443 (ip : text) : text := ip ++ $":6443".
Definition port_10124 (ip : text) : text := ip ++ $":10124".

(** The waits of a round; its errors are the ends of the process, and [None]
    that the fuel of a loop ran out. *)
Definition after_join `{L : !TlsLib} (nodes : list MeshNode) (c : AfterJoin) (fuel : nat)
    : option (result text MeshResume) :=
  match nodes with
  | [] => Some (Err $"index out of bounds: the len is 0 but the index is 0")
  | n :: _ =>
      match wait_api (port_6443 (n_ip n)) (aj_api_clock c) API_TIMEOUT (aj_api_wires c) fuel with
      | None => None
      | Some (Err e) => Some (Err e)
      | Some (Ok None) => Some (Err no_answer)
      | Some (Ok (Some _)) =>
          if (1 <? servers_of nodes)%nat then
            match wait_quorum_write (port_10124 (n_ip n)) (aj_fetch_clock c) (aj_write_clock c) QUORUM_TIMEOUT
                    (aj_gets c) (aj_write_wires c) fuel with
            | None => None
            | Some (Err e) => Some (Err e)
            | Some (Ok false) => Some (Err no_quorum)
            | Some (Ok true) => Some (Ok (mkMeshResume (aj_loaded c) (aj_api_ms c) (Some (aj_write_ms c))))
            end
          else Some (Ok (mkMeshResume (aj_loaded c) (aj_api_ms c) None))
      end
  end.

(** The clocks of a round: each loop sleeps between its checks. *)
Definition clocks_tick (c : AfterJoin) : Prop :=
  ticking (aj_api_clock c) ∧ ticking (aj_fetch_clock c) ∧ ticking (aj_write_clock c).

(** The kubeconfig a round got, served no later than at the first failed fetch
    past the deadline. *)
Definition served_kubeconfig `{L : !TlsLib} (n : MeshNode) (c : AfterJoin) (body : text) : Prop :=
  let fetch k := http_get_body (port_10124 (n_ip n)) (aj_gets c k) in
  ∃ i, fetch i = Some body ∧ ∀ j, (j < i)%nat → fetch j = None ∧ aj_fetch_clock c j < QUORUM_TIMEOUT.

(** The apiserver answered in time; a write was committed in time. *)
Definition api_answered `{L : !TlsLib} (n : MeshNode) (c : AfterJoin) : Prop :=
  ∃ k, aj_api_clock c k < API_TIMEOUT
       ∧ probe_once (port_6443 (n_ip n)) (n_ip n) (aj_api_wires c k) = Ok true.
Definition write_committed `{L : !TlsLib} (n : MeshNode) (c : AfterJoin) : Prop :=
  ∃ body client k, served_kubeconfig n c body ∧ quorum_client body = Ok client
    ∧ first_in_time (aj_write_clock c) QUORUM_TIMEOUT
        (λ k, quorum_write_once client (aj_write_wires c k)) 0 k (Ok true).

(** ** Lemmas *)

(** *** The addresses of a mesh *)

Definition mesh_octets (k : Z) : list Z := [10; 100; 0; k].

Lemma mesh_ip_fmt k : $"10.100.0." ++ fmt_dec k = fmt_ipv4 (mesh_octets k).
Proof. done. Qed.

Lemma wrap_u32_range z : 0 ≤ wrap_u32 z ≤ u32_max.
Proof. unfold wrap_u32, wrap_unsigned, u32_max. pose proof (Z.mod_pos_bound z (2 ^ 32)). lia. Qed.

(** A conventional address is dotted, with some last number. *)
Lemma conventional_last name servers ip : conventional_ip name servers = Some ip →
  ∃ k, 0 ≤ k ≤ u32_max ∧ ip = fmt_ipv4 (mesh_octets k)
       ∧ (name = $"server" → k = 2)
       ∧ (∀ n, name ≠ $"server" → number_suffix name $"server" = Some n → k = wrap_u32 (1 + n))
       ∧ (∀ n, name ≠ $"server" → number_suffix name $"server" = None → number_suffix name $"agent" = Some n →
            k = wrap_u32 (wrap_u32 (1 + servers) + n)).
Proof.
  unfold conventional_ip. case_decide as Hn.
  { intros [= <-]. exists 2. split; [by vm_compute|]. split; [done|]. split; [done|]. by split. }
  destruct (number_suffix name $"server") as [n|].
  { intros [= <-]. exists (wrap_u32 (1 + n)). split; [apply wrap_u32_range|]. split; [done|]. split; [done|].
    split; [by intros ? _ [= ->]|done]. }
  destruct (number_suffix name $"agent") as [n|]; [|done]. intros [= <-].
  exists (wrap_u32 (wrap_u32 (1 + servers) + n)). split; [apply wrap_u32_range|]. split; [done|]. split; [done|].
  split; [done|]. by intros ? _ _ [= ->].
Qed.

Lemma mesh_octets_wf k : 0 ≤ k ≤ 255 → length (mesh_octets k) = 4%nat ∧ Forall (λ x, 0 ≤ x ≤ 255) (mesh_octets k).
Proof.
  intros Hk. split; [done|]. unfold mesh_octets. do 4 (apply Forall_cons_2; [lia|]). apply Forall_nil_2.
Qed.

Lemma mesh_socket_addr k port : 0 ≤ k → 0 ≤ port ≤ U16_MAX →
  socket_addr (fmt_ipv4 (mesh_octets k) ++ ch ":" :: fmt_dec port) = true ↔ k ≤ 255.
Proof.
  intros Hk Hp. split.
  - intros H. destruct (Z.le_gt_cases k 255) as [|Hb]; [done|].
    rewrite (socket_addr_big 10 100 0 k) in H; [done| |lia|done].
    do 3 (apply Forall_cons_2; [lia|]). apply Forall_nil_2.
  - intros Hb. destruct (mesh_octets_wf k ltac:(lia)) as [Hl Ho]. by apply socket_addr_v4.
Qed.

Lemma host_of_port o port : Forall (λ x, 0 ≤ x) o → host_of (fmt_ipv4 o ++ ch ":" :: port) = fmt_ipv4 o.
Proof.
  intros Ho. unfold host_of. by rewrite split_app_sep by by apply fmt_ipv4_no_colon.
Qed.

(** *** A round *)

Section round.
Context `{L : !TlsLib}.
(** A certificate can be for an address. *)
Hypothesis name_ip : ∀ a, is_Some (parse_ip_addr a) → server_name a = true.

Variables (n : MeshNode) (o : list Z).
Hypothesis Hl : length o = 4%nat.
Hypothesis Ho : Forall (λ x, 0 ≤ x ≤ 255) o.
Hypothesis Hip : n_ip n = fmt_ipv4 o.

Lemma probe_never_dies w : ∃ b, probe_once (port_6443 (n_ip n)) (n_ip n) w = Ok b.
Proof.
  unfold probe_once. rewrite Hip.
  assert (socket_addr (port_6443 (fmt_ipv4 o)) = true) as ->
    by (apply (socket_addr_v4 o 6443); [done|done|by vm_compute]).
  cbn [negb]. unfold exchange_tls. rewrite name_ip; [destruct (connected w); eauto|].
  exists (V4 o). apply (fmt_ip_parse (V4 o)). by split.
Qed.

Lemma api_host : host_of (port_6443 (n_ip n)) = n_ip n.
Proof.
  rewrite Hip. apply (host_of_port o ($"6443")). eapply Forall_impl; [exact Ho|]. cbv beta. intros; lia.
Qed.

Lemma api_wait_ends c fuel : ticking (aj_api_clock c) → (Z.to_nat API_TIMEOUT < fuel)%nat →
  ∃ r, wait_api (port_6443 (n_ip n)) (aj_api_clock c) API_TIMEOUT (aj_api_wires c) fuel = Some (Ok r)
       ∧ (is_Some r ↔ api_answered n c).
Proof.
  intros Ht Hf. unfold wait_api. rewrite api_host.
  destruct (wait_while_spec (aj_api_clock c) API_TIMEOUT
    (λ k, probe_once (port_6443 (n_ip n)) (n_ip n) (aj_api_wires c k)) fuel Ht Hf) as ([r|e] & -> & Hyes & Herr).
  - exists r. split; [done|]. split.
    + intros [k ->]. destruct (proj1 (Hyes k) eq_refl) as (_ & Hk & Hc & _). by exists k.
    + intros (k & Hc & Hk). destruct r as [i|]; [by eexists|]. exfalso.
      assert (∃ i, first_in_time (aj_api_clock c) API_TIMEOUT
        (λ k, probe_once (port_6443 (n_ip n)) (n_ip n) (aj_api_wires c k)) 0 i (Ok true)) as [i Hi].
      { destruct (least_true (λ j, match probe_once (port_6443 (n_ip n)) (n_ip n) (aj_api_wires c j) with
                                   | Ok b => b | Err _ => false end) k) as (i & Hik & Hi & Hj); [by rewrite Hk|].
        exists i. pose proof (ticking_le _ Ht i k Hik). split_and!; [lia| |lia|].
        - destruct (probe_never_dies (aj_api_wires c i)) as [[] E]; rewrite E in *; done.
        - intros j Hji. specialize (Hj j ltac:(lia)).
          destruct (probe_never_dies (aj_api_wires c j)) as [[] E]; rewrite E in *; done. }
      by apply Hyes in Hi.
  - exfalso. destruct (proj1 (Herr e) eq_refl) as (k & _ & Hk & _).
    destruct (probe_never_dies (aj_api_wires c k)) as [b E]. congruence.
Qed.
End round.

(** ** Theorems *)


(** C24: a round of a mesh restore ends, and says what it found.  With clocks
    that tick and nodes whose first has a dotted address, the waits after the
    join end within 20001 rounds of each loop.  The mesh is reported usable
    exactly when the first node's apiserver answered within ten seconds and,
    with several servers, a write was committed within twenty; otherwise the
    process ends saying which of the two did not happen, or why the
    kubeconfig it was served, or the address in it, was of no use. *)
Theorem mesh_round_ends `{L : TlsLib} nodes n o c fuel :
  (∀ a, is_Some (parse_ip_addr a) → server_name a = true) →
  head nodes = Some n → length o = 4%nat → Forall (λ x, 0 ≤ x ≤ 255) o → n_ip n = fmt_ipv4 o →
  clocks_tick c → (Z.to_nat QUORUM_TIMEOUT < fuel)%nat →
  ∃ v, after_join nodes c fuel = Some v
  ∧ (∃ w, wt_loaded w = aj_loaded c ∧ v = resume_verdict nodes w)
  ∧ (is_ok v = true ↔ api_answered n c ∧ ((1 < servers_of nodes)%nat → write_committed n c))
  ∧ ∀ e, v = Err e → (e = no_answer ∧ ¬ api_answered n c)
       ∨ (api_answered n c ∧ (1 < servers_of nodes)%nat
          ∧ (e = no_quorum ∧ ¬ write_committed n c
             ∨ ∃ body, served_kubeconfig n c body
               ∧ (quorum_client body = Err e
                  ∨ ∃ client k, quorum_client body = Ok client ∧ quorum_write_once client (aj_write_wires c k) = Err e))).
Proof.
  intros Hname Hn Hl Ho Hip (Ht1 & Ht2 & Ht3) Hf. unfold after_join.
  destruct nodes as [|n' nodes]; [done|]. injection Hn as ->.
  destruct (api_wait_ends Hname n o Hl Ho Hip c fuel Ht1) as (r & -> & Hr); [unfold QUORUM_TIMEOUT, API_TIMEOUT in *; lia|].
  destruct r as [k|].
  2: { exists (Err no_answer). split; [done|]. split; [by exists (mkWaits (aj_loaded c) (Ok None) (Ok false) 0)|].
       assert (¬ api_answered n c) as Hno by (intros H; by apply Hr in H as []).
       split; [naive_solver|]. intros e [= <-]. by left. }
  assert (api_answered n c) as Hyes by (apply Hr; by eexists). clear Hr.
  destruct (Nat.ltb_spec 1 (servers_of (n :: nodes))) as [Hs|Hs].
  2: { eexists. split; [done|]. split; [|split; [|done]].
       - exists (mkWaits (aj_loaded c) (Ok (Some (aj_api_ms c))) (Ok false) 0). split; [done|].
         unfold resume_verdict. simpl. destruct (Nat.ltb_spec 1 (servers_of (n :: nodes))); [lia|done].
       - split; [|done]. intros _. split; [done|]. lia. }
  destruct (wait_quorum_write_spec (port_10124 (n_ip n)) (aj_fetch_clock c) (aj_write_clock c) QUORUM_TIMEOUT
              (aj_gets c) (aj_write_wires c) fuel Ht2 Ht3 Hf) as (w & -> & Hw & He).
  assert (∀ W, wt_loaded W = aj_loaded c → wt_api W = Ok (Some (aj_api_ms c)) → wt_write W = w →
            resume_verdict (n :: nodes) W =
            match w with Ok true => Ok (mkMeshResume (aj_loaded c) (aj_api_ms c) (Some (wt_write_time W)))
                       | Ok false => Err no_quorum | Err e => Err e end) as HW.
  { intros W H1 H2 H3. unfold resume_verdict. rewrite H2. cbn [result_bind of_option].
    destruct (Nat.ltb_spec 1 (servers_of (n :: nodes))); [|lia]. rewrite H3, H1. by destruct w as [[]|]. }
  set (W := mkWaits (aj_loaded c) (Ok (Some (aj_api_ms c))) w (aj_write_ms c)).
  specialize (HW W eq_refl eq_refl eq_refl). cbn [wt_write_time W] in HW.
  destruct w as [[]|e]; eexists; (split; [done|]); (split; [by exists W|]).
  - split; [|done]. split; [|done]. intros _. split; [done|]. intros _. by apply Hw.
  - assert (¬ write_committed n c) as Hno by (intros H; by apply Hw in H).
    split; [split; [done|]; naive_solver|]. intros e [= <-]. right. split; [done|]. split; [done|]. by left.
  - split.
    + split; [done|]. intros [_ H]. by apply Hw in H.
    + intros e' [= <-]. right. split; [done|]. split; [done|]. right. exact (He e eq_refl).
Qed.

(** ** Witnesses *)

#[local] Existing Instance toy_tls.


(** Two servers; the apiserver answers at the fourth attempt, the kubeconfig is
    served at the third, the second write is committed. *)
Definition two_servers : list MeshNode :=
  [mkNode $"server1" $"10.100.0.2"; mkNode $"server2" $"10.100.0.3"].

Definition usable_kc : text :=
  $"certificate-authority-data: QQ==" ++ [newline] ++ $"server: https://10.100.0.2:6443" ++ [newline]
  ++ $"client-certificate-data: Qg==" ++ [newline] ++ $"client-key-data: Qw==" ++ [newline].

Definition usable_round : AfterJoin :=
  mkAfterJoin 900 (λ k, 150 * Z.of_nat k) (toy_wires 3 $"HTTP/1.1 401") 470
    (λ k, 50 * Z.of_nat k) (toy_serve 2 usable_kc) (λ k, 100 * Z.of_nat k) (toy_wires 1 $"HTTP/1.1 200 OK") 1500.

Lemma mesh_round_ends_witness :
  ∃ v, after_join two_servers usable_round (S (Z.to_nat QUORUM_TIMEOUT)) = Some v ∧ is_ok v = true.
Proof.
  destruct (mesh_round_ends two_servers (mkNode $"server1" $"10.100.0.2") [10; 100; 0; 2] usable_round
              (S (Z.to_nat QUORUM_TIMEOUT))) as (v & E & _ & Hok & _);
    [done|done|done|apply (bool_decide_unpack _); by vm_compute|done| |lia|].
  - split_and!; (split; [done|]); intros k; cbn [aj_api_clock aj_fetch_clock aj_write_clock usable_round]; lia.
  - exists v. split; [exact E|]. apply Hok. split.
    + exists 3%nat. by vm_compute.
    + intros _.
      exists usable_kc, (mkQuorumClient (mkClientConfig (WebPki [$"QQ=="]) (Some ([$"Qg=="], $"Qw=="))) $"10.100.0.2" $"10.100.0.2:6443"), 1%nat.
      split; [|split; [by vm_compute|]].
      * exists 2%nat. split; [by vm_compute|]. intros j Hj. assert (j = 0 ∨ j = 1)%nat as [->| ->] by lia; by vm_compute.
      * split_and!; [lia|by vm_compute|by vm_compute|]. intros j Hj. assert (j = 0)%nat as -> by lia. by vm_compute.
Defined.
