(* ===== verification/SnapMeshCycle.v ===== *)
(** * The whole mesh-cycle verb ([rust/kubenyx-snap/src/lib.rs])

    The flags of [cmd_mesh_cycle], its rounds, and its ends: refused, dead in a
    round, out of bounds, or with its figures printed. *)

From S2P Require Import Prelude Text SnapIdentity SnapMesh SnapVerbs SnapCycle.

(** ** Definitions *)

(** [-n], with its default. *)
Definition cycle_count (flags : list text) : result text Z :=
  let? n := flags_get $"-n" flags in
  match n with
  | Some v => of_option $"bad -n" (parse_unsigned u32_max v)
  | None => Ok 5
  end.

(** What comes before the first round, in its order. *)
Definition mesh_cycle_flags (is_file : text → bool) (read canonicalize : text → option text)
    (path_dirs : option (list text)) (cpuinfo : option text) (sha256 : text → bytes) (flags : list text)
    : result text (list MeshNode * Z) :=
  let? flagged := mesh_resume_flags is_file read canonicalize path_dirs cpuinfo sha256 flags in
  let? n := cycle_count flags in
  Ok (flagged.1.1.2, n).

(** Refused before anything is spawned; ended in the round after some; out of
    bounds at the figures; the figures printed. *)
Inductive CycleEnd :=
| CycleRefused (msg : text) | CycleBroken (rs : list MeshResume) | CyclePanicked
| CycleReported (rs : list MeshResume) (s : Summary).

(** A run of [cmd_mesh_cycle], from what the flags gave. *)
Inductive mesh_cycle_run (flagged : result text (list MeshNode * Z)) : CycleEnd → Mesh → Prop :=
| cycle_refused e : flagged = Err e → mesh_cycle_run flagged (CycleRefused e) (mesh_start 0)
| cycle_broken nodes n rs m :
    flagged = Ok (nodes, n) → Z.of_nat (length rs) < n → round_dies nodes rs m →
    mesh_cycle_run flagged (CycleBroken rs) m
| cycle_panicked nodes n rs m :
    flagged = Ok (nodes, n) → mesh_rounds nodes m rs → Z.of_nat (length rs) = n → cycle_summary rs = None →
    mesh_cycle_run flagged CyclePanicked m
| cycle_reported nodes n rs m s :
    flagged = Ok (nodes, n) → mesh_rounds nodes m rs → Z.of_nat (length rs) = n → cycle_summary rs = Some s →
    mesh_cycle_run flagged (CycleReported rs s) m.

(** ** Specifications *)

(** The figures of some rounds: the extreme totals and a median of them; and a
    median of the write times, or none. *)
Definition figures (rs : list MeshResume) (several : bool) (s : Summary) : Prop :=
  is_median (sm_median s) (total_ms <$> rs)
  ∧ sm_min s ∈ total_ms <$> rs ∧ sm_max s ∈ total_ms <$> rs
  ∧ Forall (λ r, sm_min s ≤ total_ms r ≤ sm_max s) rs
  ∧ if several then ∃ q, sm_quorum s = Some q ∧ is_median q (omap quorum_write_ms rs)
    else sm_quorum s = None.

(** ** Lemmas *)

Lemma mesh_cycle_flags_Ok is_file read canonicalize path_dirs cpuinfo sha256 flags nodes n :
  mesh_cycle_flags is_file read canonicalize path_dirs cpuinfo sha256 flags = Ok (nodes, n) →
  cycle_count flags = Ok n ∧ ∃ snapshot fc pci,
    mesh_resume_flags is_file read canonicalize path_dirs cpuinfo sha256 flags = Ok (snapshot, nodes, fc, pci).
Proof.
  unfold mesh_cycle_flags. destruct (mesh_resume_flags _ _ _ _ _ _ _) as [[[[snapshot nodes'] fc] pci]|]; [|done].
  cbn [result_bind]. destruct (cycle_count flags) as [n'|]; [|done]. cbn. intros [= <- <-].
  split; [done|]. by exists snapshot, fc, pci.
Qed.

Lemma cycle_summary_figures nodes m rs s :
  clean_rounds nodes m rs → rs ≠ [] → cycle_summary rs = Some s → figures rs (1 <? servers_of nodes)%nat s.
Proof.
  intros (_ & _ & Hq) Hne Es. pose proof (cycle_summary_spec rs) as Hs. rewrite Es in Hs.
  destruct Hs as (H1 & H2 & H3 & H4 & H5). repeat split; [by apply H1..|done|done|done|].
  destruct (Nat.ltb_spec 1 (servers_of nodes)) as [Hm|Hm], (sm_quorum s) as [q|]; [|exfalso; apply H5|exfalso|done].
  - exists q. by split; [|apply H5].
  - eapply Forall_impl; [exact Hq|]. by intros r ->.
  - destruct H5 as [H5 _], rs as [|r rs]; [done|]. apply Forall_cons_1 in H5 as [Hr _], Hq as [Hq _].
    apply Hq in Hr. lia.
Qed.

Lemma cycle_count_range flags n : cycle_count flags = Ok n → 0 ≤ n ≤ u32_max.
Proof.
  unfold cycle_count. destruct (flags_get _ flags) as [[v|]|]; [|by intros [= <-]|done].
  cbn [result_bind]. destruct (parse_unsigned u32_max v) as [z|] eqn:E; [|done]. intros [= <-].
  by eapply parse_unsigned_range.
Qed.

Lemma no_figures rs : cycle_summary rs = None ↔ rs = [].
Proof.
  split; [|by intros ->]. intros E. pose proof (cycle_summary_spec rs) as H. by rewrite E in H.
Qed.

(** ** Theorem *)


(** ** Witness *)

(** One round of two nodes, by a manifest without an identity. *)
Definition demo_read (p : text) : option text :=
  if decide (p = $"mesh-snapshot/manifest")
  then Some ($"server 10.100.0.2" ++ [newline] ++ $"agent1 10.100.0.3") else None.


(** [-n 0] panics at the figures, with nothing ever spawned. *)
Example no_rounds : cycle_count [$"-n"; $"0"] = Ok 0 ∧ cycle_summary [] = None.
Proof. split; reflexivity. Qed.
