(* ===== verification/UnitTests.v ===== *)
(** * The unit tests of kubenyx-lb, kubenyx-pki and the multicall binary

    The [tests] modules of [rust/kubenyx-lb/src/lib.rs],
    [rust/kubenyx-pki/src/lib.rs] and [rust/kubenyx/src/main.rs], assertion by
    assertion, over the definitions that model the functions they call: the
    model passes the tests the code passes. *)

From S2P Require Import Prelude Text Utf8 Paths Lb Cli Pki PkiServe.

(** ** Assertions *)

(** A test is the conjunction of its assertions; [unwrap] fails it on an
    error. *)
Definition assert_all (l : list bool) : bool := forallb id l.
Definition assert_eq {A} `{EqDecision A} (a b : A) : bool := bool_decide (a = b).
Definition unwrap {E A} (r : result E A) (k : A → bool) : bool :=
  match r with Ok a => k a | Err _ => false end.
Definition is_err {E A} (r : result E A) : bool := negb (is_ok r).

(** ** kubenyx-lb *)

Definition parse_defaults_and_backends : bool :=
  unwrap (Lb.parse_args [$"--backend"; $"10.0.0.1:6443"; $"--backend"; $"10.0.0.2:6443"]) (λ cfg,
    assert_all [
      assert_eq (Lb.listen cfg) $"127.0.0.1:6444";
      assert_eq (backends cfg) [$"10.0.0.1:6443"; $"10.0.0.2:6443"];
      assert_eq (probe_interval cfg) 500;
      assert_eq (fail_threshold cfg) 3;
      negb (probe_http cfg)]).

Definition parse_overrides : bool :=
  unwrap (Lb.parse_args [$"--listen"; $"127.0.0.1:0"; $"--backend"; $"a:1"; $"--probe-interval-ms"; $"50";
                         $"--fail-threshold"; $"2"; $"--drain-timeout-ms"; $"1000"; $"--probe-http"]) (λ cfg,
    assert_all [
      assert_eq (Lb.listen cfg) $"127.0.0.1:0";
      assert_eq (probe_interval cfg) 50;
      assert_eq (fail_threshold cfg) 2;
      assert_eq (drain_timeout cfg) 1000;
      probe_http cfg]).

Definition parse_rejects_bad_input : bool :=
  assert_all [
    is_err (Lb.parse_args []);
    is_err (Lb.parse_args [$"--backend"]);
    is_err (Lb.parse_args [$"--backend"; $"a:1"; $"--fail-threshold"; $"0"]);
    is_err (Lb.parse_args [$"--backend"; $"a:1"; $"--probe-interval-ms"; $"x"]);
    is_err (Lb.parse_args [$"--frob"]);
    is_err (Lb.parse_args [$"--backend"; $"a:1"; $"--probe-cert"; $"/c.crt"]);
    is_err (Lb.parse_args [$"--backend"; $"a:1"; $"--probe-key"; $"/c.key"]);
    is_ok (Lb.parse_args [$"--backend"; $"a:1"; $"--probe-cert"; $"/c.crt"; $"--probe-key"; $"/c.key"])].

Definition pick_order_healthy_first_rotated : bool :=
  assert_all [
    assert_eq (pick_order [true; false; true] 1) [2; 0; 1]%nat;
    assert_eq (pick_order [true; true; true] 2) [2; 0; 1]%nat;
    assert_eq (pick_order [false; false] 0) [0; 1]%nat;
    assert_eq (pick_order [true] 7) [0]%nat].

(** ** kubenyx *)

#[export] Instance Route_eq_dec : EqDecision Route.
Proof. solve_decision. Defined.

Definition argv0_map_covers_every_legacy_name : bool :=
  assert_all ((λ '(verb, legacy),
    let path := $"/nix/store/eeee-kubenyx-tools-0.1.0/bin/" ++ legacy in
    let rest := [$"--flag"; $"v"] in
    assert_eq (verb_for_argv0 legacy) (Some verb) && assert_eq (route path rest) (Run verb rest)) <$> VERBS).

Definition argv0_kubenyx_falls_through_to_subcommands : bool :=
  let rest := [$"pki"; $"--node-name"; $"n1"] in
  assert_all [
    assert_eq (verb_for_argv0 $"kubenyx") None;
    assert_eq (route $"/nix/store/eeee/bin/kubenyx" rest) (Run $"pki" (drop 1 rest))].

Definition subcommand_map_covers_every_verb : bool :=
  assert_all ((λ '(verb, _),
    let rest := [verb; $"--x"] in assert_eq (route $"kubenyx" rest) (Run verb (drop 1 rest))) <$> VERBS).

Definition help_and_usage_routes : bool :=
  assert_all [
    assert_eq (route $"kubenyx" [$"--help"]) Help;
    assert_eq (route $"kubenyx" [$"-h"]) Help;
    assert_eq (route $"kubenyx" [$"frobnicate"]) Usage;
    assert_eq (route $"kubenyx" []) Usage;
    assert_eq (route $"kubenyx" [$"kubenyx-snap"]) Usage].

Definition usage_lists_every_verb : bool :=
  let text := usage in assert_all ((λ '(verb, _), contains verb text) <$> VERBS).

(** ** kubenyx-pki *)

(** The six files, in a directory [d], with sizes that are no multiples of a
    block. *)
Definition custody_dir : Disk :=
  mkDisk (list_to_map (imap (λ i f, (path_join $"d" f, replicate (100 * i + 7) (ch "a" + N.of_nat i)%N)) CUSTODY_FILES))
    [] 0 0.

(** Names and sizes; [None] where the reader's own assertions fail. *)
Fixpoint parse_tar (fuel : nat) (payload : bytes) : option (list (text * Z)) :=
  match fuel with
  | O => None
  | S fuel =>
      let h := take 512 payload in
      if existsb (λ b, negb (bool_decide (b = zero))) h then
        let sum := byte_sum h - byte_sum (slice 148 156 h) + byte_sum spaces in
        stored ← oct_value (slice 148 154 h);
        if assert_eq (slice 257 263 h) ($"ustar" ++ [zero]) && assert_eq stored sum then
          size ← oct_value (slice 124 135 h);
          let padded := length (pad512 (replicate (Z.to_nat size) zero)) in
          entries ← parse_tar fuel (drop (512 + padded) payload);
          Some ((from_utf8_lossy (until_zero h), size) :: entries)
        else None
      else if forallb (λ b, bool_decide (b = zero)) (take 1024 payload) && (length payload =? 1024)%nat then Some []
      else None
  end.

Definition tar_payload_round_trips_names_and_sizes : bool :=
  unwrap (tar_bundle $"d" custody_dir).1 (λ payload,
    let want := imap (λ i f, (f, 100 * Z.of_nat i + 7)) CUSTODY_FILES in
    assert_eq (parse_tar 7 payload) (Some want)).

(** The test's client writes its request, reads to the end and closes. *)
Definition test_client : Conn :=
  mkConn true true true true [RData ($"GET / HTTP/1.0" ++ crlf ++ $"Host: test" ++ blank_line); REof].

Definition serve_hands_off_bundle_over_http_and_exits_at_count : bool :=
  unwrap (tar_bundle $"d" custody_dir).1 (λ payload,
    let resp := serve_sent test_client payload in
    match split_once_str blank_line resp with
    | Some (head, body) =>
        assert_all [
          starts_with ($"HTTP/1.0 200 OK" ++ crlf) resp;
          contains $"Content-Type: application/x-tar" head;
          assert_eq body payload;
          assert_eq (fst <$> serve_loop (Some 1) 0 [Some test_client]) (Some 1)]
    | None => false
    end).

(** ** The tests pass *)

Lemma lb_tests_pass :
  assert_all [parse_defaults_and_backends; parse_overrides; parse_rejects_bad_input; pick_order_healthy_first_rotated] = true.
Proof. by vm_compute. Qed.

Lemma cli_tests_pass :
  assert_all [argv0_map_covers_every_legacy_name; argv0_kubenyx_falls_through_to_subcommands;
              subcommand_map_covers_every_verb; help_and_usage_routes; usage_lists_every_verb] = true.
Proof. by vm_compute. Qed.

Lemma pki_tests_pass :
  assert_all [tar_payload_round_trips_names_and_sizes; serve_hands_off_bundle_over_http_and_exits_at_count] = true.
Proof. by vm_compute. Qed.
