(* ===== verification/SnapTests.v ===== *)
(** * The unit tests of kubenyx-snap ([rust/kubenyx-snap/src/lib.rs])

    The [tests] module, assertion by assertion, over the definitions that model
    the functions it calls.  Two tests depend on the machine: SHA-256, and the
    fingerprint of its CPU; they are arguments here, with what the test needs
    of them as the hypotheses of [snap_tests_pass]. *)

From S2P Require Import Prelude Text SnapIdentity SnapApi SnapWait SnapMesh Pki UnitTests.

(** ** Literals *)

(** A JSON text, with quotation marks for apostrophes. *)
Definition json (s : text) : text := (λ c, if decide (c = ch "'") then quote else c) <$> s.
Definition tab : text := [9%N].
Definition nl1 : text := [newline].

(** [s.replace(pat, with)], for at most so many occurrences. *)
Fixpoint str_replace (fuel : nat) (pat with_ s : text) : text :=
  match fuel with
  | O => s
  | S fuel =>
      match split_once_str pat s with
      | Some (a, b) => a ++ with_ ++ str_replace fuel pat with_ b
      | None => s
      end
  end.

(** ** Addresses and order *)

Definition single_server_convention_is_byte_stable : bool :=
  assert_all [
    assert_eq (conventional_ip $"server" 1) (Some $"10.100.0.2");
    assert_eq (conventional_ip $"agent1" 1) (Some $"10.100.0.3");
    assert_eq (conventional_ip $"agent6" 1) (Some $"10.100.0.8")].

Definition server_n_addressing_mirrors_mk_members : bool :=
  assert_all [
    assert_eq (conventional_ip $"server1" 3) (Some $"10.100.0.2");
    assert_eq (conventional_ip $"server2" 3) (Some $"10.100.0.3");
    assert_eq (conventional_ip $"server3" 3) (Some $"10.100.0.4");
    assert_eq (conventional_ip $"agent1" 3) (Some $"10.100.0.5");
    assert_eq (conventional_ip $"agent2" 3) (Some $"10.100.0.6")].

Definition junk_names_do_not_resolve : bool :=
  assert_all (((λ name, assert_eq (conventional_ip name 3) None)
               <$> [$"server0"; $"agent0"; $"serverx"; $"agent"; $"gateway"; []])
    ++ [negb (is_server_name $"agent1"); negb (is_server_name $"server0");
        is_server_name $"server"; is_server_name $"server12"]).

(** [sort_by_key(mesh_order_key)]. *)
Definition key_le (a b : text) : Prop :=
  (mesh_order_key a).1 < (mesh_order_key b).1
  ∨ (mesh_order_key a).1 = (mesh_order_key b).1 ∧ (mesh_order_key a).2 ≤ (mesh_order_key b).2.
#[local] Instance key_le_dec a b : Decision (key_le a b).
Proof. unfold key_le. apply _. Defined.

Definition ordering_is_servers_first_then_numeric : bool :=
  let names := [$"agent2"; $"server2"; $"agent10"; $"server10"; $"server1"; $"agent1"] in
  assert_all [
    assert_eq (n_name <$> sort_nodes ((λ n, mkNode n []) <$> names))
      [$"server1"; $"server2"; $"server10"; $"agent1"; $"agent2"; $"agent10"];
    assert_eq (merge_sort key_le [$"agent1"; $"server"]) [$"server"; $"agent1"]].

(** ** The launcher's manifest *)

Definition MANIFEST : text :=
  json ($"{'nodes':[{'ip':'10.100.0.2','name':'server1','role':'server'},"
        ++ $"{'ip':'10.100.0.3','name':'server2','role':'server'},"
        ++ $"{'ip':'10.100.0.5','name':'agent1','role':'agent'}],"
        ++ $"'posture':'volatile'}").

Definition run_manifest_parses_launcher_json : bool :=
  unwrap (parse_run_manifest MANIFEST) (λ m,
    assert_all [
      assert_eq (posture m) $"volatile";
      assert_eq ((λ n, (n_name n, n_ip n)) <$> rm_nodes m)
        [($"server1", $"10.100.0.2"); ($"server2", $"10.100.0.3"); ($"agent1", $"10.100.0.5")]]).

Definition run_manifest_rejects_garbage : bool :=
  assert_all [
    is_err (parse_run_manifest $"{}");
    is_err (parse_run_manifest (json $"{'nodes':[],'posture':'volatile'}"));
    is_err (parse_run_manifest (json $"{'nodes':[{'ip':'10.100.0.2'}],'posture':'v'}"))].

Definition mesh_take_posture_gate : bool :=
  unwrap (parse_run_manifest MANIFEST) (λ volatile,
    let durable := mkRunManifest $"durable" (rm_nodes volatile) in
    assert_all [
      is_ok (assert_volatile_mesh_take 2 (Some volatile));
      is_err (assert_volatile_mesh_take 2 None);
      is_err (assert_volatile_mesh_take 3 (Some durable));
      is_ok (assert_volatile_mesh_take 1 None);
      is_ok (assert_volatile_mesh_take 0 None)]).

(** ** Identity *)

Definition CPUINFO : text :=
  $"processor" ++ tab ++ $": 0" ++ nl1 ++ $"vendor_id" ++ tab ++ $": GenuineIntel" ++ nl1
  ++ $"cpu family" ++ tab ++ $": 6" ++ nl1 ++ $"model" ++ tab ++ tab ++ $": 143" ++ nl1
  ++ $"model name" ++ tab ++ $": Xeon" ++ nl1
  ++ $"flags" ++ tab ++ tab ++ $": fpu avx xsave amx_tile avx2 la57" ++ nl1 ++ nl1
  ++ $"processor" ++ tab ++ $": 1" ++ nl1 ++ $"vendor_id" ++ tab ++ $": GenuineIntel" ++ nl1.

Definition cpu_fingerprint_is_stable_watchlist_order : bool :=
  let no_amx := str_replace (length CPUINFO) $" amx_tile" [] CPUINFO in
  assert_all [
    assert_eq (cpu_fingerprint_from CPUINFO) $"GenuineIntel/6/143+avx,avx2,amx_tile,xsave,la57";
    assert_eq (cpu_fingerprint_from no_amx) $"GenuineIntel/6/143+avx,avx2,xsave,la57";
    assert_eq (cpu_fingerprint_from []) $"unknown/unknown/unknown+"].

Definition full_identity : SnapIdentity :=
  mkIdentity (Some $"/nix/store/aaa-microvm-run") (Some $"/nix/store/bbb-firecracker/bin/firecracker")
    (Some $"GenuineIntel/6/143+avx,avx2") None.

Definition templated_identity : SnapIdentity :=
  mkIdentity None (Some $"/nix/store/bbb-firecracker/bin/firecracker")
    (Some $"template:sha256:5dd9") (Some $"GenuineIntel/6/173+avx,avx2,amx_tile").

#[export] Instance SnapIdentity_eq_dec : EqDecision SnapIdentity.
Proof. solve_decision. Defined.

(** [SnapIdentity { closure: None, ..id }]. *)
Definition without_closure (id : SnapIdentity) : SnapIdentity := mkIdentity None (vmm id) (cpu id) (cpu_host id).

Definition identity_round_trips_through_manifest_lines : bool :=
  let partial := without_closure full_identity in
  let lines := identity_lines partial in
  assert_all [
    assert_eq (parse_identity (identity_lines full_identity)) full_identity;
    negb (contains $"closure" lines);
    assert_eq (parse_identity lines) partial].

Definition legacy_manifest_has_no_identity : bool :=
  let legacy := $"server1 10.100.0.2" ++ nl1 ++ $"server2 10.100.0.3" ++ nl1 ++ $"agent1 10.100.0.5" ++ nl1 in
  assert_all [
    is_empty (parse_identity legacy);
    is_empty (parse_identity ($"identity tsc_khz 2100000" ++ nl1))].

Definition identity_match_and_mismatch : bool :=
  let rec := full_identity in
  let live := without_closure full_identity in
  let other_vmm :=
    mkIdentity (closure live) (Some $"/nix/store/ccc-firecracker/bin/firecracker") (cpu live) (cpu_host live) in
  let rec_no_vmm := mkIdentity (closure rec) None (cpu rec) (cpu_host rec) in
  assert_all [
    assert_eq (length (identity_mismatches rec rec)) 0%nat;
    assert_eq (length (identity_mismatches rec live)) 0%nat;
    assert_eq (mm_field <$> identity_mismatches rec other_vmm) [$"vmm"];
    forallb (λ x, negb (assert_eq (mm_field x) $"vmm")) (identity_mismatches rec_no_vmm other_vmm)].

(** ** CPU templates *)

Definition canonicalize_strips_only_insignificant_whitespace : bool :=
  let pretty := json ($"{" ++ nl1 ++ $"  'a': 'x y\' z'," ++ nl1 ++ $"  'b': [ 1, 2 ]" ++ nl1 ++ $"}" ++ nl1) in
  assert_all [
    assert_eq (canonicalize_json pretty) (json $"{'a':'x y\' z','b':[1,2]}");
    assert_eq (canonicalize_json (json $"'a b'")) (json $"'a b'")].

Definition minified : text := json $"{'cpuid_modifiers':[{'leaf':'0x7'}],'msr_modifiers':[]}".

Definition template_hash_is_format_independent (sha256 : text → bytes) : bool :=
  let pretty := json ($"{" ++ nl1 ++ $"  'cpuid_modifiers': [" ++ nl1 ++ $"    { 'leaf': '0x7' }" ++ nl1
                      ++ $"  ]," ++ nl1 ++ $"  'msr_modifiers': []" ++ nl1 ++ $"}") in
  assert_all [
    assert_eq (template_hash sha256 minified) (template_hash sha256 pretty);
    starts_with $"sha256:" (template_hash sha256 minified);
    assert_eq (length (template_hash sha256 minified)) (length $"sha256:" + 64)%nat;
    negb (assert_eq (template_hash sha256 minified)
            (template_hash sha256 (str_replace (length minified) $"0x7" $"0xd" minified)))].

Definition json_value_extraction_from_runner_config : bool :=
  let cfg := json ($"{" ++ nl1 ++ $"  'boot-source': { 'kernel_image_path': '/nix/store/k' }," ++ nl1
                   ++ $"  'cpu-config': '/nix/store/abc-cpu-config.json'," ++ nl1 ++ $"  'machine-config': {}" ++ nl1 ++ $"}") in
  let inner := json $"{'cpuid_modifiers':[{'leaf':'0x7','modifiers':[{'bitmap':'0bx{x'}]}]}" in
  let inline := json $"{ 'cpu-config': " ++ inner ++ json $", 'x': 1 }" in
  assert_all [
    assert_eq (json_value_after_key cfg $"cpu-config") (Some (json $"'/nix/store/abc-cpu-config.json'"));
    assert_eq (json_value_after_key inline $"cpu-config") (Some inner);
    assert_eq (json_value_after_key cfg $"cpu-template") None].

Definition take_cpu_identity_spellings (fingerprint : text) : bool :=
  assert_all [
    assert_eq (take_cpu_identity fingerprint (Some $"sha256:5dd9")).1 (Some $"template:sha256:5dd9");
    bool_decide (is_Some (take_cpu_identity fingerprint (Some $"sha256:5dd9")).2);
    match (take_cpu_identity fingerprint None).1 with Some cpu => negb (starts_with TEMPLATE_PREFIX cpu) | None => false end;
    assert_eq (take_cpu_identity fingerprint None).2 None].

(** ** The CPU gate *)

(** No mismatch, no warning; one mismatch, with its field and a condition on
    it. *)
Definition clean (r : list IdentityMismatch * list HostWarning) : bool :=
  assert_eq (length r.1) 0%nat && assert_eq (length r.2) 0%nat.
Definition refused (r : list IdentityMismatch * list HostWarning) (ok : IdentityMismatch → bool) : bool :=
  match r.1 with [m] => ok m | _ => false end.

Definition cpu_gate_host_keyed_unchanged : bool :=
  let fp := $"GenuineIntel/6/143+avx,avx2" in
  assert_all [
    clean (cpu_identity_check (Some fp) None fp None);
    refused (cpu_identity_check (Some fp) None $"GenuineIntel/6/173+avx" None) (λ m, assert_eq (mm_field m) $"cpu");
    refused (cpu_identity_check (Some fp) None fp (Some $"sha256:5dd9"))
      (λ m, contains $"WITHOUT a template" (why_text (mm_why m)))].

Definition cpu_gate_template_keyed : bool :=
  let rec := $"template:sha256:5dd9" in
  let host_a := $"GenuineIntel/6/173+avx,amx_tile" in
  let host_b := $"GenuineIntel/6/143+avx" in
  assert_all [
    clean (cpu_identity_check (Some rec) (Some host_a) host_a (Some $"sha256:5dd9"));
    (let '(m, w) := cpu_identity_check (Some rec) (Some host_a) host_b (Some $"sha256:5dd9") in
     assert_eq (length m) 0%nat
     && match w with [w] => contains host_a (warning_text w) && contains host_b (warning_text w) | _ => false end);
    refused (cpu_identity_check (Some rec) (Some host_a) host_a (Some $"sha256:beef")) (λ m, assert_eq (mm_field m) $"cpu");
    refused (cpu_identity_check (Some rec) (Some host_a) host_a None) (λ m, contains $"no --cpu-template" (mm_live m));
    assert_eq (length (cpu_identity_check (Some $"template:T2S") None host_a (Some $"T2S")).1) 0%nat;
    refused (cpu_identity_check (Some $"template:T2S") None host_a (Some $"T2CL")) (λ _, true)].

Definition cpu_gate_partial_manifest : bool :=
  assert_all [
    clean (cpu_identity_check None None $"any" None);
    refused (cpu_identity_check None None $"any" (Some $"sha256:5dd9")) (λ _, true)].

Definition templated_identity_round_trips_and_legacy_reads_conservatively : bool :=
  let id := templated_identity in
  let lines := identity_lines id in
  assert_all [
    contains ($"identity cpu template:sha256:5dd9" ++ nl1) lines;
    contains ($"identity cpu-host GenuineIntel/6/173+avx,avx2,amx_tile" ++ nl1) lines;
    assert_eq (parse_identity lines) id;
    negb (assert_eq (cpu id) (Some $"GenuineIntel/6/173+avx,avx2,amx_tile"))].

(** ** Files *)

Definition mesh_manifest_keeps_nodes_and_identity_apart : bool :=
  let nodes := [mkNode $"server1" $"10.100.0.2"; mkNode $"agent1" $"10.100.0.5"] in
  let raw := manifest_body nodes full_identity in
  starts_with ($"server1 10.100.0.2" ++ nl1 ++ $"agent1 10.100.0.5" ++ nl1 ++ $"identity ") raw
  && unwrap (read_manifest $"dir" raw) (λ back,
       assert_all [
         assert_eq (length back) 2%nat;
         assert_eq (n_name <$> back !! 0%nat) (Some $"server1");
         assert_eq (n_ip <$> back !! 1%nat) (Some $"10.100.0.5");
         assert_eq (read_snapshot_identity (Some raw)) (Some full_identity)]).

Definition kubeconfig_fields_from_pki_template : bool :=
  let kc := $"apiVersion: v1" ++ nl1 ++ $"clusters:" ++ nl1 ++ $"- name: kubenyx" ++ nl1 ++ $"  cluster:" ++ nl1
            ++ $"    certificate-authority-data: Q0E=" ++ nl1 ++ $"    server: https://10.100.0.2:6443" ++ nl1
            ++ $"users:" ++ nl1 ++ $"- name: kubenyx-admin" ++ nl1 ++ $"  user:" ++ nl1
            ++ $"    client-certificate-data: Q0VSVA==" ++ nl1 ++ $"    client-key-data: S0VZ" ++ nl1 in
  assert_all [
    assert_eq (kubeconfig_value kc $"server") (Some $"https://10.100.0.2:6443");
    assert_eq (kubeconfig_value kc $"certificate-authority-data") (Some $"Q0E=");
    assert_eq (kubeconfig_value kc $"client-key-data") (Some $"S0VZ");
    assert_eq (kubeconfig_value kc $"token") None].

(** ** The tests pass *)

Lemma mesh_tests_pass :
  assert_all [single_server_convention_is_byte_stable; server_n_addressing_mirrors_mk_members;
    junk_names_do_not_resolve; ordering_is_servers_first_then_numeric; run_manifest_parses_launcher_json;
    run_manifest_rejects_garbage; mesh_take_posture_gate; mesh_manifest_keeps_nodes_and_identity_apart;
    kubeconfig_fields_from_pki_template] = true.
Proof. by vm_compute. Qed.

Lemma identity_tests_pass :
  assert_all [cpu_fingerprint_is_stable_watchlist_order; identity_round_trips_through_manifest_lines;
    legacy_manifest_has_no_identity; identity_match_and_mismatch; canonicalize_strips_only_insignificant_whitespace;
    json_value_extraction_from_runner_config; cpu_gate_host_keyed_unchanged; cpu_gate_template_keyed;
    cpu_gate_partial_manifest; templated_identity_round_trips_and_legacy_reads_conservatively] = true.
Proof. by vm_compute. Qed.

(** The digits of bytes are theirs alone. *)
Lemma hex_digit_inj a b : 0 ≤ a < 16 → 0 ≤ b < 16 → hex_digit a = hex_digit b → a = b.
Proof.
  intros Ha Hb. unfold hex_digit. destruct (Z.ltb_spec a 10), (Z.ltb_spec b 10); intros E; apply (f_equal Z.of_N) in E;
    rewrite !Z2N.id in E by lia; lia.
Qed.

Lemma hex_byte_inj a b : (a < 256)%N → (b < 256)%N → hex_byte a = hex_byte b → a = b.
Proof.
  intros Ha Hb [= H1 H2].
  pose proof (Z.div_mod (Z.of_N a) 16 ltac:(done)). pose proof (Z.div_mod (Z.of_N b) 16 ltac:(done)).
  apply hex_digit_inj in H1; [|split; [apply Z.div_pos; lia|apply Z.div_lt_upper_bound; lia]..].
  apply hex_digit_inj in H2; [|by apply Z.mod_pos_bound..]. lia.
Qed.

Lemma hex_inj l k : Forall (λ b, (b < 256)%N) l → Forall (λ b, (b < 256)%N) k →
  mjoin (hex_byte <$> l) = mjoin (hex_byte <$> k) → l = k.
Proof.
  intros Hl. revert k. induction Hl as [|a l Ha Hl IH]; intros k Hk E; destruct Hk as [|b k Hb Hk]; try done.
  cbn [fmap list_fmap mjoin list_join app hex_byte] in E. injection E as E1 E2 E.
  f_equal; [apply hex_byte_inj; [done..|]; unfold hex_byte; by rewrite E1, E2|by apply IH].
Qed.

Lemma length_hex l : length (mjoin (hex_byte <$> l)) = (2 * length l)%nat.
Proof.
  induction l as [|b l IH]; [done|]. change (mjoin (hex_byte <$> b :: l)) with (hex_byte b ++ mjoin (hex_byte <$> l)).
  rewrite length_app, IH. cbn [length hex_byte]. lia.
Qed.

(** With a digest of 32 bytes that tells the two contents apart, and a
    fingerprint that is not spelled like a template's. *)
Lemma snap_tests_pass sha256 fingerprint :
  (∀ t, length (sha256 t) = 32%nat ∧ Forall (λ b, (b < 256)%N) (sha256 t)) →
  sha256 minified ≠ sha256 (str_replace (length minified) $"0x7" $"0xd" minified) →
  starts_with TEMPLATE_PREFIX fingerprint = false →
  template_hash_is_format_independent sha256 = true ∧ take_cpu_identity_spellings fingerprint = true.
Proof.
  intros Hs Hne Hfp. split.
  - unfold template_hash_is_format_independent, template_hash.
    assert (canonicalize_json minified = minified) as -> by (by vm_compute).
    assert (canonicalize_json (str_replace (length minified) $"0x7" $"0xd" minified)
            = str_replace (length minified) $"0x7" $"0xd" minified) as -> by (by vm_compute).
    match goal with |- context [canonicalize_json ?p] =>
      assert (canonicalize_json p = minified) as -> by (by vm_compute) end.
    unfold assert_all. cbn [forallb id]. unfold assert_eq, starts_with.
    rewrite !andb_true_iff, negb_true_iff, bool_decide_eq_false. split_and!; try done.
    + by apply bool_decide_true.
    + apply bool_decide_true. transitivity (7 + length (mjoin (hex_byte <$> sha256 minified)))%nat; [reflexivity|].
      by rewrite length_hex, (proj1 (Hs minified)).
    + intros H%(app_inv_head $"sha256:"). apply hex_inj in H; [done|apply Hs..].
  - unfold take_cpu_identity_spellings, assert_all. cbn [forallb id take_cpu_identity fst snd]. rewrite Hfp.
    rewrite !andb_true_r. by vm_compute.
Qed.
